(* ===== verification/_CoqProject ===== *)
-Q . S2P
Prelude.v
CoreTypes.v
Room.v
RoomSpec.v
RoomRefine.v
RoomTrace.v
RoomProps.v
Solo.v
CursorRate.v
Time.v
ServerCore.v
CoreProps.v
CoreSpec.v
Membership.v
CoreStream.v
Emptied.v
Typing.v
Messages.v
Mappers.v
JsonProtocol.v
JsonSpec.v
JsonModel.v
JsonProps.v
SnapshotStore.v
StrokeBlob.v
SqliteStore.v
SnapshotWriter.v
SavedRuns.v
Session.v
Within.v
SessionInv.v
SessionProps.v
Serve.v
ServerTyping.v
TcpServer.v
Process.v
Stoi.v
Main.v
Wire.v
Framing.v
Delivery.v
EndToEnd.v
Scenarios.v
NonFinite.v
Interleave.v
ServerThreads.v
ThreadsInv.v
ThreadsSafe.v
ThreadsEnd.v
ThreadsTrace.v
ThreadsSaves.v
ThreadsEmptied.v
ThreadsTyping.v
ThreadsProps.v
ThreadsWriter.v
