(* ===== verification/Prelude.v ===== *)
(** * ClearSpace: a verification development

    ClearSpace is a server for a shared whiteboard (C++20, Boost.Asio,
    nlohmann::json, SQLite).  A client connects over TCP and sends one JSON
    object per line: it creates or joins a room, draws strokes, moves its cursor,
    clears the board, leaves.  The server keeps the board of each room, gives
    each change of a room a number, sends it to the other members, and saves the
    board in the background.  This library models the code under [src/] in
    layers that follow its own, and proves the theorems listed below.

    ** The program and the files that model it

    - [core/include/clearspace/core/*.hpp]: [CoreTypes.v].  Structs are records,
      variants and enumerations inductive types.  Identifiers and sequence
      numbers are [Z], and every result of [std::uint64_t] arithmetic is wrapped
      ([wrap], below).  A float is its 32-bit pattern; [operator==] on points is
      IEEE equality.
    - [core/src/room.cpp], class [Room]: [Room.v].  Each public method holds the
      mutex of the room for its whole body, so it is one transition of the state
      monad [M] below; its private helpers keep their names.  [std::vector]
      indexing out of range is undefined behaviour, the outcome [None].
      [RoomSpec.v] is an abstract room without the index tables; [RoomRefine.v]
      proves that the code implements it, [RoomTrace.v] follows what one client
      is sent, [Solo.v] what it would draw alone, [CursorRate.v] counts its cursor
      moves, [RoomProps.v] holds the theorems.
    - [core/.../time.hpp], [core/src/time.cpp]: [Time.v], the providers, and a room
      whose calls read one (elsewhere the reading, [now], is an argument).
    - [core/src/room_manager.cpp], [core/src/server_core.cpp]: [ServerCore.v]
      (the table of rooms and the entry points, against the interface
      [SnapshotSink]), [CoreProps.v], [CoreSpec.v] (the abstract core, a table of
      abstract rooms, and its refinement), [Membership.v] (who is in a room after a
      call and whom its events go to), [CoreStream.v] (what one client is sent by
      a run of calls), [Emptied.v] (a room left empty has been saved) and
      [Typing.v] (the types of the data and their preservation).
    - [transport/include/clearspace/transport/messages.hpp]: [Messages.v];
      [transport/src/mappers.cpp]: [Mappers.v].
    - [transport/src/json_protocol.cpp], [protocol_error.hpp]: [JsonProtocol.v].
      nlohmann::json is the class [JsonLib]; [JsonSpec.v] states what the code
      relies on ([JsonLaws], [JsonText]), the reference client and the schema of
      the requests; [JsonModel.v] is a concrete library that satisfies the laws;
      [JsonProps.v] holds the theorems.
    - [persistence/.../snapshot_store.hpp]: the class [SnapshotStore]
      ([SnapshotStore.v]); [persistence/src/sqlite_snapshot_store.cpp], the blob
      codec: [StrokeBlob.v], the SQL: [SqliteStore.v], where SQLite is a class whose
      laws are the meaning of the statements; [persistence/src/snapshot_writer.cpp]:
      [SnapshotWriter.v], a labelled transition system of the producers, the
      worker, the flushes and the destructor; [SavedRuns.v], what a run of the
      worker leaves in the SQLite table.
    - [server/src/session_registry.cpp], [client_session.cpp]: [Session.v].  A
      handler on the strand of a session is one step of the server; a run
      interleaves the handlers of all sessions and lets every read and write
      complete or fail.  [Within.v] states once what every handler keeps;
      [SessionInv.v] holds the invariant, [SessionProps.v] the theorems; [Serve.v]
      is a small logic of what a handler does to the core and to the other
      sessions, from which [ServerTyping.v] and [Wire.v] (the lines a client
      reads, end to end) follow.  [Framing.v] adds the read buffer of a session,
      which bytes reach in pieces of any size; [Delivery.v] follows the lines
      that are written and [EndToEnd.v] joins them to what a client reads;
      [NonFinite.v] shows what a coordinate that is not finite
      does to a room.
    - The same handlers on several threads: [ServerThreads.v] splits them at every
      access to what the threads share, over the transition system of
      [Interleave.v]; [ThreadsInv.v] and [ThreadsSafe.v] hold the invariant,
      [ThreadsTrace.v], [ThreadsSaves.v], [ThreadsEmptied.v] and [ThreadsTyping.v]
      what a handler calls, saves and sends, [ThreadsEnd.v] how many actions it
      takes, and [ThreadsProps.v] the theorems.  The lemma [handler_alone] says
      that a handler that is not preempted is the step of [Session.v].
      [ThreadsWriter.v] adds the thread of the writer and the store.
    - [server/src/tcp_server.cpp]: [TcpServer.v], the acceptor and its loop.
    - [app/src/main.cpp]: [Main.v], with [std::stoi] in [Stoi.v].  [Process.v] is
      the whole: the steps of the server with the thread of the writer over the
      store.
    - [tests/*.cpp]: [Scenarios.v].  Each test is a program over the model and
      passes; the two that start threads are theorems on every order of the calls.

    ** How the parts interact

    [TcpServer] accepts a connection, makes a [ClientSession] and registers it.
    A line read by a session is parsed ([parseClientMessage]), mapped to a core
    call ([toCoreEvent]), and run on [ServerCore], which finds the [Room] and
    calls it; the events it returns are mapped back ([toServerMessage]) and
    delivered through the [SessionRegistry] to the other sessions, which write
    them in turn.  After a stroke ends, the board is cleared, or the room
    empties, [ServerCore] gives a snapshot to its sink, the [SnapshotWriter],
    whose worker saves it in the store.

    ** What the theorems show

    - The room: it implements the abstract room, never indexes out of range, and
      keeps its invariant; a client that joins and replays what it is sent has
      the board of the server; numbers have no gap and strictly increase; the
      outcome of each event, of leaving and of clearing; the cursor rate limit, and
      how far the cursor that is shown lags behind; the strokes of a client are
      what it would have drawn alone.
    - The core: rooms are numbered in order and do not interfere; snapshots are
      taken exactly when they should be and never go back.
    - The transport: requests and messages survive the wire, a line in error
      gets the error of its first offending field, the snapshot message does not
      depend on hash order.
    - Persistence: blobs round trip, and are refused when cut or extended; a
      snapshot that was saved last by the clock is what is loaded, and pruning
      keeps the newest (a lemma shows what a clock that goes back does);
      snapshots are saved in order whatever the interleaving, none is lost by
      the worker or at shutdown, a flush waits for what it should, and the
      notification of a flush can be lost.
    - The server on any number of threads: no schedule ends the process as long as
      parse errors can be quoted (and one line is enough when they cannot); every
      handler ends within a number of steps that is known before; calls are
      linearizable, and the abstract core answers them; between handlers rooms,
      registry and sessions agree; the events of one sender keep their order and
      each is passed on once; a client that puts what it is sent in the order of
      the numbers has the board; boards and snapshots stay typed; every snapshot
      handed to the sink was the board of its room after the call that made it
      due, and what is drawn is handed over; with the thread of the writer among
      them, all of these are passed to [save] in order, and the last of a room is
      what [loadLatest] gives back, if it was saved at a later time than the
      others of the room.  What is not kept is shown too: the events of two
      senders can cross, an event can overtake the snapshot of a join, and
      snapshots of a room can overtake each other.
    - The server with its handlers one after the other: the requests of a client
      are handled in order however its bytes are cut; the bytes written to a
      client that joins, sends nothing more and stays connected hold the board of
      the room, when coordinates are finite; what is delivered to a connected
      client gets written; a disconnect leaves the room; a read that completed
      before the session was stopped can leave a member that never goes away, and
      a coordinate that is not finite hides a board.
    - The process: what [main] starts, on which of its parts it fails and with
      what message, and which port it takes; one accept is always pending as long
      as parse errors can be quoted; the drawing of a room that everyone has left
      has been passed to [save] once the writer is idle, and is what [loadLatest]
      gives back under the same condition on the clock.

    ** Bounds

    Runs are bounded where a 64-bit counter must not wrap: a call uses at most
    two sequence numbers, so a hypothesis such as [2 * length ops + 1 < 2 ^ 64]
    leaves room for every counter.  No definition has fuel: the loops of the
    program run over lists and counts, and the runs are lists of operations.

    ** What is not modelled

    The sockets and the event loop of Boost.Asio, which decide which operation
    completes next, how the bytes of a client are cut, and whether it fails; and
    the clocks: of the steady clock it is used that it does not go back, of the
    system clock nothing (that a snapshot was saved later than the others of its
    room, [saved_later], is a condition of the theorems that load it).  The
    theorems on a run with the writer in [Process.v] and [Main.v] take a handler
    as one step; those on the threads ([ThreadsProps.v], [ThreadsWriter.v]) split
    it, for any sink whose hand-over is one action: [enqueue] as a whole, which
    the producers of [SnapshotWriter.v] do in three.  The thread of the writer is
    always created.  Shutdown is modelled for the writer alone: no signal is
    handled, so [main] never gets to its end. Atomics are sequentially consistent
    and memory is unbounded, except that reading a blob asks an allocator that may
    refuse.  Iteration over the hash containers is in an unspecified order
    ([HashOrder], below), and every theorem holds for all of them.

    This file holds what the others share: machine integers, the state monad,
    the iteration order of hash containers, lemmas on lists and strings. *)

From stdpp Require Export prelude gmap sets list strings sorting.
From Stdlib Require Export ZArith Lia.

#[global] Open Scope Z_scope.

(* [naive_solver] clears hypotheses it has already cleared. *)
#[export] Set Warnings "-clear-no-such-hyp".

(** ** Machine-width unsigned integers *)

(** [wrap w z] is the value a [w]-bit unsigned integer holds after [z] is
    stored in it; every arithmetic result of the code is wrapped. *)
Definition wrap (w z : Z) : Z := z mod 2 ^ w.
Definition in_width (w z : Z) : Prop := 0 ≤ z < 2 ^ w.

Abbreviation u8 := (wrap 8).
Abbreviation u32 := (wrap 32).
Abbreviation u64 := (wrap 64).
Abbreviation is_u8 := (in_width 8).
Abbreviation is_u32 := (in_width 32).
Abbreviation is_u64 := (in_width 64).

#[export] Instance in_width_dec w z : Decision (in_width w z).
Proof. unfold in_width. apply _. Defined.

(** ** Stateful computations with undefined behaviour

    [M S A] reads and writes a state [S] and returns an [A]; the outcome
    [None] is undefined behaviour of the C++ program (an out-of-range vector
    index, say), which the safety theorems show is never reached.  Errors the
    code reports are ordinary values of [A]: they do not roll the state back. *)
Definition M (S A : Type) : Type := S → option (A * S).

#[export] Instance M_ret S : MRet (M S) := λ A x s, Some (x, s).
#[export] Instance M_bind S : MBind (M S) := λ A B f m s,
  match m s with
  | Some (x, s') => f x s'
  | None => None
  end.

Definition get {S} : M S S := λ s, Some (s, s).
Definition modify {S} (f : S → S) : M S unit := λ s, Some (tt, f s).
Definition undefined {S A} : M S A := λ _, None.

(** What a computation that returns does to the state stays [within] a preorder
    [R]: it is composed of steps that do. *)
Section Within.
Context {S : Type} (R : relation S).

Definition within {A} (m : M S A) : Prop := ∀ s x s', m s = Some (x, s') → R s s'.

Lemma within_undefined {A} : within (undefined (A:=A)).
Proof. by intros s x s'. Qed.

Lemma within_modify f : (∀ s, R s (f s)) → within (modify f).
Proof. by intros Hf s x s' [= _ <-]. Qed.

Context `{!PreOrder R}.

Lemma within_ret {A} (x : A) : within (mret x).
Proof. by intros s y s' [= _ <-]. Qed.

Lemma within_get : within get.
Proof. by intros s x s' [= _ <-]. Qed.

Lemma within_bind {A B} (m : M S A) (f : A → M S B) :
  within m → (∀ x, within (f x)) → within (m ≫= f).
Proof.
  intros Hm Hf s y s' E. unfold mbind, M_bind in E. destruct (m s) as [[x s1]|] eqn:E1; [|done].
  transitivity s1; [exact (Hm _ _ _ E1)|exact (Hf _ _ _ _ E)].
Qed.
End Within.

Create HintDb within.
#[export] Hint Resolve within_ret within_undefined within_get : within.
#[export] Hint Extern 0 (PreOrder _) => apply _ : within.

(** Goes through a computation, its known parts by the hints. *)
Ltac within :=
  repeat first
    [ solve [auto 3 with within nocore]
    | apply within_bind; [apply _| |]
    | progress intros | progress case_match | case_bool_decide ].

Lemma wrap_small w z : in_width w z → wrap w z = z.
Proof. intros [??]. by apply Z.mod_small. Qed.

(** ** Unordered containers

    [std::unordered_set] and [std::unordered_map] are finite sets and maps
    whose iteration order is unspecified.  An instance of [HashOrder] is one
    choice of that order; every theorem holds for all of them. *)
Class HashOrder := {
  set_order : gset Z → list Z;
  set_order_perm s : set_order s ≡ₚ elements s;
  map_order {A} : gmap Z A → list (Z * A);
  map_order_perm {A} (m : gmap Z A) : map_order m ≡ₚ map_to_list m;
}.

(** One step of a counter that does not reach the width. *)
Lemma u64_succ n : 0 ≤ n → n + 1 < 2 ^ 64 → u64 (n + 1) = n + 1.
Proof. intros. apply wrap_small. unfold in_width. lia. Qed.

(** ** Lists *)

Lemma filter_eq_NoDup {A} `{EqDecision A} (c : A) (l : list A) :
  NoDup l → c ∈ l → filter (λ x, x = c) l = [c].
Proof.
  induction 1 as [|x l Hx _ IH]; [by intros ?%elem_of_nil|].
  rewrite filter_cons. intros [->|Hc]%elem_of_cons.
  - rewrite decide_True by done. f_equal.
    assert (∀ y, y ∈ l → ¬ y = x) as Hn by (intros ? ? ->; done). clear -Hn.
    induction l as [|y l IH]; [done|]. rewrite filter_cons, decide_False by set_solver.
    set_solver.
  - rewrite decide_False by (intros ->; done). auto.
Qed.

Lemma filter_none {A} (P : A → Prop) `{∀ x, Decision (P x)} (l : list A) :
  (∀ x, x ∈ l → ¬ P x) → filter P l = [].
Proof.
  induction l as [|x l IH]; [done|]. intros Hn.
  rewrite filter_cons, decide_False by set_solver. set_solver.
Qed.

Lemma filter_all {A} (P : A → Prop) `{∀ x, Decision (P x)} (l : list A) :
  (∀ x, x ∈ l → P x) → filter P l = l.
Proof.
  induction l as [|x l IH]; [done|]. intros Hn.
  rewrite filter_cons, decide_True by set_solver. f_equal. set_solver.
Qed.

Lemma set_order_elem `{HashOrder} (s : gset Z) c : c ∈ set_order s ↔ c ∈ s.
Proof. by rewrite set_order_perm, elem_of_elements. Qed.

Lemma set_order_NoDup `{HashOrder} (s : gset Z) : NoDup (set_order s).
Proof. rewrite set_order_perm. apply NoDup_elements. Qed.

Lemma filter_fmap {A B} (f : A → B) (P : B → Prop) `{∀ x, Decision (P x)} (l : list A) :
  filter P (f <$> l) = f <$> filter (λ x, P (f x)) l.
Proof.
  induction l as [|x l IH]; [done|]. rewrite fmap_cons, !filter_cons.
  case_decide; [by rewrite fmap_cons, IH|done].
Qed.

Lemma filter_Forall_iff {A} (P Q : A → Prop) `{∀ x, Decision (P x), ∀ x, Decision (Q x)} (l : list A) :
  Forall (λ x, P x ↔ Q x) l → filter P l = filter Q l.
Proof.
  induction 1 as [|x l Hx _ IH]; [done|]. rewrite !filter_cons, IH.
  by repeat case_decide; naive_solver.
Qed.

Lemma sublist_filter_mono {A} (P : A → Prop) `{∀ x, Decision (P x)} (l k : list A) :
  l `sublist_of` k → filter P l `sublist_of` filter P k.
Proof.
  induction 1 as [|x l k _ IH|x l k _ IH]; [done|rewrite !filter_cons|rewrite filter_cons];
    (case_decide; [by constructor|done]).
Qed.

Lemma sublist_bind {A B} (f : A → list B) (l k : list A) :
  l `sublist_of` k → (l ≫= f) `sublist_of` (k ≫= f).
Proof.
  induction 1 as [|x l k _ IH|x l k _ IH]; simpl; [done|by apply sublist_app|by apply sublist_inserts_l].
Qed.

Lemma seqZ_two n : seqZ n 2 = [n; n + 1].
Proof. rewrite seqZ_cons by lia. f_equal. Qed.

(** Two iteration orders: ascending buckets and their reverse. *)
Definition elements_order : HashOrder.
Proof. by refine {| set_order s := elements s; map_order A m := map_to_list m |}. Defined.

Definition reverse_order : HashOrder.
Proof.
  refine {| set_order s := rev (elements s); map_order A m := rev (map_to_list m) |};
    intros; symmetry; apply Permutation_rev.
Defined.

Lemma seqZ_StronglySorted n k : StronglySorted Z.lt (seqZ n k).
Proof.
  destruct (Z.le_gt_cases 0 k); [|by rewrite seqZ_nil by lia; constructor].
  revert n. pattern k. apply natlike_ind; [|intros m ? IH n|done].
  - intros n. rewrite seqZ_nil by lia. constructor.
  - rewrite seqZ_cons by lia. constructor; [by rewrite Z.pred_succ|].
    apply Forall_forall. intros x Hx%elem_of_seqZ. lia.
Qed.

Lemma sublist_Forall {A} (P : A → Prop) (l k : list A) :
  l `sublist_of` k → Forall P k → Forall P l.
Proof. induction 1; rewrite ?Forall_cons; naive_solver. Qed.

Lemma sublist_StronglySorted {A} (R : relation A) (l k : list A) :
  l `sublist_of` k → StronglySorted R k → StronglySorted R l.
Proof.
  induction 1 as [|x l k Hs IH|x l k Hs IH]; intros Hk; [constructor|..];
    apply StronglySorted_inv in Hk as [Hk Hx]; [|by auto].
  constructor; [by auto|]. by eapply sublist_Forall.
Qed.

Lemma StronglySorted_of_fmap {A B} (R : relation B) (f : A → B) (l : list A) :
  StronglySorted R (f <$> l) → StronglySorted (λ x y, R (f x) (f y)) l.
Proof.
  induction l as [|x l IH]; [constructor|]. rewrite fmap_cons. intros [Hl Hx]%StronglySorted_inv.
  constructor; [by apply IH|]. by apply (Forall_fmap f).
Qed.

(** A list in strictly increasing order of [f] is the only sorted permutation of it. *)
Lemma sorted_permutation {A} (f : A → Z) (l k : list A) :
  StronglySorted Z.lt (f <$> l) → k ≡ₚ l → StronglySorted (λ x y, f x ≤ f y) k → k = l.
Proof.
  intros Hl Hp Hk. assert (f <$> k = f <$> l) as E.
  { apply (StronglySorted_unique Z.le); [| |by rewrite Hp].
    - by eapply StronglySorted_fmap, Hk.
    - apply StronglySorted_of_fmap in Hl. eapply StronglySorted_fmap, Hl. simpl. lia. }
  pose proof Hl as Hk'. rewrite <-E in Hk'. apply StronglySorted_of_fmap in Hl, Hk'.
  apply (StronglySorted_unique_strong (λ x y, f x < f y)); [lia|done..].
Qed.

Lemma StronglySorted_snoc (l : list Z) x :
  StronglySorted Z.lt l → Forall (λ n, n < x) l → StronglySorted Z.lt (l ++ [x]).
Proof.
  intros Hl Hx. apply StronglySorted_app. split_and!; [|done|by repeat constructor].
  intros y z Hy Hz%list_elem_of_singleton. subst z. rewrite Forall_forall in Hx. auto.
Qed.

(** An element of a list that was extended at its end. *)
Lemma snoc_split {A} (l l1 l2 : list A) x y :
  l ++ [x] = l1 ++ y :: l2 → (l2 = [] ∧ x = y ∧ l = l1) ∨ ∃ l3, l2 = l3 ++ [x] ∧ l = l1 ++ y :: l3.
Proof.
  intros E. destruct l2 as [|z l2 _] using rev_ind.
  - apply app_inj_tail in E as [-> ->]. by left.
  - right. exists l2. rewrite app_comm_cons, app_assoc in E. by apply app_inj_tail in E as [-> ->].
Qed.

Lemma length_omap_le {A B} (f : A → option B) (l : list A) : (length (omap f l) ≤ length l)%nat.
Proof.
  induction l as [|x l IH]; [done|].
  change (omap f (x :: l)) with (match f x with Some y => y :: omap f l | None => omap f l end).
  destruct (f x); cbn [length]; lia.
Qed.

(** ** Strings *)

Definition is_ascii (s : string) : bool :=
  forallb (λ c, Nat.ltb (Ascii.nat_of_ascii c) 128) (String.list_ascii_of_string s).

Lemma is_ascii_app s1 s2 : is_ascii s1 = true → is_ascii s2 = true → is_ascii (s1 +:+ s2) = true.
Proof.
  unfold is_ascii. intros H1 H2. induction s1 as [|c s1 IH]; simpl in *; [done|].
  apply andb_prop in H1 as [-> H1]. by apply IH.
Qed.

(** ** Automation *)

(** Proves a decidable proposition on concrete data by computation. *)
Ltac by_decision := refine (proj1 (bool_decide_eq_true _) _); vm_compute; reflexivity.
