(* ===== verification/CoreTypes.v ===== *)
(** * Core data types

    The data of [core/include/clearspace/core/*.hpp]: identifiers, points,
    drawing types, events, errors, [Expected] and the snapshots.  A
    [std::variant] is an inductive type with one constructor per alternative,
    a struct is a record.  A [float] is held as its 32-bit object
    representation: the program only copies, compares and dumps it. *)
From S2P Require Import Prelude.
From Stdlib Require Import Floats.SpecFloat.

Abbreviation RoomId := Z (only parsing).
Abbreviation ClientId := Z (only parsing).
Abbreviation StrokeId := Z (only parsing).
Abbreviation Seq := Z (only parsing).

(** Nanoseconds of [std::chrono::steady_clock]. *)
Abbreviation TimePoint := Z (only parsing).

(** [kCursorMinInterval = std::chrono::milliseconds(40)], in nanoseconds. *)
Definition kCursorMinInterval : Z := 40 * 1000000.

(** ** Geometry *)

Record Point := mkPoint { px : Z; py : Z }.

(** The IEEE binary32 number a 32-bit pattern stands for: sign, 8 exponent
    bits biased by 127, 23 fraction bits. *)
Definition float32_value (bits : Z) : spec_float :=
  let sign := Z.testbit bits 31 in
  let expo := Z.land (Z.shiftr bits 23) 255 in
  let frac := Z.land bits (2 ^ 23 - 1) in
  if bool_decide (expo = 255) then
    if bool_decide (frac = 0) then S754_infinity sign else S754_nan
  else
    let m := if bool_decide (expo = 0) then frac else 2 ^ 23 + frac in
    let e := Z.max expo 1 - 150 in
    match m with
    | Zpos p => S754_finite sign p e
    | _ => S754_zero sign
    end.

Definition float32_eqb (a b : Z) : bool := SFeqb (float32_value a) (float32_value b).

(** [operator==(const Point&, const Point&)]. *)
Definition point_eqb (a b : Point) : bool :=
  float32_eqb (px a) (px b) && float32_eqb (py a) (py b).

(** ** Drawing *)

(** [enum class Color : std::uint8_t].  The underlying type is fixed, so an
    object of the enumeration can hold any [uint8_t]; [ColorRaw] holds the
    values that have no enumerator. *)
Inductive Color :=
  | Black | Red | Green | Blue
  | ColorRaw (raw : Z).

Inductive Thickness :=
  | Thin | Medium | Thick
  | ThicknessRaw (raw : Z).

(** [static_cast<std::uint8_t>(color)] and [static_cast<Color>(byte)]. *)
Definition color_to_u8 (c : Color) : Z :=
  match c with Black => 0 | Red => 1 | Green => 2 | Blue => 3 | ColorRaw n => n end.

Definition color_of_u8 (n : Z) : Color :=
  match n with 0 => Black | 1 => Red | 2 => Green | 3 => Blue | _ => ColorRaw n end.

Definition thickness_to_u8 (t : Thickness) : Z :=
  match t with Thin => 0 | Medium => 1 | Thick => 2 | ThicknessRaw n => n end.

Definition thickness_of_u8 (n : Z) : Thickness :=
  match n with 0 => Thin | 1 => Medium | 2 => Thick | _ => ThicknessRaw n end.

Record Stroke := mkStroke {
  stroke_id : StrokeId;
  stroke_author : ClientId;
  stroke_color : Color;
  stroke_thickness : Thickness;
  strokeOrder : Seq;
  points : list Point;
  finished : bool;
}.

Record BoardState := mkBoardState {
  strokes : list Stroke;
  cursors : gmap ClientId Point;
}.

(** [s.points.push_back(p)] and [s.finished = true]. *)
Definition push_point (p : Point) (s : Stroke) : Stroke :=
  mkStroke (stroke_id s) (stroke_author s) (stroke_color s) (stroke_thickness s)
    (strokeOrder s) (points s ++ [p]) (finished s).

Definition set_finished (s : Stroke) : Stroke :=
  mkStroke (stroke_id s) (stroke_author s) (stroke_color s) (stroke_thickness s)
    (strokeOrder s) (points s) true.

(** ** Events *)

Inductive EventPayload :=
  | StrokeBegin (color : Color) (thickness : Thickness) (start : Point)
  | StrokePoint (p : Point)
  | StrokeEnd
  | CursorMove (p : Point)
  | Clear.

Inductive ServerEventPayload :=
  | StrokeBeginOut (author : ClientId) (id : StrokeId) (order : Seq)
      (color : Color) (thickness : Thickness) (start : Point)
  | StrokePointOut (author : ClientId) (id : StrokeId) (p : Point)
  | StrokeEndOut (author : ClientId) (id : StrokeId)
  | CursorMoveOut (author : ClientId) (p : Point)
  | ClearOut (author : ClientId)
  | MemberLeftOut (client : ClientId).

Record OutgoingEvent := mkOutgoingEvent {
  ev_room : RoomId;
  ev_to : ClientId;
  ev_seq : Seq;
  ev_payload : ServerEventPayload;
}.

(** ** Errors and results *)

Inductive ErrorCode := RoomNotFound | NotInRoom | ProtocolViolation | InvalidParams.

Record Error := mkError { error_code : ErrorCode; error_message : string }.

(** The default messages of [Error::roomNotFound()] and [Error::notInRoom()]. *)
Definition roomNotFound : Error := mkError RoomNotFound "room not found".
Definition notInRoom : Error := mkError NotInRoom "client is not in room".
Definition protocolViolation (msg : string) : Error := mkError ProtocolViolation msg.
Definition invalidParams (msg : string) : Error := mkError InvalidParams msg.

(** [Expected<T, E>], a [std::variant<T, E>]. *)
Inductive Expected (T E : Type) :=
  | Value (v : T)
  | Unexpected (e : E).
Arguments Value {T E} v.
Arguments Unexpected {T E} e.

Definition has_value {T E} (r : Expected T E) : bool :=
  match r with Value _ => true | Unexpected _ => false end.

(** ** Snapshots *)

Record RoomSnapshot := mkRoomSnapshot {
  snap_room : RoomId;
  snap_lastSeq : Seq;
  snap_state : BoardState;
  snap_members : list ClientId;
}.

Record PersistedBoardSnapshot := mkPersistedBoardSnapshot {
  pers_room : RoomId;
  pers_lastSeq : Seq;
  pers_strokes : list Stroke;
}.

(** ** Decidable equality *)

#[export] Instance Point_eq_dec : EqDecision Point.
Proof. solve_decision. Defined.
#[export] Instance Color_eq_dec : EqDecision Color.
Proof. solve_decision. Defined.
#[export] Instance Thickness_eq_dec : EqDecision Thickness.
Proof. solve_decision. Defined.
#[export] Instance Stroke_eq_dec : EqDecision Stroke.
Proof. solve_decision. Defined.
#[export] Instance BoardState_eq_dec : EqDecision BoardState.
Proof. solve_decision. Defined.
#[export] Instance EventPayload_eq_dec : EqDecision EventPayload.
Proof. solve_decision. Defined.
#[export] Instance ServerEventPayload_eq_dec : EqDecision ServerEventPayload.
Proof. solve_decision. Defined.
#[export] Instance OutgoingEvent_eq_dec : EqDecision OutgoingEvent.
Proof. solve_decision. Defined.
#[export] Instance ErrorCode_eq_dec : EqDecision ErrorCode.
Proof. solve_decision. Defined.
#[export] Instance Error_eq_dec : EqDecision Error.
Proof. solve_decision. Defined.

(** ** Facts about the data *)

Lemma color_u8_roundtrip n : color_to_u8 (color_of_u8 n) = n.
Proof. by destruct n as [|[[|[]|]|[[]|[]|]|]|]. Qed.

Lemma thickness_u8_roundtrip n : thickness_to_u8 (thickness_of_u8 n) = n.
Proof. by destruct n as [|[[|[]|]|[[]|[]|]|]|]. Qed.
