(* ===== verification/Room.v ===== *)
(** * Room

    [core/src/room.cpp]: one board shared by the members of a room.  Every
    public method of the class holds the room's mutex for its whole body, so
    a call is one atomic state transition [M Room].  [now] is the value
    [timeProvider_->now()] returns during the call. *)
From S2P Require Import Prelude CoreTypes.

(** ** State *)

Record Room := mkRoom {
  id_ : RoomId;
  members_ : gset ClientId;
  board_ : BoardState;
  nextSeq_ : Seq;
  nextStrokeId_ : StrokeId;
  lastCursorUpdate_ : gmap ClientId TimePoint;
  activeStrokeByClient_ : gmap ClientId StrokeId;
  strokeIndexById_ : gmap StrokeId nat;
}.

(** [Room::Room]: the default member initialisers. *)
Definition new_room (id : RoomId) : Room :=
  mkRoom id ∅ (mkBoardState [] ∅) 1 1 ∅ ∅ ∅.

Definition upd_members (f : gset Z → gset Z) (r : Room) : Room :=
  mkRoom (id_ r) (f (members_ r)) (board_ r) (nextSeq_ r) (nextStrokeId_ r)
    (lastCursorUpdate_ r) (activeStrokeByClient_ r) (strokeIndexById_ r).
Definition upd_strokes (f : list Stroke → list Stroke) (r : Room) : Room :=
  mkRoom (id_ r) (members_ r) (mkBoardState (f (strokes (board_ r))) (cursors (board_ r)))
    (nextSeq_ r) (nextStrokeId_ r)
    (lastCursorUpdate_ r) (activeStrokeByClient_ r) (strokeIndexById_ r).
Definition upd_cursors (f : gmap Z Point → gmap Z Point) (r : Room) : Room :=
  mkRoom (id_ r) (members_ r) (mkBoardState (strokes (board_ r)) (f (cursors (board_ r))))
    (nextSeq_ r) (nextStrokeId_ r)
    (lastCursorUpdate_ r) (activeStrokeByClient_ r) (strokeIndexById_ r).
Definition upd_nextSeq (f : Z → Z) (r : Room) : Room :=
  mkRoom (id_ r) (members_ r) (board_ r) (f (nextSeq_ r)) (nextStrokeId_ r)
    (lastCursorUpdate_ r) (activeStrokeByClient_ r) (strokeIndexById_ r).
Definition upd_nextStrokeId (f : Z → Z) (r : Room) : Room :=
  mkRoom (id_ r) (members_ r) (board_ r) (nextSeq_ r) (f (nextStrokeId_ r))
    (lastCursorUpdate_ r) (activeStrokeByClient_ r) (strokeIndexById_ r).
Definition upd_lastCursor (f : gmap Z Z → gmap Z Z) (r : Room) : Room :=
  mkRoom (id_ r) (members_ r) (board_ r) (nextSeq_ r) (nextStrokeId_ r)
    (f (lastCursorUpdate_ r)) (activeStrokeByClient_ r) (strokeIndexById_ r).
Definition upd_active (f : gmap Z Z → gmap Z Z) (r : Room) : Room :=
  mkRoom (id_ r) (members_ r) (board_ r) (nextSeq_ r) (nextStrokeId_ r)
    (lastCursorUpdate_ r) (f (activeStrokeByClient_ r)) (strokeIndexById_ r).
Definition upd_index (f : gmap Z nat → gmap Z nat) (r : Room) : Room :=
  mkRoom (id_ r) (members_ r) (board_ r) (nextSeq_ r) (nextStrokeId_ r)
    (lastCursorUpdate_ r) (activeStrokeByClient_ r) (f (strokeIndexById_ r)).

(** [nextSeq_++] and [nextStrokeId_++] on [std::uint64_t]: the old value is
    returned, the stored value wraps. *)
Definition next_seq : M Room Seq :=
  r ← get; modify (upd_nextSeq (λ n, u64 (n + 1))) ;; mret (nextSeq_ r).
Definition next_stroke_id : M Room StrokeId :=
  r ← get; modify (upd_nextStrokeId (λ n, u64 (n + 1))) ;; mret (nextStrokeId_ r).

(** [board_.strokes[i] = f(board_.strokes[i])]; [operator[]] checks no bound. *)
Definition update_stroke (i : nat) (f : Stroke → Stroke) : M Room unit :=
  r ← get;
  match strokes (board_ r) !! i with
  | Some s => modify (upd_strokes <[i := f s]>)
  | None => undefined
  end.

Section Operations.
Context `{HashOrder}.

(** ** Observers *)

Definition memberCount (r : Room) : nat := size (members_ r).

Definition lastSeq (r : Room) : Seq :=
  if bool_decide (nextSeq_ r = 0) then 0 else nextSeq_ r - 1.

Definition makePersistedSnapshot (r : Room) : PersistedBoardSnapshot :=
  mkPersistedBoardSnapshot (id_ r) (lastSeq r) (strokes (board_ r)).

Definition ensureMember_ (r : Room) (client : ClientId) : Expected unit Error :=
  if bool_decide (client ∈ members_ r) then Value tt else Unexpected notInRoom.

Definition broadcast_ (r : Room) (from : ClientId) (seq : Seq)
    (payload : ServerEventPayload) : list OutgoingEvent :=
  (λ m, mkOutgoingEvent (id_ r) m seq payload) <$>
    filter (λ m, m ≠ from) (set_order (members_ r)).

(** [broadcast_] on the current state of the room. *)
Definition broadcast (from : ClientId) (seq : Seq) (payload : ServerEventPayload) :
    M Room (list OutgoingEvent) :=
  r ← get; mret (broadcast_ r from seq payload).

(** ** Membership *)

Definition join (client : ClientId) : M Room (Expected RoomSnapshot Error) :=
  modify (upd_members (λ ms, ms ∪ {[client]})) ;;
  r ← get;
  mret (Value (mkRoomSnapshot (id_ r) (lastSeq r) (board_ r) (set_order (members_ r)))).

Definition leave (client : ClientId) : M Room (Expected (list OutgoingEvent) Error) :=
  r ← get;
  if bool_decide (client ∉ members_ r) then mret (Unexpected notInRoom) else
  out ← match activeStrokeByClient_ r !! client with
        | Some sid =>
            match strokeIndexById_ r !! sid with
            | Some idx => update_stroke idx set_finished
            | None => mret tt
            end ;;
            modify (upd_active (delete client)) ;;
            seqEnd ← next_seq;
            broadcast client seqEnd (StrokeEndOut client sid)
        | None => mret []
        end;
  modify (upd_cursors (delete client)) ;;
  modify (upd_lastCursor (delete client)) ;;
  modify (upd_members (λ ms, ms ∖ {[client]})) ;;
  seqLeft ← next_seq;
  left ← broadcast client seqLeft (MemberLeftOut client);
  mret (Value (out ++ left)).

(** ** Events *)

Definition applyStrokeBegin_ (client : ClientId) (color : Color)
    (thickness : Thickness) (start : Point) : M Room (Expected (list OutgoingEvent) Error) :=
  r ← get;
  match activeStrokeByClient_ r !! client with
  | Some _ => mret (Unexpected (protocolViolation "stroke already active"))
  | None =>
      seq ← next_seq;
      sid ← next_stroke_id;
      let s := mkStroke sid client color thickness seq [start] false in
      let idx := length (strokes (board_ r)) in
      modify (upd_strokes (λ l, l ++ [s])) ;;
      modify (upd_index <[sid := idx]>) ;;
      modify (upd_active <[client := sid]>) ;;
      out ← broadcast client seq (StrokeBeginOut client sid seq color thickness start);
      mret (Value out)
  end.

Definition applyStrokePoint_ (client : ClientId) (p : Point) :
    M Room (Expected (list OutgoingEvent) Error) :=
  r ← get;
  match activeStrokeByClient_ r !! client with
  | None => mret (Unexpected (protocolViolation "stroke point without begin"))
  | Some sid =>
      match strokeIndexById_ r !! sid with
      | None => mret (Unexpected (protocolViolation "unknown stroke id"))
      | Some idx =>
          update_stroke idx (push_point p) ;;
          seq ← next_seq;
          out ← broadcast client seq (StrokePointOut client sid p);
          mret (Value out)
      end
  end.

Definition applyStrokeEnd_ (client : ClientId) :
    M Room (Expected (list OutgoingEvent) Error) :=
  r ← get;
  match activeStrokeByClient_ r !! client with
  | None => mret (Unexpected (protocolViolation "stroke end without begin"))
  | Some sid =>
      match strokeIndexById_ r !! sid with
      | None => mret (Unexpected (protocolViolation "unknown stroke id"))
      | Some idx =>
          update_stroke idx set_finished ;;
          modify (upd_active (delete client)) ;;
          seq ← next_seq;
          out ← broadcast client seq (StrokeEndOut client sid);
          mret (Value out)
      end
  end.

(** The rate limit of cursor updates: [now - last < kCursorMinInterval]. *)
Definition cursor_throttled (r : Room) (now : TimePoint) (client : ClientId) : bool :=
  match lastCursorUpdate_ r !! client with
  | Some last => bool_decide (now - last < kCursorMinInterval)
  | None => false
  end.

Definition applyCursorMove_ (now : TimePoint) (client : ClientId) (p : Point) :
    M Room (Expected (list OutgoingEvent) Error) :=
  r ← get;
  if cursor_throttled r now client then mret (Value []) else
  modify (upd_lastCursor <[client := now]>) ;;
  modify (upd_cursors <[client := p]>) ;;
  seq ← next_seq;
  out ← broadcast client seq (CursorMoveOut client p);
  mret (Value out).

Definition applyClear_ (client : ClientId) : M Room (Expected (list OutgoingEvent) Error) :=
  modify (upd_strokes (λ _, [])) ;;
  modify (upd_active (λ _, ∅)) ;;
  modify (upd_index (λ _, ∅)) ;;
  seq ← next_seq;
  out ← broadcast client seq (ClearOut client);
  mret (Value out).

Definition apply (now : TimePoint) (client : ClientId) (ev : EventPayload) :
    M Room (Expected (list OutgoingEvent) Error) :=
  r ← get;
  match ensureMember_ r client with
  | Unexpected e => mret (Unexpected e)
  | Value _ =>
      match ev with
      | StrokeBegin color thickness start => applyStrokeBegin_ client color thickness start
      | StrokePoint p => applyStrokePoint_ client p
      | StrokeEnd => applyStrokeEnd_ client
      | CursorMove p => applyCursorMove_ now client p
      | Clear => applyClear_ client
      end
  end.

End Operations.
