(* ===== verification/RoomSpec.v ===== *)
(** * Abstract specification of a room

    What [Room] promises, without the caches of the implementation: there is
    no stroke index and no table of active strokes.  The stroke a client is
    drawing is the unfinished stroke that client authored, and the counters
    are unbounded.  [RoomRefine.v] proves that the code implements it. *)
From S2P Require Import Prelude CoreTypes Room.

Record SpecRoom := mkSpecRoom {
  sp_id : RoomId;
  sp_members : gset ClientId;
  sp_board : BoardState;
  sp_seq : Z;             (* the number of sequence numbers handed out *)
  sp_strokes : Z;         (* the number of strokes ever begun *)
  sp_lastMove : gmap ClientId TimePoint;
}.

(** [drawing c s]: [s] is the stroke client [c] is drawing. *)
Definition drawing (c : ClientId) (s : Stroke) : bool :=
  bool_decide (stroke_author s = c) && negb (finished s).

Definition is_drawing (c : ClientId) (b : BoardState) : bool := existsb (drawing c) (strokes b).

(** The identifier of the stroke [c] is drawing. *)
Definition drawing_id (c : ClientId) (b : BoardState) : option StrokeId :=
  stroke_id <$> head (filter (λ s, drawing c s = true) (strokes b)).

Definition map_drawing (c : ClientId) (f : Stroke → Stroke) (ss : list Stroke) : list Stroke :=
  (λ s, if drawing c s then f s else s) <$> ss.

(** ** Calls and replies *)

Inductive RoomOp :=
  | OpJoin (c : ClientId)
  | OpLeave (c : ClientId)
  | OpApply (now : TimePoint) (c : ClientId) (ev : EventPayload).

Inductive RoomReply :=
  | ReplySnapshot (s : Expected RoomSnapshot Error)
  | ReplyEvents (e : Expected (list OutgoingEvent) Error).

Section Spec.
Context `{HashOrder}.

(** One message to every member but the sender. *)
Definition fanout (id : RoomId) (ms : gset ClientId) (from : ClientId) (seq : Seq)
    (payload : ServerEventPayload) : list OutgoingEvent :=
  (λ m, mkOutgoingEvent id m seq payload) <$> filter (λ m, m ≠ from) (set_order ms).

(** [spec_emit a c p]: hand out the next sequence number and tell the others. *)
Definition spec_emit (a : SpecRoom) (c : ClientId) (p : ServerEventPayload) :
    list OutgoingEvent * SpecRoom :=
  (fanout (sp_id a) (sp_members a) c (sp_seq a + 1) p,
   mkSpecRoom (sp_id a) (sp_members a) (sp_board a) (sp_seq a + 1) (sp_strokes a) (sp_lastMove a)).

Definition sp_set_board (f : BoardState → BoardState) (a : SpecRoom) : SpecRoom :=
  mkSpecRoom (sp_id a) (sp_members a) (f (sp_board a)) (sp_seq a) (sp_strokes a) (sp_lastMove a).

Definition on_strokes (f : list Stroke → list Stroke) (b : BoardState) : BoardState :=
  mkBoardState (f (strokes b)) (cursors b).
Definition on_cursors (f : gmap Z Point → gmap Z Point) (b : BoardState) : BoardState :=
  mkBoardState (strokes b) (f (cursors b)).

Definition spec_ok (res : list OutgoingEvent * SpecRoom) : RoomReply * SpecRoom :=
  (ReplyEvents (Value res.1), res.2).

Definition spec_join (c : ClientId) (a : SpecRoom) : RoomReply * SpecRoom :=
  let a' := mkSpecRoom (sp_id a) (sp_members a ∪ {[c]}) (sp_board a) (sp_seq a)
              (sp_strokes a) (sp_lastMove a) in
  (ReplySnapshot (Value (mkRoomSnapshot (sp_id a) (sp_seq a) (sp_board a)
     (set_order (sp_members a')))), a').

(** A member that leaves while drawing first ends its stroke. *)
Definition spec_leave (c : ClientId) (a : SpecRoom) : RoomReply * SpecRoom :=
  if bool_decide (c ∉ sp_members a) then (ReplyEvents (Unexpected notInRoom), a) else
  let '(ended, a1) :=
    match drawing_id c (sp_board a) with
    | Some sid =>
        spec_emit (sp_set_board (on_strokes (map_drawing c set_finished)) a) c (StrokeEndOut c sid)
    | None => ([], a)
    end in
  let a2 := mkSpecRoom (sp_id a1) (sp_members a1 ∖ {[c]})
              (on_cursors (delete c) (sp_board a1)) (sp_seq a1) (sp_strokes a1)
              (delete c (sp_lastMove a1)) in
  let '(gone, a3) := spec_emit a2 c (MemberLeftOut c) in
  (ReplyEvents (Value (ended ++ gone)), a3).

Definition spec_begin (c : ClientId) (col : Color) (th : Thickness) (p : Point) (a : SpecRoom) :
    RoomReply * SpecRoom :=
  if is_drawing c (sp_board a)
  then (ReplyEvents (Unexpected (protocolViolation "stroke already active")), a) else
  let seq := sp_seq a + 1 in
  let sid := sp_strokes a + 1 in
  let s := mkStroke sid c col th seq [p] false in
  let b := on_strokes (λ l, l ++ [s]) (sp_board a) in
  spec_ok (spec_emit
    (mkSpecRoom (sp_id a) (sp_members a) b (sp_seq a) sid (sp_lastMove a))
    c (StrokeBeginOut c sid seq col th p)).

Definition spec_point (c : ClientId) (p : Point) (a : SpecRoom) : RoomReply * SpecRoom :=
  match drawing_id c (sp_board a) with
  | None => (ReplyEvents (Unexpected (protocolViolation "stroke point without begin")), a)
  | Some sid =>
      spec_ok (spec_emit (sp_set_board (on_strokes (map_drawing c (push_point p))) a)
        c (StrokePointOut c sid p))
  end.

Definition spec_end (c : ClientId) (a : SpecRoom) : RoomReply * SpecRoom :=
  match drawing_id c (sp_board a) with
  | None => (ReplyEvents (Unexpected (protocolViolation "stroke end without begin")), a)
  | Some sid =>
      spec_ok (spec_emit (sp_set_board (on_strokes (map_drawing c set_finished)) a)
        c (StrokeEndOut c sid))
  end.

Definition spec_move (now : TimePoint) (c : ClientId) (p : Point) (a : SpecRoom) :
    RoomReply * SpecRoom :=
  if match sp_lastMove a !! c with
     | Some last => bool_decide (now - last < kCursorMinInterval)
     | None => false
     end
  then (ReplyEvents (Value []), a) else
  spec_ok (spec_emit
    (mkSpecRoom (sp_id a) (sp_members a) (on_cursors <[c := p]> (sp_board a)) (sp_seq a)
       (sp_strokes a) (<[c := now]> (sp_lastMove a)))
    c (CursorMoveOut c p)).

Definition spec_clear (c : ClientId) (a : SpecRoom) : RoomReply * SpecRoom :=
  spec_ok (spec_emit (sp_set_board (on_strokes (λ _, [])) a) c (ClearOut c)).

Definition spec_apply (now : TimePoint) (c : ClientId) (ev : EventPayload) (a : SpecRoom) :
    RoomReply * SpecRoom :=
  if bool_decide (c ∈ sp_members a) then
    match ev with
    | StrokeBegin col th p => spec_begin c col th p a
    | StrokePoint p => spec_point c p a
    | StrokeEnd => spec_end c a
    | CursorMove p => spec_move now c p a
    | Clear => spec_clear c a
    end
  else (ReplyEvents (Unexpected notInRoom), a).

Definition spec_call (op : RoomOp) (a : SpecRoom) : RoomReply * SpecRoom :=
  match op with
  | OpJoin c => spec_join c a
  | OpLeave c => spec_leave c a
  | OpApply now c ev => spec_apply now c ev a
  end.

(** ** The same calls on the implementation *)

Definition room_call (op : RoomOp) : M Room RoomReply :=
  match op with
  | OpJoin c => s ← join c; mret (ReplySnapshot s)
  | OpLeave c => e ← leave c; mret (ReplyEvents e)
  | OpApply now c ev => e ← apply now c ev; mret (ReplyEvents e)
  end.

Fixpoint room_calls (ops : list RoomOp) : M Room (list RoomReply) :=
  match ops with
  | [] => mret []
  | op :: ops => y ← room_call op; ys ← room_calls ops; mret (y :: ys)
  end.

Fixpoint spec_calls (ops : list RoomOp) (a : SpecRoom) : list RoomReply * SpecRoom :=
  match ops with
  | [] => ([], a)
  | op :: ops => let '(y, a1) := spec_call op a in
                 let '(ys, a2) := spec_calls ops a1 in (y :: ys, a2)
  end.

End Spec.

(** The abstract state an implementation state stands for. *)
Definition abs_room (r : Room) : SpecRoom :=
  mkSpecRoom (id_ r) (members_ r) (board_ r) (nextSeq_ r - 1) (nextStrokeId_ r - 1)
    (lastCursorUpdate_ r).
