(* ===== verification/RoomRefine.v ===== *)
(** * The room implements its specification

    The representation invariant [room_wf] of [Room], its preservation by
    every call, and the refinement of [RoomSpec]: from a well-formed room whose
    counters have headroom, every call returns (no vector access is out of
    range), with the reply and the next abstract state of the specification. *)
From S2P Require Import Prelude CoreTypes Room RoomSpec.

(** ** The representation invariant *)

Record strokes_wf (ss : list Stroke) (ix : gmap Z nat) (act : gmap Z Z) (nseq nsid : Z) : Prop := {
  sw_index sid i : ix !! sid = Some i ↔ ∃ s, ss !! i = Some s ∧ stroke_id s = sid;
  sw_active c sid : act !! c = Some sid ↔
    ∃ i s, ss !! i = Some s ∧ stroke_id s = sid ∧ drawing c s = true;
  sw_increasing i j s t : (i < j)%nat → ss !! i = Some s → ss !! j = Some t →
    stroke_id s < stroke_id t ∧ strokeOrder s < strokeOrder t;
  sw_bounds i s : ss !! i = Some s →
    1 ≤ stroke_id s < nsid ∧ 1 ≤ strokeOrder s < nseq ∧ points s ≠ [];
}.

Record room_wf (r : Room) : Prop := {
  wf_strokes : strokes_wf (strokes (board_ r)) (strokeIndexById_ r)
                 (activeStrokeByClient_ r) (nextSeq_ r) (nextStrokeId_ r);
  wf_counters : 1 ≤ nextStrokeId_ r ≤ nextSeq_ r;
  wf_active c : is_Some (activeStrokeByClient_ r !! c) → c ∈ members_ r;
  wf_cursors c : is_Some (cursors (board_ r) !! c) → c ∈ members_ r;
  wf_last c : is_Some (lastCursorUpdate_ r !! c) ↔ is_Some (cursors (board_ r) !! c);
}.

(** A call uses at most two sequence numbers. *)
Definition headroom (k : Z) (r : Room) : Prop := nextSeq_ r + k < 2 ^ 64.

(** ** Lemmas on strokes *)

Lemma drawing_true c s : drawing c s = true ↔ stroke_author s = c ∧ finished s = false.
Proof. unfold drawing. rewrite andb_true_iff, bool_decide_eq_true, negb_true_iff. done. Qed.

Lemma stroke_insert_lookup (ss : list Stroke) i s s' j t :
  ss !! i = Some s →
  <[i := s']> ss !! j = Some t ↔ (j = i ∧ t = s') ∨ (j ≠ i ∧ ss !! j = Some t).
Proof.
  intros Hi. pose proof (lookup_lt_Some _ _ _ Hi).
  destruct (decide (i = j)) as [->|].
  - rewrite list_lookup_insert_eq by done. naive_solver.
  - rewrite list_lookup_insert_ne by done. naive_solver.
Qed.

Lemma stroke_snoc_lookup (ss : list Stroke) s j t :
  (ss ++ [s]) !! j = Some t ↔ ss !! j = Some t ∨ (j = length ss ∧ t = s).
Proof. rewrite lookup_snoc_Some. pose proof (lookup_lt_Some ss j t). naive_solver. Qed.

Section StrokesWf.
Context {ss : list Stroke} {ix : gmap Z nat} {act : gmap Z Z} {nseq nsid : Z}.
Hypothesis wf : strokes_wf ss ix act nseq nsid.

Lemma sw_id_inj i j s t :
  ss !! i = Some s → ss !! j = Some t → stroke_id s = stroke_id t → i = j.
Proof.
  intros Hi Hj E. destruct (Nat.lt_total i j) as [?|[->|?]]; [|done|].
  - destruct (sw_increasing _ _ _ _ _ wf i j s t); naive_solver lia.
  - destruct (sw_increasing _ _ _ _ _ wf j i t s); naive_solver lia.
Qed.

(** The unfinished stroke of a client is unique. *)
Lemma sw_drawing_unique c i j s t :
  ss !! i = Some s → ss !! j = Some t →
  drawing c s = true → drawing c t = true → i = j.
Proof.
  intros Hi Hj Hs Ht. apply (sw_id_inj i j s t); [done..|].
  assert (act !! c = Some (stroke_id s)) by (apply (sw_active _ _ _ _ _ wf); eauto).
  assert (act !! c = Some (stroke_id t)) by (apply (sw_active _ _ _ _ _ wf); eauto).
  congruence.
Qed.

(** The caches point at the stroke being drawn, which is in range. *)
Lemma sw_active_lookup c sid :
  act !! c = Some sid →
  ∃ i s, ix !! sid = Some i ∧ ss !! i = Some s ∧ stroke_id s = sid ∧ drawing c s = true.
Proof.
  intros (i & s & Hi & Hid & Hd)%(sw_active _ _ _ _ _ wf). exists i, s.
  split_and!; [|done..]. apply (sw_index _ _ _ _ _ wf). eauto.
Qed.

Lemma map_drawing_insert c f i s :
  ss !! i = Some s → drawing c s = true → map_drawing c f ss = <[i := f s]> ss.
Proof.
  intros Hi Hd. apply list_eq. intros j. unfold map_drawing. rewrite list_lookup_fmap.
  destruct (decide (i = j)) as [->|Hne].
  - rewrite Hi, list_lookup_insert_eq by eauto using lookup_lt_Some. simpl. by rewrite Hd.
  - rewrite list_lookup_insert_ne by done. destruct (ss !! j) as [t|] eqn:Hj; [|done].
    simpl. destruct (drawing c t) eqn:Ht; [|done].
    destruct Hne. eauto using sw_drawing_unique.
Qed.

Lemma map_drawing_none c f : act !! c = None → map_drawing c f ss = ss.
Proof.
  intros Hc. apply list_eq. intros j. unfold map_drawing. rewrite list_lookup_fmap.
  destruct (ss !! j) as [t|] eqn:Hj; [|done]. simpl.
  destruct (drawing c t) eqn:Ht; [|done].
  assert (act !! c = Some (stroke_id t)) by (apply (sw_active _ _ _ _ _ wf); eauto). congruence.
Qed.

Lemma sw_drawing_id c cs : drawing_id c (mkBoardState ss cs) = act !! c.
Proof.
  unfold drawing_id. simpl. destruct (act !! c) as [sid|] eqn:Hc.
  - apply (sw_active _ _ _ _ _ wf) in Hc as (i & s & Hi & Hid & Hd).
    destruct (filter _ ss) as [|t ts] eqn:Hf.
    + exfalso. assert (s ∈ filter (λ s, drawing c s = true) ss) as Hin; [|rewrite Hf in Hin; set_solver].
      apply list_elem_of_filter. eauto using list_elem_of_lookup_2.
    + assert (t ∈ filter (λ s, drawing c s = true) ss) as Hin by (rewrite Hf; set_solver).
      apply list_elem_of_filter in Hin as [Ht [j Hj]%list_elem_of_lookup_1].
      assert (i = j) as -> by eauto using sw_drawing_unique. simpl. congruence.
  - destruct (filter _ ss) as [|t ts] eqn:Hf; [done|].
    assert (t ∈ filter (λ s, drawing c s = true) ss) as Hin by (rewrite Hf; set_solver).
    apply list_elem_of_filter in Hin as [Ht [j Hj]%list_elem_of_lookup_1].
    assert (act !! c = Some (stroke_id t)) by (apply (sw_active _ _ _ _ _ wf); eauto).
    congruence.
Qed.

Lemma sw_is_drawing c cs :
  is_drawing c (mkBoardState ss cs) = bool_decide (is_Some (act !! c)).
Proof.
  unfold is_drawing. simpl. apply eq_true_iff_eq.
  rewrite existsb_exists, bool_decide_eq_true. split.
  - intros (s & Hs & Hd). apply list_elem_of_In, list_elem_of_lookup_1 in Hs as [i Hi].
    exists (stroke_id s). apply (sw_active _ _ _ _ _ wf). eauto.
  - intros [sid (i & s & Hi & _ & Hd)%(sw_active _ _ _ _ _ wf)].
    exists s. split; [|done]. apply list_elem_of_In. eauto using list_elem_of_lookup_2.
Qed.

(** *** The stroke operations preserve the invariant *)

Lemma strokes_wf_mono nseq' : nseq ≤ nseq' → strokes_wf ss ix act nseq' nsid.
Proof.
  intros ?. destruct wf as [H1 H2 H3 H4]. split; [done..|].
  intros i s Hi. specialize (H4 i s Hi). naive_solver lia.
Qed.

Lemma strokes_wf_begin c col th p :
  act !! c = None → 1 ≤ nseq → 1 ≤ nsid →
  strokes_wf (ss ++ [mkStroke nsid c col th nseq [p] false])
    (<[nsid := length ss]> ix) (<[c := nsid]> act) (nseq + 1) (nsid + 1).
Proof.
  intros Hc Hn Hi. destruct wf as [H1 H2 H3 H4]. split.
  - intros sid i. setoid_rewrite stroke_snoc_lookup.
    destruct (decide (sid = nsid)) as [->|Hne].
    + rewrite lookup_insert_eq. split.
      * intros [= <-]. naive_solver.
      * intros (s & [Hs|[-> ->]] & E); [|done]. specialize (H4 _ _ Hs). lia.
    + rewrite lookup_insert_ne by done. rewrite H1. split; [naive_solver|].
      intros (s & [Hs|[-> ->]] & E); naive_solver.
  - intros c' sid. setoid_rewrite stroke_snoc_lookup.
    destruct (decide (c' = c)) as [->|Hne].
    + rewrite lookup_insert_eq. split.
      * intros [= <-]. eexists _, _. split_and!; [right; done|done|].
        by apply drawing_true.
      * intros (i & s & [Hs|[-> ->]] & <- & Hd); [|done].
        assert (act !! c = Some (stroke_id s)) by (apply H2; eauto). congruence.
    + rewrite lookup_insert_ne by done. rewrite H2. split; [naive_solver|].
      intros (i & s & [Hs|[-> ->]] & <- & Hd); [eauto 8|].
      apply drawing_true in Hd. naive_solver.
  - intros i j s t Hlt. rewrite !stroke_snoc_lookup.
    intros [Hs|[-> ->]] [Ht|[-> ->]]; [by eapply H3| |apply lookup_lt_Some in Ht; lia|lia].
    specialize (H4 _ _ Hs). simpl. lia.
  - intros i s. rewrite stroke_snoc_lookup. intros [Hs|[-> ->]]; [|naive_solver lia].
    specialize (H4 _ _ Hs). naive_solver lia.
Qed.

Lemma strokes_wf_point i s p :
  ss !! i = Some s → strokes_wf (<[i := push_point p s]> ss) ix act nseq nsid.
Proof.
  intros Hi. destruct wf as [H1 H2 H3 H4].
  pose proof (λ j t, stroke_insert_lookup ss i s (push_point p s) j t Hi) as L. split.
  - intros sid j. rewrite H1. setoid_rewrite L.
    destruct (decide (j = i)) as [->|]; naive_solver.
  - intros c sid. rewrite H2. setoid_rewrite L. split.
    + intros (j & t & Hj & E & Hd). destruct (decide (j = i)) as [->|]; [|naive_solver].
      exists i, (push_point p s). naive_solver.
    + intros (j & t & [[-> ->]|[? Hj]] & E & Hd); naive_solver.
  - intros j k t u Hlt. rewrite !L. intros [[-> ->]|[? Hj]] [[-> ->]|[? Hk]]; simpl; eauto; lia.
  - intros j t. rewrite L. intros [[-> ->]|[? Hj]]; [|by eapply H4].
    destruct (H4 i s Hi) as (?&?&?). split_and!; simpl; [lia..|].
    by destruct (points s).
Qed.

Lemma strokes_wf_finish i s c :
  ss !! i = Some s → drawing c s = true →
  strokes_wf (<[i := set_finished s]> ss) ix (delete c act) nseq nsid.
Proof.
  intros Hi Hd. pose proof (λ j t, sw_drawing_unique c i j s t Hi) as U.
  destruct wf as [H1 H2 H3 H4].
  pose proof (λ j t, stroke_insert_lookup ss i s (set_finished s) j t Hi) as L. split.
  - intros sid j. rewrite H1. setoid_rewrite L.
    destruct (decide (j = i)) as [->|]; naive_solver.
  - intros c' sid. rewrite lookup_delete_Some, H2. setoid_rewrite L. split.
    + intros (Hne & j & t & Hj & E & Ht). exists j, t. split_and!; [|done..]. right.
      split; [|done]. intros ->. simplify_eq.
      apply drawing_true in Hd, Ht. naive_solver.
    + intros (j & t & [[-> ->]|[Hne Hj]] & E & Ht).
      { apply drawing_true in Ht. naive_solver. }
      split; [|eauto 8]. intros <-. destruct Hne. symmetry. eauto.
  - intros j k t u Hlt. rewrite !L. intros [[-> ->]|[? Hj]] [[-> ->]|[? Hk]]; simpl; eauto; lia.
  - intros j t. rewrite L. intros [[-> ->]|[? Hj]]; [exact (H4 i s Hi)|by eapply H4].
Qed.
End StrokesWf.

Lemma strokes_wf_empty nseq nsid : strokes_wf [] ∅ ∅ nseq nsid.
Proof.
  split; [intros sid i|intros c sid|intros ???? _|intros ??]; rewrite ?lookup_nil, ?lookup_empty;
    try naive_solver.
Qed.

(** ** The calls refine the specification *)

(** Runs a computation of the room monad symbolically. *)
Ltac run_m :=
  unfold update_stroke, broadcast, next_seq, next_stroke_id in *;
  unfold mbind, M_bind, mret, M_ret, get, modify, undefined in *;
  unfold upd_members, upd_strokes, upd_cursors, upd_nextSeq, upd_nextStrokeId,
    upd_lastCursor, upd_active, upd_index in *; simpl in *.

Section Refine.
Context `{HashOrder}.

Definition refines (op : RoomOp) (r : Room) : Prop :=
  ∃ y r', room_call op r = Some (y, r') ∧
    spec_call op (abs_room r) = (y, abs_room r') ∧
    room_wf r' ∧ nextSeq_ r ≤ nextSeq_ r' ≤ nextSeq_ r + 2.

(** A call that leaves the room as it is. *)
Ltac stay := eexists _, _; split_and!; [reflexivity|reflexivity|assumption|lia|lia].

Lemma abs_drawing_id r c :
  room_wf r → drawing_id c (board_ r) = activeStrokeByClient_ r !! c.
Proof.
  intros wf. pose proof (wf_strokes _ wf) as W. destruct (board_ r) as [ss cs]. simpl in W.
  apply (sw_drawing_id W).
Qed.

Lemma abs_is_drawing r c :
  room_wf r → is_drawing c (board_ r) = bool_decide (is_Some (activeStrokeByClient_ r !! c)).
Proof.
  intros wf. pose proof (wf_strokes _ wf) as W. destruct (board_ r) as [ss cs]. simpl in W.
  apply (sw_is_drawing W).
Qed.

(** The post-states of the state-changing calls are well formed. *)
Lemma wf_join r c : room_wf r → room_wf (upd_members (λ ms, ms ∪ {[c]}) r).
Proof.
  intros [H1 H2 H3 H4 H5]. split; simpl; [done..| | |done]; intros c' Hc';
    apply elem_of_union_l; auto.
Qed.

(** A room whose strokes changed consistently and whose counters advanced. *)
Lemma wf_strokes_step r ss ix act nseq nsid :
  room_wf r → strokes_wf ss ix act nseq nsid → 1 ≤ nsid ≤ nseq →
  (∀ c, is_Some (act !! c) → c ∈ members_ r) →
  room_wf (mkRoom (id_ r) (members_ r) (mkBoardState ss (cursors (board_ r)))
    nseq nsid (lastCursorUpdate_ r) act ix).
Proof. intros [_ _ _ H4 H5] W ? Hact. by split. Qed.

Lemma join_refines r c : room_wf r → refines (OpJoin c) r.
Proof.
  intros wf. pose proof (wf_counters _ wf). eexists _, _.
  split_and!; [reflexivity| |by apply wf_join|simpl; lia|simpl; lia].
  simpl. unfold spec_join, lastSeq. simpl. by rewrite bool_decide_eq_false_2 by lia.
Qed.

Lemma not_member_refines r now c ev :
  c ∉ members_ r → room_wf r → refines (OpApply now c ev) r.
Proof.
  intros Hc wf. exists (ReplyEvents (Unexpected notInRoom)), r.
  split_and!; [| |done|lia|lia]; simpl.
  - unfold apply, ensureMember_. run_m. by rewrite bool_decide_eq_false_2.
  - unfold spec_apply. simpl. by rewrite bool_decide_eq_false_2.
Qed.

(** The remaining lemmas are for members: [member_call] removes the guard. *)
Ltac member_call :=
  unfold refines; simpl; unfold apply, ensureMember_, spec_apply; simpl;
  run_m; rewrite !bool_decide_eq_true_2 by done; simpl.

Ltac counters wf hr :=
  pose proof (wf_counters _ wf); unfold headroom in hr;
  rewrite ?u64_succ by lia.

Lemma begin_refines r now c col th p :
  c ∈ members_ r → room_wf r → headroom 2 r → refines (OpApply now c (StrokeBegin col th p)) r.
Proof.
  intros Hc wf hr. member_call. unfold applyStrokeBegin_, spec_begin. simpl. run_m.
  rewrite abs_is_drawing by done. counters wf hr.
  destruct (activeStrokeByClient_ r !! c) as [sid|] eqn:Ha.
  { rewrite bool_decide_eq_true_2 by eauto. stay. }
  rewrite bool_decide_eq_false_2 by by intros [? ?].
  counters wf hr. eexists _, _. split_and!; [reflexivity| | |simpl; lia|simpl; lia].
  - unfold spec_ok, spec_emit, abs_room, fanout, broadcast_. simpl.
    by rewrite !Z.sub_add, !Z.add_simpl_r.
  - apply wf_strokes_step; [done| |lia|].
    + apply (strokes_wf_begin (wf_strokes _ wf)); [done|lia..].
    + intros c'. destruct (decide (c' = c)) as [->|]; [done|].
      rewrite lookup_insert_ne by done. apply (wf_active _ wf).
Qed.

Lemma point_refines r now c p :
  c ∈ members_ r → room_wf r → headroom 2 r → refines (OpApply now c (StrokePoint p)) r.
Proof.
  intros Hc wf hr. member_call. unfold applyStrokePoint_, spec_point. simpl. run_m.
  rewrite abs_drawing_id by done. counters wf hr.
  destruct (activeStrokeByClient_ r !! c) as [sid|] eqn:Ha;
    [|stay].
  destruct (sw_active_lookup (wf_strokes _ wf) _ _ Ha) as (i & s & Hi & Hs & Hid & Hd).
  rewrite Hi, Hs. simpl. counters wf hr.
  eexists _, _. split_and!; [reflexivity| | |simpl; lia|simpl; lia].
  - unfold spec_ok, spec_emit, abs_room, fanout, broadcast_, on_strokes. simpl.
    rewrite (map_drawing_insert (wf_strokes _ wf) _ _ _ _ Hs Hd).
    by rewrite !Z.sub_add, !Z.add_simpl_r.
  - apply wf_strokes_step; [done| |lia|apply (wf_active _ wf)].
    eapply strokes_wf_mono; [by apply (strokes_wf_point (wf_strokes _ wf))|lia].
Qed.

Lemma end_refines r now c :
  c ∈ members_ r → room_wf r → headroom 2 r → refines (OpApply now c StrokeEnd) r.
Proof.
  intros Hc wf hr. member_call. unfold applyStrokeEnd_, spec_end. simpl. run_m.
  rewrite abs_drawing_id by done. counters wf hr.
  destruct (activeStrokeByClient_ r !! c) as [sid|] eqn:Ha;
    [|stay].
  destruct (sw_active_lookup (wf_strokes _ wf) _ _ Ha) as (i & s & Hi & Hs & Hid & Hd).
  rewrite Hi, Hs. simpl. counters wf hr.
  eexists _, _. split_and!; [reflexivity| | |simpl; lia|simpl; lia].
  - unfold spec_ok, spec_emit, abs_room, fanout, broadcast_, on_strokes. simpl.
    rewrite (map_drawing_insert (wf_strokes _ wf) _ _ _ _ Hs Hd).
    by rewrite !Z.sub_add, !Z.add_simpl_r.
  - apply wf_strokes_step; [done| |lia|].
    + eapply strokes_wf_mono; [by apply (strokes_wf_finish (wf_strokes _ wf) i s)|lia].
    + intros c' [sid' [_ Hsid]%lookup_delete_Some]. eapply wf_active; eauto.
Qed.

Lemma move_refines r now c p :
  c ∈ members_ r → room_wf r → headroom 2 r → refines (OpApply now c (CursorMove p)) r.
Proof.
  intros Hc wf hr. member_call. unfold applyCursorMove_, spec_move, cursor_throttled. simpl. run_m.
  counters wf hr.
  match goal with |- context [if ?b then _ else _] => destruct b end;
    [stay|].
  counters wf hr. eexists _, _. split_and!; [reflexivity| | |simpl; lia|simpl; lia].
  - unfold spec_ok, spec_emit, abs_room, fanout, broadcast_. simpl.
    by rewrite !Z.sub_add, !Z.add_simpl_r.
  - destruct wf as [W1 W2 W3 W4 W5]. split; simpl; [|lia|done| |].
    + eapply strokes_wf_mono; [done|lia].
    + intros c'. destruct (decide (c' = c)) as [->|]; [done|].
      rewrite lookup_insert_ne by done. apply W4.
    + intros c'. destruct (decide (c' = c)) as [->|]; [by rewrite !lookup_insert_eq|].
      rewrite !lookup_insert_ne by done. apply W5.
Qed.

Lemma clear_refines r now c :
  c ∈ members_ r → room_wf r → headroom 2 r → refines (OpApply now c Clear) r.
Proof.
  intros Hc wf hr. member_call. unfold applyClear_, spec_clear. simpl. run_m. counters wf hr.
  eexists _, _. split_and!; [reflexivity| | |simpl; lia|simpl; lia].
  - unfold spec_ok, spec_emit, abs_room, fanout, broadcast_. simpl.
    by rewrite !Z.sub_add, !Z.add_simpl_r.
  - apply wf_strokes_step; [done|apply strokes_wf_empty|lia|].
    intros c'. by rewrite lookup_empty, is_Some_alt.
Qed.

(** A room that forgets a client which is drawing nothing. *)
Lemma wf_forget r c n :
  room_wf r → activeStrokeByClient_ r !! c = None → nextSeq_ r ≤ n →
  room_wf (mkRoom (id_ r) (members_ r ∖ {[c]})
    (mkBoardState (strokes (board_ r)) (delete c (cursors (board_ r)))) n (nextStrokeId_ r)
    (delete c (lastCursorUpdate_ r)) (activeStrokeByClient_ r) (strokeIndexById_ r)).
Proof.
  intros [H1 H2 H3 H4 H5] Ha ?. split; simpl; [by eapply strokes_wf_mono|lia| | |].
  - intros c' Hc'. specialize (H3 c' Hc'). apply elem_of_difference.
    split; [done|]. rewrite elem_of_singleton. intros ->. rewrite Ha in Hc'. by destruct Hc'.
  - intros c' [q [Hne Hq]%lookup_delete_Some]. apply elem_of_difference.
    split; [eauto|]. rewrite elem_of_singleton. congruence.
  - intros c'. destruct (decide (c' = c)) as [->|]; [by rewrite !lookup_delete_eq|].
    rewrite !lookup_delete_ne by done. apply H5.
Qed.

Lemma leave_refines r c : room_wf r → headroom 2 r → refines (OpLeave c) r.
Proof.
  intros wf hr. unfold refines. simpl. unfold leave, spec_leave. simpl. run_m.
  destruct (bool_decide (c ∉ members_ r)); [stay|].
  rewrite abs_drawing_id by done. counters wf hr.
  destruct (activeStrokeByClient_ r !! c) as [sid|] eqn:Ha.
  - destruct (sw_active_lookup (wf_strokes _ wf) _ _ Ha) as (i & s & Hi & Hs & Hid & Hd).
    rewrite Hi, Hs. simpl. rewrite !u64_succ by (rewrite ?u64_succ by lia; lia).
    eexists _, _. split_and!; [reflexivity| | |simpl; lia|simpl; lia].
    + unfold spec_emit, abs_room, fanout, broadcast_, on_strokes, on_cursors. simpl.
      rewrite (map_drawing_insert (wf_strokes _ wf) _ _ _ _ Hs Hd).
      rewrite !Z.sub_add, !Z.add_simpl_r. done.
    + set (r1 := mkRoom (id_ r) (members_ r) (mkBoardState (<[i:=set_finished s]> (strokes (board_ r)))
        (cursors (board_ r))) (nextSeq_ r) (nextStrokeId_ r) (lastCursorUpdate_ r)
        (delete c (activeStrokeByClient_ r)) (strokeIndexById_ r)).
      apply (wf_forget r1 c); simpl; [|by apply lookup_delete_eq|lia].
      apply wf_strokes_step; [done| |lia|].
      * by apply (strokes_wf_finish (wf_strokes _ wf) i s).
      * intros c' [sid' [_ Hsid]%lookup_delete_Some]. eapply wf_active; eauto.
  - counters wf hr. eexists _, _. split_and!; [reflexivity| | |simpl; lia|simpl; lia].
    + unfold spec_emit, abs_room, fanout, broadcast_, on_cursors. simpl.
      rewrite !Z.sub_add, !Z.add_simpl_r. done.
    + apply wf_forget; [done..|lia].
Qed.

Lemma room_call_refines op r : room_wf r → headroom 2 r → refines op r.
Proof.
  intros wf hr. destruct op as [c|c|now c ev].
  - by apply join_refines.
  - by apply leave_refines.
  - destruct (decide (c ∈ members_ r)); [|by apply not_member_refines].
    destruct ev; auto using begin_refines, point_refines, end_refines, move_refines, clear_refines.
Qed.

End Refine.
