(* ===== verification/RoomTrace.v ===== *)
(** * Runs of a room

    What a sequence of calls on one room guarantees its clients: messages go
    to the right members in sequence order, and a member that replays them on
    top of its join snapshot holds the board of the server. *)
From S2P Require Import Prelude CoreTypes Room RoomSpec RoomRefine.

(** ** What a client sees *)

(** The messages of a reply that are addressed to [c]. *)
Definition inbox (c : ClientId) (y : RoomReply) : list OutgoingEvent :=
  match y with
  | ReplyEvents (Value evs) => filter (λ e, ev_to e = c) evs
  | _ => []
  end.

Definition inboxes (c : ClientId) (ys : list RoomReply) : list OutgoingEvent :=
  concat (inbox c <$> ys).

Definition on_stroke_id (sid : StrokeId) (f : Stroke → Stroke) (ss : list Stroke) : list Stroke :=
  (λ s, if bool_decide (stroke_id s = sid) then f s else s) <$> ss.

(** How a client replays a message on its copy of the board: strokes are found
    by identifier, cursors by client. *)
Definition replay (b : BoardState) (p : ServerEventPayload) : BoardState :=
  match p with
  | StrokeBeginOut author id order color thickness start =>
      on_strokes (λ l, l ++ [mkStroke id author color thickness order [start] false]) b
  | StrokePointOut _ id p => on_strokes (on_stroke_id id (push_point p)) b
  | StrokeEndOut _ id => on_strokes (on_stroke_id id set_finished) b
  | CursorMoveOut author p => on_cursors <[author := p]> b
  | ClearOut _ => on_strokes (λ _, []) b
  | MemberLeftOut client => on_cursors (delete client) b
  end.

Definition replay_all (b : BoardState) (evs : list OutgoingEvent) : BoardState :=
  foldl replay b (ev_payload <$> evs).

Definition op_client (op : RoomOp) : ClientId :=
  match op with OpJoin c | OpLeave c | OpApply _ c _ => c end.

Lemma inboxes_cons c y ys : inboxes c (y :: ys) = inbox c y ++ inboxes c ys.
Proof. done. Qed.

(** ** Fan-out *)

Section Fanout.
Context `{HashOrder}.

Lemma fanout_to id ms from seq p c :
  filter (λ e, ev_to e = c) (fanout id ms from seq p) =
    if bool_decide (c ∈ ms ∧ c ≠ from) then [mkOutgoingEvent id c seq p] else [].
Proof.
  unfold fanout. rewrite filter_fmap. simpl.
  rewrite list_filter_filter. case_bool_decide as Hc.
  - rewrite (list_filter_iff _ (λ x, x = c)).
    + rewrite filter_eq_NoDup; [done|apply set_order_NoDup|]. apply set_order_elem, Hc.
    + naive_solver.
  - rewrite filter_none; [done|]. intros x Hx%set_order_elem [-> ?]. naive_solver.
Qed.

Lemma broadcast_recipients id ms from seq p :
  Forall (λ e, ev_room e = id ∧ ev_seq e = seq ∧ ev_payload e = p) (fanout id ms from seq p) ∧
  ev_to <$> fanout id ms from seq p ≡ₚ elements (ms ∖ {[from]}).
Proof.
  unfold fanout. split.
  - apply Forall_fmap, Forall_forall. done.
  - rewrite <-list_fmap_compose. unfold compose. simpl. rewrite list_fmap_id.
    apply NoDup_Permutation; [apply NoDup_filter, set_order_NoDup|apply NoDup_elements|].
    intros x. rewrite list_elem_of_filter, set_order_elem, elem_of_elements. set_solver.
Qed.
End Fanout.

(** ** One call seen by another member *)

(** The stroke being drawn is the only one with its identifier. *)
Definition drawing_unique (b : BoardState) : Prop :=
  ∀ d sid f, drawing_id d b = Some sid →
    map_drawing d f (strokes b) = on_stroke_id sid f (strokes b).

Lemma wf_drawing_unique r : room_wf r → drawing_unique (board_ r).
Proof.
  intros wf d sid f Hd. rewrite abs_drawing_id in Hd by done.
  destruct (sw_active_lookup (wf_strokes _ wf) _ _ Hd) as (i & s & _ & Hs & <- & Hds).
  apply list_eq. intros j. unfold map_drawing, on_stroke_id. rewrite !list_lookup_fmap.
  destruct (strokes (board_ r) !! j) as [t|] eqn:Hj; [|done]. simpl. f_equal.
  case_bool_decide as E.
  - assert (j = i) as -> by eauto using sw_id_inj, wf_strokes. simplify_eq. by rewrite Hds.
  - destruct (drawing d t) eqn:Hdt; [|done].
    assert (j = i) as -> by eauto using sw_drawing_unique, wf_strokes. naive_solver.
Qed.

Section View.
Context `{HashOrder}.

(** [sees c b b' n n' y]: the reply [y] takes [c]'s copy of the board from
    [b] to [b'], and its messages to [c] carry exactly the numbers [n+1..n']. *)
Definition sees (c : ClientId) (a a' : SpecRoom) (y : RoomReply) : Prop :=
  c ∈ sp_members a' ∧
  replay_all (sp_board a) (inbox c y) = sp_board a' ∧
  ev_seq <$> inbox c y = seqZ (sp_seq a + 1) (sp_seq a' - sp_seq a).

Lemma fanout_sees id ms from seq p c :
  c ∈ ms → c ≠ from →
  filter (λ e, ev_to e = c) (fanout id ms from seq p) = [mkOutgoingEvent id c seq p].
Proof. intros. by rewrite fanout_to, bool_decide_eq_true_2. Qed.

Lemma sees_nothing c a y : c ∈ sp_members a → inbox c y = [] → sees c a a y.
Proof.
  intros Hc Hy. split_and!; [done| |]; rewrite Hy; [done|].
  by rewrite Z.sub_diag.
Qed.

(** A call that hands out one number and changes the board by [p]. *)
Lemma sees_emit c d a a1 p :
  c ∈ sp_members a1 → c ≠ d → sp_seq a1 = sp_seq a →
  replay (sp_board a) p = sp_board a1 →
  sees c a (spec_emit a1 d p).2 (ReplyEvents (Value (spec_emit a1 d p).1)).
Proof.
  intros Hc Hd Hs Hb. unfold sees. simpl. rewrite fanout_sees by done.
  split_and!; [done|done|]. simpl. rewrite Hs.
  by replace (sp_seq a + 1 - sp_seq a) with 1 by lia.
Qed.

Lemma leave_sees a c d :
  drawing_unique (sp_board a) → c ∈ sp_members a → d ≠ c →
  sees c a (spec_leave d a).2 (spec_leave d a).1.
Proof.
  intros U Hc Hne. unfold spec_leave.
  case_bool_decide; [by apply sees_nothing|].
  assert (c ∈ sp_members a ∖ {[d]}) as Hc' by set_solver.
  destruct (drawing_id d (sp_board a)) as [sid|] eqn:Hd; unfold sees; simpl.
  - rewrite filter_app, !fanout_sees by done. simpl. split_and!; [done| |].
    + unfold replay_all, on_strokes, on_cursors. simpl. by rewrite (U _ _ _ Hd).
    + replace (sp_seq a + 1 + 1 - sp_seq a) with 2 by lia. by rewrite seqZ_two.
  - rewrite fanout_sees by done. simpl. split_and!; [done|done|].
    by replace (sp_seq a + 1 - sp_seq a) with 1 by lia.
Qed.

Lemma spec_call_sees a op c :
  drawing_unique (sp_board a) → c ∈ sp_members a → op_client op ≠ c →
  sees c a (spec_call op a).2 (spec_call op a).1.
Proof.
  intros U Hc Hne. destruct op as [d|d|now d ev]; simpl in *.
  - unfold sees, spec_join. simpl. split_and!; [set_solver|done|]. by rewrite Z.sub_diag.
  - by apply leave_sees.
  - unfold spec_apply. case_bool_decide; [|by apply sees_nothing].
    assert (c ≠ d) by done.
    destruct ev as [col th p|p| |p|]; unfold spec_begin, spec_point, spec_end, spec_move, spec_clear.
    + destruct (is_drawing _ _); [by apply sees_nothing|]. by apply sees_emit.
    + destruct (drawing_id d (sp_board a)) as [sid|] eqn:Hd; [|by apply sees_nothing].
      apply sees_emit; [done..|]. simpl. unfold on_strokes. by rewrite (U _ _ _ Hd).
    + destruct (drawing_id d (sp_board a)) as [sid|] eqn:Hd; [|by apply sees_nothing].
      apply sees_emit; [done..|]. simpl. unfold on_strokes. by rewrite (U _ _ _ Hd).
    + match goal with |- context [if ?b then _ else _] => destruct b end;
        [by apply sees_nothing|]. by apply sees_emit.
    + by apply sees_emit.
Qed.

Lemma sees_trans c a1 a2 a3 ys1 y :
  sp_seq a1 ≤ sp_seq a2 ≤ sp_seq a3 →
  replay_all (sp_board a1) (inbox c y) = sp_board a2 →
  ev_seq <$> inbox c y = seqZ (sp_seq a1 + 1) (sp_seq a2 - sp_seq a1) →
  replay_all (sp_board a2) (inboxes c ys1) = sp_board a3 →
  ev_seq <$> inboxes c ys1 = seqZ (sp_seq a2 + 1) (sp_seq a3 - sp_seq a2) →
  replay_all (sp_board a1) (inboxes c (y :: ys1)) = sp_board a3 ∧
  ev_seq <$> inboxes c (y :: ys1) = seqZ (sp_seq a1 + 1) (sp_seq a3 - sp_seq a1).
Proof.
  intros Hle B1 S1 B2 S2. unfold replay_all in *. rewrite inboxes_cons.
  rewrite !fmap_app, foldl_app. split; [by rewrite B1|].
  rewrite S1, S2. replace (sp_seq a3 - sp_seq a1)
    with ((sp_seq a2 - sp_seq a1) + (sp_seq a3 - sp_seq a2)) by lia.
  rewrite seqZ_app by lia. do 2 f_equal. lia.
Qed.

(** ** Runs *)

Lemma room_calls_refine (ops : list RoomOp) r :
  room_wf r → headroom (2 * Z.of_nat (length ops)) r →
  ∃ ys r', room_calls ops r = Some (ys, r') ∧
    spec_calls ops (abs_room r) = (ys, abs_room r') ∧
    room_wf r' ∧ nextSeq_ r ≤ nextSeq_ r' ≤ nextSeq_ r + 2 * Z.of_nat (length ops).
Proof.
  revert r. induction ops as [|op ops IH]; intros r wf hr.
  { exists [], r. split_and!; [done..|simpl; lia]. }
  unfold headroom in *. simpl length in *. rewrite Nat2Z.inj_succ in *.
  destruct (room_call_refines op r wf) as (y & r1 & E1 & S1 & wf1 & Hle1 & Hle1');
    [unfold headroom; lia|].
  destruct (IH r1 wf1) as (ys & r2 & E2 & S2 & wf2 & Hle2 & Hle2'); [lia|].
  exists (y :: ys), r2. split_and!; [| |done|lia|lia].
  - simpl. unfold mbind, M_bind. rewrite E1, E2. done.
  - simpl. by rewrite S1, S2.
Qed.

Lemma room_calls_length (ops : list RoomOp) r ys r' :
  room_calls ops r = Some (ys, r') → length ys = length ops.
Proof.
  revert r ys. induction ops as [|op ops IH]; intros r ys; simpl;
    unfold mbind, M_bind, mret, M_ret; [by intros [= <- <-]|].
  destruct (room_call op r) as [[y r1]|]; [|done].
  destruct (room_calls ops r1) as [[ys1 r2]|] eqn:E; [|done].
  intros [= <- <-]. simpl. by erewrite IH.
Qed.

Lemma room_calls_app ops1 ops2 r :
  room_calls (ops1 ++ ops2) r =
    match room_calls ops1 r with
    | Some (ys1, r1) =>
        match room_calls ops2 r1 with
        | Some (ys2, r2) => Some (ys1 ++ ys2, r2)
        | None => None
        end
    | None => None
    end.
Proof.
  revert r. induction ops1 as [|op ops1 IH]; intros r.
  { simpl. destruct (room_calls ops2 r) as [[]|]; done. }
  simpl. unfold mbind, M_bind, mret, M_ret. destruct (room_call op r) as [[y r1]|]; [|done].
  rewrite IH. destruct (room_calls ops1 r1) as [[ys1 r2]|]; [|done].
  destruct (room_calls ops2 r2) as [[ys2 r3]|]; done.
Qed.

(** A member that makes no call while [ops] run sees all of it. *)
Lemma room_calls_seen (ops : list RoomOp) r ys r' c :
  room_wf r → headroom (2 * Z.of_nat (length ops)) r →
  room_calls ops r = Some (ys, r') → c ∈ members_ r →
  Forall (λ op, op_client op ≠ c) ops →
  replay_all (board_ r) (inboxes c ys) = board_ r' ∧
  ev_seq <$> inboxes c ys = seqZ (nextSeq_ r) (nextSeq_ r' - nextSeq_ r).
Proof.
  revert r ys. induction ops as [|op ops IH]; intros r ys wf hr E Hc Hops.
  { unfold room_calls, mret, M_ret in E. simplify_eq. simpl. by rewrite Z.sub_diag. }
  apply Forall_cons in Hops as [Hop Hops].
  unfold headroom in *. simpl length in *. rewrite Nat2Z.inj_succ in *.
  destruct (room_call_refines op r wf) as (y & r1 & E1 & S1 & wf1 & Hle1 & Hle1');
    [unfold headroom; lia|].
  simpl in E. unfold mbind, M_bind in E. rewrite E1 in E.
  destruct (room_calls_refine ops r1 wf1) as (ys2 & r2 & E2 & _ & _ & Hle2 & _);
    [unfold headroom; lia|].
  rewrite E2 in E. unfold mret, M_ret in E. simplify_eq.
  pose proof (spec_call_sees (abs_room r) op c (wf_drawing_unique r wf) Hc Hop) as Hsee.
  rewrite S1 in Hsee. destruct Hsee as (Hc1 & B1 & Q1). simpl in *.
  destruct (IH r1 ys2 wf1) as [B2 Q2]; [lia|done..|].
  destruct (sees_trans c (abs_room r) (abs_room r1) (abs_room r') ys2 y) as [B Q]; simpl.
  - lia.
  - done.
  - by rewrite Q1.
  - done.
  - rewrite Q2. f_equal; lia.
  - split; [done|]. rewrite Q. simpl. f_equal; lia.
Qed.
End View.
