(* ===== verification/RoomProps.v ===== *)
(** * Properties of a room

    The theorems about [core/src/room.cpp]: safety and refinement of every
    run, the board invariant, convergence of the members' copies, delivery,
    the error table, the cursor rate limit, and the life of a stroke. *)
From S2P Require Import Prelude CoreTypes Room RoomSpec RoomRefine RoomTrace.

(** ** Reachable rooms *)

Inductive reachable `{HashOrder} : Room → Prop :=
  | reachable_new id : reachable (new_room id)
  | reachable_call op r y r' :
      reachable r → headroom 2 r → room_call op r = Some (y, r') → reachable r'.

(** The error [Room::apply] reports for an event, read off the board alone. *)
Definition expected_error (r : Room) (c : ClientId) (ev : EventPayload) : option Error :=
  if bool_decide (c ∉ members_ r) then Some notInRoom else
  match ev with
  | StrokeBegin _ _ _ =>
      if is_drawing c (board_ r) then Some (protocolViolation "stroke already active") else None
  | StrokePoint _ =>
      if is_drawing c (board_ r) then None else Some (protocolViolation "stroke point without begin")
  | StrokeEnd =>
      if is_drawing c (board_ r) then None else Some (protocolViolation "stroke end without begin")
  | CursorMove _ | Clear => None
  end.

(** What holds of the board of a room between any two calls. *)
Record board_ok (r : Room) : Prop := {
  ok_order i j s t : (i < j)%nat → strokes (board_ r) !! i = Some s →
    strokes (board_ r) !! j = Some t → stroke_id s < stroke_id t ∧ strokeOrder s < strokeOrder t;
  ok_stroke s : s ∈ strokes (board_ r) → 1 ≤ strokeOrder s ≤ lastSeq r ∧ points s ≠ [];
  ok_author s : s ∈ strokes (board_ r) → finished s = false → stroke_author s ∈ members_ r;
  ok_single i j s t : strokes (board_ r) !! i = Some s → strokes (board_ r) !! j = Some t →
    finished s = false → finished t = false → stroke_author s = stroke_author t → i = j;
  ok_cursor c : is_Some (cursors (board_ r) !! c) → c ∈ members_ r;
}.

(** The points client [c] adds during [ops]. *)
Definition points_of (c : ClientId) (ops : list RoomOp) : list Point :=
  omap (λ op, match op with
              | OpApply _ d (StrokePoint p) => if bool_decide (d = c) then Some p else None
              | _ => None
              end) ops.

(** Calls that leave the stroke of [c] alive: nobody clears the board, and
    [c] neither leaves nor ends the stroke. *)
Definition keeps_stroke (c : ClientId) (op : RoomOp) : bool :=
  match op with
  | OpJoin _ => true
  | OpLeave d => bool_decide (d ≠ c)
  | OpApply _ _ Clear => false
  | OpApply _ d StrokeEnd => bool_decide (d ≠ c)
  | OpApply _ _ _ => true
  end.

(** ** Supporting lemmas *)

Lemma new_room_wf id : room_wf (new_room id).
Proof.
  split; simpl; [apply strokes_wf_empty|lia|..]; intros c; rewrite !lookup_empty;
    [by intros []|by intros []|done].
Qed.

Section Lemmas.
Context `{HashOrder}.

Lemma reachable_wf r : reachable r → room_wf r.
Proof.
  induction 1 as [|op r y r' Hr IH hr E]; [apply new_room_wf|].
  destruct (room_call_refines op r IH hr) as (y' & r1 & E' & _ & wf & _).
  by simplify_eq.
Qed.

Lemma reachable_calls ops r ys r' :
  reachable r → headroom (2 * Z.of_nat (length ops)) r → room_calls ops r = Some (ys, r') → reachable r'.
Proof.
  revert r ys. induction ops as [|op ops IH]; intros r ys Hr hr E.
  { unfold room_calls, mret, M_ret in E. by simplify_eq. }
  unfold headroom in *. simpl length in *. rewrite Nat2Z.inj_succ in *.
  destruct (room_call_refines op r (reachable_wf r Hr)) as (y & r1 & E1 & _ & _ & Hle);
    [unfold headroom; lia|].
  simpl in E. unfold mbind, M_bind in E. rewrite E1 in E.
  destruct (room_calls ops r1) as [[ys1 r2]|] eqn:E2; [|done].
  unfold mret, M_ret in E. simplify_eq. eapply (IH r1); [|lia|done].
  eapply reachable_call; [done|unfold headroom; lia|done].
Qed.

(** An error leaves the room as it was. *)
Lemma room_call_error op r e r' :
  room_call op r = Some (ReplyEvents (Unexpected e), r') → r' = r.
Proof.
  destruct op as [c|c|now c ev]; unfold room_call.
  - by intros [=].
  - unfold leave. run_m. intros E. repeat (case_match; simplify_eq; try done).
  - unfold apply, ensureMember_. run_m. intros E. case_bool_decide; simpl in E; [|by simplify_eq].
    destruct ev; unfold applyStrokeBegin_, applyStrokePoint_, applyStrokeEnd_,
      applyCursorMove_, applyClear_ in E; run_m; repeat (case_match; simplify_eq; try done); done.
Qed.

Lemma lastSeq_wf r : room_wf r → lastSeq r = nextSeq_ r - 1.
Proof. intros wf. pose proof (wf_counters r wf). unfold lastSeq. by rewrite bool_decide_eq_false_2 by lia. Qed.

Lemma room_wf_ok r : room_wf r → board_ok r.
Proof.
  intros wf. pose proof (wf_strokes r wf) as W. split.
  - apply (sw_increasing _ _ _ _ _ W).
  - intros s [i Hi]%list_elem_of_lookup_1. rewrite lastSeq_wf by done.
    destruct (sw_bounds _ _ _ _ _ W i s Hi) as (_ & ? & ?). split; [lia|done].
  - intros s [i Hi]%list_elem_of_lookup_1 Hf. apply (wf_active r wf).
    exists (stroke_id s). apply (sw_active _ _ _ _ _ W). exists i, s. by rewrite drawing_true.
  - intros i j s t Hi Hj Hs Ht E. apply (sw_drawing_unique W (stroke_author s) i j s t); [done..| |];
      by apply drawing_true.
  - apply (wf_cursors r wf).
Qed.

(** *** Cursor times never go back while the client stays *)

Lemma last_cursor_step op r y r' c l :
  room_call op r = Some (y, r') → op ≠ OpLeave c → lastCursorUpdate_ r !! c = Some l →
  ∃ l', lastCursorUpdate_ r' !! c = Some l' ∧ l ≤ l'.
Proof.
  intros E Hop Hl. destruct op as [d|d|now d ev]; unfold room_call in E.
  - unfold join in E. run_m. simplify_eq. simpl. eauto with lia.
  - assert (d ≠ c) by congruence. unfold leave in E. run_m.
    repeat (case_match; simplify_eq; try done); simpl; rewrite ?lookup_delete_ne by done; eauto with lia.
  - unfold apply, ensureMember_ in E. run_m. case_bool_decide; simpl in E; [|simplify_eq; eauto with lia].
    destruct ev; unfold applyStrokeBegin_, applyStrokePoint_, applyStrokeEnd_,
      applyCursorMove_, applyClear_ in E; run_m;
      try by (repeat (case_match; simplify_eq; try done); simplify_eq; simpl; eauto with lia).
    destruct (cursor_throttled r now d) eqn:Ht; simplify_eq; [eauto with lia|]. simpl.
    destruct (decide (d = c)) as [->|]; [|rewrite lookup_insert_ne by done; eauto with lia].
    rewrite lookup_insert_eq. unfold cursor_throttled in Ht. rewrite Hl in Ht.
    apply bool_decide_eq_false in Ht. unfold kCursorMinInterval in Ht. eauto with lia.
Qed.

Lemma last_cursor_run ops r ys r' c l :
  room_calls ops r = Some (ys, r') → Forall (λ op, op ≠ OpLeave c) ops →
  lastCursorUpdate_ r !! c = Some l →
  ∃ l', lastCursorUpdate_ r' !! c = Some l' ∧ l ≤ l'.
Proof.
  revert r ys l. induction ops as [|op ops IH]; intros r ys l E Hops Hl.
  { unfold room_calls, mret, M_ret in E. simplify_eq. eauto with lia. }
  apply Forall_cons in Hops as [Hop Hops]. simpl in E. unfold mbind, M_bind in E.
  destruct (room_call op r) as [[y r1]|] eqn:E1; [|done].
  destruct (room_calls ops r1) as [[ys1 r2]|] eqn:E2; [|done].
  unfold mret, M_ret in E. simplify_eq.
  destruct (last_cursor_step _ _ _ _ _ _ E1 Hop Hl) as (l1 & Hl1 & ?).
  destruct (IH _ _ _ E2 Hops Hl1) as (l2 & ? & ?). eauto with lia.
Qed.
End Lemmas.

Section MoreLemmas.
Context `{HashOrder}.

(** *** Sequence numbers of one recipient *)

Lemma inbox_fanout_seqs id ms from seq p c :
  (ev_seq <$> filter (λ e, ev_to e = c) (fanout id ms from seq p)) `sublist_of` [seq].
Proof. rewrite fanout_to. case_bool_decide; simpl; by repeat constructor. Qed.

(** The numbers in a reply are new, increasing and accounted for. *)
Lemma spec_call_seqs op a c :
  sp_seq a ≤ sp_seq (spec_call op a).2 ∧
  (ev_seq <$> inbox c (spec_call op a).1) `sublist_of`
    seqZ (sp_seq a + 1) (sp_seq (spec_call op a).2 - sp_seq a).
Proof.
  assert (∀ b d p, sp_seq b = sp_seq a →
    sp_seq a ≤ sp_seq (spec_emit b d p).2 ∧
    (ev_seq <$> filter (λ e, ev_to e = c) (spec_emit b d p).1) `sublist_of`
      seqZ (sp_seq a + 1) (sp_seq (spec_emit b d p).2 - sp_seq a)) as Hemit.
  { intros b d p E. simpl. rewrite E. split; [lia|].
    replace (sp_seq a + 1 - sp_seq a) with 1 by lia. apply inbox_fanout_seqs. }
  assert (sp_seq a ≤ sp_seq a ∧ (@nil Z) `sublist_of` seqZ (sp_seq a + 1) (sp_seq a - sp_seq a))
    as Hstay by (split; [lia|apply sublist_nil_l]).
  destruct op as [d|d|now d ev]; simpl; [exact Hstay| |].
  - unfold spec_leave. case_bool_decide; [exact Hstay|].
    destruct (drawing_id d (sp_board a)) as [sid|]; [|by apply Hemit].
    simpl. split; [lia|]. rewrite filter_app, fmap_app.
    replace (sp_seq a + 1 + 1 - sp_seq a) with 2 by lia. rewrite seqZ_two.
    apply (sublist_app _ [_] _ [_]); apply inbox_fanout_seqs.
  - unfold spec_apply. case_bool_decide; [|exact Hstay].
    destruct ev; unfold spec_begin, spec_point, spec_end, spec_move, spec_clear;
      repeat case_match; try exact Hstay; by apply Hemit.
Qed.

Lemma room_calls_seqs (ops : list RoomOp) r ys r' c :
  room_wf r → headroom (2 * Z.of_nat (length ops)) r → room_calls ops r = Some (ys, r') →
  nextSeq_ r ≤ nextSeq_ r' ∧
  (ev_seq <$> inboxes c ys) `sublist_of` seqZ (nextSeq_ r) (nextSeq_ r' - nextSeq_ r).
Proof.
  revert r ys. induction ops as [|op ops IH]; intros r ys wf hr E.
  { unfold room_calls, mret, M_ret in E. simplify_eq. split; [lia|apply sublist_nil_l]. }
  unfold headroom in *. simpl length in *. rewrite Nat2Z.inj_succ in *.
  destruct (room_call_refines op r wf) as (y & r1 & E1 & S1 & wf1 & Hle1 & Hle1');
    [unfold headroom; lia|].
  simpl in E. unfold mbind, M_bind in E. rewrite E1 in E.
  destruct (room_calls ops r1) as [[ys1 r2]|] eqn:E2; [|done].
  unfold mret, M_ret in E. simplify_eq.
  destruct (IH r1 ys1 wf1 ltac:(lia) E2) as [Hle2 Hs2].
  destruct (spec_call_seqs op (abs_room r) c) as [_ Hs1]. rewrite S1 in Hs1. simpl in Hs1.
  split; [lia|]. rewrite inboxes_cons, fmap_app.
  replace (nextSeq_ r' - nextSeq_ r) with
    ((nextSeq_ r1 - nextSeq_ r) + (nextSeq_ r' - nextSeq_ r1)) by lia.
  rewrite seqZ_app by lia. apply sublist_app.
  - by replace (nextSeq_ r - 1 + 1) with (nextSeq_ r) in Hs1 by lia;
      replace (nextSeq_ r1 - 1 - (nextSeq_ r - 1)) with (nextSeq_ r1 - nextSeq_ r) in Hs1 by lia.
  - by replace (nextSeq_ r + (nextSeq_ r1 - nextSeq_ r)) with (nextSeq_ r1) by lia.
Qed.

(** *** The stroke of one client, whatever the others do *)

Lemma drawing_id_some c b s :
  s ∈ strokes b → drawing c s = true → is_Some (drawing_id c b) ∧ is_drawing c b = true.
Proof.
  intros Hs Hd. split.
  - unfold drawing_id. destruct (filter _ (strokes b)) as [|t ts] eqn:E; [|by eexists].
    assert (s ∈ filter (λ s, drawing c s = true) (strokes b)) as Hin by by apply list_elem_of_filter.
    rewrite E in Hin. by apply elem_of_nil in Hin.
  - apply existsb_exists. exists s. by rewrite <-list_elem_of_In.
Qed.

Lemma map_drawing_elem c f ss s :
  s ∈ ss → (if drawing c s then f s else s) ∈ map_drawing c f ss.
Proof. intros. unfold map_drawing. apply list_elem_of_fmap. eauto. Qed.

Lemma drawing_other c d s : drawing c s = true → c ≠ d → drawing d s = false.
Proof. rewrite drawing_true. intros [<- _] ?. unfold drawing. by rewrite bool_decide_eq_false_2. Qed.

(** One call takes the stroke to the stroke with the client's point added. *)
Lemma spec_call_stroke op a c s :
  keeps_stroke c op = true → c ∈ sp_members a →
  s ∈ strokes (sp_board a) → drawing c s = true →
  c ∈ sp_members (spec_call op a).2 ∧
  foldl (λ s p, push_point p s) s (points_of c [op]) ∈ strokes (sp_board (spec_call op a).2).
Proof.
  intros Hk Hc Hs Hd. destruct (drawing_id_some c (sp_board a) s) as [[sid Hid] His]; [done..|].
  destruct op as [d|d|now d ev]; simpl in *.
  - split; [set_solver|done].
  - apply bool_decide_eq_true in Hk. unfold spec_leave. case_bool_decide; [done|].
    pose proof (map_drawing_elem d set_finished _ _ Hs) as Hm.
    rewrite (drawing_other c d s) in Hm by done.
    destruct (drawing_id d (sp_board a)); simpl; (split; [set_solver|done]).
  - unfold spec_apply. destruct (bool_decide_reflect (d ∈ sp_members a)) as [Hdm|];
      [|assert (d ≠ c) by congruence; destruct ev; simpl; rewrite ?bool_decide_eq_false_2 by done; done].
    destruct ev as [col th p|p| |p|]; simpl; try done.
    + unfold spec_begin. destruct (is_drawing d _); simpl; [done|]. split; [done|]. set_solver.
    + unfold spec_point. pose proof (map_drawing_elem d (push_point p) _ _ Hs) as Hm.
      case_bool_decide as Hdc.
      * subst d. rewrite Hid. simpl. by rewrite Hd in Hm.
      * rewrite (drawing_other c d s) in Hm by done. by destruct (drawing_id d _).
    + apply bool_decide_eq_true in Hk. unfold spec_end.
      pose proof (map_drawing_elem d set_finished _ _ Hs) as Hm.
      rewrite (drawing_other c d s) in Hm by done. by destruct (drawing_id d _).
    + unfold spec_move. by case_match.
Qed.

Lemma drawing_push_all c s ps :
  drawing c (foldl (λ s p, push_point p s) s ps) = drawing c s.
Proof. revert s. by induction ps as [|p ps IH]; intros s; [|simpl; rewrite IH]. Qed.

Lemma points_of_cons c op ops : points_of c (op :: ops) = points_of c [op] ++ points_of c ops.
Proof. unfold points_of. simpl. by case_match. Qed.

Lemma spec_calls_stroke ops a c s :
  forallb (keeps_stroke c) ops = true → c ∈ sp_members a →
  s ∈ strokes (sp_board a) → drawing c s = true →
  c ∈ sp_members (spec_calls ops a).2 ∧
  foldl (λ s p, push_point p s) s (points_of c ops) ∈ strokes (sp_board (spec_calls ops a).2).
Proof.
  revert a s. induction ops as [|op ops IH]; intros a s Hk Hc Hs Hd; [done|].
  simpl in Hk. apply andb_true_iff in Hk as [Hk1 Hk2].
  destruct (spec_call_stroke op a c s) as [Hc1 Hs1]; [done..|].
  rewrite points_of_cons, foldl_app. cbn [spec_calls].
  destruct (spec_call op a) as [y a1] eqn:E1. cbn [snd] in Hc1, Hs1.
  destruct (IH a1 _ Hk2 Hc1 Hs1) as [Hc2 Hs2]; [by rewrite drawing_push_all|].
  by destruct (spec_calls ops a1) as [ys a2].
Qed.

Lemma spec_calls_app ops1 ops2 a :
  spec_calls (ops1 ++ ops2) a =
    ((spec_calls ops1 a).1 ++ (spec_calls ops2 (spec_calls ops1 a).2).1,
     (spec_calls ops2 (spec_calls ops1 a).2).2).
Proof.
  revert a. induction ops1 as [|op ops1 IH]; intros a; [by simpl; destruct (spec_calls ops2 a)|].
  simpl. destruct (spec_call op a) as [y a1]. rewrite IH.
  by destruct (spec_calls ops1 a1).
Qed.

Lemma finished_not_drawing c ss cs :
  is_drawing c (mkBoardState (map_drawing c set_finished ss) cs) = false.
Proof.
  unfold is_drawing. apply not_true_is_false. rewrite existsb_exists. simpl.
  intros (s & Hs & Hd). apply list_elem_of_In, list_elem_of_fmap in Hs as (t & -> & _).
  destruct (drawing c t) eqn:Ht; [|congruence]. apply drawing_true in Hd as [_ Hf]. discriminate Hf.
Qed.

Lemma push_all_points s ps :
  foldl (λ s p, push_point p s) s ps =
    mkStroke (stroke_id s) (stroke_author s) (stroke_color s) (stroke_thickness s)
      (strokeOrder s) (points s ++ ps) (finished s).
Proof.
  revert s. induction ps as [|p ps IH]; intros s; simpl; [|by rewrite IH; simpl; rewrite <-app_assoc].
  by destruct s; rewrite app_nil_r.
Qed.
End MoreLemmas.

(** ** The theorems *)

Section Properties.
Context `{HashOrder}.

(** C1. Every run of calls on a fresh room (short enough for the 64-bit
    counters) returns: no vector access is out of range.  Its replies and
    final state are those of the abstract room, which keeps no index and no
    table of active strokes. *)
Theorem room_run_refines_spec (id : RoomId) (ops : list RoomOp) :
  2 * Z.of_nat (length ops) + 1 < 2 ^ 64 →
  ∃ ys r, room_calls ops (new_room id) = Some (ys, r) ∧
    spec_calls ops (mkSpecRoom id ∅ (mkBoardState [] ∅) 0 0 ∅) = (ys, abs_room r).
Proof.
  intros Hlen. destruct (room_calls_refine ops (new_room id)) as (ys & r & E & S & _);
    [apply new_room_wf|unfold headroom; simpl; lia|]. eauto.
Qed.

(** C21. In every reachable room: strokes are in strictly increasing order of
    identifier and of begin number, none later than [lastSeq] and none empty;
    an unfinished stroke belongs to a present member, who has no other; and
    cursors belong to present members. *)
Theorem reachable_board_ok (r : Room) : reachable r → board_ok r.
Proof. intros Hr. by apply room_wf_ok, reachable_wf. Qed.

Lemma join_then_run id (ops1 : list RoomOp) c (ops2 : list RoomOp) :
  2 * (Z.of_nat (length ops1) + 1 + Z.of_nat (length ops2)) + 1 < 2 ^ 64 →
  ∃ ys1 r1 ys2 r, room_calls ops1 (new_room id) = Some (ys1, r1) ∧ room_wf r1 ∧
    room_calls ops2 (upd_members (λ ms, ms ∪ {[c]}) r1) = Some (ys2, r) ∧
    room_wf (upd_members (λ ms, ms ∪ {[c]}) r1) ∧ room_wf r ∧
    headroom (2 * Z.of_nat (length ops2)) r1 ∧
    room_calls (ops1 ++ OpJoin c :: ops2) (new_room id) =
      Some (ys1 ++ ReplySnapshot (Value (mkRoomSnapshot (id_ r1) (lastSeq r1) (board_ r1)
        (set_order (members_ r1 ∪ {[c]})))) :: ys2, r).
Proof.
  intros Hlen. destruct (room_calls_refine ops1 (new_room id)) as (ys1 & r1 & E1 & _ & wf1 & Hle);
    [apply new_room_wf|unfold headroom; simpl; lia|]. simpl nextSeq_ in Hle.
  pose proof (wf_join r1 c wf1) as wfj.
  assert (headroom (2 * Z.of_nat (length ops2)) r1) as hr2 by (unfold headroom; lia).
  destruct (room_calls_refine ops2 _ wfj hr2) as (ys2 & r & E2 & _ & wf2 & _).
  exists ys1, r1, ys2, r. split_and!; [done..|].
  rewrite room_calls_app, E1. simpl. unfold join. run_m. by rewrite E2.
Qed.

(** C2. A client that joins and then makes no call holds, by replaying the
    messages addressed to it on top of its join snapshot, exactly the board
    of the server, whatever the other clients did before and after. *)
Theorem replica_converges (id : RoomId) (ops1 : list RoomOp) (c : ClientId) (ops2 : list RoomOp) :
  2 * (Z.of_nat (length ops1) + 1 + Z.of_nat (length ops2)) + 1 < 2 ^ 64 →
  Forall (λ op, op_client op ≠ c) ops2 →
  ∃ ys1 snap ys2 r,
    room_calls (ops1 ++ OpJoin c :: ops2) (new_room id) =
      Some (ys1 ++ ReplySnapshot (Value snap) :: ys2, r) ∧
    length ys1 = length ops1 ∧
    replay_all (snap_state snap) (inboxes c ys2) = board_ r.
Proof.
  intros Hlen Hops.
  destruct (join_then_run id ops1 c ops2 Hlen) as (ys1 & r1 & ys2 & r & E1 & _ & E2 & wfj & _ & hr & E).
  destruct (room_calls_seen ops2 _ ys2 r c wfj hr E2) as [B _]; [simpl; set_solver|done|].
  eexists ys1, _, ys2, r. split_and!; [exact E| |exact B].
  by eapply room_calls_length.
Qed.

(** The messages such a client receives after its snapshot carry the
    numbers [lastSeq + 1], [lastSeq + 2], ... up to the room's last one, in
    this order: none is missing, repeated or reordered. *)
Theorem replica_gapless (id : RoomId) (ops1 : list RoomOp) (c : ClientId) (ops2 : list RoomOp) :
  2 * (Z.of_nat (length ops1) + 1 + Z.of_nat (length ops2)) + 1 < 2 ^ 64 →
  Forall (λ op, op_client op ≠ c) ops2 →
  ∃ ys1 snap ys2 r,
    room_calls (ops1 ++ OpJoin c :: ops2) (new_room id) =
      Some (ys1 ++ ReplySnapshot (Value snap) :: ys2, r) ∧
    length ys1 = length ops1 ∧
    ev_seq <$> inboxes c ys2 = seqZ (snap_lastSeq snap + 1) (lastSeq r - snap_lastSeq snap).
Proof.
  intros Hlen Hops.
  destruct (join_then_run id ops1 c ops2 Hlen) as (ys1 & r1 & ys2 & r & E1 & wf1 & E2 & wfj & wf & hr & E).
  destruct (room_calls_seen ops2 _ ys2 r c wfj hr E2) as [_ Q]; [simpl; set_solver|done|].
  eexists ys1, _, ys2, r. split_and!; [exact E|by eapply room_calls_length|].
  rewrite Q. simpl. rewrite !lastSeq_wf by done. f_equal; lia.
Qed.

(** Whatever a client does itself, the numbers of the messages it receives
    during a run strictly increase and were all handed out during that run. *)
Theorem recipient_stream_increasing (r : Room) (ops : list RoomOp) ys r' (c : ClientId) :
  reachable r → headroom (2 * Z.of_nat (length ops)) r → room_calls ops r = Some (ys, r') →
  StronglySorted Z.lt (ev_seq <$> inboxes c ys) ∧
  Forall (λ n, lastSeq r < n ≤ lastSeq r') (ev_seq <$> inboxes c ys).
Proof.
  intros Hr hr E. pose proof (reachable_wf r Hr) as wf.
  destruct (room_calls_seqs ops r ys r' c wf hr E) as [Hle Hsub].
  pose proof (reachable_wf r' (reachable_calls ops r ys r' Hr hr E)) as wf'.
  rewrite !lastSeq_wf by done. split.
  - eapply sublist_StronglySorted; [exact Hsub|apply seqZ_StronglySorted].
  - eapply sublist_Forall; [exact Hsub|]. apply Forall_forall. intros n Hn%elem_of_seqZ. lia.
Qed.

(** An accepted event either is a cursor move dropped by the rate limit,
    which changes nothing, or uses exactly one sequence number and is sent
    with it, once, to every member but its sender. *)
Theorem apply_broadcast (r : Room) now (c : ClientId) (ev : EventPayload) evs r' :
  reachable r → headroom 2 r → apply now c ev r = Some (Value evs, r') →
  (cursor_throttled r now c = true ∧ evs = [] ∧ r' = r) ∨
  (∃ p, Forall (λ e, ev_room e = id_ r ∧ ev_seq e = nextSeq_ r ∧ ev_payload e = p) evs ∧
    ev_to <$> evs ≡ₚ elements (members_ r ∖ {[c]}) ∧ nextSeq_ r' = nextSeq_ r + 1).
Proof.
  intros Hr hr E. pose proof (wf_counters r (reachable_wf r Hr)) as Hn. unfold headroom in hr.
  unfold apply, ensureMember_ in E. run_m. case_bool_decide as Hc; simpl in E; [|by simplify_eq].
  assert (∀ r1 q, id_ r1 = id_ r → members_ r1 = members_ r → nextSeq_ r1 = u64 (nextSeq_ r + 1) →
    ∃ p, Forall (λ e, ev_room e = id_ r ∧ ev_seq e = nextSeq_ r ∧ ev_payload e = p)
      (broadcast_ r1 c (nextSeq_ r) q) ∧
    ev_to <$> broadcast_ r1 c (nextSeq_ r) q ≡ₚ elements (members_ r ∖ {[c]}) ∧
    nextSeq_ r1 = nextSeq_ r + 1) as Hb.
  { intros r1 q Hi Hm ->. exists q. rewrite u64_succ by lia. unfold broadcast_. rewrite Hi, Hm.
    by destruct (broadcast_recipients (id_ r) (members_ r) c (nextSeq_ r) q). }
  destruct ev; unfold applyStrokeBegin_, applyStrokePoint_, applyStrokeEnd_, applyCursorMove_,
    applyClear_ in E; run_m; repeat (case_match; simplify_eq; try done); simplify_eq; auto;
    right; by apply Hb.
Qed.

(** C22. An event is rejected in exactly the cases of [expected_error], with
    that error and an unchanged room; "unknown stroke id" never happens. *)
Theorem apply_outcome (r : Room) now (c : ClientId) (ev : EventPayload) :
  reachable r → headroom 2 r →
  match expected_error r c ev with
  | Some e => apply now c ev r = Some (Unexpected e, r)
  | None => ∃ evs r', apply now c ev r = Some (Value evs, r')
  end.
Proof.
  intros Hr hr. pose proof (reachable_wf r Hr) as wf.
  destruct (room_call_refines (OpApply now c ev) r wf hr) as (y & r' & E & S & _ & _).
  simpl in E, S. unfold mbind, M_bind, mret, M_ret in E.
  destruct (apply now c ev r) as [[res r1]|] eqn:Ea; [|done]. simplify_eq.
  assert (Herr : ∀ e, ReplyEvents res = ReplyEvents (Unexpected e) → r' = r).
  { intros e [= ->]. apply (room_call_error (OpApply now c ev) r e). simpl.
    unfold mbind, M_bind. by rewrite Ea. }
  unfold expected_error. unfold spec_apply in S. simpl in S.
  destruct (bool_decide_reflect (c ∈ members_ r)) as [Hc|Hc].
  2:{ rewrite bool_decide_eq_true_2 by done. simplify_eq. by rewrite (Herr notInRoom). }
  rewrite bool_decide_eq_false_2 by naive_solver.
  destruct ev; unfold spec_begin, spec_point, spec_end, spec_move, spec_clear, spec_ok in S; simpl in S;
    rewrite ?abs_is_drawing, ?abs_drawing_id in * by done;
    repeat (case_match; simplify_eq; try done);
    simplify_eq; first [by rewrite (Herr _ eq_refl) | by eauto | by destruct (activeStrokeByClient_ r !! c)].
Qed.

(** Two accepted cursor moves of a client that stays in the room are at
    least [kCursorMinInterval] apart: an earlier one is answered with no
    message and changes nothing. *)
Theorem cursor_rate_limit (r : Room) t (c : ClientId) p evs r1 ops ys r2 t' p' :
  cursor_throttled r t c = false → c ∈ members_ r →
  apply t c (CursorMove p) r = Some (Value evs, r1) →
  room_calls ops r1 = Some (ys, r2) → Forall (λ op, op ≠ OpLeave c) ops →
  c ∈ members_ r2 → t' - t < kCursorMinInterval →
  apply t' c (CursorMove p') r2 = Some (Value [], r2).
Proof.
  intros Ht Hc E1 E2 Hops Hc2 Hlt.
  unfold apply, ensureMember_, applyCursorMove_ in E1. run_m.
  rewrite bool_decide_eq_true_2, Ht in E1 by done. simplify_eq.
  destruct (last_cursor_run ops _ ys r2 c t E2 Hops) as (l & Hl & ?); [by apply lookup_insert_eq|].
  unfold apply, ensureMember_, applyCursorMove_. run_m.
  rewrite bool_decide_eq_true_2 by done.
  unfold cursor_throttled. rewrite Hl, bool_decide_eq_true_2 by lia. done.
Qed.

(** A member that leaves is gone from every part of the room, its
    unfinished stroke is closed and nobody else's state changes; the others
    are told, in order, that the stroke ended (if there was one) and that
    the member left.  For a client that is not in the room it is an error
    with no effect. *)
Theorem leave_outcome (r : Room) (c : ClientId) :
  reachable r → headroom 2 r →
  if bool_decide (c ∈ members_ r) then
    ∃ evs r', leave c r = Some (Value evs, r') ∧
      members_ r' = members_ r ∖ {[c]} ∧
      board_ r' = mkBoardState (map_drawing c set_finished (strokes (board_ r)))
                    (delete c (cursors (board_ r))) ∧
      lastCursorUpdate_ r' = delete c (lastCursorUpdate_ r) ∧
      activeStrokeByClient_ r' = delete c (activeStrokeByClient_ r) ∧
      ∀ d, ev_payload <$> inbox d (ReplyEvents (Value evs)) =
        if bool_decide (d ∈ members_ r ∧ d ≠ c)
        then match drawing_id c (board_ r) with
             | Some sid => [StrokeEndOut c sid; MemberLeftOut c]
             | None => [MemberLeftOut c]
             end
        else []
  else leave c r = Some (Unexpected notInRoom, r).
Proof.
  intros Hr hr. pose proof (reachable_wf r Hr) as wf. rewrite abs_drawing_id by done.
  destruct (bool_decide_reflect (c ∈ members_ r)) as [Hc|Hc]; unfold leave; run_m;
    [rewrite bool_decide_eq_false_2 by naive_solver|by rewrite bool_decide_eq_true_2].
  assert (∀ d, bool_decide (d ∈ members_ r ∖ {[c]} ∧ d ≠ c) = bool_decide (d ∈ members_ r ∧ d ≠ c))
    as Hd by (intros d; apply bool_decide_ext; set_solver).
  destruct (activeStrokeByClient_ r !! c) as [sid|] eqn:Ha.
  - destruct (sw_active_lookup (wf_strokes _ wf) _ _ Ha) as (i & s & Hi & Hs & Hid & Hd').
    rewrite Hi, Hs. simpl. eexists _, _. split_and!; [reflexivity|done| |done|done|].
    + simpl. by rewrite (map_drawing_insert (wf_strokes _ wf) _ _ _ _ Hs Hd').
    + intros d. simpl. rewrite filter_app. unfold broadcast_. simpl. fold (@fanout H).
      rewrite fmap_app. setoid_rewrite (fanout_to (id_ r)). rewrite Hd. by case_bool_decide.
  - simpl. eexists _, _. split_and!; [reflexivity|done| |done| |].
    + simpl. by rewrite (map_drawing_none (wf_strokes _ wf)).
    + simpl. by rewrite delete_id.
    + intros d. simpl. setoid_rewrite (fanout_to (id_ r)). rewrite Hd. by case_bool_decide.
Qed.

(** A stroke reaches the board as it was drawn: begin, then any
    interleaving of the client's points with calls of others (which do not
    clear the board), then end leaves a finished stroke with the client as
    author, the chosen style, the begin number as order, and exactly the
    client's points in order. *)
Theorem stroke_drawn_faithfully (r : Room) (c : ClientId) col th p0 now now' (ops : list RoomOp) :
  reachable r → headroom (2 * Z.of_nat (length ops) + 4) r →
  c ∈ members_ r → is_drawing c (board_ r) = false → forallb (keeps_stroke c) ops = true →
  ∃ ys r', room_calls (OpApply now c (StrokeBegin col th p0) :: ops ++ [OpApply now' c StrokeEnd]) r
      = Some (ys, r') ∧
    mkStroke (nextStrokeId_ r) c col th (nextSeq_ r) (p0 :: points_of c ops) true
      ∈ strokes (board_ r') ∧
    is_drawing c (board_ r') = false.
Proof.
  intros Hr hr Hc Hd Hk. pose proof (reachable_wf r Hr) as wf.
  destruct (room_calls_refine (OpApply now c (StrokeBegin col th p0) :: ops ++ [OpApply now' c StrokeEnd]) r wf)
    as (ys & r' & E & S & _ & _).
  { unfold headroom in *. simpl. rewrite length_app. simpl. lia. }
  exists ys, r'. split; [done|]. cbn [spec_calls spec_call] in S.
  unfold spec_apply, spec_begin in S. cbn [sp_members sp_board abs_room] in S.
  rewrite bool_decide_eq_true_2, Hd in S by done. simpl in S. rewrite !Z.sub_add in S.
  match type of S with context [spec_calls (ops ++ _) ?a] => set (a1 := a) in S end.
  set (s0 := mkStroke (nextStrokeId_ r) c col th (nextSeq_ r) [p0] false).
  destruct (spec_calls_stroke ops a1 c s0) as [Hc2 Hs2]; [done|done|simpl; set_solver|by apply drawing_true|].
  rewrite spec_calls_app in S. destruct (spec_calls ops a1) as [ys1 a2]. simpl in Hc2, Hs2, S.
  unfold spec_apply, spec_end in S. rewrite bool_decide_eq_true_2 in S by done.
  assert (drawing c (foldl (λ s p, push_point p s) s0 (points_of c ops)) = true) as Hd2
    by (rewrite drawing_push_all; by apply drawing_true).
  destruct (drawing_id_some _ _ _ Hs2 Hd2) as [[sid Hid] _].
  pose proof (map_drawing_elem c set_finished _ _ Hs2) as Hm. rewrite Hd2, push_all_points in Hm.
  rewrite Hid in S. simpl in S. apply (f_equal (sp_board ∘ snd)) in S. simpl in S.
  rewrite <-S. split; [exact Hm|apply finished_not_drawing].
Qed.

(** Clearing empties the board and aborts every stroke being drawn: a
    further point or end by any member is a protocol violation. *)
Theorem clear_aborts_strokes (r : Room) now (c : ClientId) :
  c ∈ members_ r →
  ∃ evs r', apply now c Clear r = Some (Value evs, r') ∧
    board_ r' = mkBoardState [] (cursors (board_ r)) ∧ members_ r' = members_ r ∧
    ∀ d now' p, d ∈ members_ r →
      apply now' d (StrokePoint p) r' =
        Some (Unexpected (protocolViolation "stroke point without begin"), r') ∧
      apply now' d StrokeEnd r' =
        Some (Unexpected (protocolViolation "stroke end without begin"), r').
Proof.
  intros Hc. unfold apply, ensureMember_, applyClear_. run_m.
  rewrite bool_decide_eq_true_2 by done. eexists _, _. split_and!; [reflexivity|done|done|].
  intros d now' p Hd. unfold applyStrokePoint_, applyStrokeEnd_. run_m.
  by rewrite bool_decide_eq_true_2 by done.
Qed.
End Properties.

(** ** Witnesses *)

(** Three clients in room 7; client 1 is drawing. *)
Definition demo_ops : list RoomOp :=
  [OpJoin 1; OpJoin 2; OpApply 0 1 (StrokeBegin Red Thin (mkPoint 0 0)); OpJoin 3].

Definition demo_room : Room :=
  match @room_calls elements_order demo_ops (new_room 7) with
  | Some (_, r) => r
  | None => new_room 7
  end.

Lemma demo_reachable : @reachable elements_order demo_room.
Proof.
  eapply (@reachable_calls elements_order demo_ops (new_room 7)); [constructor|done|].
  vm_compute. reflexivity.
Qed.

Lemma room_run_refines_spec_witness :
  2 * Z.of_nat (length demo_ops) + 1 < 2 ^ 64 ∧
  ∃ ys r, @room_calls elements_order demo_ops (new_room 7) = Some (ys, r) ∧
    @spec_calls elements_order demo_ops (mkSpecRoom 7 ∅ (mkBoardState [] ∅) 0 0 ∅) = (ys, abs_room r).
Proof. split; [done|]. by apply (@room_run_refines_spec elements_order 7 demo_ops). Defined.

Lemma reachable_board_ok_witness : @reachable elements_order demo_room ∧ board_ok demo_room.
Proof. split; [apply demo_reachable|]. apply (@reachable_board_ok elements_order), demo_reachable. Defined.

Definition demo_later : list RoomOp :=
  [OpApply 1 1 (StrokePoint (mkPoint 1 1)); OpApply 2 2 (CursorMove (mkPoint 5 5)); OpLeave 1].

Lemma replica_converges_witness :
  ∃ ys1 snap ys2 r,
    @room_calls elements_order (demo_ops ++ OpJoin 9 :: demo_later) (new_room 7) =
      Some (ys1 ++ ReplySnapshot (Value snap) :: ys2, r) ∧
    length ys1 = length demo_ops ∧
    replay_all (snap_state snap) (inboxes 9 ys2) = board_ r.
Proof.
  apply (@replica_converges elements_order 7 demo_ops 9 demo_later); [done|].
  by repeat constructor.
Defined.

Lemma replica_gapless_witness :
  ∃ ys1 snap ys2 r,
    @room_calls elements_order (demo_ops ++ OpJoin 9 :: demo_later) (new_room 7) =
      Some (ys1 ++ ReplySnapshot (Value snap) :: ys2, r) ∧
    length ys1 = length demo_ops ∧
    ev_seq <$> inboxes 9 ys2 = seqZ (snap_lastSeq snap + 1) (lastSeq r - snap_lastSeq snap).
Proof.
  apply (@replica_gapless elements_order 7 demo_ops 9 demo_later); [done|].
  by repeat constructor.
Defined.

Lemma recipient_stream_increasing_witness :
  ∃ ys r', @room_calls elements_order demo_later demo_room = Some (ys, r') ∧
    StronglySorted Z.lt (ev_seq <$> inboxes 2 ys).
Proof.
  destruct (@room_calls elements_order demo_later demo_room) as [[ys r']|] eqn:E;
    [|vm_compute in E; discriminate].
  exists ys, r'. split; [done|].
  apply (@recipient_stream_increasing elements_order demo_room demo_later ys r' 2);
    [apply demo_reachable|vm_compute; reflexivity|done].
Defined.

Lemma apply_broadcast_witness :
  ∃ evs r', @apply elements_order 1 1 (StrokePoint (mkPoint 1 1)) demo_room = Some (Value evs, r') ∧
    ((cursor_throttled demo_room 1 1 = true ∧ evs = [] ∧ r' = demo_room) ∨
     (∃ p, Forall (λ e, ev_room e = 7 ∧ ev_seq e = nextSeq_ demo_room ∧ ev_payload e = p) evs ∧
       ev_to <$> evs ≡ₚ elements (members_ demo_room ∖ {[1]}) ∧
       nextSeq_ r' = nextSeq_ demo_room + 1)).
Proof.
  destruct (@apply elements_order 1 1 (StrokePoint (mkPoint 1 1)) demo_room) as [[[evs|e] r']|] eqn:E;
    [|vm_compute in E; discriminate..].
  exists evs, r'. split; [done|].
  apply (@apply_broadcast elements_order demo_room 1 1 (StrokePoint (mkPoint 1 1)) evs r');
    [apply demo_reachable|vm_compute; reflexivity|done].
Defined.

Lemma apply_outcome_witness :
  expected_error demo_room 2 StrokeEnd = Some (protocolViolation "stroke end without begin") ∧
  @apply elements_order 1 2 StrokeEnd demo_room =
    Some (Unexpected (protocolViolation "stroke end without begin"), demo_room).
Proof.
  split; [vm_compute; reflexivity|].
  apply (@apply_outcome elements_order demo_room 1 2 StrokeEnd);
    [apply demo_reachable|vm_compute; reflexivity].
Defined.

Lemma cursor_rate_limit_witness :
  ∃ evs r1 ys r2,
    @apply elements_order 100 2 (CursorMove (mkPoint 1 1)) demo_room = Some (Value evs, r1) ∧
    @room_calls elements_order [OpLeave 1] r1 = Some (ys, r2) ∧
    @apply elements_order 200 2 (CursorMove (mkPoint 2 2)) r2 = Some (Value [], r2).
Proof.
  destruct (@apply elements_order 100 2 (CursorMove (mkPoint 1 1)) demo_room) as [[[evs|e] r1]|] eqn:E1;
    [|vm_compute in E1; discriminate..].
  destruct (@room_calls elements_order [OpLeave 1] r1) as [[ys r2]|] eqn:E2.
  2:{ vm_compute in E1. injection E1 as <- <-. vm_compute in E2. discriminate. }
  exists evs, r1, ys, r2. split_and!; [done..|].
  apply (@cursor_rate_limit elements_order demo_room 100 2 (mkPoint 1 1) evs r1 [OpLeave 1] ys r2);
    [vm_compute; reflexivity|by_decision|done|done
    |by repeat constructor| |done].
  vm_compute in E1. injection E1 as <- <-. vm_compute in E2. injection E2 as <- <-.
  by_decision.
Defined.

Lemma leave_outcome_witness :
  ∃ evs r', @leave elements_order 1 demo_room = Some (Value evs, r') ∧
    members_ r' = members_ demo_room ∖ {[1]} ∧
    ev_payload <$> inbox 2 (ReplyEvents (Value evs)) = [StrokeEndOut 1 1; MemberLeftOut 1].
Proof.
  pose proof (@leave_outcome elements_order demo_room 1 demo_reachable eq_refl) as L.
  rewrite bool_decide_eq_true_2 in L by by_decision.
  destruct L as (evs & r' & E & Hm & _ & _ & _ & Hd).
  exists evs, r'. split_and!; [done..|]. by rewrite (Hd 2).
Defined.

Lemma stroke_drawn_faithfully_witness :
  ∃ ys r', @room_calls elements_order (OpApply 5 2 (StrokeBegin Blue Thick (mkPoint 0 0)) ::
        demo_later ++ [OpApply 9 2 StrokeEnd]) demo_room = Some (ys, r') ∧
    mkStroke 2 2 Blue Thick 2 [mkPoint 0 0] true ∈ strokes (board_ r').
Proof.
  destruct (@stroke_drawn_faithfully elements_order demo_room 2 Blue Thick (mkPoint 0 0) 5 9 demo_later)
    as (ys & r' & E & Hs & _);
    [apply demo_reachable|done|by_decision|done|done|].
  exists ys, r'. split; [exact E|exact Hs].
Defined.

Lemma clear_aborts_strokes_witness :
  1 ∈ members_ demo_room ∧
  ∃ evs r', @apply elements_order 5 1 Clear demo_room = Some (Value evs, r') ∧
    board_ r' = mkBoardState [] (cursors (board_ demo_room)).
Proof.
  assert (1 ∈ members_ demo_room) as Hc by by_decision.
  split; [done|]. destruct (@clear_aborts_strokes elements_order demo_room 5 1 Hc) as (evs & r' & ? & ? & _).
  eauto.
Defined.
