(* ===== verification/Solo.v ===== *)
(** * Clients do not disturb each other's drawing

    What one client has drawn is determined by its own calls, by who is in the
    room and by the clearings of the board: [solo] runs only these, without
    identifiers, numbers or tables, and [drawings_independent] shows that a room
    agrees with it for every client, whatever the others do in between. *)
From S2P Require Import Prelude CoreTypes Room RoomSpec RoomRefine RoomTrace RoomProps.

(** A stroke without its identifier, its author and its number. *)
Record Sketch := mkSketch {
  sk_color : Color;
  sk_thickness : Thickness;
  sk_points : list Point;
  sk_finished : bool;
}.

Definition sketch (s : Stroke) : Sketch :=
  mkSketch (stroke_color s) (stroke_thickness s) (points s) (finished s).

Definition sketches (c : ClientId) (b : BoardState) : list Sketch :=
  sketch <$> filter (λ s, stroke_author s = c) (strokes b).

(** ** A client alone *)

Definition sk_push (p : Point) (k : Sketch) : Sketch :=
  mkSketch (sk_color k) (sk_thickness k) (sk_points k ++ [p]) (sk_finished k).
Definition sk_finish (k : Sketch) : Sketch := mkSketch (sk_color k) (sk_thickness k) (sk_points k) true.

Definition on_open (f : Sketch → Sketch) (ks : list Sketch) : list Sketch :=
  (λ k, if sk_finished k then k else f k) <$> ks.
Definition sketching (ks : list Sketch) : bool := existsb (λ k, negb (sk_finished k)) ks.

(** The event of the client itself: [None] when it is rejected. *)
Definition solo_event (ev : EventPayload) (ks : list Sketch) : option (list Sketch) :=
  match ev with
  | StrokeBegin col th p => if sketching ks then None else Some (ks ++ [mkSketch col th [p] false])
  | StrokePoint p => if sketching ks then Some (on_open (sk_push p) ks) else None
  | StrokeEnd => if sketching ks then Some (on_open sk_finish ks) else None
  | CursorMove _ => Some ks
  | Clear => Some []
  end.

Record Solo := mkSolo { so_members : gset ClientId; so_sketches : list Sketch }.

Definition solo_accepts (c : ClientId) (op : RoomOp) (so : Solo) : bool :=
  match op with
  | OpJoin _ => true
  | OpLeave _ => bool_decide (c ∈ so_members so)
  | OpApply _ _ ev => bool_decide (c ∈ so_members so) && bool_decide (is_Some (solo_event ev (so_sketches so)))
  end.

Definition solo_call (c : ClientId) (so : Solo) (op : RoomOp) : Solo :=
  let 'mkSolo ms ks := so in
  match op with
  | OpJoin d => mkSolo (ms ∪ {[d]}) ks
  | OpLeave d =>
      if bool_decide (d ∉ ms) then so else
      mkSolo (ms ∖ {[d]}) (if bool_decide (d = c) then on_open sk_finish ks else ks)
  | OpApply _ d ev =>
      if bool_decide (d ∉ ms) then so else
      if bool_decide (d = c) then mkSolo ms (default ks (solo_event ev ks)) else
      match ev with Clear => mkSolo ms [] | _ => so end
  end.

Definition solo (c : ClientId) (ops : list RoomOp) : Solo := foldl (solo_call c) (mkSolo ∅ []) ops.

Definition reply_ok (y : RoomReply) : bool :=
  match y with ReplySnapshot s => has_value s | ReplyEvents e => has_value e end.

(** ** Sketches of a board *)

Lemma sketches_map_drawing d c f g ss cs :
  (∀ s, stroke_author (f s) = stroke_author s) → (∀ s, sketch (f s) = g (sketch s)) →
  sketches c (on_strokes (map_drawing d f) (mkBoardState ss cs)) =
    if bool_decide (d = c) then on_open g (sketches c (mkBoardState ss cs)) else sketches c (mkBoardState ss cs).
Proof.
  intros Ha Hg. unfold sketches, map_drawing, on_open. simpl. induction ss as [|s ss IH]; [by case_bool_decide|].
  rewrite fmap_cons, !filter_cons.
  assert (stroke_author (if drawing d s then f s else s) = stroke_author s) as Hs by (destruct (drawing d s); auto).
  destruct (decide (stroke_author s = c)) as [Hc|Hc];
    [rewrite !decide_True by congruence|rewrite !decide_False by congruence; exact IH].
  rewrite !fmap_cons, IH. unfold drawing.
  rewrite Hc. case_bool_decide as Hd.
  - rewrite bool_decide_eq_true_2 by congruence. simpl. f_equal. destruct (finished s); [done|]. apply Hg.
  - rewrite bool_decide_eq_false_2 by congruence. done.
Qed.

Lemma sketching_drawing c b : sketching (sketches c b) = is_drawing c b.
Proof.
  unfold sketching, sketches, is_drawing. induction (strokes b) as [|s ss IH]; [done|].
  rewrite filter_cons. cbn [existsb]. unfold drawing at 1. case_decide as Hs; [cbn [fmap list_fmap existsb]|].
  - change (existsb _ (list_fmap _ _ sketch _)) with (existsb (λ k, negb (sk_finished k)) (sketch <$> filter (λ s, stroke_author s = c) ss)).
    by rewrite IH, bool_decide_eq_true_2.
  - by rewrite IH, bool_decide_eq_false_2.
Qed.

Lemma drawing_id_is c b : is_drawing c b = bool_decide (is_Some (drawing_id c b)).
Proof.
  unfold is_drawing, drawing_id. induction (strokes b) as [|s ss IH]; [done|]. rewrite filter_cons. simpl.
  case_decide as Hd; [by rewrite Hd|].
  apply not_true_is_false in Hd. by rewrite Hd.
Qed.

Lemma sketches_snoc c b s :
  sketches c (on_strokes (λ l, l ++ [s]) b) =
    sketches c b ++ (if bool_decide (stroke_author s = c) then [sketch s] else []).
Proof.
  unfold sketches. simpl. rewrite filter_app, fmap_app. f_equal. rewrite filter_cons, filter_nil.
  by case_decide; case_bool_decide.
Qed.

Lemma on_open_none g ks : sketching ks = false → on_open g ks = ks.
Proof.
  unfold on_open, sketching. induction ks as [|k ks IH]; [done|]. simpl. intros [Hk Hks]%orb_false_iff.
  apply negb_false_iff in Hk. rewrite Hk. f_equal. by apply IH.
Qed.

(** ** One call *)

Section Independent.
Context `{HashOrder}.

Definition agrees (c : ClientId) (a : SpecRoom) (so : Solo) : Prop :=
  sp_members a = so_members so ∧ sketches c (sp_board a) = so_sketches so.

(** An event of a member [d], seen by [c]. *)
Lemma event_agrees c d now ev a :
  d ∈ sp_members a →
  sp_members (spec_apply now d ev a).2 = sp_members a ∧
  sketches c (sp_board (spec_apply now d ev a).2) =
    (if bool_decide (d = c) then default (sketches c (sp_board a)) (solo_event ev (sketches c (sp_board a)))
     else match ev with Clear => [] | _ => sketches c (sp_board a) end) ∧
  (d = c → reply_ok (spec_apply now d ev a).1 = bool_decide (is_Some (solo_event ev (sketches c (sp_board a))))).
Proof.
  intros Hd. unfold spec_apply. rewrite bool_decide_eq_true_2 by done. destruct a as [id ms [ss cs] sq st lm]. simpl in *.
  destruct ev as [col th p|p| |p|]; unfold spec_begin, spec_point, spec_end, spec_move, spec_clear; simpl.
  - rewrite <-sketching_drawing. case_bool_decide as Hc; [subst d|].
    + destruct (sketching _); [done|]. simpl. split_and!; [done| |done].
      rewrite (sketches_snoc c (mkBoardState ss cs)). simpl. by rewrite bool_decide_eq_true_2.
    + destruct (sketching _); [done|]. simpl. split_and!; [done| |done].
      rewrite (sketches_snoc c (mkBoardState ss cs)). simpl. by rewrite bool_decide_eq_false_2, app_nil_r.
  - pose proof (drawing_id_is d (mkBoardState ss cs)) as Hi. rewrite <-sketching_drawing in Hi.
    destruct (drawing_id d _) as [sid|];
      [rewrite bool_decide_eq_true_2 in Hi by eauto|rewrite bool_decide_eq_false_2 in Hi by (by intros [? ?])]; simpl.
    + split_and!; [done| |intros ->; by rewrite Hi].
      rewrite (sketches_map_drawing d c _ (sk_push p) ss cs) by done.
      case_bool_decide as Hc; [subst d|done]. by rewrite Hi.
    + split_and!; [done| |intros ->; by rewrite Hi]. case_bool_decide as Hc; [subst d|done]. by rewrite Hi.
  - pose proof (drawing_id_is d (mkBoardState ss cs)) as Hi. rewrite <-sketching_drawing in Hi.
    destruct (drawing_id d _) as [sid|];
      [rewrite bool_decide_eq_true_2 in Hi by eauto|rewrite bool_decide_eq_false_2 in Hi by (by intros [? ?])]; simpl.
    + split_and!; [done| |intros ->; by rewrite Hi].
      rewrite (sketches_map_drawing d c _ sk_finish ss cs) by done.
      case_bool_decide as Hc; [subst d|done]. by rewrite Hi.
    + split_and!; [done| |intros ->; by rewrite Hi]. case_bool_decide as Hc; [subst d|done]. by rewrite Hi.
  - by repeat case_match.
  - split_and!; [done|by case_bool_decide|done].
Qed.

Lemma leave_agrees c d a :
  sp_members (spec_leave d a).2 = (if bool_decide (d ∉ sp_members a) then sp_members a else sp_members a ∖ {[d]}) ∧
  sketches c (sp_board (spec_leave d a).2) =
    (if bool_decide (d ∈ sp_members a ∧ d = c) then on_open sk_finish (sketches c (sp_board a)) else sketches c (sp_board a)) ∧
  reply_ok (spec_leave d a).1 = bool_decide (d ∈ sp_members a).
Proof.
  unfold spec_leave. case_bool_decide as Hd.
  { split_and!; [done|by rewrite bool_decide_eq_false_2 by naive_solver|by rewrite bool_decide_eq_false_2]. }
  rewrite !(bool_decide_eq_true_2 (d ∈ _)) by done.
  rewrite (bool_decide_ext (d ∈ sp_members a ∧ d = c) (d = c)) by naive_solver.
  destruct a as [id ms [ss cs] sq st lm]. simpl in *.
  pose proof (drawing_id_is d (mkBoardState ss cs)) as Hi. rewrite <-sketching_drawing in Hi.
  destruct (drawing_id d _) as [sid|];
    [rewrite bool_decide_eq_true_2 in Hi by eauto|rewrite bool_decide_eq_false_2 in Hi by (by intros [? ?])];
    simpl; (split_and!; [done| |done]).
  - change (sketches c (on_strokes (map_drawing d set_finished) (mkBoardState ss cs)) = (if bool_decide (d = c)
      then on_open sk_finish (sketches c (mkBoardState ss cs)) else sketches c (mkBoardState ss cs))).
    by apply sketches_map_drawing.
  - case_bool_decide as Hc; [subst d|done]. symmetry. by apply on_open_none.
Qed.

Lemma call_agrees c op a so :
  agrees c a so →
  agrees c (spec_call op a).2 (solo_call c so op) ∧
  (op_client op = c → reply_ok (spec_call op a).1 = solo_accepts c op so).
Proof.
  destruct so as [ms ks]. intros [Hm Hk]. simpl in Hm, Hk. subst ms ks.
  destruct op as [d|d|now d ev]; simpl.
  - split; [|done]. by split.
  - destruct (leave_agrees c d a) as (A & B & C). split; [|intros <-; exact C]. unfold agrees. rewrite A, B.
    destruct (decide (d ∈ sp_members a)) as [Hd|Hd].
    + rewrite (bool_decide_eq_false_2 (d ∉ _)), (bool_decide_ext (d ∈ sp_members a ∧ d = c) (d = c)) by naive_solver.
      done.
    + by rewrite (bool_decide_eq_true_2 (d ∉ _)), (bool_decide_eq_false_2 (d ∈ sp_members a ∧ d = c)) by naive_solver.
  - destruct (decide (d ∈ sp_members a)) as [Hd|Hd].
    + destruct (event_agrees c d now ev a Hd) as (A & B & C). rewrite (bool_decide_eq_false_2 (d ∉ _)) by naive_solver.
      split; [|intros Hc; rewrite (C Hc), (bool_decide_eq_true_2 (c ∈ _)) by (by rewrite <-Hc); done].
      unfold agrees. rewrite A, B. repeat case_bool_decide; try done; by destruct ev.
    + unfold spec_apply. rewrite (bool_decide_eq_false_2 (d ∈ _)), (bool_decide_eq_true_2 (d ∉ _)) by done. simpl.
      split; [done|]. intros <-. by rewrite bool_decide_eq_false_2 by done.
Qed.

Lemma calls_agree c ops a so ys a' :
  agrees c a so → spec_calls ops a = (ys, a') →
  agrees c a' (foldl (solo_call c) so ops) ∧
  ∀ i op y, ops !! i = Some op → ys !! i = Some y → op_client op = c →
    reply_ok y = solo_accepts c op (foldl (solo_call c) so (take i ops)).
Proof.
  revert a so ys. induction ops as [|op ops IH]; intros a so ys Ha E; [by injection E as <- <-|].
  destruct (call_agrees c op a so Ha) as [Ha1 Hr]. cbn [spec_calls] in E.
  destruct (spec_call op a) as [y a1]. destruct (spec_calls ops a1) as [ys1 a2] eqn:E1. injection E as <- <-.
  destruct (IH a1 (solo_call c so op) ys1 Ha1 E1) as [Ha2 Hrs]. split; [exact Ha2|].
  intros [|i] op' y' Ho Hy Hc; simpl in Ho, Hy; [|by apply Hrs]. simplify_eq. by apply Hr.
Qed.

(** C23. The clients of a room do not disturb each other.  In any run of calls
    from a new room, for every client, the strokes on the board that it has drawn
    are those that it would have drawn alone (style, points and end of each, in
    order), and its calls are accepted exactly when they would be: the calls of the
    others have no effect but that they clear the board. *)
Theorem drawings_independent (id : RoomId) (ops : list RoomOp) ys r :
  headroom (2 * Z.of_nat (length ops)) (new_room id) → room_calls ops (new_room id) = Some (ys, r) →
  ∀ c, sketches c (board_ r) = so_sketches (solo c ops) ∧ members_ r = so_members (solo c ops) ∧
    ∀ i op y, ops !! i = Some op → ys !! i = Some y → op_client op = c →
      reply_ok y = solo_accepts c op (solo c (take i ops)).
Proof.
  intros hr E c. destruct (room_calls_refine ops (new_room id) (new_room_wf id) hr) as (ys' & r' & E' & S & _).
  simplify_eq. destruct (calls_agree c ops (abs_room (new_room id)) (mkSolo ∅ []) ys (abs_room r)) as [[Hm Hk] Hr];
    [by split|done|]. by split_and!.
Qed.
End Independent.

(** ** Any interleaving *)

(** An event of a member that does not clear the board. *)
Definition calm (ms : gset ClientId) (op : RoomOp) : Prop :=
  match op with OpApply _ d ev => d ∈ ms ∧ ev ≠ Clear | _ => False end.

(** In a calm run only the client's own calls matter, in whatever places they
    come. *)
Lemma solo_own c ms ks ops :
  Forall (calm ms) ops →
  foldl (solo_call c) (mkSolo ms ks) ops =
    foldl (solo_call c) (mkSolo ms ks) (filter (λ op, op_client op = c) ops).
Proof.
  intros Hops. revert ks. induction Hops as [|op ops Hop _ IH]; intros ks; [done|]. rewrite filter_cons.
  destruct op as [d|d|now d ev]; try done. destruct Hop as [Hd Hev]. simpl.
  rewrite (bool_decide_eq_false_2 (d ∉ ms)) by naive_solver. case_decide as Hc; simpl.
  - rewrite (bool_decide_eq_false_2 (d ∉ ms)) by naive_solver. by rewrite !(bool_decide_eq_true_2 (d = c)) by done.
  - rewrite bool_decide_eq_false_2 by done. by destruct ev.
Qed.

(** One stroke: begin, points, end. *)
Definition draw (c : ClientId) (col : Color) (th : Thickness) (p : Point) (ps : list Point) : list RoomOp :=
  OpApply 0 c (StrokeBegin col th p) :: ((λ q, OpApply 0 c (StrokePoint q)) <$> ps) ++ [OpApply 0 c StrokeEnd].

Lemma solo_points c ms col th qs ps :
  c ∈ ms →
  foldl (solo_call c) (mkSolo ms [mkSketch col th qs false]) ((λ q, OpApply 0 c (StrokePoint q)) <$> ps) =
    mkSolo ms [mkSketch col th (qs ++ ps) false].
Proof.
  intros Hc. revert qs. induction ps as [|p ps IH]; intros qs; [by rewrite app_nil_r|]. cbn [fmap list_fmap foldl].
  simpl solo_call. rewrite bool_decide_eq_false_2, bool_decide_eq_true_2 by naive_solver. simpl. unfold sk_push. simpl.
  rewrite (IH (qs ++ [p])). by rewrite <-app_assoc.
Qed.

Lemma solo_draw c ms col th p ps :
  c ∈ ms → foldl (solo_call c) (mkSolo ms []) (draw c col th p ps) = mkSolo ms [mkSketch col th (p :: ps) true].
Proof.
  intros Hc. unfold draw. cbn [foldl]. rewrite foldl_app.
  assert (solo_call c (mkSolo ms []) (OpApply 0 c (StrokeBegin col th p)) = mkSolo ms [mkSketch col th [p] false]) as ->.
  { simpl. by rewrite bool_decide_eq_false_2, bool_decide_eq_true_2 by naive_solver. }
  rewrite solo_points by done. simpl. by rewrite bool_decide_eq_false_2, bool_decide_eq_true_2 by naive_solver.
Qed.

(** The client's own calls are all accepted. *)
Fixpoint own_accepted (c : ClientId) (so : Solo) (ops : list RoomOp) : bool :=
  match ops with
  | [] => true
  | op :: ops =>
      (bool_decide (op_client op ≠ c) || solo_accepts c op so) && own_accepted c (solo_call c so op) ops
  end.

Lemma own_accepted_app c so ops ops' :
  own_accepted c so (ops ++ ops') = own_accepted c so ops && own_accepted c (foldl (solo_call c) so ops) ops'.
Proof. revert so. induction ops as [|op ops IH]; intros so; [done|]. simpl. by rewrite IH, andb_assoc. Qed.

Lemma own_accepted_lookup c so ops i op :
  own_accepted c so ops = true → ops !! i = Some op → op_client op = c →
  solo_accepts c op (foldl (solo_call c) so (take i ops)) = true.
Proof.
  intros Ha Hi Hc. rewrite <-(take_drop_middle _ _ _ Hi), own_accepted_app in Ha.
  apply andb_true_iff in Ha as [_ Ha]. simpl in Ha. apply andb_true_iff in Ha as [Ha _].
  by rewrite bool_decide_eq_false_2 in Ha by naive_solver.
Qed.

Lemma own_accepted_calm c ms ks ops :
  Forall (calm ms) ops →
  own_accepted c (mkSolo ms ks) ops = own_accepted c (mkSolo ms ks) (filter (λ op, op_client op = c) ops).
Proof.
  intros Hops. revert ks. induction Hops as [|op ops Hop _ IH]; intros ks; [done|]. rewrite filter_cons.
  destruct op as [d|d|now d ev]; try done. destruct Hop as [Hd Hev]. cbn [own_accepted op_client solo_call].
  rewrite (bool_decide_eq_false_2 (d ∉ ms)) by naive_solver. case_decide as Hc; cbn [own_accepted op_client solo_call].
  - rewrite (bool_decide_eq_false_2 (d ∉ ms)) by naive_solver. by rewrite !(bool_decide_eq_true_2 (d = c)), IH by done.
  - rewrite (bool_decide_eq_true_2 (d ≠ c)), (bool_decide_eq_false_2 (d = c)) by done.
    rewrite <-IH. by destruct ev.
Qed.

Lemma draw_accepted c ms col th p ps : c ∈ ms → own_accepted c (mkSolo ms []) (draw c col th p ps) = true.
Proof.
  intros Hc. pose proof (bool_decide_eq_true_2 _ Hc) as Hin. unfold draw. cbn [own_accepted].
  assert (solo_call c (mkSolo ms []) (OpApply 0 c (StrokeBegin col th p)) = mkSolo ms [mkSketch col th [p] false]) as ->.
  { simpl. by rewrite bool_decide_eq_false_2, bool_decide_eq_true_2 by naive_solver. }
  simpl solo_accepts. rewrite Hin. rewrite orb_true_r. simpl andb. rewrite own_accepted_app, solo_points by done.
  apply andb_true_iff. split; [|simpl; by rewrite Hin, orb_true_r].
  generalize [p] as qs. induction ps as [|q ps IH]; intros qs; [done|]. cbn [fmap list_fmap own_accepted].
  assert (solo_call c (mkSolo ms [mkSketch col th qs false]) (OpApply 0 c (StrokePoint q)) =
    mkSolo ms [mkSketch col th (qs ++ [q]) false]) as ->.
  { simpl. by rewrite bool_decide_eq_false_2, bool_decide_eq_true_2 by naive_solver. }
  simpl. rewrite Hin, orb_true_r. exact (IH (qs ++ [q])).
Qed.

(** ** Numbers *)

Section Numbers.
Context `{HashOrder}.

(** An accepted event other than a cursor move takes one number. *)
Lemma event_number now d ev a :
  d ∈ sp_members a → match ev with CursorMove _ => False | _ => True end →
  reply_ok (spec_apply now d ev a).1 = true →
  sp_seq (spec_apply now d ev a).2 = sp_seq a + 1 ∧ sp_members (spec_apply now d ev a).2 = sp_members a.
Proof.
  intros Hd Hev. unfold spec_apply. rewrite bool_decide_eq_true_2 by done.
  destruct ev; unfold spec_begin, spec_point, spec_end, spec_clear; try done; by case_match.
Qed.

Definition numbered (ms : gset ClientId) (op : RoomOp) : Prop :=
  match op with OpApply _ d ev => d ∈ ms ∧ match ev with CursorMove _ => False | _ => True end | _ => False end.

Lemma run_numbers ms ops a :
  sp_members a = ms → Forall (numbered ms) ops → Forall (λ y, reply_ok y = true) (spec_calls ops a).1 →
  sp_seq (spec_calls ops a).2 = sp_seq a + Z.of_nat (length ops).
Proof.
  intros Hm Hops. revert a Hm. induction Hops as [|op ops Hop _ IH]; intros a Hm Hok; [simpl; lia|].
  destruct op as [d|d|now d ev]; try done. destruct Hop as [Hd Hev]. rewrite <-Hm in Hd. cbn [spec_calls] in *.
  pose proof (event_number now d ev a Hd Hev) as Hn. simpl spec_call in *.
  destruct (spec_apply now d ev a) as [y a1]. specialize (IH a1).
  destruct (spec_calls ops a1) as [ys a2]. simpl in *. apply Forall_cons in Hok as [Hy Hok].
  destruct (Hn Hy) as [Hs Hm1]. rewrite IH by (done || congruence). lia.
Qed.
End Numbers.

(** ** Witness *)

#[local] Existing Instance elements_order.

(** The second client clears the board while the first draws, and then both
    draw. *)
Definition crossing : list RoomOp :=
  [OpJoin 1; OpJoin 2; OpApply 0 1 (StrokeBegin Red Thin (mkPoint 1 1)); OpApply 0 2 (StrokePoint (mkPoint 9 9));
   OpApply 0 2 Clear; OpApply 0 1 (StrokePoint (mkPoint 2 2)); OpApply 0 1 (StrokeBegin Blue Thick (mkPoint 3 3));
   OpApply 0 2 (StrokeBegin Black Medium (mkPoint 8 8)); OpApply 0 1 (StrokePoint (mkPoint 4 4)); OpApply 0 1 StrokeEnd].

Definition crossed : list RoomReply * Room := default ([], new_room 1) (room_calls crossing (new_room 1)).

Lemma drawings_independent_witness :
  sketches 1 (board_ crossed.2) = [mkSketch Blue Thick [mkPoint 3 3; mkPoint 4 4] true] ∧
  sketches 2 (board_ crossed.2) = [mkSketch Black Medium [mkPoint 8 8] false] ∧
  ∀ y, crossed.1 !! 5%nat = Some y → reply_ok y = false.
Proof.
  pose proof (drawings_independent 1 crossing crossed.1 crossed.2) as D.
  assert (headroom (2 * Z.of_nat (length crossing)) (new_room 1)) as hr by (vm_compute; reflexivity).
  assert (room_calls crossing (new_room 1) = Some (crossed.1, crossed.2)) as E by (vm_compute; reflexivity).
  split; [|split].
  - destruct (D hr E 1) as [-> _]. vm_compute. reflexivity.
  - destruct (D hr E 2) as [-> _]. vm_compute. reflexivity.
  - intros y Hy. destruct (D hr E 1) as (_ & _ & Hr).
    rewrite (Hr 5%nat _ y eq_refl Hy eq_refl). vm_compute. reflexivity.
Defined.
