(* ===== verification/CursorRate.v ===== *)
(** * The rate of cursor moves

    [Room::applyCursorMove_] drops a move that comes less than
    [kCursorMinInterval] after the last accepted one.  This file counts, over any
    run of calls on a room, the moves of one client that are accepted and the
    cursor events that another is sent. *)
From S2P Require Import Prelude CoreTypes Room RoomSpec RoomRefine RoomTrace RoomProps.

(** ** Spaced times *)

(** Each time is at least one interval after those before it. *)
Definition spaced : list TimePoint → Prop := StronglySorted (λ t t', t + kCursorMinInterval ≤ t').

Lemma spaced_span a b ts :
  spaced ts → Forall (λ t, a ≤ t < b) ts → ts ≠ [] →
  a + (Z.of_nat (length ts) - 1) * kCursorMinInterval < b.
Proof.
  intros Hs. revert a. induction Hs as [|t ts Hs IH Ht]; intros a Hin Hne; [done|].
  apply Forall_cons in Hin as [Hb Hin]. destruct ts as [|t1 ts]; [simpl; lia|].
  assert (t + kCursorMinInterval + (Z.of_nat (length (t1 :: ts)) - 1) * kCursorMinInterval < b) as Hlt; [|simpl length in *; lia].
  apply IH; [|done]. apply Forall_forall. intros x Hx. rewrite Forall_forall in Ht, Hin.
  specialize (Ht x Hx). specialize (Hin x Hx). simpl in *. lia.
Qed.

(** The times of a window of length [T]. *)
Definition window (t T : Z) (ts : list TimePoint) : list TimePoint := filter (λ x, t ≤ x < t + T) ts.

Lemma window_count t T ts :
  spaced ts → 0 ≤ T →
  Z.of_nat (length (window t T ts)) ≤ (T + kCursorMinInterval - 1) / kCursorMinInterval.
Proof.
  intros Hs HT. assert (0 < kCursorMinInterval) as Hk by done.
  destruct (decide (window t T ts = [])) as [E|Hne]; [rewrite E; simpl; apply Z.div_pos; lia|].
  assert (t + (Z.of_nat (length (window t T ts)) - 1) * kCursorMinInterval < t + T) as Hlt.
  { apply spaced_span; [|apply Forall_forall; intros x Hx; by apply list_elem_of_filter in Hx as [? _]|done].
    eapply sublist_StronglySorted; [apply sublist_filter|exact Hs]. }
  apply Z.div_le_lower_bound; [done|]. lia.
Qed.

Section CursorRate.
Context `{HashOrder}.

(** ** Accepted moves *)

(** The time of a move of [c] that the room accepts. *)
Definition accepts (c : ClientId) (op : RoomOp) (r : Room) : option TimePoint :=
  match op with
  | OpApply now c' (CursorMove _) =>
      if bool_decide (c' = c ∧ c ∈ members_ r) && negb (cursor_throttled r now c) then Some now else None
  | _ => None
  end.

Fixpoint accepted_moves (c : ClientId) (ops : list RoomOp) (r : Room) : list TimePoint :=
  match ops with
  | [] => []
  | op :: ops =>
      match room_call op r with
      | Some (_, r') => option_list (accepts c op r) ++ accepted_moves c ops r'
      | None => []
      end
  end.

(** The positions of the cursor of [c] that [d] is sent. *)
Definition cursor_of (c : ClientId) (e : OutgoingEvent) : option Point :=
  match ev_payload e with
  | CursorMoveOut author p => if bool_decide (author = c) then Some p else None
  | _ => None
  end.

Definition cursor_news (c d : ClientId) (y : RoomReply) : list Point := omap (cursor_of c) (inbox d y).

Lemma cursor_news_fanout c d id ms from seq p :
  cursor_news c d (ReplyEvents (Value (fanout id ms from seq p))) =
    if bool_decide (d ∈ ms ∧ d ≠ from) then option_list (cursor_of c (mkOutgoingEvent id d seq p)) else [].
Proof.
  unfold cursor_news. simpl. rewrite fanout_to. case_bool_decide; [|done]. simpl.
  by destruct (cursor_of c _).
Qed.

Lemma cursor_news_one c d id ms from seq p :
  (length (cursor_news c d (ReplyEvents (Value (fanout id ms from seq p)))) ≤ 1)%nat.
Proof. rewrite cursor_news_fanout. case_bool_decide; [|simpl; lia]. destruct (cursor_of c _); simpl; lia. Qed.

(** What one call does to the time of the last move of a client that stays. *)
Lemma cursor_step op r y r' c d :
  room_wf r → headroom 2 r → room_call op r = Some (y, r') → op ≠ OpLeave c →
  match accepts c op r with
  | Some t => lastCursorUpdate_ r' !! c = Some t ∧
      (∀ l, lastCursorUpdate_ r !! c = Some l → l + kCursorMinInterval ≤ t) ∧
      (length (cursor_news c d y) ≤ 1)%nat
  | None => lastCursorUpdate_ r' !! c = lastCursorUpdate_ r !! c ∧ cursor_news c d y = []
  end.
Proof.
  intros wf hr E Hop. destruct (room_call_refines op r wf hr) as (y1 & r1 & E1 & S & _). simplify_eq.
  replace (lastCursorUpdate_ r') with (sp_lastMove (spec_call op (abs_room r)).2) by by rewrite S.
  replace y with (spec_call op (abs_room r)).1 by by rewrite S. clear E S.
  destruct op as [c'|c'|now c' ev]; simpl; [done| |].
  - assert (c' ≠ c) by congruence. unfold spec_leave. case_bool_decide; [done|].
    destruct (drawing_id c' _); simpl; rewrite lookup_delete_ne by done; (split; [done|]);
      unfold cursor_news; simpl; rewrite ?filter_app, ?omap_app, !fanout_to; by repeat case_bool_decide.
  - unfold spec_apply. simpl. destruct (bool_decide_reflect (c' ∈ members_ r)) as [Hin|Hin].
    2:{ destruct ev; simpl; try done. by rewrite bool_decide_eq_false_2 by naive_solver. }
    destruct ev as [col th p|p| |p|]; unfold spec_begin, spec_point, spec_end, spec_move, spec_clear, spec_ok, spec_emit.
    + case_match; [done|]. simpl. rewrite cursor_news_fanout. by case_bool_decide.
    + case_match; [|done]. simpl. rewrite cursor_news_fanout. by case_bool_decide.
    + case_match; [|done]. simpl. rewrite cursor_news_fanout. by case_bool_decide.
    + unfold cursor_throttled. destruct (decide (c' = c)) as [->|Hne].
      * rewrite bool_decide_eq_true_2 by done. simpl.
        destruct (lastCursorUpdate_ r !! c) as [l|] eqn:Hl; [case_bool_decide|]; simpl; [by rewrite Hl|..];
          rewrite lookup_insert_eq; (split_and!; [done|naive_solver lia|apply cursor_news_one]).
      * rewrite (bool_decide_eq_false_2 (c' = c ∧ _)) by naive_solver. simpl.
        case_match; simpl; [done|]. rewrite lookup_insert_ne by done. split; [done|].
        rewrite cursor_news_fanout. unfold cursor_of. simpl. rewrite (bool_decide_eq_false_2 (c' = c)) by done.
        by case_bool_decide.
    + simpl. rewrite cursor_news_fanout. by case_bool_decide.
Qed.

Lemma moves_run (c : ClientId) (ops : list RoomOp) r ys r' :
  room_wf r → headroom (2 * Z.of_nat (length ops)) r → Forall (λ op, op ≠ OpLeave c) ops →
  room_calls ops r = Some (ys, r') →
  let ts := accepted_moves c ops r in
  spaced (option_list (lastCursorUpdate_ r !! c) ++ ts) ∧
  lastCursorUpdate_ r' !! c = last (option_list (lastCursorUpdate_ r !! c) ++ ts) ∧
  ∀ d, (length (ys ≫= cursor_news c d) ≤ length ts)%nat.
Proof.
  intros wf hr Hops E. cbn zeta.
  revert r ys wf hr E. induction Hops as [|op ops Hop Hops IH]; intros r ys wf hr E.
  { injection E as <- <-. simpl. rewrite app_nil_r. split_and!; [|by destruct (lastCursorUpdate_ r !! c)|done].
    destruct (lastCursorUpdate_ r !! c); repeat constructor. }
  unfold headroom in hr. simpl length in hr.
  destruct (room_call_refines op r wf) as (y & r1 & E1 & _ & wf1 & Hle); [unfold headroom; lia|].
  cbn [room_calls] in E. unfold mbind, M_bind in E. rewrite E1 in E.
  destruct (room_calls ops r1) as [[ys1 r2]|] eqn:E2; [|done]. injection E as <- <-.
  destruct (IH r1 ys1 wf1) as (Hsp & Hlast & Hn); [unfold headroom; lia|done|].
  assert (headroom 2 r) as h2 by (unfold headroom; lia). cbn [accepted_moves]. rewrite E1.
  pose proof (λ d, cursor_step op r y r1 c d wf h2 E1 Hop) as Hstep.
  destruct (accepts c op r) as [t|] eqn:Ha; simpl option_list.
  + destruct (Hstep c) as (Hl1 & Hgap & _). rewrite Hl1 in Hsp, Hlast. simpl in Hsp, Hlast. simpl app.
    split_and!.
    * destruct (lastCursorUpdate_ r !! c) as [l|]; [|exact Hsp]. simpl. constructor; [exact Hsp|].
      specialize (Hgap l eq_refl). apply StronglySorted_inv in Hsp as [_ Hsp]. constructor; [done|].
      eapply Forall_impl; [exact Hsp|]. intros x Hx. assert (0 < kCursorMinInterval) by done. cbn beta in Hx. lia.
    * rewrite Hlast. by destruct (lastCursorUpdate_ r !! c).
    * intros d. destruct (Hstep d) as (_ & _ & Hone). simpl. rewrite length_app. exact (Nat.add_le_mono _ 1 _ _ Hone (Hn d)).
  + destruct (Hstep c) as [Hl1 _]. rewrite Hl1 in Hsp, Hlast. split_and!; [done|done|].
    intros d. destruct (Hstep d) as [_ Hnone]. simpl. rewrite Hnone. exact (Hn d).
Qed.
End CursorRate.
