(* ===== verification/Time.v ===== *)
(** * Time providers

    [ITimeProvider] ([time.hpp]) is the room's only source of time.  The one
    [main] gives it, [SystemTimeProvider] ([time.cpp]), reads the steady clock of
    the system; the tests have one that is set by hand ([fake_time.hpp]).  The
    clock itself is outside the program: it is a parameter, and all that is
    assumed of it is what the standard says of [std::chrono::steady_clock], that a
    later reading is never smaller.  With the clock the rate limit of cursor moves
    has its two sides: no client is shown too many positions, and none that is
    out of date. *)
From S2P Require Import Prelude CoreTypes Room RoomSpec RoomRefine RoomTrace RoomProps CursorRate.

(** ** Providers *)

(** The moments [W] of the outside world and the reading of the clock in each. *)
Class SteadyClock (W : Type) := {
  earlier : relation W;
  steady_now : W → TimePoint;
  steady_monotone w w' : earlier w w' → steady_now w ≤ steady_now w';
}.

(** The interface: what [now()] returns on an object at a moment. *)
Class ITimeProvider (W P : Type) := now : P → W → TimePoint.

(** No data members. *)
Record SystemTimeProvider := mkSystemTimeProvider {}.

#[export] Instance SystemTimeProvider_now `{SteadyClock W} : ITimeProvider W SystemTimeProvider :=
  λ _ w, steady_now w.

Definition makeSystemTimeProvider : SystemTimeProvider := mkSystemTimeProvider.

(** The provider of the tests. *)
Record FakeTimeProvider := mkFakeTimeProvider { now_ : TimePoint }.

#[export] Instance FakeTimeProvider_now W : ITimeProvider W FakeTimeProvider := λ p _, now_ p.

Definition fake_set (tp : TimePoint) (p : FakeTimeProvider) : FakeTimeProvider := mkFakeTimeProvider tp.
Definition fake_advance (d : Z) (p : FakeTimeProvider) : FakeTimeProvider := mkFakeTimeProvider (now_ p + d).

(** ** A room with its provider *)

Inductive RoomRequest :=
  | Join (client : ClientId)
  | Leave (client : ClientId)
  | Event (client : ClientId) (ev : EventPayload).

Section Driven.
Context `{HashOrder} {W P : Type} `{ITimeProvider W P}.

(** A request handled at the moment [w]: [timeProvider_->now()] is read in the call. *)
Definition at_moment (p : P) (wq : W * RoomRequest) : RoomOp :=
  match wq.2 with
  | Join c => OpJoin c
  | Leave c => OpLeave c
  | Event c ev => OpApply (now p wq.1) c ev
  end.

Definition room_requests (p : P) (qs : list (W * RoomRequest)) : M Room (list RoomReply) :=
  room_calls (at_moment p <$> qs).

Definition accepted_times (p : P) (c : ClientId) (qs : list (W * RoomRequest)) (r : Room) : list TimePoint :=
  accepted_moves c (at_moment p <$> qs) r.
End Driven.

(** ** The position shown is up to date *)

Section Fresh.
Context `{HashOrder}.

(** The last accepted move of each client is one of the calls, and the board
    shows its position. *)
Definition shown (ops : list RoomOp) (a : SpecRoom) : Prop :=
  ∀ c l, sp_lastMove a !! c = Some l →
    ∃ q, OpApply l c (CursorMove q) ∈ ops ∧ cursors (sp_board a) !! c = Some q.

Lemma shown_mono ops op a a' :
  shown ops a → sp_lastMove a' = sp_lastMove a → cursors (sp_board a') = cursors (sp_board a) →
  shown (ops ++ [op]) a'.
Proof.
  intros Hs E1 E2 c l. rewrite E1, E2. intros (q & Hq & Hc)%Hs. exists q. split; [|done].
  apply elem_of_app. by left.
Qed.

Lemma shown_call ops op a : shown ops a → shown (ops ++ [op]) (spec_call op a).2.
Proof.
  intros Hs. destruct op as [c|c|now c ev]; simpl; [by eapply shown_mono| |].
  - unfold spec_leave. case_bool_decide; [by eapply shown_mono|].
    assert (∀ c' l, delete c (sp_lastMove a) !! c' = Some l →
      ∃ q, OpApply l c' (CursorMove q) ∈ ops ++ [OpLeave c] ∧ delete c (cursors (sp_board a)) !! c' = Some q) as Hd.
    { intros c' l [Hne (q & Hq & Hc)%Hs]%lookup_delete_Some. exists q. rewrite lookup_delete_ne by done.
      split; [|done]. apply elem_of_app. by left. }
    by destruct (drawing_id c (sp_board a)).
  - unfold spec_apply. case_bool_decide; [|by eapply shown_mono].
    destruct ev as [col th p|p| |p|]; unfold spec_begin, spec_point, spec_end, spec_move, spec_clear;
      try (repeat case_match; by eapply shown_mono).
    case_match; [by eapply shown_mono|]. simpl. intros c' l. simpl.
    rewrite !lookup_insert. case_decide; [intros [= <-]; subst c'; exists p|intros (q & Hq & Hc)%Hs; exists q];
      (split; [|done]); apply elem_of_app; [right; by left|by left].
Qed.

Lemma shown_calls ops ops' a : shown ops a → shown (ops ++ ops') (spec_calls ops' a).2.
Proof.
  revert ops a. induction ops' as [|op ops' IH]; intros ops a Hs; [by rewrite app_nil_r|].
  replace (ops ++ op :: ops') with ((ops ++ [op]) ++ ops') by by rewrite <-app_assoc. cbn [spec_calls].
  apply (shown_call ops op), (IH _ _) in Hs. destruct (spec_call op a) as [y a1]. simpl in *.
  destruct (spec_calls ops' a1). exact Hs.
Qed.

Lemma member_stays op c a : op ≠ OpLeave c → c ∈ sp_members a → c ∈ sp_members (spec_call op a).2.
Proof.
  intros Hop Hc. destruct op as [c'|c'|now c' ev]; simpl; [set_solver| |].
  - assert (c' ≠ c) by congruence. unfold spec_leave. case_bool_decide; [done|].
    destruct (drawing_id c' _); simpl; set_solver.
  - unfold spec_apply. case_bool_decide; [|done].
    destruct ev; unfold spec_begin, spec_point, spec_end, spec_move, spec_clear; by repeat case_match.
Qed.

Lemma member_stays_calls ops c a :
  Forall (λ op, op ≠ OpLeave c) ops → c ∈ sp_members a → c ∈ sp_members (spec_calls ops a).2.
Proof.
  intros Hops. revert a. induction Hops as [|op ops Hop _ IH]; intros a Hc; [done|]. cbn [spec_calls].
  apply (member_stays op c a Hop) in Hc. destruct (spec_call op a) as [y a1]. cbn [snd] in Hc. apply IH in Hc.
  destruct (spec_calls ops a1). exact Hc.
Qed.

(** A move of a member, accepted or dropped, leaves the board with a position
    of a move less than an interval before it. *)
Lemma move_shown ops now c p a :
  shown ops a → c ∈ sp_members a →
  ∃ t q, OpApply t c (CursorMove q) ∈ ops ++ [OpApply now c (CursorMove p)] ∧
    cursors (sp_board (spec_call (OpApply now c (CursorMove p)) a).2) !! c = Some q ∧
    now < t + kCursorMinInterval.
Proof.
  intros Hs Hin. simpl. unfold spec_apply. rewrite bool_decide_eq_true_2 by done. unfold spec_move.
  assert (0 < kCursorMinInterval) by done.
  assert (OpApply now c (CursorMove p) ∈ ops ++ [OpApply now c (CursorMove p)]) by (apply elem_of_app; right; by left).
  destruct (sp_lastMove a !! c) as [l|] eqn:Hl; [case_bool_decide|]; simpl.
  - destruct (Hs c l Hl) as (q & Hq & Hc). exists l, q. split_and!; [apply elem_of_app; by left|done|lia].
  - exists now, p. rewrite lookup_insert_eq. split_and!; [done|done|lia].
  - exists now, p. rewrite lookup_insert_eq. split_and!; [done|done|lia].
Qed.
End Fresh.

(** ** Both sides of the rate *)

Section Rate.
Context `{HashOrder} {W : Type} `{SteadyClock W}.
Implicit Types qs : list (W * RoomRequest).

Lemma at_moment_leave (p : SystemTimeProvider) c qs :
  Forall (λ wq, wq.2 ≠ Leave c) qs → Forall (λ op, op ≠ OpLeave c) (at_moment p <$> qs).
Proof.
  intros Hl. apply Forall_fmap. eapply Forall_impl; [exact Hl|]. intros [w q] Hq. simpl in Hq.
  unfold at_moment. simpl. destruct q; [done| |done]. congruence.
Qed.

Lemma at_moment_move (p : SystemTimeProvider) qs t c q :
  OpApply t c (CursorMove q) ∈ at_moment p <$> qs →
  ∃ w, (w, Event c (CursorMove q)) ∈ qs ∧ t = now p w.
Proof.
  intros ([w qq] & E & Hin)%list_elem_of_fmap. exists w. destruct qq; simpl in E; try done.
  injection E as -> -> <-. done.
Qed.

(** In the order of the clock a request of the past is not read later. *)
Lemma readings_ordered qs x w q : 
  StronglySorted earlier (qs ++ [(w, q)]).*1 → x ∈ qs ++ [(w, q)] → steady_now x.1 ≤ steady_now w.
Proof.
  rewrite fmap_app. intros (Hs & _ & _)%StronglySorted_app [Hx|Hx%list_elem_of_singleton]%elem_of_app; [|by subst x].
  apply steady_monotone. eapply Hs; [by apply list_elem_of_fmap_2|by left].
Qed.

Lemma room_requests_app (p : SystemTimeProvider) qs qs' r ys r1 ys' r2 :
  room_requests p qs r = Some (ys, r1) → room_requests p qs' r1 = Some (ys', r2) →
  room_requests p (qs ++ qs') r = Some (ys ++ ys', r2).
Proof. unfold room_requests. rewrite fmap_app, room_calls_app. by intros -> ->. Qed.

(** One more request, a move of a member. *)
Lemma move_is_fresh (p : SystemTimeProvider) id c qs w pos ys r :
  headroom (2 * Z.of_nat (S (length qs))) (new_room id) → room_requests p qs (new_room id) = Some (ys, r) →
  c ∈ members_ r → StronglySorted earlier (qs ++ [(w, Event c (CursorMove pos))]).*1 →
  ∃ y r' w' pos', room_requests p [(w, Event c (CursorMove pos))] r = Some ([y], r') ∧
    (w', Event c (CursorMove pos')) ∈ qs ++ [(w, Event c (CursorMove pos))] ∧
    cursors (board_ r') !! c = Some pos' ∧ now p w' ≤ now p w < now p w' + kCursorMinInterval.
Proof.
  intros hr E Hin Hsort. unfold room_requests in *.
  destruct (room_calls_refine (at_moment p <$> qs) (new_room id)) as (ys' & r' & E' & S' & wf & Hn);
    [apply new_room_wf|unfold headroom in *; rewrite length_fmap; lia|]. simplify_eq. rewrite length_fmap in Hn.
  destruct (room_call_refines (OpApply (now p w) c (CursorMove pos)) r wf) as (y & ri & Ey & Sy & _);
    [unfold headroom in *; lia|].
  assert (shown (at_moment p <$> qs) (abs_room r)) as Hsh.
  { replace (abs_room r) with (spec_calls (at_moment p <$> qs) (abs_room (new_room id))).2 by by rewrite S'.
    apply (shown_calls []). intros c' l. simpl. by rewrite lookup_empty. }
  destruct (move_shown _ (now p w) c pos _ Hsh Hin) as (t & pos' & Ht & Hc & Hlast). rewrite Sy in Hc.
  change [OpApply (now p w) c (CursorMove pos)] with (at_moment p <$> [(w, Event c (CursorMove pos))]) in Ht.
  rewrite <-fmap_app in Ht. apply at_moment_move in Ht as (w' & Hw & ->).
  exists y, ri, w', pos'. split_and!; [|done|done| |done].
  - change (room_calls [OpApply (now p w) c (CursorMove pos)] r = Some ([y], ri)).
    cbn [room_calls]. unfold mbind, M_bind. by rewrite Ey.
  - exact (readings_ordered qs _ w _ Hsort Hw).
Qed.

(** C24. Cursor moves are limited, and not too much.  A room reads the clock of
    the system through its provider.  While a client stays, its accepted moves are at
    least [kCursorMinInterval] apart, also from the last one before; those of a
    window of length [T] are at most the quotient of [T] by the interval, rounded
    up (25 in a second); and no client is sent more positions than there were
    accepted moves.  On the other side, as the clock is steady, after each move
    it sends, also one that is dropped, the board shows a position it sent less
    than the interval before. *)
Theorem cursor_rate (id : RoomId) c (qs0 qs : list (W * RoomRequest)) ys0 r0 ys r :
  let p := makeSystemTimeProvider in
  headroom (2 * Z.of_nat (length (qs0 ++ qs))) (new_room id) → Forall (λ wq, wq.2 ≠ Leave c) qs →
  room_requests p qs0 (new_room id) = Some (ys0, r0) → room_requests p qs r0 = Some (ys, r) →
  spaced (option_list (lastCursorUpdate_ r0 !! c) ++ accepted_times p c qs r0) ∧
  (∀ t T, 0 ≤ T → Z.of_nat (length (window t T (accepted_times p c qs r0))) ≤ (T + kCursorMinInterval - 1) / kCursorMinInterval) ∧
  (∀ d, (length (ys ≫= cursor_news c d) ≤ length (accepted_times p c qs r0))%nat) ∧
  (c ∈ members_ r0 → StronglySorted earlier (qs0 ++ qs).*1 →
   ∀ i w pos, qs !! i = Some (w, Event c (CursorMove pos)) →
   ∃ ysi ri w' pos', room_requests p (take (S i) qs) r0 = Some (ysi, ri) ∧
     (w', Event c (CursorMove pos')) ∈ qs0 ++ take (S i) qs ∧ cursors (board_ ri) !! c = Some pos' ∧
     now p w' ≤ now p w < now p w' + kCursorMinInterval).
Proof.
  intros p hr Hl E0 E. rewrite length_app in hr. unfold headroom in hr. pose proof E0 as E0'. unfold room_requests in E0', E.
  destruct (room_calls_refine (at_moment p <$> qs0) (new_room id)) as (ys0' & r0' & E1 & S0 & wf0 & Hn0);
    [apply new_room_wf|unfold headroom; rewrite length_fmap; lia|]. simplify_eq. rewrite length_fmap in Hn0.
  destruct (moves_run c (at_moment p <$> qs) r0 ys r) as (Hsp & _ & Hn);
    [done|unfold headroom; rewrite length_fmap; lia|by apply at_moment_leave|done|].
  split_and!; [done|intros t T HT; apply window_count; [by apply StronglySorted_app in Hsp as (_ & _ & ?)|done]|done|].
  intros Hin Hsort i w pos Hi.
  pose proof (take_S_r _ _ _ Hi) as Ht. pose proof (lookup_lt_Some _ _ _ Hi) as Hlt.
  destruct (room_calls_refine (at_moment p <$> take i qs) r0 wf0) as (ysa & ra & Ea & Sa & _);
    [unfold headroom; rewrite length_fmap, length_take; lia|].
  destruct (move_is_fresh p id c (qs0 ++ take i qs) w pos (ys0 ++ ysa) ra) as (y & ri & w' & pos' & Ei & Hw & Hc & Hlast).
  - unfold headroom. rewrite length_app, length_take. lia.
  - by eapply room_requests_app.
  - change (c ∈ sp_members (abs_room ra)). replace (abs_room ra) with (spec_calls (at_moment p <$> take i qs) (abs_room r0)).2 by by rewrite Sa.
    apply member_stays_calls; [|done]. by apply at_moment_leave, Forall_take.
  - rewrite <-app_assoc, <-Ht. eapply sublist_StronglySorted; [|exact Hsort].
    apply fmap_sublist, sublist_app; [done|apply sublist_take].
  - rewrite <-app_assoc, <-Ht in Hw. exists (ysa ++ [y]), ri, w', pos'. split; [rewrite Ht; by eapply room_requests_app|].
    exact (conj Hw (conj Hc Hlast)).
Qed.
End Rate.

(** ** Witness *)

#[local] Existing Instance elements_order.

(** Moments in milliseconds. *)
#[local] Instance milliseconds : SteadyClock Z.
Proof. refine {| earlier := Z.le; steady_now := λ ms, ms * 1000000 |}. intros w w' Hw. lia. Defined.

Definition arriving : list (Z * RoomRequest) := [(0, Join 1); (0, Join 2)].

(** Moves at 5, 20, 45 and 90 ms; that at 20 ms is dropped. *)
Definition moving : list (Z * RoomRequest) :=
  (λ ms, (ms, Event 1 (CursorMove (mkPoint ms 0)))) <$> [5; 20; 45; 90].

Definition arrived : Room :=
  match room_requests makeSystemTimeProvider arriving (new_room 7) with Some (_, r) => r | None => new_room 7 end.

Definition moved : list RoomReply * Room :=
  default ([], new_room 7) (room_requests makeSystemTimeProvider moving arrived).

Lemma cursor_rate_witness :
  accepted_times makeSystemTimeProvider 1 moving arrived = [5000000; 45000000; 90000000] ∧
  spaced (accepted_times makeSystemTimeProvider 1 moving arrived) ∧
  (length (moved.1 ≫= cursor_news 1 2) ≤ 3)%nat ∧
  ∃ ys r w pos, room_requests makeSystemTimeProvider (take 2 moving) arrived = Some (ys, r) ∧
    cursors (board_ r) !! 1 = Some pos ∧ (w, Event 1 (CursorMove pos)) ∈ arriving ++ take 2 moving ∧
    20000000 < now makeSystemTimeProvider w + kCursorMinInterval.
Proof.
  split; [vm_compute; reflexivity|].
  destruct (cursor_rate 7 1 arriving moving (match room_requests makeSystemTimeProvider arriving (new_room 7) with Some (ys, _) => ys | None => [] end) arrived moved.1 moved.2) as (Hs & _ & Hn & Hf);
    [vm_compute; reflexivity|by repeat constructor| |vm_compute; reflexivity|].
  2:{ split; [exact Hs|]. split; [exact (Hn 2)|].
    destruct (Hf ltac:(by_decision)) with (i := 1%nat) (w := 20) (pos := mkPoint 20 0)
      as (ys & r & w & pos & E & Hin & Hc & _ & Hlt).
    - repeat constructor; simpl; lia.
    - reflexivity.
    - exists ys, r, w, pos. split; [exact E|]. split; [exact Hc|]. split; [exact Hin|]. exact Hlt. }
  vm_compute. reflexivity.
Defined.
