(* ===== verification/ServerCore.v ===== *)
(** * RoomManager and ServerCore

    [core/src/room_manager.cpp] and [core/src/server_core.cpp]: the table of
    rooms and the entry points of the server.  A [std::shared_ptr<Room>] taken
    from the table is the key of the room it points to: rooms are never
    removed, so the pointee of the key is the room the pointer keeps alive.
    The snapshot sink is an interface ([ISnapshotSink]): [SnapshotSink] states
    what the core relies on, [SnapshotWriter.v] implements it. *)
From S2P Require Import Prelude CoreTypes Room RoomSpec RoomRefine RoomTrace RoomProps.

(** ** The snapshot sink *)

(** A sink accepts snapshots; [sink_log] is the list of those it was given. *)
Class SnapshotSink (Σ : Type) := {
  enqueue : PersistedBoardSnapshot → Σ → Σ;
  sink_log : Σ → list PersistedBoardSnapshot;
  sink_log_enqueue s σ : sink_log (enqueue s σ) = sink_log σ ++ [s];
}.

(** The sink that only records. *)
#[export] Instance recording_sink : SnapshotSink (list PersistedBoardSnapshot) := {|
  enqueue s σ := σ ++ [s];
  sink_log σ := σ;
  sink_log_enqueue s σ := eq_refl;
|}.

(** ** RoomManager *)

Record RoomManager := mkRoomManager {
  rooms_ : gmap RoomId Room;
  nextRoomId_ : RoomId;
}.

Definition new_manager : RoomManager := mkRoomManager ∅ 1.

(** [rooms_[id] = std::make_shared<Room>(id, timeProvider_)] with [id = nextRoomId_++]. *)
Definition manager_createRoom : M RoomManager RoomId :=
  m ← get;
  let id := nextRoomId_ m in
  modify (λ m, mkRoomManager (<[id := new_room id]> (rooms_ m)) (u64 (nextRoomId_ m + 1))) ;;
  mret id.

Definition getRoom (room : RoomId) : M RoomManager (option RoomId) :=
  m ← get;
  match rooms_ m !! room with
  | None => mret None
  | Some _ => mret (Some room)
  end.

(** [ptr->method(...)]: the call runs on the room [ptr] points to. *)
Definition on_room {A} (ptr : RoomId) (m : M Room A) : M RoomManager A := λ s,
  match rooms_ s !! ptr with
  | Some r =>
      match m r with
      | Some (x, r') => Some (x, mkRoomManager (<[ptr := r']> (rooms_ s)) (nextRoomId_ s))
      | None => None
      end
  | None => None
  end.

(** A [const] method: it reads the room. *)
Definition observe {A} (f : Room → A) : M Room A := r ← get; mret (f r).

(** ** ServerCore *)

Section ServerCore.
Context `{HashOrder} {Σ : Type} `{SnapshotSink Σ}.

Record ServerCore := mkServerCore {
  core_rooms : RoomManager;
  snapshotSink_ : option Σ;
}.

Definition new_core (sink : option Σ) : ServerCore := mkServerCore new_manager sink.

Definition on_rooms {A} (m : M RoomManager A) : M ServerCore A := λ s,
  match m (core_rooms s) with
  | Some (x, rs) => Some (x, mkServerCore rs (snapshotSink_ s))
  | None => None
  end.

Definition enqueue_snapshot (snap : PersistedBoardSnapshot) : M ServerCore unit :=
  modify (λ s, mkServerCore (core_rooms s) (enqueue snap <$> snapshotSink_ s)).

Definition has_sink (s : ServerCore) : bool :=
  match snapshotSink_ s with Some _ => true | None => false end.

Definition createRoom : M ServerCore RoomId := on_rooms manager_createRoom.

Definition joinRoom (client : ClientId) (room : RoomId) : M ServerCore (Expected RoomSnapshot Error) :=
  r ← on_rooms (getRoom room);
  match r with
  | None => mret (Unexpected roomNotFound)
  | Some ptr => on_rooms (on_room ptr (join client))
  end.

Definition leaveRoom (client : ClientId) (room : RoomId) :
    M ServerCore (Expected (list OutgoingEvent) Error) :=
  r ← on_rooms (getRoom room);
  match r with
  | None => mret (Unexpected roomNotFound)
  | Some ptr =>
      res ← on_rooms (on_room ptr (leave client));
      match res with
      | Unexpected _ => mret res
      | Value _ =>
          s ← get;
          (if has_sink s then
             n ← on_rooms (on_room ptr (observe memberCount));
             if bool_decide (n = 0%nat) then
               snap ← on_rooms (on_room ptr (observe makePersistedSnapshot));
               enqueue_snapshot snap
             else mret tt
           else mret tt) ;;
          mret res
      end
  end.

(** Events after which the board is saved. *)
Definition shouldSave (ev : EventPayload) : bool :=
  match ev with StrokeEnd | Clear => true | _ => false end.

Definition handleEvent (now : TimePoint) (client : ClientId) (room : RoomId) (ev : EventPayload) :
    M ServerCore (Expected (list OutgoingEvent) Error) :=
  r ← on_rooms (getRoom room);
  match r with
  | None => mret (Unexpected roomNotFound)
  | Some ptr =>
      res ← on_rooms (on_room ptr (apply now client ev));
      match res with
      | Unexpected _ => mret res
      | Value _ =>
          s ← get;
          (if has_sink s then
             if shouldSave ev then
               snap ← on_rooms (on_room ptr (observe makePersistedSnapshot));
               enqueue_snapshot snap
             else mret tt
           else mret tt) ;;
          mret res
      end
  end.

(** ** Calls on the core *)

Inductive CoreOp :=
  | CoreCreate
  | CoreRoom (room : RoomId) (op : RoomOp).

Inductive CoreReply :=
  | ReplyCreated (room : RoomId)
  | ReplyRoom (y : RoomReply).

Definition core_call (op : CoreOp) : M ServerCore CoreReply :=
  match op with
  | CoreCreate => id ← createRoom; mret (ReplyCreated id)
  | CoreRoom room (OpJoin c) => s ← joinRoom c room; mret (ReplyRoom (ReplySnapshot s))
  | CoreRoom room (OpLeave c) => e ← leaveRoom c room; mret (ReplyRoom (ReplyEvents e))
  | CoreRoom room (OpApply now c ev) =>
      e ← handleEvent now c room ev; mret (ReplyRoom (ReplyEvents e))
  end.

Fixpoint core_calls (ops : list CoreOp) : M ServerCore (list CoreReply) :=
  match ops with
  | [] => mret []
  | op :: ops => y ← core_call op; ys ← core_calls ops; mret (y :: ys)
  end.

Lemma core_calls_app ops ops' (co : ServerCore) :
  core_calls (ops ++ ops') co =
    (ys ← core_calls ops; ys' ← core_calls ops'; mret (ys ++ ys')) co.
Proof.
  revert co. induction ops as [|op ops IH]; intros co; simpl; unfold mbind, M_bind, mret, M_ret in *.
  - destruct (core_calls ops' co) as [[]|]; done.
  - destruct (core_call op co) as [[y co1]|]; [|done]. rewrite IH.
    destruct (core_calls ops co1) as [[ys co2]|]; [|done]. by destruct (core_calls ops' co2) as [[]|].
Qed.

Lemma core_calls_one op (co : ServerCore) y co' :
  core_call op co = Some (y, co') → core_calls [op] co = Some ([y], co').
Proof. intros E. unfold core_calls, mbind, M_bind. by rewrite E. Qed.

(** ** What the core promises, one equation per call *)

Definition core_room (s : ServerCore) (room : RoomId) : option Room := rooms_ (core_rooms s) !! room.

Definition set_room (room : RoomId) (r : Room) (s : ServerCore) : ServerCore :=
  mkServerCore (mkRoomManager (<[room := r]> (rooms_ (core_rooms s))) (nextRoomId_ (core_rooms s)))
    (snapshotSink_ s).

Definition reply_error (e : Error) (op : RoomOp) : RoomReply :=
  match op with
  | OpJoin _ => ReplySnapshot (Unexpected e)
  | _ => ReplyEvents (Unexpected e)
  end.

(** Whether the call [op], answered [y] and leaving the room as [r], saves the board. *)
Definition saves (op : RoomOp) (y : RoomReply) (r : Room) : bool :=
  match y, op with
  | ReplyEvents (Value _), OpLeave _ => bool_decide (memberCount r = 0%nat)
  | ReplyEvents (Value _), OpApply _ _ ev => shouldSave ev
  | _, _ => false
  end.

Definition save_if (b : bool) (r : Room) (s : ServerCore) : ServerCore :=
  if b then mkServerCore (core_rooms s) (enqueue (makePersistedSnapshot r) <$> snapshotSink_ s) else s.

Lemma save_if_none b r s : snapshotSink_ s = None → save_if b r s = s.
Proof. destruct s as [rs sk]. unfold save_if. simpl. intros ->. by destruct b. Qed.

Lemma core_call_missing s room op :
  core_room s room = None → core_call (CoreRoom room op) s = Some (ReplyRoom (reply_error roomNotFound op), s).
Proof.
  destruct s as [[rs n] sk]. unfold core_room. simpl. intros Hr.
  destruct op; simpl; unfold joinRoom, leaveRoom, handleEvent, on_rooms, getRoom; run_m; by rewrite Hr.
Qed.

Lemma core_call_present s room op r y r' :
  core_room s room = Some r → room_call op r = Some (y, r') →
  core_call (CoreRoom room op) s = Some (ReplyRoom y, save_if (saves op y r') r' (set_room room r' s)).
Proof.
  destruct s as [[rs n] sk]. unfold core_room, set_room. simpl. intros Hr E.
  assert (<[room:=r']> (<[room:=r']> rs) = <[room:=r']> rs) as Hins by by rewrite insert_insert_eq.
  destruct op as [c|c|now c ev]; simpl in *;
    unfold joinRoom, leaveRoom, handleEvent, on_rooms, getRoom, on_room, observe, has_sink,
      enqueue_snapshot, save_if in *; run_m; rewrite Hr; simpl; rewrite Hr.
  - by simplify_eq.
  - destruct (leave c r) as [[[evs|e] r1]|]; [| |done]; simplify_eq; simpl.
    + destruct sk as [σ|]; simpl; [|by case_match].
      rewrite lookup_insert_eq; simpl. case_bool_decide; [|by rewrite Hins].
      simpl. rewrite Hins, lookup_insert_eq. simpl. by rewrite Hins.
    + done.
  - destruct (apply now c ev r) as [[[evs|e] r1]|]; [| |done]; simplify_eq; simpl.
    + destruct sk as [σ|]; simpl; [|by case_match].
      destruct (shouldSave ev); [|done]. simpl. rewrite lookup_insert_eq. simpl. by rewrite Hins.
    + done.
Qed.
End ServerCore.
