(* ===== verification/CoreProps.v ===== *)
(** * Properties of the server core

    Runs of [ServerCore] calls in any order: they are safe, hand out fresh room
    identifiers, keep the rooms apart, and save the board exactly when they
    should. *)
From S2P Require Import Prelude CoreTypes Room RoomSpec RoomRefine RoomTrace RoomProps ServerCore.

(** The calls of [ops] that reach [room], which exists once [next] has passed it. *)
Fixpoint live_ops (room next : RoomId) (ops : list CoreOp) : list RoomOp :=
  match ops with
  | [] => []
  | CoreCreate :: ops => live_ops room (next + 1) ops
  | CoreRoom room' op :: ops =>
      if bool_decide (room' = room ∧ 1 ≤ room < next)
      then op :: live_ops room next ops else live_ops room next ops
  end.

Definition created (ys : list CoreReply) : list RoomId :=
  omap (λ y, match y with ReplyCreated id => Some id | ReplyRoom _ => None end) ys.

Definition creates (ops : list CoreOp) : nat :=
  length (filter (λ op, match op with CoreCreate => true | CoreRoom _ _ => false end = true) ops).

Section CoreProps.
Context `{HashOrder} {Σ : Type} `{SnapshotSink Σ}.
Implicit Types s : @ServerCore Σ.

Record core_wf s : Prop := {
  cw_next : 1 ≤ nextRoomId_ (core_rooms s);
  cw_rooms room : is_Some (core_room s room) ↔ 1 ≤ room < nextRoomId_ (core_rooms s);
  cw_room room r : core_room s room = Some r → id_ r = room ∧ room_wf r;
}.

(** [k] more calls fit in every counter. *)
Definition core_headroom (k : Z) s : Prop :=
  nextRoomId_ (core_rooms s) + 2 * k < 2 ^ 64 ∧
  ∀ room r, core_room s room = Some r → headroom (2 * k) r.

Lemma new_core_wf sink : core_wf (new_core sink).
Proof.
  split; unfold core_room, new_core; simpl; [lia|intros room|intros room r];
    rewrite lookup_empty; [|done]. split; [by intros []|lia].
Qed.

Lemma core_room_set room room' r s :
  core_room (set_room room r s) room' = if bool_decide (room = room') then Some r else core_room s room'.
Proof. unfold core_room, set_room. simpl. rewrite lookup_insert. by case_decide; case_bool_decide. Qed.

Lemma core_room_save room b r s : core_room (save_if b r s) room = core_room s room.
Proof. by destruct b. Qed.

Lemma save_if_next b r s : nextRoomId_ (core_rooms (save_if b r s)) = nextRoomId_ (core_rooms s).
Proof. by destruct b. Qed.

Lemma createRoom_step s :
  core_wf s → nextRoomId_ (core_rooms s) + 1 < 2 ^ 64 →
  let n := nextRoomId_ (core_rooms s) in
  core_call CoreCreate s = Some (ReplyCreated n,
    mkServerCore (mkRoomManager (<[n := new_room n]> (rooms_ (core_rooms s))) (n + 1)) (snapshotSink_ s)).
Proof.
  intros wf hr. pose proof (cw_next s wf). destruct s as [[rs n] sk]. simpl in *.
  unfold createRoom, on_rooms, manager_createRoom. run_m. by rewrite u64_succ by lia.
Qed.

Lemma room_call_id op r y r' :
  room_wf r → headroom 2 r → room_call op r = Some (y, r') → id_ r' = id_ r.
Proof.
  intros wf hr E. destruct (room_call_refines op r wf hr) as (y' & r1 & E' & S & _ & _).
  simplify_eq. change (sp_id (abs_room r') = sp_id (abs_room r)).
  replace (abs_room r') with (spec_call op (abs_room r)).2 by by rewrite S.
  destruct op as [c|c|now c ev]; simpl; [done| |].
  - unfold spec_leave. simpl. case_bool_decide; [done|]. by destruct (drawing_id c (board_ r)).
  - unfold spec_apply, spec_begin, spec_point, spec_end, spec_move, spec_clear.
    repeat case_match; done.
Qed.

(** The call succeeds and keeps the core well-formed; rooms are numbered in
    order, and each goes through the calls made on it. *)
Definition core_stepped (op : CoreOp) (k : Z) s : Prop :=
  ∃ y s', core_call op s = Some (y, s') ∧ core_wf s' ∧ core_headroom (k - 1) s' ∧
    nextRoomId_ (core_rooms s') =
      nextRoomId_ (core_rooms s) + match op with CoreCreate => 1 | _ => 0 end ∧
    created [y] = match op with CoreCreate => [nextRoomId_ (core_rooms s)] | _ => [] end ∧
    ∀ room r', core_room s' room = Some r' →
      ∃ ys, room_calls (live_ops room (nextRoomId_ (core_rooms s)) [op])
        (default (new_room room) (core_room s room)) = Some (ys, r').

Lemma create_stepped k s : core_wf s → core_headroom k s → 1 ≤ k → core_stepped CoreCreate k s.
Proof.
  intros wf [hn hr] Hk.
  pose proof (createRoom_step s wf) as E. set (n := nextRoomId_ (core_rooms s)) in *.
  eexists _, _. split_and!; [apply E; lia| | |done|done|].
  - destruct wf as [W1 W2 W3]. split; simpl; [lia|intros room|intros room r]; unfold core_room; simpl;
      rewrite lookup_insert; case_decide as Hd.
    + split; [lia|eauto].
    + fold (core_room s room). rewrite W2. fold n. lia.
    + intros [= <-]. simpl. split; [done|apply new_room_wf].
    + apply W3.
  - split; simpl; [lia|]. intros room r. unfold core_room. simpl. rewrite lookup_insert.
    case_decide as Hd; [intros [= <-]; unfold headroom; simpl|intros Hr; specialize (hr _ _ Hr); unfold headroom in *; lia].
    pose proof (cw_next s wf). unfold headroom. fold n in hn. lia.
  - intros room r'. simpl. unfold core_room at 1. simpl. rewrite lookup_insert.
    case_decide as Hd; [intros [= <-]|intros Hr; unfold core_room in *; rewrite Hr; eexists; done].
    subst room. destruct (core_room s n) eqn:E'; [|eexists; done].
    assert (is_Some (core_room s n)) as HS by eauto. apply (cw_rooms s wf) in HS. fold n in HS. lia.
Qed.

Lemma room_call_stepped room op k s :
  core_wf s → core_headroom k s → 1 ≤ k → core_stepped (CoreRoom room op) k s.
Proof.
  intros wf [hn hr] Hk.
  destruct (core_room s room) as [r|] eqn:Er.
  - destruct (cw_room s wf room r Er) as [Hid wr].
    assert (headroom 2 r) as h2 by (specialize (hr _ _ Er); unfold headroom in *; lia).
    destruct (room_call_refines op r wr h2) as (y & r' & E & S & wr' & Hle).
    pose proof (room_call_id op r y r' wr h2 E) as Hid'.
    exists (ReplyRoom y), (save_if (saves op y r') r' (set_room room r' s)).
    split_and!; [by apply (core_call_present s room op r)| | |by rewrite save_if_next; simpl; lia|done|].
    + destruct wf as [W1 W2 W3]. split; rewrite ?save_if_next; simpl; [done| |];
        intros room'; rewrite core_room_save, core_room_set; case_bool_decide; subst.
      * rewrite <-W2. split; eauto.
      * apply W2.
      * intros r1 [= <-]. split; [congruence|done].
      * apply W3.
    + split; rewrite ?save_if_next; simpl; [lia|]. intros room' r1.
      rewrite core_room_save, core_room_set. case_bool_decide; [intros [= <-]|intros Hr1].
      * specialize (hr _ _ Er). unfold headroom in *. lia.
      * specialize (hr _ _ Hr1). unfold headroom in *. lia.
    + intros room' r1. rewrite core_room_save, core_room_set. simpl.
      assert (1 ≤ room < nextRoomId_ (core_rooms s)) as Hin by (apply (cw_rooms s wf); eauto).
      case_bool_decide; [intros [= <-]; subst room'|intros Hr1].
      * rewrite bool_decide_eq_true_2 by done. rewrite Er. simpl. unfold mbind, M_bind. rewrite E.
        eexists; done.
      * rewrite bool_decide_eq_false_2 by naive_solver. rewrite Hr1. eexists; done.
  - exists (ReplyRoom (reply_error roomNotFound op)), s.
    split_and!; [by apply core_call_missing|done| |lia|done|].
    + split; [lia|]. intros room' r1 Hr1. specialize (hr _ _ Hr1). unfold headroom in *. lia.
    + intros room' r1 Hr1. simpl. rewrite Hr1. simpl.
      rewrite bool_decide_eq_false_2; [eexists; done|]. intros [-> _]. congruence.
Qed.

(** What one call does, for a well-formed core. *)
Lemma core_call_step op k s : core_wf s → core_headroom k s → 1 ≤ k → core_stepped op k s.
Proof. destruct op as [|room op]; [apply create_stepped|apply room_call_stepped]. Qed.

(** ** Runs *)

Lemma live_ops_cons room n op ops :
  live_ops room n (op :: ops) =
    live_ops room n [op] ++
    live_ops room (n + match op with CoreCreate => 1 | _ => 0 end) ops.
Proof. destruct op as [|room' op]; simpl; [done|]. rewrite Z.add_0_r. by case_bool_decide. Qed.

Lemma creates_cons op ops :
  Z.of_nat (creates (op :: ops)) =
    match op with CoreCreate => 1 | _ => 0 end + Z.of_nat (creates ops).
Proof. unfold creates. rewrite filter_cons. destruct op; case_decide; simpl; try done; lia. Qed.

Lemma created_cons y ys : created (y :: ys) = created [y] ++ created ys.
Proof. by destruct y. Qed.

(** A room that does not exist yet has received no call. *)
Lemma live_ops_fresh op room s :
  core_wf s → core_room s room = None → live_ops room (nextRoomId_ (core_rooms s)) [op] = [].
Proof.
  intros wf Hr. destruct op as [|room' op]; [done|]. simpl.
  rewrite bool_decide_eq_false_2; [done|]. intros [-> Hin].
  apply (cw_rooms s wf) in Hin. rewrite Hr in Hin. by destruct Hin.
Qed.

Lemma core_calls_run ops k s :
  core_wf s → core_headroom k s → Z.of_nat (length ops) ≤ k →
  ∃ ys s', core_calls ops s = Some (ys, s') ∧ core_wf s' ∧
    core_headroom (k - Z.of_nat (length ops)) s' ∧
    nextRoomId_ (core_rooms s') = nextRoomId_ (core_rooms s) + Z.of_nat (creates ops) ∧
    created ys = seqZ (nextRoomId_ (core_rooms s)) (Z.of_nat (creates ops)) ∧
    ∀ room r', core_room s' room = Some r' →
      ∃ ysr, room_calls (live_ops room (nextRoomId_ (core_rooms s)) ops)
        (default (new_room room) (core_room s room)) = Some (ysr, r').
Proof.
  revert k s. induction ops as [|op ops IH]; intros k s wf hr Hk.
  { exists [], s. split_and!; [done|done|by rewrite Z.sub_0_r|simpl; unfold creates; simpl; lia|done|].
    intros room r' Hr. simpl. rewrite Hr. by eexists. }
  simpl length in Hk. rewrite Nat2Z.inj_succ in Hk.
  destruct (core_call_step op k s wf hr) as (y & s1 & E1 & wf1 & hr1 & N1 & C1 & P1); [lia|].
  destruct (IH (k - 1) s1 wf1 hr1) as (ys & s2 & E2 & wf2 & hr2 & N2 & C2 & P2); [lia|].
  exists (y :: ys), s2. split_and!; [|done| |rewrite creates_cons; lia| |].
  - simpl. unfold mbind, M_bind. by rewrite E1, E2.
  - simpl length. rewrite Nat2Z.inj_succ. by replace (k - Z.succ (Z.of_nat (length ops)))
      with (k - 1 - Z.of_nat (length ops)) by lia.
  - rewrite creates_cons, created_cons, C1, C2, N1.
    rewrite seqZ_app by (destruct op; lia). f_equal. by destruct op.
  - intros room r' Hr'. destruct (P2 room r' Hr') as (ys2 & R2).
    rewrite live_ops_cons, room_calls_app. rewrite N1 in R2.
    destruct (core_room s1 room) as [r1|] eqn:Er1; simpl in R2.
    + destruct (P1 room r1 Er1) as (ys1 & R1). rewrite R1, R2. by eexists.
    + assert (core_room s room = None) as Er0.
      { destruct (core_room s room) eqn:Er0; [|done].
        assert (is_Some (core_room s room)) as Hin by eauto. apply (cw_rooms s wf) in Hin.
        assert (is_Some (core_room s1 room)) as Hin1
          by (apply (cw_rooms s1 wf1); destruct op; lia).
        rewrite Er1 in Hin1. by destruct Hin1. }
      rewrite Er0, live_ops_fresh by done. simpl. rewrite R2. by eexists.
Qed.

Lemma new_core_headroom sink k : 1 + 2 * k < 2 ^ 64 → core_headroom k (new_core sink).
Proof. split; simpl; [lia|]. intros room r. unfold core_room. simpl. by rewrite lookup_empty. Qed.

(** ** Saved snapshots *)

Definition log_of (room : RoomId) (log : list PersistedBoardSnapshot) : list PersistedBoardSnapshot :=
  filter (λ p, pers_room p = room) log.

Definition core_log s : list PersistedBoardSnapshot :=
  match snapshotSink_ s with Some σ => sink_log σ | None => [] end.

(** What the log owes to the rooms: per room, increasing and up to date. *)
Definition log_ok s : Prop :=
  (∀ p, p ∈ core_log s → is_Some (core_room s (pers_room p))) ∧
  ∀ room r, core_room s room = Some r →
    StronglySorted Z.lt (pers_lastSeq <$> log_of room (core_log s)) ∧
    Forall (λ n, n ≤ lastSeq r) (pers_lastSeq <$> log_of room (core_log s)).

(** A call that saves has used a sequence number. *)
Lemma saves_advances op r y r' :
  room_wf r → headroom 2 r → room_call op r = Some (y, r') → saves op y r' = true →
  nextSeq_ r < nextSeq_ r'.
Proof.
  intros wf hr E Hs. destruct (room_call_refines op r wf hr) as (y' & r1 & E' & S & _ & _).
  simplify_eq. assert (sp_seq (abs_room r) < sp_seq (abs_room r')) as Hlt; [|simpl in Hlt; lia].
  replace y with (spec_call op (abs_room r)).1 in Hs by by rewrite S.
  replace (abs_room r') with (spec_call op (abs_room r)).2 by by rewrite S. clear E S.
  destruct op as [c|c|now c ev]; simpl in *; [done| |].
  - unfold spec_leave in *. simpl in *. case_bool_decide; [done|].
    destruct (drawing_id c (board_ r)); simpl; lia.
  - unfold spec_apply in *. simpl in *. case_bool_decide; [|done].
    destruct ev; simpl in Hs; unfold spec_begin, spec_point, spec_end, spec_move, spec_clear in *;
      simpl in *; repeat case_match; simpl in *; try done; lia.
Qed.

Lemma core_log_save b r s :
  core_log (save_if b r s) = core_log s ++
    (if b && has_sink s then [makePersistedSnapshot r] else []).
Proof.
  destruct s as [rs [σ|]], b; unfold core_log; simpl; rewrite ?app_nil_r; [|done..].
  apply sink_log_enqueue.
Qed.

Lemma log_of_other room p log : pers_room p ≠ room → log_of room (log ++ [p]) = log_of room log.
Proof.
  intros. unfold log_of. rewrite filter_app, (filter_none _ [p]); [by rewrite app_nil_r|].
  by intros q Hq%list_elem_of_singleton; subst q.
Qed.

Lemma log_of_snoc room p log : pers_room p = room → log_of room (log ++ [p]) = log_of room log ++ [p].
Proof. intros. unfold log_of. rewrite filter_app. f_equal. rewrite filter_cons. by rewrite decide_True. Qed.

Lemma log_ok_save s room r :
  log_ok s → core_room s room = Some r → room_wf r → id_ r = room → (∀ n, n ∈ pers_lastSeq <$> log_of room (core_log s) → n < lastSeq r) →
  log_ok (save_if true r s).
Proof.
  intros [Hp Hl] Hr wr Hid Hlt. unfold log_ok. rewrite core_log_save, andb_true_l.
  destruct (has_sink s); [|by rewrite app_nil_r]. split.
  - intros p [Hin|Hin%list_elem_of_singleton]%elem_of_app; rewrite core_room_save; [by apply Hp|].
    subst p. simpl. rewrite Hid. eauto.
  - intros room' r' Hr'. rewrite core_room_save in Hr'. destruct (Hl room' r' Hr') as [Hs Hle].
    destruct (decide (room' = room)) as [->|Hne].
    + simplify_eq. rewrite log_of_snoc by done. rewrite fmap_app. simpl. split.
      * apply StronglySorted_snoc; [done|]. by apply Forall_forall.
      * apply Forall_app. split; [done|]. by repeat constructor.
    + by rewrite log_of_other by (simpl; congruence).
Qed.

Lemma log_ok_step op k s y s' :
  core_wf s → core_headroom k s → 1 ≤ k → core_call op s = Some (y, s') → log_ok s → log_ok s'.
Proof.
  intros wf hr Hk E Hlog. pose proof Hlog as [Hp Hl]. destruct op as [|room op].
  - rewrite createRoom_step in E by (done || destruct hr; lia). simplify_eq.
    unfold log_ok. unfold core_log, core_room in *. simpl in *. split.
    + intros p Hin. rewrite lookup_insert. case_decide; [eauto|by apply Hp].
    + intros room r. rewrite lookup_insert. case_decide as Hd; [|by apply Hl].
      intros [= <-]. subst room. unfold log_of. rewrite filter_none; [by split; constructor|].
      intros p Hin Hroom. specialize (Hp p Hin). rewrite Hroom in Hp.
      apply (cw_rooms s wf) in Hp. lia.
  - destruct (core_room s room) as [r|] eqn:Er.
    2:{ rewrite core_call_missing in E by done. by simplify_eq. }
    destruct (cw_room s wf room r Er) as [Hid wr].
    assert (headroom 2 r) as h2 by (destruct hr as [_ hr]; specialize (hr _ _ Er); unfold headroom in *; lia).
    destruct (room_call_refines op r wr h2) as (y' & r' & E' & S & wr' & Hle).
    rewrite (core_call_present s room op r y' r') in E by done. simplify_eq.
    destruct (Hl _ r Er) as [Hs Hf].
    assert (log_ok (set_room (id_ r) r' s)) as Hlog'.
    { split; simpl.
      - intros p Hin. rewrite core_room_set. case_bool_decide; [eauto|by apply Hp].
      - intros room r1. rewrite core_room_set. case_bool_decide as Hd; [|by apply Hl].
        intros [= <-]. subst room. split; [done|]. eapply Forall_impl; [exact Hf|].
        simpl. intros n. rewrite !lastSeq_wf by done. lia. }
    destruct (saves op y' r') eqn:Hsave; [|done].
    apply (log_ok_save _ (id_ r)); [done| |done|by eapply room_call_id|].
    + rewrite core_room_set. by rewrite bool_decide_eq_true_2.
    + intros n Hn. pose proof (saves_advances op r y' r' wr h2 E' Hsave).
      rewrite Forall_forall in Hf. specialize (Hf n Hn). rewrite lastSeq_wf in * by done. lia.
Qed.

(** What every call keeps, and says in its reply, a run does. *)
Lemma core_calls_inv (I : ServerCore → Prop) (T : CoreOp → Prop) (R : CoreReply → Prop) ops k s ys s' :
  (∀ op k s y s', core_wf s → core_headroom k s → 1 ≤ k → T op → core_call op s = Some (y, s') →
     I s → I s' ∧ R y) →
  core_wf s → core_headroom k s → Z.of_nat (length ops) ≤ k → Forall T ops →
  core_calls ops s = Some (ys, s') → I s →
  I s' ∧ Forall R ys ∧ core_wf s' ∧ core_headroom (k - Z.of_nat (length ops)) s'.
Proof.
  intros Hstep. revert k s ys. induction ops as [|op ops IH]; intros k s ys wf hr Hk HT E HI.
  { unfold core_calls, mret, M_ret in E. simplify_eq. by rewrite Z.sub_0_r. }
  simpl length in *. rewrite Nat2Z.inj_succ in *. apply Forall_cons in HT as [Hop HT].
  destruct (core_call_step op k s wf hr) as (y & s1 & E1 & wf1 & hr1 & _); [lia|].
  simpl in E. unfold mbind, M_bind in E. rewrite E1 in E.
  destruct (core_calls ops s1) as [[ys1 s2]|] eqn:E2; [|done].
  unfold mret, M_ret in E. simplify_eq.
  destruct (Hstep op k s y s1 wf hr ltac:(lia) Hop E1 HI) as [HI1 Hy].
  destruct (IH (k - 1) s1 ys1 wf1 hr1 ltac:(lia) HT E2 HI1) as (HI2 & Hys & wf2 & hr2).
  split_and!; [done|by constructor|done|].
  by replace (k - Z.succ (Z.of_nat (length ops))) with (k - 1 - Z.of_nat (length ops)) by lia.
Qed.

Lemma core_calls_log ops k s ys s' :
  core_wf s → core_headroom k s → Z.of_nat (length ops) ≤ k →
  core_calls ops s = Some (ys, s') → log_ok s → log_ok s'.
Proof.
  intros wf hr Hk E Hlog.
  eapply (core_calls_inv log_ok (λ _, True) (λ _, True) ops k s ys s'); try done; [|by apply Forall_true].
  intros op k1 s1 y s2 wf1 hr1 Hk1 _ E1 Hl1. split; [|done]. by eapply log_ok_step.
Qed.
End CoreProps.

(** ** The theorems *)

Section Properties.
Context `{HashOrder} {Σ : Type} `{SnapshotSink Σ}.
Implicit Types s : @ServerCore Σ.

(** A run of calls on a fresh core always returns.  It answers the
    creations with the room numbers 1, 2, 3, ... in order, and each room ends
    in the state it would have reached alone, fed with the calls made on it
    since it was created. *)
Theorem core_run_rooms (sink : option Σ) (ops : list CoreOp) :
  1 + 2 * Z.of_nat (length ops) < 2 ^ 64 →
  ∃ ys s, core_calls ops (new_core sink) = Some (ys, s) ∧
    created ys = seqZ 1 (Z.of_nat (creates ops)) ∧
    ∀ room r, core_room s room = Some r →
      ∃ ysr, room_calls (live_ops room 1 ops) (new_room room) = Some (ysr, r).
Proof.
  intros Hlen. destruct (core_calls_run ops (Z.of_nat (length ops)) (new_core sink))
    as (ys & s & E & _ & _ & _ & C & P); [apply new_core_wf|by apply new_core_headroom|lia|].
  exists ys, s. split_and!; [done|done|]. intros room r Hr.
  destruct (P room r Hr) as (ysr & R). unfold core_room, new_core in R. simpl in R.
  rewrite lookup_empty in R. simpl in R. eauto.
Qed.

(** A call on one room, or the creation of a room, leaves every other
    room as it was; a call on an unknown room answers [RoomNotFound] and
    changes nothing at all. *)
Theorem core_call_isolated s k op y s' :
  core_wf s → core_headroom k s → 1 ≤ k → core_call op s = Some (y, s') →
  match op with
  | CoreCreate => ∀ room, is_Some (core_room s room) → core_room s' room = core_room s room
  | CoreRoom room rop =>
      (∀ room', room' ≠ room → core_room s' room' = core_room s room') ∧
      (core_room s room = None → y = ReplyRoom (reply_error roomNotFound rop) ∧ s' = s)
  end.
Proof.
  intros wf hr Hk E. destruct op as [|room op].
  - rewrite createRoom_step in E by (done || destruct hr; lia). simplify_eq.
    intros room Hroom%(cw_rooms s wf). unfold core_room. simpl. rewrite lookup_insert_ne by lia. done.
  - destruct (core_room s room) as [r|] eqn:Er.
    + destruct (cw_room s wf room r Er) as [_ wr].
      assert (headroom 2 r) as h2 by (destruct hr as [_ hr]; specialize (hr _ _ Er); unfold headroom in *; lia).
      destruct (room_call_refines op r wr h2) as (y' & r' & E' & _).
      rewrite (core_call_present s room op r y' r') in E by done. simplify_eq.
      split; [|done]. intros room' Hne. rewrite core_room_save, core_room_set.
      by rewrite bool_decide_eq_false_2 by congruence.
    + rewrite core_call_missing in E by done. by simplify_eq.
Qed.

(** A call hands the sink a snapshot exactly when it ended a stroke,
    cleared the board or emptied the room, and the snapshot holds the room's
    strokes and last number after the call; no other call touches the sink. *)
Theorem core_call_snapshots s k room op r y s' :
  core_wf s → core_headroom k s → 1 ≤ k → core_room s room = Some r →
  core_call (CoreRoom room op) s = Some (ReplyRoom y, s') →
  ∃ r', room_call op r = Some (y, r') ∧ core_room s' room = Some r' ∧
    core_log s' = core_log s ++
      (if saves op y r' && has_sink s
       then [mkPersistedBoardSnapshot room (lastSeq r') (strokes (board_ r'))] else []).
Proof.
  intros wf [_ hr] Hk Er E. destruct (cw_room s wf room r Er) as [Hid wr].
  assert (headroom 2 r) as h2 by (specialize (hr _ _ Er); unfold headroom in *; lia).
  destruct (room_call_refines op r wr h2) as (y' & r' & E' & _).
  rewrite (core_call_present s room op r y' r') in E by done.
  injection E as <- <-. exists r'. split_and!; [done| |].
  - rewrite core_room_save, core_room_set. by rewrite bool_decide_eq_true_2.
  - rewrite core_log_save. unfold makePersistedSnapshot. by rewrite (room_call_id op r y' r'), Hid.
Qed.

(** When calls run one after the other, the snapshots the sink was given
    for a room have strictly increasing sequence numbers, so the last one is
    the newest board. *)
Theorem core_run_snapshots_increasing (σ : Σ) (ops : list CoreOp) ys s room r :
  1 + 2 * Z.of_nat (length ops) < 2 ^ 64 → sink_log σ = [] →
  core_calls ops (new_core (Some σ)) = Some (ys, s) → core_room s room = Some r →
  StronglySorted Z.lt (pers_lastSeq <$> log_of room (core_log s)) ∧
  Forall (λ n, n ≤ lastSeq r) (pers_lastSeq <$> log_of room (core_log s)).
Proof.
  intros Hlen Hσ E Hr. destruct (core_calls_log ops (Z.of_nat (length ops)) (new_core (Some σ)) ys s)
    as [_ Hl]; [apply new_core_wf|by apply new_core_headroom|lia|done| |by apply Hl].
  unfold log_ok, core_log. simpl. rewrite Hσ. split; [by intros p Hin%elem_of_nil|].
  intros room' r'. unfold core_room. simpl. by rewrite lookup_empty.
Qed.
End Properties.

(** ** Witnesses *)

Definition demo_core_ops : list CoreOp :=
  [CoreCreate; CoreRoom 1 (OpJoin 1); CoreCreate; CoreRoom 2 (OpJoin 5);
   CoreRoom 1 (OpApply 0 1 (StrokeBegin Green Medium (mkPoint 3 4)));
   CoreRoom 1 (OpApply 0 1 StrokeEnd); CoreRoom 1 (OpLeave 1); CoreRoom 8 (OpJoin 1)].

Abbreviation demo_core := (@new_core (list PersistedBoardSnapshot) (Some [])) (only parsing).

Lemma core_run_rooms_witness :
  ∃ ys s, @core_calls elements_order _ _ demo_core_ops demo_core = Some (ys, s) ∧ created ys = [1; 2].
Proof.
  destruct (@core_run_rooms elements_order _ _ (Some []) demo_core_ops) as (ys & s & E & C & _); [done|].
  exists ys, s. split; [exact E|exact C].
Defined.

Lemma core_call_isolated_witness :
  ∃ y s', @core_call elements_order _ _ (CoreRoom 3 (OpJoin 1)) demo_core = Some (y, s') ∧
    y = ReplyRoom (ReplySnapshot (Unexpected roomNotFound)) ∧ s' = demo_core.
Proof.
  destruct (@core_call elements_order _ _ (CoreRoom 3 (OpJoin 1)) demo_core) as [[y s']|] eqn:E;
    [|vm_compute in E; discriminate].
  exists y, s'. split; [done|].
  apply (@core_call_isolated elements_order _ _ demo_core 1 (CoreRoom 3 (OpJoin 1)) y s');
    [apply new_core_wf|by apply new_core_headroom|done|done|done].
Defined.

(** Room 1 with client 1 drawing, in a core with a recording sink. *)
Definition demo_drawing_core : @ServerCore (list PersistedBoardSnapshot) :=
  match @core_calls elements_order _ _ (take 5 demo_core_ops) demo_core with
  | Some (_, s) => s
  | None => demo_core
  end.

Lemma demo_drawing_core_ok : core_wf demo_drawing_core ∧ core_headroom 1 demo_drawing_core.
Proof.
  destruct (@core_calls_run elements_order _ _ (take 5 demo_core_ops) 6 demo_core)
    as (ys & s & E & wf & hr & _); [apply new_core_wf|by apply new_core_headroom|done|].
  unfold demo_drawing_core. rewrite E. split; [exact wf|exact hr].
Qed.

Lemma core_call_snapshots_witness :
  ∃ y s' r', @core_call elements_order _ _ (CoreRoom 1 (OpApply 0 1 StrokeEnd)) demo_drawing_core
      = Some (ReplyRoom y, s') ∧
    core_room s' 1 = Some r' ∧
    core_log s' = [mkPersistedBoardSnapshot 1 (lastSeq r') (strokes (board_ r'))].
Proof.
  destruct (@core_call elements_order _ _ (CoreRoom 1 (OpApply 0 1 StrokeEnd)) demo_drawing_core)
    as [[[id|y] s']|] eqn:E; [vm_compute in E; discriminate| |vm_compute in E; discriminate].
  destruct (core_room demo_drawing_core 1) as [r|] eqn:Er; [|vm_compute in Er; discriminate].
  destruct (@core_call_snapshots elements_order _ _ demo_drawing_core 1 1
    (OpApply 0 1 StrokeEnd) r y s') as (r' & Ey & Hr' & Hl);
    [apply demo_drawing_core_ok|apply demo_drawing_core_ok|done|done|done|].
  exists y, s', r'. split_and!; [done|done|]. rewrite Hl.
  vm_compute in E. injection E as <- _. reflexivity.
Defined.

Lemma core_run_snapshots_increasing_witness :
  ∃ ys s r, @core_calls elements_order _ _ demo_core_ops demo_core = Some (ys, s) ∧
    core_room s 1 = Some r ∧
    length (core_log s) = 2%nat ∧
    StronglySorted Z.lt (pers_lastSeq <$> log_of 1 (core_log s)).
Proof.
  destruct (@core_calls elements_order _ _ demo_core_ops demo_core) as [[ys s]|] eqn:E;
    [|vm_compute in E; discriminate].
  destruct (core_room s 1) as [r|] eqn:Er.
  2:{ exfalso. vm_compute in E. injection E as <- <-. vm_compute in Er. discriminate. }
  exists ys, s, r. split_and!; [done|done|vm_compute in E; injection E as <- <-; reflexivity|].
  apply (@core_run_snapshots_increasing elements_order _ _ [] demo_core_ops ys s 1 r); done.
Defined.
