(* ===== verification/CoreSpec.v ===== *)
(** * The abstract core

    The promise of [ServerCore] as a whole: a numbered table of the abstract rooms
    of [RoomSpec.v], with neither index tables nor machine integers, on which a
    call is one function.  [core_call_refines] shows that the code implements it;
    [ThreadsProps.v] lifts it to any number of threads. *)
From S2P Require Import Prelude CoreTypes Room RoomSpec RoomRefine RoomTrace RoomProps ServerCore CoreProps.

Record SpecCore := mkSpecCore {
  sc_rooms : gmap RoomId SpecRoom;
  sc_created : Z;                    (* the rooms are numbered 1 to [sc_created] *)
}.

Definition empty_core : SpecCore := mkSpecCore ∅ 0.
Definition empty_room (id : RoomId) : SpecRoom := mkSpecRoom id ∅ (mkBoardState [] ∅) 0 0 ∅.

Section CoreSpec.
Context `{HashOrder}.

Definition spec_core_call (op : CoreOp) (a : SpecCore) : CoreReply * SpecCore :=
  match op with
  | CoreCreate =>
      let id := sc_created a + 1 in
      (ReplyCreated id, mkSpecCore (<[id := empty_room id]> (sc_rooms a)) id)
  | CoreRoom room op =>
      match sc_rooms a !! room with
      | None => (ReplyRoom (reply_error roomNotFound op), a)
      | Some r =>
          let '(y, r') := spec_call op r in
          (ReplyRoom y, mkSpecCore (<[room := r']> (sc_rooms a)) (sc_created a))
      end
  end.

Fixpoint spec_core_calls (ops : list CoreOp) (a : SpecCore) : list CoreReply * SpecCore :=
  match ops with
  | [] => ([], a)
  | op :: ops =>
      let '(y, a1) := spec_core_call op a in
      let '(ys, a2) := spec_core_calls ops a1 in (y :: ys, a2)
  end.
End CoreSpec.

Section Refinement.
Context `{HashOrder} {Σ : Type} `{SnapshotSink Σ}.
Implicit Types s : @ServerCore Σ.

(** The abstract core a state stands for. *)
Definition abs_core s : SpecCore :=
  mkSpecCore (abs_room <$> rooms_ (core_rooms s)) (nextRoomId_ (core_rooms s) - 1).

Lemma abs_save b r s : abs_core (save_if b r s) = abs_core s.
Proof. by destruct b. Qed.

Lemma core_call_refines op k s y s' :
  core_wf s → core_headroom k s → 1 ≤ k → core_call op s = Some (y, s') →
  spec_core_call op (abs_core s) = (y, abs_core s').
Proof.
  intros wf hr Hk E. destruct op as [|room op].
  - rewrite createRoom_step in E by (done || destruct hr; lia). injection E as <- <-. simpl.
    unfold abs_core. simpl. rewrite fmap_insert.
    replace (nextRoomId_ (core_rooms s) - 1 + 1) with (nextRoomId_ (core_rooms s)) by lia.
    by replace (nextRoomId_ (core_rooms s) + 1 - 1) with (nextRoomId_ (core_rooms s)) by lia.
  - simpl. rewrite lookup_fmap. destruct (core_room s room) as [r|] eqn:Er.
    + destruct (cw_room s wf room r Er) as [_ wr].
      destruct (room_call_refines op r wr) as (y' & r' & E' & S & _);
        [destruct hr as [_ hr]; specialize (hr _ _ Er); unfold headroom in *; lia|].
      rewrite (core_call_present s room op r y' r' Er E') in E. injection E as <- <-.
      unfold core_room in Er. rewrite Er, abs_save. simpl. rewrite S. unfold abs_core. simpl. by rewrite fmap_insert.
    + rewrite core_call_missing in E by done. injection E as <- <-. unfold core_room in Er. by rewrite Er.
Qed.

Lemma core_calls_refine ops k s ys s' :
  core_wf s → core_headroom k s → Z.of_nat (length ops) ≤ k → core_calls ops s = Some (ys, s') →
  spec_core_calls ops (abs_core s) = (ys, abs_core s').
Proof.
  revert k s ys. induction ops as [|op ops IH]; intros k s ys wf hr Hk E; [by injection E as <- <-|].
  simpl length in Hk. destruct (core_call_step op k s wf hr) as (y & s1 & E1 & wf1 & hr1 & _); [lia|].
  cbn [core_calls] in E. unfold mbind, M_bind in E. rewrite E1 in E.
  destruct (core_calls ops s1) as [[ys1 s2]|] eqn:E2; [|done]. injection E as <- <-. cbn [spec_core_calls].
  rewrite (core_call_refines op k s y s1) by (done || lia). by rewrite (IH (k - 1) s1 ys1) by (done || lia).
Qed.
End Refinement.
