(* ===== verification/Membership.v ===== *)
(** * Who is in a room

    What the calls on the core do to the membership of the rooms, whom their
    events go to, and what their errors say: the facts the sessions rely on. *)
From S2P Require Import Prelude CoreTypes Room RoomSpec RoomRefine RoomTrace RoomProps ServerCore.
From S2P Require Import CoreProps.

(** ** One room *)

Section Room.
Context `{HashOrder}.

(** The members after the call [op] that was answered [y]. *)
Definition members_after (op : RoomOp) (y : RoomReply) (ms : gset ClientId) : gset ClientId :=
  match op, y with
  | OpJoin c, _ => ms ∪ {[c]}
  | OpLeave c, ReplyEvents (Value _) => ms ∖ {[c]}
  | _, _ => ms
  end.

(** An answer to [op] in a room with members [ms]: events go to the other
    members, errors are ASCII text, a join is never refused. *)
Definition reply_fine (op : RoomOp) (y : RoomReply) (ms : gset ClientId) : Prop :=
  match op, y with
  | OpJoin _, ReplySnapshot (Value _) => True
  | OpJoin _, _ | _, ReplySnapshot _ => False
  | _, ReplyEvents (Value evs) => Forall (λ e, ev_to e ∈ ms ∧ ev_to e ≠ op_client op) evs
  | _, ReplyEvents (Unexpected e) => is_ascii (error_message e) = true
  end.

Lemma fanout_fine id ms from seq p :
  Forall (λ e, ev_to e ∈ ms ∧ ev_to e ≠ from) (fanout id ms from seq p).
Proof.
  unfold fanout. apply Forall_fmap, Forall_forall. simpl.
  intros m [Hm Hin]%list_elem_of_filter. by rewrite set_order_elem in Hin.
Qed.

Lemma spec_call_members op a y a' :
  spec_call op a = (y, a') →
  sp_members a' = members_after op y (sp_members a) ∧ reply_fine op y (sp_members a).
Proof.
  destruct op as [c|c|now c ev]; simpl.
  - unfold spec_join. by intros [= <- <-].
  - unfold spec_leave. case_bool_decide; [by intros [= <- <-]|].
    pose proof (fanout_fine (sp_id a)) as HF.
    destruct (drawing_id c (sp_board a)); simpl; intros [= <- <-]; simpl; split; try done.
    + apply Forall_app. split; [apply HF|]. eapply Forall_impl; [apply fanout_fine|].
      simpl. set_solver.
    + eapply Forall_impl; [apply fanout_fine|]. simpl. set_solver.
  - unfold spec_apply, spec_begin, spec_point, spec_end, spec_move, spec_clear.
    case_bool_decide; [|by intros [= <- <-]].
    destruct ev; repeat case_match; intros [= <- <-]; simpl; split; try done; apply fanout_fine.
Qed.

Lemma room_call_members op r y r' :
  room_wf r → headroom 2 r → room_call op r = Some (y, r') →
  members_ r' = members_after op y (members_ r) ∧ reply_fine op y (members_ r).
Proof.
  intros wf hr E. destruct (room_call_refines op r wf hr) as (y' & r1 & E' & S & _). simplify_eq.
  apply (spec_call_members _ _ _ _ S).
Qed.

(** A member may always leave. *)
Lemma leave_accepted r c y r' :
  room_wf r → headroom 2 r → c ∈ members_ r → room_call (OpLeave c) r = Some (y, r') →
  ∃ evs, y = ReplyEvents (Value evs).
Proof.
  intros wf hr Hc E. destruct (room_call_refines (OpLeave c) r wf hr) as (y' & r1 & E' & S & _).
  simplify_eq. unfold spec_call, spec_leave in S. simpl in S.
  rewrite bool_decide_eq_false_2 in S by (intros Hn; by apply Hn).
  destruct (drawing_id c (board_ r)); simpl in S; simplify_eq; eauto.
Qed.
End Room.

(** ** The core *)

Section Core.
Context `{HashOrder} {Σ : Type} `{SnapshotSink Σ}.
Implicit Types s : @ServerCore Σ.

Definition core_member s (room : RoomId) (c : ClientId) : Prop :=
  ∃ r, core_room s room = Some r ∧ c ∈ members_ r.

(** [s'] is a well-formed core with room for [k - 1] more calls. *)
Definition core_next (k : Z) s s' : Prop := core_wf s' ∧ core_headroom (k - 1) s'.

Lemma core_next_call k op s y s' :
  core_wf s → core_headroom k s → 1 ≤ k → core_call op s = Some (y, s') → core_next k s s'.
Proof.
  intros wf hr Hk E. destruct (core_call_step op k s wf hr Hk) as (y' & s1 & E' & W & Hr & _).
  simplify_eq. done.
Qed.

(** A call on an existing room. *)
Lemma core_call_members k op s room r :
  core_wf s → core_headroom k s → 1 ≤ k → core_room s room = Some r →
  ∃ y s', core_call (CoreRoom room op) s = Some (ReplyRoom y, s') ∧ core_next k s s' ∧
    reply_fine op y (members_ r) ∧ (∃ r', room_call op r = Some (y, r')) ∧
    ∀ room' c, core_member s' room' c ↔
      if bool_decide (room' = room) then c ∈ members_after op y (members_ r) else core_member s room' c.
Proof.
  intros wf hr Hk Er. destruct (cw_room s wf room r Er) as [_ wr].
  assert (headroom 2 r) as h2 by (destruct hr as [_ hr]; specialize (hr _ _ Er); unfold headroom in *; lia).
  destruct (room_call_refines op r wr h2) as (y & r' & E & _).
  destruct (room_call_members op r y r' wr h2 E) as [Hm Hf].
  pose proof (core_call_present s room op r y r' Er E) as Ec.
  eexists y, _. split_and!; [exact Ec|by eapply core_next_call|done|by eauto|].
  intros room' c. unfold core_member. rewrite core_room_save, core_room_set.
  case_bool_decide as Heq; case_bool_decide as Heq'; try congruence; [|done]. rewrite <-Hm. naive_solver.
Qed.

(** ** The calls the sessions make *)

Lemma createRoom_members k s :
  core_wf s → core_headroom k s → 1 ≤ k →
  ∃ room s', createRoom s = Some (room, s') ∧ core_next k s s' ∧
    ∀ room' c, core_member s' room' c ↔ core_member s room' c.
Proof.
  intros wf hr Hk. assert (core_call CoreCreate s = Some (ReplyCreated (nextRoomId_ (core_rooms s)),
    mkServerCore (mkRoomManager (<[nextRoomId_ (core_rooms s) := new_room (nextRoomId_ (core_rooms s))]>
      (rooms_ (core_rooms s))) (nextRoomId_ (core_rooms s) + 1)) (snapshotSink_ s))) as E.
  { apply createRoom_step; [done|]. destruct hr. lia. }
  pose proof (core_next_call k _ s _ _ wf hr Hk E) as Hn. simpl in E. unfold mbind, M_bind in E.
  destruct (createRoom s) as [[room s']|]; [|done]. unfold mret, M_ret in E. simplify_eq.
  eexists _, _. split_and!; [done|done|]. intros room' c. unfold core_member, core_room. simpl.
  rewrite lookup_insert. case_decide as Hd; [|done]. subst room'. split; [by intros (r & [= <-] & ?)|].
  intros (r & Hr & _). assert (is_Some (core_room s (nextRoomId_ (core_rooms s)))) as HS by (eexists; exact Hr).
  apply (cw_rooms s wf) in HS. lia.
Qed.

(** Turns a fact about [core_call] into one about the function it calls. *)
Ltac of_core_call E f :=
  simpl in E; unfold mbind, M_bind in E; destruct f as [[? ?]|]; [|done];
  unfold mret, M_ret in E; simplify_eq.

Lemma joinRoom_members k s c room :
  core_wf s → core_headroom k s → 1 ≤ k →
  ∃ res s', joinRoom c room s = Some (res, s') ∧ core_next k s s' ∧
    match res with
    | Value _ => ∀ room' c', core_member s' room' c' ↔ core_member s room' c' ∨ (room' = room ∧ c' = c)
    | Unexpected e => e = roomNotFound ∧ s' = s
    end.
Proof.
  intros wf hr Hk. destruct (core_room s room) as [r|] eqn:Er.
  - destruct (core_call_members k (OpJoin c) s room r wf hr Hk Er)
      as (y & s' & E & Hn & Hf & _ & Hm).
    destruct y as [[snap|]|]; try done. of_core_call E (joinRoom c room s).
    eexists _, _. split_and!; [done|done|]. intros room' c'. rewrite Hm. simpl.
    case_bool_decide as Hd; [subst room'|naive_solver].
    rewrite elem_of_union, elem_of_singleton. unfold core_member. rewrite Er. naive_solver.
  - pose proof (core_call_missing s room (OpJoin c) Er) as E.
    pose proof (core_next_call k _ s _ _ wf hr Hk E) as Hn.
    of_core_call E (joinRoom c room s). eexists _, _. by split_and!.
Qed.

Lemma leaveRoom_members k s c room :
  core_wf s → core_headroom k s → 1 ≤ k → core_member s room c →
  ∃ evs s', leaveRoom c room s = Some (Value evs, s') ∧ core_next k s s' ∧
    Forall (λ e, core_member s room (ev_to e) ∧ ev_to e ≠ c) evs ∧
    ∀ room' c', core_member s' room' c' ↔ core_member s room' c' ∧ ¬ (room' = room ∧ c' = c).
Proof.
  intros wf hr Hk (r & Er & Hc).
  destruct (core_call_members k (OpLeave c) s room r wf hr Hk Er)
    as (y & s' & E & Hn & Hf & (r' & Hy) & Hm).
  destruct (cw_room s wf room r Er) as [_ wr].
  assert (headroom 2 r) as h2 by (destruct hr as [_ hr]; specialize (hr _ _ Er); unfold headroom in *; lia).
  destruct (leave_accepted r c y r' wr h2 Hc Hy) as [evs ->].
  of_core_call E (leaveRoom c room s). eexists _, _. split_and!; [done|done| |].
  - eapply Forall_impl; [exact Hf|]. simpl. intros e [He Hne]. split; [by exists r|done].
  - intros room' c'. rewrite Hm. simpl. case_bool_decide as Hd; [subst room'|naive_solver].
    unfold core_member. rewrite Er. set_solver.
Qed.

Lemma handleEvent_members k s now c room ev :
  core_wf s → core_headroom k s → 1 ≤ k →
  ∃ res s', handleEvent now c room ev s = Some (res, s') ∧ core_next k s s' ∧
    match res with
    | Value evs => Forall (λ e, core_member s room (ev_to e) ∧ ev_to e ≠ c) evs
    | Unexpected e => is_ascii (error_message e) = true
    end ∧
    ∀ room' c', core_member s' room' c' ↔ core_member s room' c'.
Proof.
  intros wf hr Hk. destruct (core_room s room) as [r|] eqn:Er.
  - destruct (core_call_members k (OpApply now c ev) s room r wf hr Hk Er)
      as (y & s' & E & Hn & Hf & _ & Hm).
    destruct y as [|res]; [done|]. of_core_call E (handleEvent now c room ev s).
    eexists _, _. split_and!; [done|done| |].
    + destruct res as [evs|e]; [|done]. eapply Forall_impl; [exact Hf|]. simpl.
      intros e [He Hne]. split; [by exists r|done].
    + intros room' c'. rewrite Hm. simpl. case_bool_decide as Hd; [subst room'|done].
      unfold core_member. rewrite Er. destruct res; naive_solver.
  - pose proof (core_call_missing s room (OpApply now c ev) Er) as E.
    pose proof (core_next_call k _ s _ _ wf hr Hk E) as Hn.
    of_core_call E (handleEvent now c room ev s). eexists _, _. by split_and!.
Qed.

(** A join of an existing room is accepted. *)
Lemma joinRoom_exists k s c room :
  core_wf s → core_headroom k s → 1 ≤ k → is_Some (core_room s room) →
  ∃ snap s', joinRoom c room s = Some (Value snap, s').
Proof.
  intros wf hr Hk [r Er].
  destruct (core_call_members k (OpJoin c) s room r wf hr Hk Er) as (y & s' & E & _ & Hf & _).
  destruct y as [[snap|]|]; try done. of_core_call E (joinRoom c room s). eauto.
Qed.

(** The events of [leaveRoom] are those of [Room::leave]. *)
Lemma leaveRoom_room k s c room evs s' :
  core_wf s → core_headroom k s → 1 ≤ k → leaveRoom c room s = Some (Value evs, s') →
  ∃ r r', core_room s room = Some r ∧ leave c r = Some (Value evs, r') ∧ core_room s' room = Some r'.
Proof.
  intros wf hr Hk El. destruct (core_room s room) as [r|] eqn:Er.
  - destruct (core_call_members k (OpLeave c) s room r wf hr Hk Er) as (y & s1 & E & _ & _ & (r' & Hy) & _).
    pose proof (core_call_present s room (OpLeave c) r y r' Er Hy) as E'.
    simpl in E', Hy. unfold mbind, M_bind in E', Hy. rewrite El in E'.
    unfold mret, M_ret in E', Hy. destruct (leave c r) as [[res r1]|] eqn:Eleave; [|done]. simplify_eq.
    exists r, r'. split_and!; [done|done|]. rewrite core_room_save, core_room_set.
    by rewrite bool_decide_eq_true_2.
  - pose proof (core_call_missing s room (OpLeave c) Er) as E. simpl in E.
    unfold mbind, M_bind in E. by rewrite El in E.
Qed.
End Core.
