(* ===== verification/CoreStream.v ===== *)
(** * The events of a run of the core

    The numbers of the events a run addresses to one client in one room: they
    come in order whatever the calls on the other rooms are.  For a member that
    makes no call they have no gap, and the events replay the board. *)
From S2P Require Import Prelude CoreTypes Room RoomSpec RoomRefine RoomTrace RoomProps ServerCore.
From S2P Require Import CoreProps Membership.

(** The events a call hands to its caller. *)
Definition reply_events (y : CoreReply) : list OutgoingEvent :=
  match y with ReplyRoom (ReplyEvents (Value evs)) => evs | _ => [] end.

(** The events for the client [d] in the room [room], and their numbers. *)
Definition events_to (d : ClientId) (room : RoomId) (evs : list OutgoingEvent) : list OutgoingEvent :=
  filter (λ e, ev_to e = d ∧ ev_room e = room) evs.

Definition stream (d : ClientId) (room : RoomId) (evs : list OutgoingEvent) : list Seq :=
  ev_seq <$> events_to d room evs.

Lemma stream_app d room evs evs' : stream d room (evs ++ evs') = stream d room evs ++ stream d room evs'.
Proof. unfold stream, events_to. by rewrite filter_app, fmap_app. Qed.

Lemma stream_sublist d room evs evs' :
  evs `sublist_of` evs' → stream d room evs `sublist_of` stream d room evs'.
Proof. intros Hs. unfold stream. apply fmap_sublist. by apply sublist_filter_mono. Qed.

Section Room.
Context `{HashOrder}.

Lemma fanout_room id ms from seq p : Forall (λ e, ev_room e = id) (fanout id ms from seq p).
Proof. unfold fanout. by apply Forall_fmap, Forall_true. Qed.

(** The events of a room name it. *)
Lemma spec_call_room a op y a' :
  spec_call op a = (y, a') → Forall (λ e, ev_room e = sp_id a) (reply_events (ReplyRoom y)).
Proof.
  destruct op as [c|c|now c ev]; simpl; [by intros [= <- _]| |].
  - unfold spec_leave. case_bool_decide; [by intros [= <- _]|].
    destruct (drawing_id c (sp_board a)); simpl; intros [= <- _]; [apply Forall_app; split|]; apply fanout_room.
  - unfold spec_apply, spec_begin, spec_point, spec_end, spec_move, spec_clear.
    case_bool_decide; [|by intros [= <- _]].
    destruct ev; repeat case_match; intros [= <- _]; try done; apply fanout_room.
Qed.

Lemma room_call_room op r y r' :
  room_wf r → headroom 2 r → room_call op r = Some (y, r') →
  Forall (λ e, ev_room e = id_ r) (reply_events (ReplyRoom y)).
Proof.
  intros wf hr E. destruct (room_call_refines op r wf hr) as (y' & r1 & E' & S & _). simplify_eq.
  apply (spec_call_room _ _ _ _ S).
Qed.

Lemma stream_inbox d id y :
  Forall (λ e, ev_room e = id) (reply_events (ReplyRoom y)) →
  stream d id (reply_events (ReplyRoom y)) = ev_seq <$> inbox d y.
Proof.
  intros Hf. unfold stream, events_to, inbox, reply_events in *. destruct y as [|[evs|]]; [done| |done]. f_equal.
  apply filter_Forall_iff. eapply Forall_impl; [exact Hf|]. naive_solver.
Qed.

Lemma room_call_stream op r y r' d :
  room_wf r → headroom 2 r → room_call op r = Some (y, r') →
  nextSeq_ r ≤ nextSeq_ r' ∧
  stream d (id_ r) (reply_events (ReplyRoom y)) `sublist_of` seqZ (nextSeq_ r) (nextSeq_ r' - nextSeq_ r).
Proof.
  intros wf hr E. rewrite stream_inbox by by eapply room_call_room.
  destruct (room_calls_seqs [op] r [y] r' d wf hr) as [Hle Hs].
  - simpl. unfold mbind, M_bind. by rewrite E.
  - split; [done|]. unfold inboxes in Hs. simpl in Hs. by rewrite app_nil_r in Hs.
Qed.
End Room.

Section Core.
Context `{HashOrder} {Σ : Type} `{SnapshotSink Σ}.
Implicit Types s : @ServerCore Σ.

(** The number the next event of the room will have. *)
Definition room_next s (room : RoomId) : Seq := default 1 (nextSeq_ <$> core_room s room).

Lemma core_call_stream op k s y s' d room :
  core_wf s → core_headroom k s → 1 ≤ k → core_call op s = Some (y, s') →
  room_next s room ≤ room_next s' room ∧
  stream d room (reply_events y) `sublist_of` seqZ (room_next s room) (room_next s' room - room_next s room).
Proof.
  intros wf hr Hk E. destruct op as [|ptr op].
  - rewrite createRoom_step in E by (done || destruct hr; lia). injection E as <- <-.
    split; [|by apply sublist_nil_l]. unfold room_next, core_room. simpl. rewrite lookup_insert.
    case_decide as Hd; [|done]. subst room. destruct (rooms_ (core_rooms s) !! _) as [r|] eqn:Er; [|done].
    assert (is_Some (core_room s (nextRoomId_ (core_rooms s)))) as HS%(cw_rooms s wf) by (eexists; exact Er). lia.
  - destruct (core_room s ptr) as [r|] eqn:Er.
    2:{ rewrite core_call_missing in E by done. injection E as <- <-.
        split; [done|]. destruct op; apply sublist_nil_l. }
    destruct (cw_room s wf ptr r Er) as [Hid wr].
    assert (headroom 2 r) as h2 by (destruct hr as [_ hr]; specialize (hr _ _ Er); unfold headroom in *; lia).
    destruct (room_call_refines op r wr h2) as (y' & r' & E' & _).
    rewrite (core_call_present s ptr op r y' r') in E by done. injection E as <- <-.
    destruct (room_call_stream op r y' r' d wr h2 E') as [Hle Hs].
    unfold room_next. rewrite core_room_save, core_room_set. case_bool_decide as Hd.
    + subst room. rewrite Er. simpl. by rewrite <-Hid.
    + split; [done|]. unfold stream, events_to. rewrite filter_none; [apply sublist_nil_l|].
      intros e He [_ Hroom]. pose proof (room_call_room op r y' r' wr h2 E') as Hf.
      rewrite Forall_forall in Hf. specialize (Hf e He). congruence.
Qed.

(** The events of a run, per client and room, carry increasing numbers. *)
Lemma core_calls_stream ops k s ys s' d room :
  core_wf s → core_headroom k s → Z.of_nat (length ops) ≤ k → core_calls ops s = Some (ys, s') →
  room_next s room ≤ room_next s' room ∧
  stream d room (ys ≫= reply_events) `sublist_of` seqZ (room_next s room) (room_next s' room - room_next s room).
Proof.
  revert k s ys. induction ops as [|op ops IH]; intros k s ys wf hr Hk E.
  { injection E as <- <-. split; [done|apply sublist_nil_l]. }
  simpl length in Hk. rewrite Nat2Z.inj_succ in Hk.
  destruct (core_call_step op k s wf hr) as (y & s1 & E1 & wf1 & hr1 & _); [lia|].
  simpl in E. unfold mbind, M_bind in E. rewrite E1 in E.
  destruct (core_calls ops s1) as [[ys1 s2]|] eqn:E2; [|done]. injection E as <- <-.
  destruct (core_call_stream op k s y s1 d room wf hr ltac:(lia) E1) as [Hle1 Hs1].
  destruct (IH (k - 1) s1 ys1 wf1 hr1 ltac:(lia) E2) as [Hle2 Hs2].
  split; [lia|]. simpl. rewrite stream_app.
  replace (room_next s2 room - room_next s room) with
    ((room_next s1 room - room_next s room) + (room_next s2 room - room_next s1 room)) by lia.
  rewrite seqZ_app by lia. apply sublist_app; [done|].
  by replace (room_next s room + (room_next s1 room - room_next s room)) with (room_next s1 room) by lia.
Qed.

(** ** A member that makes no call *)

Definition not_by (d : ClientId) (room : RoomId) (op : CoreOp) : Prop :=
  match op with CoreCreate => True | CoreRoom room' op => room' = room → op_client op ≠ d end.

(** The room before and after, and the events [evs], as the member [d] sees them. *)
Definition room_seen (d : ClientId) (room : RoomId) (evs : list OutgoingEvent) s s' : Prop :=
  ∀ r, core_room s room = Some r → d ∈ members_ r →
  ∃ r', core_room s' room = Some r' ∧ d ∈ members_ r' ∧ nextSeq_ r ≤ nextSeq_ r' ∧
    replay_all (board_ r) (events_to d room evs) = board_ r' ∧
    stream d room evs = seqZ (nextSeq_ r) (nextSeq_ r' - nextSeq_ r).

Lemma room_seen_nothing d room evs s s' :
  core_room s' room = core_room s room → events_to d room evs = [] → room_seen d room evs s s'.
Proof.
  intros Hs He r Er Hd. exists r. rewrite Hs. unfold stream. rewrite He, Z.sub_diag. by split_and!.
Qed.

Lemma room_seen_trans d room evs evs' s1 s2 s3 :
  room_seen d room evs s1 s2 → room_seen d room evs' s2 s3 → room_seen d room (evs ++ evs') s1 s3.
Proof.
  intros H12 H23 r1 E1 Hd1. destruct (H12 r1 E1 Hd1) as (r2 & E2 & Hd2 & Hle2 & B2 & Q2).
  destruct (H23 r2 E2 Hd2) as (r3 & E3 & Hd3 & Hle3 & B3 & Q3). exists r3. split_and!; [done|done|lia| |].
  - unfold events_to, replay_all in *. by rewrite filter_app, fmap_app, foldl_app, B2.
  - rewrite stream_app, Q2, Q3. replace (nextSeq_ r3 - nextSeq_ r1) with
      ((nextSeq_ r2 - nextSeq_ r1) + (nextSeq_ r3 - nextSeq_ r2)) by lia.
    rewrite seqZ_app by lia. do 2 f_equal. lia.
Qed.

Lemma core_call_seen op k s y s' d room :
  core_wf s → core_headroom k s → 1 ≤ k → not_by d room op → core_call op s = Some (y, s') →
  room_seen d room (reply_events y) s s'.
Proof.
  intros wf hr Hk Hop E. destruct op as [|ptr op].
  - rewrite createRoom_step in E by (done || destruct hr; lia). injection E as <- <-.
    assert (core_room s room = None ∨ room ≠ nextRoomId_ (core_rooms s)) as [Hn|Hn].
    { destruct (decide (room = nextRoomId_ (core_rooms s))) as [->|]; [left|by right].
      destruct (core_room s _) eqn:Er; [|done].
      assert (is_Some (core_room s (nextRoomId_ (core_rooms s)))) as HS%(cw_rooms s wf) by eauto. lia. }
    + intros r Er. by rewrite Hn in Er.
    + apply room_seen_nothing; [|done]. unfold core_room. simpl. by rewrite lookup_insert_ne.
  - destruct (core_room s ptr) as [rp|] eqn:Ep.
    2:{ rewrite core_call_missing in E by done. injection E as <- <-. apply room_seen_nothing; [done|]. by destruct op. }
    destruct (cw_room s wf ptr rp Ep) as [Hid wr].
    assert (headroom 2 rp) as h2 by (destruct hr as [_ hr]; specialize (hr _ _ Ep); unfold headroom in *; lia).
    destruct (room_call_refines op rp wr h2) as (yr & rp' & Ey & S & _ & Hle & _).
    rewrite (core_call_present s ptr op rp yr rp') in E by done. injection E as <- <-.
    pose proof (room_call_room op rp yr rp' wr h2 Ey) as Hf. rewrite Hid in Hf.
    destruct (decide (ptr = room)) as [->|Hp].
    + intros r Er Hd. rewrite Ep in Er. injection Er as ->. exists rp'.
      rewrite core_room_save, core_room_set, bool_decide_eq_true_2 by done.
      pose proof (spec_call_sees (abs_room r) op d (wf_drawing_unique r wr) Hd (Hop eq_refl)) as Hsee.
      rewrite S in Hsee. destruct Hsee as (Hd' & Hb & Hq). simpl in Hd', Hb, Hq. split_and!; [done|done|lia| |].
      * rewrite <-Hb. unfold events_to. destruct yr as [|[evs|]]; [done| |done]. simpl.
        f_equal. apply filter_Forall_iff. eapply Forall_impl; [exact Hf|]. naive_solver.
      * rewrite stream_inbox by done. rewrite Hq. f_equal; lia.
    + apply room_seen_nothing.
      * rewrite core_room_save, core_room_set. by rewrite bool_decide_eq_false_2.
      * apply filter_none. intros e He [_ Hr]. rewrite Forall_forall in Hf. specialize (Hf e He). congruence.
Qed.

Lemma core_calls_seen ops k s ys s' d room :
  core_wf s → core_headroom k s → Z.of_nat (length ops) ≤ k → Forall (not_by d room) ops →
  core_calls ops s = Some (ys, s') → room_seen d room (ys ≫= reply_events) s s'.
Proof.
  revert k s ys. induction ops as [|op ops IH]; intros k s ys wf hr Hk Hops E.
  { injection E as <- <-. by apply room_seen_nothing. }
  apply Forall_cons in Hops as [Hop Hops]. simpl length in Hk.
  destruct (core_call_step op k s wf hr) as (y & s1 & E1 & wf1 & hr1 & _); [lia|].
  cbn [core_calls] in E. unfold mbind, M_bind in E. rewrite E1 in E.
  destruct (core_calls ops s1) as [[ys1 s2]|] eqn:E2; [|done]. injection E as <- <-.
  apply (room_seen_trans d room _ _ s s1 s2); [by apply (core_call_seen op k); [..|lia| |]|].
  by apply (IH (k - 1)); [..|lia| |].
Qed.

(** ** After a join *)

(** What the room answers to a join. *)
Lemma core_join_call k s d room snap s' :
  core_wf s → core_headroom k s → 1 ≤ k →
  core_call (CoreRoom room (OpJoin d)) s = Some (ReplyRoom (ReplySnapshot (Value snap)), s') →
  snap_lastSeq snap = room_next s room - 1 ∧
  ∃ r', core_room s' room = Some r' ∧ d ∈ members_ r' ∧ board_ r' = snap_state snap ∧
    nextSeq_ r' = snap_lastSeq snap + 1.
Proof.
  intros wf hr Hk E. destruct (core_room s room) as [r|] eqn:Er; [|by rewrite core_call_missing in E].
  destruct (cw_room s wf room r Er) as [_ wr].
  assert (headroom 2 r) as h2 by (destruct hr as [_ hr]; specialize (hr _ _ Er); unfold headroom in *; lia).
  destruct (room_call_refines (OpJoin d) r wr h2) as (y & r' & Ey & S & _).
  rewrite (core_call_present s room (OpJoin d) r y r' Er Ey) in E. injection E as -> <-.
  pose proof (f_equal fst S) as S1. pose proof (f_equal (λ p, (sp_members p.2, sp_board p.2, sp_seq p.2)) S) as S2.
  simpl in S1, S2. injection S1 as <-. injection S2 as Hm Hb Hn. simpl.
  unfold room_next. rewrite Er. simpl. split; [done|]. exists r'. rewrite core_room_set, bool_decide_eq_true_2 by done.
  split_and!; [done| |done|lia]. rewrite <-Hm. set_solver.
Qed.

(** The events a client is sent, that are newer than a snapshot of it. *)
Definition newer (n : Seq) (evs : list OutgoingEvent) : list OutgoingEvent := filter (λ e, n < ev_seq e) evs.

(** In the order of their numbers. *)
Definition by_number (e e' : OutgoingEvent) : Prop := ev_seq e ≤ ev_seq e'.

#[export] Instance by_number_dec : RelDecision by_number.
Proof. unfold by_number. solve_decision. Defined.

#[export] Instance by_number_trans : Transitive by_number.
Proof. unfold by_number. intros e1 e2 e3. lia. Qed.

#[export] Instance by_number_total : Total by_number.
Proof. unfold by_number. intros e1 e2. lia. Qed.

Lemma sort_by_number l k :
  StronglySorted Z.lt (ev_seq <$> l) → k ≡ₚ l → merge_sort by_number k = l.
Proof.
  intros Hl Hp. apply (sorted_permutation ev_seq); [done| |apply (StronglySorted_merge_sort by_number)].
  by rewrite merge_sort_Permutation.
Qed.

Lemma newer_none n evs : Forall (λ m, m ≤ n) (ev_seq <$> evs) → newer n evs = [].
Proof.
  intros Hn. apply filter_none. intros e He. rewrite Forall_forall in Hn.
  specialize (Hn (ev_seq e) ltac:(by apply list_elem_of_fmap_2)). simpl in Hn. lia.
Qed.

Lemma newer_all n evs : Forall (λ m, n < m) (ev_seq <$> evs) → newer n evs = evs.
Proof.
  intros Hn. apply filter_all. intros e He. rewrite Forall_forall in Hn. apply Hn. by apply list_elem_of_fmap_2.
Qed.

Lemma events_to_app d room evs evs' : events_to d room (evs ++ evs') = events_to d room evs ++ events_to d room evs'.
Proof. apply filter_app. Qed.

Lemma core_calls_length ops s ys s' : core_calls ops s = Some (ys, s') → length ys = length ops.
Proof.
  revert s ys. induction ops as [|op ops IH]; intros s ys; cbn [core_calls]; [by intros [= <- _]|].
  unfold mbind, M_bind. destruct (core_call op s) as [[y s1]|]; [|done].
  destruct (core_calls ops s1) as [[ys1 s2]|] eqn:E; [|done]. intros [= <- <-]. simpl. f_equal. exact (IH _ _ E).
Qed.

(** The events that are newer than the snapshot of a join replay the board on
    it, as long as the client makes no other call on the room. *)
Lemma core_join_rebuilds k sink ops1 ys1 ops2 ys2 d room snap s' :
  core_headroom k (new_core sink) → Z.of_nat (length ops1 + S (length ops2)) ≤ k → length ys1 = length ops1 →
  core_calls (ops1 ++ CoreRoom room (OpJoin d) :: ops2) (new_core sink) =
    Some (ys1 ++ ReplyRoom (ReplySnapshot (Value snap)) :: ys2, s') →
  Forall (not_by d room) ops2 →
  let evs := newer (snap_lastSeq snap)
    (events_to d room ((ys1 ++ ReplyRoom (ReplySnapshot (Value snap)) :: ys2) ≫= reply_events)) in
  StronglySorted Z.lt (ev_seq <$> evs) ∧
  ∃ r', core_room s' room = Some r' ∧ d ∈ members_ r' ∧ replay_all (snap_state snap) evs = board_ r'.
Proof.
  intros hr Hk Hlen E Hops evs. rewrite core_calls_app in E. unfold mbind, M_bind in E.
  destruct (core_calls_run ops1 k (new_core sink)) as (ys & s1 & E1 & wf1 & hr1 & _);
    [apply new_core_wf|done|lia|].
  rewrite E1 in E. cbn [core_calls] in E. unfold mbind, M_bind in E.
  destruct (core_call_step (CoreRoom room (OpJoin d)) _ s1 wf1 hr1) as (y & s2 & E2 & wf2 & hr2 & _); [lia|].
  rewrite E2 in E. destruct (core_calls ops2 s2) as [[ys3 s3]|] eqn:E3; [|done].
  injection E as E <-. assert (length ys = length ys1) as Hl.
  { rewrite Hlen. by apply (core_calls_length ops1 (new_core sink) ys s1). }
  apply app_inj_1 in E as [-> E]; [|done]. injection E as -> ->.
  destruct (core_join_call _ s1 d room snap s2 wf1 hr1 ltac:(lia) E2) as (Hlast & r & Er & Hd & Hb & Hn).
  destruct (core_calls_stream ops1 k (new_core sink) ys1 s1 d room (new_core_wf sink) hr ltac:(lia) E1) as [_ Hold].
  destruct (core_calls_seen ops2 _ s2 ys2 s3 d room wf2 hr2 ltac:(lia) Hops E3 r Er Hd) as (r' & Er' & Hd' & Hle & Hrep & Hseq).
  assert (evs = events_to d room (ys2 ≫= reply_events)) as ->.
  { subst evs. rewrite bind_app. change ((?y :: ys2) ≫= reply_events) with (ys2 ≫= reply_events).
    unfold newer. rewrite events_to_app, filter_app. change (filter _ ?l) with (newer (snap_lastSeq snap) l).
    rewrite newer_none, newer_all; [done| |].
    - change (Forall (λ m, snap_lastSeq snap < m) (stream d room (ys2 ≫= reply_events))). rewrite Hseq.
      apply Forall_forall. intros m Hm%elem_of_seqZ. lia.
    - eapply sublist_Forall; [exact Hold|]. apply Forall_forall. intros m Hm%elem_of_seqZ. unfold room_next at 1 in Hm.
      unfold core_room in Hm. simpl in Hm. rewrite lookup_empty in Hm. simpl in Hm. lia. }
  split; [|exists r'; by rewrite <-Hb].
  change (ev_seq <$> events_to d room (ys2 ≫= reply_events)) with (stream d room (ys2 ≫= reply_events)).
  rewrite Hseq. apply seqZ_StronglySorted.
Qed.
End Core.
