(* ===== verification/Emptied.v ===== *)
(** * Rooms that were left empty are saved

    What [ServerCore::leaveRoom] is for: a room without members either was
    never drawn in, or the last snapshot the sink was given for it is the board
    it has now. *)
From S2P Require Import Prelude CoreTypes Room RoomSpec RoomRefine RoomTrace RoomProps ServerCore.
From S2P Require Import CoreProps.

Section Emptied.
Context `{HashOrder} {Σ : Type} `{SnapshotSink Σ}.
Implicit Types s : @ServerCore Σ.

(** Nothing happened in the room, or its last snapshot is up to date. *)
Definition up_to_date (log : list PersistedBoardSnapshot) (r : Room) : Prop :=
  nextSeq_ r = 1 ∨ ∃ before, log_of (id_ r) log = before ++ [makePersistedSnapshot r].

Definition emptied_saved s : Prop :=
  ∀ room r, core_room s room = Some r → members_ r = ∅ → up_to_date (core_log s) r.

(** A snapshot depends on the abstract state only. *)
Lemma up_to_date_abs log r r' : abs_room r' = abs_room r → up_to_date log r → up_to_date log r'.
Proof.
  destruct r, r'. unfold abs_room, up_to_date, makePersistedSnapshot, lastSeq. simpl.
  intros [= -> -> -> E _ _]. assert (nextSeq_0 = nextSeq_) as -> by lia. done.
Qed.

Lemma up_to_date_snoc log r : up_to_date (log ++ [makePersistedSnapshot r]) r.
Proof. right. rewrite log_of_snoc by done. eauto. Qed.

Lemma up_to_date_other log p r : pers_room p ≠ id_ r → up_to_date log r → up_to_date (log ++ [p]) r.
Proof. intros Hne. unfold up_to_date. by rewrite log_of_other. Qed.

(** A call that leaves the room empty saves it, or did nothing. *)
Lemma emptied_by_call op r y r' :
  room_wf r → headroom 2 r → room_call op r = Some (y, r') → members_ r' = ∅ →
  saves op y r' = true ∨ (abs_room r' = abs_room r ∧ members_ r = ∅).
Proof.
  intros wf hr E Hm. destruct (room_call_refines op r wf hr) as (y' & r1 & E' & S & _). simplify_eq.
  assert (sp_members (spec_call op (abs_room r)).2 = ∅) as Hs by (rewrite S; exact Hm).
  replace y with (spec_call op (abs_room r)).1 by by rewrite S.
  assert (abs_room r' = (spec_call op (abs_room r)).2) as Hr by by rewrite S. rewrite Hr. clear E S.
  destruct op as [c|c|now c ev]; simpl in *.
  - exfalso. set_solver.
  - unfold spec_leave in *. case_bool_decide as Hc; simpl in *; [right; split; [done|]|left].
    + done.
    + destruct (drawing_id c (board_ r)); simpl in *; unfold memberCount; rewrite Hm;
        by rewrite size_empty, bool_decide_eq_true_2.
  - right. unfold spec_apply in *. simpl in *. case_bool_decide as Hc; [exfalso|by simpl in *].
    assert (members_ r = ∅) as Hr0; [|set_solver].
    destruct ev; unfold spec_begin, spec_point, spec_end, spec_move, spec_clear in *;
      simpl in *; repeat case_match; simpl in *; done.
Qed.

Lemma emptied_call op k s y s' :
  core_wf s → core_headroom k s → 1 ≤ k → has_sink s = true → core_call op s = Some (y, s') →
  emptied_saved s → emptied_saved s' ∧ has_sink s' = true.
Proof.
  intros wf hr Hk Hsink E HI. destruct op as [|room op].
  - rewrite createRoom_step in E by (done || destruct hr; lia). injection E as <- <-. split; [|done].
    intros room r. unfold core_room, emptied_saved in *. simpl. rewrite lookup_insert.
    case_decide; [intros [= <-] _; by left|apply HI].
  - destruct (core_room s room) as [r|] eqn:Er.
    2:{ rewrite core_call_missing in E by done. injection E as <- <-. done. }
    destruct (cw_room s wf room r Er) as [Hid wr].
    assert (headroom 2 r) as h2 by (destruct hr as [_ hr]; specialize (hr _ _ Er); unfold headroom in *; lia).
    destruct (room_call_refines op r wr h2) as (y' & r' & E' & _).
    rewrite (core_call_present s room op r y' r') in E by done. injection E as <- <-.
    split; [|by destruct s as [? [|]], (saves op y' r')].
    intros room' r1. rewrite core_room_save, core_room_set, core_log_save.
    change (has_sink (set_room room r' s)) with (has_sink s). rewrite Hsink, andb_true_r.
    change (core_log (set_room room r' s)) with (core_log s).
    pose proof (room_call_id op r y' r' wr h2 E') as Hid'. case_bool_decide as Hroom.
    + intros [= <-] Hm. destruct (emptied_by_call op r y' r' wr h2 E' Hm) as [->|[Ha Hm']];
        [apply up_to_date_snoc|]. destruct (saves op y' r'); [apply up_to_date_snoc|].
      rewrite app_nil_r. eapply up_to_date_abs; [exact Ha|]. by apply (HI room).
    + intros Hr1 Hm. specialize (HI room' r1 Hr1 Hm). destruct (cw_room s wf room' r1 Hr1) as [Hid1 _].
      destruct (saves op y' r'); [|by rewrite app_nil_r]. apply up_to_date_other; [|done]. simpl. congruence.
Qed.

Lemma new_core_emptied sink : emptied_saved (new_core sink).
Proof. intros room r. unfold core_room. simpl. by rewrite lookup_empty. Qed.
End Emptied.
