(* ===== verification/Typing.v ===== *)
(** * Types of the data

    The boards, the events and the snapshots hold only values of their types:
    enumerators in the fields of [Color] and [Thickness], which could hold any
    byte, identifiers and numbers of 64 bits, and coordinates that satisfy [P],
    whatever is known of the coordinates of the requests.  The calls of the
    core preserve this, and reply with data that is typed. *)
From S2P Require Import Prelude CoreTypes Room RoomSpec RoomRefine RoomTrace RoomProps ServerCore.
From S2P Require Import CoreProps CoreStream.

Definition color_enum (c : Color) : bool := match c with ColorRaw _ => false | _ => true end.
Definition thickness_enum (t : Thickness) : bool := match t with ThicknessRaw _ => false | _ => true end.

Section Typed.
Context (P : Point → Prop).

Record stroke_typed (s : Stroke) : Prop := {
  ty_id : is_u64 (stroke_id s);
  ty_author : is_u64 (stroke_author s);
  ty_order : is_u64 (strokeOrder s);
  ty_color : color_enum (stroke_color s) = true;
  ty_thickness : thickness_enum (stroke_thickness s) = true;
  ty_points : Forall P (points s);
}.

Record board_typed (b : BoardState) : Prop := {
  ty_strokes : Forall stroke_typed (strokes b);
  ty_cursors : map_Forall (λ c p, is_u64 c ∧ P p) (cursors b);
}.

Definition event_typed (ev : EventPayload) : Prop :=
  match ev with
  | StrokeBegin col th p => color_enum col = true ∧ thickness_enum th = true ∧ P p
  | StrokePoint p | CursorMove p => P p
  | StrokeEnd | Clear => True
  end.

Definition payload_typed (p : ServerEventPayload) : Prop :=
  match p with
  | StrokeBeginOut author id order col th p =>
      is_u64 author ∧ is_u64 id ∧ is_u64 order ∧ color_enum col = true ∧ thickness_enum th = true ∧ P p
  | StrokePointOut author id p => is_u64 author ∧ is_u64 id ∧ P p
  | StrokeEndOut author id => is_u64 author ∧ is_u64 id
  | CursorMoveOut author p => is_u64 author ∧ P p
  | ClearOut author | MemberLeftOut author => is_u64 author
  end.

Definition out_typed (e : OutgoingEvent) : Prop :=
  is_u64 (ev_room e) ∧ is_u64 (ev_to e) ∧ is_u64 (ev_seq e) ∧ payload_typed (ev_payload e).

Record snapshot_typed (s : RoomSnapshot) : Prop := {
  ty_snap_room : is_u64 (snap_room s);
  ty_snap_seq : is_u64 (snap_lastSeq s);
  ty_snap_board : board_typed (snap_state s);
  ty_snap_members : Forall is_u64 (snap_members s);
}.

Record saved_typed (p : PersistedBoardSnapshot) : Prop := {
  ty_pers_room : is_u64 (pers_room p);
  ty_pers_seq : is_u64 (pers_lastSeq p);
  ty_pers_strokes : Forall stroke_typed (pers_strokes p);
}.

Definition op_typed (op : RoomOp) : Prop :=
  is_u64 (op_client op) ∧ match op with OpApply _ _ ev => event_typed ev | _ => True end.

Definition reply_typed (y : RoomReply) : Prop :=
  match y with
  | ReplySnapshot (Value s) => snapshot_typed s
  | ReplyEvents (Value evs) => Forall out_typed evs
  | _ => True
  end.

Definition core_op_typed (op : CoreOp) : Prop :=
  match op with CoreCreate => True | CoreRoom _ op => op_typed op end.

Definition core_reply_typed (y : CoreReply) : Prop :=
  match y with ReplyCreated room => is_u64 room | ReplyRoom y => reply_typed y end.

(** ** Rooms *)

Record spec_typed (a : SpecRoom) : Prop := {
  ty_spec_id : is_u64 (sp_id a);
  ty_spec_members : set_Forall is_u64 (sp_members a);
  ty_spec_board : board_typed (sp_board a);
}.

(** The next call fits in the counters. *)
Definition spec_fits (a : SpecRoom) : Prop :=
  0 ≤ sp_strokes a ≤ sp_seq a ∧ sp_seq a + 2 < 2 ^ 64.

Lemma stroke_typed_push p s : P p → stroke_typed s → stroke_typed (push_point p s).
Proof. intros Hp [A B C D E F]. split; try done. simpl. apply Forall_app. auto. Qed.

Lemma stroke_typed_finish s : stroke_typed s → stroke_typed (set_finished s).
Proof. by intros [A B C D E F]. Qed.

Lemma strokes_typed_map c f ss :
  (∀ s, stroke_typed s → stroke_typed (f s)) → Forall stroke_typed ss →
  Forall stroke_typed (map_drawing c f ss).
Proof.
  intros Hf Hss. apply Forall_fmap. eapply Forall_impl; [exact Hss|]. intros s Hs. simpl.
  case_match; auto.
Qed.

Lemma board_typed_strokes f b :
  Forall stroke_typed (f (strokes b)) → board_typed b → board_typed (on_strokes f b).
Proof. by intros Hf [A B]. Qed.

Lemma board_typed_delete c b : board_typed b → board_typed (on_cursors (delete c) b).
Proof. intros [A B]. split; [done|]. simpl. by apply map_Forall_delete. Qed.

Lemma board_typed_move c p b :
  is_u64 c → P p → board_typed b → board_typed (on_cursors <[c := p]> b).
Proof. intros Hc Hp [A B]. split; [done|]. simpl. by apply map_Forall_insert_2. Qed.

Lemma drawing_id_typed c b sid : board_typed b → drawing_id c b = Some sid → is_u64 sid.
Proof.
  unfold drawing_id. intros [A _] (s & Hs & ->)%fmap_Some.
  destruct (filter _ _) as [|s' l] eqn:E; [done|]. injection Hs as ->.
  assert (s ∈ filter (λ s, drawing c s = true) (strokes b)) as [_ Hin]%list_elem_of_filter
    by (rewrite E; by left).
  rewrite Forall_forall in A. by apply A.
Qed.

Lemma set_order_typed `{HashOrder} (ms : gset ClientId) :
  set_Forall is_u64 ms → Forall is_u64 (set_order ms).
Proof. intros Hms. apply Forall_forall. intros c Hc%set_order_elem. by apply Hms. Qed.

Lemma emit_typed `{HashOrder} a c p :
  spec_typed a → spec_fits a → payload_typed p →
  Forall out_typed (spec_emit a c p).1 ∧ spec_typed (spec_emit a c p).2.
Proof.
  intros [A B C] [F1 F2] Hp. split; [|by split].
  unfold spec_emit, fanout. simpl. apply Forall_fmap, Forall_forall. simpl.
  intros m [_ Hm%set_order_elem]%list_elem_of_filter. split_and!; [done|by apply B| |done].
  unfold is_u64, in_width in *. simpl. lia.
Qed.

Lemma spec_typed_board a b : spec_typed a → board_typed b → spec_typed (sp_set_board (λ _, b) a).
Proof. by intros [A B C] Hb. Qed.
End Typed.

Create HintDb typed.
#[export] Hint Resolve board_typed_strokes board_typed_delete board_typed_move strokes_typed_map
  stroke_typed_finish stroke_typed_push ty_spec_board ty_strokes drawing_id_typed : typed.

Section Calls.
Context `{HashOrder} (P : Point → Prop).

Lemma join_typed a c :
  spec_typed P a → spec_fits a → is_u64 c →
  spec_typed P (spec_join c a).2 ∧ reply_typed P (spec_join c a).1.
Proof.
  intros [A B C] [F1 F2] Hc.
  assert (set_Forall is_u64 (sp_members a ∪ {[c]})) as Hms by (apply set_Forall_union; [done|by apply set_Forall_singleton]).
  split; split; simpl; try done; [|by apply set_order_typed].
  unfold is_u64, in_width in *. lia.
Qed.

Lemma leave_typed a c :
  spec_typed P a → spec_fits a → is_u64 c →
  spec_typed P (spec_leave c a).2 ∧ reply_typed P (spec_leave c a).1.
Proof.
  intros T [F1 F2] Hc. pose proof T as [A B C]. unfold spec_leave. case_bool_decide; [done|].
  assert (∀ b seq st last, board_typed P b → spec_typed P (mkSpecRoom (sp_id a) (sp_members a ∖ {[c]}) b seq st last)) as Ha.
  { intros. split; [done| |done]. intros m Hm. apply B. set_solver. }
  destruct (drawing_id c (sp_board a)) as [sid|] eqn:Hd.
  - pose proof (drawing_id_typed _ _ _ _ C Hd) as Hsid.
    set (b := on_strokes (map_drawing c set_finished) (sp_board a)).
    assert (board_typed P b) as Hb by (unfold b; eauto with typed).
    destruct (emit_typed P (sp_set_board (λ _, b) a) c (StrokeEndOut c sid)) as [H1 _]; [by split|by split|done|].
    set (a2 := mkSpecRoom (sp_id a) (sp_members a ∖ {[c]}) (on_cursors (delete c) b) (sp_seq a + 1)
      (sp_strokes a) (delete c (sp_lastMove a))).
    assert (Forall (out_typed P) (fanout (sp_id a2) (sp_members a2) c (sp_seq a2 + 1) (MemberLeftOut c))) as H2.
    { apply Forall_fmap, Forall_forall. simpl. intros m [_ Hm%set_order_elem]%list_elem_of_filter.
      split_and!; [done|apply B; set_solver| |done]. unfold is_u64, in_width. simpl. lia. }
    split; [apply Ha; auto with typed|]. apply Forall_app. split; [exact H1|exact H2].
  - destruct (emit_typed P (mkSpecRoom (sp_id a) (sp_members a ∖ {[c]}) (on_cursors (delete c) (sp_board a))
      (sp_seq a) (sp_strokes a) (delete c (sp_lastMove a))) c (MemberLeftOut c)) as [H1 H2];
      [apply Ha; auto with typed|by split|done|]. split; [exact H2|exact H1].
Qed.

Lemma apply_typed a now c ev :
  spec_typed P a → spec_fits a → is_u64 c → event_typed P ev →
  spec_typed P (spec_apply now c ev a).2 ∧ reply_typed P (spec_apply now c ev a).1.
Proof.
  intros T F Hc He. pose proof T as [A B C]. pose proof F as [F1 F2]. unfold spec_apply.
  case_bool_decide; [|done].
  assert (∀ st b last p, board_typed P b → 0 ≤ st ≤ sp_seq a → payload_typed P p →
    let r := spec_ok (spec_emit (mkSpecRoom (sp_id a) (sp_members a) b (sp_seq a) st last) c p) in
    spec_typed P r.2 ∧ reply_typed P r.1) as Hok.
  { intros st b last p Hb Hst Hp r.
    destruct (emit_typed P (mkSpecRoom (sp_id a) (sp_members a) b (sp_seq a) st last) c p) as [H1 H2];
      [by split|by split|done|]. by split. }
  assert (∀ st b last p, board_typed P b → st = sp_strokes a + 1 → payload_typed P p →
    let r := spec_ok (spec_emit (mkSpecRoom (sp_id a) (sp_members a) b (sp_seq a) st last) c p) in
    spec_typed P r.2 ∧ reply_typed P r.1) as Hbegin.
  { intros st b last p Hb -> Hp r. destruct (Hok 0 b last p Hb ltac:(lia) Hp) as [[T1 T2 T3] T4].
    split; [by split|exact T4]. }
  assert (is_u64 (sp_seq a + 1) ∧ is_u64 (sp_strokes a + 1)) as [Hn Hs] by (unfold is_u64, in_width; lia).
  destruct ev as [col th p|p| |p|]; unfold spec_begin, spec_point, spec_end, spec_move, spec_clear.
  - destruct (is_drawing _ _); [done|]. destruct He as (Hcol & Hth & Hp). apply Hbegin; [|done|by split_and!].
    apply board_typed_strokes; [|done]. apply Forall_app. split; [apply C|]. apply Forall_singleton.
    split; try done. by apply Forall_singleton.
  - destruct (drawing_id c (sp_board a)) as [sid|] eqn:Hd; [|done].
    pose proof (drawing_id_typed _ _ _ _ C Hd). apply Hok; [|lia|done].
    apply board_typed_strokes; [|done]. apply strokes_typed_map; [|apply C]. intros s. by apply stroke_typed_push.
  - destruct (drawing_id c (sp_board a)) as [sid|] eqn:Hd; [|done].
    pose proof (drawing_id_typed _ _ _ _ C Hd). apply Hok; [eauto with typed|lia|done].
  - match goal with |- context [if ?b then _ else _] => destruct b end; [by split; [|constructor]|].
    apply Hok; [by apply board_typed_move|lia|done].
  - apply Hok; [by apply board_typed_strokes|lia|done].
Qed.

Lemma spec_call_typed op a :
  spec_typed P a → spec_fits a → op_typed P op →
  spec_typed P (spec_call op a).2 ∧ reply_typed P (spec_call op a).1.
Proof.
  intros T F [Hc Ho]. destruct op as [c|c|now c ev]; [by apply join_typed|by apply leave_typed|by apply apply_typed].
Qed.

Definition room_typed (r : Room) : Prop := spec_typed P (abs_room r).

Lemma room_call_typed op r y r' :
  room_wf r → headroom 2 r → room_typed r → op_typed P op → room_call op r = Some (y, r') →
  room_typed r' ∧ reply_typed P y.
Proof.
  intros wf hr T Ho E. destruct (room_call_refines op r wf hr) as (y' & r1 & E' & S & _). simplify_eq.
  destruct (spec_call_typed op (abs_room r) T) as [T1 T2]; [|done|].
  - pose proof (wf_counters _ wf). unfold headroom in hr. split; simpl; lia.
  - by rewrite S in T1, T2.
Qed.
End Calls.

(** ** The core *)

Section Core.
Context `{HashOrder} {Σ : Type} `{SnapshotSink Σ} (P : Point → Prop).
Implicit Types s : @ServerCore Σ.

(** The rooms are typed, and so are the snapshots the sink was given. *)
Definition core_typed s : Prop := ∀ room r, core_room s room = Some r → room_typed P r.
Definition log_typed s : Prop := Forall (saved_typed P) (core_log s).

Lemma new_core_typed sink : core_typed (new_core sink).
Proof. intros room r. unfold core_room, new_core. simpl. by rewrite lookup_empty. Qed.

Lemma room_saved_typed r :
  room_typed P r → room_wf r → nextSeq_ r < 2 ^ 64 → saved_typed P (makePersistedSnapshot r).
Proof.
  intros [A B C] wf hr. pose proof (wf_counters _ wf). split; simpl; [done| |apply C].
  unfold lastSeq, is_u64, in_width. case_bool_decide; lia.
Qed.

Lemma core_call_typed op k s y s' :
  core_wf s → core_headroom k s → 1 ≤ k → core_op_typed P op → core_call op s = Some (y, s') →
  core_typed s → core_typed s' ∧ core_reply_typed P y ∧ (log_typed s → log_typed s').
Proof.
  intros wf hr Hk Ho E T. destruct op as [|room op].
  - rewrite createRoom_step in E by (done || destruct hr; lia). injection E as <- <-.
    pose proof (cw_next s wf). destruct hr as [hn _].
    assert (is_u64 (nextRoomId_ (core_rooms s))) by (unfold is_u64, in_width; lia).
    split_and!; [|done|done].
    intros room r. unfold core_room. simpl. rewrite lookup_insert. case_decide; [|by apply T].
    intros [= <-]. split; [done|by intros ?|]. split; simpl; [done|apply map_Forall_empty].
  - destruct (core_room s room) as [r|] eqn:Er.
    2:{ rewrite core_call_missing in E by done. injection E as <- <-. split_and!; [done| |done]. by destruct op. }
    destruct (cw_room s wf room r Er) as [Hid wr].
    assert (headroom (2 * k) r) as hrr by by apply (proj2 hr room).
    assert (headroom 2 r) as h2 by (unfold headroom in *; lia).
    destruct (room_call_refines op r wr h2) as (y' & r' & E' & _ & wr' & Hle).
    rewrite (core_call_present s room op r y' r') in E by done. injection E as <- <-.
    destruct (room_call_typed P op r y' r' wr h2 (T _ _ Er) Ho E') as [Tr Ty].
    split_and!; [|done|].
    + intros room' r1. rewrite core_room_save, core_room_set. case_bool_decide; [by intros [= <-]|by apply T].
    + intros Hl. unfold log_typed. rewrite core_log_save. apply Forall_app. split; [exact Hl|].
      case_match; constructor; [|constructor]. apply room_saved_typed; [done..|].
      unfold headroom in *. lia.
Qed.

Lemma core_calls_typed ops k s ys s' :
  core_wf s → core_headroom k s → Z.of_nat (length ops) ≤ k → Forall (core_op_typed P) ops →
  core_calls ops s = Some (ys, s') → core_typed s →
  core_typed s' ∧ Forall (core_reply_typed P) ys ∧ (log_typed s → log_typed s').
Proof.
  intros wf hr Hk HT E T.
  destruct (core_calls_inv (λ s', core_typed s' ∧ (log_typed s → log_typed s'))
    (core_op_typed P) (core_reply_typed P) ops k s ys s') as ([? ?] & ? & _); try done.
  intros op k1 s1 y s2 wf1 hr1 Hk1 Ho E1 [T1 L1].
  destruct (core_call_typed op k1 s1 y s2 wf1 hr1 Hk1 Ho E1 T1) as (? & ? & ?). naive_solver.
Qed.
End Core.
