(* ===== verification/Messages.v ===== *)
(** * Transport messages

    [transport/include/clearspace/transport/messages.hpp]: the messages of the
    wire protocol, before they are written as JSON.  Colours and thicknesses
    are bytes here. *)
From S2P Require Import Prelude CoreTypes.

Record PointDto := mkPointDto { dto_x : Z; dto_y : Z }.

Record CursorDto := mkCursorDto { cur_client : ClientId; cur_point : PointDto }.

Record StrokeDto := mkStrokeDto {
  dto_id : StrokeId;
  dto_author : ClientId;
  dto_color : Z;
  dto_thickness : Z;
  dto_strokeOrder : Seq;
  dto_points : list PointDto;
  dto_finished : bool;
}.

Inductive ClientMessage :=
  | PingRequest
  | CreateRoomRequest
  | JoinRoomRequest (room : RoomId)
  | LeaveRoomRequest (room : RoomId)
  | StrokeBeginRequest (room : RoomId) (color thickness : Z) (start : PointDto)
  | StrokePointRequest (room : RoomId) (point : PointDto)
  | StrokeEndRequest (room : RoomId)
  | CursorMoveRequest (room : RoomId) (point : PointDto)
  | ClearRequest (room : RoomId).

Record RoomSnapshotResponse := mkRoomSnapshotResponse {
  rsp_room : RoomId;
  rsp_lastSeq : Seq;
  rsp_members : list ClientId;
  rsp_strokes : list StrokeDto;
  rsp_cursors : list CursorDto;
}.

Inductive ServerMessage :=
  | PongResponse
  | RoomCreatedResponse (room : RoomId)
  | OkResponse (request : string) (room : RoomId)
  | ErrorResponse (code message : string)
  | SnapshotResponse (snap : RoomSnapshotResponse)
  | StrokeBeginEvent (room : RoomId) (seq : Seq) (author : ClientId) (id : StrokeId)
      (order : Seq) (color thickness : Z) (start : PointDto)
  | StrokePointEvent (room : RoomId) (seq : Seq) (author : ClientId) (id : StrokeId)
      (point : PointDto)
  | StrokeEndEvent (room : RoomId) (seq : Seq) (author : ClientId) (id : StrokeId)
  | CursorMoveEvent (room : RoomId) (seq : Seq) (author : ClientId) (point : PointDto)
  | ClearEvent (room : RoomId) (seq : Seq) (author : ClientId)
  | MemberLeftEvent (room : RoomId) (seq : Seq) (client : ClientId).

#[export] Instance PointDto_eq_dec : EqDecision PointDto.
Proof. solve_decision. Defined.
#[export] Instance CursorDto_eq_dec : EqDecision CursorDto.
Proof. solve_decision. Defined.
#[export] Instance StrokeDto_eq_dec : EqDecision StrokeDto.
Proof. solve_decision. Defined.
#[export] Instance ClientMessage_eq_dec : EqDecision ClientMessage.
Proof. solve_decision. Defined.
#[export] Instance RoomSnapshotResponse_eq_dec : EqDecision RoomSnapshotResponse.
Proof. solve_decision. Defined.
#[export] Instance ServerMessage_eq_dec : EqDecision ServerMessage.
Proof. solve_decision. Defined.
