(* ===== verification/Mappers.v ===== *)
(** * Mappers

    [transport/src/mappers.cpp]: requests become core events, core events and
    snapshots become messages.  The theorems at the end of the file say that
    requests are validated, that nothing a client needs is lost, and that the
    message of a snapshot does not depend on the order of the hash tables. *)
From S2P Require Import Prelude CoreTypes Room RoomSpec RoomRefine Messages.

(** ** Requests to core events *)

Definition toColor (color : Z) : Expected Color Error :=
  if bool_decide (color > color_to_u8 Blue) then Unexpected (invalidParams "invalid color")
  else Value (color_of_u8 color).

Definition toThickness (thickness : Z) : Expected Thickness Error :=
  if bool_decide (thickness > thickness_to_u8 Thick)
  then Unexpected (invalidParams "invalid thickness")
  else Value (thickness_of_u8 thickness).

Definition toCorePoint (p : PointDto) : Point := mkPoint (dto_x p) (dto_y p).

(** [toCoreEvent(const StrokeBeginRequest&)]. *)
Definition toCoreEvent_StrokeBegin (color thickness : Z) (start : PointDto) :
    Expected EventPayload Error :=
  match toColor color with
  | Unexpected e => Unexpected e
  | Value col =>
      match toThickness thickness with
      | Unexpected e => Unexpected e
      | Value th => Value (StrokeBegin col th (toCorePoint start))
      end
  end.

(** The other overloads of [toCoreEvent]. *)
Definition toCoreEvent_StrokePoint (point : PointDto) : Expected EventPayload Error :=
  Value (StrokePoint (toCorePoint point)).
Definition toCoreEvent_StrokeEnd : Expected EventPayload Error := Value StrokeEnd.
Definition toCoreEvent_CursorMove (point : PointDto) : Expected EventPayload Error :=
  Value (CursorMove (toCorePoint point)).
Definition toCoreEvent_Clear : Expected EventPayload Error := Value Clear.

(** ** Core data to messages *)

Definition fromCorePoint (p : Point) : PointDto := mkPointDto (px p) (py p).

Definition fromCoreStroke (s : Stroke) : StrokeDto :=
  mkStrokeDto (stroke_id s) (stroke_author s) (color_to_u8 (stroke_color s))
    (thickness_to_u8 (stroke_thickness s)) (strokeOrder s) (fromCorePoint <$> points s)
    (finished s).

Definition errorCodeToString (code : ErrorCode) : string :=
  match code with
  | RoomNotFound => "room_not_found"
  | NotInRoom => "not_in_room"
  | ProtocolViolation => "protocol_violation"
  | InvalidParams => "invalid_params"
  end.

Definition toErrorMessage (e : Error) : ServerMessage :=
  ErrorResponse (errorCodeToString (error_code e)) (error_message e).

Definition toServerMessage (ev : OutgoingEvent) : ServerMessage :=
  match ev_payload ev with
  | StrokeBeginOut author id order color thickness start =>
      StrokeBeginEvent (ev_room ev) (ev_seq ev) author id order
        (color_to_u8 color) (thickness_to_u8 thickness) (fromCorePoint start)
  | StrokePointOut author id p =>
      StrokePointEvent (ev_room ev) (ev_seq ev) author id (fromCorePoint p)
  | StrokeEndOut author id => StrokeEndEvent (ev_room ev) (ev_seq ev) author id
  | CursorMoveOut author p => CursorMoveEvent (ev_room ev) (ev_seq ev) author (fromCorePoint p)
  | ClearOut author => ClearEvent (ev_room ev) (ev_seq ev) author
  | MemberLeftOut client => MemberLeftEvent (ev_room ev) (ev_seq ev) client
  end.

(** The comparison [std::sort] uses for cursors. *)
Definition cursor_le (a b : CursorDto) : Prop := cur_client a ≤ cur_client b.

#[export] Instance cursor_le_dec a b : Decision (cursor_le a b).
Proof. unfold cursor_le. apply _. Defined.

#[export] Instance cursor_le_total : Total cursor_le.
Proof. intros a b. unfold cursor_le. lia. Qed.

#[export] Instance cursor_le_trans : Transitive cursor_le.
Proof. intros a b c. unfold cursor_le. lia. Qed.

Section Snapshot.
Context `{HashOrder}.

Definition toSnapshotResponse (snap : RoomSnapshot) : RoomSnapshotResponse :=
  mkRoomSnapshotResponse (snap_room snap) (snap_lastSeq snap)
    (merge_sort Z.le (snap_members snap))
    (fromCoreStroke <$> strokes (snap_state snap))
    (merge_sort cursor_le
      ((λ '(client, point), mkCursorDto client (fromCorePoint point)) <$>
        map_order (cursors (snap_state snap)))).

Definition toSnapshotMessage (snap : RoomSnapshot) : ServerMessage :=
  SnapshotResponse (toSnapshotResponse snap).

End Snapshot.

(** ** What a client reads back *)

Definition readPoint (p : PointDto) : Point := mkPoint (dto_x p) (dto_y p).

Definition readStroke (d : StrokeDto) : Stroke :=
  mkStroke (dto_id d) (dto_author d) (color_of_u8 (dto_color d))
    (thickness_of_u8 (dto_thickness d)) (dto_strokeOrder d) (readPoint <$> dto_points d)
    (dto_finished d).

Definition readBoard (r : RoomSnapshotResponse) : BoardState :=
  mkBoardState (readStroke <$> rsp_strokes r)
    (list_to_map ((λ c, (cur_client c, readPoint (cur_point c))) <$> rsp_cursors r)).

(** The room, number and payload of an event message. *)
Definition readEvent (m : ServerMessage) : option (RoomId * Seq * ServerEventPayload) :=
  match m with
  | StrokeBeginEvent room seq author id order color thickness start =>
      Some (room, seq, StrokeBeginOut author id order (color_of_u8 color)
        (thickness_of_u8 thickness) (readPoint start))
  | StrokePointEvent room seq author id p => Some (room, seq, StrokePointOut author id (readPoint p))
  | StrokeEndEvent room seq author id => Some (room, seq, StrokeEndOut author id)
  | CursorMoveEvent room seq author p => Some (room, seq, CursorMoveOut author (readPoint p))
  | ClearEvent room seq author => Some (room, seq, ClearOut author)
  | MemberLeftEvent room seq client => Some (room, seq, MemberLeftOut client)
  | _ => None
  end.

(** Values of the enumerations in canonical form: an enumerator, or a byte
    that is none. *)
Definition color_ok (c : Color) : Prop := color_of_u8 (color_to_u8 c) = c.
Definition thickness_ok (t : Thickness) : Prop := thickness_of_u8 (thickness_to_u8 t) = t.
Definition stroke_style_ok (s : Stroke) : Prop :=
  color_ok (stroke_color s) ∧ thickness_ok (stroke_thickness s).
Definition payload_style_ok (p : ServerEventPayload) : Prop :=
  match p with StrokeBeginOut _ _ _ c t _ => color_ok c ∧ thickness_ok t | _ => True end.

(** ** Lemmas *)

Lemma readPoint_fromCorePoint p : readPoint (fromCorePoint p) = p.
Proof. by destruct p. Qed.

Lemma readStroke_fromCoreStroke s : stroke_style_ok s → readStroke (fromCoreStroke s) = s.
Proof.
  intros [Hc Ht]. destruct s as [id a c t o ps f]. unfold readStroke, fromCoreStroke. simpl in *.
  rewrite Hc, Ht, <-list_fmap_compose. f_equal.
  rewrite <-(list_fmap_id ps) at 2. apply list_fmap_ext. intros. apply readPoint_fromCorePoint.
Qed.

Lemma merge_sort_eq {A} (R : relation A) `{!RelDecision R, !Total R, !Transitive R} (l1 l2 : list A) :
  (∀ x y, x ∈ l1 → y ∈ l1 → R x y → R y x → x = y) → l1 ≡ₚ l2 → merge_sort R l1 = merge_sort R l2.
Proof.
  intros Hanti Hp. apply (Sorted_unique_strong R).
  - intros x y Hx Hy. apply Hanti.
    + by rewrite <-(merge_sort_Permutation R l1).
    + by rewrite Hp, <-(merge_sort_Permutation R l2).
  - by apply Sorted_merge_sort.
  - by apply Sorted_merge_sort.
  - by rewrite !merge_sort_Permutation.
Qed.

Lemma map_order_NoDup `{HashOrder} {A} (m : gmap Z A) : NoDup (map_order m).*1.
Proof. rewrite map_order_perm. apply NoDup_fst_map_to_list. Qed.

Lemma map_order_elem `{HashOrder} {A} (m : gmap Z A) k x : (k, x) ∈ map_order m ↔ m !! k = Some x.
Proof. by rewrite map_order_perm, elem_of_map_to_list. Qed.

(** The cursors of a snapshot message, before sorting. *)
Abbreviation cursor_dtos l :=
  ((λ '(client, point), mkCursorDto client (fromCorePoint point)) <$> l).

Lemma cursor_dtos_inj (l : list (Z * Point)) x y :
  NoDup l.*1 → x ∈ cursor_dtos l → y ∈ cursor_dtos l → cur_client x = cur_client y → x = y.
Proof.
  intros Hnd ([c p] & -> & Hx)%list_elem_of_fmap ([d q] & -> & Hy)%list_elem_of_fmap. simpl. intros <-.
  assert ((list_to_map l : gmap Z Point) !! c = Some p) by by apply elem_of_list_to_map_1.
  assert ((list_to_map l : gmap Z Point) !! c = Some q) by by apply elem_of_list_to_map_1.
  by simplify_eq.
Qed.

Lemma cursor_dtos_sort_eq (l1 l2 : list (Z * Point)) :
  NoDup l1.*1 → l1 ≡ₚ l2 → merge_sort cursor_le (cursor_dtos l1) = merge_sort cursor_le (cursor_dtos l2).
Proof.
  intros Hnd Hp. apply (merge_sort_eq cursor_le); [|by rewrite Hp].
  unfold cursor_le. intros x y Hx Hy ? ?. apply (cursor_dtos_inj l1); [done..|lia].
Qed.

(** Reading the sorted cursors rebuilds the map. *)
Lemma read_cursors `{HashOrder} (m : gmap Z Point) :
  list_to_map ((λ c, (cur_client c, readPoint (cur_point c))) <$>
    merge_sort cursor_le (cursor_dtos (map_order m))) = m.
Proof.
  transitivity (list_to_map (map_order m) : gmap Z Point).
  - apply list_to_map_proper.
    + rewrite merge_sort_Permutation, <-!list_fmap_compose.
      rewrite (list_fmap_ext _ fst); [apply map_order_NoDup|]. by intros ? [].
    + rewrite merge_sort_Permutation, <-list_fmap_compose.
      rewrite (list_fmap_ext _ id); [by rewrite list_fmap_id|]. by intros ? [c []].
  - rewrite <-(list_to_map_to_list m) at 2. apply list_to_map_proper; [apply map_order_NoDup|].
    apply map_order_perm.
Qed.

(** ** The theorems *)

(** A stroke request is accepted exactly for the four colours and three
    thicknesses, as the enumerator with that value; otherwise the error is
    [InvalidParams], about the colour first. *)
Theorem toCoreEvent_validates (c t : Z) (p : PointDto) :
  is_u8 c → is_u8 t →
  match toCoreEvent_StrokeBegin c t p with
  | Value ev =>
      c ≤ 3 ∧ t ≤ 2 ∧ ∃ col th, ev = StrokeBegin col th (toCorePoint p) ∧
        col ∈ [Black; Red; Green; Blue] ∧ th ∈ [Thin; Medium; Thick] ∧
        color_to_u8 col = c ∧ thickness_to_u8 th = t
  | Unexpected e =>
      (e = invalidParams "invalid color" ∧ 3 < c) ∨
      (e = invalidParams "invalid thickness" ∧ c ≤ 3 ∧ 2 < t)
  end.
Proof.
  intros [Hc _] [Ht _]. unfold toCoreEvent_StrokeBegin, toColor, toThickness. simpl.
  case_bool_decide as H1; [left; split; [done|lia]|].
  case_bool_decide as H2; [right; split_and!; [done|lia|lia]|].
  split_and!; [lia..|]. exists (color_of_u8 c), (thickness_of_u8 t).
  split_and!; [done| | |by apply color_u8_roundtrip|by apply thickness_u8_roundtrip].
  - assert (c = 0 ∨ c = 1 ∨ c = 2 ∨ c = 3) as [->|[->|[->| ->]]] by lia; simpl; set_solver.
  - assert (t = 0 ∨ t = 1 ∨ t = 2) as [->|[->| ->]] by lia; simpl; set_solver.
Qed.

(** The message of an event carries its room, number and payload: a
    client reads back exactly the event the room sent. *)
Theorem toServerMessage_readEvent (ev : OutgoingEvent) :
  payload_style_ok (ev_payload ev) →
  readEvent (toServerMessage ev) = Some (ev_room ev, ev_seq ev, ev_payload ev).
Proof.
  destruct ev as [room to seq []]; unfold toServerMessage; simpl;
    [intros [-> ->]|intros _..]; by rewrite ?readPoint_fromCorePoint.
Qed.

(** The message of a snapshot carries the whole board: a client reads
    back exactly the strokes and cursors; members and cursors are sorted. *)
Theorem toSnapshotResponse_readBoard `{HashOrder} (snap : RoomSnapshot) :
  Forall stroke_style_ok (strokes (snap_state snap)) →
  readBoard (toSnapshotResponse snap) = snap_state snap ∧
  rsp_members (toSnapshotResponse snap) ≡ₚ snap_members snap ∧
  StronglySorted Z.le (rsp_members (toSnapshotResponse snap)) ∧
  StronglySorted cursor_le (rsp_cursors (toSnapshotResponse snap)).
Proof.
  intros Hs. split_and!.
  - unfold readBoard, toSnapshotResponse. simpl. rewrite read_cursors.
    destruct snap as [room n [ss cs] ms]. simpl in *. f_equal.
    rewrite <-list_fmap_compose. transitivity (id <$> ss); [|apply list_fmap_id].
    apply Forall_fmap_ext_1.
    eapply Forall_impl; [exact Hs|]. intros s Hok. by apply readStroke_fromCoreStroke.
  - apply (merge_sort_Permutation Z.le).
  - apply (StronglySorted_merge_sort Z.le).
  - apply (StronglySorted_merge_sort cursor_le).
Qed.

(** The snapshot message of a join does not depend on the iteration order
    of the hash tables. *)
Theorem join_message_deterministic (H1 H2 : HashOrder) (r : Room) (c : ClientId) s1 r1 s2 r2 :
  @join H1 c r = Some (Value s1, r1) → @join H2 c r = Some (Value s2, r2) →
  @toSnapshotMessage H1 s1 = @toSnapshotMessage H2 s2.
Proof.
  unfold join. run_m. intros E1 E2. simplify_eq. unfold toSnapshotMessage, toSnapshotResponse. simpl.
  do 2 f_equal.
  - apply (merge_sort_eq Z.le); [intros; lia|]. by rewrite !set_order_perm.
  - apply cursor_dtos_sort_eq; [apply map_order_NoDup|]. by rewrite !map_order_perm.
Qed.

(** ** Witnesses *)

Lemma toCoreEvent_validates_witness :
  is_u8 2 ∧ is_u8 7 ∧
  toCoreEvent_StrokeBegin 2 7 (mkPointDto 0 0) = Unexpected (invalidParams "invalid thickness").
Proof.
  pose proof (toCoreEvent_validates 2 7 (mkPointDto 0 0) ltac:(by_decision) ltac:(by_decision)) as H.
  split; [by_decision|split; [by_decision|]]. simpl in H. destruct H as [[_ H]|[_ _]]; [lia|done].
Defined.

Definition demo_event : OutgoingEvent :=
  mkOutgoingEvent 1 2 5 (StrokeBeginOut 3 1 5 Blue Thick (mkPoint 0 0)).

Lemma toServerMessage_readEvent_witness :
  payload_style_ok (ev_payload demo_event) ∧
  readEvent (toServerMessage demo_event) = Some (1, 5, ev_payload demo_event).
Proof. split; [done|]. by apply toServerMessage_readEvent. Defined.

Definition demo_room_snapshot : RoomSnapshot :=
  mkRoomSnapshot 1 5
    (mkBoardState [mkStroke 1 3 Blue Thick 5 [mkPoint 0 0; mkPoint 1 1] false]
       {[3 := mkPoint 4 4; 2 := mkPoint 0 1]}) [3; 2].

Lemma toSnapshotResponse_readBoard_witness :
  Forall stroke_style_ok (strokes (snap_state demo_room_snapshot)) ∧
  readBoard (@toSnapshotResponse reverse_order demo_room_snapshot) = snap_state demo_room_snapshot.
Proof.
  assert (Forall stroke_style_ok (strokes (snap_state demo_room_snapshot))) as Hs
    by (repeat constructor).
  split; [exact Hs|]. by apply (@toSnapshotResponse_readBoard reverse_order).
Defined.

(** A room iterated in two orders: two members and two cursors. *)
Definition demo_mapper_room : Room :=
  mkRoom 1 {[3; 2]} (mkBoardState [] {[3 := mkPoint 4 4; 2 := mkPoint 0 1]}) 5 2 ∅ ∅ ∅.

Lemma join_message_deterministic_witness :
  ∃ s1 r1 s2 r2,
    @join elements_order 4 demo_mapper_room = Some (Value s1, r1) ∧
    @join reverse_order 4 demo_mapper_room = Some (Value s2, r2) ∧
    snap_members s1 ≠ snap_members s2 ∧
    @toSnapshotMessage elements_order s1 = @toSnapshotMessage reverse_order s2.
Proof.
  do 4 eexists. split; [reflexivity|]. split; [reflexivity|]. split; [by_decision|].
  by eapply (join_message_deterministic elements_order reverse_order demo_mapper_room 4).
Defined.
