(* ===== verification/JsonProtocol.v ===== *)
(** * JSON protocol

    [transport/src/json_protocol.cpp]: requests are read from one line of JSON,
    server messages are written as JSON.  The JSON values themselves are
    nlohmann::json, which is not part of the repository: [JsonLib] lists the
    operations the code calls, [JsonLaws] what it relies on.  An operation that
    may throw [json::exception] returns an option (or, for [parse], the text of
    the exception). *)
From S2P Require Import Prelude CoreTypes Messages.

#[local] Open Scope string_scope.

(** ** The library *)

Class JsonLib := {
  json : Type;
  json_parse : string → json + string;
  json_dump : json → option string;
  json_is_object : json → bool;
  (** [contains(key)] and [at(key)] *)
  json_at : json → string → option json;
  (** [get<std::string>()], [get<std::uint64_t>()], [get<unsigned int>()], [get<float>()] *)
  get_string : json → option string;
  get_u64 : json → option Z;
  get_uint : json → option Z;
  get_float : json → option Z;
  json_of_string : string → json;
  json_of_uint : Z → json;
  json_of_float : Z → json;
  json_of_bool : bool → json;
  json_array : list json → json;
  json_object : list (string * json) → json;
}.

(** ** Errors *)

Inductive ProtocolErrorCode :=
  | InvalidJson | MissingField | InvalidFieldType | UnknownMessageType | InvalidMessage.

Record ProtocolError := mkProtocolError {
  perr_code : ProtocolErrorCode;
  perr_message : string;
}.

Definition perr_invalidJson (msg : string) : ProtocolError := mkProtocolError InvalidJson msg.
Definition perr_missingField (msg : string) : ProtocolError := mkProtocolError MissingField msg.
Definition perr_invalidFieldType (msg : string) : ProtocolError := mkProtocolError InvalidFieldType msg.
Definition perr_unknownMessageType (msg : string) : ProtocolError :=
  mkProtocolError UnknownMessageType msg.
Definition perr_invalidMessage (msg : string) : ProtocolError := mkProtocolError InvalidMessage msg.

Definition invalidFieldType (key : string) : ProtocolError :=
  perr_invalidFieldType ("invalid field type: " +:+ key).

Section Protocol.
Context `{JsonLib}.

(** ** Reading requests *)

(** [getRequired<T>(object, key)], with [get] for [json::get<T>]. *)
Definition getRequired {T} (get : json → option T) (object : json) (key : string) :
    Expected T ProtocolError :=
  match json_at object key with
  | None => Unexpected (perr_missingField ("missing field: " +:+ key))
  | Some v =>
      match get v with
      | Some x => Value x
      | None => Unexpected (invalidFieldType key)
      end
  end.

(** [auto x = e; if (!x) return x.error();] *)
Definition bind_expected {A B E} (e : Expected A E) (k : A → Expected B E) : Expected B E :=
  match e with
  | Value x => k x
  | Unexpected err => Unexpected err
  end.

Definition getRequiredPoint (object : json) (key : string) : Expected PointDto ProtocolError :=
  match json_at object key with
  | None => Unexpected (perr_missingField ("missing field: " +:+ key))
  | Some pointObject =>
      if negb (json_is_object pointObject) then Unexpected (invalidFieldType key) else
      bind_expected (getRequired get_float pointObject "x") (λ x,
      bind_expected (getRequired get_float pointObject "y") (λ y,
      Value (mkPointDto x y)))
  end.

Definition parseClientMessage (line : string) : Expected ClientMessage ProtocolError :=
  match json_parse line with
  | inr what => Unexpected (perr_invalidJson what)
  | inl object =>
      if negb (json_is_object object)
      then Unexpected (perr_invalidJson "root json value must be an object") else
      bind_expected (getRequired get_string object "type") (λ type,
      if bool_decide (type = "ping") then Value PingRequest else
      if bool_decide (type = "create_room") then Value CreateRoomRequest else
      if bool_decide (type = "join_room") then
        bind_expected (getRequired get_u64 object "room") (λ room,
        Value (JoinRoomRequest room)) else
      if bool_decide (type = "leave_room") then
        bind_expected (getRequired get_u64 object "room") (λ room,
        Value (LeaveRoomRequest room)) else
      if bool_decide (type = "stroke_begin") then
        bind_expected (getRequired get_u64 object "room") (λ room,
        bind_expected (getRequired get_uint object "color") (λ color,
        bind_expected (getRequired get_uint object "thickness") (λ thickness,
        bind_expected (getRequiredPoint object "start") (λ start,
        if bool_decide (color > 255) || bool_decide (thickness > 255)
        then Unexpected (perr_invalidFieldType "color or thickness is out of range")
        else Value (StrokeBeginRequest room (u8 color) (u8 thickness) start))))) else
      if bool_decide (type = "stroke_point") then
        bind_expected (getRequired get_u64 object "room") (λ room,
        bind_expected (getRequiredPoint object "point") (λ point,
        Value (StrokePointRequest room point))) else
      if bool_decide (type = "stroke_end") then
        bind_expected (getRequired get_u64 object "room") (λ room,
        Value (StrokeEndRequest room)) else
      if bool_decide (type = "cursor_move") then
        bind_expected (getRequired get_u64 object "room") (λ room,
        bind_expected (getRequiredPoint object "point") (λ point,
        Value (CursorMoveRequest room point))) else
      if bool_decide (type = "clear") then
        bind_expected (getRequired get_u64 object "room") (λ room,
        Value (ClearRequest room)) else
      Unexpected (perr_unknownMessageType ("unknown message type: " +:+ type)))
  end.

(** ** Writing messages *)

Definition makePointJson (p : PointDto) : json :=
  json_object [("x", json_of_float (dto_x p)); ("y", json_of_float (dto_y p))].

Definition makeStrokeJson (s : StrokeDto) : json :=
  json_object
    [("id", json_of_uint (dto_id s));
     ("author", json_of_uint (dto_author s));
     ("color", json_of_uint (dto_color s));
     ("thickness", json_of_uint (dto_thickness s));
     ("stroke_order", json_of_uint (dto_strokeOrder s));
     ("points", json_array (makePointJson <$> dto_points s));
     ("finished", json_of_bool (dto_finished s))].

Definition makeCursorJson (c : CursorDto) : json :=
  json_object [("client", json_of_uint (cur_client c)); ("point", makePointJson (cur_point c))].

(** The object [serializeServerMessage] builds. *)
Definition serverMessageJson (msg : ServerMessage) : json :=
  match msg with
  | PongResponse => json_object [("type", json_of_string "pong")]
  | RoomCreatedResponse room =>
      json_object [("type", json_of_string "room_created"); ("room", json_of_uint room)]
  | OkResponse request room =>
      json_object [("type", json_of_string "ok"); ("request", json_of_string request);
                   ("room", json_of_uint room)]
  | ErrorResponse code message =>
      json_object [("type", json_of_string "error"); ("code", json_of_string code);
                   ("message", json_of_string message)]
  | SnapshotResponse r =>
      json_object
        [("type", json_of_string "room_snapshot");
         ("room", json_of_uint (rsp_room r));
         ("last_seq", json_of_uint (rsp_lastSeq r));
         ("members", json_array (json_of_uint <$> rsp_members r));
         ("strokes", json_array (makeStrokeJson <$> rsp_strokes r));
         ("cursors", json_array (makeCursorJson <$> rsp_cursors r))]
  | StrokeBeginEvent room seq author id order color thickness start =>
      json_object
        [("type", json_of_string "stroke_begin"); ("room", json_of_uint room);
         ("seq", json_of_uint seq); ("author", json_of_uint author);
         ("id", json_of_uint id); ("stroke_order", json_of_uint order);
         ("color", json_of_uint color); ("thickness", json_of_uint thickness);
         ("start", makePointJson start)]
  | StrokePointEvent room seq author id point =>
      json_object
        [("type", json_of_string "stroke_point"); ("room", json_of_uint room);
         ("seq", json_of_uint seq); ("author", json_of_uint author);
         ("id", json_of_uint id); ("point", makePointJson point)]
  | StrokeEndEvent room seq author id =>
      json_object
        [("type", json_of_string "stroke_end"); ("room", json_of_uint room);
         ("seq", json_of_uint seq); ("author", json_of_uint author); ("id", json_of_uint id)]
  | CursorMoveEvent room seq author point =>
      json_object
        [("type", json_of_string "cursor_move"); ("room", json_of_uint room);
         ("seq", json_of_uint seq); ("author", json_of_uint author);
         ("point", makePointJson point)]
  | ClearEvent room seq author =>
      json_object
        [("type", json_of_string "clear"); ("room", json_of_uint room);
         ("seq", json_of_uint seq); ("author", json_of_uint author)]
  | MemberLeftEvent room seq client =>
      json_object
        [("type", json_of_string "member_left"); ("room", json_of_uint room);
         ("seq", json_of_uint seq); ("client", json_of_uint client)]
  end.

(** [object.dump()] throws when a string is not UTF-8. *)
Definition serializeServerMessage (msg : ServerMessage) : option string :=
  json_dump (serverMessageJson msg).

End Protocol.
