(* ===== verification/JsonSpec.v ===== *)
(** * What the JSON protocol promises

    What the code relies on in nlohmann::json ([JsonLaws]), the reference
    client (an encoder of requests, a decoder of server messages) and the
    schema of the requests, with the lemmas that run them against the code. *)
From S2P Require Import Prelude CoreTypes Messages JsonProtocol.

#[local] Open Scope string_scope.

(** ** What the code relies on *)

Fixpoint find_key {A} (k : string) (kvs : list (string * A)) : option A :=
  match kvs with
  | [] => None
  | (k', v) :: kvs => if bool_decide (k' = k) then Some v else find_key k kvs
  end.

(** The exponent is not all ones: neither an infinity nor a NaN. *)
Definition float32_finite (bits : Z) : Prop :=
  is_u32 bits ∧ Z.land (Z.shiftr bits 23) 255 ≠ 255.

(** [json_plain] holds of the values that hold no infinity and no NaN, which
    the library writes as [null]; the others survive [dump] and [parse]. *)
Class JsonLaws `{JsonLib} := {
  json_plain : json → Prop;
  plain_string s : json_plain (json_of_string s);
  plain_uint n : json_plain (json_of_uint n);
  plain_float x : float32_finite x → json_plain (json_of_float x);
  plain_bool b : json_plain (json_of_bool b);
  plain_array l : Forall json_plain l → json_plain (json_array l);
  plain_object kvs : Forall json_plain kvs.*2 → json_plain (json_object kvs);
  parse_dump j line : json_plain j → json_dump j = Some line → json_parse line = inl j;
  object_is_object kvs : json_is_object (json_object kvs) = true;
  object_at kvs k : NoDup kvs.*1 → json_at (json_object kvs) k = find_key k kvs;
  string_get s : get_string (json_of_string s) = Some s;
  uint_get_u64 n : is_u64 n → get_u64 (json_of_uint n) = Some n;
  uint_get_uint n : is_u32 n → get_uint (json_of_uint n) = Some n;
  get_u64_range j n : get_u64 j = Some n → is_u64 n;
  get_uint_range j n : get_uint j = Some n → is_u32 n;
  get_float_range j x : get_float j = Some x → is_u32 x;   (* the bits of a float *)
  float_get x : float32_finite x → get_float (json_of_float x) = Some x;
}.

(** What a client also uses: reading arrays and booleans. *)
Class JsonClient `{JsonLaws} := {
  json_elements : json → option (list json);
  get_bool : json → option bool;
  array_elements l : json_elements (json_array l) = Some l;
  bool_get b : get_bool (json_of_bool b) = Some b;
}.

(** Strings that are text: [dump] throws on the others, [parse] refuses them, but
    the message of an exception of [parse] may quote the input.  [json_text]
    holds of the values all of whose strings are text. *)
Class JsonText `{JsonLib} := {
  text : string → Prop;
  text_ascii s : is_ascii s = true → text s;
  text_app s1 s2 : text s1 → text s2 → text (s1 +:+ s2);
  json_text : json → Prop;
  text_string s : text s → json_text (json_of_string s);
  text_uint n : json_text (json_of_uint n);
  text_float x : json_text (json_of_float x);
  text_bool b : json_text (json_of_bool b);
  text_array l : Forall json_text l → json_text (json_array l);
  text_object kvs : Forall text kvs.*1 → Forall json_text kvs.*2 → json_text (json_object kvs);
  dump_text j : json_text j → is_Some (json_dump j);
  parse_text line o k v s :
    json_parse line = inl o → json_at o k = Some v → get_string v = Some s → text s;
}.

(** ** The reference client: requests *)

Section Client.
Context `{JsonLib}.

Definition requestJson (m : ClientMessage) : json :=
  match m with
  | PingRequest => json_object [("type", json_of_string "ping")]
  | CreateRoomRequest => json_object [("type", json_of_string "create_room")]
  | JoinRoomRequest room =>
      json_object [("type", json_of_string "join_room"); ("room", json_of_uint room)]
  | LeaveRoomRequest room =>
      json_object [("type", json_of_string "leave_room"); ("room", json_of_uint room)]
  | StrokeBeginRequest room color thickness start =>
      json_object [("type", json_of_string "stroke_begin"); ("room", json_of_uint room);
        ("color", json_of_uint color); ("thickness", json_of_uint thickness);
        ("start", makePointJson start)]
  | StrokePointRequest room point =>
      json_object [("type", json_of_string "stroke_point"); ("room", json_of_uint room);
        ("point", makePointJson point)]
  | StrokeEndRequest room =>
      json_object [("type", json_of_string "stroke_end"); ("room", json_of_uint room)]
  | CursorMoveRequest room point =>
      json_object [("type", json_of_string "cursor_move"); ("room", json_of_uint room);
        ("point", makePointJson point)]
  | ClearRequest room =>
      json_object [("type", json_of_string "clear"); ("room", json_of_uint room)]
  end.
End Client.

Definition point_finite (p : PointDto) : Prop := float32_finite (dto_x p) ∧ float32_finite (dto_y p).

(** Requests whose fields fit their types. *)
Definition request_ok (m : ClientMessage) : Prop :=
  match m with
  | PingRequest | CreateRoomRequest => True
  | JoinRoomRequest room | LeaveRoomRequest room | StrokeEndRequest room | ClearRequest room =>
      is_u64 room
  | StrokeBeginRequest room color thickness start =>
      is_u64 room ∧ is_u8 color ∧ is_u8 thickness ∧ point_finite start
  | StrokePointRequest room point | CursorMoveRequest room point => is_u64 room ∧ point_finite point
  end.

Definition stroke_dto_ok (s : StrokeDto) : Prop :=
  is_u64 (dto_id s) ∧ is_u64 (dto_author s) ∧ is_u8 (dto_color s) ∧ is_u8 (dto_thickness s) ∧
  is_u64 (dto_strokeOrder s) ∧ Forall point_finite (dto_points s).

Definition cursor_dto_ok (c : CursorDto) : Prop := is_u64 (cur_client c) ∧ point_finite (cur_point c).

(** Messages whose numbers fit their types and whose coordinates are finite. *)
Definition message_ok (m : ServerMessage) : Prop :=
  match m with
  | PongResponse | ErrorResponse _ _ => True
  | RoomCreatedResponse room | OkResponse _ room => is_u64 room
  | SnapshotResponse r =>
      is_u64 (rsp_room r) ∧ is_u64 (rsp_lastSeq r) ∧ Forall is_u64 (rsp_members r) ∧
      Forall stroke_dto_ok (rsp_strokes r) ∧ Forall cursor_dto_ok (rsp_cursors r)
  | StrokeBeginEvent room seq author id order color thickness start =>
      is_u64 room ∧ is_u64 seq ∧ is_u64 author ∧ is_u64 id ∧ is_u64 order ∧
      is_u8 color ∧ is_u8 thickness ∧ point_finite start
  | StrokePointEvent room seq author id point =>
      is_u64 room ∧ is_u64 seq ∧ is_u64 author ∧ is_u64 id ∧ point_finite point
  | StrokeEndEvent room seq author id => is_u64 room ∧ is_u64 seq ∧ is_u64 author ∧ is_u64 id
  | CursorMoveEvent room seq author point =>
      is_u64 room ∧ is_u64 seq ∧ is_u64 author ∧ point_finite point
  | ClearEvent room seq author => is_u64 room ∧ is_u64 seq ∧ is_u64 author
  | MemberLeftEvent room seq client => is_u64 room ∧ is_u64 seq ∧ is_u64 client
  end.

(** ** The reference client: server messages *)

Section Decoder.
Context `{JsonClient}.

Definition field {T} (get : json → option T) (o : json) (k : string) : option T :=
  json_at o k ≫= get.
Definition list_of {T} (get : json → option T) (j : json) : option (list T) :=
  json_elements j ≫= mapM get.

Definition decodePoint (j : json) : option PointDto :=
  x ← field get_float j "x"; y ← field get_float j "y"; Some (mkPointDto x y).

Definition decodeStroke (j : json) : option StrokeDto :=
  id ← field get_u64 j "id"; author ← field get_u64 j "author";
  color ← field get_u64 j "color"; thickness ← field get_u64 j "thickness";
  order ← field get_u64 j "stroke_order"; points ← field (list_of decodePoint) j "points";
  fin ← field get_bool j "finished";
  Some (mkStrokeDto id author color thickness order points fin).

Definition decodeCursor (j : json) : option CursorDto :=
  client ← field get_u64 j "client"; point ← field decodePoint j "point";
  Some (mkCursorDto client point).

Definition decodeServerMessage (j : json) : option ServerMessage :=
  type ← field get_string j "type";
  let num := field get_u64 j in
  if bool_decide (type = "pong") then Some PongResponse else
  if bool_decide (type = "room_created") then room ← num "room"; Some (RoomCreatedResponse room) else
  if bool_decide (type = "ok") then
    request ← field get_string j "request"; room ← num "room"; Some (OkResponse request room) else
  if bool_decide (type = "error") then
    code ← field get_string j "code"; message ← field get_string j "message";
    Some (ErrorResponse code message) else
  if bool_decide (type = "room_snapshot") then
    room ← num "room"; last ← num "last_seq"; members ← field (list_of get_u64) j "members";
    strokes ← field (list_of decodeStroke) j "strokes";
    cursors ← field (list_of decodeCursor) j "cursors";
    Some (SnapshotResponse (mkRoomSnapshotResponse room last members strokes cursors)) else
  room ← num "room"; seq ← num "seq";
  if bool_decide (type = "member_left") then
    client ← num "client"; Some (MemberLeftEvent room seq client) else
  author ← num "author";
  if bool_decide (type = "clear") then Some (ClearEvent room seq author) else
  if bool_decide (type = "cursor_move") then
    point ← field decodePoint j "point"; Some (CursorMoveEvent room seq author point) else
  id ← num "id";
  if bool_decide (type = "stroke_end") then Some (StrokeEndEvent room seq author id) else
  if bool_decide (type = "stroke_point") then
    point ← field decodePoint j "point"; Some (StrokePointEvent room seq author id point) else
  order ← num "stroke_order"; color ← num "color"; thickness ← num "thickness";
  start ← field decodePoint j "start";
  if bool_decide (type = "stroke_begin") then
    Some (StrokeBeginEvent room seq author id order color thickness start) else None.

(** What a client makes of a line. *)
Definition readLine (line : string) : option ServerMessage :=
  match json_parse line with inl j => decodeServerMessage j | inr _ => None end.
End Decoder.

(** ** The schema of the requests *)

Inductive FieldKind := FRoom | FUint | FPoint.

(** The fields each request needs besides its type, in the order they are read. *)
Definition schema (type : string) : option (list (string * FieldKind)) :=
  find_key type
    [("ping", []); ("create_room", []); ("join_room", [("room", FRoom)]);
     ("leave_room", [("room", FRoom)]);
     ("stroke_begin", [("room", FRoom); ("color", FUint); ("thickness", FUint); ("start", FPoint)]);
     ("stroke_point", [("room", FRoom); ("point", FPoint)]);
     ("stroke_end", [("room", FRoom)]);
     ("cursor_move", [("room", FRoom); ("point", FPoint)]);
     ("clear", [("room", FRoom)])].

Section Schema.
Context `{JsonLib}.

(** The error a field of the given kind has, if any: absent, or of another type. *)
Definition field_error {T} (get : json → option T) (o : json) (key : string) : option ProtocolError :=
  match json_at o key with
  | None => Some (perr_missingField ("missing field: " +:+ key))
  | Some v => match get v with Some _ => None | None => Some (invalidFieldType key) end
  end.

Definition kind_error (o : json) (f : string * FieldKind) : option ProtocolError :=
  let '(key, kind) := f in
  match kind with
  | FRoom => field_error get_u64 o key
  | FUint => field_error get_uint o key
  | FPoint =>
      match json_at o key with
      | None => Some (perr_missingField ("missing field: " +:+ key))
      | Some p =>
          if negb (json_is_object p) then Some (invalidFieldType key) else
          match field_error get_float p "x" with
          | Some e => Some e
          | None => field_error get_float p "y"
          end
      end
  end.

(** The first field in error. *)
Fixpoint first_error (o : json) (fs : list (string * FieldKind)) : option ProtocolError :=
  match fs with
  | [] => None
  | f :: fs => match kind_error o f with Some e => Some e | None => first_error o fs end
  end.

Definition request_type (m : ClientMessage) : string :=
  match m with
  | PingRequest => "ping" | CreateRoomRequest => "create_room"
  | JoinRoomRequest _ => "join_room" | LeaveRoomRequest _ => "leave_room"
  | StrokeBeginRequest _ _ _ _ => "stroke_begin" | StrokePointRequest _ _ => "stroke_point"
  | StrokeEndRequest _ => "stroke_end" | CursorMoveRequest _ _ => "cursor_move"
  | ClearRequest _ => "clear"
  end.

(** The fields of [m] are those of the object, and fit their types. *)
Definition request_fields (o : json) (m : ClientMessage) : Prop :=
  let room_is room := field get_u64 o "room" = Some room ∧ is_u64 room in
  match m with
  | PingRequest | CreateRoomRequest => True
  | JoinRoomRequest room | LeaveRoomRequest room | StrokeEndRequest room | ClearRequest room =>
      room_is room
  | StrokeBeginRequest room color thickness start =>
      room_is room ∧ field get_uint o "color" = Some color ∧ is_u8 color ∧
      field get_uint o "thickness" = Some thickness ∧ is_u8 thickness ∧
      field decodePoint o "start" = Some start
  | StrokePointRequest room point | CursorMoveRequest room point =>
      room_is room ∧ field decodePoint o "point" = Some point
  end.

(** What the result of parsing the object [o] must be. *)
Definition request_outcome (o : json) (r : Expected ClientMessage ProtocolError) : Prop :=
  match field_error get_string o "type" with
  | Some e => r = Unexpected e
  | None => ∃ type, field get_string o "type" = Some type ∧
      match schema type with
      | None => r = Unexpected (perr_unknownMessageType ("unknown message type: " +:+ type))
      | Some fs =>
          match first_error o fs, r with
          | Some e, _ => r = Unexpected e
          | None, Value m => request_type m = type ∧ request_fields o m
          | None, Unexpected e =>
              type = "stroke_begin" ∧
              e = perr_invalidFieldType "color or thickness is out of range" ∧
              ∃ c t, field get_uint o "color" = Some c ∧ field get_uint o "thickness" = Some t ∧
                     (255 < c ∨ 255 < t)%Z
          end
      end
  end.
End Schema.

(** ** Lemmas *)

Lemma u8_small (n : Z) : is_u8 n → u8 n = n.
Proof. apply wrap_small. Qed.

Section Laws.
Context `{JsonLaws}.

(** The value of a field of an object written out as a list. *)
Ltac at_field := rewrite object_at by (by_decision); reflexivity.

Lemma getRequired_object {T} (get : json → option T) kvs k v x :
  json_at (json_object kvs) k = Some v → get v = Some x →
  getRequired get (json_object kvs) k = Value x.
Proof. intros Hat Hget. unfold getRequired. by rewrite Hat, Hget. Qed.

Lemma getRequiredPoint_object kvs k p :
  json_at (json_object kvs) k = Some (makePointJson p) → point_finite p →
  getRequiredPoint (json_object kvs) k = Value p.
Proof.
  intros Hat [Hx Hy]. unfold getRequiredPoint. rewrite Hat. unfold makePointJson.
  rewrite object_is_object. simpl.
  rewrite (getRequired_object get_float _ "x" (json_of_float (dto_x p)) (dto_x p));
    [|at_field|by apply float_get].
  simpl. rewrite (getRequired_object get_float _ "y" (json_of_float (dto_y p)) (dto_y p));
    [|at_field|by apply float_get].
  by destruct p.
Qed.

Lemma point_plain p : point_finite p → json_plain (makePointJson p).
Proof.
  intros [Hx Hy]. apply plain_object. simpl. by repeat constructor; apply plain_float.
Qed.

Lemma request_plain m : request_ok m → json_plain (requestJson m).
Proof.
  intros Hok. destruct m; simpl in *; apply plain_object; simpl; repeat constructor;
    auto using plain_string, plain_uint; apply point_plain; naive_solver.
Qed.
End Laws.

