(* ===== verification/JsonModel.v ===== *)
(** * A JSON library

    A concrete library that satisfies [JsonLaws] and [JsonClient]: values are
    trees, a text is the binary numeral that encodes a tree.  It stands for
    nlohmann::json in the witnesses, and shows that the laws can hold.  As the
    library of the program does, [dump] throws on a string that is not text
    (here: not ASCII) and writes infinities and NaNs as [null], and the message of
    a parse error quotes the input. *)
From S2P Require Import Prelude CoreTypes JsonProtocol JsonSpec.
From stdpp Require Import countable.
From Stdlib Require Import Strings.BinaryString.

#[local] Open Scope Z_scope.

(** Strings, integers, floats (by their bits) and booleans. *)
Inductive jscalar := JString (s : string) | JUint (n : Z) | JFloat (bits : Z) | JBool (b : bool).

#[export] Instance jscalar_eq_dec : EqDecision jscalar.
Proof. solve_decision. Defined.

#[export] Instance jscalar_countable : Countable jscalar.
Proof.
  refine (inj_countable'
    (λ j, match j with
          | JString s => inl (inl s) | JUint n => inl (inr n)
          | JFloat x => inr (inl x) | JBool b => inr (inr b) end)
    (λ t : (string + Z) + (Z + bool), match t with
          | inl (inl s) => JString s | inl (inr n) => JUint n
          | inr (inl x) => JFloat x | inr (inr b) => JBool b end) _).
  by intros [].
Defined.

(** Node 0 is an array, node 1 an object (keys and values alternate), node 2
    is [null]. *)
Abbreviation jtree := (gen_tree jscalar).

Fixpoint pairs (ts : list jtree) : list (string * jtree) :=
  match ts with
  | GenLeaf (JString k) :: v :: ts => (k, v) :: pairs ts
  | _ => []
  end.

Fixpoint unpairs (kvs : list (string * jtree)) : list jtree :=
  match kvs with
  | [] => []
  | (k, v) :: kvs => GenLeaf (JString k) :: v :: unpairs kvs
  end.

Definition finite_bits (x : Z) : bool := bool_decide (is_u32 x ∧ Z.land (Z.shiftr x 23) 255 ≠ 255).

(** What is written for a value. *)
Fixpoint scrub (t : jtree) : jtree :=
  match t with
  | GenLeaf (JFloat x) => if finite_bits x then t else GenNode 2 []
  | GenLeaf _ => t
  | GenNode n ts => GenNode n (scrub <$> ts)
  end.

Fixpoint text_ok (t : jtree) : bool :=
  match t with
  | GenLeaf (JString s) => is_ascii s
  | GenLeaf _ => true
  | GenNode _ ts => forallb text_ok ts
  end.

#[export] Instance tree_json : JsonLib := {|
  json := jtree;
  json_parse line :=
    match decode (BinaryString.to_pos line) with
    | Some t => if text_ok t then inl t else inr ("ill-formed string; last read: " +:+ line)%string
    | None => inr ("syntax error; last read: " +:+ line)%string
    end;
  json_dump t := if text_ok t then Some (BinaryString.of_pos (encode (scrub t))) else None;
  json_is_object t := match t with GenNode 1 _ => true | _ => false end;
  json_at t k := match t with GenNode 1 ts => find_key k (pairs ts) | _ => None end;
  get_string t := match t with GenLeaf (JString s) => Some s | _ => None end;
  get_u64 t := match t with GenLeaf (JUint n) => Some (u64 n) | _ => None end;
  get_uint t := match t with GenLeaf (JUint n) => Some (u32 n) | _ => None end;
  get_float t := match t with GenLeaf (JFloat x) => Some (u32 x) | _ => None end;
  json_of_string s := GenLeaf (JString s);
  json_of_uint n := GenLeaf (JUint n);
  json_of_float x := GenLeaf (JFloat x);
  json_of_bool b := GenLeaf (JBool b);
  json_array l := GenNode 0 l;
  json_object kvs := GenNode 1 (unpairs kvs);
|}.

Lemma pairs_unpairs kvs : pairs (unpairs kvs) = kvs.
Proof. induction kvs as [|[k v] kvs IH]; [done|]. simpl. by rewrite IH. Qed.

Lemma scrub_list ts : Forall (λ t, scrub t = t) ts → scrub <$> ts = ts.
Proof. induction 1 as [|t ts Ht _ IH]; [done|]. rewrite fmap_cons. by rewrite Ht, IH. Qed.

Lemma unpairs_plain kvs :
  Forall (λ t, scrub t = t) kvs.*2 → Forall (λ t, scrub t = t) (unpairs kvs).
Proof.
  induction kvs as [|[k v] kvs IH]; simpl; [done|].
  intros [Hv Hk]%Forall_cons_1. constructor; [done|]. constructor; auto.
Qed.

Lemma wrap_range w z : 0 ≤ w → in_width w (wrap w z).
Proof. intros. apply Z.mod_pos_bound. lia. Qed.

#[export] Instance tree_laws : @JsonLaws tree_json.
Proof.
  refine {| json_plain (t : @json tree_json) := scrub t = t |}; try done.
  - intros x Hx. simpl. unfold finite_bits. by rewrite bool_decide_eq_true_2.
  - intros l Hl. simpl. f_equal. by apply scrub_list.
  - intros kvs Hk. simpl. f_equal. by apply scrub_list, unpairs_plain.
  - intros j line Hj. simpl. destruct (text_ok j) eqn:Htext; [|done]. intros [= <-].
    by rewrite BinaryString.to_pos_of_pos, decode_encode, Hj, Htext.
  - intros kvs k _. simpl. by rewrite pairs_unpairs.
  - intros n Hn. simpl. by rewrite wrap_small.
  - intros n Hn. simpl. by rewrite wrap_small.
  - intros [[]|] k; try done. intros [= <-]. by apply wrap_range.
  - intros [[]|] k; try done. intros [= <-]. by apply wrap_range.
  - intros [[]|] k; try done. intros [= <-]. by apply wrap_range.
  - intros x [Hx _]. simpl. by rewrite wrap_small.
Defined.

#[export] Instance tree_client : @JsonClient tree_json tree_laws.
Proof.
  refine {| json_elements (t : @json tree_json) := match t with GenNode 0 l => Some l | _ => None end;
            get_bool (t : @json tree_json) := match t with GenLeaf (JBool b) => Some b | _ => None end |}; done.
Defined.

Lemma text_ok_list ts : Forall (λ t, text_ok t = true) ts → forallb text_ok ts = true.
Proof. intros Ht. apply forallb_forall. intros t Hin. rewrite Forall_forall in Ht. by apply Ht. Qed.

Lemma text_ok_unpairs kvs :
  Forall (λ k, is_ascii k = true) kvs.*1 → Forall (λ t, text_ok t = true) kvs.*2 →
  Forall (λ t, text_ok t = true) (unpairs kvs).
Proof.
  induction kvs as [|[k v] kvs IH]; simpl; [done|].
  intros [Hk Hks]%Forall_cons_1 [Hv Hvs]%Forall_cons_1. repeat constructor; auto.
Qed.

Lemma text_ok_pairs ts k v :
  Forall (λ t, text_ok t = true) ts → find_key k (pairs ts) = Some v → text_ok v = true.
Proof.
  revert ts. fix IH 1. intros [|[[s| | |]|] [|w ts]] Ht; simpl; try discriminate.
  apply Forall_cons_1 in Ht as [_ Ht]. apply Forall_cons_1 in Ht as [Hw Ht].
  case_bool_decide; [intros E; injection E as E; rewrite <-E; exact Hw|exact (IH _ Ht)].
Qed.

#[export] Instance tree_text : @JsonText tree_json.
Proof.
  refine {| text s := is_ascii s = true; json_text (t : @json tree_json) := text_ok t = true |};
    try done.
  - apply is_ascii_app.
  - intros l Hl. by apply text_ok_list.
  - intros kvs Hk Hv. by apply text_ok_list, text_ok_unpairs.
  - intros j Hj. simpl. rewrite Hj. eauto.
  - intros line o k v s. simpl. destruct (decode _) as [t|]; [|done].
    destruct (text_ok t) eqn:Ht; [|done]. intros [= <-].
    destruct t as [|[|[|n]] ts]; try done. intros Hv Hs.
    assert (text_ok v = true) as Hok.
    { eapply text_ok_pairs; [|exact Hv]. apply Forall_forall. intros x Hin.
      simpl in Ht. rewrite forallb_forall in Ht. by apply Ht. }
    destruct v as [[]|]; try done. by injection Hs as <-.
Defined.
