(* ===== verification/JsonProps.v ===== *)
(** * Theorems of the JSON protocol

    Requests and server messages survive the wire, and a line that is not a
    request gets the error of its first offending field.  The theorems hold for
    every library that satisfies [JsonLaws]; the witnesses use [JsonModel]. *)
From S2P Require Import Prelude CoreTypes Messages JsonProtocol JsonSpec JsonModel.

#[local] Open Scope string_scope.
#[local] Open Scope Z_scope.

(** ** Automation *)

(** Decides the comparisons of concrete request types. *)
Ltac decide_types := repeat case_bool_decide; try discriminate; try congruence; simpl.

(** The value of a field of an object written out as a list. *)
Ltac at_field := rewrite object_at by by_decision; reflexivity.

Section Encode.
Context `{JsonLaws}.

Lemma u8_is_u32 (n : Z) : is_u8 n → is_u32 n.
Proof. unfold in_width. lia. Qed.

Lemma request_object m : ∃ kvs, requestJson m = json_object kvs.
Proof. destruct m; eauto. Qed.

(** Reads every field of a concrete request. *)
Ltac read_request :=
  repeat (first
    [ erewrite (getRequired_object get_string) by (first [at_field | apply string_get])
    | erewrite (getRequired_object get_u64) by (first [at_field | by apply uint_get_u64])
    | erewrite (getRequired_object get_uint) by (first [at_field | by apply uint_get_uint, u8_is_u32])
    | erewrite getRequiredPoint_object by (first [at_field | done]) ];
    cbn [bind_expected]; decide_types).

Lemma request_parses (m : ClientMessage) (line : string) :
  request_ok m → json_dump (requestJson m) = Some line → parseClientMessage line = Value m.
Proof.
  intros Hok Hd. unfold parseClientMessage.
  rewrite (parse_dump (requestJson m) line (request_plain m Hok) Hd).
  assert (json_is_object (requestJson m) = true) as -> by
    (destruct (request_object m) as [? ->]; apply object_is_object).
  cbn [negb]. destruct m; cbn [requestJson request_ok] in *; destruct_and?; read_request;
    try (exfalso; unfold in_width in *; lia); by rewrite ?u8_small.
Qed.

(** C28. A request written by a client that fits the types is read back unchanged. *)
Theorem request_roundtrip (m : ClientMessage) (line : string) :
  request_ok m → json_dump (requestJson m) = Some line → parseClientMessage line = Value m.
Proof. apply request_parses. Qed.

(** ** Reading messages *)

Lemma field_bind {T R} (get : json → option T) kvs k v x (f : T → option R) r :
  json_at (json_object kvs) k = Some v → get v = Some x → f x = r →
  field get (json_object kvs) k ≫= f = r.
Proof. intros Hat Hget Hf. unfold field. rewrite Hat. simpl. by rewrite Hget. Qed.

Lemma u8_is_u64 (n : Z) : is_u8 n → is_u64 n.
Proof. unfold in_width. lia. Qed.

Lemma point_decode p : point_finite p → decodePoint (makePointJson p) = Some p.
Proof.
  intros [Hx Hy]. unfold decodePoint, makePointJson.
  eapply field_bind; [at_field|by apply float_get|].
  eapply field_bind; [at_field|by apply float_get|].
  by destruct p.
Qed.
End Encode.

Create HintDb json.
#[export] Hint Resolve string_get uint_get_u64 uint_get_uint bool_get point_decode u8_is_u64 : json.
#[export] Hint Resolve plain_string plain_uint plain_float plain_bool point_plain : json.

Section Decode.
Context `{JsonClient}.

(** Reads the fields of an object written out as a list, one after the other. *)
Ltac read_fields :=
  repeat (eapply field_bind; [at_field|solve [eauto with json]|]; cbv beta; decide_types).

Lemma list_of_array {T} (get : json → option T) (f : T → json) l :
  Forall (λ x, get (f x) = Some x) l → list_of get (json_array (f <$> l)) = Some l.
Proof. intros Hl. unfold list_of. rewrite array_elements. simpl. by apply mapM_fmap_Forall_Some. Qed.

Lemma stroke_decode s : stroke_dto_ok s → decodeStroke (makeStrokeJson s) = Some s.
Proof.
  intros (Hid & Ha & Hc & Ht & Ho & Hp). unfold decodeStroke, makeStrokeJson.
  assert (list_of decodePoint (json_array (makePointJson <$> dto_points s)) = Some (dto_points s)).
  { apply list_of_array. eapply Forall_impl; [exact Hp|]. auto with json. }
  read_fields. by destruct s.
Qed.

Lemma cursor_decode c : cursor_dto_ok c → decodeCursor (makeCursorJson c) = Some c.
Proof. intros [Hc Hp]. unfold decodeCursor, makeCursorJson. read_fields. by destruct c. Qed.

Lemma array_plain {A} (P : A → Prop) (f : A → json) l :
  (∀ x, P x → json_plain (f x)) → Forall P l → json_plain (json_array (f <$> l)).
Proof. intros Hf Hl. apply plain_array, Forall_fmap. by eapply Forall_impl. Qed.

Lemma stroke_plain s : stroke_dto_ok s → json_plain (makeStrokeJson s).
Proof.
  intros (_ & _ & _ & _ & _ & Hp). apply plain_object. simpl.
  repeat constructor; auto with json. apply (array_plain point_finite); auto with json.
Qed.

Lemma cursor_plain c : cursor_dto_ok c → json_plain (makeCursorJson c).
Proof. intros [_ Hp]. apply plain_object. simpl. repeat constructor; auto with json. Qed.

Lemma message_plain m : message_ok m → json_plain (serverMessageJson m).
Proof.
  intros Hok. destruct m; simpl in *; destruct_and?; apply plain_object; simpl;
    repeat constructor; auto with json.
  - apply (array_plain is_u64); auto with json.
  - apply (array_plain stroke_dto_ok); auto using stroke_plain.
  - apply (array_plain cursor_dto_ok); auto using cursor_plain.
Qed.

Lemma message_decode m : message_ok m → decodeServerMessage (serverMessageJson m) = Some m.
Proof.
  intros Hok. unfold decodeServerMessage.
  destruct m; cbn [serverMessageJson message_ok] in *; destruct_and?; read_fields; try done.
  assert (list_of get_u64 (json_array (json_of_uint <$> rsp_members snap)) = Some (rsp_members snap)).
  { apply list_of_array. by eapply Forall_impl; [|apply uint_get_u64]. }
  assert (list_of decodeStroke (json_array (makeStrokeJson <$> rsp_strokes snap)) =
    Some (rsp_strokes snap)).
  { apply list_of_array. by eapply Forall_impl; [|apply stroke_decode]. }
  assert (list_of decodeCursor (json_array (makeCursorJson <$> rsp_cursors snap)) =
    Some (rsp_cursors snap)).
  { apply list_of_array. by eapply Forall_impl; [|apply cursor_decode]. }
  read_fields. by destruct snap.
Qed.

(** A message whose numbers fit their types and whose coordinates are
    finite is read back from its line exactly as the server had it. *)
Theorem message_roundtrip (m : ServerMessage) (line : string) :
  message_ok m → serializeServerMessage m = Some line → readLine line = Some m.
Proof.
  unfold serializeServerMessage, readLine. intros Hok Hd.
  rewrite (parse_dump _ line (message_plain m Hok) Hd). by apply message_decode.
Qed.
End Decode.

(** ** Requests in error *)

Section Outcome.
Context `{JsonLaws}.

Lemma getRequired_cases {T} (get : json → option T) o k :
  match field_error get o k with
  | Some e => getRequired get o k = Unexpected e
  | None => ∃ x, getRequired get o k = Value x ∧ field get o k = Some x
  end.
Proof.
  unfold field_error, getRequired, field. destruct (json_at o k) as [v|]; [|done]. simpl.
  destruct (get v); [|done]. eauto.
Qed.

Lemma getRequiredPoint_cases o k :
  match kind_error o (k, FPoint) with
  | Some e => getRequiredPoint o k = Unexpected e
  | None => ∃ p, getRequiredPoint o k = Value p ∧ field decodePoint o k = Some p
  end.
Proof.
  unfold kind_error, getRequiredPoint, field. destruct (json_at o k) as [v|]; [|done]. simpl.
  destruct (json_is_object v); [|done]. cbn [negb].
  pose proof (getRequired_cases get_float v "x") as Hx.
  destruct (field_error get_float v "x"); [by rewrite Hx|]. destruct Hx as (x & -> & Hx). simpl.
  pose proof (getRequired_cases get_float v "y") as Hy.
  destruct (field_error get_float v "y"); [by rewrite Hy|]. destruct Hy as (y & -> & Hy). simpl.
  exists (mkPointDto x y). split; [done|]. unfold decodePoint. by rewrite Hx, Hy.
Qed.

Lemma field_u64_range o k n : field get_u64 o k = Some n → is_u64 n.
Proof. unfold field. intros (v & _ & Hv)%bind_Some. by eapply get_u64_range. Qed.

Lemma field_uint_range o k n : field get_uint o k = Some n → is_u32 n.
Proof. unfold field. intros (v & _ & Hv)%bind_Some. by eapply get_uint_range. Qed.

(** Reads the next field of the request, or ends with its error. *)
Ltac read_field :=
  match goal with
  | |- context [getRequired ?get ?o ?k] =>
      let Hc := fresh in pose proof (getRequired_cases get o k) as Hc;
      destruct (field_error get o k) as [?|];
      [by rewrite Hc | let x := fresh "x" in destruct Hc as (x & -> & ?); cbn [bind_expected]]
  | |- context [getRequiredPoint ?o ?k] =>
      let Hc := fresh in pose proof (getRequiredPoint_cases o k) as Hc;
      destruct (kind_error o (k, FPoint)) as [?|];
      [by rewrite Hc | let p := fresh "p" in destruct Hc as (p & -> & ?); cbn [bind_expected]]
  end.

(** Computes the schema of a concrete request. *)
Ltac open_schema :=
  match goal with
  | |- context [schema ?t] => let s := eval vm_compute in (schema t) in change (schema t) with s
  end;
  cbn [first_error];
  repeat match goal with
  | |- context [kind_error ?o (?k, FRoom)] =>
      change (kind_error o (k, FRoom)) with (field_error get_u64 o k)
  | |- context [kind_error ?o (?k, FUint)] =>
      change (kind_error o (k, FUint)) with (field_error get_uint o k)
  end.

Lemma schema_unknown type :
  (∀ m, request_type m ≠ type) → schema type = None.
Proof.
  intros Hn. pose proof (Hn PingRequest). pose proof (Hn CreateRoomRequest).
  pose proof (Hn (JoinRoomRequest 0)). pose proof (Hn (LeaveRoomRequest 0)).
  pose proof (Hn (StrokeBeginRequest 0 0 0 (mkPointDto 0 0))).
  pose proof (Hn (StrokePointRequest 0 (mkPointDto 0 0))). pose proof (Hn (StrokeEndRequest 0)).
  pose proof (Hn (CursorMoveRequest 0 (mkPointDto 0 0))). pose proof (Hn (ClearRequest 0)).
  unfold schema. cbn [find_key]. by rewrite !bool_decide_eq_false_2.
Qed.

Lemma uint_field_u8 o k n : field get_uint o k = Some n → ¬ n > 255 → u8 n = n ∧ is_u8 n.
Proof.
  intros [Hn _]%field_uint_range Hle.
  assert (is_u8 n) by (unfold in_width; lia). by rewrite u8_small.
Qed.

(** The request has the fields of the object, or its style is out of range. *)
Ltac finish_request :=
  repeat case_bool_decide; cbn [orb];
  repeat match goal with
  | H : field get_uint _ _ = Some ?n, H' : ¬ ?n > 255 |- _ =>
      destruct (uint_field_u8 _ _ _ H H') as [-> ?]; clear H'
  end;
  split_and!; simpl; split_and?; eauto using field_u64_range;
  try (do 2 eexists; split_and!; [eassumption..|lia]).

(** C29. Every line has the outcome of its schema: the library's message for a
    text that is not JSON; the error of the first field that is missing or of
    the wrong type, in the order of the schema; an unknown type; a colour or
    thickness above 255; or else the request with the fields of the object,
    which fit their types. *)
Theorem parse_outcome (line : string) :
  match json_parse line with
  | inr what => parseClientMessage line = Unexpected (perr_invalidJson what)
  | inl o =>
      if json_is_object o then request_outcome o (parseClientMessage line)
      else parseClientMessage line =
             Unexpected (perr_invalidJson "root json value must be an object")
  end.
Proof.
  unfold parseClientMessage. destruct (json_parse line) as [o|what]; [|done].
  destruct (json_is_object o); [|done]. cbn [negb]. unfold request_outcome. read_field.
  exists x. split; [done|].
  do 9 (case_bool_decide; [subst; open_schema; repeat read_field; finish_request|]).
  rewrite schema_unknown; [done|]. intros []; simpl; congruence.
Qed.

End Outcome.

(** ** Witnesses *)

Definition one : Z := 1065353216.
Definition demo_request : ClientMessage := StrokeBeginRequest 7 2 1 (mkPointDto one 0).
Definition demo_snapshot_message : ServerMessage :=
  SnapshotResponse (mkRoomSnapshotResponse 1 4 [2; 3]
    [mkStrokeDto 1 2 3 1 4 [mkPointDto one one; mkPointDto 0 one] false]
    [mkCursorDto 2 (mkPointDto 0 0)]).
Definition dumped (j : @json tree_json) : string := default "" (json_dump j).

Lemma request_roundtrip_witness :
  request_ok demo_request ∧ parseClientMessage (dumped (requestJson demo_request)) = Value demo_request.
Proof.
  assert (request_ok demo_request) as Hok by (repeat split; by_decision).
  split; [exact Hok|].
  apply (@request_roundtrip tree_json tree_laws demo_request); [exact Hok|vm_compute; reflexivity].
Defined.

Lemma message_roundtrip_witness :
  readLine (dumped (serverMessageJson demo_snapshot_message)) = Some demo_snapshot_message.
Proof.
  apply (@message_roundtrip tree_json tree_laws tree_client);
    [repeat split; repeat constructor; try by_decision|vm_compute; reflexivity].
Defined.

(** A colour above 255 is refused although every field has its type. *)
Lemma parse_outcome_witness :
  let o := @json_object tree_json
    [("type", json_of_string "stroke_begin"); ("room", json_of_uint 7);
     ("color", json_of_uint 256); ("thickness", json_of_uint 1);
     ("start", makePointJson (mkPointDto one 0))] in
  json_parse (dumped o) = inl o ∧ request_outcome o (parseClientMessage (dumped o)) ∧
  parseClientMessage (dumped o) =
    Unexpected (perr_invalidFieldType "color or thickness is out of range").
Proof.
  intros o. pose proof (@parse_outcome tree_json tree_laws (dumped o)) as Hp.
  assert (json_parse (dumped o) = inl o) as Ho by (vm_compute; reflexivity).
  rewrite Ho in Hp. split; [exact Ho|]. split; [exact Hp|vm_compute; reflexivity].
Defined.
