(* ===== verification/SnapshotStore.v ===== *)
(** * The snapshot store interface

    [persistence/include/clearspace/persistence/snapshot_store.hpp]: what the
    snapshot writer asks of a store.  A method that throws still may have
    changed the store, so an outcome carries both. *)
From S2P Require Import Prelude CoreTypes.

(** The exceptions of the persistence code. *)
Inductive Exn := RuntimeError (what : string) | InvalidArgument (what : string) | BadAlloc.

#[export] Instance Exn_eq_dec : EqDecision Exn.
Proof. solve_decision. Defined.

Record SnapshotMeta := mkSnapshotMeta {
  meta_id : Z;
  meta_room : RoomId;
  meta_savedAtMs : Z;
  meta_lastSeq : Seq;
}.

Record StoredSnapshot := mkStoredSnapshot {
  stored_meta : SnapshotMeta;
  stored_strokes : list Stroke;
}.

(** [ISnapshotStore] on a store of type [Σ]: the result, or the exception, and
    the store after the call. *)
Class SnapshotStore (Σ : Type) := {
  store_init : Σ → Expected unit Exn * Σ;
  store_save : RoomId → Seq → list Stroke → Σ → Expected unit Exn * Σ;
  store_list : RoomId → Σ → Expected (list SnapshotMeta) Exn * Σ;
  store_loadById : Z → Σ → Expected (option StoredSnapshot) Exn * Σ;
  store_loadLatest : RoomId → Σ → Expected (option StoredSnapshot) Exn * Σ;
  store_pruneKeepLatest : RoomId → Z → Σ → Expected unit Exn * Σ;
}.
