(* ===== verification/StrokeBlob.v ===== *)
(** * The snapshot blob

    [persistence/src/sqlite_snapshot_store.cpp], lines 37 to 110: the strokes of
    a board as bytes and back.  A byte is a [Z] below 256; the pair of pointers
    [p], [end] is the list of the bytes between them.  [reinterpret_cast] and
    [memcpy] give the bytes of an object in the order of the machine; the model
    is a little-endian one, as the names of the functions say. *)
From S2P Require Import Prelude CoreTypes SnapshotStore.

(** ** Exceptions *)

Definition corrupted : Exn := RuntimeError "corrupted snapshot blob".
Definition unsupported : Exn := RuntimeError "unsupported snapshot version".
Definition trailing : Exn := RuntimeError "corrupted snapshot blob (trailing bytes)".

(** ** Writing *)

(** The [n] bytes of the unsigned integer [v], least significant first. *)
Fixpoint le_bytes (n : nat) (v : Z) : list Z :=
  match n with
  | O => []
  | S n => v mod 256 :: le_bytes n (v / 256)
  end.

Definition appendLE (buf : list Z) (n : nat) (v : Z) : list Z := buf ++ le_bytes n v.

(** The body of the loop over the points. *)
Definition append_point (buf : list Z) (pt : Point) : list Z :=
  appendLE (appendLE buf 4 (px pt)) 4 (py pt).

(** The body of the loop over the strokes. *)
Definition append_stroke (buf : list Z) (s : Stroke) : list Z :=
  let buf := appendLE buf 8 (stroke_id s) in
  let buf := appendLE buf 8 (stroke_author s) in
  let buf := appendLE buf 1 (color_to_u8 (stroke_color s)) in
  let buf := appendLE buf 1 (thickness_to_u8 (stroke_thickness s)) in
  let buf := appendLE buf 8 (strokeOrder s) in
  let buf := appendLE buf 1 (if finished s then 1 else 0) in
  let buf := appendLE buf 4 (u32 (Z.of_nat (length (points s)))) in
  foldl append_point buf (points s).

Definition serializeStrokes (strokes : list Stroke) : list Z :=
  let version := 1 in
  let buf := appendLE [] 4 version in
  let buf := appendLE buf 4 (u32 (Z.of_nat (length strokes))) in
  foldl append_stroke buf strokes.

(** ** Reading *)

(** A reader moves the pointer forward, or throws. *)
Definition Reader (A : Type) : Type := list Z → Expected (A * list Z) Exn.

#[export] Instance Reader_ret : MRet Reader := λ A x p, Value (x, p).
#[export] Instance Reader_bind : MBind Reader := λ A B f m p,
  match m p with
  | Value (x, p') => f x p'
  | Unexpected e => Unexpected e
  end.

Definition throw {A} (e : Exn) : Reader A := λ _, Unexpected e.

Fixpoint le_value (bytes : list Z) : Z :=
  match bytes with
  | [] => 0
  | b :: bytes => b + 256 * le_value bytes
  end.

(** [readLE] at a type of [n] bytes. *)
Definition readLE (n : nat) : Reader Z := λ p,
  if Nat.ltb (length p) n then Unexpected corrupted
  else Value (le_value (take n p), drop n p).

(** A counted loop whose body reads an element and pushes it back. *)
Fixpoint read_many {A} (n : nat) (body : Reader A) : Reader (list A) :=
  match n with
  | O => mret []
  | S n => x ← body; xs ← read_many n body; mret (x :: xs)
  end.

(** Whether [std::vector::reserve] finds the memory, which the program does
    not decide. *)
Class Allocator := {
  strokes_fit : Z → bool;
  points_fit : Z → bool;
}.

Section Deserialize.
Context `{Allocator}.

(** [v.reserve(n)] throws when the memory is not there. *)
Definition reserve (fits : Z → bool) (n : Z) : Reader unit :=
  if fits n then mret tt else throw BadAlloc.

Definition read_point : Reader Point :=
  x ← readLE 4; y ← readLE 4; mret (mkPoint x y).

Definition read_stroke : Reader Stroke :=
  id ← readLE 8;
  author ← readLE 8;
  color ← readLE 1;
  thickness ← readLE 1;
  order ← readLE 8;
  fin ← readLE 1;
  pointsCount ← readLE 4;
  _ ← reserve points_fit pointsCount;
  pts ← read_many (Z.to_nat pointsCount) read_point;
  mret (mkStroke id author (color_of_u8 color) (thickness_of_u8 thickness) order pts
          (bool_decide (fin ≠ 0))).

(** The blob up to the check that nothing is left. *)
Definition read_strokes : Reader (list Stroke) :=
  version ← readLE 4;
  _ ← (if bool_decide (version ≠ 1) then throw unsupported else mret tt : Reader unit);
  strokesCount ← readLE 4;
  _ ← reserve strokes_fit strokesCount;
  read_many (Z.to_nat strokesCount) read_stroke.

Definition deserializeStrokes (data : list Z) : Expected (list Stroke) Exn :=
  match read_strokes data with
  | Unexpected e => Unexpected e
  | Value (strokes, p) => if bool_decide (p ≠ []) then Unexpected trailing else Value strokes
  end.
End Deserialize.

(** ** The format *)

Definition point_bytes (pt : Point) : list Z := le_bytes 4 (px pt) ++ le_bytes 4 (py pt).

Definition stroke_bytes (s : Stroke) : list Z :=
  le_bytes 8 (stroke_id s) ++ le_bytes 8 (stroke_author s) ++
  le_bytes 1 (color_to_u8 (stroke_color s)) ++ le_bytes 1 (thickness_to_u8 (stroke_thickness s)) ++
  le_bytes 8 (strokeOrder s) ++ le_bytes 1 (if finished s then 1 else 0) ++
  le_bytes 4 (u32 (Z.of_nat (length (points s)))) ++ (points s ≫= point_bytes).

(** Strokes whose fields fit their types, with fewer than 2^32 points. *)
Definition point_storable (pt : Point) : Prop := is_u32 (px pt) ∧ is_u32 (py pt).

Definition stroke_storable (s : Stroke) : Prop :=
  is_u64 (stroke_id s) ∧ is_u64 (stroke_author s) ∧ is_u64 (strokeOrder s) ∧
  is_u8 (color_to_u8 (stroke_color s)) ∧ color_of_u8 (color_to_u8 (stroke_color s)) = stroke_color s ∧
  is_u8 (thickness_to_u8 (stroke_thickness s)) ∧
  thickness_of_u8 (thickness_to_u8 (stroke_thickness s)) = stroke_thickness s ∧
  is_u32 (Z.of_nat (length (points s))) ∧ Forall point_storable (points s).

Definition board_storable (ss : list Stroke) : Prop :=
  is_u32 (Z.of_nat (length ss)) ∧ Forall stroke_storable ss.

(** The allocator finds the memory for these strokes. *)
Definition board_fits `{Allocator} (ss : list Stroke) : Prop :=
  strokes_fit (Z.of_nat (length ss)) = true ∧
  Forall (λ s, points_fit (Z.of_nat (length (points s))) = true) ss.

(** ** Lemmas: integers *)

Lemma length_le_bytes n v : length (le_bytes n v) = n.
Proof. revert v. induction n; simpl; auto. Qed.

Lemma le_value_bytes n v : in_width (8 * Z.of_nat n) v → le_value (le_bytes n v) = v.
Proof.
  revert v. induction n as [|n IH]; intros v [Hlo Hhi]; simpl le_bytes; simpl le_value;
    [simpl in Hhi; lia|].
  rewrite IH; [pose proof (Z_div_mod_eq_full v 256); lia|]. split; [apply Z.div_pos; lia|].
  apply Z.div_lt_upper_bound; [lia|]. change 256 with (2 ^ 8). rewrite <-Z.pow_add_r by lia.
  by replace (8 + 8 * Z.of_nat n) with (8 * Z.of_nat (S n)) by lia.
Qed.

Lemma le_value_range bytes : Forall is_u8 bytes → in_width (8 * Z.of_nat (length bytes)) (le_value bytes).
Proof.
  unfold in_width. induction 1 as [|b bytes [Hb Hb'] _ IH]; simpl le_value; simpl length; [simpl; lia|].
  replace (8 * Z.of_nat (S (length bytes))) with (8 + 8 * Z.of_nat (length bytes)) by lia.
  rewrite Z.pow_add_r by lia. change (2 ^ 8) with 256 in *. lia.
Qed.

Lemma readLE_bytes n v p : in_width (8 * Z.of_nat n) v → readLE n (le_bytes n v ++ p) = Value (v, p).
Proof.
  intros Hv. unfold readLE. rewrite length_app, length_le_bytes.
  destruct (Nat.ltb_spec (n + length p) n); [lia|].
  rewrite take_app_length', drop_app_length' by (symmetry; apply length_le_bytes). by rewrite le_value_bytes.
Qed.

(** The result of a bind whose first reader is known. *)
Lemma bind_value {A B} (m : Reader A) (f : A → Reader B) p x p' r :
  m p = Value (x, p') → f x p' = r → (m ≫= f) p = r.
Proof. intros Hm Hf. unfold mbind, Reader_bind. by rewrite Hm. Qed.

Lemma bind_value_inv {A B} (m : Reader A) (f : A → Reader B) p y p2 :
  (m ≫= f) p = Value (y, p2) → ∃ x p1, m p = Value (x, p1) ∧ f x p1 = Value (y, p2).
Proof. unfold mbind, Reader_bind. destruct (m p) as [[x p1]|]; [eauto|done]. Qed.

(** ** Lemmas: the writer writes the format *)

Lemma foldl_append {A} (f : list Z → A → list Z) (g : A → list Z) buf l :
  (∀ buf x, f buf x = buf ++ g x) → foldl f buf l = buf ++ (l ≫= g).
Proof.
  intros Hf. revert buf. induction l as [|x l IH]; intros buf; simpl; [by rewrite app_nil_r|].
  by rewrite IH, Hf, app_assoc.
Qed.

Lemma append_point_bytes buf pt : append_point buf pt = buf ++ point_bytes pt.
Proof. unfold append_point, appendLE, point_bytes. by rewrite app_assoc. Qed.

Lemma append_stroke_bytes buf s : append_stroke buf s = buf ++ stroke_bytes s.
Proof.
  unfold append_stroke, appendLE, stroke_bytes. rewrite (foldl_append _ _ _ _ append_point_bytes).
  by rewrite <-!app_assoc.
Qed.

Lemma serializeStrokes_bytes ss :
  serializeStrokes ss = le_bytes 4 1 ++ le_bytes 4 (u32 (Z.of_nat (length ss))) ++ (ss ≫= stroke_bytes).
Proof.
  unfold serializeStrokes, appendLE. rewrite (foldl_append _ _ _ _ append_stroke_bytes).
  by rewrite <-!app_assoc.
Qed.

Lemma length_bind_const {A B} (g : A → list B) size l :
  (∀ x, length (g x) = size x) → length (l ≫= g) = sum_list_with size l.
Proof. intros Hg. induction l; simpl; [done|]. rewrite length_app, Hg. by f_equal. Qed.

Lemma length_stroke_bytes s : length (stroke_bytes s) = (31 + 8 * length (points s))%nat.
Proof.
  unfold stroke_bytes. rewrite !length_app, !length_le_bytes.
  rewrite (length_bind_const _ (λ _, 8%nat)); [|intros; reflexivity].
  induction (points s); simpl in *; lia.
Qed.

Lemma length_serializeStrokes ss :
  length (serializeStrokes ss) = (8 + sum_list_with (λ s, 31 + 8 * length (points s)) ss)%nat.
Proof.
  rewrite serializeStrokes_bytes, !length_app, !length_le_bytes.
  by rewrite (length_bind_const _ _ _ length_stroke_bytes).
Qed.

(** ** Lemmas: the reader reads the format *)

Lemma read_many_bytes {A} (body : Reader A) (g : A → list Z) l p :
  Forall (λ x, ∀ p, body (g x ++ p) = Value (x, p)) l →
  read_many (length l) body ((l ≫= g) ++ p) = Value (l, p).
Proof.
  induction 1 as [|x l Hx _ IH]; [done|]. simpl. rewrite <-app_assoc.
  eapply bind_value; [apply Hx|]. by eapply bind_value; [apply IH|].
Qed.

Lemma read_point_bytes pt p : point_storable pt → read_point (point_bytes pt ++ p) = Value (pt, p).
Proof.
  intros [Hx Hy]. unfold read_point, point_bytes. rewrite <-app_assoc.
  eapply bind_value; [by apply readLE_bytes|]. eapply bind_value; [by apply readLE_bytes|].
  by destruct pt.
Qed.

Section Read.
Context `{Allocator}.

Lemma reserve_ok fits n p : fits n = true → reserve fits n p = Value (tt, p).
Proof. unfold reserve. by intros ->. Qed.

Lemma read_stroke_bytes s p :
  stroke_storable s → points_fit (Z.of_nat (length (points s))) = true →
  read_stroke (stroke_bytes s ++ p) = Value (s, p).
Proof.
  intros (Hid & Ha & Ho & Hc & Hc' & Ht & Ht' & Hn & Hp) Hfit.
  unfold read_stroke, stroke_bytes. rewrite <-!app_assoc, wrap_small by done.
  do 5 (eapply bind_value; [by apply readLE_bytes|]).
  eapply bind_value; [apply readLE_bytes; by destruct (finished s)|].
  eapply bind_value; [by apply readLE_bytes|].
  eapply bind_value; [by apply reserve_ok|]. rewrite Nat2Z.id.
  eapply bind_value.
  - apply read_many_bytes. eapply Forall_impl; [exact Hp|]. intros. by apply read_point_bytes.
  - rewrite Hc', Ht'. destruct s as [? ? ? ? ? ? []]; done.
Qed.

Lemma read_strokes_bytes ss p :
  board_storable ss → board_fits ss → read_strokes (serializeStrokes ss ++ p) = Value (ss, p).
Proof.
  intros [Hn Hs] [Hfit Hfits]. rewrite serializeStrokes_bytes, <-!app_assoc, wrap_small by done.
  unfold read_strokes. eapply bind_value; [by apply readLE_bytes|].
  eapply bind_value; [done|]. eapply bind_value; [by apply readLE_bytes|].
  eapply bind_value; [by apply reserve_ok|]. rewrite Nat2Z.id. apply read_many_bytes.
  rewrite Forall_forall in Hs, Hfits. apply Forall_forall. intros s Hin q.
  apply read_stroke_bytes; auto.
Qed.

(** ** Lemmas: readers and longer inputs *)

(** A reader that succeeds does not look at what follows; one that fails, other
    than for want of bytes, fails on every extension. *)
Definition steady {A} (m : Reader A) : Prop := ∀ p more,
  match m p with
  | Value (x, p') => m (p ++ more) = Value (x, p' ++ more)
  | Unexpected e => e = corrupted ∨ m (p ++ more) = Unexpected e
  end.

Lemma steady_ret {A} (x : A) : steady (mret x).
Proof. by intros p more. Qed.

Lemma steady_throw {A} e : steady (throw (A:=A) e).
Proof. intros p more. by right. Qed.

Lemma steady_bind {A B} (m : Reader A) (f : A → Reader B) :
  steady m → (∀ x, steady (f x)) → steady (m ≫= f).
Proof.
  intros Hm Hf p more. unfold mbind, Reader_bind. specialize (Hm p more).
  destruct (m p) as [[x p1]|e].
  - rewrite Hm. apply Hf.
  - destruct Hm as [->| ->]; auto.
Qed.

Lemma steady_readLE n : steady (readLE n).
Proof.
  intros p more. unfold readLE. rewrite length_app.
  destruct (Nat.ltb_spec (length p) n); [by left|].
  destruct (Nat.ltb_spec (length p + length more) n); [lia|].
  by rewrite take_app_le, drop_app_le by done.
Qed.

Lemma steady_reserve fits n : steady (reserve fits n).
Proof. unfold reserve. destruct (fits n); [apply steady_ret|apply steady_throw]. Qed.

Lemma steady_many {A} n (body : Reader A) : steady body → steady (read_many n body).
Proof.
  intros Hb. induction n; simpl; [apply steady_ret|]. repeat (apply steady_bind; [done|intros]).
  apply steady_ret.
Qed.
End Read.

Create HintDb steady.
#[export] Hint Resolve steady_ret steady_throw steady_bind steady_readLE steady_reserve steady_many
  : steady.

Section Errors.
Context `{Allocator}.

Lemma steady_read_strokes : steady read_strokes.
Proof.
  unfold read_strokes, read_stroke, read_point.
  repeat (first [apply steady_bind; [|intros] | case_bool_decide | apply steady_many]);
    auto with steady.
Qed.

(** ** Lemmas: what an accepted input holds *)

(** A result of the reader satisfies [Q] and took [size] bytes. *)
Definition yields {A} (m : Reader A) (Q : A → Prop) (size : A → nat) : Prop :=
  ∀ p x p', Forall is_u8 p → m p = Value (x, p') →
  Forall is_u8 p' ∧ Q x ∧ length p = (size x + length p')%nat.

Lemma yields_readLE n : yields (readLE n) (in_width (8 * Z.of_nat n)) (λ _, n).
Proof.
  intros p x p' Hp. unfold readLE. destruct (Nat.ltb_spec (length p) n); [done|]. intros [= <- <-].
  split_and!; [by apply Forall_drop| |rewrite length_drop; lia].
  assert (length (take n p) = n) as Hl by (rewrite length_take; lia). rewrite <-Hl at 1.
  apply le_value_range. by apply Forall_take.
Qed.

Lemma yields_many {A} n (body : Reader A) Q size :
  yields body Q size →
  yields (read_many n body) (λ xs, length xs = n ∧ Forall Q xs) (λ xs, sum_list_with size xs).
Proof.
  intros Hb. induction n as [|n IH]; intros p xs p' Hp; simpl; [by intros [= <- <-]|].
  intros (x & p1 & Hx & (ys & p2 & Hys & [= <- <-])%bind_value_inv)%bind_value_inv.
  apply Hb in Hx as (Hp1 & HQ & Hl); [|done]. apply IH in Hys as (Hp2 & [Hn HQs] & Hl2); [|done].
  split_and!; [done|simpl; lia|by constructor|simpl; lia].
Qed.

(** Reads one integer of an accepted input. *)
Ltac accept_int H v p Hv :=
  let Hp := fresh "Hp" in let Hl := fresh "Hl" in
  apply bind_value_inv in H as (v & p & Hv & H);
  apply yields_readLE in Hv as (Hp & Hv & Hl); [|assumption].

Lemma reserve_inv fits n p x p' : reserve fits n p = Value (x, p') → fits n = true ∧ p' = p.
Proof. unfold reserve. destruct (fits n); [|done]. by intros [= _ <-]. Qed.

Lemma yields_point : yields read_point point_storable (λ _, 8%nat).
Proof.
  intros p pt p' Hp Hr. unfold read_point in Hr.
  accept_int Hr x p1 Hx. accept_int Hr y p2 Hy. injection Hr as <- <-.
  split_and!; [done|done|lia].
Qed.

Definition stroke_readable (s : Stroke) : Prop :=
  stroke_storable s ∧ points_fit (Z.of_nat (length (points s))) = true.

Lemma color_of_u8_canonical n : color_of_u8 (color_to_u8 (color_of_u8 n)) = color_of_u8 n.
Proof. by rewrite color_u8_roundtrip. Qed.

Lemma yields_stroke : yields read_stroke stroke_readable (λ s, 31 + 8 * length (points s))%nat.
Proof.
  intros p s p' Hp Hr. unfold read_stroke in Hr.
  accept_int Hr sid p1 Hid. accept_int Hr a p2 Ha. accept_int Hr c p3 Hc. accept_int Hr t p4 Ht.
  accept_int Hr o p5 Ho. accept_int Hr f p6 Hf. accept_int Hr n p7 Hn.
  apply bind_value_inv in Hr as (u & p8 & Hfit & Hr). apply reserve_inv in Hfit as [Hfit ->].
  apply bind_value_inv in Hr as (pts & p9 & Hpts & [= <- <-]).
  apply (yields_many _ _ _ _ yields_point) in Hpts as (Hp9 & [Hlen HQ] & Hl9); [|done].
  assert (Z.of_nat (length pts) = n) as Hln by (rewrite Hlen; apply Z2Nat.id, Hn).
  assert (sum_list_with (λ _, 8%nat) pts = 8 * length pts)%nat as Hsum
    by (clear; induction pts; simpl; lia).
  unfold stroke_readable, stroke_storable. simpl. rewrite Hln, !color_u8_roundtrip, !thickness_u8_roundtrip.
  split_and!; try done. lia.
Qed.

(** ** The theorems *)

(** C30. A board is read back exactly as it was saved, when its numbers fit
    their types and the memory is there. *)
Theorem blob_roundtrip (ss : list Stroke) :
  board_storable ss → board_fits ss → deserializeStrokes (serializeStrokes ss) = Value ss.
Proof.
  intros Hs Hf. unfold deserializeStrokes.
  by rewrite <-(app_nil_r (serializeStrokes ss)), read_strokes_bytes.
Qed.

(** A saved blob that is cut short or has anything after it is refused,
    with the error the code has for each. *)
Theorem blob_framing (ss : list Stroke) :
  board_storable ss → board_fits ss →
  (∀ k, (k < length (serializeStrokes ss))%nat →
     deserializeStrokes (take k (serializeStrokes ss)) = Unexpected corrupted) ∧
  (∀ more, more ≠ [] → deserializeStrokes (serializeStrokes ss ++ more) = Unexpected trailing).
Proof.
  intros Hs Hf. unfold deserializeStrokes. split.
  - intros k Hk. pose proof (read_strokes_bytes ss [] Hs Hf) as Hall. rewrite app_nil_r in Hall.
    pose proof (steady_read_strokes (take k (serializeStrokes ss)) (drop k (serializeStrokes ss))) as Hst.
    rewrite take_drop, Hall in Hst. destruct (read_strokes (take k _)) as [[ss' p]|e].
    + injection Hst as _ Hp. symmetry in Hp. apply app_eq_nil in Hp as [_ Hp].
      apply (f_equal length) in Hp. rewrite length_drop in Hp. simpl in Hp. lia.
    + by destruct Hst as [->|].
  - intros more Hm. rewrite read_strokes_bytes by done. by rewrite bool_decide_eq_true_2.
Qed.

(** Whatever bytes are accepted, the strokes read fit their types, take
    as many bytes as they would when saved, and are read back when saved. *)
Theorem blob_accepted (data : list Z) (ss : list Stroke) :
  Forall is_u8 data → deserializeStrokes data = Value ss →
  board_storable ss ∧ length (serializeStrokes ss) = length data ∧
  deserializeStrokes (serializeStrokes ss) = Value ss.
Proof.
  intros Hd Hr. unfold deserializeStrokes in Hr.
  destruct (read_strokes data) as [[ss' p]|] eqn:E; [|done].
  case_bool_decide as Hp; [done|]. injection Hr as ->. subst p.
  unfold read_strokes in E. accept_int E v p1 Hv.
  apply bind_value_inv in E as (u & p2 & Hver & E).
  case_bool_decide; [done|]. injection Hver as _ <-. accept_int E n p3 Hn.
  apply bind_value_inv in E as (u' & p4 & Hfit & E). apply reserve_inv in Hfit as [Hfit ->].
  apply (yields_many _ _ _ _ yields_stroke) in E as (_ & [Hlen HQ] & Hl4); [|done].
  assert (Z.of_nat (length ss) = n) as Hln by (rewrite Hlen; apply Z2Nat.id, Hn).
  assert (board_storable ss) as Hs.
  { split; [by rewrite Hln|]. eapply Forall_impl; [exact HQ|]. by intros ? []. }
  assert (board_fits ss) as Hf.
  { split; [by rewrite Hln|]. eapply Forall_impl; [exact HQ|]. by intros ? []. }
  split_and!; [done|by rewrite length_serializeStrokes; simpl in *; lia|].
  unfold deserializeStrokes. by rewrite <-(app_nil_r (serializeStrokes ss)), read_strokes_bytes.
Qed.
End Errors.

(** ** Witnesses *)

(** Memory for a million elements. *)
Definition roomy : Allocator :=
  {| strokes_fit n := bool_decide (n ≤ 1000000); points_fit n := bool_decide (n ≤ 1000000) |}.

Definition demo_board : list Stroke :=
  [mkStroke 1 2 Blue Thick 3 [mkPoint 1065353216 0; mkPoint 0 7] true;
   mkStroke 2 5 Black Thin 4 [mkPoint 9 9] false].

Lemma demo_storable : board_storable demo_board.
Proof. repeat constructor; by_decision. Defined.

Lemma demo_fits : @board_fits roomy demo_board.
Proof. by repeat constructor. Defined.

Lemma blob_roundtrip_witness :
  @deserializeStrokes roomy (serializeStrokes demo_board) = Value demo_board.
Proof. exact (@blob_roundtrip roomy demo_board demo_storable demo_fits). Defined.

Lemma blob_framing_witness :
  length (serializeStrokes demo_board) = 94%nat ∧
  @deserializeStrokes roomy (take 50 (serializeStrokes demo_board)) = Unexpected corrupted ∧
  @deserializeStrokes roomy (serializeStrokes demo_board ++ [0]) = Unexpected trailing.
Proof.
  destruct (@blob_framing roomy demo_board demo_storable demo_fits) as [Hcut Hmore].
  split; [reflexivity|]. split; [apply Hcut; apply Nat.ltb_lt; reflexivity|by apply Hmore].
Defined.

(** A colour without an enumerator is accepted as the raw byte. *)
Lemma blob_accepted_witness :
  let data := serializeStrokes [mkStroke 1 2 (ColorRaw 200) Thick 3 [] true] in
  Forall is_u8 data ∧
  ∃ ss, @deserializeStrokes roomy data = Value ss ∧ board_storable ss.
Proof.
  intros data. assert (Forall is_u8 data) as Hd by by_decision. split; [exact Hd|].
  exists [mkStroke 1 2 (ColorRaw 200) Thick 3 [] true].
  assert (@deserializeStrokes roomy data = Value [mkStroke 1 2 (ColorRaw 200) Thick 3 [] true]) as E
    by (vm_compute; reflexivity).
  split; [exact E|]. by apply (@blob_accepted roomy data).
Defined.
