(* ===== verification/SqliteStore.v ===== *)
(** * SqliteSnapshotStore

    [persistence/src/sqlite_snapshot_store.cpp], lines 114 to 247: the store
    that keeps snapshots in the table [snapshots] of an SQLite database.

    SQLite is not part of the repository: [SqliteLib] is a connection that runs
    the statements the code prepares, one constructor of [Sql] for each text,
    with the bound values as arguments; an error code of any of [prepare],
    [bind] and [step] is the outcome [Unexpected], with [sqlite3_errmsg].
    [SqliteLaws] states the SQL meaning of the statements.  In particular
    [ORDER BY saved_at_ms DESC] says nothing about rows saved in the same
    millisecond. *)
From S2P Require Import Prelude CoreTypes SnapshotStore StrokeBlob.

(** ** SQLite *)

Record Row := mkRow {
  row_id : Z;
  row_room : Z;
  row_saved : Z;
  row_seq : Z;
  row_data : list Z;
}.

#[export] Instance Row_eq_dec : EqDecision Row.
Proof. solve_decision. Defined.

Inductive Sql :=
  | PragmaWal
  | CreateTable
  | InsertRow (room saved seq : Z) (data : list Z) (size : Z)
  | SelectMeta (room : Z)        (* WHERE room_id=? ORDER BY saved_at_ms DESC *)
  | SelectById (id : Z)
  | SelectLatest (room : Z)      (* ORDER BY saved_at_ms DESC LIMIT 1 *)
  | DeleteRoom (room : Z)
  | DeleteOld (room : Z) (limit : Z).  (* AND id NOT IN (SELECT id ... LIMIT ?) *)

Class SqliteLib := {
  conn : Type;
  sq_open : string → option string * conn;   (* the error, if any, and the handle *)
  sq_exec : Sql → conn → Expected (list Row) string * conn;
}.

(** [static_cast<sqlite3_int64>] of an unsigned 64-bit integer. *)
Definition s64 (n : Z) : Z := if bool_decide (n < 2 ^ 63) then n else n - 2 ^ 64.

(** [static_cast<int>] of a size below 2^32. *)
Definition s32 (n : Z) : Z := if bool_decide (n < 2 ^ 31) then n else n - 2 ^ 32.

(** ** The store *)

Section Store.
Context `{SqliteLib} `{Allocator}.

(** [sys_now] is the value of [std::chrono::system_clock] in milliseconds. *)
Record Store := mkStore {
  dbPath_ : string;
  db_ : option conn;
  sys_now : Z;
}.

(** Methods that may throw; what they did to the database stays. *)
Definition SM (A : Type) : Type := Store → Expected A Exn * Store.

#[export] Instance SM_ret : MRet SM := λ A x st, (Value x, st).
#[export] Instance SM_bind : MBind SM := λ A B f m st,
  match m st with
  | (Value x, st') => f x st'
  | (Unexpected e, st') => (Unexpected e, st')
  end.

Definition sthrow {A} (e : Exn) : SM A := λ st, (Unexpected e, st).

Definition set_db (c : conn) (st : Store) : Store := mkStore (dbPath_ st) (Some c) (sys_now st).

(** A statement prepared, bound and stepped to its end, each call in [throwIf]. *)
Definition run_sql (q : Sql) : SM (list Row) := λ st,
  match db_ st with
  | None => (Unexpected (RuntimeError "sqlite error"), st)
  | Some c =>
      match sq_exec q c with
      | (Value rs, c') => (Value rs, set_db c' st)
      | (Unexpected msg, c') => (Unexpected (RuntimeError msg), set_db c' st)
      end
  end.

(** [sqlite3_open] sets the handle even when it fails. *)
Definition open_db : SM unit := λ st,
  match sq_open (dbPath_ st) with
  | (None, c) => (Value tt, set_db c st)
  | (Some msg, c) => (Unexpected (RuntimeError msg), set_db c st)
  end.

Definition init : SM unit := λ st,
  match db_ st with
  | Some _ => (Value tt, st)
  | None => (_ ← open_db; _ ← run_sql PragmaWal; _ ← run_sql CreateTable; mret tt) st
  end.

Definition nowMs : SM Z := λ st, (Value (sys_now st), st).

Definition save (room : RoomId) (lastSeq : Seq) (strokes : list Stroke) : SM unit :=
  _ ← init;
  let blob := serializeStrokes strokes in
  savedAt ← nowMs;
  _ ← run_sql (InsertRow (s64 room) savedAt (s64 lastSeq) blob (s32 (u32 (Z.of_nat (length blob)))));
  mret tt.

Definition row_meta (r : Row) : SnapshotMeta :=
  mkSnapshotMeta (row_id r) (u64 (row_room r)) (row_saved r) (u64 (row_seq r)).

Definition list_snapshots (room : RoomId) : SM (list SnapshotMeta) :=
  _ ← init;
  rs ← run_sql (SelectMeta (s64 room));
  mret (row_meta <$> rs).

(** The end of both loads: the first row, if any, and its blob. *)
Definition load_row (rs : list Row) : SM (option StoredSnapshot) :=
  match rs with
  | [] => mret None
  | r :: _ =>
      if bool_decide (row_data r = []) then sthrow (RuntimeError "empty snapshot blob") else
      match deserializeStrokes (row_data r) with
      | Unexpected e => sthrow e
      | Value ss => mret (Some (mkStoredSnapshot (row_meta r) ss))
      end
  end.

Definition loadById (id : Z) : SM (option StoredSnapshot) :=
  _ ← init; rs ← run_sql (SelectById id); load_row rs.

Definition loadLatest (room : RoomId) : SM (option StoredSnapshot) :=
  _ ← init; rs ← run_sql (SelectLatest (s64 room)); load_row rs.

Definition pruneKeepLatest (room : RoomId) (keep : Z) : SM unit :=
  _ ← init;
  if bool_decide (keep = 0) then _ ← run_sql (DeleteRoom (s64 room)); mret tt
  else _ ← run_sql (DeleteOld (s64 room) (s64 keep)); mret tt.

(** [SqliteSnapshotStore] implements [ISnapshotStore]. *)
#[export] Instance sqlite_store : SnapshotStore Store := {|
  store_init := init;
  store_save := save;
  store_list := list_snapshots;
  store_loadById := loadById;
  store_loadLatest := loadLatest;
  store_pruneKeepLatest := pruneKeepLatest;
|}.
End Store.

(** ** What the code relies on *)

(** Newer first; nothing is said of rows saved in the same millisecond. *)
Definition newer (a b : Row) : Prop := row_saved b ≤ row_saved a.

#[export] Instance newer_dec a b : Decision (newer a b).
Proof. unfold newer. apply _. Defined.
#[export] Instance newer_total : Total newer.
Proof. intros a b. unfold newer. lia. Qed.
#[export] Instance newer_trans : Transitive newer.
Proof. intros a b c. unfold newer. lia. Qed.

(** [o] is an answer to [WHERE room_id=room ORDER BY saved_at_ms DESC]. *)
Definition by_date (room : Z) (table : list Row) (o : list Row) : Prop :=
  o ≡ₚ filter (λ r, row_room r = room) table ∧ StronglySorted newer o.

(** [LIMIT n]: a negative limit is none. *)
Definition limited (n : Z) (o : list Row) : list Row :=
  if bool_decide (n < 0) then o else take (Z.to_nat n) o.

Definition sql_meaning (q : Sql) (t t' : list Row) (rs : list Row) : Prop :=
  match q with
  | PragmaWal | CreateTable => t' = t
  | InsertRow room saved seq data size =>
      size = Z.of_nat (length data) →
      ∃ id, (∀ r, r ∈ t → row_id r < id) ∧ t' = t ++ [mkRow id room saved seq data]
  | SelectMeta room => t' = t ∧ by_date room t rs
  | SelectById id => t' = t ∧ rs = filter (λ r, row_id r = id) t
  | SelectLatest room => t' = t ∧ ∃ o, by_date room t o ∧ rs = take 1 o
  | DeleteRoom room => t' = filter (λ r, row_room r ≠ room) t
  | DeleteOld room limit => ∃ o, by_date room t o ∧
      t' = filter (λ r, row_room r ≠ room ∨ row_id r ∈ row_id <$> limited limit o) t
  end.

(** [table] is the content of the table [snapshots], in the order of [id]. *)
Class SqliteLaws `{SqliteLib} := {
  table : conn → list Row;
  table_ids c : NoDup (row_id <$> table c);
  exec_ok q c rs c' : sq_exec q c = (Value rs, c') → sql_meaning q (table c) (table c') rs;
  exec_err q c msg c' : sq_exec q c = (Unexpected msg, c') → table c' = table c;
}.

(** ** Lemmas *)

Lemma u64_s64 n : is_u64 n → u64 (s64 n) = n.
Proof.
  unfold is_u64, wrap, in_width, s64. intros [??]. case_bool_decide; [apply Z.mod_small; lia|].
  rewrite <-(Z.mod_add _ 1) by lia. replace (n - 2 ^ 64 + 1 * 2 ^ 64) with n by lia.
  apply Z.mod_small. lia.
Qed.

Lemma s64_small n : 0 ≤ n < 2 ^ 63 → s64 n = n.
Proof. intros. unfold s64. case_bool_decide; [done|lia]. Qed.

Lemma s32_small n : 0 ≤ n < 2 ^ 31 → s32 (u32 n) = n.
Proof. intros. rewrite wrap_small by (unfold in_width; lia). unfold s32. case_bool_decide; [done|lia]. Qed.

(** Picking out the first elements by a key that is unique. *)
Lemma filter_by_key {A} (key : A → Z) (n : nat) (o : list A) :
  NoDup (key <$> o) → filter (λ r, key r ∈ key <$> take n o) o = take n o.
Proof.
  intros Hnd. rewrite <-(take_drop n o) in Hnd. rewrite fmap_app in Hnd.
  apply NoDup_app in Hnd as (_ & Hdis & _).
  assert (filter (λ r, key r ∈ key <$> take n o) (take n o ++ drop n o) = take n o) as E;
    [|by rewrite take_drop in E].
  rewrite filter_app, (filter_none _ (drop n o)).
  - rewrite app_nil_r. apply filter_all. intros r Hr. apply list_elem_of_fmap. by exists r.
  - intros r Hr Hin. apply (Hdis _ Hin). apply list_elem_of_fmap. by exists r.
Qed.

Lemma sorted_split (o : list Row) n a b :
  StronglySorted newer o → a ∈ take n o → b ∈ drop n o → newer a b.
Proof.
  intros Hs Ha Hb. rewrite <-(take_drop n o) in Hs. apply StronglySorted_app in Hs as (Hs & _ & _).
  by apply Hs.
Qed.

Section Theorems.
Context `{SqliteLaws} `{Allocator}.

Lemma run_sql_cases q st c rs st' :
  db_ st = Some c → run_sql q st = (rs, st') →
  ∃ c', st' = set_db c' st ∧
    match rs with
    | Value l => sql_meaning q (table c) (table c') l
    | Unexpected e => (∃ msg, e = RuntimeError msg) ∧ table c' = table c
    end.
Proof.
  unfold run_sql. intros ->. destruct (sq_exec q c) as [[l|msg] c'] eqn:E; intros [= <- <-];
    exists c'; (split; [done|]).
  - by apply exec_ok.
  - split; [by eexists|]. by eapply exec_err.
Qed.

Lemma init_ready st c : db_ st = Some c → init st = (Value tt, st).
Proof. unfold init. by intros ->. Qed.

(** An [init] that fails is not tried again: the handle is set as soon as
    [sqlite3_open] was called, so the next [init] takes the store for ready, with
    or without its table. *)
Lemma failed_init_sticks st e st' : init st = (Unexpected e, st') → init st' = (Value tt, st').
Proof.
  assert (∀ q s x s1 c, db_ s = Some c → run_sql q s = (x, s1) → is_Some (db_ s1)) as Hrun.
  { unfold run_sql. intros q s x s1 c ->. by destruct (sq_exec q c) as [[] c1]; intros [= _ <-]; eexists. }
  assert (is_Some (db_ st') → init st' = (Value tt, st')) as Hready by by intros [c Hc]; eapply init_ready.
  unfold init at 1. destruct (db_ st); [done|]. unfold mbind, SM_bind.
  destruct (open_db st) as [o st1] eqn:E1.
  assert (∃ c, db_ st1 = Some c) as [c Hc].
  { unfold open_db in E1. destruct (sq_open (dbPath_ st)) as [[] c]; simplify_eq; by exists c. }
  destruct o as [[]|e1]; [|intros [= _ <-]; apply Hready; eauto].
  destruct (run_sql PragmaWal st1) as [o2 st2] eqn:E2. pose proof (Hrun _ _ _ _ _ Hc E2) as [c2 Hc2].
  destruct o2 as [l2|e2]; [|intros [= _ <-]; apply Hready; eauto].
  destruct (run_sql CreateTable st2) as [o3 st3] eqn:E3. pose proof (Hrun _ _ _ _ _ Hc2 E3) as [c3 Hc3].
  destruct o3 as [l3|e3]; [done|intros [= _ <-]; apply Hready; eauto].
Qed.

(** The last of the rows is newer than the others. *)
Lemma latest_row room (t o : list Row) r :
  by_date room (t ++ [r]) o → row_room r = room →
  (∀ r', r' ∈ t → row_room r' = room → row_saved r' < row_saved r) → ∃ o', o = r :: o'.
Proof.
  intros [Hp Hs] Hr Hlt.
  assert (r ∈ o) as Hin by (rewrite Hp; apply list_elem_of_filter; set_solver).
  destruct o as [|r0 o']; [by apply elem_of_nil in Hin|].
  exists o'. f_equal. apply elem_of_cons in Hin as [->|Hin]; [done|].
  apply StronglySorted_inv in Hs as [_ Hall]. rewrite Forall_forall in Hall.
  specialize (Hall r Hin). unfold newer in Hall.
  assert (r0 ∈ filter (λ r, row_room r = room) (t ++ [r])) as Hin0 by (rewrite <-Hp; by left).
  apply list_elem_of_filter in Hin0 as [Hr0 Hin0]. apply elem_of_app in Hin0 as [Hin0|Hin0]; [|set_solver].
  specialize (Hlt _ Hin0 Hr0). lia.
Qed.

(** Loading a row that [save] wrote. *)
Lemma load_saved_row id room now seq ss rs st :
  is_u64 room → is_u64 seq → board_storable ss → board_fits ss →
  load_row (mkRow id (s64 room) now (s64 seq) (serializeStrokes ss) :: rs) st =
    (Value (Some (mkStoredSnapshot (mkSnapshotMeta id room now seq) ss)), st).
Proof.
  intros Hroom Hseq Hs Hf. unfold load_row, row_meta. simpl.
  rewrite bool_decide_eq_false_2.
  - unfold deserializeStrokes. rewrite <-(app_nil_r (serializeStrokes ss)), read_strokes_bytes by done.
    by rewrite !u64_s64.
  - intros Hn. apply (f_equal length) in Hn. rewrite length_serializeStrokes in Hn. simpl in Hn. lia.
Qed.

(** What a load may also do: SQLite fails. *)
Definition sqlite_failed {A} (r : Expected A Exn) : Prop := ∃ msg, r = Unexpected (RuntimeError msg).


(** C32. Pruning keeps [keep] snapshots of the room, or all if there are fewer,
    none older than one it deletes, and leaves the other rooms alone. *)
Theorem prune_keeps_newest (st st' : Store) c room keep :
  db_ st = Some c → 0 ≤ keep < 2 ^ 63 → pruneKeepLatest room keep st = (Value tt, st') →
  ∃ c' kept, db_ st' = Some c' ∧
    filter (λ r, row_room r = s64 room) (table c') ≡ₚ kept ∧
    filter (λ r, row_room r ≠ s64 room) (table c') = filter (λ r, row_room r ≠ s64 room) (table c) ∧
    length kept = Nat.min (Z.to_nat keep) (length (filter (λ r, row_room r = s64 room) (table c))) ∧
    ∃ dropped, filter (λ r, row_room r = s64 room) (table c) ≡ₚ kept ++ dropped ∧
      ∀ a b, a ∈ kept → b ∈ dropped → row_saved b ≤ row_saved a.
Proof.
  intros Hdb Hk E. unfold pruneKeepLatest, mbind at 1, SM_bind at 1 in E.
  rewrite (init_ready _ _ Hdb) in E. case_bool_decide as Hz.
  - unfold mbind, SM_bind in E. destruct (run_sql _ st) as [[rs|e] st1] eqn:Ei; [|done].
    injection E as <-. apply (run_sql_cases _ _ _ _ _ Hdb) in Ei as (c' & -> & Hdel). simpl in Hdel.
    exists c', []. subst keep. rewrite Hdel, !list_filter_filter. split_and!; [done| | |done|].
    + rewrite filter_none; [done|]. by intros r _ [].
    + apply list_filter_iff. naive_solver.
    + exists (filter (λ r, row_room r = s64 room) (table c)). split; [done|]. by intros a b ?%elem_of_nil.
  - unfold mbind, SM_bind in E. destruct (run_sql _ st) as [[rs|e] st1] eqn:Ei; [|done].
    injection E as <-. apply (run_sql_cases _ _ _ _ _ Hdb) in Ei as (c' & -> & o & [Ho Hs] & Ht).
    rewrite (s64_small keep) in Ht by done. unfold limited in Ht.
    rewrite bool_decide_eq_false_2 in Ht by lia.
    assert (NoDup (row_id <$> o)) as Hnd.
    { rewrite Ho. eapply sublist_NoDup; [apply (table_ids c)|]. apply fmap_sublist, sublist_filter. }
    exists c', (take (Z.to_nat keep) o). split_and!; [done| | | |].
    + rewrite Ht, list_filter_filter.
      rewrite (list_filter_iff _ (λ r, row_id r ∈ row_id <$> take (Z.to_nat keep) o ∧ row_room r = s64 room))
        by naive_solver.
      rewrite <-list_filter_filter, <-Ho. by rewrite filter_by_key.
    + rewrite Ht, list_filter_filter. apply list_filter_iff. naive_solver.
    + by rewrite length_take, <-Ho.
    + exists (drop (Z.to_nat keep) o). rewrite take_drop. split; [done|].
      intros a b Ha Hb. by eapply sorted_split.
Qed.

(** When the clock went back since some snapshot of the room was saved, a new
    snapshot is not what [loadLatest] gives: it gives one with a later date. *)
Lemma clock_back_hides_snapshot (st st' st2 : Store) c room seq ss r0 snap :
  db_ st = Some c → Z.of_nat (length (serializeStrokes ss)) < 2 ^ 31 →
  r0 ∈ table c → row_room r0 = s64 room → sys_now st < row_saved r0 →
  save room seq ss st = (Value tt, st') → loadLatest room st' = (Value (Some snap), st2) →
  sys_now st < meta_savedAtMs (stored_meta snap).
Proof.
  intros Hdb Hlen Hin Hr0 Hlt E El. unfold save, mbind, SM_bind in E.
  rewrite (init_ready _ _ Hdb) in E. simpl in E.
  destruct (run_sql _ st) as [[rs|e] st1] eqn:Ei; [|done]. injection E as <-.
  apply (run_sql_cases _ _ _ _ _ Hdb) in Ei as (c' & -> & Hins).
  destruct (Hins (s32_small (Z.of_nat (length (serializeStrokes ss))) ltac:(lia))) as (id & _ & Ht).
  unfold loadLatest, mbind, SM_bind in El. rewrite (init_ready _ c') in El by done.
  destruct (run_sql _ _) as [[rs2|e] st3] eqn:Es; [|done].
  apply (run_sql_cases _ _ c') in Es as (c2 & -> & Hm); [|done].
  destruct Hm as (_ & o & [Hp Hs] & ->).
  assert (r0 ∈ o) as Ho.
  { rewrite Hp, Ht. apply list_elem_of_filter. split; [done|]. apply elem_of_app. by left. }
  destruct o as [|r o]; [by apply elem_of_nil in Ho|]. cbn [take firstn load_row] in El.
  assert (row_saved r0 ≤ row_saved r) as Hge.
  { apply elem_of_cons in Ho as [->|Ho]; [lia|]. apply StronglySorted_inv in Hs as [_ Hall].
    rewrite Forall_forall in Hall. by apply (Hall r0). }
  case_bool_decide; [done|]. destruct (deserializeStrokes (row_data r)); [|done].
  injection El as <- _. simpl. lia.
Qed.
End Theorems.

(** ** An SQLite *)

(** A database in memory: the rows, with distinct identifiers. *)
Definition rows_of (c : list Row) : list Row :=
  if bool_decide (NoDup (row_id <$> c)) then c else [].

Definition next_id (t : list Row) : Z := 1 + foldr (λ r n, Z.max (row_id r) n) 0 t.

Definition order_rows (room : Z) (t : list Row) : list Row :=
  merge_sort newer (filter (λ r, row_room r = room) t).

Definition sql_run (q : Sql) (t : list Row) : list Row * list Row :=
  match q with
  | PragmaWal | CreateTable => ([], t)
  | InsertRow room saved seq data _ => ([], t ++ [mkRow (next_id t) room saved seq data])
  | SelectMeta room => (order_rows room t, t)
  | SelectById id => (filter (λ r, row_id r = id) t, t)
  | SelectLatest room => (take 1 (order_rows room t), t)
  | DeleteRoom room => ([], filter (λ r, row_room r ≠ room) t)
  | DeleteOld room limit =>
      ([], filter (λ r, row_room r ≠ room ∨
             row_id r ∈ row_id <$> limited limit (order_rows room t)) t)
  end.

#[export] Instance memory_sqlite : SqliteLib := {|
  conn := list Row;
  sq_open path := (None, []);
  sq_exec q c := let '(rs, t) := sql_run q (rows_of c) in (Value rs, t);
|}.

Lemma next_id_fresh t r : r ∈ t → row_id r < next_id t.
Proof.
  unfold next_id. induction t as [|r' t IH]; [by intros ?%elem_of_nil|]. simpl.
  intros [->|Hin]%elem_of_cons; [lia|]. specialize (IH Hin). lia.
Qed.

Lemma order_rows_by_date room t : by_date room t (order_rows room t).
Proof. split; [apply merge_sort_Permutation|apply (StronglySorted_merge_sort newer)]. Qed.

Lemma rows_of_ids c : NoDup (row_id <$> rows_of c).
Proof. unfold rows_of. case_bool_decide; [done|constructor]. Qed.

Lemma rows_of_filter (P : Row → Prop) `{∀ r, Decision (P r)} c :
  rows_of (filter P (rows_of c)) = filter P (rows_of c).
Proof.
  unfold rows_of at 1. rewrite bool_decide_eq_true_2; [done|].
  eapply sublist_NoDup; [apply (rows_of_ids c)|]. apply fmap_sublist, sublist_filter.
Qed.

Lemma rows_of_same c : rows_of (rows_of c) = rows_of c.
Proof. unfold rows_of at 1. rewrite bool_decide_eq_true_2; [done|apply rows_of_ids]. Qed.

#[export] Instance memory_laws : @SqliteLaws memory_sqlite.
Proof.
  refine {| table (c : @conn memory_sqlite) := rows_of c |}.
  - apply rows_of_ids.
  - intros q c rs c'. unfold sq_exec, memory_sqlite, sql_run, sql_meaning.
    destruct q as [| |room saved seq data size|room|id|room|room|room limit]; intros [= <- <-];
      rewrite ?rows_of_same, ?rows_of_filter; try done.
    + intros _. exists (next_id (rows_of c)). split; [apply next_id_fresh|].
      unfold rows_of at 1. rewrite bool_decide_eq_true_2; [done|].
      rewrite fmap_app. apply NoDup_app. split_and!; [apply rows_of_ids| |apply NoDup_singleton].
      simpl. intros x (r & -> & Hr)%list_elem_of_fmap Hx%list_elem_of_singleton.
      pose proof (next_id_fresh _ _ Hr). lia.
    + split; [done|apply order_rows_by_date].
    + split; [done|]. eexists. split; [apply order_rows_by_date|done].
    + eexists. split; [apply order_rows_by_date|done].
  - intros q c msg c'. unfold sq_exec, memory_sqlite. by destruct (sql_run q (rows_of c)).
Defined.

(** ** Witnesses *)

Definition demo_rows : list Row :=
  [mkRow 1 7 1000 3 (serializeStrokes []); mkRow 2 8 1500 9 (serializeStrokes []);
   mkRow 3 7 1500 5 (serializeStrokes demo_board)].

Definition demo_store : @Store memory_sqlite := mkStore "clearspace.db" (Some demo_rows) 2000.

Definition demo_saved : @Store memory_sqlite := snd (@save memory_sqlite 7 6 demo_board demo_store).


Lemma prune_keeps_newest_witness :
  ∃ st' c' kept, @pruneKeepLatest memory_sqlite 7 1 demo_store = (Value tt, st') ∧
    db_ st' = Some c' ∧ filter (λ r, row_room r = 7) (@table _ memory_laws c') ≡ₚ kept ∧
    length kept = 1%nat.
Proof.
  destruct (@pruneKeepLatest memory_sqlite 7 1 demo_store) as [res st'] eqn:E.
  assert (res = Value tt) as -> by (vm_compute in E; congruence).
  destruct (@prune_keeps_newest memory_sqlite memory_laws demo_store st' demo_rows 7 1)
    as (c' & kept & Hdb & Hk & _ & Hl & _); [reflexivity|lia|exact E|].
  exists st', c', kept. split; [reflexivity|]. split; [exact Hdb|]. split; [exact Hk|].
  rewrite Hl. vm_compute. reflexivity.
Defined.
