(* ===== verification/SnapshotWriter.v ===== *)
(** * SnapshotWriter

    [persistence/src/snapshot_writer.cpp]: snapshots are queued by any number
    of threads and saved by one worker; [flush] waits until none is left, the
    destructor stops the worker and joins it.

    The threads are a labelled transition system: [exec a w] is the atomic
    action [a] in the state [w], or [None] when no thread is about to do it.
    What happens under [m_] is one action; an access to the atomic [pending_],
    a notification, and the two halves of a wait that is not protected by the
    mutex of what it waits for, are actions of their own.  A blocked thread can
    be woken by a notification or spuriously, as the standard allows.  Actions
    are sequentially consistent.

    [pushed] and [handled] are histories for the theorems: the snapshots in
    the order they entered the queue, and those the worker is done with. *)
From S2P Require Import Prelude CoreTypes ServerCore SnapshotStore.

Abbreviation Snapshot := PersistedBoardSnapshot.

(** ** The threads *)

(** Where the worker is in [run_]: about to evaluate the predicate of
    [cv_.wait]; blocked in it; before [save], with the task; before
    [fetch_sub]; before [notify_all]; returned. *)
Inductive WorkerPc :=
  | WCheck | WBlocked | WSaving (task : Snapshot) | WSaved | WNotify | WDone.

(** A call of [flush]: about to evaluate the predicate; it was false, about to
    block; blocked; returned. *)
Inductive FlushPc := FCheck | FWaiting | FBlocked | FReturned.

(** The destructor: not called; [stop_] set; notified, in [join]; returned. *)
Inductive DestroyPc := DNone | DStopped | DJoining | DJoined.

#[export] Instance WorkerPc_eq_dec : EqDecision WorkerPc.
Proof.
  assert (EqDecision Snapshot) by solve_decision. solve_decision.
Defined.
#[export] Instance FlushPc_eq_dec : EqDecision FlushPc.
Proof. solve_decision. Defined.
#[export] Instance DestroyPc_eq_dec : EqDecision DestroyPc.
Proof. solve_decision. Defined.

Section Writer.
Context {Σ : Type} `{SnapshotStore Σ}.

Record Writer := mkWriter {
  store_ : Σ;
  keepLatest_ : Z;
  q_ : list Snapshot;
  stop_ : bool;
  pending_ : Z;
  worker_ : WorkerPc;
  (** calls of [enqueue] before the push, and before the notification *)
  to_push : list Snapshot;
  to_notify : nat;
  flushes : list FlushPc;
  destroy : DestroyPc;
  pushed : list Snapshot;
  handled : list Snapshot;
}.

(** The constructor. *)
Definition new_writer (store : option Σ) (keepLatest : Z) : Expected Writer Exn :=
  match store with
  | None => Unexpected (InvalidArgument "SnapshotWriter requires a store")
  | Some σ =>
      match store_init σ with
      | (Unexpected e, _) => Unexpected e
      | (Value _, σ') =>
          Value (mkWriter σ' keepLatest [] false 0 WCheck [] 0 [] DNone [] [])
      end
  end.

(** [save] then [pruneKeepLatest]; [catch (...)] swallows what either throws. *)
Definition save_task (keep : Z) (task : Snapshot) (σ : Σ) : Σ :=
  match store_save (pers_room task) (pers_lastSeq task) (pers_strokes task) σ with
  | (Unexpected _, σ') => σ'
  | (Value _, σ') => snd (store_pruneKeepLatest (pers_room task) keep σ')
  end.

Inductive Act :=
  | ABegin (t : Snapshot)        (* enqueue: pending_.fetch_add *)
  | APush (i : nat)              (* enqueue: q_.push *)
  | ANotify                      (* enqueue: cv_.notify_one *)
  | AWorker                      (* the worker's next action *)
  | AWake                        (* the worker wakes up spuriously *)
  | AFlush                       (* flush is called *)
  | AFlushStep (i : nat)         (* the i-th flush's next action *)
  | AFlushWake (i : nat)         (* it wakes up spuriously *)
  | ADestroy.                    (* the destructor's next action *)

(** A notified worker evaluates the predicate again. *)
Definition wake (pc : WorkerPc) : WorkerPc :=
  match pc with WBlocked => WCheck | _ => pc end.

Definition wake_flush (pc : FlushPc) : FlushPc :=
  match pc with FBlocked => FCheck | _ => pc end.

(** The worker's next action. *)
Definition run_ (w : Writer) : option Writer :=
  let '(mkWriter σ k q stop n pc tp tn fl d ps hs) := w in
  match pc with
  | WCheck =>
      Some (if negb (stop || negb (bool_decide (q = []))) then mkWriter σ k q stop n WBlocked tp tn fl d ps hs
      else match q with
           | [] => mkWriter σ k q stop n WDone tp tn fl d ps hs
           | t :: q => mkWriter σ k q stop n (WSaving t) tp tn fl d ps hs
           end)
  | WBlocked | WDone => None
  | WSaving t => Some (mkWriter (save_task k t σ) k q stop n WSaved tp tn fl d ps (hs ++ [t]))
  | WSaved => Some (mkWriter σ k q stop (u64 (n - 1)) WNotify tp tn fl d ps hs)
  | WNotify => Some (mkWriter σ k q stop n WCheck tp tn (wake_flush <$> fl) d ps hs)
  end.

Definition exec (a : Act) (w : Writer) : option Writer :=
  let '(mkWriter σ k q stop n pc tp tn fl d ps hs) := w in
  match a with
  | ABegin t =>
      if bool_decide (d = DNone)
      then Some (mkWriter σ k q stop (u64 (n + 1)) pc (tp ++ [t]) tn fl d ps hs) else None
  | APush i =>
      t ← tp !! i;
      Some (mkWriter σ k (q ++ [t]) stop n pc (delete i tp) (S tn) fl d (ps ++ [t]) hs)
  | ANotify =>
      match tn with
      | O => None
      | S tn => Some (mkWriter σ k q stop n (wake pc) tp tn fl d ps hs)
      end
  | AWorker => run_ w
  | AWake =>
      if bool_decide (pc = WBlocked) then Some (mkWriter σ k q stop n WCheck tp tn fl d ps hs) else None
  | AFlush =>
      if bool_decide (d = DNone)
      then Some (mkWriter σ k q stop n pc tp tn (fl ++ [FCheck]) d ps hs) else None
  | AFlushStep i =>
      f ← fl !! i;
      match f with
      | FCheck =>
          Some (mkWriter σ k q stop n pc tp tn
                  (<[i := if bool_decide (n = 0) then FReturned else FWaiting]> fl) d ps hs)
      | FWaiting => Some (mkWriter σ k q stop n pc tp tn (<[i := FBlocked]> fl) d ps hs)
      | FBlocked | FReturned => None
      end
  | AFlushWake i =>
      f ← fl !! i;
      if bool_decide (f = FBlocked)
      then Some (mkWriter σ k q stop n pc tp tn (<[i := FCheck]> fl) d ps hs) else None
  | ADestroy =>
      match d with
      | DNone =>
          (* the owner destroys the writer once no call of it is running *)
          if bool_decide (tp = [] ∧ tn = O ∧ Forall (λ f, f = FReturned) fl)
          then Some (mkWriter σ k q true n pc tp tn fl DStopped ps hs) else None
      | DStopped => Some (mkWriter σ k q stop n (wake pc) tp tn fl DJoining ps hs)
      | DJoining =>
          if bool_decide (pc = WDone) then Some (mkWriter σ k q stop n pc tp tn fl DJoined ps hs) else None
      | DJoined => None
      end
  end.

Fixpoint execs (acts : list Act) (w : Writer) : option Writer :=
  match acts with
  | [] => Some w
  | a :: acts => w ← exec a w; execs acts w
  end.

(** The states a writer with store [σ0] can be in. *)
Inductive writer_reach (σ0 : Σ) (keep : Z) : Writer → Prop :=
  | reach_start w : new_writer (Some σ0) keep = Value w → writer_reach σ0 keep w
  | reach_act a w w' : writer_reach σ0 keep w → exec a w = Some w' → writer_reach σ0 keep w'.

(** ** The invariant *)

Definition inflight (pc : WorkerPc) : list Snapshot :=
  match pc with WSaving t => [t] | _ => [] end.

(** Tasks the worker took and has not counted down. *)
Definition busy (pc : WorkerPc) : nat :=
  match pc with WSaving _ | WSaved => 1 | _ => 0 end.

Record writer_inv (σ0 : Σ) (keep : Z) (w : Writer) : Prop := {
  inv_fifo : pushed w = handled w ++ inflight (worker_ w) ++ q_ w;
  inv_pending : pending_ w = u64 (Z.of_nat (length (to_push w) + length (q_ w) + busy (worker_ w)));
  inv_keep : keepLatest_ w = keep;
  inv_store : store_ w = foldl (λ σ t, save_task keep t σ) (snd (store_init σ0)) (handled w);
  inv_stop : stop_ w = true ↔ destroy w ≠ DNone;
  inv_blocked : worker_ w = WBlocked → q_ w ≠ [] → (0 < to_notify w)%nat;
  inv_blocked_stop : worker_ w = WBlocked → stop_ w = true → destroy w = DStopped;
  inv_done : worker_ w = WDone → stop_ w = true ∧ q_ w = [];
  inv_quiet : destroy w ≠ DNone → to_push w = [] ∧ to_notify w = O;
  inv_joined : destroy w = DJoined → worker_ w = WDone;
}.

Lemma wake_blocked pc : wake pc ≠ WBlocked.
Proof. by destruct pc. Qed.

Lemma inflight_wake pc : inflight (wake pc) = inflight pc.
Proof. by destruct pc. Qed.

Lemma busy_wake pc : busy (wake pc) = busy pc.
Proof. by destruct pc. Qed.

Lemma wake_done pc : wake pc = WDone ↔ pc = WDone.
Proof. by destruct pc. Qed.

Lemma u64_add_sub a b n : a = u64 n → u64 (a + b) = u64 (n + b).
Proof. intros ->. unfold wrap. by rewrite Zplus_mod_idemp_l. Qed.

Lemma start_inv σ0 keep w : new_writer (Some σ0) keep = Value w → writer_inv σ0 keep w.
Proof.
  unfold new_writer. destruct (store_init σ0) as [[|] σ] eqn:E; [|done]. intros [= <-].
  by split; simpl; rewrite ?E.
Qed.

(** Leaves the fields of the invariant that do not follow at once. *)
Ltac by_fields :=
  split; simpl in *; rewrite ?inflight_wake, ?busy_wake, ?wake_done; try done; try (by auto);
  try (by intros Hx; apply wake_blocked in Hx);
  try (match goal with H : ?d = DJoined → _ = WDone |- ?d = DJoined → _ =>
         let Hx := fresh in intros Hx; by apply H in Hx end).

Lemma worker_inv σ0 keep w w' : writer_inv σ0 keep w → run_ w = Some w' → writer_inv σ0 keep w'.
Proof.
  intros [Hf Hp Hk Hs Hst Hb Hbs Hd Hq Hj] E.
  destruct w as [σ k q stop n pc tp tn fl d ps hs]. simpl in *. subst k.
  destruct pc as [| |t| | |]; try discriminate E; injection E as <-; simpl in *.
  - destruct stop, q as [|t q]; simpl in *; by_fields; rewrite Hp; f_equal; lia.
  - by_fields; [by rewrite Hf, <-app_assoc|by rewrite foldl_app, <-Hs].
  - by_fields. unfold Z.sub. rewrite (u64_add_sub _ _ _ Hp). f_equal. lia.
  - by_fields.
Qed.

Lemma exec_inv σ0 keep a w w' : writer_inv σ0 keep w → exec a w = Some w' → writer_inv σ0 keep w'.
Proof.
  intros I E. pose proof I as [Hf Hp Hk Hs Hst Hb Hbs Hd Hq Hj].
  destruct w as [σ k q stop n pc tp tn fl d ps hs]. simpl in *. subst k.
  destruct a as [t|i| | | | |i|i|]; [| | |by eapply worker_inv|..]; simpl in E.
  - case_bool_decide; [|done]. injection E as <-. by_fields.
    rewrite (u64_add_sub _ _ _ Hp), length_app. simpl. f_equal. lia.
  - apply bind_Some in E as (t & Ht & [= <-]). by_fields.
    + by rewrite Hf, <-!app_assoc.
    + rewrite Hp. f_equal. rewrite length_app. simpl.
      apply lookup_lt_Some in Ht as Hlt. rewrite length_delete by eauto. lia.
    + lia.
    + intros Hpc. destruct (Hd Hpc) as [Hstop _]. apply Hst, Hq in Hstop as [-> _]. done.
    + intros Hne. destruct (Hq Hne) as [-> _]. done.
  - destruct tn as [|tn]; [done|]. injection E as <-. by_fields. intros Hne. by destruct (Hq Hne).
  - case_bool_decide as Hpc; [|done]. injection E as <-. subst pc. by_fields.
  - case_bool_decide; [|done]. injection E as <-. by_fields.
  - apply bind_Some in E as ([] & _ & E); try done; injection E as <-; by_fields.
  - apply bind_Some in E as (f & _ & E). case_bool_decide; [|done]. injection E as <-. by_fields.
  - destruct d; [case_bool_decide as Hc| |case_bool_decide|]; try done; injection E as <-.
    + destruct Hc as (-> & -> & _). by_fields. intros Hpc. by destruct (Hd Hpc).
    + by_fields. by rewrite Hst.
    + subst pc. by_fields. by rewrite Hst.
Qed.

Lemma reach_inv σ0 keep w : writer_reach σ0 keep w → writer_inv σ0 keep w.
Proof. induction 1; [by apply start_inv|by eapply exec_inv]. Qed.

(** ** Running the worker *)

Lemma execs_app acts1 acts2 w : execs (acts1 ++ acts2) w = (execs acts1 w ≫= execs acts2).
Proof.
  revert w. induction acts1 as [|a acts1 IH]; intros w; simpl; [done|].
  destruct (exec a w); simpl; [apply IH|done].
Qed.

Lemma reach_execs σ0 keep acts w w' :
  writer_reach σ0 keep w → execs acts w = Some w' → writer_reach σ0 keep w'.
Proof.
  revert w. induction acts as [|a acts IH]; intros w Hw; simpl; [by intros [= <-]|].
  intros (w1 & E & E')%bind_Some. eapply IH; [|done]. by eapply reach_act.
Qed.

(** What the worker leaves alone. *)
Definition same_calls (w w' : Writer) : Prop :=
  pushed w' = pushed w ∧ stop_ w' = stop_ w ∧ destroy w' = destroy w ∧
  to_push w' = to_push w ∧ to_notify w' = to_notify w.

(** The worker finishes the task it has. *)
Lemma worker_finishes w :
  worker_ w ≠ WBlocked → worker_ w ≠ WDone →
  ∃ k w', execs (replicate k AWorker) w = Some w' ∧ worker_ w' = WCheck ∧ q_ w' = q_ w ∧
    handled w' = handled w ++ inflight (worker_ w) ∧ same_calls w w'.
Proof.
  destruct w as [σ k q stop n pc tp tn fl d ps hs]. simpl. intros Hb Hd.
  destruct pc as [| |t| | |]; [exists 0%nat|done|exists 3%nat|exists 2%nat|exists 1%nat|done];
    eexists; (split; [reflexivity|]); simpl; rewrite ?app_nil_r; by split_and!.
Qed.

(** The worker empties the queue, then blocks or returns. *)
Lemma worker_empties w :
  worker_ w = WCheck →
  ∃ k w', execs (replicate k AWorker) w = Some w' ∧ q_ w' = [] ∧
    worker_ w' = (if stop_ w then WDone else WBlocked) ∧
    handled w' = handled w ++ q_ w ∧ same_calls w w'.
Proof.
  destruct w as [σ k q stop n pc tp tn fl d ps hs]. simpl. intros ->.
  revert σ n fl hs. induction q as [|t q IH]; intros σ n fl hs.
  - exists 1%nat. destruct stop; eexists; (split; [reflexivity|]); simpl; rewrite app_nil_r; by split_and!.
  - destruct (IH (save_task k t σ) (u64 (n - 1)) (wake_flush <$> fl) (hs ++ [t]))
      as (j & w' & E & Hq & Hw & Hh & Hs).
    exists (4 + j)%nat, w'. split_and!; [|done|done|by rewrite Hh, <-app_assoc|done].
    rewrite replicate_add, execs_app. rewrite <-E. simpl.
    by rewrite orb_true_r.
Qed.

(** From a state where the worker is not blocked it handles all that was queued. *)
Lemma worker_handles_all σ0 keep w :
  writer_inv σ0 keep w → worker_ w ≠ WBlocked →
  ∃ k w', execs (replicate k AWorker) w = Some w' ∧ q_ w' = [] ∧
    worker_ w' = (if stop_ w then WDone else WBlocked) ∧ handled w' = pushed w ∧ same_calls w w'.
Proof.
  intros I Hb. destruct (decide (worker_ w = WDone)) as [Hd|Hd].
  - destruct (inv_done _ _ _ I Hd) as [Hst Hq]. exists 0%nat, w.
    pose proof (inv_fifo _ _ _ I) as Hf. rewrite Hd, Hq in Hf. simpl in Hf. rewrite app_nil_r in Hf.
    rewrite Hst. by split_and!.
  - destruct (worker_finishes w Hb Hd) as (k1 & w1 & E1 & Hw1 & Hq1 & Hh1 & Hs1).
    destruct (worker_empties w1 Hw1) as (k2 & w2 & E2 & Hq2 & Hw2 & Hh2 & Hs2).
    exists (k1 + k2)%nat, w2. rewrite replicate_add, execs_app, E1. unfold same_calls in *.
    destruct_and!. split; [exact E2|]. split_and!; try congruence.
    + by replace (stop_ w) with (stop_ w1).
    + by rewrite Hh2, Hh1, Hq1, <-app_assoc, <-(inv_fifo _ _ _ I).
Qed.

(** The effect of the worker's tasks on the store. *)
Definition save_all (keep : Z) (ts : list Snapshot) (σ : Σ) : Σ :=
  foldl (λ σ t, save_task keep t σ) σ ts.

(** ** The sink of the core *)

(** A call of [enqueue] that nothing interrupts. *)
Definition run_enqueue (t : Snapshot) (w : Writer) : Writer :=
  default w (execs [ABegin t; APush (length (to_push w)); ANotify] w).

Lemma run_enqueue_spec t w :
  destroy w = DNone →
  execs [ABegin t; APush (length (to_push w)); ANotify] w = Some (run_enqueue t w) ∧
  destroy (run_enqueue t w) = DNone ∧ to_push (run_enqueue t w) = to_push w ∧
  pushed (run_enqueue t w) = pushed w ++ [t].
Proof.
  destruct w as [σ k q stop n pc tp tn fl d ps hs]. unfold run_enqueue. simpl. intros ->.
  assert ((tp ++ [t]) !! length tp = Some t) as Ht by by apply list_lookup_middle.
  simpl. rewrite Ht. simpl. by rewrite delete_middle, app_nil_r.
Qed.

(** A writer whose destructor was not called. *)
Definition LiveWriter : Type := { w : Writer | destroy w = DNone }.

Definition enqueue_live (t : Snapshot) (w : LiveWriter) : LiveWriter :=
  exist _ (run_enqueue t (`w)) (proj1 (proj2 (run_enqueue_spec t (`w) (proj2_sig w)))).

(** It is the sink [ServerCore] relies on. *)
#[export] Instance writer_sink : SnapshotSink LiveWriter.
Proof.
  refine {| enqueue := enqueue_live; sink_log w := pushed (`w) |}.
  intros t w. apply (run_enqueue_spec t (`w) (proj2_sig w)).
Defined.

(** ** The theorems *)

(** C26. Whatever the interleaving, the worker saves the snapshots in the order
    they were queued, each exactly once: the store is the result of saving and
    pruning those handled so far, the rest waits in the queue, and [pending_]
    counts the snapshots whose [enqueue] has begun and that are not saved. *)
Theorem writer_saves_in_order (σ0 : Σ) (keep : Z) (w : Writer) :
  writer_reach σ0 keep w →
  store_ w = save_all keep (handled w) (snd (store_init σ0)) ∧
  pushed w = handled w ++ inflight (worker_ w) ++ q_ w ∧
  pending_ w = u64 (Z.of_nat (length (to_push w) + length (q_ w) + busy (worker_ w))).
Proof. intros I%reach_inv. by destruct I. Qed.

(** No wake-up of the worker is lost: from every state the worker and the
    notifications already due are enough to save all that was queued. *)
Theorem writer_drains (σ0 : Σ) (keep : Z) (w : Writer) :
  writer_reach σ0 keep w → destroy w = DNone →
  ∃ acts w', Forall (λ a, a = AWorker ∨ a = ANotify) acts ∧ execs acts w = Some w' ∧
    handled w' = pushed w ∧ q_ w' = [] ∧ worker_ w' = WBlocked ∧
    store_ w' = save_all keep (pushed w) (snd (store_init σ0)).
Proof.
  intros Hr Hd. pose proof (reach_inv _ _ _ Hr) as I.
  assert (stop_ w = false) as Hst.
  { destruct (stop_ w) eqn:E; [|done]. by apply (inv_stop _ _ _ I) in E. }
  assert (∃ acts w', Forall (λ a, a = AWorker ∨ a = ANotify) acts ∧ execs acts w = Some w' ∧
    handled w' = pushed w ∧ q_ w' = [] ∧ worker_ w' = WBlocked) as (acts & w' & Ha & E & Hh & Hq & Hb).
  { destruct (decide (worker_ w = WBlocked ∧ q_ w = [])) as [[Hb Hq]|Hn].
    - exists [], w. pose proof (inv_fifo _ _ _ I) as Hf. rewrite Hb, Hq in Hf. simpl in Hf.
      rewrite app_nil_r in Hf. by split_and!.
    - assert (∃ acts w1, Forall (λ a, a = AWorker ∨ a = ANotify) acts ∧ execs acts w = Some w1 ∧
        worker_ w1 ≠ WBlocked ∧ pushed w1 = pushed w ∧ stop_ w1 = false) as (acts & w1 & Ha & E & Hb & Hp & Hs).
      { destruct (decide (worker_ w = WBlocked)) as [Hb|Hb].
        - assert (q_ w ≠ []) as Hq by (intros Hq; by apply Hn).
          pose proof (inv_blocked _ _ _ I Hb Hq) as Hlt.
          destruct w as [σ k q stop n pc tp [|tn] fl d ps hs]; simpl in *; [lia|]. subst.
          exists [ANotify]. eexists. split; [by repeat constructor; right|]. by split_and!.
        - exists [], w. by split_and!. }
      destruct (worker_handles_all σ0 keep w1) as (k & w2 & E2 & Hq2 & Hw2 & Hh2 & _);
        [by eapply reach_inv, reach_execs|done|].
      exists (acts ++ replicate k AWorker), w2. rewrite execs_app, E. rewrite Hs in Hw2.
      split; [|split; [exact E2|by split_and!; congruence]].
      apply Forall_app. split; [done|]. apply Forall_replicate. by left. }
  exists acts, w'. split_and!; try done.
  pose proof (reach_inv _ _ _ (reach_execs _ _ _ _ _ Hr E)) as I'.
  by rewrite (inv_store _ _ _ I'), Hh.
Qed.

(** The destructor was called: no snapshot is pushed any more. *)
Lemma stopped_exec σ0 keep a w w' :
  writer_inv σ0 keep w → destroy w ≠ DNone → exec a w = Some w' → destroy w' ≠ DNone ∧ pushed w' = pushed w.
Proof.
  intros I Hd E. destruct (inv_quiet _ _ _ I Hd) as [Htp _]. clear I.
  destruct w as [σ k q stop n pc tp tn fl d ps hs]. simpl in *. subst tp.
  destruct a as [t|i| | | | |i|i|]; simpl in E;
    repeat first [case_match | case_bool_decide | progress simplify_option_eq]; try done; by split.
Qed.

Lemma stopped_execs σ0 keep acts w w' :
  writer_reach σ0 keep w → destroy w ≠ DNone → execs acts w = Some w' → pushed w' = pushed w.
Proof.
  revert w. induction acts as [|a acts IH]; intros w Hr Hd; simpl; [by intros [= <-]|].
  intros (w1 & E & E')%bind_Some. destruct (stopped_exec σ0 keep a w w1) as [Hd1 <-]; [by apply reach_inv|done..|].
  apply IH; [by eapply reach_act|done..].
Qed.

(** When the destructor has returned, every snapshot ever queued has been saved. *)
Lemma joined_saved_all (σ0 : Σ) (keep : Z) (w : Writer) :
  writer_reach σ0 keep w → destroy w = DJoined →
  to_push w = [] ∧ q_ w = [] ∧ handled w = pushed w ∧
  store_ w = save_all keep (pushed w) (snd (store_init σ0)).
Proof.
  intros I%reach_inv Hd. destruct (inv_quiet _ _ _ I) as [Htp _]; [by rewrite Hd|].
  pose proof (inv_joined _ _ _ I Hd) as Hw. destruct (inv_done _ _ _ I Hw) as [_ Hq].
  pose proof (inv_fifo _ _ _ I) as Hf. rewrite Hw, Hq in Hf. simpl in Hf. rewrite app_nil_r in Hf.
  rewrite (inv_store _ _ _ I), Hf. by split_and!.
Qed.

(** The worker brings the destructor to its end. *)
Lemma destructor_returns (σ0 : Σ) (keep : Z) (w : Writer) :
  writer_reach σ0 keep w → destroy w ≠ DNone →
  ∃ acts w', Forall (λ a, a = AWorker ∨ a = ADestroy) acts ∧ execs acts w = Some w' ∧
    destroy w' = DJoined.
Proof.
  intros Hr Hd. pose proof (reach_inv _ _ _ Hr) as I.
  assert (stop_ w = true) as Hst by by apply (inv_stop _ _ _ I).
  destruct (decide (destroy w = DJoined)) as [Hj|Hj]; [by exists [], w|].
  assert (∃ acts w1, Forall (λ a, a = AWorker ∨ a = ADestroy) acts ∧ execs acts w = Some w1 ∧
    worker_ w1 ≠ WBlocked ∧ stop_ w1 = true ∧ destroy w1 = DJoining) as (acts & w1 & Ha & E & Hb & Hs & Hd1).
  { destruct (destroy w) eqn:Ed; [done| | |done].
    - destruct w as [σ k q stop n pc tp tn fl d ps hs]; simpl in *. subst.
      exists [ADestroy]. eexists. split; [by repeat constructor; right|].
      split_and!; [reflexivity|simpl; apply wake_blocked|done|done].
    - exists [], w. split_and!; try done. intros Hb.
      pose proof (inv_blocked_stop _ _ _ I Hb Hst). congruence. }
  destruct (worker_handles_all σ0 keep w1) as (k & w2 & E2 & _ & Hw2 & _ & Hs2);
    [by eapply reach_inv, reach_execs|done|].
  rewrite Hs in Hw2. unfold same_calls in Hs2. destruct_and!.
  assert (exec ADestroy w2 = Some (mkWriter (store_ w2) (keepLatest_ w2) (q_ w2) (stop_ w2)
    (pending_ w2) (worker_ w2) (to_push w2) (to_notify w2) (flushes w2) DJoined (pushed w2) (handled w2))) as E3.
  { destruct w2 as [σ j q stop n pc tp tn fl d ps hs]; simpl in *. subst. by rewrite Hd1. }
  exists (acts ++ replicate k AWorker ++ [ADestroy]). eexists.
  rewrite execs_app, E. simpl. rewrite execs_app, E2. simpl. rewrite E3. split_and!; [|done|done].
  rewrite !Forall_app, Forall_singleton. split_and!; [done| |by right]. apply Forall_replicate. by left.
Qed.

(** C25. Nothing is lost at shutdown.  A destructor that was called can always
    return: the worker alone brings it there, whatever is still queued.  And when it
    has returned, whatever came in between, every snapshot queued before has been
    saved, in order. *)
Theorem destructor_saves_all (σ0 : Σ) (keep : Z) (w : Writer) :
  writer_reach σ0 keep w → destroy w ≠ DNone →
  (∃ acts w', Forall (λ a, a = AWorker ∨ a = ADestroy) acts ∧ execs acts w = Some w' ∧ destroy w' = DJoined) ∧
  ∀ acts w', execs acts w = Some w' → destroy w' = DJoined →
    q_ w' = [] ∧ handled w' = pushed w ∧ store_ w' = save_all keep (pushed w) (snd (store_init σ0)).
Proof.
  intros Hr Hd. split; [by eapply destructor_returns|]. intros acts w' E Hj.
  rewrite <-(stopped_execs σ0 keep acts w w') by done.
  apply (joined_saved_all σ0 keep w'); [by eapply reach_execs|done].
Qed.

(** C27. When a [flush] returns, every snapshot whose [enqueue] had begun is in
    the store (fewer than 2^64 - 1 were waiting). *)
Theorem flush_waits (σ0 : Σ) (keep : Z) (w w' : Writer) (i : nat) :
  writer_reach σ0 keep w → Z.of_nat (length (to_push w) + length (q_ w)) + 1 < 2 ^ 64 →
  flushes w !! i ≠ Some FReturned → exec (AFlushStep i) w = Some w' →
  flushes w' !! i = Some FReturned →
  to_push w' = [] ∧ q_ w' = [] ∧ handled w' = pushed w' ∧
  store_ w' = save_all keep (pushed w') (snd (store_init σ0)).
Proof.
  intros Hr Hlt Hn E Hret. pose proof (reach_inv _ _ _ Hr) as I.
  destruct w as [σ k q stop n pc tp tn fl d ps hs]. simpl in *.
  apply bind_Some in E as (f & Hf & E). assert (i < length fl)%nat as Hi by by eapply lookup_lt_Some.
  destruct f; try done; injection E as <-; simpl in *; rewrite list_lookup_insert_eq in Hret by done;
    simplify_eq.
  case_bool_decide as Hz; [|done]. destruct I as [Hfifo Hp _ Hs _ _ _ _ _ _]. simpl in *. subst n.
  assert (busy pc ≤ 1)%nat by (destruct pc; simpl; lia).
  rewrite wrap_small in Hz by (unfold in_width; lia).
  destruct tp as [|? tp]; [|simpl in Hz; lia]. destruct q as [|? q]; [|simpl in Hz; lia].
  assert (inflight pc = []) as Hpc by (destruct pc; simpl in *; (done || lia)).
  rewrite Hpc, app_nil_r in Hfifo. subst ps. by split_and!.
Qed.

(** C40. The notification of [flush] can be lost: [fetch_sub] and [notify_all]
    run without [flushM_], so they may fall between the evaluation of the
    predicate and the block of [flushCv_.wait].  The state reached has nothing
    pending and everything saved, and yet the flush is blocked and no thread has
    anything left to do: only a spurious wake-up or a later snapshot frees it. *)
Theorem flush_may_hang (σ0 : Σ) (keep : Z) (t : Snapshot) (w0 : Writer) :
  new_writer (Some σ0) keep = Value w0 →
  ∃ acts w, execs acts w0 = Some w ∧ (AWake ∉ acts) ∧ (∀ i, AFlushWake i ∉ acts) ∧
    flushes w = [FBlocked] ∧ pending_ w = 0 ∧ handled w = [t] ∧ pushed w = [t] ∧
    exec AWorker w = None ∧ exec ANotify w = None ∧ exec ADestroy w = None ∧
    (∀ i, exec (APush i) w = None) ∧ (∀ i, exec (AFlushStep i) w = None).
Proof.
  unfold new_writer. destruct (store_init σ0) as [[|] σ]; [|done]. intros [= <-].
  exists [ABegin t; APush 0; ANotify; AFlush; AFlushStep 0;
          AWorker; AWorker; AWorker; AWorker; AFlushStep 0; AWorker].
  eexists. split; [reflexivity|]. split_and!; try done; [set_solver| |].
  - intros i Hin. by repeat (apply elem_of_cons in Hin as [Hin|Hin]; [done|]); apply elem_of_nil in Hin.
  - by intros [|i].
Qed.
End Writer.

(** ** Witnesses *)

(** A store that keeps the latest snapshots of each room in memory, and throws
    on room 0. *)
Definition keep_room (room : RoomId) (keep : Z) (ts : list Snapshot) : list Snapshot :=
  let mine := filter (λ t, pers_room t = room) ts in
  filter (λ t, pers_room t ≠ room) ts ++ drop (length mine - Z.to_nat keep) mine.

#[export] Instance memory_store : SnapshotStore (list Snapshot) := {|
  store_init σ := (Value tt, σ);
  store_save room seq ss σ :=
    if bool_decide (room = 0) then (Unexpected (RuntimeError "disk full"), σ)
    else (Value tt, σ ++ [mkPersistedBoardSnapshot room seq ss]);
  store_list room σ := (Value [], σ);
  store_loadById id σ := (Value None, σ);
  store_loadLatest room σ := (Value None, σ);
  store_pruneKeepLatest room keep σ := (Value tt, keep_room room keep σ);
|}.

Definition demo_task (room : RoomId) (n : Seq) : Snapshot := mkPersistedBoardSnapshot room n [].

Definition demo_writer : Writer (Σ := list Snapshot) :=
  mkWriter [] 2 [] false 0 WCheck [] 0 [] DNone [] [].

Lemma demo_writer_reach : writer_reach [] 2 demo_writer.
Proof. by apply reach_start. Defined.

(** Two threads enqueue, the second overtaking the first; one save throws. *)
Definition demo_acts : list Act :=
  [ABegin (demo_task 1 4); ABegin (demo_task 0 5); APush 1; ANotify; AWorker; AFlush;
   AFlushStep 0; APush 0; AWorker; AWorker; ANotify; AWorker].

Definition state_after (acts : list Act) : Writer := default demo_writer (execs acts demo_writer).

Lemma state_after_reach acts w : execs acts demo_writer = Some w → writer_reach [] 2 w.
Proof. apply reach_execs, demo_writer_reach. Defined.

Lemma writer_saves_in_order_witness :
  ∃ w, execs demo_acts demo_writer = Some w ∧
    store_ w = save_all 2 [demo_task 0 5] [] ∧ pushed w = [demo_task 0 5; demo_task 1 4].
Proof.
  eexists. split; [reflexivity|].
  destruct (@writer_saves_in_order _ memory_store [] 2 (state_after demo_acts)) as (H & _);
    [by eapply (state_after_reach demo_acts)|].
  split; [exact H|reflexivity].
Defined.

Lemma writer_drains_witness :
  ∃ acts w', execs acts (state_after demo_acts) = Some w' ∧ q_ w' = [] ∧
    store_ w' = save_all 2 [demo_task 0 5; demo_task 1 4] [].
Proof.
  destruct (@writer_drains _ memory_store [] 2 (state_after demo_acts)) as (acts & w' & _ & E & _ & Hq & _ & Hs);
    [by eapply (state_after_reach demo_acts)|reflexivity|].
  exists acts, w'. split; [exact E|]. split; [exact Hq|exact Hs].
Defined.

(** The destructor finds two snapshots queued. *)
Definition demo_shutdown : list Act :=
  [ABegin (demo_task 1 4); APush 0; ANotify; ABegin (demo_task 1 9); APush 0; ANotify; ADestroy].

Definition demo_join : list Act := [ADestroy] ++ replicate 9 AWorker ++ [ADestroy].

Lemma destructor_saves_all_witness :
  destroy (state_after (demo_shutdown ++ demo_join)) = DJoined ∧
  store_ (state_after (demo_shutdown ++ demo_join)) = [demo_task 1 4; demo_task 1 9].
Proof.
  split; [reflexivity|].
  destruct (@destructor_saves_all _ memory_store [] 2 (state_after demo_shutdown)) as [_ Hsaved];
    [by eapply (state_after_reach demo_shutdown)|by vm_compute|].
  destruct (Hsaved demo_join (state_after (demo_shutdown ++ demo_join))) as (_ & _ & Hs);
    [reflexivity|reflexivity|]. rewrite Hs. reflexivity.
Defined.

(** A flush that starts when the queue is full and returns at its end. *)
Definition demo_flush : list Act :=
  [ABegin (demo_task 1 4); APush 0; ANotify; AFlush] ++ replicate 5 AWorker.

Lemma flush_waits_witness :
  ∃ w', exec (AFlushStep 0) (state_after demo_flush) = Some w' ∧
    flushes w' = [FReturned] ∧ handled w' = pushed w' ∧ store_ w' = [demo_task 1 4].
Proof.
  exists (state_after (demo_flush ++ [AFlushStep 0])). split; [reflexivity|].
  destruct (@flush_waits _ memory_store [] 2 (state_after demo_flush)
              (state_after (demo_flush ++ [AFlushStep 0])) 0) as (_ & _ & Hh & Hs);
    [by eapply (state_after_reach demo_flush)|reflexivity|by vm_compute|reflexivity|reflexivity|].
  split; [reflexivity|]. split; [exact Hh|exact Hs].
Defined.

Lemma flush_may_hang_witness :
  ∃ acts w, execs acts demo_writer = Some w ∧ flushes w = [FBlocked] ∧ pending_ w = 0.
Proof.
  destruct (@flush_may_hang _ memory_store [] 2 (demo_task 1 4) demo_writer eq_refl)
    as (acts & w & E & _ & _ & Hf & Hp & _).
  exists acts, w. split; [exact E|]. split; [exact Hf|exact Hp].
Defined.
