(* ===== verification/SavedRuns.v ===== *)
(** * Runs of saves

    The worker of [SnapshotWriter.v] over the store of [SqliteStore.v]: what the
    table holds after any number of tasks, whether SQLite fails or not.  The i-th
    call of the store may read the system clock, whose value is then [cs_clock i];
    nothing is assumed of it: that a snapshot is saved at a later time than those of
    its room ([saved_later]) is a condition of the lemmas that need it. *)
From S2P Require Import Prelude CoreTypes ServerCore CoreProps SnapshotStore StrokeBlob SqliteStore SnapshotWriter.

(** ** The store and the clock *)

Section Clock.
Context `{SqliteLib} `{Allocator}.

Record ClockedStore := mkClocked { cs_store : Store; cs_clock : nat → Z; cs_calls : nat }.

(** A call of the store, at the next value of the clock. *)
Definition at_time {A} (m : SM A) (st : ClockedStore) : Expected A Exn * ClockedStore :=
  let '(res, st') :=
    m (mkStore (dbPath_ (cs_store st)) (db_ (cs_store st)) (cs_clock st (cs_calls st))) in
  (res, mkClocked st' (cs_clock st) (S (cs_calls st))).

#[export] Instance clocked_store : SnapshotStore ClockedStore := {|
  store_init := at_time init;
  store_save room seq ss := at_time (save room seq ss);
  store_list room := at_time (list_snapshots room);
  store_loadById id := at_time (loadById id);
  store_loadLatest room := at_time (loadLatest room);
  store_pruneKeepLatest room keep := at_time (pruneKeepLatest room keep);
|}.
End Clock.

(** ** The newest row of a room *)

Definition newest (t : list Row) (r : Row) : Prop :=
  r ∈ t ∧ ∀ r', r' ∈ t → row_room r' = row_room r → r' = r ∨ row_saved r' < row_saved r.

Lemma newest_sub t t' r : newest t r → r ∈ t' → (∀ r', r' ∈ t' → r' ∈ t) → newest t' r.
Proof. intros [_ Hn] Hr Hsub. split; [done|]. auto. Qed.

Lemma newest_snoc t r :
  (∀ r', r' ∈ t → row_room r' = row_room r → row_saved r' < row_saved r) → newest (t ++ [r]) r.
Proof.
  intros Hlt. split; [apply elem_of_app; right; by left|].
  intros r' [Hin| ->%list_elem_of_singleton]%elem_of_app Hroom; [right; by apply Hlt|by left].
Qed.

Lemma newest_other t r r' : newest t r → row_room r' ≠ row_room r → newest (t ++ [r']) r.
Proof.
  intros [Hr Hn] Hne. split; [apply elem_of_app; by left|].
  intros r1 [Hin| ->%list_elem_of_singleton]%elem_of_app Hroom; [by apply Hn|done].
Qed.

(** It comes first by date. *)
Lemma newest_first t o r : newest t r → by_date (row_room r) t o → ∃ o', o = r :: o'.
Proof.
  intros [Hr Hn] [Hp Hs].
  assert (r ∈ o) as Hin by (rewrite Hp; by apply list_elem_of_filter).
  destruct o as [|r0 o']; [by apply elem_of_nil in Hin|]. exists o'. f_equal.
  apply elem_of_cons in Hin as [->|Hin]; [done|].
  apply StronglySorted_inv in Hs as [_ Hall]. rewrite Forall_forall in Hall.
  specialize (Hall r Hin). unfold newer in Hall.
  assert (r0 ∈ filter (λ r1, row_room r1 = row_room r) t) as [Hroom Hin0]%list_elem_of_filter by (rewrite <-Hp; by left).
  destruct (Hn r0 Hin0 Hroom); [done|lia].
Qed.

(** ** The tasks of the worker *)

Section Runs.
Context `{SqliteLaws} `{Allocator}.

(** The blob of a board is below 2 GB. *)
Definition blob_small (p : Snapshot) : Prop :=
  Z.of_nat (length (serializeStrokes (pers_strokes p))) < 2 ^ 31.

#[export] Instance blob_small_dec p : Decision (blob_small p).
Proof. unfold blob_small. apply _. Defined.

Definition row_of (id saved : Z) (p : Snapshot) : Row :=
  mkRow id (s64 (pers_room p)) saved (s64 (pers_lastSeq p)) (serializeStrokes (pers_strokes p)).

Lemma save_cases st c p :
  db_ st = Some c → blob_small p →
  ∃ res c', save (pers_room p) (pers_lastSeq p) (pers_strokes p) st = (res, set_db c' st) ∧
    match res with
    | Value _ => ∃ id, table c' = table c ++ [row_of id (sys_now st) p]
    | Unexpected _ => table c' = table c
    end.
Proof.
  intros Hdb Hp. unfold save, mbind, SM_bind. rewrite (init_ready _ _ Hdb). simpl.
  set (q := InsertRow _ _ _ _ _). destruct (run_sql q st) as [[rs|e] st1] eqn:E;
    apply (run_sql_cases _ _ _ _ _ Hdb) in E as (c' & -> & Hm).
  - exists (Value tt), c'. split; [done|]. unfold blob_small in Hp.
    destruct (Hm (s32_small (Z.of_nat (length (serializeStrokes (pers_strokes p)))) ltac:(lia))) as (id & _ & Ht).
    by exists id.
  - exists (Unexpected e), c'. split; [done|apply Hm].
Qed.

Lemma prune_cases st c room keep :
  db_ st = Some c → 1 ≤ keep < 2 ^ 63 →
  ∃ res c', pruneKeepLatest room keep st = (res, set_db c' st) ∧
    (table c' = table c ∨ ∃ o, by_date (s64 room) (table c) o ∧
      table c' = filter (λ r, row_room r ≠ s64 room ∨ row_id r ∈ row_id <$> take (Z.to_nat keep) o) (table c)).
Proof.
  intros Hdb Hk. unfold pruneKeepLatest, mbind, SM_bind. rewrite (init_ready _ _ Hdb).
  rewrite bool_decide_eq_false_2 by lia. set (q := DeleteOld _ _).
  destruct (run_sql q st) as [[rs|e] st1] eqn:E; apply (run_sql_cases _ _ _ _ _ Hdb) in E as (c' & -> & Hm).
  - exists (Value tt), c'. split; [done|]. right. destruct Hm as (o & Ho & Ht). exists o. split; [done|].
    rewrite Ht, (s64_small keep) by lia. unfold limited. by rewrite bool_decide_eq_false_2 by lia.
  - exists (Unexpected e), c'. split; [done|]. left. apply Hm.
Qed.

(** Pruning keeps the newest row of every room. *)
Lemma prune_newest t o room keep r :
  newest t r → by_date room t o → (1 ≤ keep)%nat →
  newest (filter (λ r, row_room r ≠ room ∨ row_id r ∈ row_id <$> take keep o) t) r.
Proof.
  intros Hn Ho Hk. eapply newest_sub; [exact Hn| |by intros r' [_ ?]%list_elem_of_filter].
  apply list_elem_of_filter. split; [|apply Hn]. destruct (decide (row_room r = room)) as [<-|Hne]; [right|by left].
  destruct (newest_first t o r Hn Ho) as [o' ->]. destruct keep as [|keep]; [lia|]. simpl. by left.
Qed.

(** SQLite takes the snapshot, and the system clock shows a later time than for
    the snapshots of the room that the table holds. *)
Definition saved_later (p : Snapshot) (st : ClockedStore) : Prop :=
  fst (store_save (pers_room p) (pers_lastSeq p) (pers_strokes p) st) = Value tt ∧
  ∀ c r, db_ (cs_store st) = Some c → r ∈ table c → row_room r = s64 (pers_room p) →
    row_saved r < cs_clock st (cs_calls st).

(** A task of the worker, whether SQLite fails or not: it keeps the newest row of
    the other rooms, and a snapshot that is saved later becomes that of its room. *)
Lemma save_task_newest st c keep p :
  db_ (cs_store st) = Some c → 1 ≤ keep < 2 ^ 63 → blob_small p →
  ∃ c', db_ (cs_store (save_task keep p st)) = Some c' ∧
    (∀ r, newest (table c) r → row_room r ≠ s64 (pers_room p) → newest (table c') r) ∧
    (saved_later p st → ∃ id saved, newest (table c') (row_of id saved p)).
Proof.
  intros Hdb Hk Hp. destruct st as [st clock n]. unfold saved_later.
  unfold save_task, store_save, store_pruneKeepLatest, clocked_store, at_time. simpl in *.
  set (st1 := mkStore (dbPath_ st) (db_ st) (clock n)).
  destruct (save_cases st1 c p Hdb Hp) as (res & c1 & -> & Ht1). simpl.
  destruct res as [[]|e].
  2:{ exists c1. split; [done|]. rewrite Ht1. split; [done|]. by intros [? _]. }
  destruct Ht1 as [id Ht1]. set (st2 := mkStore (dbPath_ st) (Some c1) (clock (S n))).
  destruct (prune_cases st2 c1 (pers_room p) keep eq_refl Hk) as (res & c2 & -> & Ht2). simpl.
  assert (∀ r, newest (table c1) r → newest (table c2) r) as Hprune.
  { intros r Hr. destruct Ht2 as [->|(o & Ho & ->)]; [done|]. apply prune_newest; [done|done|lia]. }
  exists c2. split_and!; [by destruct res| |].
  - intros r Hr Hne. apply Hprune. rewrite Ht1. by apply newest_other.
  - intros [_ Hlater]. exists id, (clock n). apply Hprune. rewrite Ht1. apply newest_snoc. simpl.
    intros r' Hr' Hroom. by apply (Hlater c r').
Qed.

Lemma save_all_open keep ps st :
  1 ≤ keep < 2 ^ 63 → Forall blob_small ps → is_Some (db_ (cs_store st)) →
  is_Some (db_ (cs_store (save_all keep ps st))).
Proof.
  intros Hk Hb. revert st. induction Hb as [|p ps Hp _ IH]; intros st Hdb; [done|]. apply IH.
  destruct Hdb as [c Hdb]. destruct (save_task_newest st c keep p Hdb Hk Hp) as (c' & Hdb' & _). by exists c'.
Qed.

(** Tasks of other rooms keep the newest row. *)
Lemma save_all_newest keep ps st c r room :
  db_ (cs_store st) = Some c → 1 ≤ keep < 2 ^ 63 → Forall blob_small ps →
  Forall (λ p, is_u64 (pers_room p)) ps → is_u64 room → log_of room ps = [] → row_room r = s64 room →
  newest (table c) r → ∃ c', db_ (cs_store (save_all keep ps st)) = Some c' ∧ newest (table c') r.
Proof.
  intros Hdb Hk Hb Hu Hroom. revert st c Hdb Hu. induction Hb as [|p ps Hp _ IH];
    intros st c Hdb Hu Hl Hr Hn; [by exists c|].
  apply Forall_cons in Hu as [Hpu Hu]. unfold log_of in Hl. rewrite filter_cons in Hl.
  case_decide as Hne; [done|]. destruct (save_task_newest st c keep p Hdb Hk Hp) as (c' & Hdb' & Hother & _).
  apply (IH (save_task keep p st) c' Hdb' Hu); [done|done|]. apply Hother; [done|]. rewrite Hr. intros Heq.
  apply Hne. by rewrite <-(u64_s64 room), <-(u64_s64 (pers_room p)), Heq.
Qed.

(** [loadLatest] gives back the strokes and the number of [p], unless SQLite fails. *)
Definition gives_back (room : RoomId) (p : Snapshot) (st : ClockedStore) : Prop :=
  sqlite_failed (fst (store_loadLatest room st)) ∨ ∃ id saved, fst (store_loadLatest room st) =
    Value (Some (mkStoredSnapshot (mkSnapshotMeta id room saved (pers_lastSeq p)) (pers_strokes p))).

Lemma newest_loads st c id saved p room :
  db_ (cs_store st) = Some c → newest (table c) (row_of id saved p) → pers_room p = room →
  is_u64 room → is_u64 (pers_lastSeq p) → board_storable (pers_strokes p) → board_fits (pers_strokes p) →
  gives_back room p st.
Proof.
  intros Hdb Hn <- Hroom Hseq Hs Hf. destruct st as [st clock n]. unfold gives_back. simpl in *.
  unfold at_time, loadLatest, mbind, SM_bind. simpl. rewrite (init_ready _ c) by done.
  destruct (run_sql _ _) as [[rs|e] st1] eqn:E; apply (run_sql_cases _ _ c) in E as (c' & -> & Hm); [|done| |done].
  - right. exists id, saved. destruct Hm as (_ & o & Ho & ->).
    destruct (newest_first (table c) o (row_of id saved p) Hn Ho) as [o' ->]. cbn [take firstn]. unfold row_of.
    by rewrite load_saved_row.
  - left. destruct Hm as [[msg ->] _]. by exists msg.
Qed.

(** The last snapshot of a room, if it was saved later, is what the store gives
    back, whatever became of the other tasks. *)
Lemma last_saved_loads keep ps1 p ps2 st room :
  is_Some (db_ (cs_store st)) → 1 ≤ keep < 2 ^ 63 → Forall blob_small (ps1 ++ p :: ps2) →
  Forall (λ p, is_u64 (pers_room p)) (ps1 ++ p :: ps2) → pers_room p = room → log_of room ps2 = [] →
  is_u64 (pers_lastSeq p) → board_storable (pers_strokes p) → board_fits (pers_strokes p) →
  saved_later p (save_all keep ps1 st) → gives_back room p (save_all keep (ps1 ++ p :: ps2) st).
Proof.
  intros Hdb Hk Hb Hu Hroom Hl Hseq Hs Hf Hsl. apply Forall_app in Hb as [Hb1 [Hbp Hb2]%Forall_cons].
  apply Forall_app in Hu as [Hu1 [Hup Hu2]%Forall_cons].
  destruct (save_all_open keep ps1 st Hk Hb1 Hdb) as [c1 Hc1].
  destruct (save_task_newest _ c1 keep p Hc1 Hk Hbp) as (c2 & Hc2 & _ & Hnew).
  destruct (Hnew Hsl) as (id & saved & Hn).
  destruct (save_all_newest keep ps2 _ c2 (row_of id saved p) room Hc2 Hk Hb2 Hu2) as (c3 & Hc3 & Hn3);
    [by rewrite <-Hroom|done|by rewrite <-Hroom|done|].
  unfold save_all in *. rewrite foldl_app. eapply newest_loads; [exact Hc3|exact Hn3|done|by rewrite <-Hroom|done..].
Qed.

(** A store that was initialised is open. *)
Lemma init_opens st st' : init st = (Value tt, st') → is_Some (db_ st').
Proof.
  assert (∀ q s x s1, is_Some (db_ s) → run_sql q s = (x, s1) → is_Some (db_ s1)) as Hrun.
  { unfold run_sql. intros q s x s1 [c ->]. by destruct (sq_exec q c) as [[] c1]; intros [= _ <-]; eexists. }
  unfold init. destruct (db_ st) as [c|] eqn:Hdb; [intros [= <-]; by exists c|]. unfold mbind, SM_bind.
  destruct (open_db st) as [o st1] eqn:E1.
  assert (is_Some (db_ st1)) as Hc1.
  { unfold open_db in E1. destruct (sq_open (dbPath_ st)) as [[] c]; simplify_eq; by exists c. }
  destruct o as [[]|e1]; [|done].
  destruct (run_sql PragmaWal st1) as [[l2|e2] st2] eqn:E2; [|done].
  destruct (run_sql CreateTable st2) as [[l3|e3] st3] eqn:E3; [|done]. intros [= <-].
  eapply Hrun; [|exact E3]. by eapply Hrun; [|exact E2].
Qed.

Lemma store_init_opens (st st' : ClockedStore) : store_init st = (Value tt, st') → is_Some (db_ (cs_store st')).
Proof.
  unfold store_init, clocked_store, at_time. destruct (init _) as [res st1] eqn:E. intros [= -> <-]. simpl.
  by eapply init_opens.
Qed.
End Runs.
