(* ===== verification/Session.v ===== *)
(** * Sessions

    [server/src/client_session.cpp], [session_registry.cpp]: the sessions of the
    connected clients, the registry through which one session delivers to
    another, and what [tcp_server.cpp] does with a new connection (its loop is in
    [TcpServer.v]).

    A handler runs on the strand of its session and is one step of the server;
    [server_step] is the completion of one asynchronous operation, and a run
    interleaves the handlers of all sessions in any order.  Boost.Asio is the
    environment: it decides which operation completes next and whether with an
    error.  A [std::weak_ptr] of the registry is the identifier of its session,
    which is alive as long as a handler holds a [shared_from_this()].

    The outcome [None] of a handler is an exception that leaves it
    (serialisation can throw), which ends the process: [io_context::run] passes
    it on to the thread function of [main], which catches nothing.  It is also
    undefined behaviour, as in the core. *)
From S2P Require Import Prelude CoreTypes Room RoomSpec RoomRefine RoomTrace RoomProps ServerCore.
From S2P Require Import Messages Mappers JsonProtocol.

(** Handlers posted on the strand. *)
Inductive Task :=
  | TStart                   (* [doReadLine] of [start] *)
  | TWrite (line : string)   (* the handler posted by [deliver] *)
  | TStop.                   (* [stopImpl] of [stop] *)

#[export] Instance Task_eq_dec : EqDecision Task.
Proof. solve_decision. Defined.

(** [reading] and [writing]: an [async_read_until], an [async_write] is pending
    or its handler is running.  [delivered] and [written] are histories: the
    lines given to [deliver] and the lines whose write completed. *)
Record Session := mkSession {
  currentRoom_ : option RoomId;
  stopped_ : bool;
  posted : list Task;
  writeQueue_ : list string;
  reading : bool;
  writing : bool;
  delivered : list string;
  written : list string;
}.

Definition new_session : Session := mkSession None false [TStart] [] false false [] [].

(** Some handler holds the session. *)
Definition alive (ss : Session) : bool :=
  reading ss || writing ss || negb (bool_decide (posted ss = [])).

Definition set_room_of (r : option RoomId) (ss : Session) : Session :=
  mkSession r (stopped_ ss) (posted ss) (writeQueue_ ss) (reading ss) (writing ss)
    (delivered ss) (written ss).
Definition set_stopped (ss : Session) : Session :=
  mkSession (currentRoom_ ss) true (posted ss) (writeQueue_ ss) (reading ss) (writing ss)
    (delivered ss) (written ss).
Definition set_posted (ts : list Task) (ss : Session) : Session :=
  mkSession (currentRoom_ ss) (stopped_ ss) ts (writeQueue_ ss) (reading ss) (writing ss)
    (delivered ss) (written ss).
Definition set_reading (b : bool) (ss : Session) : Session :=
  mkSession (currentRoom_ ss) (stopped_ ss) (posted ss) (writeQueue_ ss) b (writing ss)
    (delivered ss) (written ss).
Definition set_writing (b : bool) (ss : Session) : Session :=
  mkSession (currentRoom_ ss) (stopped_ ss) (posted ss) (writeQueue_ ss) (reading ss) b
    (delivered ss) (written ss).
Definition post_line (line : string) (ss : Session) : Session :=
  mkSession (currentRoom_ ss) (stopped_ ss) (posted ss ++ [TWrite line]) (writeQueue_ ss)
    (reading ss) (writing ss) (delivered ss ++ [line]) (written ss).
Definition push_line (line : string) (ss : Session) : Session :=
  mkSession (currentRoom_ ss) (stopped_ ss) (posted ss) (writeQueue_ ss ++ [line])
    (reading ss) (writing ss) (delivered ss) (written ss).
Definition pop_line (line : string) (q : list string) (ss : Session) : Session :=
  mkSession (currentRoom_ ss) (stopped_ ss) (posted ss) q
    (reading ss) (writing ss) (delivered ss) (written ss ++ [line]).

Definition protocolToCoreError (e : ProtocolError) : Error :=
  match perr_code e with
  | InvalidJson | MissingField | InvalidFieldType | UnknownMessageType | InvalidMessage =>
      invalidParams (perr_message e)
  end.

(** The room of an event request, and [toCoreEvent] of it. *)
Definition event_request (m : ClientMessage) : option (RoomId * Expected EventPayload Error) :=
  match m with
  | StrokeBeginRequest room color thickness start =>
      Some (room, toCoreEvent_StrokeBegin color thickness start)
  | StrokePointRequest room point => Some (room, toCoreEvent_StrokePoint point)
  | StrokeEndRequest room => Some (room, toCoreEvent_StrokeEnd)
  | CursorMoveRequest room point => Some (room, toCoreEvent_CursorMove point)
  | ClearRequest room => Some (room, toCoreEvent_Clear)
  | PingRequest | CreateRoomRequest | JoinRoomRequest _ | LeaveRoomRequest _ => None
  end.

Section Server.
Context `{HashOrder} {Σ : Type} `{SnapshotSink Σ} `{JsonLib}.

Record Server := mkServer {
  core_ : @ServerCore Σ;
  registry_ : gset ClientId;
  sessions : gmap ClientId Session;
  nextClientId_ : ClientId;
}.

Definition new_server (sink : option Σ) : Server := mkServer (new_core sink) ∅ ∅ 1.

Definition on_core {A} (m : M (@ServerCore Σ) A) : M Server A := λ s,
  match m (core_ s) with
  | Some (x, c) => Some (x, mkServer c (registry_ s) (sessions s) (nextClientId_ s))
  | None => None
  end.

(** The members of the session [c]. *)
Definition this (c : ClientId) : M Server Session :=
  s ← get;
  match sessions s !! c with
  | Some ss => mret ss
  | None => undefined
  end.

Definition on_session (c : ClientId) (f : Session → Session) : M Server unit :=
  modify (λ s, mkServer (core_ s) (registry_ s) (alter f c (sessions s)) (nextClientId_ s)).

(** ** SessionRegistry *)

Definition registry_add (id : ClientId) : M Server unit :=
  modify (λ s, mkServer (core_ s) ({[id]} ∪ registry_ s) (sessions s) (nextClientId_ s)).

Definition registry_remove (id : ClientId) : M Server unit :=
  modify (λ s, mkServer (core_ s) (registry_ s ∖ {[id]}) (sessions s) (nextClientId_ s)).

(** [lock()] fails on a session that is no longer alive, which is then erased. *)
Definition registry_find (id : ClientId) : M Server (option ClientId) :=
  s ← get;
  if bool_decide (id ∉ registry_ s) then mret None else
  ss ← this id;
  if alive ss then mret (Some id) else registry_remove id ;; mret None.

(** ** Delivery *)

Definition deliver (c : ClientId) (msg : ServerMessage) : M Server unit :=
  match serializeServerMessage msg with
  | None => undefined
  | Some json => on_session c (post_line (json +:+ String (Ascii.ascii_of_nat 10) EmptyString))
  end.

Definition registry_deliver (id : ClientId) (msg : ServerMessage) : M Server unit :=
  session ← registry_find id;
  match session with
  | Some c => deliver c msg
  | None => mret tt
  end.

Fixpoint dispatchOutgoing (events : list OutgoingEvent) : M Server unit :=
  match events with
  | [] => mret tt
  | event :: events =>
      registry_deliver (ev_to event) (toServerMessage event) ;; dispatchOutgoing events
  end.

Definition sendError (c : ClientId) (e : Error) : M Server unit := deliver c (toErrorMessage e).

Definition sendProtocolError (c : ClientId) (e : ProtocolError) : M Server unit :=
  sendError c (protocolToCoreError e).

(** ** ClientSession *)

Definition stopImpl (c : ClientId) : M Server unit :=
  ss ← this c;
  on_session c set_stopped ;;
  if stopped_ ss then mret tt else
  match currentRoom_ ss with
  | Some room =>
      result ← on_core (leaveRoom c room);
      match result with
      | Value events => dispatchOutgoing events
      | Unexpected _ => mret tt
      end ;;
      on_session c (set_room_of None)
  | None => mret tt
  end ;;
  registry_remove c.

Definition handleMessage (now : TimePoint) (c : ClientId) (msg : ClientMessage) : M Server unit :=
  ss ← this c;
  match msg with
  | PingRequest => deliver c PongResponse
  | CreateRoomRequest => room ← on_core createRoom; deliver c (RoomCreatedResponse room)
  | JoinRoomRequest room =>
      if bool_decide (currentRoom_ ss ≠ None ∧ currentRoom_ ss ≠ Some room)
      then sendError c (invalidParams "session already joined to another room") else
      result ← on_core (joinRoom c room);
      match result with
      | Unexpected e => sendError c e
      | Value snapshot =>
          on_session c (set_room_of (Some room)) ;; deliver c (toSnapshotMessage snapshot)
      end
  | LeaveRoomRequest room =>
      if bool_decide (currentRoom_ ss ≠ Some room) then sendError c notInRoom else
      result ← on_core (leaveRoom c room);
      match result with
      | Unexpected e => sendError c e
      | Value events =>
          on_session c (set_room_of None) ;; dispatchOutgoing events ;;
          deliver c (OkResponse "leave_room" room)
      end
  | _ =>
      match event_request msg with
      | None => mret tt
      | Some (room, event) =>
          if bool_decide (currentRoom_ ss ≠ Some room) then sendError c notInRoom else
          match event with
          | Unexpected e => sendError c e
          | Value ev =>
              result ← on_core (handleEvent now c room ev);
              match result with
              | Unexpected e => sendError c e
              | Value events => dispatchOutgoing events
              end
          end
      end
  end.

Definition handleLine (now : TimePoint) (c : ClientId) (line : string) : M Server unit :=
  match parseClientMessage line with
  | Unexpected e => sendProtocolError c e
  | Value msg => handleMessage now c msg
  end.

Definition doReadLine (c : ClientId) : M Server unit :=
  ss ← this c;
  if stopped_ ss then mret tt else on_session c (set_reading true).

(** The handler of the read: a line, or an error.  It holds the session until it ends. *)
Definition onReadLine (now : TimePoint) (c : ClientId) (line : option string) : M Server unit :=
  match line with
  | None => stopImpl c ;; on_session c (set_reading false)
  | Some line =>
      handleLine now c line ;;
      on_session c (set_reading false) ;;
      doReadLine c
  end.

Definition doWrite (c : ClientId) : M Server unit :=
  ss ← this c;
  if bool_decide (writeQueue_ ss = []) || stopped_ ss then mret tt
  else on_session c (set_writing true).

(** [pop_front] of an empty queue is undefined. *)
Definition onWrite (c : ClientId) (ok : bool) : M Server unit :=
  if negb ok then stopImpl c ;; on_session c (set_writing false) else
  ss ← this c;
  match writeQueue_ ss with
  | [] => undefined
  | line :: q =>
      on_session c (pop_line line q) ;;
      on_session c (set_writing false) ;;
      (if bool_decide (q ≠ []) then doWrite c else mret tt)
  end.

Definition run_task (c : ClientId) (t : Task) : M Server unit :=
  match t with
  | TStart => doReadLine c
  | TStop => stopImpl c
  | TWrite line =>
      ss ← this c;
      on_session c (push_line line) ;;
      if bool_decide (writeQueue_ ss = []) then doWrite c else mret tt
  end.

(** ** The event loop *)

(** What [TcpServer::onAccept] does with a connection; [nextClientId_.fetch_add(1)]. *)
Definition acceptSession : M Server unit :=
  s ← get;
  let id := nextClientId_ s in
  modify (λ s, mkServer (core_ s) (registry_ s) (<[id := new_session]> (sessions s)) (u64 (id + 1))) ;;
  registry_add id.

Inductive ServerOp :=
  | Accept
  | ReadDone (c : ClientId) (now : TimePoint) (line : option string)
  | WriteDone (c : ClientId) (ok : bool)
  | RunPosted (c : ClientId)
  | Stop (c : ClientId).      (* [stop()] is called from outside *)

(** Runs [m] when the session exists and its operation [due] is pending. *)
Definition when_due (c : ClientId) (due : Session → bool) (m : Session → M Server unit) : M Server unit :=
  s ← get;
  match sessions s !! c with
  | Some ss => if due ss then m ss else mret tt
  | None => mret tt
  end.

Definition server_step (op : ServerOp) : M Server unit :=
  match op with
  | Accept => acceptSession
  | ReadDone c now line => when_due c reading (λ _, onReadLine now c line)
  | WriteDone c ok => when_due c writing (λ _, onWrite c ok)
  | RunPosted c =>
      when_due c (λ ss, negb (bool_decide (posted ss = []))) (λ ss,
        match posted ss with
        | [] => mret tt
        | t :: ts => on_session c (set_posted ts) ;; run_task c t
        end)
  | Stop c => when_due c (λ _, true) (λ ss, on_session c (set_posted (posted ss ++ [TStop])))
  end.

Fixpoint server_run (ops : list ServerOp) : M Server unit :=
  match ops with
  | [] => mret tt
  | op :: ops => server_step op ;; server_run ops
  end.
End Server.
