(* ===== verification/Within.v ===== *)
(** * What every handler keeps

    A relation between servers that the small steps of a handler respect (a
    change of the members of a session, the delivery of a line, a removal from
    the registry, a call on the core) is respected by the whole handler: the
    class [Stable] of these relations, and the handlers of [Session.v]. *)
From S2P Require Import Prelude CoreTypes Room RoomSpec RoomRefine RoomTrace RoomProps ServerCore.
From S2P Require Import Messages Mappers JsonProtocol Session.

Section Within.
Context `{HashOrder} {Σ : Type} `{SnapshotSink Σ} `{JsonLib}.

Class Stable (R : relation (@Server Σ)) : Prop := {
  stable_order :: PreOrder R;
  stable_session c f : (∀ ss, delivered (f ss) = delivered ss) → within R (on_session c f);
  stable_deliver c m : within R (deliver c m);
  stable_remove c : within R (registry_remove c);
  stable_core A (m : M (@ServerCore Σ) A) : within R (on_core m);
}.

Context (R : relation (@Server Σ)) `{!Stable R}.

#[local] Hint Resolve stable_deliver stable_remove stable_core : within.
#[local] Hint Extern 0 (Stable _) => apply _ : within.
#[local] Hint Extern 1 (within _ (on_session _ _)) => by apply stable_session : within.

Lemma within_this c : within R (this c).
Proof. unfold this. within. Qed.

#[local] Hint Resolve within_this : within.

Lemma within_dispatch evs : within R (dispatchOutgoing evs).
Proof.
  induction evs as [|e evs IH]; cbn [dispatchOutgoing]; unfold registry_deliver, registry_find; within.
Qed.

#[local] Hint Resolve within_dispatch : within.

Lemma within_stop c : within R (stopImpl c).
Proof. unfold stopImpl. within. Qed.

Lemma within_message now c m : within R (handleMessage now c m).
Proof. unfold handleMessage, sendError. within. Qed.

Lemma within_doRead c : within R (doReadLine c).
Proof. unfold doReadLine. within. Qed.

Lemma within_doWrite c : within R (doWrite c).
Proof. unfold doWrite. within. Qed.

#[local] Hint Resolve within_stop within_message within_doRead within_doWrite : within.

Lemma within_read c now line : within R (onReadLine now c line).
Proof. unfold onReadLine, handleLine, sendProtocolError, sendError. within. Qed.

Lemma within_write c ok : within R (onWrite c ok).
Proof. unfold onWrite. within. Qed.

Lemma within_task c t : within R (run_task c t).
Proof. destruct t; cbn [run_task]; within. Qed.

#[local] Hint Resolve within_read within_write within_task : within.

(** Everything but a new connection. *)
Lemma within_step op : op ≠ Accept → within R (server_step op).
Proof. intros Hop. destruct op; [done|..]; cbn [server_step]; unfold when_due; within. Qed.
End Within.
