(* ===== verification/SessionInv.v ===== *)
(** * The invariant of the sessions

    What the handlers of [Session.v] do to a well-formed server: the lines they
    deliver ([mail]), the invariant ([server_inv]) every step keeps, the effect
    of stopping a session ([stop_run]), and the sessions that stay in a room for
    ever ([ghost]). *)
From S2P Require Import Prelude CoreTypes Room RoomSpec RoomRefine RoomTrace RoomProps ServerCore.
From S2P Require Import CoreProps Membership Messages Mappers JsonProtocol JsonSpec Session.

(** ** Texts *)

Section Text.
Context `{JsonText}.

Definition message_text (m : ServerMessage) : Prop :=
  match m with
  | OkResponse request _ => text request
  | ErrorResponse code message => text code ∧ text message
  | _ => True
  end.

Lemma object_text kvs :
  forallb is_ascii kvs.*1 = true → Forall json_text kvs.*2 → json_text (json_object kvs).
Proof.
  intros Hk Hv. apply text_object; [|done]. apply Forall_forall. intros k Hin.
  apply text_ascii. rewrite forallb_forall in Hk. apply Hk. by apply list_elem_of_In.
Qed.

Lemma array_text {A} (f : A → json) l : (∀ x, json_text (f x)) → json_text (json_array (f <$> l)).
Proof. intros Hf. apply text_array, Forall_fmap, Forall_true. apply Hf. Qed.

Lemma point_text p : json_text (makePointJson p).
Proof. apply object_text; [done|]. repeat constructor; apply text_float. Qed.

Lemma stroke_text s : json_text (makeStrokeJson s).
Proof.
  apply object_text; [done|]. repeat constructor; simpl; auto using text_uint, text_bool.
  apply array_text, point_text.
Qed.

Lemma cursor_text c : json_text (makeCursorJson c).
Proof. apply object_text; [done|]. repeat constructor; simpl; auto using text_uint, point_text. Qed.

Lemma message_dumps m : message_text m → is_Some (serializeServerMessage m).
Proof.
  intros Hm. apply dump_text.
  assert (∀ s, is_ascii s = true → json_text (json_of_string s)) as Ha
    by (intros; by apply text_string, text_ascii).
  destruct m; apply object_text; try done; simpl in *; destruct_and?; repeat constructor;
    auto using text_string, text_uint, point_text, array_text, stroke_text, cursor_text.
Qed.

Lemma toErrorMessage_text e : text (error_message e) → message_text (toErrorMessage e).
Proof. intros He. split; [|done]. apply text_ascii. by destruct (error_code e). Qed.

Lemma toServerMessage_text ev : message_text (toServerMessage ev).
Proof. by destruct ev as [? ? ? []]. Qed.

(** A line whose parse error, if any, is text. *)
Definition line_text (line : string) : Prop := ∀ what, json_parse line = inr what → text what.

Lemma getRequired_text {T} (get : json → option T) o k e :
  is_ascii k = true → getRequired get o k = Unexpected e → text (perr_message e).
Proof.
  intros Hk. unfold getRequired. repeat case_match; intros [= <-]; simpl;
    apply text_ascii; by apply is_ascii_app.
Qed.

(** The error of a field is text. *)
Ltac field_text :=
  match goal with
  | E : getRequired ?get ?o ?k = Unexpected ?e |- text (perr_message ?e) =>
      exact (getRequired_text get o k e eq_refl E)
  end.

Lemma getRequiredPoint_text o k e :
  is_ascii k = true → getRequiredPoint o k = Unexpected e → text (perr_message e).
Proof.
  intros Hk. unfold getRequiredPoint, bind_expected.
  destruct (json_at o k); [destruct (json_is_object _); simpl|];
    [|intros [= <-]; apply text_ascii; by apply is_ascii_app..].
  destruct (getRequired _ _ "x") eqn:E; [|intros [= <-]; field_text].
  destruct (getRequired _ _ "y") eqn:E'; [done|]. intros [= <-]. field_text.
Qed.

Lemma parse_error_text line e :
  line_text line → parseClientMessage line = Unexpected e → text (perr_message e).
Proof.
  intros Hl. unfold parseClientMessage, bind_expected.
  destruct (json_parse line) as [o|what] eqn:Ep; [|intros [= <-]; by apply Hl].
  destruct (json_is_object o); simpl; [|intros [= <-]; by apply text_ascii].
  destruct (getRequired get_string o "type") as [type|] eqn:Et;
    [|intros [= <-]; field_text].
  repeat match goal with
  | |- (if ?b then _ else _) = _ → _ => destruct b
  | |- match ?x with Value _ => _ | Unexpected _ => _ end = _ → _ => destruct x eqn:?
  end; intros [= <-]; try field_text; try (by apply text_ascii);
    try (by (eapply getRequiredPoint_text; [|eassumption])).
  apply text_app; [by apply text_ascii|]. unfold getRequired in Et.
  destruct (json_at o "type") as [v|] eqn:Ev; [|done]. destruct (get_string v) eqn:Es; [|done].
  simplify_eq. by eapply parse_text.
Qed.
End Text.

(** ** Delivery *)

Section Sessions.
Context `{HashOrder} {Σ : Type} `{SnapshotSink Σ} `{JsonText}.
Implicit Types s : @Server Σ.

(** The line of a message. *)
Definition wire (m : ServerMessage) : option string :=
  (λ json, json +:+ String (Ascii.ascii_of_nat 10) EmptyString) <$> serializeServerMessage m.

(** The session after [deliver] was called with these lines. *)
Definition post_lines (ls : list string) (ss : Session) : Session :=
  mkSession (currentRoom_ ss) (stopped_ ss) (posted ss ++ (TWrite <$> ls)) (writeQueue_ ss)
    (reading ss) (writing ss) (delivered ss ++ ls) (written ss).

(** [s'] is [s] with the lines [f c] delivered to each session [c]. *)
Record mail (f : ClientId → list string) s s' : Prop := {
  ml_core : core_ s' = core_ s;
  ml_registry : registry_ s' = registry_ s;
  ml_next : nextClientId_ s' = nextClientId_ s;
  ml_sessions c : sessions s' !! c = post_lines (f c) <$> sessions s !! c;
}.

(** The lines of the events for client [c]. *)
Definition event_lines (c : ClientId) (evs : list OutgoingEvent) : list string :=
  omap (λ e, wire (toServerMessage e)) (filter (λ e, ev_to e = c) evs).

Lemma post_lines_nil ss : post_lines [] ss = ss.
Proof. destruct ss. unfold post_lines. simpl. by rewrite !app_nil_r. Qed.

Lemma post_lines_app ls ls' ss : post_lines ls' (post_lines ls ss) = post_lines (ls ++ ls') ss.
Proof. unfold post_lines. simpl. by rewrite fmap_app, !app_assoc. Qed.

Lemma mail_nil f s : (∀ c, f c = []) → mail f s s.
Proof.
  intros Hf. split; [done..|]. intros c. rewrite Hf. destruct (sessions s !! c); [|done].
  simpl. by rewrite post_lines_nil.
Qed.

Lemma mail_trans f g s1 s2 s3 : mail f s1 s2 → mail g s2 s3 → mail (λ c, f c ++ g c) s1 s3.
Proof.
  intros [A1 A2 A3 A4] [B1 B2 B3 B4]. split; try congruence.
  intros c. rewrite B4, A4. destruct (sessions s1 !! c); [|done]. simpl. by rewrite post_lines_app.
Qed.

Lemma mail_ext f g s s' : (∀ c, f c = g c) → mail f s s' → mail g s s'.
Proof. intros Hf [A1 A2 A3 A4]. split; [done..|]. intros c. by rewrite A4, Hf. Qed.

Definition to_client (c : ClientId) (ls : list string) : ClientId → list string :=
  λ c', if bool_decide (c' = c) then ls else [].

Lemma message_wire m : message_text m → is_Some (wire m).
Proof. intros [j Hj]%message_dumps. unfold wire. rewrite Hj. eauto. Qed.

Lemma deliver_mail c m line s :
  wire m = Some line → ∃ s', deliver c m s = Some (tt, s') ∧ mail (to_client c [line]) s s'.
Proof.
  unfold wire, deliver. destruct (serializeServerMessage m) as [j|]; [|done]. intros [= <-].
  eexists. split; [reflexivity|]. split; [done..|]. intros c'. simpl.
  rewrite lookup_alter. unfold to_client. case_decide as Hc; case_bool_decide; try congruence.
  - subst c'. by destruct (sessions s !! c).
  - destruct (sessions s !! c'); [|done]. simpl. by rewrite post_lines_nil.
Qed.

Lemma deliver_text c m s :
  message_text m →
  ∃ line s', wire m = Some line ∧ deliver c m s = Some (tt, s') ∧ mail (to_client c [line]) s s'.
Proof.
  intros [line Hl]%message_wire. destruct (deliver_mail c m line s Hl) as (s' & E & Hm). eauto.
Qed.

(** The recipients that are registered are alive. *)
Definition reachable_by s (c : ClientId) : Prop :=
  c ∈ registry_ s → ∃ ss, sessions s !! c = Some ss ∧ alive ss = true.

Lemma registry_deliver_mail c m line s :
  reachable_by s c → wire m = Some line →
  ∃ s', registry_deliver c m s = Some (tt, s') ∧
    mail (to_client c (if bool_decide (c ∈ registry_ s) then [line] else [])) s s'.
Proof.
  intros Hr Hl. unfold registry_deliver, registry_find, this. unfold mbind, M_bind, get.
  case_bool_decide as Hc; case_bool_decide as Hc'; try done.
  - eexists. split; [reflexivity|]. apply mail_nil. intros c'. unfold to_client. by case_match.
  - destruct (Hr Hc') as (ss & -> & Hal). unfold mret, M_ret. rewrite Hal.
    by apply deliver_mail.
Qed.

Lemma alive_post ls ss : alive ss = true → alive (post_lines ls ss) = true.
Proof.
  unfold alive. simpl. intros [[->| ->]%orb_true_iff|Hp]%orb_true_iff; [done|by rewrite orb_true_r|].
  apply negb_true_iff, bool_decide_eq_false in Hp.
  rewrite (bool_decide_eq_false_2 (_ ++ _ = [])); [apply orb_true_r|]. by intros [? _]%app_eq_nil.
Qed.

Lemma mail_reachable f s s' c : mail f s s' → reachable_by s c → reachable_by s' c.
Proof.
  intros Hm Hr. unfold reachable_by. rewrite (ml_registry _ _ _ Hm), (ml_sessions _ _ _ Hm).
  intros Hc. destruct (Hr Hc) as (ss & -> & Hal). eexists. split; [done|]. by apply alive_post.
Qed.

Lemma dispatch_mail evs s :
  Forall (λ e, reachable_by s (ev_to e)) evs →
  ∃ s', dispatchOutgoing evs s = Some (tt, s') ∧
    mail (λ c, if bool_decide (c ∈ registry_ s) then event_lines c evs else []) s s'.
Proof.
  revert s. induction evs as [|e evs IH]; intros s Hr.
  - eexists. split; [reflexivity|]. apply mail_nil. intros c. by case_match.
  - apply Forall_cons_1 in Hr as [He Hr].
    destruct (message_wire (toServerMessage e)) as [line Hl]; [apply toServerMessage_text|].
    destruct (registry_deliver_mail (ev_to e) _ line s He Hl) as (s1 & E1 & M1).
    destruct (IH s1) as (s2 & E2 & M2).
    { eapply Forall_impl; [exact Hr|]. intros e'. by eapply mail_reachable. }
    exists s2. split; [simpl; unfold mbind, M_bind; by rewrite E1|].
    eapply mail_ext; [|by eapply mail_trans]. intros c. simpl.
    rewrite (ml_registry _ _ _ M1). unfold to_client, event_lines. rewrite filter_cons.
    case_bool_decide as Hc; case_bool_decide as Hc'; case_decide; subst; try congruence; simpl;
      rewrite ?Hl; try done; first [by rewrite !bool_decide_eq_true_2 | by rewrite !bool_decide_eq_false_2].
Qed.

(** ** The invariant *)

Definition task_line (t : Task) : option string :=
  match t with TWrite line => Some line | TStart | TStop => None end.

Definition queued_lines (ss : Session) : list string := omap task_line (posted ss).

Record session_inv (ss : Session) : Prop := {
  sv_alive : stopped_ ss = false → reading ss = true ∨ TStart ∈ posted ss;
  sv_writing : writing ss = true → writeQueue_ ss ≠ [];
  sv_idle : stopped_ ss = false → writeQueue_ ss ≠ [] → writing ss = true;
  sv_stream : delivered ss = written ss ++ writeQueue_ ss ++ queued_lines ss;
}.

(** [k] more steps fit in every counter. *)
Record server_inv (k : Z) s : Prop := {
  si_core : core_wf (core_ s);
  si_room : core_headroom k (core_ s);
  si_next : 1 ≤ nextClientId_ s ∧ nextClientId_ s + k < 2 ^ 64;
  si_fresh c : is_Some (sessions s !! c) → 1 ≤ c < nextClientId_ s;
  si_member room c : core_member (core_ s) room c ↔
    ∃ ss, sessions s !! c = Some ss ∧ currentRoom_ ss = Some room;
  si_registry c : c ∈ registry_ s ↔ ∃ ss, sessions s !! c = Some ss ∧ stopped_ ss = false;
  si_session c ss : sessions s !! c = Some ss → session_inv ss;
}.

Definition upd (c : ClientId) (f : Session → Session) s : @Server Σ :=
  mkServer (core_ s) (registry_ s) (alter f c (sessions s)) (nextClientId_ s).

Definition with_core (co : @ServerCore Σ) s : @Server Σ :=
  mkServer co (registry_ s) (sessions s) (nextClientId_ s).

Lemma upd_self c f s ss : sessions s !! c = Some ss → sessions (upd c f s) !! c = Some (f ss).
Proof. intros Hs. simpl. by rewrite lookup_alter_eq, Hs. Qed.

Lemma upd_other c f s c' : c' ≠ c → sessions (upd c f s) !! c' = sessions s !! c'.
Proof. intros Hs. simpl. by rewrite lookup_alter_ne. Qed.

Lemma queued_lines_post ls ss : queued_lines (post_lines ls ss) = queued_lines ss ++ ls.
Proof.
  unfold queued_lines. simpl. rewrite omap_app. f_equal.
  induction ls as [|l ls IH]; [done|]. simpl. f_equal. exact IH.
Qed.

Lemma session_inv_post ls ss : session_inv ss → session_inv (post_lines ls ss).
Proof.
  intros [A B C D]. split; simpl; [|done|done|].
  - intros Hst. destruct (A Hst); [by left|right]. apply elem_of_app. by left.
  - by rewrite D, queued_lines_post, !app_assoc.
Qed.

Lemma session_inv_room r ss : session_inv ss → session_inv (set_room_of r ss).
Proof. by intros [A B C D]. Qed.

Lemma session_inv_stopped ss : session_inv ss → session_inv (set_stopped ss).
Proof. by intros [A B C D]. Qed.

(** A session that is not stopped is held by a handler. *)
Lemma session_alive ss : session_inv ss → stopped_ ss = false → alive ss = true.
Proof.
  intros V Hst. destruct (sv_alive _ V Hst) as [Hr|Hin]; unfold alive.
  - by rewrite Hr.
  - rewrite bool_decide_eq_false_2; [by rewrite orb_true_r|]. intros Hp. rewrite Hp in Hin.
    by apply elem_of_nil in Hin.
Qed.

Lemma inv_alive k s c : server_inv k s → reachable_by s c.
Proof.
  intros I Hc. apply (si_registry _ _ I) in Hc as (ss & Hs & Hst). exists ss. split; [done|].
  apply session_alive; [|done]. by eapply si_session.
Qed.

Lemma inv_mono k k' s : server_inv k s → k' ≤ k → server_inv k' s.
Proof.
  intros [A [B1 B2] [C1 C2] D E F G] Hk. split; try done; [split; [lia|]|lia].
  intros room r Hr. specialize (B2 _ _ Hr). unfold headroom in *. lia.
Qed.

Lemma inv_mail k f s s' : server_inv k s → mail f s s' → server_inv k s'.
Proof.
  intros [A B C D E F G] [M1 M2 M3 M4]. split; rewrite ?M1, ?M2, ?M3; try done; intros c.
  - rewrite M4, fmap_is_Some. apply D.
  - intros c'. rewrite E, M4. destruct (sessions s !! c') as [ss|]; simpl; naive_solver.
  - rewrite F, M4. destruct (sessions s !! c) as [ss|]; simpl; naive_solver.
  - intros ss'. rewrite M4. intros (ss & Hs & ->)%fmap_Some. apply session_inv_post. by eapply G.
Qed.

Lemma ex_Some {A} (y : A) (P : A → Prop) : (∃ x, Some y = Some x ∧ P x) ↔ P y.
Proof. split; [by intros (x & [= <-] & ?)|by exists y]. Qed.

(** A change of one session that keeps its room and whether it is stopped. *)
Lemma inv_upd k s c ss f :
  server_inv k s → sessions s !! c = Some ss → session_inv (f ss) →
  currentRoom_ (f ss) = currentRoom_ ss → stopped_ (f ss) = stopped_ ss →
  server_inv k (upd c f s).
Proof.
  intros [A B C D E F G] Hs Hi Hr Hst. split; try done.
  - intros c'. simpl. rewrite lookup_alter_is_Some. apply D.
  - intros room c'. simpl. rewrite E. destruct (decide (c' = c)) as [->|Hne];
      [rewrite lookup_alter_eq, Hs; simpl; by rewrite !ex_Some, Hr|by rewrite lookup_alter_ne].
  - intros c'. simpl. rewrite F. destruct (decide (c' = c)) as [->|Hne];
      [rewrite lookup_alter_eq, Hs; simpl; by rewrite !ex_Some, Hst|by rewrite lookup_alter_ne].
  - intros c' ss'. destruct (decide (c' = c)) as [->|Hne];
      [rewrite (upd_self _ _ _ _ Hs); by intros [= <-]|rewrite upd_other by done; apply G].
Qed.

(** A call of session [c] on the core that leaves it in the room [r]. *)
Lemma inv_core k s c ss co r :
  server_inv k s → sessions s !! c = Some ss → core_next k (core_ s) co →
  (∀ room c', core_member co room c' ↔
     if bool_decide (c' = c) then r = Some room else core_member (core_ s) room c') →
  server_inv (k - 1) (upd c (set_room_of r) (with_core co s)).
Proof.
  intros [A B C D E F G] Hs [W Hh] Hm. split; simpl; try done.
  - lia.
  - intros c'. rewrite lookup_alter_is_Some. apply D.
  - intros room c'. rewrite Hm. case_bool_decide as Hc'; [rewrite Hc'|by rewrite E, lookup_alter_ne].
    rewrite lookup_alter_eq, Hs. simpl. by rewrite ex_Some.
  - intros c'. rewrite F. destruct (decide (c' = c)) as [->|Hne];
      [rewrite lookup_alter_eq, Hs; simpl; by rewrite !ex_Some|by rewrite lookup_alter_ne].
  - intros c' ss'. destruct (decide (c' = c)) as [->|Hne].
    + rewrite lookup_alter_eq, Hs. intros [= <-]. apply session_inv_room. by eapply G.
    + rewrite lookup_alter_ne by done. apply G.
Qed.

(** The same for a call that leaves the membership as it was. *)
Lemma inv_core_same k s co :
  server_inv k s → core_next k (core_ s) co →
  (∀ room c', core_member co room c' ↔ core_member (core_ s) room c') →
  server_inv (k - 1) (with_core co s).
Proof.
  intros [A B C D E F G] [W Hh] Hm. split; simpl; try done; [lia|].
  intros room c'. by rewrite Hm, E.
Qed.

Lemma inv_start sink k : 0 ≤ k → 1 + 2 * k < 2 ^ 64 → server_inv k (new_server sink).
Proof.
  intros Hk Hlt. split; simpl.
  - apply new_core_wf.
  - apply new_core_headroom. lia.
  - lia.
  - intros c. rewrite lookup_empty. by intros [].
  - intros room c. rewrite lookup_empty. split; [|naive_solver].
    intros (r & Hr & _). unfold core_room in Hr. simpl in Hr. by rewrite lookup_empty in Hr.
  - intros c. rewrite lookup_empty. set_solver.
  - intros c ss. by rewrite lookup_empty.
Qed.

(** ** The handlers *)

Lemma bind_run {A B} (m : M (@Server Σ) A) (f : A → M (@Server Σ) B) s x s1 r :
  m s = Some (x, s1) → f x s1 = r → (m ≫= f) s = r.
Proof. intros Hm Hf. unfold mbind, M_bind. by rewrite Hm. Qed.

Lemma this_run c s ss : sessions s !! c = Some ss → this c s = Some (ss, s).
Proof. intros Hs. unfold this, mbind, M_bind, get. by rewrite Hs. Qed.

Lemma on_core_run {A} (m : M (@ServerCore Σ) A) s x co :
  m (core_ s) = Some (x, co) → on_core m s = Some (x, with_core co s).
Proof. intros Hm. unfold on_core. by rewrite Hm. Qed.

Definition deregister (c : ClientId) s : @Server Σ :=
  mkServer (core_ s) (registry_ s ∖ {[c]}) (sessions s) (nextClientId_ s).

(** The lines the events [evs] bring to the sessions of [s] other than [c]. *)
Definition told s (evs : list OutgoingEvent) (c : ClientId) : list string :=
  if bool_decide (c ∈ registry_ s) then event_lines c evs else [].

(** The session [c] is gone: out of its room and out of the registry. *)
Lemma inv_gone k s c ss co f s2 :
  server_inv k s → sessions s !! c = Some ss → core_next k (core_ s) co →
  (∀ room c', core_member co room c' ↔
     if bool_decide (c' = c) then False else core_member (core_ s) room c') →
  f c = [] → mail f (upd c set_stopped (with_core co s)) s2 →
  server_inv (k - 1) (deregister c (upd c (set_room_of None) s2)).
Proof.
  intros I Hs Hco Hm Hf [M1 M2 M3 M4]. simpl in *. destruct I as [A B C D E F G].
  assert (∀ c', sessions (deregister c (upd c (set_room_of None) s2)) !! c' =
    if bool_decide (c' = c) then Some (set_room_of None (set_stopped ss))
    else post_lines (f c') <$> sessions s !! c') as Hl.
  { intros c'. simpl. case_bool_decide as Hc'.
    - subst c'. rewrite lookup_alter_eq, M4, lookup_alter_eq, Hs, Hf. simpl. by rewrite post_lines_nil.
    - by rewrite lookup_alter_ne, M4, lookup_alter_ne. }
  destruct Hco as [W Hh]. split; simpl; rewrite ?M1, ?M2, ?M3; try done; [lia|..].
  - intros c'. specialize (Hl c'). simpl in Hl. rewrite Hl. case_bool_decide; [subst c'|].
    + intros _. apply D. eauto.
    + rewrite fmap_is_Some. apply D.
  - intros room c'. specialize (Hl c'). simpl in Hl. rewrite Hm, Hl. case_bool_decide.
    + rewrite ex_Some. done.
    + rewrite E. destruct (sessions s !! c') as [ss'|]; [|done]. simpl. by rewrite !ex_Some.
  - intros c'. specialize (Hl c'). simpl in Hl. rewrite Hl. case_bool_decide.
    + rewrite ex_Some. simpl. set_solver.
    + rewrite elem_of_difference, elem_of_singleton, F.
      destruct (sessions s !! c') as [ss'|]; simpl; [rewrite !ex_Some; simpl; tauto|].
      split; [by intros [(? & ? & _) _]|by intros (? & ? & _)].
  - intros c' ss'. specialize (Hl c'). simpl in Hl. rewrite Hl. case_bool_decide.
    + intros [= <-]. apply session_inv_room, session_inv_stopped. by eapply G.
    + intros (ss1 & Hs1 & ->)%fmap_Some. apply session_inv_post. by eapply G.
Qed.

(** What is left of the server when the session [c] in the room [room] stops. *)
Definition stopped_from s c ss s' : Prop :=
  sessions s' !! c = Some (set_room_of None (set_stopped ss)) ∧
  registry_ s' = registry_ s ∖ {[c]} ∧
  match currentRoom_ ss with
  | None => core_ s' = core_ s ∧ ∀ c', c' ≠ c → sessions s' !! c' = sessions s !! c'
  | Some room => ∃ evs, leaveRoom c room (core_ s) = Some (Value evs, core_ s') ∧
      ∀ c', c' ≠ c → sessions s' !! c' = post_lines (told s evs c') <$> sessions s !! c'
  end.

(** The session is stopped, and the invariant kept. *)
Definition stops (k : Z) s c ss : Prop :=
  ∃ s', stopImpl c s = Some (tt, s') ∧ server_inv (k - 1) s' ∧
    nextClientId_ s' = nextClientId_ s ∧ stopped_from s c ss s'.

Lemma stop_member k s c ss room :
  server_inv k s → 1 ≤ k → sessions s !! c = Some ss → stopped_ ss = false → currentRoom_ ss = Some room →
  stops k s c ss.
Proof.
  intros I Hk Hs Hst Er.
  assert (core_member (core_ s) room c) as Hc by (apply (si_member _ _ I); eauto).
  destruct (leaveRoom_members k (core_ s) c room (si_core _ _ I) (si_room _ _ I) Hk Hc)
    as (evs & co & El & Hn & Hto & Hm).
  set (s1 := upd c set_stopped s).
  assert (∀ e, core_member (core_ s) room (ev_to e) ∧ ev_to e ≠ c →
    reachable_by (with_core co s1) (ev_to e)) as Hreach.
  { intros e [_ Hne]. unfold reachable_by. simpl. rewrite lookup_alter_ne by done.
    apply (inv_alive _ _ (ev_to e) I). }
  destruct (dispatch_mail evs (with_core co s1)) as (s2 & Ed & M2).
  { eapply Forall_impl; [exact Hto|]. apply Hreach. }
  assert (event_lines c evs = []) as Hself.
  { unfold event_lines. rewrite filter_none; [done|]. intros e He.
    rewrite Forall_forall in Hto. apply Hto in He as [_ Hne]. exact Hne. }
  exists (deregister c (upd c (set_room_of None) s2)). split_and!.
  - unfold stopImpl. eapply bind_run; [by apply this_run|].
    eapply bind_run; [reflexivity|]. rewrite Hst, Er. simpl.
    eapply bind_run; [|reflexivity].
    eapply bind_run; [by apply on_core_run|]. eapply bind_run; [exact Ed|]. reflexivity.
  - eapply inv_gone; [done|exact Hs|exact Hn| | |exact M2].
    + intros room' c'. rewrite Hm. case_bool_decide as Hc'; [subst c'|naive_solver].
      split; [|done]. intros [Hm1 Hm2]. apply (si_member _ _ I) in Hm1 as (ss' & Hs' & Hr').
      simplify_eq. by apply Hm2.
    + simpl. rewrite Hself. by case_match.
  - simpl. by rewrite (ml_next _ _ _ M2).
  - unfold stopped_from. rewrite Er. simpl. split_and!.
    + rewrite lookup_alter_eq, (ml_sessions _ _ _ M2). simpl. rewrite lookup_alter_eq, Hs. simpl.
      rewrite Hself. case_match; by rewrite post_lines_nil.
    + by rewrite (ml_registry _ _ _ M2).
    + exists evs. split; [by rewrite (ml_core _ _ _ M2)|]. intros c' Hne.
      rewrite lookup_alter_ne, (ml_sessions _ _ _ M2) by done. simpl. by rewrite lookup_alter_ne.
Qed.

Lemma stop_outsider k s c ss :
  server_inv k s → 1 ≤ k → sessions s !! c = Some ss → stopped_ ss = false → currentRoom_ ss = None →
  stops k s c ss.
Proof.
  intros I Hk Hs Hst Er.
  exists (deregister c (upd c set_stopped s)). split_and!; [| |done|].
  - unfold stopImpl. eapply bind_run; [by apply this_run|].
    eapply bind_run; [reflexivity|]. rewrite Hst, Er. reflexivity.
  - assert (upd c (set_room_of None) (upd c set_stopped s) = upd c set_stopped s) as Hsame.
    { unfold upd. simpl. f_equal. apply map_eq. intros c'.
      destruct (decide (c' = c)) as [->|Hne]; [|by rewrite !lookup_alter_ne].
      rewrite !lookup_alter_eq, Hs. simpl. destruct ss. simpl in *. by rewrite Er. }
    rewrite <-Hsame. eapply (inv_gone k s c ss (core_ s) (λ _, [])); [done..| | |done|].
    + split; [apply I|]. apply (inv_mono k (k - 1) s I). lia.
    + intros room c'. case_bool_decide as Hc'; [subst c'|done]. split; [|done].
      intros (ss' & Hs' & Hr')%(si_member _ _ I). by simplify_eq.
    + by apply mail_nil.
  - unfold stopped_from. rewrite Er. simpl. split_and!; [|done|done|].
    + rewrite lookup_alter_eq, Hs. simpl. destruct ss. simpl in *. by rewrite Er.
    + intros c' Hne. by rewrite lookup_alter_ne.
Qed.

Lemma stop_run k s c ss :
  server_inv k s → 1 ≤ k → sessions s !! c = Some ss → stopped_ ss = false → stops k s c ss.
Proof.
  intros I Hk Hs Hst. destruct (currentRoom_ ss) as [room|] eqn:Er; [by eapply stop_member|by apply stop_outsider].
Qed.

(** Stopping again does nothing. *)
Lemma stop_again s c ss :
  sessions s !! c = Some ss → stopped_ ss = true → stopImpl c s = Some (tt, s).
Proof.
  intros Hs Hst. unfold stopImpl. eapply bind_run; [by apply this_run|].
  eapply bind_run; [reflexivity|]. rewrite Hst. unfold mret, M_ret. do 2 f_equal.
  destruct s as [co reg sss n]. simpl in *. f_equal. apply map_eq. intros c'.
  destruct (decide (c' = c)) as [->|Hne]; [|by rewrite lookup_alter_ne].
  rewrite lookup_alter_eq, Hs. simpl. destruct ss. simpl in *. by rewrite Hst.
Qed.

(** What a request of session [c] leaves: the session has other lines to write,
    maybe another room, and is otherwise as it was. *)
Definition handled k s c ss s' : Prop :=
  server_inv (k - 1) s' ∧ nextClientId_ s' = nextClientId_ s ∧
  ∃ room ls, sessions s' !! c = Some (post_lines ls (set_room_of room ss)).

Lemma deliver_handled k s c ss m s1 :
  message_text m → handled k s c ss s1 →
  ∃ s', deliver c m s1 = Some (tt, s') ∧ handled k s c ss s'.
Proof.
  intros Hm (I & Hn & room & ls & Hs). destruct (deliver_text c m s1 Hm) as (line & s' & _ & E & M).
  exists s'. split; [done|]. split_and!; [by eapply inv_mail|by rewrite (ml_next _ _ _ M)|].
  eexists room, (ls ++ _). rewrite (ml_sessions _ _ _ M), Hs. simpl. by rewrite post_lines_app.
Qed.

Lemma dispatch_handled k s c ss evs s1 :
  handled k s c ss s1 →
  ∃ s', dispatchOutgoing evs s1 = Some (tt, s') ∧ handled k s c ss s'.
Proof.
  intros (I & Hn & room & ls & Hs). destruct (dispatch_mail evs s1) as (s' & E & M).
  { apply Forall_true. intros e. by eapply inv_alive. }
  exists s'. split; [done|]. split_and!; [by eapply inv_mail|by rewrite (ml_next _ _ _ M)|].
  eexists room, (ls ++ _). rewrite (ml_sessions _ _ _ M), Hs. simpl. by rewrite post_lines_app.
Qed.

Lemma handled_refl k s c ss :
  server_inv k s → sessions s !! c = Some ss → handled k s c ss s.
Proof.
  intros I Hs. split_and!; [by apply (inv_mono k); [|lia]|done|].
  exists (currentRoom_ ss), []. rewrite post_lines_nil, Hs. by destruct ss.
Qed.

Lemma handled_core k s c ss co :
  server_inv k s → sessions s !! c = Some ss → core_next k (core_ s) co →
  (∀ room c', core_member co room c' ↔ core_member (core_ s) room c') →
  handled k s c ss (with_core co s).
Proof.
  intros I Hs Hn Hm. split_and!; [by apply inv_core_same|done|].
  exists (currentRoom_ ss), []. rewrite post_lines_nil. simpl. rewrite Hs. by destruct ss.
Qed.

Lemma handled_room k s c ss co r :
  server_inv k s → sessions s !! c = Some ss → core_next k (core_ s) co →
  (∀ room c', core_member co room c' ↔
     if bool_decide (c' = c) then r = Some room else core_member (core_ s) room c') →
  handled k s c ss (upd c (set_room_of r) (with_core co s)).
Proof.
  intros I Hs Hn Hm. split_and!; [by eapply inv_core|done|].
  exists r, []. rewrite post_lines_nil. by apply upd_self.
Qed.

(** The members of the rooms are the sessions, client by client. *)
Lemma member_here k s c ss room :
  server_inv k s → sessions s !! c = Some ss →
  core_member (core_ s) room c ↔ currentRoom_ ss = Some room.
Proof. intros I Hs. by rewrite (si_member _ _ I), Hs, ex_Some. Qed.

Lemma sendError_handled k s c ss e s1 :
  text (error_message e) → handled k s c ss s1 →
  ∃ s', sendError c e s1 = Some (tt, s') ∧ handled k s c ss s'.
Proof. intros He. apply deliver_handled. by apply toErrorMessage_text. Qed.

Lemma join_run k s c ss room :
  server_inv k s → 1 ≤ k → sessions s !! c = Some ss →
  currentRoom_ ss = None ∨ currentRoom_ ss = Some room →
  ∃ s', (result ← on_core (joinRoom c room);
         match result with
         | Unexpected e => sendError c e
         | Value snapshot =>
             on_session c (set_room_of (Some room)) ;; deliver c (toSnapshotMessage snapshot)
         end) s = Some (tt, s') ∧ handled k s c ss s'.
Proof.
  intros I Hk Hs Hr.
  destruct (joinRoom_members k (core_ s) c room (si_core _ _ I) (si_room _ _ I) Hk)
    as ([snap|e] & co & E & Hn & Hm).
  - destruct (deliver_handled k s c ss (toSnapshotMessage snap)
      (upd c (set_room_of (Some room)) (with_core co s))) as (s' & E' & Hh); [done| |].
    + apply handled_room; [done..|]. intros room' c'. rewrite Hm.
      case_bool_decide as Hc; [subst c'|naive_solver].
      rewrite (member_here _ _ _ _ _ I Hs). destruct Hr as [-> | ->]; naive_solver.
    + exists s'. split; [|done]. eapply bind_run; [by apply on_core_run|].
      eapply bind_run; [reflexivity|exact E'].
  - destruct Hm as [-> ->].
    destruct (sendError_handled k s c ss roomNotFound s) as (s' & E' & Hh);
      [by apply text_ascii|by apply handled_refl|].
    exists s'. split; [|done]. eapply bind_run; [by apply on_core_run|]. by destruct s.
Qed.

Lemma leave_run k s c ss room :
  server_inv k s → 1 ≤ k → sessions s !! c = Some ss → currentRoom_ ss = Some room →
  ∃ s', (result ← on_core (leaveRoom c room);
         match result with
         | Unexpected e => sendError c e
         | Value events =>
             on_session c (set_room_of None) ;; dispatchOutgoing events ;;
             deliver c (OkResponse "leave_room" room)
         end) s = Some (tt, s') ∧ handled k s c ss s'.
Proof.
  intros I Hk Hs Hr. assert (core_member (core_ s) room c) as Hc by by apply (member_here k s c ss).
  destruct (leaveRoom_members k (core_ s) c room (si_core _ _ I) (si_room _ _ I) Hk Hc)
    as (evs & co & E & Hn & _ & Hm).
  assert (handled k s c ss (upd c (set_room_of None) (with_core co s))) as Hd1.
  { apply handled_room; [done..|]. intros room' c'. rewrite Hm.
    case_bool_decide as Hc'; [subst c'|naive_solver].
    rewrite (member_here _ _ _ _ _ I Hs), Hr. naive_solver. }
  destruct (dispatch_handled k s c ss evs _ Hd1) as (s1 & E1 & Hd2).
  destruct (deliver_handled k s c ss (OkResponse "leave_room" room) s1) as (s' & E' & Hh);
    [by apply text_ascii|done|].
  exists s'. split; [|done]. eapply bind_run; [by apply on_core_run|].
  eapply bind_run; [reflexivity|]. eapply bind_run; [exact E1|exact E'].
Qed.

Lemma event_run k s now c ss room ev :
  server_inv k s → 1 ≤ k → sessions s !! c = Some ss →
  ∃ s', (result ← on_core (handleEvent now c room ev);
         match result with
         | Unexpected e => sendError c e
         | Value events => dispatchOutgoing events
         end) s = Some (tt, s') ∧ handled k s c ss s'.
Proof.
  intros I Hk Hs.
  destruct (handleEvent_members k (core_ s) now c room ev (si_core _ _ I) (si_room _ _ I) Hk)
    as (res & co & E & Hn & Hres & Hm).
  assert (handled k s c ss (with_core co s)) as Hd1 by by apply handled_core.
  assert (∃ s', match res with
                | Unexpected e => sendError c e
                | Value events => dispatchOutgoing events
                end (with_core co s) = Some (tt, s') ∧ handled k s c ss s') as (s' & E' & Hh).
  { destruct res as [evs|e]; [by apply dispatch_handled|].
    apply sendError_handled; [by apply text_ascii|done]. }
  exists s'. split; [|done]. eapply bind_run; [by apply on_core_run|exact E'].
Qed.

Lemma event_request_text m room e : event_request m = Some (room, Unexpected e) → text (error_message e).
Proof.
  destruct m; simpl; try done. unfold toCoreEvent_StrokeBegin, toColor, toThickness.
  repeat case_bool_decide; intros [= _ <-]; by apply text_ascii.
Qed.

Lemma message_run k s now c ss m :
  server_inv k s → 1 ≤ k → sessions s !! c = Some ss →
  ∃ s', handleMessage now c m s = Some (tt, s') ∧ handled k s c ss s'.
Proof.
  intros I Hk Hs. pose proof (handled_refl k s c ss I Hs) as Hd1.
  assert (∀ e, text (error_message e) → ∃ s', sendError c e s = Some (tt, s') ∧ handled k s c ss s')
    as Herr by (intros; by apply sendError_handled).
  assert (∀ room ev, event_request m = Some (room, ev) →
    ∃ s', (if bool_decide (currentRoom_ ss ≠ Some room) then sendError c notInRoom else
          match ev with
          | Unexpected e => sendError c e
          | Value ev =>
              result ← on_core (handleEvent now c room ev);
              match result with
              | Unexpected e => sendError c e
              | Value events => dispatchOutgoing events
              end
          end) s = Some (tt, s') ∧ handled k s c ss s') as Hev.
  { intros room ev Hreq. case_bool_decide; [apply Herr; by apply text_ascii|].
    destruct ev as [ev|e]; [by apply event_run|]. apply Herr. by eapply event_request_text. }
  unfold handleMessage.
  assert (∀ f P, (∃ s', f ss s = Some (tt, s') ∧ P s') → ∃ s', (this c ≫= f) s = Some (tt, s') ∧ P s')
    as Hbind.
  { intros f P (s' & E & HP). exists s'. split; [|done]. by eapply bind_run; [apply this_run|]. }
  apply Hbind. destruct m as [| |room|room|room col th p|room p|room|room p|room];
    try (by apply (Hev room _ eq_refl)).
  - by apply deliver_handled.
  - destruct (createRoom_members k (core_ s) (si_core _ _ I) (si_room _ _ I) Hk)
      as (room & co & E & Hn & Hm).
    destruct (deliver_handled k s c ss (RoomCreatedResponse room) (with_core co s)) as (s' & E' & Hh);
      [done|by apply handled_core|].
    exists s'. split; [|done]. by eapply bind_run; [apply on_core_run|].
  - case_bool_decide as Hr; [apply Herr; by apply text_ascii|]. apply join_run; try done.
    destruct (currentRoom_ ss) as [r|]; [right|by left]. destruct (decide (r = room)); [by subst|].
    exfalso. apply Hr. split; congruence.
  - case_bool_decide as Hr; [apply Herr; by apply text_ascii|]. apply leave_run; try done.
Qed.

Lemma line_run k s now c ss line :
  server_inv k s → 1 ≤ k → sessions s !! c = Some ss → line_text line →
  ∃ s', handleLine now c line s = Some (tt, s') ∧ handled k s c ss s'.
Proof.
  intros I Hk Hs Hl. unfold handleLine. destruct (parseClientMessage line) as [m|e] eqn:Ep.
  - by apply message_run.
  - apply sendError_handled; [|by apply handled_refl].
    unfold protocolToCoreError. destruct (perr_code e); by eapply parse_error_text.
Qed.

(** ** The steps *)

Lemma upd_upd c f g s : upd c f (upd c g s) = upd c (λ ss, f (g ss)) s.
Proof. unfold upd. simpl. f_equal. apply map_eq. intros c'. destruct (decide (c' = c)) as [->|];
  [rewrite !lookup_alter_eq; by destruct (sessions s !! c)|by rewrite !lookup_alter_ne]. Qed.

Definition op_text (op : ServerOp) : Prop :=
  match op with ReadDone _ _ (Some line) => line_text line | _ => True end.

(** The invariant of a session that is stopped, or still reads. *)
Lemma session_inv_read b ss :
  session_inv ss → (stopped_ ss = false → b = true) → session_inv (set_reading b ss).
Proof. intros [A B C D] Hb. split; simpl; auto. Qed.

Lemma session_inv_task t ts ss :
  session_inv ss → posted ss = t :: ts → task_line t = None → t ≠ TStart →
  session_inv (set_posted ts ss).
Proof.
  intros [A B C D] Hp Ht Hne. split; simpl; [|done|done|].
  - intros Hst. destruct (A Hst) as [|Hin]; [by left|right]. rewrite Hp in Hin. set_solver.
  - rewrite D. unfold queued_lines. rewrite Hp. simpl. by rewrite Ht.
Qed.

Lemma session_inv_start ts ss :
  session_inv ss → posted ss = TStart :: ts →
  session_inv (set_reading true (set_posted ts ss)) ∧
  (stopped_ ss = true → session_inv (set_posted ts ss)).
Proof.
  intros [A B C D] Hp. assert (queued_lines ss = queued_lines (set_posted ts ss)) as Hq
    by (unfold queued_lines; by rewrite Hp).
  split; [|intros Hst]; split; simpl; auto; try congruence; by rewrite D, Hq.
Qed.

Lemma session_inv_push line ts ss :
  session_inv ss → posted ss = TWrite line :: ts →
  let ss' := push_line line (set_posted ts ss) in
  (writeQueue_ ss ≠ [] ∨ stopped_ ss = true → session_inv ss') ∧
  (writeQueue_ ss = [] → session_inv (set_writing true ss')).
Proof.
  intros [A B C D] Hp. assert (queued_lines ss = line :: queued_lines (set_posted ts ss)) as Hq
    by (unfold queued_lines; by rewrite Hp).
  assert (stopped_ ss = false → reading ss = true ∨ TStart ∈ ts) as A'.
  { intros Hst. destruct (A Hst) as [|Hin]; [by left|right]. rewrite Hp in Hin. set_solver. }
  assert (delivered ss = written ss ++ (writeQueue_ ss ++ [line]) ++ queued_lines (set_posted ts ss)) as D'
    by by rewrite D, Hq, <-app_assoc.
  assert (writeQueue_ ss ++ [line] ≠ []) as Hne by by intros [_ ?]%app_eq_nil.
  split; [intros [Hw|Hst]|intros Hw]; split; simpl; auto. congruence.
Qed.

Lemma session_inv_pop line q ss :
  session_inv ss → writeQueue_ ss = line :: q →
  let ss' := set_writing false (pop_line line q ss) in
  (q = [] ∨ stopped_ ss = true → session_inv ss') ∧
  (q ≠ [] → session_inv (set_writing true ss')).
Proof.
  intros [A B C D] Hw. rewrite Hw in D.
  assert (delivered ss = (written ss ++ [line]) ++ q ++ queued_lines ss) as D'
    by by rewrite D, <-app_assoc.
  split; [intros [Hq|Hst]|intros Hq]; split; simpl; auto; try done. congruence.
Qed.

(** ** What a handler does to its own session *)

(** The session after the read handler, the posted handler [t] and the write
    handler have run to their end. *)
Definition read_done (ss : Session) : Session := set_reading (negb (stopped_ ss)) ss.

Definition task_done (t : Task) (ts : list Task) (ss : Session) : Session :=
  let ss' := set_posted ts ss in
  match t with
  | TStart => if stopped_ ss then ss' else set_reading true ss'
  | TWrite line =>
      if bool_decide (writeQueue_ ss = []) && negb (stopped_ ss)
      then set_writing true (push_line line ss') else push_line line ss'
  | TStop => ss'
  end.

Definition write_done (line : string) (q : list string) (ss : Session) : Session :=
  let ss' := pop_line line q ss in
  set_writing (bool_decide (q ≠ []) && negb (stopped_ ss)) ss'.

Lemma upd_const c f s ss : sessions s !! c = Some ss → upd c f s = upd c (λ _, f ss) s.
Proof.
  intros Hs. unfold upd. f_equal. apply alter_ext. intros ss' Hs'. by simplify_eq.
Qed.

Lemma read_effect c s ss :
  sessions s !! c = Some ss →
  (on_session c (set_reading false) ;; doReadLine c) s = Some (tt, upd c (λ _, read_done ss) s).
Proof.
  intros Hs. pose proof (upd_self c (set_reading false) s ss Hs) as Hs1.
  apply (bind_run _ _ s tt (upd c (set_reading false) s)); [done|]. unfold doReadLine. eapply bind_run; [by apply this_run|].
  unfold read_done. simpl. destruct (stopped_ ss); simpl.
  - unfold mret, M_ret. do 2 f_equal. by apply (upd_const c (set_reading false)).
  - change (on_session c (set_reading true) ?s) with (Some (tt, upd c (set_reading true) s)).
    rewrite upd_upd. do 2 f_equal. by apply (upd_const c (λ ss, set_reading true (set_reading false ss))).
Qed.

Lemma task_effect c t ts s ss :
  sessions s !! c = Some ss → t ≠ TStop →
  (on_session c (set_posted ts) ;; run_task c t) s = Some (tt, upd c (λ _, task_done t ts ss) s).
Proof.
  intros Hs Ht. pose proof (upd_self c (set_posted ts) s ss Hs) as Hs1.
  apply (bind_run _ _ s tt (upd c (set_posted ts) s)); [done|]. destruct t as [|line|]; [| |done]; simpl.
  - unfold doReadLine. eapply bind_run; [by apply this_run|]. simpl. destruct (stopped_ ss).
    + unfold mret, M_ret. do 2 f_equal. by apply (upd_const c (set_posted ts)).
    + change (on_session c (set_reading true) ?s) with (Some (tt, upd c (set_reading true) s)).
      rewrite upd_upd. do 2 f_equal. by apply (upd_const c (λ ss, set_reading true (set_posted ts ss))).
  - eapply bind_run; [by apply this_run|].
    eapply (bind_run _ _ _ tt (upd c (push_line line) (upd c (set_posted ts) s))); [done|]. simpl.
    rewrite upd_upd.
    assert (upd c (λ ss, push_line line (set_posted ts ss)) s =
      upd c (λ _, push_line line (set_posted ts ss)) s) as Hpush
      by by apply (upd_const c (λ ss, push_line line (set_posted ts ss))).
    rewrite Hpush. case_bool_decide as Hq; [|done]. simpl.
    unfold doWrite. eapply bind_run; [apply this_run; by apply upd_self|]. simpl.
    rewrite bool_decide_eq_false_2 by (by intros [_ ?]%app_eq_nil). simpl.
    destruct (stopped_ ss); [done|]. simpl.
    change (on_session c (set_writing true) ?s) with (Some (tt, upd c (set_writing true) s)).
    by rewrite upd_upd.
Qed.

Lemma write_effect c line q s ss :
  sessions s !! c = Some ss → writeQueue_ ss = line :: q →
  onWrite c true s = Some (tt, upd c (λ _, write_done line q ss) s).
Proof.
  intros Hs Hq. unfold onWrite. simpl. eapply bind_run; [by apply this_run|]. rewrite Hq.
  apply (bind_run _ _ s tt (upd c (pop_line line q) s)); [done|].
  apply (bind_run _ _ _ tt (upd c (set_writing false) (upd c (pop_line line q) s))); [done|].
  rewrite upd_upd.
  assert (upd c (λ ss, set_writing false (pop_line line q ss)) s =
    upd c (λ _, set_writing false (pop_line line q ss)) s) as Hpop
    by by apply (upd_const c (λ ss, set_writing false (pop_line line q ss))).
  unfold write_done. rewrite Hpop. case_bool_decide as Hq'; [|done]. simpl.
  unfold doWrite. eapply bind_run; [apply this_run; by apply upd_self|]. simpl.
  rewrite bool_decide_eq_false_2 by done. simpl. destruct (stopped_ ss); [done|]. simpl.
  change (on_session c (set_writing true) ?s) with (Some (tt, upd c (set_writing true) s)).
  by rewrite upd_upd.
Qed.

Lemma read_done_inv ss : session_inv ss → session_inv (read_done ss).
Proof. intros V. apply session_inv_read; [done|]. by intros ->. Qed.

Lemma task_done_inv t ts ss :
  session_inv ss → posted ss = t :: ts →
  session_inv (task_done t ts ss) ∧ currentRoom_ (task_done t ts ss) = currentRoom_ ss ∧
  stopped_ (task_done t ts ss) = stopped_ ss.
Proof.
  intros V Hp. destruct t as [|line|]; simpl.
  - destruct (session_inv_start ts ss V Hp) as [V1 V2]. destruct (stopped_ ss) eqn:Hst; split_and!; auto.
  - destruct (session_inv_push line ts ss V Hp) as [V1 V2].
    case_bool_decide; destruct (stopped_ ss) eqn:Hst; simpl; split_and!; auto.
  - split_and!; [by eapply session_inv_task|done..].
Qed.

Lemma write_done_inv line q ss :
  session_inv ss → writeQueue_ ss = line :: q → session_inv (write_done line q ss).
Proof.
  intros V Hq. destruct (session_inv_pop line q ss V Hq) as [V1 V2]. unfold write_done.
  case_bool_decide as Hq'; simpl; [|apply V1; by left].
  destruct (stopped_ ss) eqn:Hst; simpl; [apply V1; by right|by apply V2].
Qed.

(** ** The steps of the server *)

Lemma accept_run k s :
  server_inv k s → 1 ≤ k → ∃ s', acceptSession s = Some (tt, s') ∧ server_inv (k - 1) s'.
Proof.
  intros I Hk. pose proof (inv_mono k (k - 1) s I ltac:(lia)) as [A B C D E F G].
  destruct I as [_ _ [C1 C2] _ _ _ _]. eexists. split.
  { unfold acceptSession, registry_add, mbind, M_bind, get, modify. simpl. reflexivity. }
  assert (sessions s !! nextClientId_ s = None) as Hfresh.
  { destruct (sessions s !! nextClientId_ s) as [ss|] eqn:Es; [|done].
    assert (nextClientId_ s < nextClientId_ s) by (apply D; eauto). lia. }
  split; simpl; rewrite ?u64_succ by lia; try done; [lia|..].
  - intros c. rewrite lookup_insert_is_Some. intros [<-|[_ Hc]]; [lia|]. specialize (D _ Hc). lia.
  - intros room c. rewrite E. destruct (decide (c = nextClientId_ s)) as [->|Hne];
      [|by rewrite lookup_insert_ne].
    rewrite lookup_insert_eq, Hfresh, ex_Some. split; [by intros (? & ? & _)|done].
  - intros c. rewrite elem_of_union, elem_of_singleton, F.
    destruct (decide (c = nextClientId_ s)) as [->|Hne]; [|rewrite lookup_insert_ne by done; naive_solver].
    rewrite lookup_insert_eq, ex_Some. simpl. tauto.
  - intros c ss. destruct (decide (c = nextClientId_ s)) as [->|Hne];
      [|rewrite lookup_insert_ne by done; apply G].
    rewrite lookup_insert_eq. intros [= <-]. split; simpl; try done. intros _. right. by left.
Qed.

(** [stopImpl] at any time, and the end of the handler that called it. *)
Lemma stop_any k s c ss f :
  server_inv k s → 1 ≤ k → sessions s !! c = Some ss →
  (∀ ss', session_inv ss' → stopped_ ss' = true →
     session_inv (f ss') ∧ currentRoom_ (f ss') = currentRoom_ ss' ∧ stopped_ (f ss') = true) →
  ∃ s', (stopImpl c ;; on_session c f) s = Some (tt, s') ∧ server_inv (k - 1) s'.
Proof.
  intros I Hk Hs Hf.
  assert (∃ s1 ss1, stopImpl c s = Some (tt, s1) ∧ server_inv (k - 1) s1 ∧
    sessions s1 !! c = Some ss1 ∧ stopped_ ss1 = true) as (s1 & ss1 & E & I1 & Hs1 & Hst1).
  { destruct (stopped_ ss) eqn:Hst.
    - exists s, ss. split_and!; [by eapply stop_again|by apply (inv_mono k); [|lia]|done|done].
    - destruct (stop_run k s c ss I Hk Hs Hst) as (s1 & E & I1 & _ & Hs1 & _). eauto 10. }
  exists (upd c f s1). split; [by eapply bind_run|].
  destruct (Hf ss1 (si_session _ _ I1 _ _ Hs1) Hst1) as (? & ? & ?).
  eapply inv_upd; try done. by rewrite Hst1.
Qed.

Lemma read_run k s now c ss line :
  server_inv k s → 1 ≤ k → sessions s !! c = Some ss → op_text (ReadDone c now line) →
  ∃ s', onReadLine now c line s = Some (tt, s') ∧ server_inv (k - 1) s'.
Proof.
  intros I Hk Hs Ht. destruct line as [line|]; unfold onReadLine.
  - destruct (line_run k s now c ss line I Hk Hs Ht) as (s1 & E & I1 & _ & room & ls & Hs1).
    eexists. split; [eapply bind_run; [exact E|]; by apply read_effect|].
    eapply inv_upd; [done|done| |done|done]. apply read_done_inv. by apply (si_session _ _ I1 c).
  - apply (stop_any k s c ss); try done. intros ss' V Hst. split_and!; [|done|done].
    apply session_inv_read; [done|congruence].
Qed.

Lemma write_run k s c ss ok :
  server_inv k s → 1 ≤ k → sessions s !! c = Some ss → writing ss = true →
  ∃ s', onWrite c ok s = Some (tt, s') ∧ server_inv (k - 1) s'.
Proof.
  intros I Hk Hs Hw. pose proof (si_session _ _ I _ _ Hs) as V. destruct ok; unfold onWrite; simpl.
  - pose proof (inv_mono k (k - 1) s I ltac:(lia)) as I1.
    destruct (writeQueue_ ss) as [|line q] eqn:Hq; [by destruct (sv_writing _ V Hw)|].
    eexists. split; [by eapply write_effect|]. eapply inv_upd; [done|done|by apply write_done_inv|done|done].
  - apply (stop_any k s c ss); try done. intros ss' [A' B' C' D'] Hst.
    split_and!; [|done|done]. split; simpl; auto; congruence.
Qed.

Lemma task_run k s c ss t ts :
  server_inv k s → 1 ≤ k → sessions s !! c = Some ss → posted ss = t :: ts →
  ∃ s', (on_session c (set_posted ts) ;; run_task c t) s = Some (tt, s') ∧ server_inv (k - 1) s'.
Proof.
  intros I Hk Hs Hp. pose proof (si_session _ _ I _ _ Hs) as V.
  destruct (task_done_inv t ts ss V Hp) as (V' & Hroom & Hst').
  destruct (decide (t = TStop)) as [->|Hne].
  - pose proof (upd_self c (set_posted ts) s ss Hs) as Hs1.
    assert (server_inv k (upd c (set_posted ts) s)) as I2 by by eapply inv_upd.
    destruct (stopped_ ss) eqn:Hst.
    + exists (upd c (set_posted ts) s). split; [|by apply (inv_mono k); [|lia]].
      eapply bind_run; [reflexivity|]. by eapply stop_again.
    + destruct (stop_run k _ c _ I2 Hk Hs1 Hst) as (s' & E & I3 & _).
      exists s'. split; [|done]. by eapply bind_run.
  - eexists. split; [by apply task_effect|].
    eapply inv_upd; [by apply (inv_mono k); [|lia]|done|done|done|done].
Qed.

Lemma step_run op k s :
  server_inv k s → 1 ≤ k → op_text op →
  ∃ s', server_step op s = Some (tt, s') ∧ server_inv (k - 1) s'.
Proof.
  intros I Hk Ht. pose proof (inv_mono k (k - 1) s I ltac:(lia)) as I1.
  destruct op as [|c now line|c ok|c|c]; [by apply accept_run| | | |]; simpl; unfold when_due;
    unfold mbind at 1, M_bind at 1, get at 1;
    (destruct (sessions s !! c) as [ss|] eqn:Hs; [|by eexists]).
  - destruct (reading ss); [by eapply read_run|by eexists].
  - destruct (writing ss) eqn:Hw; [by eapply write_run|by eexists].
  - case_bool_decide as Hp; simpl; [by eexists|].
    destruct (posted ss) as [|t ts] eqn:Hp'; [done|]. by eapply task_run.
  - eexists. split; [reflexivity|].
    pose proof (si_session _ _ I _ _ Hs) as [A B C D].
    eapply (inv_upd _ s c ss); try done. split; simpl; [|done|done|].
    + intros Hst. destruct (A Hst); [by left|right; set_solver].
    + rewrite D. unfold queued_lines. simpl. by rewrite omap_app, app_nil_r.
Qed.

Lemma server_run_cons op ops s s1 :
  server_step op s = Some (tt, s1) → server_run (op :: ops) s = server_run ops s1.
Proof. intros E. cbn [server_run]. unfold mbind, M_bind. by rewrite E. Qed.

Lemma server_run_app ops ops' s :
  server_run (ops ++ ops') s = (server_run ops ;; server_run ops') s.
Proof.
  revert s. induction ops as [|op ops IH]; intros s; [done|]. cbn [app server_run]. unfold mbind, M_bind in *.
  destruct (server_step op s) as [[[] s1]|]; [apply IH|done].
Qed.

Lemma run_inv ops k s :
  server_inv k s → Z.of_nat (length ops) ≤ k → Forall op_text ops →
  ∃ s', server_run ops s = Some (tt, s') ∧ server_inv (k - Z.of_nat (length ops)) s'.
Proof.
  revert k s. induction ops as [|op ops IH]; intros k s I Hk Ht.
  - exists s. split; [done|]. by apply (inv_mono k); [|simpl; lia].
  - apply Forall_cons_1 in Ht as [Hop Ht]. simpl in Hk.
    destruct (step_run op k s I ltac:(lia) Hop) as (s1 & E & I1).
    destruct (IH (k - 1) s1 I1 ltac:(lia) Ht) as (s2 & E2 & I2).
    exists s2. split; [by eapply bind_run|]. apply (inv_mono (k - 1 - Z.of_nat (length ops))); [done|].
    simpl length. lia.
Qed.

(** ** Sessions that cannot leave *)

(** The stopped session [c] is in [room], and no handler will read from it. *)
Definition ghost (c : ClientId) (room : RoomId) s : Prop :=
  ∃ ss, sessions s !! c = Some ss ∧ stopped_ ss = true ∧ reading ss = false ∧
    currentRoom_ ss = Some room.

Definition keeps {A} (c : ClientId) (m : M (@Server Σ) A) : Prop :=
  ∀ room s x s', m s = Some (x, s') → ghost c room s → ghost c room s'.

Lemma keeps_ret {A} c (x : A) : keeps c (mret x).
Proof. by intros room s y s' [= _ <-]. Qed.

Lemma keeps_undefined {A} c : keeps (A:=A) c undefined.
Proof. by intros room s y s' E. Qed.

Lemma keeps_bind {A B} c (m : M (@Server Σ) A) (f : A → M (@Server Σ) B) :
  keeps c m → (∀ x, keeps c (f x)) → keeps c (m ≫= f).
Proof.
  intros Hm Hf room s y s' E G. unfold mbind, M_bind in E.
  destruct (m s) as [[x s1]|] eqn:E1; [|done]. eapply Hf, Hm; eauto.
Qed.

Lemma keeps_this {B} c c' (f : Session → M (@Server Σ) B) :
  (∀ ss, (c' = c → stopped_ ss = true) → keeps c (f ss)) → keeps c (this c' ≫= f).
Proof.
  intros Hf room s y s' E G. unfold this, mbind, M_bind, get in E.
  destruct (sessions s !! c') as [ss|] eqn:Hs; [|done]. unfold mret, M_ret in E.
  eapply Hf; [|exact E|exact G]. intros ->. destruct G as (ss' & Hs' & Hst & _). by simplify_eq.
Qed.

Lemma keeps_on_core {A} c (m : M (@ServerCore Σ) A) : keeps c (on_core m).
Proof.
  intros room s x s' E G. unfold on_core in E. destruct (m (core_ s)) as [[y co]|]; [|done].
  by simplify_eq.
Qed.

Lemma keeps_session c c' f :
  (c' = c → ∀ ss, stopped_ ss = true →
     stopped_ (f ss) = true ∧ reading (f ss) = reading ss ∧ currentRoom_ (f ss) = currentRoom_ ss) →
  keeps c (on_session c' f).
Proof.
  intros Hf room s x s' E (ss & Hs & Hst & Hr & Hroom). injection E as _ <-. unfold ghost. simpl.
  destruct (decide (c' = c)) as [->|Hne].
  - rewrite lookup_alter_eq, Hs. simpl. eexists. split; [done|].
    destruct (Hf eq_refl ss Hst) as (-> & -> & ->). done.
  - rewrite lookup_alter_ne by done. by exists ss.
Qed.

Lemma keeps_registry c f :
  keeps c (modify (λ s : @Server Σ, mkServer (core_ s) (f s) (sessions s) (nextClientId_ s))).
Proof. by intros room s x s' [= _ <-] G. Qed.

Lemma keeps_deliver c c' m : keeps c (deliver c' m).
Proof.
  unfold deliver. destruct (serializeServerMessage m); [|apply keeps_undefined].
  apply keeps_session. auto.
Qed.

Lemma keeps_registry_deliver c c' m : keeps c (registry_deliver c' m).
Proof.
  unfold registry_deliver. apply keeps_bind; [|intros [|]; [apply keeps_deliver|apply keeps_ret]].
  unfold registry_find. apply keeps_bind; [by intros room s x s' [= _ <-]|]. intros s.
  case_bool_decide; [apply keeps_ret|]. apply keeps_this. intros ss _.
  destruct (alive ss); [apply keeps_ret|]. apply keeps_bind; [apply keeps_registry|]. intros. apply keeps_ret.
Qed.

Lemma keeps_dispatch c evs : keeps c (dispatchOutgoing evs).
Proof.
  induction evs as [|e evs IH]; simpl; [apply keeps_ret|].
  apply keeps_bind; [apply keeps_registry_deliver|by intros].
Qed.
End Sessions.

Create HintDb ghost.
#[export] Hint Resolve keeps_ret keeps_undefined keeps_bind keeps_this keeps_on_core
  keeps_registry keeps_deliver keeps_dispatch : ghost.

(** Proves that a handler keeps a ghost. *)
Ltac keeps_ghost :=
  repeat first
    [ progress intros
    | apply keeps_this | apply keeps_bind | apply keeps_ret | apply keeps_on_core
    | apply keeps_deliver | apply keeps_dispatch | apply keeps_registry
    | case_bool_decide | progress case_match
    | apply keeps_session; intros; split_and?; simpl; congruence || done ].

Section Ghosts.
Context `{HashOrder} {Σ : Type} `{SnapshotSink Σ} `{JsonText}.
Implicit Types s : @Server Σ.

Lemma keeps_stop c c' : keeps (Σ:=Σ) c (stopImpl c').
Proof.
  unfold stopImpl. apply keeps_this. intros ss Hst. apply keeps_bind.
  - apply keeps_session. auto.
  - intros _. destruct (stopped_ ss); [apply keeps_ret|].
    assert (c' ≠ c) as Hne by (intros ->; by specialize (Hst eq_refl)).
    unfold registry_remove. destruct (currentRoom_ ss); keeps_ghost.
Qed.

Lemma keeps_doReadLine c c' : keeps (Σ:=Σ) c (doReadLine c').
Proof.
  unfold doReadLine. apply keeps_this. intros ss Hst. destruct (stopped_ ss); [apply keeps_ret|].
  apply keeps_session. intros ->. by specialize (Hst eq_refl).
Qed.

Lemma keeps_doWrite c c' : keeps (Σ:=Σ) c (doWrite c').
Proof. unfold doWrite. keeps_ghost. Qed.

Lemma keeps_handleLine now c c' line : c' ≠ c → keeps (Σ:=Σ) c (handleLine now c' line).
Proof.
  intros Hne. unfold handleLine, sendProtocolError, sendError.
  destruct (parseClientMessage line) as [m|e]; [|apply keeps_deliver].
  unfold handleMessage, sendError. keeps_ghost.
Qed.

Lemma keeps_onReadLine now c c' line : c' ≠ c → keeps (Σ:=Σ) c (onReadLine now c' line).
Proof.
  intros Hne. unfold onReadLine.
  destruct line; repeat (apply keeps_bind; [|intros _]);
    first [by apply keeps_handleLine | apply keeps_stop | apply keeps_doReadLine | by apply keeps_session].
Qed.

Lemma keeps_onWrite c c' ok : keeps (Σ:=Σ) c (onWrite c' ok).
Proof.
  unfold onWrite. destruct (negb ok).
  - apply keeps_bind; [apply keeps_stop|intros; apply keeps_session; auto].
  - apply keeps_this. intros ss _. destruct (writeQueue_ ss) as [|line q]; [apply keeps_undefined|].
    repeat (apply keeps_bind; [by apply keeps_session; auto|intros _]).
    case_bool_decide; [apply keeps_doWrite|apply keeps_ret].
Qed.

Lemma keeps_task c c' t : keeps (Σ:=Σ) c (run_task c' t).
Proof.
  destruct t; simpl; [apply keeps_doReadLine| |apply keeps_stop].
  apply keeps_this. intros ss _. apply keeps_bind; [apply keeps_session; auto|]. intros _.
  case_bool_decide; [apply keeps_doWrite|apply keeps_ret].
Qed.

(** No step takes a ghost out of its room. *)
Lemma step_keeps_ghost op k s x s' c room :
  server_inv k s → server_step op s = Some (x, s') → ghost c room s → ghost c room s'.
Proof.
  intros I E G. destruct op as [|c' now line|c' ok|c'|c']; simpl in E.
  - unfold acceptSession, registry_add, mbind, M_bind, get, modify in E. simpl in E. injection E as _ <-.
    destruct G as (ss & Hs & G). exists ss. simpl. rewrite lookup_insert_ne; [done|].
    assert (c < nextClientId_ s) by (apply (si_fresh _ _ I); eauto). lia.
  - unfold when_due, mbind, M_bind, get in E. destruct (sessions s !! c') as [ss|] eqn:Hs; [|by injection E as _ <-].
    destruct (reading ss) eqn:Hr; [|by injection E as _ <-].
    destruct (decide (c' = c)) as [->|Hne]; [|by eapply keeps_onReadLine].
    destruct G as (ss' & Hs' & _ & Hr' & _). congruence.
  - unfold when_due, mbind, M_bind, get in E. destruct (sessions s !! c') as [ss|] eqn:Hs; [|by injection E as _ <-].
    destruct (writing ss); [by eapply keeps_onWrite|by injection E as _ <-].
  - unfold when_due, mbind at 1, M_bind at 1, get at 1 in E.
    destruct (sessions s !! c') as [ss|] eqn:Hs; [|by injection E as _ <-].
    destruct (negb _); [|by injection E as _ <-]. destruct (posted ss) as [|t ts]; [by injection E as _ <-|].
    eapply (keeps_bind c (on_session c' (set_posted ts)) (λ _, run_task c' t)); [| |exact E|exact G].
    + apply keeps_session. auto.
    + intros _. apply keeps_task.
  - unfold when_due, mbind, M_bind, get in E. destruct (sessions s !! c') as [ss|] eqn:Hs; [|by injection E as _ <-].
    eapply keeps_session; [|exact E|exact G]. auto.
Qed.

Lemma run_keeps_ghost ops k s x s' c room :
  server_inv k s → Z.of_nat (length ops) ≤ k → Forall op_text ops →
  server_run ops s = Some (x, s') → ghost c room s → ghost c room s'.
Proof.
  revert k s. induction ops as [|op ops IH]; intros k s I Hk Ht E G; [by injection E as _ <-|].
  apply Forall_cons_1 in Ht as [Hop Ht]. simpl in Hk, E.
  destruct (step_run op k s I ltac:(lia) Hop) as (s1 & E1 & I1).
  unfold mbind, M_bind in E. rewrite E1 in E.
  eapply (IH (k - 1) s1); [done|lia|done|done|].
  exact (step_keeps_ghost op k s tt s1 c room I E1 G).
Qed.
End Ghosts.
