(* ===== verification/SessionProps.v ===== *)
(** * Properties of the sessions

    Runs of the whole server, for any interleaving of the handlers and any
    behaviour of the network: they do not end the process, the rooms hold
    exactly the sessions that joined them, every session is sent its lines in
    order, a disconnect removes the client and tells the others.  The last two
    theorems show where the code does not keep this up. *)
From S2P Require Import Prelude CoreTypes Room RoomSpec RoomRefine RoomTrace RoomProps ServerCore.
From S2P Require Import CoreProps Membership Messages Mappers JsonProtocol JsonSpec JsonModel.
From S2P Require Import Session SessionInv.

Section Theorems.
Context `{HashOrder} {Σ : Type} `{SnapshotSink Σ} `{JsonText}.
Implicit Types s : @Server Σ.

(** The run [ops] ends in [s]: its lines have parse errors that are text, and
    the counters have room for it and [k] more steps. *)
Definition reached (k : nat) (sink : option Σ) (ops : list ServerOp) s : Prop :=
  1 + 2 * Z.of_nat (length ops + k) < 2 ^ 64 ∧ Forall op_text ops ∧
  server_run ops (new_server sink) = Some (tt, s).

Lemma reached_inv k sink ops s : reached k sink ops s → server_inv (Z.of_nat k) s.
Proof.
  intros (Hlt & Ht & E).
  destruct (run_inv ops (Z.of_nat (length ops + k)) (new_server sink)) as (s' & E' & I);
    [apply inv_start; lia|lia|done|].
  simplify_eq. by replace (Z.of_nat k) with (Z.of_nat (length ops + k) - Z.of_nat (length ops)) by lia.
Qed.

(** No interleaving of connections, requests, completions and errors ends
    the process: every handler returns, whatever the lines say, as long as the
    parse errors of the lines can be quoted in a message. *)
Theorem server_never_fails (sink : option Σ) (ops : list ServerOp) :
  1 + 2 * Z.of_nat (length ops) < 2 ^ 64 → Forall op_text ops →
  ∃ s, server_run ops (new_server sink) = Some (tt, s).
Proof.
  intros Hlt Ht. destruct (run_inv ops (Z.of_nat (length ops)) (new_server sink)) as (s & E & _);
    [apply inv_start; lia|lia|done|eauto].
Qed.

(** The members of a room are exactly the sessions whose [currentRoom_] it
    is, so a client is in at most one room; the registry holds exactly the
    sessions that are not stopped, and each of them can still be reached. *)
Theorem rooms_and_sessions_agree (sink : option Σ) (ops : list ServerOp) s :
  reached 0 sink ops s →
  (∀ room c, core_member (core_ s) room c ↔
     ∃ ss, sessions s !! c = Some ss ∧ currentRoom_ ss = Some room) ∧
  (∀ c, c ∈ registry_ s ↔ ∃ ss, sessions s !! c = Some ss ∧ stopped_ ss = false) ∧
  (∀ c, c ∈ registry_ s → ∃ ss, sessions s !! c = Some ss ∧ alive ss = true).
Proof.
  intros I%reached_inv. split; [apply I|]. split; [apply I|]. intros c. by apply (inv_alive _ _ c I).
Qed.

(** A session is sent its lines in the order they were delivered, each
    once and whole: those written, then the queue, then those still posted; and
    while it is not stopped a write is pending whenever the queue is not empty. *)
Theorem lines_written_in_order (sink : option Σ) (ops : list ServerOp) s c ss :
  reached 0 sink ops s → sessions s !! c = Some ss →
  delivered ss = written ss ++ writeQueue_ ss ++ queued_lines ss ∧
  (stopped_ ss = false → (writing ss = true ↔ writeQueue_ ss ≠ [])).
Proof.
  intros I%reached_inv Hs. destruct (si_session _ _ I _ _ Hs) as [A B C D].
  split; [done|]. intros Hst. split; auto.
Qed.

(** C10. When the connection of a client breaks, it is taken out of its room
    and of the registry, and every other session gets, after what it already
    had, the lines of the events of [Room::leave] that are addressed to it, and
    nothing else changes for it. *)
Theorem disconnect_leaves_room (sink : option Σ) (ops : list ServerOp) s c ss now :
  reached 1 sink ops s → sessions s !! c = Some ss → reading ss = true → stopped_ ss = false →
  ∃ s', server_step (ReadDone c now None) s = Some (tt, s') ∧
    (∀ room, ¬ core_member (core_ s') room c) ∧ (c ∉ registry_ s') ∧
    match currentRoom_ ss with
    | None => core_ s' = core_ s ∧ ∀ c', c' ≠ c → sessions s' !! c' = sessions s !! c'
    | Some room => ∃ r evs r', core_room (core_ s) room = Some r ∧
        leave c r = Some (Value evs, r') ∧ core_room (core_ s') room = Some r' ∧
        ∀ c', c' ≠ c → sessions s' !! c' = post_lines (told s evs c') <$> sessions s !! c'
    end.
Proof.
  intros I%reached_inv Hs Hr Hst.
  destruct (stop_run 1 s c ss I ltac:(lia) Hs Hst) as (s1 & E & I1 & _ & Hs1 & Hreg & Hrest).
  exists (upd c (set_reading false) s1). split_and!.
  - simpl. unfold when_due. unfold mbind at 1, M_bind at 1, get at 1. rewrite Hs, Hr. by eapply bind_run.
  - intros room Hm. simpl in Hm. by apply (member_here _ _ _ _ _ I1 Hs1) in Hm.
  - simpl. rewrite Hreg. set_solver.
  - destruct (currentRoom_ ss) as [room|]; simpl.
    + destruct Hrest as (evs & El & Hsess).
      destruct (leaveRoom_room 1 (core_ s) c room evs (core_ s1)) as (r & r' & Hr1 & Hl & Hr2);
        [apply I|apply I|lia|done|].
      exists r, evs, r'. split_and!; [done..|]. intros c' Hne. by rewrite lookup_alter_ne, Hsess.
    + destruct Hrest as [Hco Hsess]. split; [done|]. intros c' Hne. by rewrite lookup_alter_ne, Hsess.
Qed.

(** The room a request names, and the error it gets from a session that is not
    in that room (for a join: that is in another). *)
Definition refusal (m : ClientMessage) : option (RoomId * Error) :=
  match m with
  | PingRequest | CreateRoomRequest => None
  | JoinRoomRequest room =>
      Some (room, invalidParams "session already joined to another room")
  | LeaveRoomRequest room | StrokeBeginRequest room _ _ _ | StrokePointRequest room _
  | StrokeEndRequest room | CursorMoveRequest room _ | ClearRequest room => Some (room, notInRoom)
  end.

Definition is_join (m : ClientMessage) : bool :=
  match m with JoinRoomRequest _ => true | _ => false end.

(** A request that names a room the session is not in is refused with the
    right error, sent to that session alone, and changes nothing else: neither
    the rooms, nor the snapshots, nor another session. *)
Theorem wrong_room_refused s now c ss m room e :
  sessions s !! c = Some ss → refusal m = Some (room, e) → currentRoom_ ss ≠ Some room →
  (is_join m = true → currentRoom_ ss ≠ None) →
  ∃ line s', wire (toErrorMessage e) = Some line ∧ handleMessage now c m s = Some (tt, s') ∧
    mail (to_client c [line]) s s'.
Proof.
  intros Hs Href Hne Hjoin.
  assert (text (error_message e)) as He.
  { apply text_ascii. by destruct m; simplify_eq/=. }
  destruct (deliver_text c (toErrorMessage e) s) as (line & s' & Hw & E & Hm);
    [by apply toErrorMessage_text|].
  exists line, s'. split_and!; [done| |done]. unfold handleMessage.
  eapply bind_run; [by apply this_run|].
  destruct m; simplify_eq/=; rewrite bool_decide_eq_true_2; auto.
Qed.

(** C34. A line whose parse error cannot be written as JSON ends the process:
    the exception of [dump] leaves the read handler. *)
Theorem unquotable_error_ends_process s now c ss line what :
  sessions s !! c = Some ss → reading ss = true → json_parse line = inr what →
  json_dump (serverMessageJson (ErrorResponse "invalid_params" what)) = None →
  server_step (ReadDone c now (Some line)) s = None.
Proof.
  intros Hs Hr Hp Hd. simpl. unfold when_due. unfold mbind at 1, M_bind at 1, get at 1.
  rewrite Hs, Hr. unfold onReadLine, handleLine, parseClientMessage. rewrite Hp.
  unfold sendProtocolError, sendError, deliver, serializeServerMessage.
  change (toErrorMessage (protocolToCoreError (perr_invalidJson what))) with
    (ErrorResponse "invalid_params" what). by rewrite Hd.
Qed.

(** C35. A stopped session still handles a read that had completed before: if
    the line is a join of an existing room, the client becomes a member that is
    not registered, receives nothing, and never leaves, whatever happens later. *)
Theorem late_read_makes_ghost (sink : option Σ) ops s c ss now line room ops' s' :
  reached (S (length ops')) sink ops s → sessions s !! c = Some ss →
  stopped_ ss = true → reading ss = true → currentRoom_ ss = None →
  is_Some (core_room (core_ s) room) →
  line_text line → parseClientMessage line = Value (JoinRoomRequest room) →
  Forall op_text ops' →
  server_run (ReadDone c now (Some line) :: ops') s = Some (tt, s') →
  core_member (core_ s') room c ∧ c ∉ registry_ s'.
Proof.
  intros I%reached_inv Hs Hst Hr Hroom Hex Hlt Hp Ht E.
  destruct (joinRoom_exists _ (core_ s) c room (si_core _ _ I) (si_room _ _ I) ltac:(lia) Hex)
    as (snap & co & Ej).
  set (s2 := upd c (set_room_of (Some room)) (with_core co s)).
  assert (sessions s2 !! c = Some (set_room_of (Some room) ss)) as Hs2 by by apply upd_self.
  destruct (deliver_text c (toSnapshotMessage snap) s2) as (l & s3 & _ & Ed & Hm); [done|].
  assert (sessions s3 !! c = Some (post_lines [l] (set_room_of (Some room) ss))) as Hs3.
  { rewrite (ml_sessions _ _ _ Hm), Hs2. simpl. unfold to_client. by rewrite bool_decide_eq_true_2. }
  assert (server_step (ReadDone c now (Some line)) s = Some (tt, upd c (set_reading false) s3)) as E1.
  { simpl. unfold when_due. unfold mbind at 1, M_bind at 1, get at 1. rewrite Hs, Hr.
    unfold onReadLine. eapply bind_run.
    - unfold handleLine. rewrite Hp. unfold handleMessage. eapply bind_run; [by apply this_run|].
      rewrite bool_decide_eq_false_2 by (intros [Hn _]; by rewrite Hroom in Hn).
      eapply bind_run; [by apply on_core_run|]. eapply bind_run; [reflexivity|exact Ed].
    - eapply bind_run; [reflexivity|]. unfold doReadLine.
      eapply bind_run; [apply this_run; by apply upd_self|]. simpl. by rewrite Hst. }
  destruct (step_run (ReadDone c now (Some line)) (Z.of_nat (S (length ops'))) s I ltac:(lia) Hlt)
    as (s1 & E1' & I1). simplify_eq.
  assert (ghost c room (upd c (set_reading false) s3)) as G.
  { eexists. split; [by apply upd_self|]. done. }
  rewrite (server_run_cons _ _ _ _ E1) in E.
  destruct (run_inv ops' _ _ I1 ltac:(lia) Ht) as (s4 & E'' & I'').
  assert (s4 = s') as -> by congruence.
  destruct (run_keeps_ghost ops' _ _ tt s' c room I1 ltac:(lia) Ht E G) as (ss' & Hs' & Hst' & _ & Hr').
  split; [by apply (member_here _ _ _ _ _ I'' Hs')|].
  rewrite (si_registry _ _ I''), Hs', ex_Some. congruence.
Qed.
End Theorems.

(** ** Witnesses *)

#[local] Existing Instance elements_order.

Abbreviation demo_server := (@Server (list PersistedBoardSnapshot)).

Definition connect (c : ClientId) : list ServerOp := [Accept; RunPosted c].
Definition say (c : ClientId) (m : ClientMessage) : ServerOp :=
  ReadDone c 0 (Some (default EmptyString (json_dump (requestJson m)))).

(** Two clients in room 1; the first draws, and its first line is written. *)
Definition demo_run : list ServerOp :=
  connect 1 ++ connect 2 ++
  [say 1 CreateRoomRequest; say 1 (JoinRoomRequest 1); say 2 (JoinRoomRequest 1);
   say 1 (StrokeBeginRequest 1 2 1 (mkPointDto 0 0)); RunPosted 1; RunPosted 1; WriteDone 1 true].

Definition server_after (ops : list ServerOp) : demo_server :=
  match server_run ops (new_server (Some [])) with Some (_, s) => s | None => new_server None end.

Definition session_after (ops : list ServerOp) (c : ClientId) : Session :=
  default new_session (sessions (server_after ops) !! c).

(** Checks that the lines of a concrete run parse. *)
Ltac by_text :=
  repeat first
    [ apply Forall_nil | apply Forall_cons; split | exact I
    | let E := fresh in intros ? E; vm_compute in E; discriminate ].

Lemma demo_run_text : Forall op_text demo_run.
Proof. unfold demo_run, connect, say. cbn [app]. by_text. Defined.

Lemma demo_reached k : (k ≤ 100)%nat → reached k (Some []) demo_run (server_after demo_run).
Proof.
  intros Hk. split; [|split; [exact demo_run_text|vm_compute; reflexivity]].
  replace (length demo_run) with 11%nat by reflexivity. lia.
Defined.

Lemma server_never_fails_witness :
  Forall op_text demo_run ∧ ∃ s : demo_server, server_run demo_run (new_server (Some [])) = Some (tt, s).
Proof. split; [exact demo_run_text|]. by apply server_never_fails; [|exact demo_run_text]. Defined.

Lemma rooms_and_sessions_agree_witness :
  core_member (core_ (server_after demo_run)) 1 2 ∧ 2 ∈ registry_ (server_after demo_run).
Proof.
  destruct (rooms_and_sessions_agree (Some []) demo_run (server_after demo_run)) as (Hm & Hreg & _);
    [apply (demo_reached 0); lia|].
  split; [apply Hm|apply Hreg]; (exists (session_after demo_run 2); split; vm_compute; reflexivity).
Defined.

Lemma lines_written_in_order_witness :
  length (delivered (session_after demo_run 1)) = 2%nat ∧
  length (written (session_after demo_run 1)) = 1%nat ∧
  delivered (session_after demo_run 1) =
    written (session_after demo_run 1) ++ writeQueue_ (session_after demo_run 1) ++
    queued_lines (session_after demo_run 1).
Proof.
  split; [vm_compute; reflexivity|]. split; [vm_compute; reflexivity|].
  apply (lines_written_in_order (Some []) demo_run (server_after demo_run) 1 (session_after demo_run 1));
    [apply (demo_reached 0); lia|vm_compute; reflexivity].
Defined.

(** The drawing client disconnects: the other gets two more lines. *)
Lemma disconnect_leaves_room_witness :
  ∃ s' : demo_server, server_step (ReadDone 1 0 None) (server_after demo_run) = Some (tt, s') ∧
    ¬ core_member (core_ s') 1 1.
Proof.
  destruct (disconnect_leaves_room (Some []) demo_run (server_after demo_run) 1 (session_after demo_run 1) 0)
    as (s' & E & Hm & _); [apply (demo_reached 1); lia|vm_compute; reflexivity..|].
  exists s'. split; [exact E|apply Hm].
Defined.

Lemma wrong_room_refused_witness :
  ∃ line (s' : demo_server),
    handleMessage 0 2 (ClearRequest 5) (server_after demo_run) = Some (tt, s') ∧
    mail (to_client 2 [line]) (server_after demo_run) s'.
Proof.
  destruct (wrong_room_refused (server_after demo_run) 0 2 (session_after demo_run 2) (ClearRequest 5) 5 notInRoom)
    as (line & s' & _ & E & Hm); [vm_compute; reflexivity|reflexivity|by_decision|discriminate|].
  exists line, s'. split; [exact E|exact Hm].
Defined.

(** A byte above 127 ends the process. *)
Lemma unquotable_error_ends_process_witness :
  server_step (ReadDone 1 0 (Some (String (Ascii.ascii_of_nat 255) EmptyString)))
    (server_after (connect 1)) = None.
Proof.
  apply (unquotable_error_ends_process (server_after (connect 1)) 0 1 (session_after (connect 1) 1) _
    ("syntax error; last read: " +:+ String (Ascii.ascii_of_nat 255) EmptyString));
    vm_compute; reflexivity.
Defined.

(** A write fails while a join is already on its way: the client stays in the
    room after its session is gone. *)
Definition demo_late : list ServerOp :=
  connect 1 ++ [say 1 CreateRoomRequest; RunPosted 1; WriteDone 1 false].

Lemma late_read_makes_ghost_witness :
  core_member (core_ (server_after (demo_late ++ say 1 (JoinRoomRequest 1) :: connect 2))) 1 1 ∧
  1 ∉ registry_ (server_after (demo_late ++ say 1 (JoinRoomRequest 1) :: connect 2)).
Proof.
  apply (late_read_makes_ghost (Some []) demo_late (server_after demo_late) 1 (session_after demo_late 1)
    0 (default EmptyString (json_dump (requestJson (JoinRoomRequest 1)))) 1 (connect 2)).
  - split; [vm_compute; reflexivity|]. split; [|vm_compute; reflexivity].
    unfold demo_late, connect, say. cbn [app]. by_text.
  - vm_compute; reflexivity.
  - vm_compute; reflexivity.
  - vm_compute; reflexivity.
  - vm_compute; reflexivity.
  - eexists. vm_compute. reflexivity.
  - intros what E. vm_compute in E. discriminate.
  - vm_compute; reflexivity.
  - unfold connect. by_text.
  - vm_compute; reflexivity.
Defined.
