(* ===== verification/Serve.v ===== *)
(** * What a handler does for the others

    A handler of [Session.v] that runs to its end: the calls it makes on the
    core, with the replies; the events it was handed, which it passes on in their
    order; the lines that arrive at the other sessions.  [serve] is the logic of
    these effects, and [step_serves] the effect of one step of the server. *)
From S2P Require Import Prelude CoreTypes Room RoomSpec RoomRefine RoomTrace RoomProps ServerCore.
From S2P Require Import CoreProps Membership CoreStream Messages Mappers JsonProtocol JsonSpec.
From S2P Require Import Session Within SessionInv.

Section Serve.
Context `{HashOrder} {Σ : Type} `{SnapshotSink Σ} `{JsonLib}.
Implicit Types s : @Server Σ.

(** What is known of the calls. *)
Context (T : CoreOp → Prop).

(** The registered sessions other than [c] are sent the lines of [sent], and
    nothing else happens to them. *)
Definition others (c : ClientId) (sent : list OutgoingEvent) s s' : Prop :=
  ∀ d ss, d ≠ c → d ∈ registry_ s → sessions s !! d = Some ss → alive ss = true →
    d ∈ registry_ s' ∧ sessions s' !! d = Some (post_lines (event_lines d sent) ss).

Lemma others_refl c s : others c [] s s.
Proof. intros d ss _ Hd Hs _. rewrite Hs. unfold event_lines. simpl. by rewrite post_lines_nil. Qed.

Lemma event_lines_app d evs evs' : event_lines d (evs ++ evs') = event_lines d evs ++ event_lines d evs'.
Proof. unfold event_lines. by rewrite filter_app, omap_app. Qed.

Lemma others_trans c l l' s1 s2 s3 : others c l s1 s2 → others c l' s2 s3 → others c (l ++ l') s1 s3.
Proof.
  intros M1 M2 d ss Hd Hr Hs Ha. destruct (M1 d ss Hd Hr Hs Ha) as [Hr2 Hs2].
  destruct (M2 d _ Hd Hr2 Hs2 (alive_post _ _ Ha)) as [Hr3 Hs3]. split; [done|].
  by rewrite event_lines_app, <-post_lines_app.
Qed.

(** [m], run by the session [c] while it has the events [evs] to pass on, makes
    at most [n] calls, passes events on in order, and ends with those [Q] allows. *)
Definition serve (c : ClientId) {A} (n : nat) (evs : list OutgoingEvent) (m : M (@Server Σ) A)
    (Q : A → list OutgoingEvent → Prop) : Prop :=
  ∀ s x s', m s = Some (x, s') → ∃ (cs : list (CoreOp * CoreReply)) sent evs',
    (length cs ≤ n)%nat ∧ Forall T cs.*1 ∧ core_calls cs.*1 (core_ s) = Some (cs.*2, core_ s') ∧
    evs ++ (cs.*2 ≫= reply_events) = sent ++ evs' ∧ others c sent s s' ∧ Q x evs'.

Abbreviation nothing := (λ _ evs, evs = []).

Lemma serve_ret c {A} (x : A) evs (Q : A → list OutgoingEvent → Prop) :
  Q x evs → serve c 0 evs (mret x) Q.
Proof.
  intros HQ s y s' [= <- <-]. exists [], [], evs.
  split_and!; [done|constructor|done|by rewrite app_nil_r|apply others_refl|done].
Qed.

Lemma serve_weaken c {A} n n' evs (m : M (@Server Σ) A) (Q Q' : A → list OutgoingEvent → Prop) :
  (n ≤ n')%nat → (∀ x l, Q x l → Q' x l) → serve c n evs m Q → serve c n' evs m Q'.
Proof.
  intros Hn HQ Hm s x s' E. destruct (Hm s x s' E) as (cs & sent & evs' & Hlen & Hrest).
  exists cs, sent, evs'. split; [lia|]. naive_solver.
Qed.

Lemma serve_bind c {A B} n n' evs (m : M (@Server Σ) A) (f : A → M (@Server Σ) B)
    (R : A → list OutgoingEvent → Prop) (Q : B → list OutgoingEvent → Prop) :
  serve c n evs m R → (∀ x evs', R x evs' → serve c n' evs' (f x) Q) →
  serve c (n + n') evs (m ≫= f) Q.
Proof.
  intros Hm Hf s y s' E. unfold mbind, M_bind in E. destruct (m s) as [[x s1]|] eqn:E1; [|done].
  destruct (Hm s x s1 E1) as (cs & sent & evs1 & Hlen & HT & Hc & He & Ho & HR).
  destruct (Hf x evs1 HR s1 y s' E) as (cs' & sent' & evs2 & Hlen' & HT' & Hc' & He' & Ho' & HQ).
  exists (cs ++ cs'), (sent ++ sent'), evs2. split_and!; try done.
  - rewrite length_app. lia.
  - rewrite fmap_app. by apply Forall_app.
  - rewrite !fmap_app, core_calls_app. unfold mbind, M_bind. by rewrite Hc, Hc'.
  - rewrite fmap_app, bind_app, app_assoc, He, <-!app_assoc. by f_equal.
  - by eapply others_trans.
Qed.

(** Computations that concern only the session [c]. *)
Definition own (c : ClientId) {A} (m : M (@Server Σ) A) : Prop :=
  ∀ s x s', m s = Some (x, s') → core_ s' = core_ s ∧
    ∀ d, d ≠ c → sessions s' !! d = sessions s !! d ∧ (d ∈ registry_ s → d ∈ registry_ s').

Lemma serve_own c {A} evs (m : M (@Server Σ) A) : own c m → serve c 0 evs m (λ _ l, l = evs).
Proof.
  intros Hm s x s' E. destruct (Hm s x s' E) as [Hc Ho]. exists [], [], evs.
  split_and!; [done|constructor|by rewrite Hc|by rewrite app_nil_r| |done].
  intros d ss Hd Hr Hs _. destruct (Ho d Hd) as [Hs' Hr']. split; [by apply Hr'|].
    unfold event_lines. simpl. by rewrite post_lines_nil, Hs'.
Qed.

Lemma own_ret c {A} (x : A) : own c (mret x).
Proof. by intros s y s' [= _ <-]. Qed.

Lemma own_bind c {A B} (m : M (@Server Σ) A) (f : A → M (@Server Σ) B) :
  own c m → (∀ x, own c (f x)) → own c (m ≫= f).
Proof.
  intros Hm Hf s y s' E. unfold mbind, M_bind in E. destruct (m s) as [[x s1]|] eqn:E1; [|done].
  destruct (Hm s x s1 E1) as [Hc1 Ho1], (Hf x s1 y s' E) as [Hc2 Ho2]. split; [congruence|].
  intros d Hd. destruct (Ho1 d Hd) as [A1 B1], (Ho2 d Hd) as [A2 B2]. split; [congruence|auto].
Qed.

Lemma own_undefined c {A} : own (A:=A) c undefined.
Proof. by intros s. Qed.

Lemma own_this c c' : own c (this (Σ:=Σ) c').
Proof.
  unfold this. intros s x s'. unfold mbind, M_bind, get. destruct (sessions s !! c'); [|done].
  by intros [= _ <-].
Qed.

Lemma own_session c f : own c (on_session (Σ:=Σ) c f).
Proof.
  intros s x s' [= _ <-]. split; [done|]. intros d Hd. simpl. by rewrite lookup_alter_ne.
Qed.

Lemma own_remove c : own c (registry_remove (Σ:=Σ) c).
Proof. intros s x s' [= _ <-]. split; [done|]. intros d Hd. simpl. split; [done|set_solver]. Qed.

Lemma own_deliver c m : own c (deliver (Σ:=Σ) c m).
Proof. unfold deliver. destruct (serializeServerMessage m); [apply own_session|apply own_undefined]. Qed.

Lemma own_read c : own c (doReadLine (Σ:=Σ) c).
Proof.
  apply own_bind; [apply own_this|]. intros ss. case_match; [apply own_ret|apply own_session].
Qed.

Lemma own_write c : own c (doWrite (Σ:=Σ) c).
Proof.
  apply own_bind; [apply own_this|]. intros ss. case_match; [apply own_ret|apply own_session].
Qed.

(** ** Calls and events *)

Lemma serve_call c {A} evs (m : M (@ServerCore Σ) A) op (g : A → CoreReply) :
  T op → (∀ co, core_call op co = (x ← m; mret (g x)) co) →
  serve c 1 evs (on_core m) (λ x l, l = evs ++ reply_events (g x)).
Proof.
  intros HT Hop s x s' E. unfold on_core in E. destruct (m (core_ s)) as [[y co]|] eqn:Em; [|done].
  injection E as <- <-. exists [(op, g y)], [], (evs ++ reply_events (g y)). split_and!; try done.
  - simpl. by apply Forall_singleton.
  - apply core_calls_one. rewrite Hop. unfold mbind, M_bind. by rewrite Em.
  - simpl. by rewrite app_nil_r.
  - intros d ss _ Hr Hs _. split; [done|]. unfold event_lines. simpl. by rewrite post_lines_nil.
Qed.

Lemma find_found d s x s' :
  registry_find d s = Some (x, s') →
  (s' = s ∧ x = Some d) ∨
  (x = None ∧ core_ s' = core_ s ∧ sessions s' = sessions s ∧ registry_ s' = registry_ s ∖ {[d]} ∧
    (d ∈ registry_ s → ∃ ss, sessions s !! d = Some ss ∧ alive ss = false)).
Proof.
  unfold registry_find, this, mbind, M_bind, get. case_bool_decide as Hd.
  - intros [= <- <-]. right. split_and!; [done..|set_solver|done].
  - destruct (sessions s !! d) as [ss|] eqn:Hs; [|done]. unfold mret, M_ret.
    destruct (alive ss) eqn:Ha; [intros [= <- <-]; by left|]. intros [= <- <-]. right. split_and!; eauto.
Qed.

Lemma serve_deliver_event c e evs :
  serve c 0 (e :: evs) (registry_deliver (Σ:=Σ) (ev_to e) (toServerMessage e)) (λ _ l, l = evs).
Proof.
  intros s x s' E. unfold registry_deliver, mbind, M_bind in E.
  destruct (registry_find (ev_to e) s) as [[r s1]|] eqn:Ef; [|done].
  exists [], [e], evs. split; [done|]. split; [constructor|].
  assert (core_ s' = core_ s ∧ others c [e] s s') as [-> Ho]; [|by split_and!; rewrite ?app_nil_r].
  destruct (find_found _ _ _ _ Ef) as [[-> ->]|(-> & Hc & Hs & Hr & Ha)].
  - unfold deliver in E. destruct (serializeServerMessage (toServerMessage e)) as [j|] eqn:Ej; [|done].
    injection E as _ <-. split; [done|]. intros d ss Hd Hr Hs _. split; [done|]. simpl.
    rewrite lookup_alter, Hs. unfold event_lines. rewrite filter_cons. case_decide as Hde.
    + simpl. unfold wire. by rewrite Hde, Hs, Ej.
    + simpl. by rewrite post_lines_nil.
  - injection E as _ <-. split; [done|]. intros d ss Hd Hr' Hss Hal.
    assert (ev_to e ≠ d) as Hne.
    { intros <-. destruct (Ha Hr') as (ss' & Hs' & Hal'). congruence. }
    split; [rewrite Hr; set_solver|]. rewrite Hs, Hss. unfold event_lines.
    rewrite filter_cons, decide_False by done. simpl. by rewrite post_lines_nil.
Qed.

Lemma serve_dispatch c evs : serve c 0 evs (dispatchOutgoing (Σ:=Σ) evs) nothing.
Proof.
  induction evs as [|e evs IH]; [by apply serve_ret|]. cbn [dispatchOutgoing].
  eapply (serve_bind c 0 0); [apply serve_deliver_event|]. by intros _ ? ->.
Qed.

(** ** Handlers *)

Hypothesis T_create : T CoreCreate.

(** The session [c] may join and leave. *)
Definition may_move (c : ClientId) : Prop :=
  ∀ room, T (CoreRoom room (OpJoin c)) ∧ T (CoreRoom room (OpLeave c)).

(** The call [handleMessage] makes for an event. *)
Definition may_send (c : ClientId) (m : ClientMessage) : Prop :=
  ∀ now room ev, event_request m = Some (room, Value ev) → T (CoreRoom room (OpApply now c ev)).

(** An own computation, at the end of a handler or before its rest. *)
Lemma serve_local c {A} evs (m : M (@Server Σ) A) n : own c m → serve c n evs m (λ _ l, l = evs).
Proof.
  intros Hm. apply (serve_weaken c 0 n _ _ (λ _ l, l = evs)); [lia|done|by apply serve_own].
Qed.

Lemma serve_own_bind c {A B} n evs (m : M (@Server Σ) A) (f : A → M (@Server Σ) B) Q :
  own c m → (∀ x, serve c n evs (f x) Q) → serve c n evs (m ≫= f) Q.
Proof.
  intros Hm Hf. apply (serve_bind c 0 n _ _ _ (λ _ l, l = evs)); [by apply serve_own|]. by intros x ? ->.
Qed.

Lemma serve_leave c room :
  may_move c → serve c 1 [] (on_core (leaveRoom c room)) (λ (res : Expected _ Error) l,
    l = match res with Value evs => evs | Unexpected _ => [] end).
Proof.
  intros Hc. eapply serve_weaken; [done| |apply (serve_call c [] (leaveRoom c room)
    (CoreRoom room (OpLeave c)) (λ e, ReplyRoom (ReplyEvents e)))]; [|by apply Hc|done].
  by intros [evs|e] l ->.
Qed.

Lemma serve_stop c : may_move c → serve c 1 [] (stopImpl (Σ:=Σ) c) nothing.
Proof.
  intros Hc. unfold stopImpl. apply serve_own_bind; [apply own_this|]. intros ss.
  apply serve_own_bind; [apply own_session|]. intros _. case_match; [by apply (serve_local c [] (mret tt)), own_ret|].
  apply (serve_bind c 1 0 _ _ _ nothing); [|intros _ ? ->; apply serve_local, own_remove].
  destruct (currentRoom_ ss) as [room|]; [|by apply (serve_local c [] (mret tt)), own_ret].
  eapply (serve_bind c 1 0); [by apply serve_leave|]. intros [evs|e] ? ->.
  - apply (serve_bind c 0 0 _ _ _ nothing); [apply serve_dispatch|].
    intros _ ? ->. apply serve_local, own_session.
  - apply serve_own_bind; [apply own_ret|]. intros _. apply serve_local, own_session.
Qed.

Lemma serve_event now c room ev (ss : Session) :
  (∀ now' e, ev = Value e → T (CoreRoom room (OpApply now' c e))) →
  serve c 1 [] (if bool_decide (currentRoom_ ss ≠ Some room) then sendError c notInRoom else
    match ev with
    | Unexpected e => sendError c e
    | Value ev =>
        result ← on_core (handleEvent now c room ev);
        match result with
        | Unexpected e => sendError (Σ:=Σ) c e
        | Value events => dispatchOutgoing events
        end
    end) nothing.
Proof.
  intros HT. case_bool_decide; [apply serve_local, own_deliver|].
  destruct ev as [ev|e]; [|apply serve_local, own_deliver].
  eapply (serve_bind c 1 0); [apply (serve_call c [] _ (CoreRoom room (OpApply now c ev))
    (λ e, ReplyRoom (ReplyEvents e))); [by apply HT|done]|].
  intros [evs|e] ? ->; [apply serve_dispatch|apply serve_local, own_deliver].
Qed.

Lemma serve_message now c m : may_move c → may_send c m → serve c 1 [] (handleMessage (Σ:=Σ) now c m) nothing.
Proof.
  intros Hc Hm. unfold handleMessage. apply serve_own_bind; [apply own_this|]. intros ss.
  destruct m as [| |room|room|room col th p|room p|room|room p|room]; cbn [event_request];
    try (apply serve_event; intros now' e He; apply Hm; cbn; by rewrite He).
  - apply serve_local, own_deliver.
  - eapply (serve_bind c 1 0); [apply (serve_call c [] createRoom CoreCreate ReplyCreated); done|].
    intros room ? ->. apply serve_local, own_deliver.
  - case_bool_decide; [apply serve_local, own_deliver|].
    eapply (serve_bind c 1 0); [apply (serve_call c [] _ (CoreRoom room (OpJoin c))
      (λ e, ReplyRoom (ReplySnapshot e))); [by apply Hc|done]|].
    intros [snap|e] ? ->; [|apply serve_local, own_deliver].
    apply serve_own_bind; [apply own_session|]. intros _. apply serve_local, own_deliver.
  - case_bool_decide; [apply serve_local, own_deliver|].
    eapply (serve_bind c 1 0); [by apply serve_leave|]. intros [evs|e] ? ->; [|apply serve_local, own_deliver].
    apply serve_own_bind; [apply own_session|]. intros _.
    apply (serve_bind c 0 0 _ _ _ nothing); [apply serve_dispatch|].
    intros _ ? ->. apply serve_local, own_deliver.
Qed.

Lemma serve_line now c line :
  may_move c → (∀ m, parseClientMessage line = Value m → may_send c m) →
  serve c 1 [] (handleLine (Σ:=Σ) now c line) nothing.
Proof.
  intros Hc Hm. unfold handleLine. destruct (parseClientMessage line) as [m|e] eqn:E.
  - by apply serve_message, Hm.
  - apply serve_local, own_deliver.
Qed.

(** The session whose strand runs the handler; the one made by an accept. *)
Definition actor (op : ServerOp) s : ClientId :=
  match op with
  | Accept => nextClientId_ s
  | ReadDone c _ _ | WriteDone c _ | RunPosted c | Stop c => c
  end.

(** The calls a handler may make satisfy [T]. *)
Definition op_allowed (op : ServerOp) : Prop :=
  match op with
  | Accept => True
  | ReadDone c _ (Some line) => may_move c ∧ ∀ m, parseClientMessage line = Value m → may_send c m
  | ReadDone c _ None | WriteDone c _ | RunPosted c | Stop c => may_move c
  end.

Lemma serve_task c t : may_move c → serve c 1 [] (run_task (Σ:=Σ) c t) nothing.
Proof.
  intros Hc. destruct t as [|line|]; cbn [run_task]; [apply serve_local, own_read| |by apply serve_stop].
  apply serve_local, own_bind; [apply own_this|]. intros ss. apply own_bind; [apply own_session|].
  intros _. case_bool_decide; [apply own_write|apply own_ret].
Qed.

Lemma serve_onRead c now line :
  op_allowed (ReadDone c now line) → serve c 1 [] (onReadLine (Σ:=Σ) now c line) nothing.
Proof.
  intros Ho. unfold onReadLine. destruct line as [line|].
  - destruct Ho as [Hc Hm]. apply (serve_bind c 1 0 _ _ _ nothing); [by apply serve_line|].
    intros _ ? ->. apply serve_local, own_bind; [apply own_session|]. intros _. apply own_read.
  - apply (serve_bind c 1 0 _ _ _ nothing); [by apply serve_stop|]. intros _ ? ->. apply serve_local, own_session.
Qed.

Lemma serve_onWrite c ok : may_move c → serve c 1 [] (onWrite (Σ:=Σ) c ok) nothing.
Proof.
  intros Hc. unfold onWrite. destruct ok; simpl.
  - apply serve_local, own_bind; [apply own_this|]. intros ss.
    destruct (writeQueue_ ss) as [|line q]; [apply own_undefined|].
    apply own_bind; [apply own_session|]. intros _. apply own_bind; [apply own_session|]. intros _.
    case_bool_decide; [apply own_write|apply own_ret].
  - apply (serve_bind c 1 0 _ _ _ nothing); [by apply serve_stop|]. intros _ ? ->. apply serve_local, own_session.
Qed.

Lemma serve_due c d b (m : Session → M (@Server Σ) unit) :
  (∀ ss, serve c 1 [] (m ss) nothing) → serve c 1 [] (when_due d b m) nothing.
Proof.
  intros Hm. unfold when_due. apply serve_own_bind; [by intros s x s' [= _ <-]|]. intros s.
  destruct (sessions s !! d) as [ss|]; [|apply (serve_local c [] (mret tt)), own_ret].
  destruct (b ss); [apply Hm|apply (serve_local c [] (mret tt)), own_ret].
Qed.

(** One step of the server: at most one call, whose events go to the others. *)
Lemma step_serves op s x s' :
  op_allowed op → server_step op s = Some (x, s') → ∃ cs : list (CoreOp * CoreReply),
    (length cs ≤ 1)%nat ∧ Forall T cs.*1 ∧ core_calls cs.*1 (core_ s) = Some (cs.*2, core_ s') ∧
    others (actor op s) (cs.*2 ≫= reply_events) s s'.
Proof.
  intros Ho E. assert (serve (actor op s) 1 [] (server_step op) nothing ∨ op = Accept) as [Hs| ->].
  { destruct op as [|c now line|c ok|c|c]; [by right|left..]; cbn [server_step actor]; apply serve_due; intros ss.
    - by apply serve_onRead.
    - by apply serve_onWrite.
    - destruct (posted ss) as [|t ts]; [apply (serve_local c [] (mret tt)), own_ret|].
      apply serve_own_bind; [apply own_session|]. intros _. by apply serve_task.
    - apply serve_local, own_session. }
  - destruct (Hs s x s' E) as (cs & sent & evs' & Hlen & HT & Hc & He & Hoth & ->).
    rewrite app_nil_r in He. simpl in He. subst sent. by exists cs.
  - injection E as _ <-. exists []. split_and!; [simpl; lia|constructor|done|]. simpl.
    intros d ss Hd Hr Hs _. simpl. split; [set_solver|]. rewrite lookup_insert_ne by done.
    unfold event_lines. simpl. by rewrite post_lines_nil.
Qed.
End Serve.

(** ** The registry and the session itself *)

Section Registry.
Context `{HashOrder} {Σ : Type} `{SnapshotSink Σ} `{JsonLib}.

(** Registers no one. *)
Definition only_removes (s s' : @Server Σ) : Prop :=
  registry_ s' ⊆ registry_ s ∧ nextClientId_ s' = nextClientId_ s.

#[export] Instance removes_stable : Stable only_removes.
Proof.
  split.
  - split; [done|]. intros s1 s2 s3 [? ?] [? ?]. split; [set_solver|congruence].
  - intros c f _ s x s' E. by injection E as _ <-.
  - intros c m s x s'. unfold deliver. case_match; [|done]. intros E. by injection E as _ <-.
  - intros c s x s' E. injection E as _ <-. split; [simpl; set_solver|done].
  - intros A m s x s'. unfold on_core. destruct (m (core_ s)) as [[]|]; [|done]. intros E. by injection E as _ <-.
Qed.
End Registry.

Section Steps.
Context `{HashOrder} {Σ : Type} `{SnapshotSink Σ} `{JsonText}.
Implicit Types s : @Server Σ.

(** A client that is connected after a step was connected before. *)
Lemma step_registered op k s s' d :
  server_inv k s → 1 ≤ k → d < nextClientId_ s → server_step op s = Some (tt, s') →
  d < nextClientId_ s' ∧ (d ∈ registry_ s' → d ∈ registry_ s).
Proof.
  intros I Hk Hd E. assert (op = Accept ∨ op ≠ Accept) as [->|Hop] by (destruct op; auto).
  - destruct (si_next _ _ I) as [Hn1 Hn2]. injection E as <-. simpl. rewrite u64_succ by lia.
    split; [lia|]. intros [->%elem_of_singleton|]%elem_of_union; [lia|done].
  - destruct (within_step only_removes op Hop s tt s' E) as [Hr ->]. split; [done|]. apply Hr.
Qed.

Lemma stop_deregisters k s s' d ss :
  server_inv k s → 1 ≤ k → sessions s !! d = Some ss → stopped_ ss = false →
  stopImpl d s = Some (tt, s') → d ∉ registry_ s'.
Proof.
  intros I Hk Hs Hst E. destruct (stop_run k s d ss I Hk Hs Hst) as (s1 & E1 & _ & _ & _ & Hr & _).
  rewrite E in E1. injection E1 as <-. rewrite Hr. set_solver.
Qed.

(** The session [ss] of [d], that has been told nothing since. *)
Definition told_nothing (d : ClientId) (ss : Session) s s' : Prop :=
  core_ s' = core_ s ∧
  ∃ ss', sessions s' !! d = Some ss' ∧ delivered ss' = delivered ss ∧ currentRoom_ ss' = currentRoom_ ss.

(** The strand of a session that stays connected and reads no line. *)
Lemma own_step op k s s' d ss :
  server_inv k s → 1 ≤ k → actor op s = d → op ≠ Accept → (∀ now line, op ≠ ReadDone d now (Some line)) →
  server_step op s = Some (tt, s') → sessions s !! d = Some ss → d ∈ registry_ s → d ∈ registry_ s' →
  told_nothing d ss s s'.
Proof.
  intros I Hk Ha Hop Hline E Hs Hreg Hreg'. pose proof (si_session _ _ I _ _ Hs) as V.
  assert (stopped_ ss = false) as Hst.
  { apply (si_registry _ _ I) in Hreg as (ss' & Hs' & Hst). by simplify_eq. }
  assert (told_nothing d ss s s) as Hsame by (split; eauto).
  assert (∀ f, s' = upd d (λ _, f) s → delivered f = delivered ss → currentRoom_ f = currentRoom_ ss →
    told_nothing d ss s s') as Hupd.
  { intros f -> Hd Hr. split; [done|]. exists f. split; [|done]. by apply (upd_self d (λ _, f) s ss). }
  destruct op as [|c now line|c ok|c|c]; [done|..]; simpl in Ha; subst c;
    cbn [server_step] in E; unfold when_due in E; unfold mbind at 1, M_bind at 1, get at 1 in E; rewrite Hs in E.
  - destruct (reading ss); [|by injection E as <-]. destruct line as [line|]; [by destruct (Hline now line)|].
    unfold onReadLine, mbind, M_bind in E. destruct (stopImpl d s) as [[[] s1]|] eqn:E1; [|done].
    injection E as <-. by destruct (stop_deregisters k s s1 d ss I Hk Hs Hst E1).
  - destruct (writing ss) eqn:Hw; [|by injection E as <-]. destruct ok.
    + destruct (writeQueue_ ss) as [|line q] eqn:Hq; [by destruct (sv_writing _ V Hw)|].
      rewrite (write_effect d line q s ss Hs Hq) in E. injection E as <-. by eapply Hupd.
    + unfold onWrite in E. simpl in E. unfold mbind, M_bind in E.
      destruct (stopImpl d s) as [[[] s1]|] eqn:E1; [|done].
      injection E as <-. by destruct (stop_deregisters k s s1 d ss I Hk Hs Hst E1).
  - case_bool_decide as Hp; simpl in E; [by injection E as <-|].
    destruct (posted ss) as [|t ts] eqn:Hp'; [done|]. destruct (decide (t = TStop)) as [->|Ht].
    + pose proof (upd_self d (set_posted ts) s ss Hs) as Hs1.
      destruct (task_done_inv TStop ts ss V Hp') as (V' & _).
      assert (server_inv k (upd d (set_posted ts) s)) as I1 by by eapply inv_upd.
      by destruct (stop_deregisters k _ s' d _ I1 Hk Hs1 Hst E).
    + rewrite (task_effect d t ts s ss Hs Ht) in E. injection E as <-.
      eapply Hupd; [reflexivity|..]; destruct t; simpl; repeat case_match; done.
  - injection E as <-. eapply Hupd; [by apply (upd_const d (λ ss0, set_posted (posted ss ++ [TStop]) ss0))|done..].
Qed.
End Steps.
