(* ===== verification/ServerTyping.v ===== *)
(** * Types of the server's data

    What the requests are checked for before they reach the core, so that a
    step of the server keeps its boards typed: the mappers let only enumerators
    through, and a client is a number of 64 bits. *)
From S2P Require Import Prelude CoreTypes Room RoomSpec RoomRefine RoomTrace RoomProps ServerCore.
From S2P Require Import CoreProps CoreStream Typing Messages Mappers JsonProtocol JsonSpec.
From S2P Require Import Session SessionInv Serve.

(** ** Requests *)

(** The coordinates of a request satisfy [P]. *)
Definition message_points (P : Point → Prop) (m : ClientMessage) : Prop :=
  match m with
  | StrokeBeginRequest _ _ _ p | StrokePointRequest _ p | CursorMoveRequest _ p => P (toCorePoint p)
  | _ => True
  end.

(** The style of a request is not negative, being that of bytes. *)
Definition message_style (m : ClientMessage) : Prop :=
  match m with StrokeBeginRequest _ col th _ => 0 ≤ col ∧ 0 ≤ th | _ => True end.

Lemma toColor_enum n col : 0 ≤ n → toColor n = Value col → color_enum col = true.
Proof.
  unfold toColor. case_bool_decide as Hn; [done|]. intros Hle [= <-]. simpl in Hn.
  assert (n = 0 ∨ n = 1 ∨ n = 2 ∨ n = 3) as [->|[->|[->| ->]]] by lia; done.
Qed.

Lemma toThickness_enum n th : 0 ≤ n → toThickness n = Value th → thickness_enum th = true.
Proof.
  unfold toThickness. case_bool_decide as Hn; [done|]. intros Hle [= <-]. simpl in Hn.
  assert (n = 0 ∨ n = 1 ∨ n = 2) as [->|[->| ->]] by lia; done.
Qed.

Lemma event_request_typed P m room ev :
  message_points P m → message_style m → event_request m = Some (room, Value ev) → event_typed P ev.
Proof.
  intros Hp Hs E. destruct m as [| |r|r|r col th p|r p|r|r p|r]; try done; simpl in *.
  - destruct Hs as [Hc Ht]. injection E as <- E. unfold toCoreEvent_StrokeBegin in E.
    destruct (toColor col) as [c|] eqn:Ec; [|done]. destruct (toThickness th) as [t|] eqn:Et; [|done].
    injection E as <-. split_and!; [by eapply (toColor_enum col)|by eapply (toThickness_enum th)|done].
  - by injection E as _ <-.
  - by injection E as _ <-.
  - by injection E as _ <-.
  - by injection E as _ <-.
Qed.

Section Lines.
Context `{JsonLib}.

(** The line is a request whose coordinates satisfy [P], or no request. *)
Definition line_points (P : Point → Prop) (line : string) : Prop :=
  ∀ m, parseClientMessage line = Value m → message_points P m.

Definition op_points (P : Point → Prop) (op : ServerOp) : Prop :=
  match op with ReadDone _ _ (Some line) => line_points P line | _ => True end.

Lemma bind_expected_value {A B E} (e : Expected A E) (k : A → Expected B E) y :
  bind_expected e k = Value y → ∃ x, e = Value x ∧ k x = Value y.
Proof. destruct e; [eauto|done]. Qed.

Lemma parse_style line m : parseClientMessage line = Value m → message_style m.
Proof.
  unfold parseClientMessage. destruct (json_parse line) as [o|]; [|done].
  destruct (json_is_object o); [|done]. simpl. intros (type & _ & E)%bind_expected_value.
  repeat match goal with
  | H : (if ?b then _ else _) = Value _ |- _ => destruct b
  | H : bind_expected _ _ = Value _ |- _ =>
      let x := fresh "x" in apply bind_expected_value in H as (x & _ & H)
  end; try (injection E as <-); try done.
  split; apply Z.mod_pos_bound; lia.
Qed.

(** A point of a request is a pair of floats of 32 bits. *)
Lemma getRequired_value {T} (get : json → option T) o k x :
  getRequired get o k = Value x → ∃ v, get v = Some x.
Proof. unfold getRequired. destruct (json_at o k) as [v|]; [|done]. destruct (get v) eqn:E; [|done]. intros [= <-]. eauto. Qed.

Lemma getRequiredPoint_bits `{!JsonLaws} o k p :
  getRequiredPoint o k = Value p → is_u32 (dto_x p) ∧ is_u32 (dto_y p).
Proof.
  unfold getRequiredPoint. destruct (json_at o k) as [v|]; [|done]. destruct (json_is_object v); [|done]. simpl.
  intros (x & [vx Hx]%getRequired_value & E)%bind_expected_value.
  apply bind_expected_value in E as (y & [vy Hy]%getRequired_value & [= <-]).
  split; by eapply get_float_range.
Qed.

Lemma parse_bits `{!JsonLaws} line : line_points (λ p, is_u32 (px p) ∧ is_u32 (py p)) line.
Proof.
  intros m. unfold parseClientMessage. destruct (json_parse line) as [o|]; [|done].
  destruct (json_is_object o); [|done]. simpl. intros (type & _ & E)%bind_expected_value.
  repeat match goal with
  | H : (if ?b then _ else _) = Value _ |- _ => destruct b
  | H : bind_expected _ _ = Value _ |- _ =>
      let x := fresh "x" in let Hx := fresh "Hx" in apply bind_expected_value in H as (x & Hx & H)
  end; try (injection E as <-); try done; by eapply getRequiredPoint_bits.
Qed.
End Lines.

(** ** Steps *)

Section Server.
Context `{HashOrder} {Σ : Type} `{SnapshotSink Σ} `{JsonText} (P : Point → Prop).
Implicit Types s : @Server Σ.

(** A typed call by the client [c]. *)
Definition by_client (c : ClientId) (op : CoreOp) : Prop :=
  core_op_typed P op ∧ match op with CoreRoom _ op => op_client op = c | CoreCreate => True end.

Lemma allowed_typed op s :
  is_u64 (actor op s) → op_points P op → op_allowed (by_client (actor op s)) op.
Proof.
  intros Hc Hp. assert (may_move (by_client (actor op s)) (actor op s)) as Hm by by split; split.
  destruct op as [|c now [line|]|c ok|c|c]; try done. split; [done|].
  intros m E now' room ev Hev. split; [|done]. split; [done|].
  eapply event_request_typed; [by apply Hp|by eapply parse_style|exact Hev].
Qed.

Lemma actor_u64 k op s :
  server_inv k s → 0 ≤ k → is_Some (sessions s !! actor op s) ∨ op = Accept → is_u64 (actor op s).
Proof.
  intros I Hk Ha. destruct (si_next _ _ I) as [Hn1 Hn2]. unfold is_u64, in_width.
  destruct Ha as [Ha| ->]; [|simpl; lia]. pose proof (si_fresh _ _ I _ Ha). lia.
Qed.

(** A handler of a session that does not exist does nothing. *)
Lemma step_absent op s x s' :
  sessions s !! actor op s = None → op ≠ Accept → server_step op s = Some (x, s') → s' = s.
Proof.
  destruct op as [|c now line|c ok|c|c]; [done|..]; simpl; unfold when_due; intros Hs _;
    unfold mbind at 1, M_bind at 1, get at 1; rewrite Hs; by intros [= _ <-].
Qed.

(** A step makes at most one call, which is typed and by the client of the handler. *)
Lemma step_call op k s s' :
  server_inv k s → 0 ≤ k → op_points P op → server_step op s = Some (tt, s') →
  ∃ cs : list (CoreOp * CoreReply), (length cs ≤ 1)%nat ∧ Forall (by_client (actor op s)) cs.*1 ∧
    core_calls cs.*1 (core_ s) = Some (cs.*2, core_ s') ∧
    others (actor op s) (cs.*2 ≫= reply_events) s s'.
Proof.
  intros I Hk Hp E.
  assert ((is_Some (sessions s !! actor op s) ∨ op = Accept) ∨ (sessions s !! actor op s = None ∧ op ≠ Accept))
    as [Ha|[Ha Hop]].
  { destruct (sessions s !! actor op s) eqn:Hs; [left; left; eauto|].
    destruct op; [left; by right|right..]; done. }
  - apply (step_serves (by_client (actor op s))) in E; [done|done|].
    by eapply allowed_typed; [eapply actor_u64|].
  - apply step_absent in E as ->; [|done..]. exists []. split_and!; [simpl; lia|constructor|done|].
    apply others_refl.
Qed.

Lemma by_client_typed c ops : Forall (by_client c) ops → Forall (core_op_typed P) ops.
Proof. intros Hf. eapply Forall_impl; [exact Hf|]. by intros op []. Qed.

(** What every typed call keeps, a step keeps. *)
Lemma step_core (I : @ServerCore Σ → Prop) op k s s' :
  (∀ op k co y co', core_wf co → core_headroom k co → 1 ≤ k → core_op_typed P op →
     core_call op co = Some (y, co') → I co → I co') →
  server_inv k s → 1 ≤ k → op_points P op → server_step op s = Some (tt, s') → I (core_ s) → I (core_ s').
Proof.
  intros Hstep HI Hk Hp E HC. destruct (step_call op k s s' HI ltac:(lia) Hp E) as (cs & Hlen & Hcs & Hc & _).
  eapply (core_calls_inv I (core_op_typed P) (λ _, True) cs.*1 k (core_ s) cs.*2 (core_ s'));
    [|apply HI|apply HI|rewrite length_fmap; lia|by eapply by_client_typed|done|done].
  intros op1 k1 co y co'. split; [|done]. by eapply Hstep.
Qed.

(** The boards and the snapshots stay typed. *)
Lemma step_typed op k s s' :
  server_inv k s → 1 ≤ k → op_points P op → server_step op s = Some (tt, s') →
  core_typed P (core_ s) → core_typed P (core_ s') ∧ (log_typed P (core_ s) → log_typed P (core_ s')).
Proof.
  intros I Hk Hp E HT.
  apply (step_core (λ co, core_typed P co ∧ (log_typed P (core_ s) → log_typed P co)) op k s s'); try done.
  intros op1 k1 co y co' wf hr Hk1 Ho Ec [T L].
  destruct (core_call_typed P op1 k1 co y co' wf hr Hk1 Ho Ec T) as (? & _ & ?). auto.
Qed.

Lemma run_typed ops k s s' :
  server_inv k s → Z.of_nat (length ops) ≤ k → Forall op_text ops → Forall (op_points P) ops →
  server_run ops s = Some (tt, s') → core_typed P (core_ s) →
  core_typed P (core_ s') ∧ (log_typed P (core_ s) → log_typed P (core_ s')).
Proof.
  revert k s. induction ops as [|op ops IH]; intros k s I Hk Ht Hp E HT; [by injection E as <-|].
  apply Forall_cons in Ht as [Hop Ht], Hp as [Hpo Hp]. simpl length in Hk.
  destruct (step_run op k s I ltac:(lia) Hop) as (s1 & E1 & I1).
  rewrite (server_run_cons op ops s s1 E1) in E.
  destruct (step_typed op k s s1) as [HT1 HL1]; [done|lia|done..|].
  destruct (IH (k - 1) s1 I1) as [HT2 HL2]; [lia|done..|]. auto.
Qed.
End Server.
