(* ===== verification/TcpServer.v ===== *)
(** * TcpServer

    [server/src/tcp_server.cpp]: the acceptor that listens on a port, and the
    loop that accepts connections.  The acceptor is Boost.Asio's, a parameter:
    each of its operations may throw.  [accepts] counts the [async_accept]
    operations that are pending; the completion of one is a step. *)
From S2P Require Import Prelude CoreTypes Room RoomSpec RoomRefine RoomTrace RoomProps ServerCore.
From S2P Require Import Membership Messages Mappers JsonProtocol JsonSpec JsonModel Session SessionInv.
From S2P Require Import Within SessionProps Serve.

(** ** The acceptor *)

Inductive IpProtocol := V4 | V6.

Record Endpoint := mkEndpoint { ep_protocol : IpProtocol; ep_port : Z }.

(** An operation of the acceptor: what it throws, if it throws, and the acceptor after it. *)
Class AsioAcceptor := {
  acceptor : Type;
  acc_new : acceptor;
  acc_open : IpProtocol → acceptor → Expected unit string * acceptor;
  acc_reuse_address : bool → acceptor → Expected unit string * acceptor;
  acc_bind : Endpoint → acceptor → Expected unit string * acceptor;
  acc_listen : acceptor → Expected unit string * acceptor;
  acc_is_open : acceptor → bool;
  acc_port : acceptor → Expected Z string;
}.

(** Opening opens, the others leave it open, binding to a port other than 0 binds to it. *)
Class AcceptorLaws `{AsioAcceptor} := {
  open_opens p a a' : acc_open p a = (Value tt, a') → acc_is_open a' = true;
  reuse_open b a a' : acc_reuse_address b a = (Value tt, a') → acc_is_open a' = acc_is_open a;
  bind_open ep a a' : acc_bind ep a = (Value tt, a') → acc_is_open a' = acc_is_open a;
  listen_open a a' : acc_listen a = (Value tt, a') → acc_is_open a' = acc_is_open a;
  bind_port ep a a' : acc_bind ep a = (Value tt, a') → ep_port ep ≠ 0 → acc_port a' = Value (ep_port ep);
  listen_port a a' : acc_listen a = (Value tt, a') → acc_port a' = acc_port a;
}.

(** ** The server *)

Section TcpServer.
Context `{HashOrder} {Σ : Type} `{SnapshotSink Σ} `{JsonLib} `{AsioAcceptor}.

Record TcpServer := mkTcpServer {
  acceptor_ : acceptor;
  accepts : nat;
  server_ : @Server Σ;
}.

(** One operation after the other, until one throws. *)
Definition and_then (m m' : acceptor → Expected unit string * acceptor) :
    acceptor → Expected unit string * acceptor := λ a,
  match m a with
  | (Value _, a') => m' a'
  | (Unexpected e, a') => (Unexpected e, a')
  end.

Definition open_acceptor (ep : Endpoint) : acceptor → Expected unit string * acceptor :=
  and_then (acc_open (ep_protocol ep)) (and_then (acc_reuse_address true)
    (and_then (acc_bind ep) acc_listen)).

(** The constructor, with the registry it makes by default. *)
Definition new_tcp_server (ep : Endpoint) (core : @ServerCore Σ) : Expected TcpServer string :=
  match open_acceptor ep acc_new with
  | (Value _, a) => Value (mkTcpServer a 0 (mkServer core ∅ ∅ 1))
  | (Unexpected e, _) => Unexpected e
  end.

Definition port (t : TcpServer) : Expected Z string := acc_port (acceptor_ t).

Definition doAccept : M TcpServer unit :=
  modify (λ t, mkTcpServer (acceptor_ t) (S (accepts t)) (server_ t)).

Definition start : M TcpServer unit := doAccept.

Definition on_server {A} (m : M (@Server Σ) A) : M TcpServer A := λ t,
  match m (server_ t) with
  | Some (x, s) => Some (x, mkTcpServer (acceptor_ t) (accepts t) s)
  | None => None
  end.

(** [ec]: the accept failed. *)
Definition onAccept (ec : bool) : M TcpServer unit :=
  (if negb ec then on_server acceptSession else mret tt) ;;
  t ← get;
  if acc_is_open (acceptor_ t) then doAccept else mret tt.

(** The completion of an accept that is pending. *)
Definition accepted (ec : bool) : M TcpServer unit :=
  t ← get;
  match accepts t with
  | O => mret tt
  | S n => modify (λ t, mkTcpServer (acceptor_ t) n (server_ t)) ;; onAccept ec
  end.

Inductive TcpOp :=
  | AcceptFailed
  | Completed (op : ServerOp).

Definition tcp_step (op : TcpOp) : M TcpServer unit :=
  match op with
  | AcceptFailed => accepted true
  | Completed Accept => accepted false
  | Completed op => on_server (server_step op)
  end.

Fixpoint tcp_run (ops : list TcpOp) : M TcpServer unit :=
  match ops with
  | [] => mret tt
  | op :: ops => tcp_step op ;; tcp_run ops
  end.

(** ** The accept loop *)

(** The operations that completed without an error of the acceptor. *)
Definition completions (ops : list TcpOp) : list ServerOp :=
  omap (λ op, match op with Completed op => Some op | AcceptFailed => None end) ops.

Definition connections (ops : list ServerOp) : nat :=
  length (filter (λ op, match op with Accept => true | _ => false end = true) ops).

(** The server listens: the acceptor is open and one accept is pending. *)
Definition listening (t : TcpServer) : Prop := acc_is_open (acceptor_ t) = true ∧ accepts t = 1%nat.

Definition with_server (t : TcpServer) (s : @Server Σ) : TcpServer := mkTcpServer (acceptor_ t) (accepts t) s.

Lemma tcp_step_listening op t :
  listening t →
  tcp_step op t =
    match op with
    | AcceptFailed => Some (tt, t)
    | Completed op =>
        match server_step op (server_ t) with
        | Some (_, s) => Some (tt, with_server t s)
        | None => None
        end
    end.
Proof.
  destruct t as [a n s]. unfold listening, with_server. simpl. intros [Ho ->].
  destruct op as [|op].
  - unfold tcp_step, accepted, onAccept, doAccept. unfold mbind, M_bind, get, modify, mret, M_ret. simpl.
    by rewrite Ho.
  - destruct op as [|c now line|c ok|c|c]; simpl;
      [unfold accepted, onAccept, doAccept, on_server, mbind, M_bind, get, modify, mret, M_ret; simpl; by rewrite Ho| | | |];
      unfold on_server; simpl;
      match goal with |- match ?m with _ => _ end = _ => by destruct m as [[[] ?]|] end.
Qed.

(** A run of the server of the sessions that never fails is one of the TCP server. *)
Lemma tcp_run_serves ops t s' :
  listening t → server_run (completions ops) (server_ t) = Some (tt, s') →
  tcp_run ops t = Some (tt, with_server t s').
Proof.
  revert t. induction ops as [|op ops IH]; intros t Hl E; simpl in *.
  { injection E as <-. by destruct t. }
  unfold mbind, M_bind. rewrite tcp_step_listening by done. destruct op as [|op]; [by apply IH|].
  simpl in E. unfold mbind, M_bind in E. destruct (server_step op (server_ t)) as [[[] s1]|] eqn:E1; [|done].
  rewrite (IH (with_server t s1)) by done. done.
Qed.

(** The constructor leaves an open acceptor, bound to the port that was asked for. *)
Lemma open_acceptor_ok `{!AcceptorLaws} ep a a' :
  open_acceptor ep a = (Value tt, a') →
  acc_is_open a' = true ∧ (ep_port ep ≠ 0 → acc_port a' = Value (ep_port ep)).
Proof.
  unfold open_acceptor, and_then. destruct (acc_open _ a) as [[[]|] a1] eqn:E1; [|done].
  destruct (acc_reuse_address _ a1) as [[[]|] a2] eqn:E2; [|done].
  destruct (acc_bind _ a2) as [[[]|] a3] eqn:E3; [|done]. intros E4. split.
  - by erewrite listen_open, bind_open, reuse_open, open_opens.
  - intros Hp. erewrite listen_port by done. by eapply bind_port.
Qed.

Lemma new_tcp_server_ok `{!AcceptorLaws} ep core t :
  new_tcp_server ep core = Value t →
  server_ t = mkServer core ∅ ∅ 1 ∧ accepts t = 0%nat ∧ acc_is_open (acceptor_ t) = true ∧
  (ep_port ep ≠ 0 → port t = Value (ep_port ep)).
Proof.
  unfold new_tcp_server. destruct (open_acceptor ep acc_new) as [[[]|] a] eqn:E; [|done].
  apply open_acceptor_ok in E as [Ho Hp]. by intros [= <-].
Qed.

Lemma start_listens t :
  accepts t = 0%nat → acc_is_open (acceptor_ t) = true →
  ∃ t', start t = Some (tt, t') ∧ listening t' ∧ server_ t' = server_ t ∧ acceptor_ t' = acceptor_ t.
Proof. intros Ha Ho. eexists. split; [reflexivity|]. unfold listening. simpl. by rewrite Ha. Qed.

(** Each connection takes one client number. *)
Lemma connections_numbered `{!JsonText} ops k s s' :
  server_inv k s → Z.of_nat (length ops) ≤ k → Forall op_text ops → server_run ops s = Some (tt, s') →
  nextClientId_ s' = nextClientId_ s + Z.of_nat (connections ops).
Proof.
  revert k s. induction ops as [|op ops IH]; intros k s I Hk Ht E; [injection E as <-; unfold connections; simpl; lia|].
  apply Forall_cons in Ht as [Hop Ht]. simpl length in Hk.
  destruct (step_run op k s I ltac:(lia) Hop) as (s1 & E1 & I1). rewrite (server_run_cons _ _ _ _ E1) in E.
  rewrite (IH (k - 1) s1 I1 ltac:(lia) Ht E). unfold connections. rewrite filter_cons.
  assert (op = Accept ∨ op ≠ Accept) as [->|Hne] by (destruct op; auto).
  - injection E1 as <-. destruct (si_next _ _ I). rewrite decide_True by done. simpl. rewrite u64_succ by lia. lia.
  - destruct (within_step only_removes op Hne s tt s1 E1) as [_ ->]. destruct op; done.
Qed.
End TcpServer.

(** ** The theorem *)

Section Theorems.
Context `{HashOrder} {Σ : Type} `{SnapshotSink Σ} `{JsonText} `{AcceptorLaws}.

(** C18. Once it has started the server never stops accepting connections as
    long as the parse errors of the lines can be quoted in a message (a line that
    breaks this ends the process: [unquotable_error_ends_process]): however many
    accepts, reads and writes fail, no handler fails and one [async_accept] is always pending, on the port that was
    asked for, so that [io_context::run] does not run out of work.  The clients
    are numbered 1, 2, 3, ... and the sessions run as if there were only they. *)
Theorem accept_loop_lives (ep : Endpoint) (sink : option Σ) (t0 : TcpServer) (ops : list TcpOp) :
  new_tcp_server ep (new_core sink) = Value t0 →
  1 + 2 * Z.of_nat (length (completions ops)) < 2 ^ 64 → Forall op_text (completions ops) →
  ∃ t1 t, start t0 = Some (tt, t1) ∧ tcp_run ops t1 = Some (tt, t) ∧
    accepts t = 1%nat ∧ acc_is_open (acceptor_ t) = true ∧
    (ep_port ep ≠ 0 → port t = Value (ep_port ep)) ∧
    nextClientId_ (server_ t) = 1 + Z.of_nat (connections (completions ops)) ∧
    server_run (completions ops) (new_server sink) = Some (tt, server_ t).
Proof.
  intros (Hs & Ha & Ho & Hp)%new_tcp_server_ok Hlen Ht.
  destruct (start_listens t0 Ha Ho) as (t1 & E1 & Hl & Hs1 & Ha1).
  pose proof (inv_start sink (Z.of_nat (length (completions ops))) ltac:(lia) ltac:(lia)) as I.
  destruct (run_inv (completions ops) _ _ I ltac:(lia) Ht) as (s' & E & _). exists t1, (with_server t1 s').
  rewrite (tcp_run_serves ops t1 s' Hl) by (rewrite Hs1, Hs; exact E).
  split_and!; [done|done|apply Hl|apply Hl| | |done].
  - unfold port, with_server. simpl. by rewrite Ha1.
  - simpl. rewrite (connections_numbered (completions ops) _ _ s' I ltac:(lia) Ht E). done.
Qed.
End Theorems.

(** ** An acceptor *)

(** It may bind to the ports above 1023, and picks 49152 itself. *)
Record Listener := mkListener { opened : bool; bound : option Z }.

Definition if_open (a : Listener) (r : Expected unit string * Listener) : Expected unit string * Listener :=
  if opened a then r else (Unexpected "Bad file descriptor", a).

#[export] Instance simple_acceptor : AsioAcceptor := {|
  acceptor := Listener;
  acc_new := mkListener false None;
  acc_open p a := if opened a then (Unexpected "open: Already open", a) else (Value tt, mkListener true (bound a));
  acc_reuse_address b a := if_open a (Value tt, a);
  acc_bind ep a := if_open a
    (if bool_decide (0 < ep_port ep < 1024) then (Unexpected "bind: Permission denied", a)
     else (Value tt, mkListener true (Some (if bool_decide (ep_port ep = 0) then 49152 else ep_port ep))));
  acc_listen a := if_open a (Value tt, a);
  acc_is_open := opened;
  acc_port a := match bound a with Some p => Value p | None => Unexpected "Bad file descriptor" end;
|}.

#[export] Instance simple_laws : @AcceptorLaws simple_acceptor.
Proof.
  split; simpl; unfold if_open.
  - intros p a a'. destruct (opened a); [done|]. by intros [= <-].
  - intros b a a'. destruct (opened a) eqn:E; [|done]. by intros [= <-].
  - intros ep a a'. destruct (opened a) eqn:E; [|done]. case_bool_decide; [done|]. by intros [= <-].
  - intros a a'. destruct (opened a) eqn:E; [|done]. by intros [= <-].
  - intros ep a a'. destruct (opened a); [|done]. case_bool_decide; [done|]. intros [= <-] Hp. simpl.
    by rewrite bool_decide_eq_false_2.
  - intros a a'. destruct (opened a); [|done]. by intros [= <-].
Qed.

(** ** Witness *)

#[local] Existing Instance elements_order.

(** An accept fails between two connections. *)
Definition demo_tcp : list TcpOp :=
  (Completed <$> connect 1) ++ [AcceptFailed] ++ (Completed <$> connect 2 ++ [say 2 CreateRoomRequest]).

Definition demo_listener : TcpServer :=
  mkTcpServer (mkListener true (Some 5555)) 0 (new_server (Some ([] : list PersistedBoardSnapshot))).

Lemma accept_loop_lives_witness :
  ∃ t1 t, start demo_listener = Some (tt, t1) ∧ tcp_run demo_tcp t1 = Some (tt, t) ∧
    accepts t = 1%nat ∧ nextClientId_ (server_ t) = 3 ∧ port t = Value 5555.
Proof.
  destruct (accept_loop_lives (mkEndpoint V4 5555) (Some ([] : list PersistedBoardSnapshot)) demo_listener demo_tcp)
    as (t1 & t & E1 & E & Ha & _ & Hp & Hn & _).
  - reflexivity.
  - vm_compute. reflexivity.
  - unfold demo_tcp, completions, connect, say. cbn. by_text.
  - exists t1, t. split; [exact E1|]. split; [exact E|]. split; [exact Ha|]. split; [|apply Hp; discriminate].
    rewrite Hn. vm_compute. reflexivity.
Defined.
