(* ===== verification/Process.v ===== *)
(** * The process: server, writer and store

    What [main] puts together: the sessions and the core of [Session.v], whose
    snapshot sink is the writer of [SnapshotWriter.v], whose store is
    [SqliteStore.v] with the clock of [SavedRuns.v].  A step is a handler of
    the server, or an action of the writer's thread. *)
From S2P Require Import Prelude CoreTypes Room RoomSpec RoomRefine RoomTrace RoomProps ServerCore.
From S2P Require Import CoreProps CoreStream Emptied Typing Messages Mappers JsonProtocol JsonSpec.
From S2P Require Import SnapshotStore StrokeBlob SqliteStore SnapshotWriter SavedRuns.
From S2P Require Import Session SessionInv Serve ServerTyping.

(** ** Steps *)

(** An action of the writer's thread; the destructor has not been called. *)
Definition thread_act (woken : bool) : Act := if woken then AWake else AWorker.

Section Process.
Context `{HashOrder} {Σ : Type} `{SnapshotStore Σ} `{JsonLib}.

Definition writer_act (a : Act) (w : @LiveWriter Σ) : @LiveWriter Σ :=
  match exec a (`w) with
  | Some w' => match decide (destroy w' = DNone) with left live => exist _ w' live | right _ => w end
  | None => w
  end.

Inductive ProcessOp :=
  | Handler (op : ServerOp)
  | WriterThread (woken : bool).

Abbreviation Process := (@Server (@LiveWriter Σ)).

Definition on_writer (f : @LiveWriter Σ → @LiveWriter Σ) (p : Process) : Process :=
  with_core (mkServerCore (core_rooms (core_ p)) (f <$> snapshotSink_ (core_ p))) p.

Definition process_step (op : ProcessOp) : M Process unit :=
  match op with
  | Handler op => server_step op
  | WriterThread woken => modify (on_writer (writer_act (thread_act woken)))
  end.

Fixpoint process_run (ops : list ProcessOp) : M Process unit :=
  match ops with
  | [] => mret tt
  | op :: ops => process_step op ;; process_run ops
  end.

(** ** The writer *)

(** The writer is one a program can reach. *)
Definition writer_runs (σ0 : Σ) (keep : Z) (co : @ServerCore (@LiveWriter Σ)) : Prop :=
  ∃ w, snapshotSink_ co = Some w ∧ writer_reach σ0 keep (`w).

Lemma writer_act_spec σ0 keep b (w : @LiveWriter Σ) :
  writer_reach σ0 keep (`w) →
  writer_reach σ0 keep (proj1_sig (writer_act (thread_act b) w)) ∧
  pushed (proj1_sig (writer_act (thread_act b) w)) = pushed (`w).
Proof.
  intros Hr. unfold writer_act. destruct (exec (thread_act b) (`w)) as [w'|] eqn:E; [|done].
  case_decide; [|done]. simpl. split; [by eapply reach_act|]. clear Hr. destruct w as [w Hd]. simpl in *.
  destruct w as [σ k q stop n pc tp tn fl d ps hs]. destruct b; simpl in E.
  - case_bool_decide; [|done]. by injection E as <-.
  - destruct pc; try done; injection E as <-; try done. by destruct stop, q.
Qed.

Lemma enqueue_runs σ0 keep t (w : @LiveWriter Σ) :
  writer_reach σ0 keep (`w) → writer_reach σ0 keep (proj1_sig (enqueue_live t w)).
Proof. intros Hr. eapply reach_execs; [exact Hr|]. apply (run_enqueue_spec t (`w) (proj2_sig w)). Qed.

(** A call of the core uses the sink through [enqueue] only. *)
Lemma writer_runs_call σ0 keep op k co y co' :
  core_wf co → core_headroom k co → 1 ≤ k → core_call op co = Some (y, co') →
  writer_runs σ0 keep co → writer_runs σ0 keep co'.
Proof.
  intros wf hr Hk E (w & Hw & Hr). destruct op as [|room op].
  - rewrite createRoom_step in E by (done || destruct hr; lia). injection E as <- <-. by exists w.
  - destruct (core_room co room) as [r|] eqn:Er.
    2:{ rewrite core_call_missing in E by done. injection E as <- <-. by exists w. }
    destruct (cw_room co wf room r Er) as [_ wr].
    destruct (room_call_refines op r wr) as (y' & r' & E' & _);
      [destruct hr as [_ hr]; specialize (hr _ _ Er); unfold headroom in *; lia|].
    rewrite (core_call_present co room op r y' r') in E by done. injection E as <- <-.
    unfold save_if, set_room. destruct (saves op y' r'); [|by exists w].
    simpl. rewrite Hw. eexists. split; [reflexivity|]. by apply enqueue_runs.
Qed.
End Process.

(** ** The invariant *)

Section Invariant.
Context `{HashOrder} {Σ : Type} `{SnapshotStore Σ} `{JsonText} `{!JsonLaws}.
Abbreviation Process := (@Server (@LiveWriter Σ)).

Definition process_text (op : ProcessOp) : Prop :=
  match op with Handler op => op_text op | WriterThread _ => True end.

(** The coordinates of the requests are floats. *)
Definition float_point (p : Point) : Prop := is_u32 (px p) ∧ is_u32 (py p).

Record core_stored (σ0 : Σ) (keep : Z) (co : @ServerCore (@LiveWriter Σ)) : Prop := {
  cs_writer : writer_runs σ0 keep co;
  cs_emptied : emptied_saved co;
  cs_typed : core_typed float_point co;
  cs_log : log_typed float_point co;
}.

Lemma core_stored_call σ0 keep op k co y co' :
  core_wf co → core_headroom k co → 1 ≤ k → core_op_typed float_point op → core_call op co = Some (y, co') →
  core_stored σ0 keep co → core_stored σ0 keep co'.
Proof.
  intros wf hr Hk Ho E [W M T L].
  assert (has_sink co = true) as Hs by (destruct W as (w & Hw & _); unfold has_sink; by rewrite Hw).
  destruct (core_call_typed float_point op k co y co') as (? & _ & ?); try done.
  destruct (emptied_call op k co y co'); try done. split; [by eapply writer_runs_call|auto..].
Qed.

Definition process_inv (σ0 : Σ) (keep k : Z) (p : Process) : Prop :=
  server_inv k p ∧ core_stored σ0 keep (core_ p).

Lemma process_inv_step σ0 keep k op p :
  process_inv σ0 keep k p → 1 ≤ k → process_text op →
  ∃ p', process_step op p = Some (tt, p') ∧ process_inv σ0 keep (k - 1) p'.
Proof.
  intros [I C] Hk Ht. destruct op as [op|woken].
  - destruct (step_run op k p I Hk Ht) as (p' & E & I'). exists p'. split; [exact E|]. split; [done|].
    eapply (step_core float_point (core_stored σ0 keep)); [|exact I|done| |exact E|exact C].
    + intros. by eapply core_stored_call.
    + destruct op as [|c now [line|]|c ok|c|c]; simpl; try done. apply parse_bits.
  - eexists. split; [reflexivity|]. destruct C as [(w & Hw & Hr) M T L].
    destruct (writer_act_spec σ0 keep woken w Hr) as [Hr' Hp]. split.
    + apply (inv_mono k); [|lia]. destruct I as [A B C D E F G]. split; try done.
      destruct A as [A1 A2 A3]. by split.
    + assert (core_log (core_ (on_writer (writer_act (thread_act woken)) p)) = core_log (core_ p)) as Hl
        by (unfold core_log; simpl; rewrite Hw; exact Hp).
      split; [|intros room r Hr1 Hm; rewrite Hl; by apply (M room)|done|unfold log_typed; by rewrite Hl].
      eexists. simpl. rewrite Hw. split; [reflexivity|exact Hr'].
Qed.

Lemma process_inv_run σ0 keep ops k p :
  process_inv σ0 keep k p → Z.of_nat (length ops) ≤ k → Forall process_text ops →
  ∃ p', process_run ops p = Some (tt, p') ∧ process_inv σ0 keep (k - Z.of_nat (length ops)) p'.
Proof.
  revert k p. induction ops as [|op ops IH]; intros k p I Hk Ht.
  { exists p. split; [done|]. by replace (k - Z.of_nat (length [])) with k by (simpl; lia). }
  apply Forall_cons in Ht as [Hop Ht]. simpl length in *.
  destruct (process_inv_step σ0 keep k op p I ltac:(lia) Hop) as (p1 & E1 & I1).
  destruct (IH (k - 1) p1 I1 ltac:(lia) Ht) as (p2 & E2 & I2). exists p2.
  split; [cbn [process_run]; unfold mbind, M_bind; rewrite E1; exact E2|].
  by replace (k - Z.of_nat (S (length ops))) with (k - 1 - Z.of_nat (length ops)) by lia.
Qed.

Lemma process_inv_start σ0 keep k (w : @LiveWriter Σ) :
  new_writer (Some σ0) keep = Value (`w) → 0 ≤ k → 1 + 2 * k < 2 ^ 64 →
  process_inv σ0 keep k (new_server (Some w)).
Proof.
  intros Hw Hk Hlt. split; [by apply inv_start|]. split.
  - exists w. split; [done|]. by apply reach_start.
  - apply new_core_emptied.
  - apply new_core_typed.
  - unfold log_typed, core_log. simpl. unfold new_writer in Hw.
    destruct (store_init σ0) as [[|] σ]; [|done]. injection Hw as Hw. rewrite <-Hw. constructor.
Qed.
End Invariant.

(** ** The store *)

(** Typed strokes can be stored. *)
Lemma stroke_typed_storable s :
  stroke_typed float_point s → is_u32 (Z.of_nat (length (points s))) → stroke_storable s.
Proof.
  intros [A B C D E F] Hlen. unfold stroke_storable.
  assert (is_u8 (color_to_u8 (stroke_color s)) ∧ color_of_u8 (color_to_u8 (stroke_color s)) = stroke_color s) as [? ?]
    by (destruct (stroke_color s); done).
  assert (is_u8 (thickness_to_u8 (stroke_thickness s)) ∧
    thickness_of_u8 (thickness_to_u8 (stroke_thickness s)) = stroke_thickness s) as [? ?]
    by (destruct (stroke_thickness s); done).
  by split_and!.
Qed.

Lemma points_below_blob ss s :
  s ∈ ss → (length ss ≤ length (serializeStrokes ss) ∧ length (points s) ≤ length (serializeStrokes ss))%nat.
Proof.
  intros Hs. rewrite length_serializeStrokes. split.
  - clear Hs. induction ss; cbn [length sum_list_with] in *; lia.
  - induction ss as [|s' ss IH]; [by apply elem_of_nil in Hs|]. cbn [length sum_list_with] in *.
    apply elem_of_cons in Hs as [->|Hs]; [lia|]. specialize (IH Hs). lia.
Qed.

Lemma strokes_typed_storable ss :
  Forall (stroke_typed float_point) ss → Z.of_nat (length (serializeStrokes ss)) < 2 ^ 31 → board_storable ss.
Proof.
  intros Ht Hlen. split.
  - unfold is_u32, in_width. destruct ss as [|s ss]; [cbn [length]; lia|].
    destruct (points_below_blob (s :: ss) s) as [? _]; [by left|]. lia.
  - apply Forall_forall. intros s Hs. rewrite Forall_forall in Ht. apply stroke_typed_storable; [by apply Ht|].
    destruct (points_below_blob ss s Hs). unfold is_u32, in_width. lia.
Qed.

Section Stored.
Context `{HashOrder} `{JsonText} `{!JsonLaws} `{SqliteLaws} `{Allocator}.

(** The last snapshot of a room among those handed over. *)
Lemma log_of_last room (l before : list PersistedBoardSnapshot) p :
  log_of room l = before ++ [p] → ∃ l1 l2, l = l1 ++ p :: l2 ∧ log_of room l2 = [] ∧ pers_room p = room.
Proof.
  revert before. induction l as [|q l IH] using rev_ind; intros before Hl.
  { by apply app_cons_not_nil in Hl. }
  destruct (decide (pers_room q = room)) as [Hq|Hq].
  - rewrite log_of_snoc in Hl by done. apply app_inj_tail in Hl as [_ ->]. by exists l, [].
  - rewrite log_of_other in Hl by done. destruct (IH before Hl) as (l1 & l2 & -> & Hn & Hp).
    exists l1, (l2 ++ [q]). split; [by rewrite <-app_assoc|]. by rewrite log_of_other.
Qed.

Lemma reach_open (σ0 : ClockedStore) keep w :
  writer_reach σ0 keep w → is_Some (db_ (cs_store (snd (store_init σ0)))).
Proof.
  induction 1 as [w Hw|a w w' _ IH E]; [|done]. unfold new_writer in Hw.
  destruct (store_init σ0) as [[[]|] σ] eqn:E; [|done]. simpl. by eapply store_init_opens.
Qed.

(** A writer with nothing left to do has saved all it was given. *)
Lemma drained_handled (σ0 : ClockedStore) keep w :
  writer_reach σ0 keep w → worker_ w = WBlocked → q_ w = [] →
  SnapshotWriter.handled w = pushed w ∧ store_ w = save_all keep (pushed w) (snd (store_init σ0)).
Proof.
  intros I%reach_inv Hb Hq. pose proof (inv_fifo _ _ _ I) as Hf. rewrite Hb, Hq in Hf. simpl in Hf.
  rewrite app_nil_r in Hf. by rewrite (inv_store _ _ _ I), <-Hf.
Qed.

(** What its store gives back. *)
Lemma drained_gives_back (σ0 : ClockedStore) keep w ps1 p ps2 :
  writer_reach σ0 keep w → worker_ w = WBlocked → q_ w = [] → 1 ≤ keep < 2 ^ 63 →
  pushed w = ps1 ++ p :: ps2 → log_of (pers_room p) ps2 = [] →
  Forall (saved_typed float_point) (pushed w) → Forall blob_small (pushed w) → board_fits (pers_strokes p) →
  saved_later p (save_all keep ps1 (snd (store_init σ0))) → gives_back (pers_room p) p (store_ w).
Proof.
  intros Hr Hb Hq Hk Hp Hl Hty Hsm Hfit Hsl. destruct (drained_handled σ0 keep w Hr Hb Hq) as [_ ->].
  rewrite Hp in Hty, Hsm |- *. assert (p ∈ ps1 ++ p :: ps2) as Hin by (apply elem_of_app; right; by left).
  pose proof (proj1 (Forall_forall _ _) Hty _ Hin) as [T1 T2 T3].
  apply last_saved_loads; [by eapply reach_open|done|done| |done|done|done| |done|done].
  - eapply Forall_impl; [exact Hty|]. by intros ? [].
  - apply strokes_typed_storable; [done|]. by apply (proj1 (Forall_forall _ _) Hsm).
Qed.
End Stored.

(** ** Rooms that were left *)

Section Left.
Context `{HashOrder} `{JsonText} `{!JsonLaws} `{SqliteLaws} `{Allocator}.

(** Once the writer is drained, the last snapshot it has saved of a room that was
    left is the board of the room, and what the store gives back. *)
Lemma drained_room_stored (σ0 : ClockedStore) (keep : Z) (w0 w : LiveWriter) (ops : list ProcessOp)
    (p : Server) (room : RoomId) (r : Room) :
  new_writer (Some σ0) keep = Value (`w0) → 1 ≤ keep < 2 ^ 63 →
  1 + 2 * Z.of_nat (length ops) < 2 ^ 64 → Forall process_text ops →
  process_run ops (new_server (Some w0)) = Some (tt, p) →
  snapshotSink_ (core_ p) = Some w → worker_ (`w) = WBlocked → q_ (`w) = [] →
  core_room (core_ p) room = Some r → members_ r = ∅ → nextSeq_ r ≠ 1 →
  ∃ before after, SnapshotWriter.handled (`w) = before ++ makePersistedSnapshot r :: after ∧ log_of room after = [] ∧
    (Forall blob_small (SnapshotWriter.handled (`w)) → board_fits (strokes (board_ r)) →
     saved_later (makePersistedSnapshot r) (save_all keep before (snd (store_init σ0))) →
     gives_back room (makePersistedSnapshot r) (store_ (`w))).
Proof.
  intros Hw0 Hk Hlen Ht E Hw Hb Hq Hr Hm Hseq.
  destruct (process_inv_run σ0 keep ops (Z.of_nat (length ops)) (new_server (Some w0)))
    as (p' & E' & I & [(w' & Hw' & Hreach) Hemp Hty Hlog]); [by apply process_inv_start; [|lia..]|lia|done|].
  rewrite E in E'. injection E' as <-. rewrite Hw in Hw'. injection Hw' as <-.
  destruct (cw_room _ (si_core _ _ I) room r Hr) as [Hid wr].
  assert (core_log (core_ p) = pushed (`w)) as Hl by (unfold core_log; by rewrite Hw).
  destruct (Hemp room r Hr Hm) as [?|[before Hlast]]; [done|]. rewrite Hl, Hid in Hlast.
  unfold log_typed in Hlog. rewrite Hl in Hlog. destruct (drained_handled σ0 keep (`w) Hreach Hb Hq) as [Hh _].
  apply log_of_last in Hlast as (ps1 & ps2 & Hp & Hlast & Hroom). exists ps1, ps2. rewrite Hh.
  split_and!; [done|done|]. intros Hsm Hfit Hsl. rewrite <-Hroom in Hlast |- *.
  by eapply (drained_gives_back σ0 keep (`w) ps1 (makePersistedSnapshot r) ps2).
Qed.
End Left.
