(* ===== verification/Stoi.v ===== *)
(** * std::stoi

    The function of the C++ library with which [main] reads the port: white
    space, an optional sign, decimal digits; what follows them is ignored. *)
From stdpp Require Import pretty.
From S2P Require Import Prelude CoreTypes.

(** [isspace] in the "C" locale. *)
Definition isspace (c : Ascii.ascii) : bool :=
  let n := Ascii.nat_of_ascii c in bool_decide (n = 32 ∨ 9 ≤ n ≤ 13)%nat.

Definition isdigit (c : Ascii.ascii) : option Z :=
  let n := Z.of_nat (Ascii.nat_of_ascii c) - 48 in
  if bool_decide (0 ≤ n < 10) then Some n else None.

Fixpoint skip_spaces (s : string) : string :=
  match s with
  | String c s' => if isspace c then skip_spaces s' else s
  | EmptyString => EmptyString
  end.

(** The sign, and what follows it. *)
Definition read_sign (s : string) : bool * string :=
  match s with
  | String c s' =>
      if Ascii.eqb c (Ascii.ascii_of_nat 45) then (true, s')
      else if Ascii.eqb c (Ascii.ascii_of_nat 43) then (false, s') else (false, s)
  | EmptyString => (false, s)
  end.

(** The digits at the front of [s], after the number [n]; [None] if there are none. *)
Fixpoint read_digits (n : option Z) (s : string) : option Z :=
  match s with
  | String c s' =>
      match isdigit c with Some d => read_digits (Some (10 * default 0 n + d)) s' | None => n end
  | EmptyString => n
  end.

Inductive StoiError := StoiInvalidArgument | StoiOutOfRange.

(** [what()] of both exceptions is the name of the function. *)
Definition stoi_what (e : StoiError) : string := "stoi".

Definition stoi (s : string) : Expected Z StoiError :=
  let '(negative, s) := read_sign (skip_spaces s) in
  match read_digits None s with
  | None => Unexpected StoiInvalidArgument
  | Some n =>
      let n := if negative then - n else n in
      if bool_decide (- 2 ^ 31 ≤ n < 2 ^ 31) then Value n else Unexpected StoiOutOfRange
  end.

(** ** It reads what was printed *)

Fixpoint all_spaces (s : string) : bool :=
  match s with String c s' => isspace c && all_spaces s' | EmptyString => true end.

Definition no_digit (s : string) : Prop :=
  match s with String c _ => isdigit c = None | EmptyString => True end.

Lemma skip_spaces_app ws s : all_spaces ws = true → skip_spaces (ws +:+ s) = skip_spaces s.
Proof. induction ws as [|c ws IH]; [done|]. simpl. intros [-> Hws]%andb_true_iff. by apply IH. Qed.

Lemma isdigit_char x : (x < 10)%N → isdigit (pretty_N_char x) = Some (Z.of_N x).
Proof.
  intros Hx. assert (x = 0 ∨ x = 1 ∨ x = 2 ∨ x = 3 ∨ x = 4 ∨ x = 5 ∨ x = 6 ∨ x = 7 ∨ x = 8 ∨ x = 9)%N as Hcases by lia.
  destruct_or!; subst x; vm_compute; reflexivity.
Qed.

Lemma read_digits_end n s : no_digit s → read_digits n s = n.
Proof. destruct s as [|c s]; [done|]. simpl. by intros ->. Qed.

(** Reading the digits of [x] multiplies by a power of ten and adds [x]. *)
Lemma read_digits_go x s :
  (0 < x)%N → ∃ k, 0 ≤ k ∧ ∀ n,
    read_digits n (pretty_N_go x s) = read_digits (Some (default 0 n * 10 ^ k + Z.of_N x)) s.
Proof.
  revert s. induction (N.lt_wf_0 x) as [x _ IH]. intros s Hx. rewrite pretty_N_go_step by done.
  assert (x `mod` 10 < 10)%N as Hm by by apply N.mod_lt.
  assert (Z.of_N x = 10 * Z.of_N (x `div` 10) + Z.of_N (x `mod` 10)) as Hdm.
  { pose proof (N.div_mod x 10 ltac:(done)) as E. lia. }
  destruct (decide (x `div` 10 = 0)%N) as [Hz|Hz].
  - rewrite Hz, pretty_N_go_0. exists 1. split; [done|]. intros n. cbn [read_digits]. rewrite isdigit_char by done.
    do 2 f_equal. rewrite Hz in Hdm. lia.
  - destruct (IH (x `div` 10)%N ltac:(by apply N.div_lt) (String (pretty_N_char (x `mod` 10)) s) ltac:(lia))
      as (k & Hk & E).
    exists (k + 1). split; [lia|]. intros n. rewrite E. cbn [read_digits]. rewrite isdigit_char by done.
    do 2 f_equal. simpl. rewrite Z.pow_add_r by lia. rewrite Hdm. ring.
Qed.

Lemma pretty_N_go_first x s :
  (0 < x)%N → ∃ d s', (d < 10)%N ∧ pretty_N_go x s = String (pretty_N_char d) s'.
Proof.
  revert s. induction (N.lt_wf_0 x) as [x _ IH]. intros s Hx. rewrite pretty_N_go_step by done.
  assert (x `mod` 10 < 10)%N as Hm by by apply N.mod_lt.
  destruct (decide (x `div` 10 = 0)%N) as [Hz|Hz].
  - rewrite Hz, pretty_N_go_0. eauto.
  - apply IH; [by apply N.div_lt|by apply N.neq_0_lt_0].
Qed.

Lemma pretty_N_go_app x s : pretty_N_go x s = pretty_N_go x "" +:+ s.
Proof.
  cut (∀ s1 s2, pretty_N_go x (s1 +:+ s2) = pretty_N_go x s1 +:+ s2).
  { intros E. by rewrite <-(E ""). }
  induction (N.lt_wf_0 x) as [x _ IH]. intros s1 s2.
  assert (x = 0 ∨ 0 < x)%N as [->|Hx] by lia; [by rewrite !pretty_N_go_0|].
  rewrite !(pretty_N_go_step x) by done. apply (IH _ (N.div_lt x 10 Hx eq_refl) (String _ s1) s2).
Qed.

(** The digits of a number, with something behind them. *)
Lemma read_digits_pretty x s :
  no_digit s → read_digits None (pretty x +:+ s) = Some (Z.of_N x).
Proof.
  intros Hs. unfold pretty, pretty_N. case_decide as Hx.
  - subst x. simpl. by rewrite read_digits_end.
  - rewrite <-pretty_N_go_app. destruct (read_digits_go x s ltac:(lia)) as (k & _ & ->).
    by rewrite read_digits_end.
Qed.

Lemma pretty_N_first (x : N) s :
  skip_spaces (pretty x +:+ s) = pretty x +:+ s ∧ read_sign (pretty x +:+ s) = (false, pretty x +:+ s).
Proof.
  assert (∃ d s', (d < 10)%N ∧ pretty x = String (pretty_N_char d) s') as (d & s' & Hd & ->).
  { unfold pretty, pretty_N. case_decide; [by exists 0%N, EmptyString|]. apply pretty_N_go_first. lia. }
  assert (d = 0 ∨ d = 1 ∨ d = 2 ∨ d = 3 ∨ d = 4 ∨ d = 5 ∨ d = 6 ∨ d = 7 ∨ d = 8 ∨ d = 9)%N as Hcases by lia.
  destruct_or!; subst d; done.
Qed.

(** White space before the number and text behind it do not matter. *)
Lemma stoi_pretty ws (n : Z) s :
  all_spaces ws = true → no_digit s →
  stoi (ws +:+ pretty n +:+ s) =
    if bool_decide (- 2 ^ 31 ≤ n < 2 ^ 31) then Value n else Unexpected StoiOutOfRange.
Proof.
  intros Hws Hs. unfold stoi. rewrite skip_spaces_app by done.
  destruct n as [|p|p].
  - change (pretty 0) with (pretty 0%N). destruct (pretty_N_first 0 s) as [-> ->].
    by rewrite read_digits_pretty.
  - change (pretty (Z.pos p)) with (pretty (N.pos p)). destruct (pretty_N_first (N.pos p) s) as [-> ->].
    by rewrite read_digits_pretty.
  - change (read_sign (skip_spaces (pretty (Z.neg p) +:+ s))) with (true, pretty (N.pos p) +:+ s).
    cbv beta iota. by rewrite read_digits_pretty.
Qed.
