(* ===== verification/Main.v ===== *)
(** * main

    [app/src/main.cpp]: the arguments, the parts put together, the threads.
    What the machine decides is a [Platform]: the number of processors, whether
    a thread can be created, the readings of the system clock.  SQLite and the
    acceptor are those of [SqliteStore.v] and [TcpServer.v].

    [main] ends before its threads with an exit code or [std::terminate], or
    starts them and waits for them: [Serving].  From there [main_run] interleaves
    the handlers of the event loop and the thread of the snapshot writer. *)
From stdpp Require Import pretty.
From S2P Require Import Prelude CoreTypes Room RoomSpec RoomRefine RoomTrace RoomProps ServerCore.
From S2P Require Import CoreProps CoreStream Emptied Typing Messages Mappers JsonProtocol JsonSpec JsonModel.
From S2P Require Import SnapshotStore StrokeBlob SqliteStore SnapshotWriter SavedRuns.
From S2P Require Import Session SessionInv SessionProps Serve ServerTyping TcpServer Process Stoi.

Abbreviation u16 := (wrap 16).

Record Platform := mkPlatform {
  hardware_concurrency : Z;
  (** what the constructor of the i-th [std::thread] throws *)
  thread_error : nat → option string;
  system_clock : nat → Z;
}.

(** [what()]; the message of [std::bad_alloc] is that of GNU's library. *)
Definition exn_what (e : Exn) : string :=
  match e with
  | RuntimeError what | InvalidArgument what => what
  | BadAlloc => "std::bad_alloc"
  end.

(** [e.what()] for the exceptions of a call. *)
Definition throws {A E} (what : E → string) (r : Expected A E) : Expected A string :=
  match r with Value x => Value x | Unexpected e => Unexpected (what e) end.

(** The port: the first argument, or 5555. *)
Definition port_of (argv : list string) : Expected Z string :=
  match argv !! 1%nat with
  | None => Value 5555
  | Some arg =>
      match stoi arg with
      | Value n => Value (u16 n)
      | Unexpected e => Unexpected (stoi_what e)
      end
  end.

Definition dbPath_of (argv : list string) : string := default "clearspace_snapshots.db" (argv !! 2%nat).

Section Main.
Context `{HashOrder} `{JsonLib} `{SqliteLib} `{Allocator} `{AsioAcceptor} (os : Platform).

Abbreviation TcpServer := (@TcpServer (@LiveWriter ClockedStore) _).

(** [SqliteSnapshotStore(dbPath)]: nothing is opened yet. *)
Definition store_at (dbPath : string) : ClockedStore :=
  mkClocked (mkStore dbPath None 0) (system_clock os) 0.

(** A new writer is not being destroyed. *)
Lemma new_writer_live (store : option ClockedStore) keep w :
  new_writer store keep = Value w → destroy w = DNone.
Proof.
  unfold new_writer. destruct store as [σ|]; [|done]. by destruct (store_init σ) as [[|] ?]; intros [= <-].
Qed.

(** [std::make_shared<SnapshotWriter>(store)]. *)
Definition make_writer (σ : ClockedStore) : Expected LiveWriter Exn :=
  match new_writer (Some σ) 10 as r return new_writer (Some σ) 10 = r → Expected LiveWriter Exn with
  | Value w => λ E, Value (exist _ w (new_writer_live _ _ _ E))
  | Unexpected e => λ _, Unexpected e
  end eq_refl.

(** The parts, in the order they are made; the server listens on all IPv4 addresses. *)
Definition make_server (argv : list string) : Expected TcpServer string :=
  bind_expected (port_of argv) (λ port,
  bind_expected (throws exn_what (make_writer (store_at (dbPath_of argv)))) (λ writer,
  new_tcp_server (mkEndpoint V4 port) (new_core (Some writer)))).

(** Starts the threads [i], [i + 1], ..., [n] of them: the first that fails, if any. *)
Fixpoint start_threads (n i : nat) : option (nat * string) :=
  match n with
  | O => None
  | S n => match thread_error os i with Some what => Some (i, what) | None => start_threads n (S i) end
  end.

(** [EXIT_FAILURE] with the text on [std::cerr]; [std::terminate]; the threads run. *)
Inductive Outcome :=
  | ExitFailure (err : string)
  | Terminated
  | Serving (threads : Z) (server : TcpServer).

Definition failed (what : string) : Outcome :=
  ExitFailure ("Server failed: " +:+ what +:+ String (Ascii.ascii_of_nat 10) EmptyString).

Definition threadsCount : Z := Z.max 2 (hardware_concurrency os).

(** When a thread cannot be created the vector of the running ones is destroyed
    during the unwinding, and the destructor of a joinable thread terminates. *)
Definition main (argv : list string) : Outcome :=
  match make_server argv with
  | Unexpected what => failed what
  | Value server =>
      match start server with
      | None => Terminated
      | Some (_, server) =>
          match start_threads (Z.to_nat threadsCount) 0 with
          | Some (O, what) => failed what
          | Some (S _, _) => Terminated
          | None => Serving threadsCount server
          end
      end
  end.

(** ** Serving *)

Inductive MainOp :=
  | IoHandler (op : TcpOp)
  | SaverThread (woken : bool).

Definition main_step (op : MainOp) : M TcpServer unit :=
  match op with
  | IoHandler op => tcp_step op
  | SaverThread woken => on_server (process_step (WriterThread woken))
  end.

Fixpoint main_run (ops : list MainOp) : M TcpServer unit :=
  match ops with
  | [] => mret tt
  | op :: ops => main_step op ;; main_run ops
  end.

(** The same steps without the acceptor. *)
Definition process_ops (ops : list MainOp) : list ProcessOp :=
  omap (λ op, match op with
    | IoHandler (Completed op) => Some (Handler op)
    | IoHandler AcceptFailed => None
    | SaverThread woken => Some (WriterThread woken)
    end) ops.

Lemma main_run_process ops t p :
  listening t → process_run (process_ops ops) (server_ t) = Some (tt, p) →
  main_run ops t = Some (tt, with_server t p).
Proof.
  revert t. induction ops as [|op ops IH]; intros t Hl E; cbn [main_run process_ops omap list_omap] in *.
  { injection E as <-. by destruct t. }
  assert (∀ op', process_run (op' :: process_ops ops) (server_ t) = Some (tt, p) →
    ∃ p1, process_step op' (server_ t) = Some (tt, p1) ∧ main_run ops (with_server t p1) = Some (tt, with_server t p)) as Hstep.
  { intros op'. cbn [process_run]. unfold mbind, M_bind. destruct (process_step op' (server_ t)) as [[[] p1]|]; [|done].
    intros E1. exists p1. split; [done|]. by rewrite (IH (with_server t p1)). }
  unfold mbind, M_bind. destruct op as [[|op]|woken]; cbn [main_step].
  - rewrite tcp_step_listening by done. by apply IH.
  - apply Hstep in E as (p1 & E1 & E2). rewrite tcp_step_listening by done.
    cbn [process_step] in E1. by rewrite E1.
  - apply Hstep in E as (p1 & E1 & E2). unfold on_server. by rewrite E1.
Qed.

(** ** What [main] starts *)

Lemma make_writer_new σ w : make_writer σ = Value w → new_writer (Some σ) 10 = Value (`w).
Proof.
  unfold make_writer. generalize (eq_refl (new_writer (Some σ) 10)).
  generalize (new_writer (Some σ) 10) at 2 3. intros [w'|e] E; [|done]. by intros [= <-].
Qed.

Lemma make_writer_error σ e : make_writer σ = Unexpected e → fst (store_init σ) = Unexpected e.
Proof.
  unfold make_writer. generalize (eq_refl (new_writer (Some σ) 10)).
  assert (new_writer (Some σ) 10 = Unexpected e → fst (store_init σ) = Unexpected e) as Hn
    by (unfold new_writer; destruct (store_init σ) as [[|] ?]; [done|by intros [= <-]]).
  revert Hn. generalize (new_writer (Some σ) 10) at 1 3 4. intros [w'|e'] Hn E; [done|].
  intros [= <-]. by apply Hn.
Qed.

Lemma start_threads_first n i :
  match start_threads n i with
  | Some (j, what) => (i ≤ j < i + n)%nat ∧ thread_error os j = Some what ∧
      ∀ k, (i ≤ k < j)%nat → thread_error os k = None
  | None => ∀ k, (i ≤ k < i + n)%nat → thread_error os k = None
  end.
Proof.
  revert i. induction n as [|n IH]; intros i; simpl; [intros; lia|].
  destruct (thread_error os i) as [what|] eqn:E; [split_and!; [lia|lia|done|intros; lia]|].
  specialize (IH (S i)). destruct (start_threads n (S i)) as [[j what]|].
  - destruct IH as (Hj & He & Hn). split_and!; [lia|lia|done|]. intros k Hk.
    destruct (decide (k = i)) as [->|]; [done|]. apply Hn. lia.
  - intros k Hk. destruct (decide (k = i)) as [->|]; [done|]. apply IH. lia.
Qed.

(** A server that [main] started. *)
Lemma main_serving `{!AcceptorLaws} argv n t :
  main argv = Serving n t →
  ∃ (p : Z) (w : LiveWriter), port_of argv = Value p ∧ make_writer (store_at (dbPath_of argv)) = Value w ∧
    n = threadsCount ∧ listening t ∧ server_ t = new_server (Some w) ∧ (p ≠ 0 → port t = Value p) ∧
    ∀ i, (i < Z.to_nat n)%nat → thread_error os i = None.
Proof.
  unfold main, make_server. destruct (port_of argv) as [p|e]; [|done]. cbn [bind_expected].
  destruct (make_writer (store_at (dbPath_of argv))) as [w|e]; [|done]. cbn [bind_expected throws].
  destruct (new_tcp_server _ _) as [t0|e] eqn:E; [|done].
  apply new_tcp_server_ok in E as (Hs & Ha & Ho & Hp).
  destruct (start_listens t0 Ha Ho) as (t1 & -> & Hl & Hs1 & Ha1).
  pose proof (start_threads_first (Z.to_nat threadsCount) 0) as Hth.
  destruct (start_threads (Z.to_nat threadsCount) 0) as [[[|j] what]|]; [done..|]. intros [= <- <-].
  exists p, w. split_and!; try done.
  - by rewrite Hs1, Hs.
  - unfold port. rewrite Ha1. exact Hp.
  - intros i Hi. apply Hth. lia.
Qed.
End Main.

(** ** The theorems *)

(** C33. The port is the number the first argument begins with, after white
    space: itself from 0 to 65535, reduced modulo 65536 if it is any other [int],
    without an error; beyond [int], [stoi] throws. *)
Theorem port_argument (prog ws : string) (n : Z) (rest : string) (args : list string) :
  all_spaces ws = true → no_digit rest →
  let port := port_of (prog :: (ws +:+ pretty n +:+ rest) :: args) in
  (0 ≤ n < 65536 → port = Value n) ∧
  (- 2 ^ 31 ≤ n < 2 ^ 31 → port = Value (n mod 65536)) ∧
  (n < - 2 ^ 31 ∨ 2 ^ 31 ≤ n → port = Unexpected "stoi").
Proof.
  intros Hws Hr port. unfold port, port_of. simpl. rewrite stoi_pretty by done. split_and!; intros Hn.
  - rewrite bool_decide_eq_true_2 by lia. by rewrite wrap_small.
  - by rewrite bool_decide_eq_true_2 by lia.
  - by rewrite bool_decide_eq_false_2 by lia.
Qed.

Section Theorems.
Context `{HashOrder} `{JsonText} `{!JsonLaws} `{SqliteLib} `{Allocator} `{AcceptorLaws} (os : Platform).

(** The port was read, the database opened, the acceptor made. *)
Definition parts_made (argv : list string) (p : Z) : Prop :=
  port_of argv = Value p ∧ fst (store_init (store_at os (dbPath_of argv))) = Value tt ∧
  ∃ a, open_acceptor (mkEndpoint V4 p) acc_new = (Value tt, a).

(** [what] is the message of the first that fails, in this order: the port, the
    database, the acceptor, the first thread. *)
Definition first_failure (argv : list string) (what : string) : Prop :=
  port_of argv = Unexpected what ∨
  ∃ p, port_of argv = Value p ∧
    ((∃ e, fst (store_init (store_at os (dbPath_of argv))) = Unexpected e ∧ what = exn_what e) ∨
     (fst (store_init (store_at os (dbPath_of argv))) = Value tt ∧
      ∃ a, open_acceptor (mkEndpoint V4 p) acc_new = (Unexpected what, a)) ∨
     (parts_made argv p ∧ thread_error os 0 = Some what)).

Lemma make_writer_store σ w :
  make_writer σ = Value w → store_init σ = (Value tt, store_ (`w)) ∧ pushed (`w) = [].
Proof.
  intros Hw%make_writer_new. unfold new_writer in Hw. destruct (store_init σ) as [[[]|e] σ']; [|done].
  injection Hw as Hw. by rewrite <-Hw.
Qed.

(** What [make_server] gives. *)
Lemma make_server_outcome argv :
  match make_server os argv with
  | Value t => ∃ (p : Z) (w : LiveWriter), parts_made argv p ∧
      make_writer (store_at os (dbPath_of argv)) = Value w ∧
      new_tcp_server (mkEndpoint V4 p) (new_core (Some w)) = Value t
  | Unexpected what => first_failure argv what ∧ ¬ ∃ p, parts_made argv p
  end.
Proof.
  unfold make_server, first_failure, parts_made. destruct (port_of argv) as [p|what]; cbn [bind_expected].
  2:{ split; [by left|]. by intros (p & ? & _). }
  destruct (make_writer _) as [w|e] eqn:Ew; cbn [bind_expected throws].
  2:{ apply make_writer_error in Ew. split; [right; exists p; split; [done|]; left; by exists e|].
      intros (p' & _ & Hs & _). congruence. }
  apply make_writer_store in Ew as Es. destruct Es as [Es _].
  destruct (new_tcp_server _ _) as [t|what] eqn:Et; unfold new_tcp_server in Et;
    destruct (open_acceptor _ _) as [[[]|err] a] eqn:Ea; try done.
  - exists p, w. rewrite Es. split; [split_and!; eauto|]. split; [done|]. unfold new_tcp_server. by rewrite Ea.
  - injection Et as ->. rewrite Es. split.
    + right. exists p. split; [done|]. right. left. eauto.
    + intros (p' & [= <-] & _ & a' & Ha). congruence.
Qed.

(** C19. How [main] comes to its threads, or does not.  It fails with the message
    of the first part that cannot be made: the port, the database, the acceptor
    on that port, the first thread.  It is terminated exactly when all parts are
    made and a thread other than the first is the first that cannot be created.
    Otherwise it serves, with as many threads as there are processors and at least
    two, no room yet, the database open and one accept pending on its port. *)
Theorem main_outcome (argv : list string) :
  match main os argv with
  | Serving n t =>
      2 ≤ n ∧ n = threadsCount os ∧ (∀ i, (i < Z.to_nat n)%nat → thread_error os i = None) ∧
      acc_is_open (acceptor_ t) = true ∧ accepts t = 1%nat ∧
      ∃ (p : Z) (w : LiveWriter), parts_made argv p ∧ (p ≠ 0 → port t = Value p) ∧
        server_ t = new_server (Some w) ∧ pushed (`w) = [] ∧
        store_init (store_at os (dbPath_of argv)) = (Value tt, store_ (`w))
  | ExitFailure err =>
      ∃ what, err = "Server failed: " +:+ what +:+ String (Ascii.ascii_of_nat 10) EmptyString ∧ first_failure argv what
  | Terminated => (∃ p, parts_made argv p) ∧
      ∃ i what, (0 < i < Z.to_nat (threadsCount os))%nat ∧ thread_error os i = Some what ∧
        ∀ j, (j < i)%nat → thread_error os j = None
  end.
Proof.
  unfold main. pose proof (make_server_outcome argv) as Hmade. destruct (make_server os argv) as [t0|what].
  2:{ exists what. split; [done|apply Hmade]. }
  destruct Hmade as (p & w & Hparts & Hw & Et). apply make_writer_store in Hw as [Hst Hpu].
  apply new_tcp_server_ok in Et as (Hs & Ha & Ho & Hport). destruct (start_listens t0 Ha Ho) as (t1 & -> & [Ho1 Ha1] & Hs1 & Hacc).
  pose proof (start_threads_first os (Z.to_nat (threadsCount os)) 0) as Hth.
  destruct (start_threads _ _ _) as [[[|i] what]|].
  - destruct Hth as (_ & He & _). exists what. split; [done|]. right. exists p. split; [apply Hparts|]. eauto.
  - destruct Hth as (Hi & He & Hn). split; [by exists p|]. exists (S i), what. split_and!; [lia|lia|done|].
    intros j Hj. apply Hn. lia.
  - split_and!; [unfold threadsCount; lia|done|intros i Hi; apply Hth; lia|done|done|].
    exists p, w. split_and!; [done| |by rewrite Hs1, Hs|done|done]. unfold port. rewrite Hacc. exact Hport.
Qed.

End Theorems.

(** ** Witnesses *)

Lemma port_argument_witness :
  port_of ["clearspace"; " 70000th"] = Value 4464.
Proof.
  destruct (port_argument "clearspace" " " 70000 "th" []) as (_ & Hn & _); [reflexivity..|].
  etransitivity; [|etransitivity; [apply Hn; lia|reflexivity]]. vm_compute. reflexivity.
Defined.

#[local] Existing Instance elements_order.
#[local] Existing Instance memory_sqlite.
#[local] Existing Instance memory_laws.
#[local] Existing Instance roomy.

(** Four processors; a third thread cannot be created on [small_machine]. *)
Definition machine : Platform := mkPlatform 4 (λ _, None) (λ i, 1000 + Z.of_nat i).
Definition small_machine : Platform :=
  mkPlatform 4 (λ i, if bool_decide (i < 2)%nat then None else Some "Resource temporarily unavailable"%string)
    (λ i, 1000 + Z.of_nat i).

Lemma main_outcome_witness :
  main small_machine ["clearspace"; "5555"] = Terminated ∧
  (∃ p, parts_made small_machine ["clearspace"; "5555"] p) ∧
  ∃ i what, (0 < i < Z.to_nat (threadsCount small_machine))%nat ∧ thread_error small_machine i = Some what ∧
    ∀ j, (j < i)%nat → thread_error small_machine j = None.
Proof.
  assert (main small_machine ["clearspace"; "5555"] = Terminated) as E by (vm_compute; reflexivity).
  split; [exact E|]. pose proof (main_outcome small_machine ["clearspace"; "5555"]) as Hm.
  rewrite E in Hm. exact Hm.
Defined.

(** A client draws and leaves; the writer saves both snapshots and blocks. *)
Definition demo_main : list MainOp :=
  ((IoHandler ∘ Completed) <$> connect 1 ++ [say 1 CreateRoomRequest; say 1 (JoinRoomRequest 1);
    say 1 (StrokeBeginRequest 1 2 1 (mkPointDto 0 0)); say 1 (StrokeEndRequest 1)]) ++
  replicate 3 (SaverThread false) ++ [IoHandler AcceptFailed; IoHandler (Completed (say 1 (LeaveRoomRequest 1)))] ++
  replicate 6 (SaverThread false).

Abbreviation demo_process := (@TcpServer (@LiveWriter ClockedStore) _).

Definition some_process : demo_process := mkTcpServer (mkListener false None) 0 (new_server None).

Definition demo_started : demo_process :=
  match main machine ["clearspace"] with Serving _ t => t | _ => some_process end.

Definition idle_writer : LiveWriter :=
  exist _ (mkWriter (store_at machine "") 10 [] false 0 WCheck [] 0 [] DNone [] []) eq_refl.

(** The room when the client has left, and what was saved before. *)
Definition demo_room : Room :=
  match main_run demo_main demo_started with
  | Some (_, t) => default (new_room 1) (core_room (core_ (server_ t)) 1)
  | None => new_room 1
  end.

Definition demo_first : PersistedBoardSnapshot :=
  mkPersistedBoardSnapshot 1 2 [mkStroke 1 1 Green Medium 1 [mkPoint 0 0] true].

Lemma demo_serves : main machine ["clearspace"] = Serving 4 demo_started.
Proof.
  assert (match main machine ["clearspace"] with Serving n _ => n | _ => 0 end = 4) as Hs
    by (vm_compute; reflexivity).
  unfold demo_started. destruct (main machine ["clearspace"]) as [err| |n t]; [discriminate Hs..|]. by rewrite Hs.
Qed.

(** How the run ends: computed without writing out its states, which hold proofs. *)
Lemma demo_end :
  match main_run demo_main demo_started with
  | Some (_, t) => match snapshotSink_ (core_ (server_ t)) with
    | Some w => Some (worker_ (`w), q_ (`w), SnapshotWriter.handled (`w), core_room (core_ (server_ t)) 1)
    | None => None
    end
  | None => None
  end = Some (WBlocked, [], [demo_first; makePersistedSnapshot demo_room], Some demo_room).
Proof. vm_compute. reflexivity. Qed.

(** The second save is later than the first by the clock. *)
Lemma demo_later :
  saved_later (makePersistedSnapshot demo_room) (save_all 10 [demo_first] (snd (store_init (store_at machine "clearspace_snapshots.db")))).
Proof.
  split; [vm_compute; reflexivity|]. intros c r E Hr _. vm_compute in E. injection E as <-.
  vm_compute in Hr. apply list_elem_of_singleton in Hr as ->. vm_compute. reflexivity.
Qed.

