(* ===== verification/Wire.v ===== *)
(** * From the server to a client's board

    What a client makes of the lines it is sent: the first is the snapshot of
    its room, the others are events it replays ([client_view]).  A client that
    joins a room, stays connected and sends nothing more has in the end the
    board of the server: the theorem composes the room, the core, the sessions,
    the registry, the mappers and the JSON protocol. *)
From S2P Require Import Prelude CoreTypes Room RoomSpec RoomRefine RoomTrace RoomProps ServerCore.
From S2P Require Import CoreProps Membership CoreStream Typing Messages Mappers JsonProtocol JsonSpec.
From S2P Require Import JsonModel JsonProps Session SessionInv SessionProps Serve ServerTyping.

(** ** The client *)

(** The line without its end. *)
Fixpoint chomp (line : string) : string :=
  match line with
  | EmptyString | String _ EmptyString => EmptyString
  | String c line => String c (chomp line)
  end.

Lemma chomp_line s c : chomp (s +:+ String c EmptyString) = s.
Proof.
  induction s as [|a s IH]; [done|]. simpl. rewrite IH. by destruct s.
Qed.

Section Client.
Context `{JsonClient}.

Definition read_event (line : string) : option ServerEventPayload :=
  m ← readLine (chomp line); e ← readEvent m; Some e.2.

(** The board of a client that was sent these lines since it joined. *)
Definition client_view (lines : list string) : option BoardState :=
  match lines with
  | [] => None
  | line :: lines =>
      m ← readLine (chomp line);
      match m with
      | SnapshotResponse r => ps ← mapM read_event lines; Some (foldl replay (readBoard r) ps)
      | _ => None
      end
  end.
End Client.

(** ** Typed data survives the wire *)

Definition finite_point (p : Point) : Prop := point_finite (fromCorePoint p).

Lemma color_enum_u8 c : color_enum c = true → is_u8 (color_to_u8 c) ∧ color_ok c.
Proof. by destruct c. Qed.

Lemma thickness_enum_u8 t : thickness_enum t = true → is_u8 (thickness_to_u8 t) ∧ thickness_ok t.
Proof. by destruct t. Qed.

Lemma payload_typed_style p : payload_typed finite_point p → payload_style_ok p.
Proof.
  destruct p; simpl; try done. intros (_ & _ & _ & [_ ?]%color_enum_u8 & [_ ?]%thickness_enum_u8 & _).
  by split.
Qed.

Lemma event_message_ok e : out_typed finite_point e → message_ok (toServerMessage e).
Proof.
  intros (Hr & _ & Hs & Hp). unfold toServerMessage. destruct (ev_payload e); simpl in *; destruct_and?;
    split_and!; try done; [by apply color_enum_u8|by apply thickness_enum_u8].
Qed.

Lemma stroke_typed_dto s : stroke_typed finite_point s → stroke_dto_ok (fromCoreStroke s) ∧ stroke_style_ok s.
Proof.
  intros [A B C [D1 D2]%color_enum_u8 [E1 E2]%thickness_enum_u8 F]. split; [|by split].
  split_and!; simpl; try done. by apply Forall_fmap.
Qed.

Lemma snapshot_message_ok `{HashOrder} snap :
  snapshot_typed finite_point snap → message_ok (toSnapshotMessage snap).
Proof.
  intros [A B [C D] E]. simpl. split_and!; try done.
  - by rewrite (merge_sort_Permutation Z.le).
  - apply Forall_fmap. eapply Forall_impl; [exact C|]. intros s Hs. by apply stroke_typed_dto.
  - rewrite (merge_sort_Permutation cursor_le). apply Forall_fmap, Forall_forall.
    intros [c p] Hin%map_order_elem. by destruct (D c p Hin).
Qed.

Section Lines.
Context `{HashOrder} `{JsonClient}.

Lemma readLine_wire m line : message_ok m → wire m = Some line → readLine (chomp line) = Some m.
Proof.
  unfold wire, serializeServerMessage. intros Hok (j & Hj & ->)%fmap_Some. rewrite chomp_line.
  unfold readLine. rewrite (parse_dump _ j (message_plain m Hok) Hj). by apply message_decode.
Qed.

Lemma read_event_wire e line :
  out_typed finite_point e → wire (toServerMessage e) = Some line → read_event line = Some (ev_payload e).
Proof.
  intros He Hw. unfold read_event. rewrite (readLine_wire _ _ (event_message_ok e He) Hw). simpl.
  rewrite toServerMessage_readEvent; [done|]. apply payload_typed_style, He.
Qed.

(** The lines of events that can be written are read back as these events. *)
Lemma read_event_lines d evs :
  Forall (out_typed finite_point) evs → (∀ e, e ∈ evs → is_Some (wire (toServerMessage e))) →
  mapM read_event (event_lines d evs) = Some (ev_payload <$> filter (λ e, ev_to e = d) evs).
Proof.
  intros Ht Hw. unfold event_lines. induction evs as [|e evs IH]; [done|].
  apply Forall_cons in Ht as [He Ht]. rewrite filter_cons.
  assert (mapM read_event (omap (λ e, wire (toServerMessage e)) (filter (λ e, ev_to e = d) evs)) =
    Some (ev_payload <$> filter (λ e, ev_to e = d) evs)) as IH' by (apply IH; [done|]; intros; apply Hw; by right).
  case_decide; [|exact IH']. destruct (Hw e) as [line Hl]; [by left|]. simpl. rewrite Hl. simpl.
  rewrite (read_event_wire e line He Hl). simpl. unfold omap in IH'. by rewrite IH'.
Qed.

Lemma client_view_lines snap line d evs :
  snapshot_typed finite_point snap → wire (toSnapshotMessage snap) = Some line →
  Forall (out_typed finite_point) evs → (∀ e, e ∈ evs → is_Some (wire (toServerMessage e))) →
  client_view (line :: event_lines d evs) =
    Some (replay_all (snap_state snap) (filter (λ e, ev_to e = d) evs)).
Proof.
  intros Hs Hl He Hw. unfold client_view. rewrite (readLine_wire _ _ (snapshot_message_ok snap Hs) Hl). simpl.
  rewrite (read_event_lines d evs He Hw). simpl. unfold replay_all. do 2 f_equal.
  apply toSnapshotResponse_readBoard. eapply Forall_impl; [apply Hs|]. intros s Hst. by apply stroke_typed_dto.
Qed.
End Lines.

(** ** One call seen by a viewer *)

Section Core.
Context `{HashOrder} {Σ : Type} `{SnapshotSink Σ}.

(** A call by another client takes the copy of the board of the client [d],
    that is in this room only, to the next board. *)
Lemma core_call_view op k (s s' : @ServerCore Σ) y d room r :
  core_wf s → core_headroom k s → 1 ≤ k → core_room s room = Some r →
  (∀ room', core_member s room' d ↔ room' = room) →
  match op with CoreRoom _ op => op_client op ≠ d | CoreCreate => True end →
  core_call op s = Some (y, s') →
  ∃ r', core_room s' room = Some r' ∧
    replay_all (board_ r) (filter (λ e, ev_to e = d) (reply_events y)) = board_ r'.
Proof.
  intros wf hr Hk Er Hd Hop E. destruct op as [|ptr op].
  - rewrite createRoom_step in E by (done || destruct hr; lia). injection E as <- <-. exists r. split; [|done].
    unfold core_room. simpl. rewrite lookup_insert. case_decide as Hn; [|done]. subst room.
    assert (is_Some (core_room s (nextRoomId_ (core_rooms s)))) as HS%(cw_rooms s wf) by eauto. lia.
  - destruct (core_room s ptr) as [rp|] eqn:Ep.
    2:{ rewrite core_call_missing in E by done. injection E as <- <-. exists r. split; [done|]. by destruct op. }
    destruct (cw_room s wf ptr rp Ep) as [_ wr].
    assert (headroom 2 rp) as h2 by (destruct hr as [_ hr]; specialize (hr _ _ Ep); unfold headroom in *; lia).
    destruct (room_call_refines op rp wr h2) as (yr & rp' & Ey & S & _).
    rewrite (core_call_present s ptr op rp yr rp') in E by done. injection E as <- <-.
    rewrite core_room_save, core_room_set. case_bool_decide as Hp.
    + subst ptr. rewrite Ep in Er. injection Er as ->. exists rp'. split; [done|].
      assert (d ∈ members_ r) as Hin.
      { destruct (proj2 (Hd room) eq_refl) as (r1 & Hr1 & Hin). rewrite Ep in Hr1. by injection Hr1 as ->. }
      pose proof (spec_call_sees (abs_room r) op d (wf_drawing_unique r wr) Hin Hop) as (_ & Hb & _).
      rewrite S in Hb. simpl in Hb. rewrite <-Hb. by destruct yr as [|[]].
    + exists r. split; [done|]. rewrite filter_none; [done|]. intros e He Hto.
      destruct (room_call_members op rp yr rp' wr h2 Ey) as [_ Hf].
      assert (ev_to e ∈ members_ rp) as Hin.
      { destruct op, yr as [|[]]; simpl in *; try done; try (by apply elem_of_nil in He);
          rewrite Forall_forall in Hf; by apply Hf. }
      apply Hp, Hd. exists rp. by rewrite <-Hto.
Qed.
End Core.

(** ** A viewer *)

Section Viewer.
Context `{HashOrder} {Σ : Type} `{SnapshotSink Σ}.
Context {JL : JsonLib} {JLaws : JsonLaws} {JC : JsonClient} {JT : JsonText}.
Implicit Types s : @Server Σ.

(** [d] was sent, after the lines [base] and the snapshot, the events [evs]. *)
Record viewing (d : ClientId) (room : RoomId) (base : list string) (b : BoardState) s : Prop := {
  vw_typed : core_typed finite_point (core_ s);
  vw_view : ∃ ss evs r, sessions s !! d = Some ss ∧ currentRoom_ ss = Some room ∧
    delivered ss = base ++ event_lines d evs ∧ Forall (out_typed finite_point) evs ∧
    core_room (core_ s) room = Some r ∧ replay_all b (filter (λ e, ev_to e = d) evs) = board_ r;
}.

(** Not a line from [d]. *)
Definition no_line (d : ClientId) (op : ServerOp) : Prop :=
  ∀ now line, op ≠ ReadDone d now (Some line).

Lemma reply_typed_events y : core_reply_typed finite_point y → Forall (out_typed finite_point) (reply_events y).
Proof. destruct y as [|[[]|[]]]; simpl; try done; by constructor. Qed.

Lemma replay_all_app b evs evs' : replay_all b (evs ++ evs') = replay_all (replay_all b evs) evs'.
Proof. unfold replay_all. by rewrite fmap_app, foldl_app. Qed.

(** A step of another session. *)
Lemma viewing_other op k s s' d room base b :
  server_inv k s → 1 ≤ k → op_points finite_point op → actor op s ≠ d → d ∈ registry_ s →
  server_step op s = Some (tt, s') → viewing d room base b s → viewing d room base b s'.
Proof.
  intros I Hk Hp Ha Hreg E [HT (ss & evs & r & Hs & Hr & Hdel & Hev & Er & Hb)].
  destruct (step_call finite_point op k s s' I ltac:(lia) Hp E) as (cs & Hlen & Hcs & Hc & Ho).
  destruct (core_calls_typed finite_point cs.*1 k (core_ s) cs.*2 (core_ s')) as (HT' & Hy & _);
    [apply I|apply I|rewrite length_fmap; lia|by eapply by_client_typed|done|done|].
  destruct (inv_alive _ _ _ I Hreg) as (ss1 & Hs1 & Hal). rewrite Hs in Hs1. injection Hs1 as <-.
  destruct (Ho d ss (not_eq_sym Ha) Hreg Hs Hal) as [_ Hs'].
  split; [done|]. exists (post_lines (event_lines d (cs.*2 ≫= reply_events)) ss), (evs ++ (cs.*2 ≫= reply_events)).
  assert (Forall (out_typed finite_point) (cs.*2 ≫= reply_events)) as Hev'.
  { apply Forall_bind. eapply Forall_impl; [exact Hy|]. intros y. apply reply_typed_events. }
  assert (∃ r', core_room (core_ s') room = Some r' ∧
    replay_all (board_ r) (filter (λ e, ev_to e = d) (cs.*2 ≫= reply_events)) = board_ r') as (r' & Er' & Hb').
  { destruct cs as [|[op1 y1] [|]]; simpl in *; [|clear Hlen|lia].
    - injection Hc as <-. by exists r.
    - unfold mbind, M_bind in Hc. destruct (core_call op1 (core_ s)) as [[y2 co]|] eqn:Ec; [|done].
      injection Hc as <- <-. rewrite app_nil_r.
      eapply (core_call_view op1 k (core_ s)); [apply I|apply I|lia|done| | |exact Ec].
      + intros room'. rewrite (member_here k s d ss room' I Hs), Hr. split; [by intros [= ->]|by intros ->].
      + apply Forall_cons in Hcs as [[_ Hop] _]. destruct op1; [done|]. by rewrite Hop. }
  exists r'. split_and!; [done|done| |by apply Forall_app|done|].
  - simpl. by rewrite Hdel, event_lines_app, app_assoc.
  - by rewrite filter_app, replay_all_app, Hb.
Qed.

Lemma viewing_step op k s s' d room base b :
  server_inv k s → 1 ≤ k → op_points finite_point op → no_line d op → d < nextClientId_ s →
  d ∈ registry_ s → d ∈ registry_ s' →
  server_step op s = Some (tt, s') → viewing d room base b s → viewing d room base b s'.
Proof.
  intros I Hk Hp Hl Hd Hreg Hreg' E V. destruct (decide (actor op s = d)) as [Ha|Ha]; [|by eapply viewing_other].
  destruct V as [HT (ss & evs & r & Hs & Hr & Hdel & He & Er & Hb)].
  destruct (own_step op k s s' d ss) as [Hc (ss' & Hs' & Hd' & Hr')]; try done.
  { intros ->. simpl in Ha. lia. }
  split; [by rewrite Hc|]. exists ss', evs, r. rewrite Hc, Hd', Hr'. by split_and!.
Qed.

Lemma run_registered ops k s s' d :
  server_inv k s → Z.of_nat (length ops) ≤ k → Forall op_text ops → d < nextClientId_ s →
  server_run ops s = Some (tt, s') → d ∈ registry_ s' → d ∈ registry_ s.
Proof.
  revert k s. induction ops as [|op ops IH]; intros k s I Hk Ht Hd E Hreg; [by injection E as <-|].
  apply Forall_cons in Ht as [Hop Ht]. simpl length in Hk.
  destruct (step_run op k s I ltac:(lia) Hop) as (s1 & E1 & I1).
  rewrite (server_run_cons op ops s s1 E1) in E.
  destruct (step_registered op k s s1 d I ltac:(lia) Hd E1) as [Hd1 Hr1].
  apply Hr1. apply (IH (k - 1) s1 I1); [lia|done..].
Qed.

Lemma viewing_run ops k s s' d room base b :
  server_inv k s → Z.of_nat (length ops) ≤ k → Forall op_text ops → Forall (op_points finite_point) ops →
  Forall (no_line d) ops → d < nextClientId_ s → server_run ops s = Some (tt, s') → d ∈ registry_ s' →
  viewing d room base b s → viewing d room base b s'.
Proof.
  revert k s. induction ops as [|op ops IH]; intros k s I Hk Ht Hp Hl Hd E Hreg V; [by injection E as <-|].
  apply Forall_cons in Ht as [Hop Ht], Hp as [Hpo Hp], Hl as [Hlo Hl]. simpl length in Hk.
  destruct (step_run op k s I ltac:(lia) Hop) as (s1 & E1 & I1).
  assert (d ∈ registry_ s) as Hreg0.
  { apply (run_registered (op :: ops) k s s'); [done|simpl; lia|by constructor|done..]. }
  rewrite (server_run_cons op ops s s1 E1) in E.
  destruct (step_registered op k s s1 d I ltac:(lia) Hd E1) as [Hd1 _].
  assert (d ∈ registry_ s1) as Hreg1 by (apply (run_registered ops (k - 1) s1 s'); [done|lia|done..]).
  apply (IH (k - 1) s1 I1); [lia|done..|].
  apply (viewing_step op k s s1); [done|lia|done..].
Qed.

(** A join of a room that exists, by the core. *)
Lemma join_call k (co : @ServerCore Σ) d room r :
  core_wf co → core_headroom k co → 1 ≤ k → is_u64 d → core_typed finite_point co → core_room co room = Some r →
  ∃ snap co' r', joinRoom d room co = Some (Value snap, co') ∧ core_typed finite_point co' ∧
    snapshot_typed finite_point snap ∧ snap_state snap = board_ r' ∧ core_room co' room = Some r'.
Proof.
  intros wf hr Hk Hd HT Er. destruct (cw_room co wf room r Er) as [_ wr].
  assert (headroom 2 r) as h2 by (destruct hr as [_ hr]; specialize (hr _ _ Er); unfold headroom in *; lia).
  destruct (room_call_refines (OpJoin d) r wr h2) as (y & r' & Ey & S & _).
  pose proof (core_call_present co room (OpJoin d) r y r' Er Ey) as Ec.
  assert (∃ snap, y = ReplySnapshot (Value snap) ∧ snap_state snap = board_ r') as (snap & -> & Hb).
  { apply (f_equal (λ p, (p.1, sp_board p.2))) in S. injection S as <- <-. by eexists. }
  destruct (core_call_typed finite_point (CoreRoom room (OpJoin d)) k co _ _ wf hr Hk ltac:(done) Ec HT) as (HT' & Hy & _).
  simpl in Ec. unfold mbind, M_bind in Ec. destruct (joinRoom d room co) as [[[sn|e] co1]|] eqn:Ej; [|done..].
  injection Ec as -> ->. exists snap, (set_room room r' co), r'. split_and!; [done..|].
  rewrite core_room_set. by rewrite bool_decide_eq_true_2.
Qed.

Lemma join_viewing k s s' now line room d ss r :
  server_inv k s → 1 ≤ k → sessions s !! d = Some ss → reading ss = true →
  parseClientMessage line = Value (JoinRoomRequest room) →
  currentRoom_ ss = None ∨ currentRoom_ ss = Some room → core_room (core_ s) room = Some r →
  core_typed finite_point (core_ s) → server_step (ReadDone d now (Some line)) s = Some (tt, s') →
  ∃ snap jl, snapshot_typed finite_point snap ∧ wire (toSnapshotMessage snap) = Some jl ∧
    viewing d room (delivered ss ++ [jl]) (snap_state snap) s'.
Proof.
  intros I Hk Hs Hread Hparse Hroom Er HT E.
  assert (is_u64 d) as Hd by (apply (actor_u64 k (Stop d) s I); [lia|left; by exists ss]).
  destruct (join_call k (core_ s) d room r) as (snap & co & r' & Ej & HT' & Hsn & Hb & Er'); [apply I|apply I|done..|].
  destruct (message_wire (toSnapshotMessage snap)) as [jl Hjl]; [done|]. exists snap, jl. split_and!; [done..|].
  set (ss1 := post_line jl (set_room_of (Some room) ss)).
  assert (handleLine now d line s = Some (tt, upd d (λ _, ss1) (with_core co s))) as Eh.
  { unfold handleLine. rewrite Hparse. unfold handleMessage. eapply bind_run; [by apply this_run|].
    rewrite bool_decide_eq_false_2 by naive_solver. eapply bind_run; [by apply on_core_run|].
    eapply bind_run; [reflexivity|]. unfold wire in Hjl. apply fmap_Some in Hjl as (j & Hj & ->).
    unfold deliver. rewrite Hj.
    change (Some (tt, upd d (post_line (j +:+ String (Ascii.ascii_of_nat 10) EmptyString))
      (upd d (set_room_of (Some room)) (with_core co s))) = Some (tt, upd d (λ _, ss1) (with_core co s))).
    rewrite upd_upd. do 2 f_equal. by apply (upd_const d (λ ss0, post_line _ (set_room_of (Some room) ss0))). }
  cbn [server_step] in E. unfold when_due in E. unfold mbind at 1, M_bind at 1, get at 1 in E.
  rewrite Hs, Hread in E. unfold onReadLine in E.
  rewrite (bind_run _ _ _ _ _ (Some (tt, upd d (λ _, read_done ss1) (upd d (λ _, ss1) (with_core co s)))) Eh) in E
    by (apply read_effect; by apply (upd_self d (λ _, ss1) (with_core co s) ss)).
  injection E as <-. split; [done|]. exists (read_done ss1), [], r'. split_and!; try done.
  - simpl. by rewrite !lookup_alter_eq, Hs.
  - simpl. by rewrite app_nil_r.
Qed.
End Viewer.

(** ** The theorem *)

Section EndToEnd.
Context `{HashOrder} {Σ : Type} `{SnapshotSink Σ}.
Context {JL : JsonLib} {JLaws : JsonLaws} {JC : JsonClient} {JT : JsonText}.

(** A client that joins a room, is still connected, and has sent no line
    since, can read its board from the lines it was sent: the snapshot and
    then the events, decoded and replayed in order, give exactly the board the
    server has now; so when its queue is empty, the lines written do.  The
    requests have finite coordinates. *)
Theorem viewer_sees_board (sink : option Σ) ops1 ops2 d now line room s1 s ss1 ss r :
  reached 0 sink (ops1 ++ ReadDone d now (Some line) :: ops2) s →
  Forall (op_points finite_point) (ops1 ++ ReadDone d now (Some line) :: ops2) →
  server_run ops1 (new_server sink) = Some (tt, s1) →
  sessions s1 !! d = Some ss1 → reading ss1 = true →
  currentRoom_ ss1 = None ∨ currentRoom_ ss1 = Some room → is_Some (core_room (core_ s1) room) →
  parseClientMessage line = Value (JoinRoomRequest room) → Forall (no_line d) ops2 →
  d ∈ registry_ s → sessions s !! d = Some ss → core_room (core_ s) room = Some r →
  client_view (drop (length (delivered ss1)) (delivered ss)) = Some (board_ r) ∧
  (writeQueue_ ss = [] → posted ss = [] →
   client_view (drop (length (delivered ss1)) (written ss)) = Some (board_ r)).
Proof.
  intros Hreach Hp E1 Hs1 Hread Hroom [r1 Er1] Hparse Hl Hreg Hs Er.
  pose proof (reached_inv _ _ _ _ Hreach) as I. destruct Hreach as (Hlt & Ht & E).
  rewrite length_app in Hlt. simpl length in Hlt. apply Forall_app in Ht as [Ht1 Ht2], Hp as [Hp1 Hp2].
  apply Forall_cons in Ht2 as [Htj Ht2], Hp2 as [Hpj Hp2].
  pose proof (inv_start sink (Z.of_nat (length ops1 + S (length ops2))) ltac:(lia) ltac:(lia)) as I0.
  destruct (run_inv ops1 _ _ I0 ltac:(lia) Ht1) as (s1' & E1' & I1).
  rewrite E1 in E1'. injection E1' as <-. set (k := Z.of_nat (S (length ops2))).
  apply (inv_mono _ k) in I1; [|lia].
  destruct (run_typed finite_point ops1 _ _ s1 I0 ltac:(lia) Ht1 Hp1 E1 (new_core_typed _ sink)) as [HT1 _].
  rewrite server_run_app in E. unfold mbind, M_bind in E. rewrite E1 in E.
  destruct (step_run (ReadDone d now (Some line)) k s1 I1 ltac:(lia) Htj) as (s2 & E2 & I2).
  rewrite (server_run_cons _ _ _ _ E2) in E.
  destruct (join_viewing k s1 s2 now line room d ss1 r1) as (snap & jl & Hsn & Hjl & V); [done|lia|done..|].
  assert (d < nextClientId_ s2) as Hd by (apply (si_fresh _ _ I2); by destruct (vw_view _ _ _ _ _ V) as (? & _ & _ & -> & _)).
  destruct (viewing_run ops2 (k - 1) s2 s d room (delivered ss1 ++ [jl]) (snap_state snap) I2)
    as [_ (ss' & evs & r' & Hs' & _ & Hdel & Hev & Er' & Hb)]; [lia|done..|].
  rewrite Hs in Hs'. injection Hs' as <-. rewrite Er in Er'. injection Er' as <-.
  assert (client_view (drop (length (delivered ss1)) (delivered ss)) = Some (board_ r)) as Hview.
  { rewrite Hdel, <-app_assoc, drop_app_length. simpl app. rewrite (client_view_lines snap jl d evs); [by rewrite Hb|done..|].
    intros e _. apply message_wire, toServerMessage_text. }
  split; [done|]. intros Hq Hpo. pose proof (sv_stream _ (si_session _ _ I d ss Hs)) as Hst.
  unfold queued_lines in Hst. rewrite Hq, Hpo in Hst. simpl in Hst. rewrite app_nil_r in Hst. by rewrite <-Hst.
Qed.
End EndToEnd.

(** ** A run with a viewer *)

#[local] Existing Instance elements_order.

(** The second client joins while the first draws. *)
Definition before_join : list ServerOp :=
  connect 1 ++ connect 2 ++
  [say 1 CreateRoomRequest; say 1 (JoinRoomRequest 1); say 1 (StrokeBeginRequest 1 2 1 (mkPointDto 0 0))].

Definition after_join : list ServerOp :=
  [say 1 (StrokePointRequest 1 (mkPointDto 0 0)); RunPosted 2; say 1 (CursorMoveRequest 1 (mkPointDto 0 0));
   WriteDone 2 true; say 1 (StrokeEndRequest 1)].

Definition watching : list ServerOp := before_join ++ say 2 (JoinRoomRequest 1) :: after_join.

Lemma watching_reached : reached 0 (Some []) watching (server_after watching).
Proof.
  split; [by vm_compute|]. split; [|vm_compute; reflexivity].
  unfold watching, before_join, after_join, connect, say. cbn [app]. by_text.
Defined.

(** Checks the coordinates of a concrete run. *)
Ltac by_points :=
  repeat first
    [ apply Forall_nil | apply Forall_cons; split | exact Logic.I
    | intros ? E; vm_compute in E; injection E as <-; first [exact Logic.I | by_decision] ].

Lemma watching_points : Forall (op_points finite_point) watching.
Proof. unfold watching, before_join, after_join, connect, say. cbn [app]. by_points. Defined.
