(* ===== verification/Framing.v ===== *)
(** * The lines of a connection

    [ClientSession::doReadLine] and [onReadLine], lines 57 to 86, down to the
    bytes: [async_read_until] completes when [readBuffer_] holds a newline, and
    [std::getline] takes the line out of it.  TCP delivers the bytes of a client
    in pieces of any size.  [net_step] is the server of [Session.v] with these
    buffers; [performed] is the history of the steps it made. *)
From S2P Require Import Prelude CoreTypes Room RoomSpec RoomRefine RoomTrace RoomProps ServerCore.
From S2P Require Import CoreProps Messages Mappers JsonProtocol JsonSpec JsonModel JsonProps.
From S2P Require Import Session SessionInv SessionProps.

(** ** Lines *)

Definition newline : Ascii.ascii := Ascii.ascii_of_nat 10.
Definition line_end : string := String newline EmptyString.

(** [std::getline] on a buffer that holds a newline: the line, and what is left. *)
Fixpoint getline (buffer : string) : option (string * string) :=
  match buffer with
  | EmptyString => None
  | String c buffer =>
      if Ascii.eqb c newline then Some (EmptyString, buffer)
      else match getline buffer with
           | Some (line, rest) => Some (String c line, rest)
           | None => None
           end
  end.

(** The complete lines of a text, and the line that is not complete yet. *)
Fixpoint split_lines (s : string) : list string * string :=
  match s with
  | EmptyString => ([], EmptyString)
  | String c s =>
      let '(ls, rest) := split_lines s in
      if Ascii.eqb c newline then (EmptyString :: ls, rest)
      else match ls with
           | [] => ([], String c rest)
           | l :: ls => (String c l :: ls, rest)
           end
  end.

(** The text of these lines. *)
Definition unlines (ls : list string) : string := foldr (λ l s, l +:+ line_end +:+ s) EmptyString ls.

Definition one_line (s : string) : Prop := getline s = None.

Lemma string_app_assoc s1 s2 s3 : (s1 +:+ s2) +:+ s3 = s1 +:+ s2 +:+ s3.
Proof. induction s1 as [|c s1 IH]; [done|]. exact (f_equal (String c) IH). Qed.

Lemma string_app_empty s : s +:+ EmptyString = s.
Proof. induction s as [|c s IH]; [done|]. exact (f_equal (String c) IH). Qed.

(** Taking lines out one by one is splitting. *)
Lemma getline_split s :
  match getline s with
  | Some (l, rest) => split_lines s = (l :: (split_lines rest).1, (split_lines rest).2)
  | None => split_lines s = ([], s)
  end.
Proof.
  induction s as [|c s IH]; [done|]. simpl. destruct (Ascii.eqb c newline).
  - by destruct (split_lines s).
  - destruct (getline s) as [[l rest]|]; by rewrite IH.
Qed.

(** What arrives later completes the last line and does not change the others. *)
Lemma split_lines_app s1 s2 :
  split_lines (s1 +:+ s2) =
    ((split_lines s1).1 ++ (split_lines ((split_lines s1).2 +:+ s2)).1,
     (split_lines ((split_lines s1).2 +:+ s2)).2).
Proof.
  induction s1 as [|c s1 IH]; [simpl; change (EmptyString +:+ s2) with s2; by destruct (split_lines s2)|].
  change (String c s1 +:+ s2) with (String c (s1 +:+ s2)). cbn [split_lines]. rewrite IH. destruct (split_lines s1) as [[|l ls] rest] eqn:E; simpl;
    destruct (Ascii.eqb c newline) eqn:Ec; simpl; rewrite ?Ec; try done.
  by destruct (split_lines (rest +:+ s2)) as [[|l ls] ?].
Qed.

Lemma split_line l s :
  one_line l → split_lines (l +:+ line_end +:+ s) = (l :: (split_lines s).1, (split_lines s).2).
Proof.
  unfold one_line. induction l as [|c l IH]; [intros _; change (EmptyString +:+ line_end +:+ s) with (String newline s); simpl; by destruct (split_lines s)|].
  change (String c l +:+ line_end +:+ s) with (String c (l +:+ line_end +:+ s)). cbn [split_lines getline].
  destruct (Ascii.eqb c newline); [done|]. destruct (getline l) as [[]|] eqn:El; [done|]. intros _.
  by rewrite IH.
Qed.

Lemma split_unlines ls : Forall one_line ls → split_lines (unlines ls) = (ls, EmptyString).
Proof. induction 1 as [|l ls Hl _ IH]; [done|]. simpl unlines. by rewrite split_line, IH. Qed.

(** ** The server with its buffers *)

Section Net.
Context `{HashOrder} {Σ : Type} `{SnapshotSink Σ} `{JsonLib}.

Record NetServer := mkNetServer {
  net_server : @Server Σ;
  readBuffers : gmap ClientId string;
  performed : list ServerOp;
}.

Definition new_net (sink : option Σ) : NetServer := mkNetServer (new_server sink) ∅ [].

(** Bytes arrive; a read completes with a line; another operation completes. *)
Inductive NetOp :=
  | Receive (c : ClientId) (bytes : string)
  | LineRead (c : ClientId) (now : TimePoint)
  | Other (op : ServerOp).

Definition buffer (c : ClientId) (ns : NetServer) : string := default EmptyString (readBuffers ns !! c).

Definition set_buffer (c : ClientId) (bytes : string) (ns : NetServer) : NetServer :=
  mkNetServer (net_server ns) (<[c := bytes]> (readBuffers ns)) (performed ns).

Definition perform (op : ServerOp) : M NetServer unit := λ ns,
  match server_step op (net_server ns) with
  | Some (_, s) => Some (tt, mkNetServer s (readBuffers ns) (performed ns ++ [op]))
  | None => None
  end.

Definition is_reading (c : ClientId) (ns : NetServer) : bool :=
  match sessions (net_server ns) !! c with Some ss => reading ss | None => false end.

Definition net_step (op : NetOp) : M NetServer unit :=
  match op with
  | Receive c bytes => modify (λ ns, set_buffer c (buffer c ns +:+ bytes) ns)
  | LineRead c now =>
      ns ← get;
      if negb (is_reading c ns) then mret tt else
      match getline (buffer c ns) with
      | None => mret tt
      | Some (line, rest) => modify (set_buffer c rest) ;; perform (ReadDone c now (Some line))
      end
  | Other (ReadDone _ _ (Some _)) => mret tt
  | Other op => perform op
  end.

Fixpoint net_run (ops : list NetOp) : M NetServer unit :=
  match ops with
  | [] => mret tt
  | op :: ops => net_step op ;; net_run ops
  end.

(** The bytes that arrived from [c], and the lines that were handled. *)
Definition received (c : ClientId) (ops : list NetOp) : string :=
  foldr (λ op s, match op with Receive c' b => if bool_decide (c' = c) then b +:+ s else s | _ => s end)
    EmptyString ops.

Definition lines_of (c : ClientId) (ops : list ServerOp) : list string :=
  omap (λ op, match op with
    | ReadDone c' _ (Some line) => if bool_decide (c' = c) then Some line else None
    | _ => None
    end) ops.

Lemma lines_of_snoc c ops op :
  lines_of c (ops ++ [op]) = lines_of c ops ++
    match op with ReadDone c' _ (Some line) => if bool_decide (c' = c) then [line] else [] | _ => [] end.
Proof.
  unfold lines_of. rewrite omap_app. f_equal. destruct op as [|c' now [line|]|c' ok|c'|c']; try done.
  simpl. by case_bool_decide.
Qed.

(** The lines handled and those that wait are those that arrived. *)
Definition framed (before : ClientId → list string * string) (ns : NetServer) : Prop := ∀ c,
  lines_of c (performed ns) ++ (split_lines (buffer c ns)).1 = (before c).1 ∧
  (split_lines (buffer c ns)).2 = (before c).2.

Lemma buffer_set c c' b ns : buffer c (set_buffer c' b ns) = if bool_decide (c' = c) then b else buffer c ns.
Proof. unfold buffer, set_buffer. simpl. rewrite lookup_insert. by case_decide; case_bool_decide. Qed.

(** Bytes arrive: [text c] is what arrived from [c] before. *)
Lemma framed_receive text c bytes ns :
  framed (λ d, split_lines (text d)) ns →
  framed (λ d, split_lines (if bool_decide (c = d) then text d +:+ bytes else text d))
    (set_buffer c (buffer c ns +:+ bytes) ns).
Proof.
  intros Hf d. destruct (Hf d) as [Hl Hr]. rewrite buffer_set. case_bool_decide; [|done]. subst d.
  rewrite (split_lines_app (buffer c ns)), (split_lines_app (text c)), <-Hl, <-Hr. simpl. by rewrite app_assoc.
Qed.

Lemma framed_line before c now line rest ns s :
  framed before ns → getline (buffer c ns) = Some (line, rest) →
  framed before (mkNetServer s (readBuffers (set_buffer c rest ns))
    (performed ns ++ [ReadDone c now (Some line)])).
Proof.
  intros Hf Hg d. destruct (Hf d) as [Hl Hr]. pose proof (getline_split (buffer c ns)) as Hs.
  rewrite Hg in Hs. change (buffer d (mkNetServer s (readBuffers (set_buffer c rest ns)) (performed ns ++ [ReadDone c now (Some line)])))
    with (buffer d (set_buffer c rest ns)). rewrite buffer_set. simpl performed. rewrite lines_of_snoc.
  case_bool_decide as Hc; [|by rewrite app_nil_r]. subst d. rewrite Hs in Hl, Hr. simpl in *.
  by rewrite <-app_assoc.
Qed.

Lemma framed_other before op ns s :
  framed before ns → match op with ReadDone _ _ (Some _) => False | _ => True end →
  framed before (mkNetServer s (readBuffers ns) (performed ns ++ [op])).
Proof.
  intros Hf Hop d. destruct (Hf d) as [Hl Hr]. split; [|done]. simpl. rewrite lines_of_snoc.
  destruct op as [|c now [line|]|c ok|c|c]; try done; by rewrite app_nil_r.
Qed.
End Net.

(** ** Runs *)

Section Runs.
Context `{HashOrder} {Σ : Type} `{SnapshotSink Σ} `{JsonText}.
Implicit Types ns : @NetServer Σ.

(** What the server performed is a run of it, with [k] steps left. *)
Record net_inv (s0 : @Server Σ) (text : ClientId → string) (k : Z) ns : Prop := {
  ni_server : server_inv k (net_server ns);
  ni_run : server_run (performed ns) s0 = Some (tt, net_server ns);
  ni_framed : framed (λ c, split_lines (text c)) ns;
}.

Lemma perform_run s0 k op ns :
  server_inv k (net_server ns) → server_run (performed ns) s0 = Some (tt, net_server ns) → 1 ≤ k → op_text op →
  ∃ s, perform op ns = Some (tt, mkNetServer s (readBuffers ns) (performed ns ++ [op])) ∧
    server_inv (k - 1) s ∧ server_run (performed ns ++ [op]) s0 = Some (tt, s).
Proof.
  intros I E Hk Ht. destruct (step_run op k (net_server ns) I Hk Ht) as (s & Es & I'). exists s.
  unfold perform. rewrite Es. split_and!; [done|done|]. rewrite server_run_app.
  unfold mbind, M_bind. rewrite E. cbn [server_run]. unfold mbind, M_bind. by rewrite Es.
Qed.

(** The complete lines of a text are those a parser may be given. *)
Definition lines_text (s : string) : Prop := Forall line_text (split_lines s).1.

Lemma net_inv_step s0 text k op ns :
  net_inv s0 text k ns → 1 ≤ k → (∀ c, lines_text (text c)) →
  match op with Other (ReadDone _ _ (Some line)) => True | Other op => op_text op | _ => True end →
  let text' := λ c, match op with Receive c' b => if bool_decide (c' = c) then text c +:+ b else text c | _ => text c end in
  ∃ ns', net_step op ns = Some (tt, ns') ∧ net_inv s0 text' (k - 1) ns'.
Proof.
  intros [I E F] Hk Hl Ht. assert (server_inv (k - 1) (net_server ns)) as I1 by (eapply inv_mono; [exact I|lia]).
  destruct op as [c bytes|c now|op]; intros text'; subst text'; simpl.
  - eexists. split; [reflexivity|]. split; [exact I1|exact E|]. by apply framed_receive.
  - unfold mbind at 1, M_bind at 1, get at 1. destruct (is_reading c ns); simpl; [|by eexists].
    destruct (getline (buffer c ns)) as [[line rest]|] eqn:Hg; [|by eexists].
    assert (line_text line) as Hline.
    { destruct (F c) as [Hc _]. pose proof (getline_split (buffer c ns)) as Hs. rewrite Hg in Hs.
      specialize (Hl c). unfold lines_text in Hl. rewrite <-Hc, Hs in Hl. apply Forall_app in Hl as [_ Hl].
      by apply Forall_cons in Hl as [? _]. }
    destruct (perform_run s0 k (ReadDone c now (Some line)) (set_buffer c rest ns) I E Hk Hline) as (s & Ep & Is & Er).
    eexists. split; [exact Ep|]. split; [exact Is|exact Er|]. exact (framed_line _ c now line rest ns s F Hg).
  - assert (match op with ReadDone _ _ (Some _) => False | _ => True end →
      op_text op → ∃ ns', perform op ns = Some (tt, ns') ∧ net_inv s0 text (k - 1) ns') as Hp.
    { intros Hop Hot. destruct (perform_run s0 k op ns I E Hk Hot) as (s & Ep & Is & Er).
      eexists. split; [exact Ep|]. split; [exact Is|exact Er|]. by apply framed_other. }
    destruct op as [|c now [line|]|c ok|c|c]; try (by apply Hp). by eexists.
Qed.

Lemma lines_text_app s1 s2 : lines_text (s1 +:+ s2) → lines_text s1.
Proof. unfold lines_text. rewrite split_lines_app. simpl. by intros [? _]%Forall_app. Qed.

Definition net_text (op : NetOp) : Prop :=
  match op with Other (ReadDone _ _ (Some line)) => True | Other op => op_text op | _ => True end.

Lemma net_inv_run s0 ops text k ns :
  net_inv s0 text k ns → Z.of_nat (length ops) ≤ k → (∀ c, lines_text (text c +:+ received c ops)) →
  Forall net_text ops →
  ∃ ns', net_run ops ns = Some (tt, ns') ∧
    net_inv s0 (λ c, text c +:+ received c ops) (k - Z.of_nat (length ops)) ns'.
Proof.
  revert text k ns. induction ops as [|op ops IH]; intros text k ns I Hk Hl Ht.
  - exists ns. split; [done|]. destruct I as [I E F]. rewrite Z.sub_0_r. split; [done..|].
    intros c. destruct (F c). simpl. by rewrite string_app_empty.
  - apply Forall_cons in Ht as [Hop Ht]. simpl length in *.
    destruct (net_inv_step s0 text k op ns I ltac:(lia)) as (ns1 & E1 & I1);
      [intros c; by eapply lines_text_app|by destruct op|].
    destruct (IH _ (k - 1) ns1 I1 ltac:(lia)) as (ns2 & E2 & I2).
    { intros c. specialize (Hl c). destruct op; simpl in *; try done. case_bool_decide; [|done].
      by rewrite string_app_assoc. }
    { done. }
    exists ns2. split; [cbn [net_run]; unfold mbind, M_bind; rewrite E1; exact E2|].
    replace (k - Z.of_nat (S (length ops))) with (k - 1 - Z.of_nat (length ops)) by lia.
    destruct I2 as [A B F]. split; [done..|]. intros c. specialize (F c). destruct op; simpl in *; try done.
    case_bool_decide; [|done]. by rewrite <-string_app_assoc.
Qed.
End Runs.

(** ** The theorem *)

(** The library writes a value on one line. *)
Class JsonOneLine `{JsonLib} := dump_one_line j line : json_dump j = Some line → one_line line.

(** What a client writes for these requests. *)
Definition request_lines `{JsonLib} (ms : list ClientMessage) : option (list string) :=
  mapM (λ m, json_dump (requestJson m)) ms.

Lemma request_lines_parse `{JsonLaws} `{!JsonOneLine} ms ls :
  Forall request_ok ms → request_lines ms = Some ls →
  Forall one_line ls ∧ parseClientMessage <$> ls = Value <$> ms.
Proof.
  intros Hok Hls%mapM_Some. induction Hls as [|m l ms ls Hl _ IH]; [done|].
  apply Forall_cons in Hok as [Hm Hok]. destruct (IH Hok) as [Hones Hps]. split.
  - constructor; [|done]. by eapply dump_one_line.
  - rewrite !fmap_cons, Hps. f_equal. by apply request_parses.
Qed.

Section Theorems.
Context `{HashOrder} {Σ : Type} `{SnapshotSink Σ} `{JsonText} `{!JsonLaws} `{!JsonOneLine}.

(** C13. It does not matter how TCP cuts the bytes of a client.  Whatever
    pieces they arrive in, and whatever the other clients do, the server handles
    the lines they make up, in order: those handled and those that wait in the
    buffer are the complete lines of the whole.  When the bytes are the start of
    requests a client has written, it handles exactly the first of these requests. *)
Theorem stream_framed (sink : option Σ) (ops : list NetOp) :
  1 + 2 * Z.of_nat (length ops) < 2 ^ 64 → (∀ c, lines_text (received c ops)) → Forall net_text ops →
  ∃ ns, net_run ops (new_net sink) = Some (tt, ns) ∧
    server_run (performed ns) (new_server sink) = Some (tt, net_server ns) ∧
    ∀ c, lines_of c (performed ns) ++ (split_lines (buffer c ns)).1 = (split_lines (received c ops)).1 ∧
      ∀ ms ls later, Forall request_ok ms → request_lines ms = Some ls →
        received c ops +:+ later = unlines ls →
        parseClientMessage <$> lines_of c (performed ns) =
          Value <$> take (length (lines_of c (performed ns))) ms.
Proof.
  intros Hlen Hl Ht.
  destruct (net_inv_run (new_server sink) ops (λ _, EmptyString) (Z.of_nat (length ops)) (new_net sink))
    as (ns & E & [_ Er F]); [|lia|exact Hl|done|].
  { split; [by apply inv_start; lia|done|by intros c]. }
  exists ns. split_and!; [done|done|]. intros c. destruct (F c) as [Hc _]. split; [exact Hc|].
  intros ms ls later Hok Hls Hs. destruct (request_lines_parse ms ls Hok Hls) as [Hone Hp].
  change (EmptyString +:+ received c ops) with (received c ops) in Hc.
  pose proof (split_lines_app (received c ops) later) as Ha. rewrite Hs, split_unlines in Ha by done.
  injection Ha as Ha _. rewrite <-Hc, <-app_assoc in Ha.
  rewrite fmap_take, <-Hp, <-fmap_take, Ha. by rewrite take_app_length.
Qed.
End Theorems.

(** ** Witness *)

#[local] Existing Instance elements_order.

Lemma numeral_one_line p rest : one_line rest → one_line (BinaryString.Raw.of_pos p rest).
Proof.
  revert rest. induction p as [p IH|p IH|]; intros rest Hr; cbn [BinaryString.Raw.of_pos]; [apply IH|apply IH|];
    unfold one_line in *; simpl; by rewrite Hr.
Qed.

#[export] Instance tree_one_line : @JsonOneLine tree_json.
Proof.
  intros j line. simpl. destruct (text_ok j); [|done]. intros [= <-].
  unfold one_line, BinaryString.of_pos. simpl.
  pose proof (numeral_one_line (encode (scrub j)) EmptyString eq_refl) as E. unfold one_line in E. by rewrite E.
Qed.

Definition demo_requests : list ClientMessage := [CreateRoomRequest; JoinRoomRequest 1; ClearRequest 1].

Definition demo_stream : string := unlines (default [] (request_lines demo_requests)).

(** The bytes from [i] on, [n] of them. *)
Definition piece (i n : nat) : string := String.substring i n demo_stream.

(** The bytes of two requests and a half arrive in four pieces. *)
Definition demo_pieces : list NetOp :=
  [Other Accept; Other (RunPosted 1); Receive 1 (piece 0 100); LineRead 1 0; Receive 1 (piece 100 190);
   LineRead 1 0; Receive 1 (piece 290 1); Receive 1 (piece 291 400); LineRead 1 0; LineRead 1 0].

(** The bytes that have not come yet. *)
Definition demo_later : string := piece 691 1000.

Lemma demo_pieces_text c : lines_text (received c demo_pieces).
Proof.
  destruct (decide (c = 1)) as [->|Hc].
  - assert ((split_lines (received 1 demo_pieces)).1 = take 2 (default [] (request_lines demo_requests))) as E
      by (vm_compute; reflexivity).
    unfold lines_text. rewrite E. repeat constructor; intros what Ew; vm_compute in Ew; discriminate.
  - replace (received c demo_pieces) with EmptyString by (cbn; by rewrite bool_decide_eq_false_2 by done).
    constructor.
Defined.

Lemma stream_framed_witness :
  ∃ ns, net_run demo_pieces (new_net (Some ([] : list PersistedBoardSnapshot))) = Some (tt, ns) ∧
    parseClientMessage <$> lines_of 1 (performed ns) =
      Value <$> take (length (lines_of 1 (performed ns))) demo_requests.
Proof.
  destruct (stream_framed (Some ([] : list PersistedBoardSnapshot)) demo_pieces) as (ns & E & _ & Hf).
  - vm_compute. reflexivity.
  - exact demo_pieces_text.
  - by repeat constructor.
  - exists ns. split; [exact E|]. destruct (Hf 1) as [_ Hms].
    apply (Hms demo_requests (default [] (request_lines demo_requests)) demo_later).
    + assert (is_u64 1) as Hone by by_decision. by repeat (apply Forall_cons; split).
    + vm_compute. reflexivity.
    + vm_compute. reflexivity.
Defined.
