(* ===== verification/Delivery.v ===== *)
(** * Delivery

    What becomes of the lines that are delivered to a session.  While its client
    is connected each of them is written, whatever the strand runs first
    ([lines_get_written]); and the bytes that are written split into exactly the
    messages that were delivered, since every delivered line is the text of one
    message ([lines_ok]) and the JSON library writes it on one line. *)
From S2P Require Import Prelude CoreTypes Room RoomSpec RoomRefine RoomTrace RoomProps ServerCore.
From S2P Require Import CoreProps Messages Mappers JsonProtocol JsonSpec JsonModel JsonProps.
From S2P Require Import Session Within SessionInv SessionProps Wire Framing.

(** ** Every delivered line is a message *)

Section Lines.
Context `{HashOrder} {Σ : Type} `{SnapshotSink Σ} `{JsonLib}.
Implicit Types s : @Server Σ.

Definition is_line (line : string) : Prop := ∃ m, wire m = Some line.

Definition lines_ok s : Prop := ∀ c ss, sessions s !! c = Some ss → Forall is_line (delivered ss).

(** Delivers nothing but messages. *)
Definition only_messages s s' : Prop := lines_ok s → lines_ok s'.

Lemma lines_ok_alter c f s :
  (∀ ss, Forall is_line (delivered ss) → Forall is_line (delivered (f ss))) →
  only_messages s (mkServer (core_ s) (registry_ s) (alter f c (sessions s)) (nextClientId_ s)).
Proof.
  intros Hf L d ss. simpl. rewrite lookup_alter_Some.
  intros [(<- & ss0 & Hs & ->)|[_ Hs]]; [apply Hf|]; by apply (L _ _ Hs).
Qed.

#[export] Instance messages_stable : Stable only_messages.
Proof.
  split.
  - unfold only_messages. split; [by intros s|]. intros s1 s2 s3. auto.
  - intros c f Hf. apply within_modify. intros s. apply lines_ok_alter. intros ss. by rewrite Hf.
  - intros c m. unfold deliver. destruct (serializeServerMessage m) as [json|] eqn:Em; [|apply within_undefined].
    apply within_modify. intros s. apply lines_ok_alter. intros ss Hl. simpl. apply Forall_app. split; [done|].
    constructor; [|done]. exists m. unfold wire. by rewrite Em.
  - intros c. apply within_modify. by intros s L.
  - intros A m s x s'. unfold on_core. destruct (m (core_ s)) as [[]|]; [|done]. by intros [= _ <-] L.
Qed.

Lemma lines_ok_step op s x s' : server_step op s = Some (x, s') → only_messages s s'.
Proof.
  assert (op = Accept ∨ op ≠ Accept) as [->|Hop] by (destruct op; auto); [|by apply (within_step only_messages op Hop)].
  intros E L d ss. injection E as _ <-. simpl. rewrite lookup_insert_Some.
  intros [[_ <-]|[_ Hs]]; [by simpl|by apply (L _ _ Hs)].
Qed.

Lemma lines_ok_run sink ops x s : server_run ops (new_server sink) = Some (x, s) → lines_ok s.
Proof.
  assert (within only_messages (server_run (Σ:=Σ) ops)) as Hr.
  { induction ops as [|op ops IH]; cbn [server_run]; [within|].
    apply within_bind; [apply _|exact (lines_ok_step op)|done]. }
  intros E. apply (Hr _ _ _ E). intros c ss. simpl. by rewrite lookup_empty.
Qed.
End Lines.

(** ** The bytes that are written *)

Definition bytes_written (ss : Session) : string := foldr String.append EmptyString (written ss).

Section Bytes.
Context `{JsonLib} `{!JsonOneLine}.

Lemma line_chomp line : is_line line → one_line (chomp line) ∧ line = chomp line +:+ line_end.
Proof.
  intros [m (json & Hj & ->)%fmap_Some]. rewrite chomp_line. split; [|done]. by eapply dump_one_line.
Qed.

Lemma bytes_split ss :
  Forall is_line (delivered ss) → written ss `prefix_of` delivered ss →
  split_lines (bytes_written ss) = (chomp <$> written ss, EmptyString).
Proof.
  intros Hd [rest Hw]. rewrite Hw in Hd. clear Hw. apply Forall_app in Hd as [Hd _]. unfold bytes_written.
  replace (foldr String.append EmptyString (written ss)) with (unlines (chomp <$> written ss)).
  - apply split_unlines, Forall_fmap. eapply Forall_impl; [exact Hd|]. intros line Hl. by apply line_chomp.
  - induction Hd as [|line ls Hl _ IH]; [done|]. destruct (line_chomp line Hl) as [_ He]. cbn [foldr fmap list_fmap].
    rewrite <-IH. rewrite He at 2. by rewrite string_app_assoc.
Qed.
End Bytes.

(** ** Writing what was delivered *)

Section Written.
Context `{HashOrder} {Σ : Type} `{SnapshotSink Σ} `{JsonText}.
Implicit Types s : @Server Σ.

(** A handler posted on the strand of [c], or a write of its that succeeded. *)
Definition completes (c : ClientId) (op : ServerOp) (ss : Session) : Prop :=
  match op with
  | RunPosted c' => c' = c ∧ posted ss ≠ []
  | WriteDone c' true => c' = c ∧ writing ss = true
  | _ => False
  end.

(** [ops] are such completions, each due when it comes. *)
Inductive completions (c : ClientId) : list ServerOp → @Server Σ → @Server Σ → Prop :=
  | completions_nil s : completions c [] s s
  | completions_cons op ops s ss s1 s2 :
      sessions s !! c = Some ss → completes c op ss → server_step op s = Some (tt, s1) →
      completions c ops s1 s2 → completions c (op :: ops) s s2.

(** The completions until nothing is left: a posted line is pushed, then written. *)
Definition work (ss : Session) : nat :=
  length (posted ss) + length (queued_lines ss) + length (writeQueue_ ss).

(** The session is connected and nobody stops it. *)
Record connected (ss : Session) : Prop := {
  cn_inv : session_inv ss;
  cn_stopped : stopped_ ss = false;
  cn_posted : TStop ∉ posted ss;
}.

Lemma task_done_work t ts ss :
  connected ss → posted ss = t :: ts →
  connected (task_done t ts ss) ∧ delivered (task_done t ts ss) = delivered ss ∧
  S (work (task_done t ts ss)) = work ss.
Proof.
  intros [V Hst Hn] Hp. destruct (task_done_inv t ts ss V Hp) as (V' & _ & Hst').
  rewrite Hp in Hn. apply not_elem_of_cons in Hn as [Hne Hn].
  assert (posted (task_done t ts ss) = ts) as Hp' by (destruct t; simpl; by repeat case_match).
  split; [split; [done|congruence|by rewrite Hp']|].
  unfold work, queued_lines. rewrite Hp'. destruct t as [|line|]; [| |done]; simpl; rewrite Hst, Hp; [done|].
  case_bool_decide; simpl; rewrite length_app; simpl; (split; [done|]);
    change (list_omap Task string task_line ts) with (omap task_line ts); lia.
Qed.

Lemma write_done_work line q ss :
  connected ss → writeQueue_ ss = line :: q →
  connected (write_done line q ss) ∧ delivered (write_done line q ss) = delivered ss ∧
  S (work (write_done line q ss)) = work ss.
Proof.
  intros [V Hst Hn] Hq. split; [split; [by apply write_done_inv|done|done]|]. split; [done|].
  unfold work, queued_lines, write_done. simpl. rewrite Hq. simpl. lia.
Qed.

(** A completion that is due does one unit of the work. *)
Lemma completes_step c op s ss :
  sessions s !! c = Some ss → connected ss → completes c op ss →
  ∃ ss', server_step op s = Some (tt, upd c (λ _, ss') s) ∧
    connected ss' ∧ delivered ss' = delivered ss ∧ S (work ss') = work ss.
Proof.
  intros Hs Hc Hop. destruct op as [|c' now line|c' [|]|c'|c']; try done; destruct Hop as [-> Hop]; simpl;
    unfold when_due; unfold mbind at 1, M_bind at 1, get; rewrite Hs.
  - rewrite Hop. destruct (writeQueue_ ss) as [|line q] eqn:Hq; [by destruct (sv_writing _ (cn_inv _ Hc) Hop)|].
    exists (write_done line q ss). split; [by apply write_effect|by apply write_done_work].
  - rewrite bool_decide_eq_false_2 by done. simpl. destruct (posted ss) as [|t ts] eqn:Hp; [done|].
    exists (task_done t ts ss). split; [|by apply task_done_work].
    apply task_effect; [done|]. intros ->. apply (cn_posted _ Hc). rewrite Hp. by left.
Qed.

(** While work is left, one of them is due. *)
Lemma work_due c ss : connected ss → work ss ≠ 0%nat → ∃ op, completes c op ss.
Proof.
  intros [V Hst _] Hw. destruct (posted ss) as [|t ts] eqn:Hp; [|exists (RunPosted c); simpl; by rewrite Hp].
  exists (WriteDone c true). split; [done|]. apply (sv_idle _ V Hst). intros Hq. apply Hw.
  unfold work, queued_lines. by rewrite Hp, Hq.
Qed.

Lemma no_work ss : connected ss → work ss = 0%nat → written ss = delivered ss.
Proof.
  intros [V _ _] Hw. unfold work in Hw. rewrite (sv_stream _ V).
  rewrite (nil_length_inv (writeQueue_ ss)), (nil_length_inv (queued_lines ss)) by lia. by rewrite !app_nil_r.
Qed.

Lemma completions_work c ops s s' ss :
  completions c ops s s' → sessions s !! c = Some ss → connected ss →
  server_run ops s = Some (tt, s') ∧
  ∃ ss', s' = upd c (λ _, ss') s ∧ connected ss' ∧ delivered ss' = delivered ss ∧
    (length ops + work ss')%nat = work ss.
Proof.
  intros Hr. revert ss. induction Hr as [s|op ops s ss s1 s2 Hs Hop E _ IH]; intros ss0 Hs0 Hc.
  - split; [done|]. exists ss0. split_and!; [|done..]. destruct s as [co re sss n]. unfold upd. simpl in *.
    by rewrite alter_id by (intros ss' Hs'; by simplify_eq).
  - simplify_eq. destruct (completes_step c op s ss Hs Hc Hop) as (ss1 & E1 & Hc1 & Hd1 & Hw1). simplify_eq.
    destruct (IH ss1) as (E2 & ss2 & -> & Hc2 & Hd2 & Hw2); [by apply (upd_self c (λ _, ss1) s ss)|done|].
    split; [by rewrite (server_run_cons _ _ _ _ E)|]. exists ss2. rewrite upd_upd. split_and!; [done|done|congruence|].
    simpl. lia.
Qed.

(** C14. A connected client gets everything it was sent.  From any reached
    state, let the posted handlers and the writes of its session complete in any
    order: each makes progress, one of them is due as long as a line is not
    written, and after as many of them as there is work every line that was
    delivered is written.  At any time the bytes that were written are whole lines, which
    split into the messages delivered first, in their order. *)
Theorem lines_get_written `{!JsonOneLine} (sink : option Σ) ops s c ss ops' s' :
  reached 0 sink ops s → sessions s !! c = Some ss → stopped_ ss = false → TStop ∉ posted ss →
  completions c ops' s s' →
  server_run ops' s = Some (tt, s') ∧
  ∃ ss', s' = upd c (λ _, ss') s ∧ delivered ss' = delivered ss ∧
    (length ops' + work ss')%nat = work ss ∧
    (work ss' ≠ 0%nat → ∃ op s1, completes c op ss' ∧ server_step op s' = Some (tt, s1)) ∧
    (work ss' = 0%nat → written ss' = delivered ss) ∧
    split_lines (bytes_written ss') = (chomp <$> take (length (written ss')) (delivered ss), EmptyString).
Proof.
  intros Hre Hs Hst Hn Hr. pose proof (reached_inv _ _ _ _ Hre) as I. destruct Hre as (_ & _ & E).
  assert (lines_ok s) as L by by eapply lines_ok_run.
  assert (connected ss) as Hc by (split; [by apply (si_session _ _ I c)|done|done]).
  destruct (completions_work c ops' s s' ss Hr Hs Hc) as (Er & ss' & -> & Hc' & Hd & Hw).
  split; [done|]. exists ss'. split_and!; try done.
  - intros Hne. destruct (work_due c ss' Hc' Hne) as [op Hop].
    destruct (completes_step c op (upd c (λ _, ss') s) ss') as (ss2 & E2 & _); [by apply (upd_self c (λ _, ss') s ss)|done|done|].
    eauto.
  - intros H0w. rewrite <-Hd. by apply no_work.
  - rewrite bytes_split.
    + f_equal. by rewrite <-Hd, (sv_stream _ (cn_inv _ Hc')), take_app_length.
    + rewrite Hd. by apply (L c).
    + rewrite (sv_stream _ (cn_inv _ Hc')). by exists (writeQueue_ ss' ++ queued_lines ss').
Qed.
End Written.

(** ** Witness *)

#[local] Existing Instance elements_order.

(** The second client has been sent its snapshot and the start of a stroke. *)
Definition demo_drain : list ServerOp := [RunPosted 2; RunPosted 2; WriteDone 2 true; WriteDone 2 true].

Ltac by_completion n :=
  apply (completions_cons 2 _ _ _ (session_after (demo_run ++ take n demo_drain) 2) (server_after (demo_run ++ take (S n) demo_drain)));
  [vm_compute; reflexivity|vm_compute; repeat split; discriminate|vm_compute; reflexivity|].

Lemma lines_get_written_witness :
  work (session_after demo_run 2) = 4%nat ∧ length (delivered (session_after demo_run 2)) = 2%nat ∧
  ∃ ss, sessions (server_after (demo_run ++ demo_drain)) !! 2 = Some ss ∧
    written ss = delivered (session_after demo_run 2).
Proof.
  assert (work (session_after demo_run 2) = 4%nat) as Hw by (vm_compute; reflexivity).
  assert (sessions (server_after demo_run) !! 2 = Some (session_after demo_run 2)) as Hs by (vm_compute; reflexivity).
  split; [exact Hw|]. split; [vm_compute; reflexivity|].
  destruct (lines_get_written (Some []) demo_run (server_after demo_run) 2 (session_after demo_run 2) demo_drain
    (server_after (demo_run ++ demo_drain))) as (_ & ss & E & _ & Hl & _ & Hd & _).
  - apply (demo_reached 0). lia.
  - exact Hs.
  - vm_compute. reflexivity.
  - by_decision.
  - by_completion 0%nat. by_completion 1%nat. by_completion 2%nat. by_completion 3%nat. apply completions_nil.
  - exists ss. rewrite E. split; [exact (upd_self 2 (λ _, ss) _ _ Hs)|]. apply Hd. rewrite Hw in Hl. simpl in Hl. lia.
Defined.
