(* ===== verification/EndToEnd.v ===== *)
(** * From a stroke to the bytes another client gets

    The whole way of a board through the program: requests are handled by the
    core, their events travel through the mappers, the JSON protocol and the
    registry to the session of a viewer, whose strand writes them; the client
    cuts the bytes it gets into lines, decodes them and replays the events on
    the snapshot of its join.  The theorem composes [Wire] (what the delivered
    lines mean) with [Delivery] (how they get written). *)
From S2P Require Import Prelude CoreTypes Room RoomSpec RoomRefine RoomTrace RoomProps ServerCore.
From S2P Require Import CoreProps Typing Messages Mappers JsonProtocol JsonSpec JsonModel JsonProps.
From S2P Require Import Session SessionInv SessionProps Serve ServerTyping Wire Framing Delivery.

(** What a client reads from the bytes of its connection, when it joined its
    room after it had been sent [seen] lines. *)
Definition client_reads `{JsonClient} (seen : nat) (bytes : string) : option BoardState :=
  client_view (drop seen ((λ line, line +:+ line_end) <$> (split_lines bytes).1)).

Section Reading.
Context `{JsonClient} `{!JsonOneLine}.

(** The bytes are those lines again. *)
Lemma client_reads_written seen ss :
  Forall is_line (delivered ss) → written ss `prefix_of` delivered ss →
  client_reads seen (bytes_written ss) = client_view (drop seen (written ss)).
Proof.
  intros Hd Hp. unfold client_reads. rewrite bytes_split by done. simpl. f_equal. f_equal.
  destruct Hp as [rest Hw]. rewrite Hw in Hd. apply Forall_app in Hd as [Hd _].
  rewrite <-list_fmap_compose. rewrite <-(list_fmap_id (written ss)) at 2.
  apply list_fmap_ext. intros i line Hi. simpl.
  destruct (line_chomp line) as [_ He]; [|done]. rewrite Forall_forall in Hd. apply Hd.
  by eapply list_elem_of_lookup_2.
Qed.
End Reading.

Section EndToEnd.
Context `{HashOrder} {Σ : Type} `{SnapshotSink Σ}.
Context {JL : JsonLib} {JLaws : JsonLaws} {JC : JsonClient} {JT : JsonText} {JO : JsonOneLine}.

(** C3. What a client draws reaches the others.  The handlers run one after the
    other, coordinates are finite, and parse errors can be quoted.  Let a client join
    a room and send nothing more while the others draw, whatever the server handles
    first; as long as it stays connected and is not stopped, let the handlers and
    writes of its session complete, in any order.  The board of the room stays what it is, a next
    completion is due as long as one is needed, and after as many as there is
    work the bytes the client got since it joined, cut into lines, decoded and
    replayed on the snapshot, give exactly the board of the server. *)
Theorem board_reaches_viewer (sink : option Σ) ops1 ops2 d now line room s1 s ss1 ss r ops' s' :
  reached 0 sink (ops1 ++ ReadDone d now (Some line) :: ops2) s →
  Forall (op_points finite_point) (ops1 ++ ReadDone d now (Some line) :: ops2) →
  server_run ops1 (new_server sink) = Some (tt, s1) →
  sessions s1 !! d = Some ss1 → reading ss1 = true →
  currentRoom_ ss1 = None ∨ currentRoom_ ss1 = Some room → is_Some (core_room (core_ s1) room) →
  parseClientMessage line = Value (JoinRoomRequest room) → Forall (no_line d) ops2 →
  sessions s !! d = Some ss → stopped_ ss = false → TStop ∉ posted ss →
  core_room (core_ s) room = Some r → completions d ops' s s' →
  core_room (core_ s') room = Some r ∧
  ∃ ss', sessions s' !! d = Some ss' ∧ (length ops' + work ss')%nat = work ss ∧
    (work ss' ≠ 0%nat → ∃ op s2, completes d op ss' ∧ server_step op s' = Some (tt, s2)) ∧
    (work ss' = 0%nat → client_reads (length (delivered ss1)) (bytes_written ss') = Some (board_ r)).
Proof.
  intros Hreach Hp E1 Hs1 Hread Hroom Hr1 Hparse Hl Hs Hst Hn Er Hc.
  pose proof (reached_inv _ _ _ _ Hreach) as I.
  assert (d ∈ registry_ s) as Hreg by (apply (si_registry _ _ I); eauto).
  assert (connected ss) as Hco by (split; [by apply (si_session _ _ I d)|done|done]).
  assert (lines_ok s) as L by (destruct Hreach as (_ & _ & E); by eapply lines_ok_run).
  destruct (viewer_sees_board sink ops1 ops2 d now line room s1 s ss1 ss r) as [Hv _]; [done..|].
  destruct (completions_work d ops' s s' ss Hc Hs Hco) as (_ & ss' & -> & Hco' & Hd & Hw).
  assert (sessions (upd d (λ _, ss') s) !! d = Some ss') as Hs' by by apply (upd_self d (λ _, ss') s ss).
  split; [done|]. exists ss'. split_and!; [done|done| |].
  - intros Hne. destruct (work_due d ss' Hco' Hne) as [op Hop].
    destruct (completes_step d op _ ss' Hs' Hco' Hop) as (ss2 & E2 & _). eauto.
  - intros Hz. rewrite client_reads_written.
    + by rewrite (no_work ss' Hco' Hz), Hd.
    + rewrite Hd. by apply (L d).
    + by rewrite (no_work ss' Hco' Hz).
Qed.
End EndToEnd.

(** ** Witness *)

#[local] Existing Instance elements_order.

(** What is left to do for the second client of [watching]. *)
Definition watch_drain : list ServerOp :=
  [RunPosted 2; RunPosted 2; WriteDone 2 true; RunPosted 2; WriteDone 2 true; WriteDone 2 true].

Ltac by_watch_step n :=
  apply (completions_cons 2 _ _ _ (session_after (watching ++ take n watch_drain) 2)
    (server_after (watching ++ take (S n) watch_drain)));
  [vm_compute; reflexivity|vm_compute; repeat split; discriminate|vm_compute; reflexivity|].

Lemma watch_completions :
  completions 2 watch_drain (server_after watching) (server_after (watching ++ watch_drain)).
Proof.
  by_watch_step 0%nat. by_watch_step 1%nat. by_watch_step 2%nat. by_watch_step 3%nat. by_watch_step 4%nat.
  by_watch_step 5%nat. apply completions_nil.
Defined.

Lemma board_reaches_viewer_witness :
  ∃ ss r, sessions (server_after (watching ++ watch_drain)) !! 2 = Some ss ∧
    core_room (core_ (server_after watching)) 1 = Some r ∧ length (strokes (board_ r)) = 1%nat ∧
    client_reads (length (delivered (session_after before_join 2))) (bytes_written ss) = Some (board_ r).
Proof.
  set (r := default (new_room 1) (core_room (core_ (server_after watching)) 1)).
  destruct (board_reaches_viewer (Some []) before_join after_join 2 0
    (default EmptyString (json_dump (requestJson (JoinRoomRequest 1)))) 1 (server_after before_join)
    (server_after watching) (session_after before_join 2) (session_after watching 2) r watch_drain
    (server_after (watching ++ watch_drain))) as (_ & ss & Hs & Hw & _ & Hv).
  - exact watching_reached.
  - exact watching_points.
  - vm_compute. reflexivity.
  - vm_compute. reflexivity.
  - vm_compute. reflexivity.
  - left. vm_compute. reflexivity.
  - vm_compute. eauto.
  - vm_compute. reflexivity.
  - unfold after_join. repeat constructor; intros ? ? E; discriminate E.
  - vm_compute. reflexivity.
  - vm_compute. reflexivity.
  - by_decision.
  - vm_compute. reflexivity.
  - exact watch_completions.
  - exists ss, r. assert (work (session_after watching 2) = 6%nat) as Hw0 by (vm_compute; reflexivity).
    rewrite Hw0 in Hw. simpl in Hw.
    split; [exact Hs|]. split; [vm_compute; reflexivity|]. split; [vm_compute; reflexivity|]. apply Hv. lia.
Defined.
