(* ===== verification/Scenarios.v ===== *)
(** * The scenarios of the unit tests

    The tests of the repository ([tests/*.cpp]), as programs over the model: each
    [TEST] is a definition with its name, and all pass by evaluation, which
    checks the model against what the authors expect of the code.  The two tests
    that start threads ([concurrency_tests.cpp]) are theorems, about every order
    in which the calls of the threads can take the mutex of the room. *)
From S2P Require Import Prelude CoreTypes Room RoomSpec RoomRefine RoomTrace RoomProps Solo Time ServerCore.
From S2P Require Import Messages Mappers JsonProtocol JsonSpec JsonModel SnapshotStore StrokeBlob SqliteStore.
From S2P Require Import SnapshotWriter Session SessionProps Wire.

#[local] Existing Instance elements_order.
#[local] Existing Instance roomy.

(** ** Tests of the core *)

(** The variables [tp] and [core] of a test. *)
Record World := mkWorld { tp : FakeTimeProvider; core : @ServerCore (list PersistedBoardSnapshot) }.

Definition new_world : World := mkWorld (mkFakeTimeProvider 0) (new_core None).

Abbreviation TestCase := (M World unit).

(** [ASSERT_TRUE(b)]: what fails ends the test. *)
Definition ASSERT (b : bool) : TestCase := if b then mret tt else undefined.

Definition ASSERT_EQ {A} `{EqDecision A} (x y : A) : TestCase := ASSERT (bool_decide (x = y)).

Definition passes (t : TestCase) : Prop := match t new_world with Some _ => True | None => False end.

Definition on_the_core {A} (m : M ServerCore A) : M World A := λ w,
  match m (core w) with
  | Some (x, co) => Some (x, mkWorld (tp w) co)
  | None => None
  end.

Definition tp_set (t : TimePoint) : TestCase := modify (λ w, mkWorld (fake_set t (tp w)) (core w)).
Definition tp_advance (d : Z) : TestCase := modify (λ w, mkWorld (fake_advance d (tp w)) (core w)).

(** The room reads the time of [tp]. *)
Definition event (client : ClientId) (room : RoomId) (ev : EventPayload) :
    M World (Expected (list OutgoingEvent) Error) :=
  w ← get; on_the_core (handleEvent (now (tp w) tt) client room ev).

(** [ASSERT_TRUE(r)], then [r.value()]. *)
Definition value_of {A E} (r : Expected A E) : M World A :=
  match r with Value x => mret x | Unexpected _ => undefined end.

(** [ASSERT_FALSE(r)], then [r.error()]. *)
Definition error_of {A E} (r : Expected A E) : M World E :=
  match r with Value _ => undefined | Unexpected e => mret e end.

Definition joins (client : ClientId) (room : RoomId) : M World RoomSnapshot :=
  r ← on_the_core (joinRoom client room); value_of r.

Definition applies (client : ClientId) (room : RoomId) (ev : EventPayload) : M World (list OutgoingEvent) :=
  r ← event client room ev; value_of r.

(** [out.value()[i].seq]; out of range is undefined. *)
Definition seq_of (out : list OutgoingEvent) (i : nat) : M World Seq :=
  match out !! i with Some e => mret (ev_seq e) | None => undefined end.

Definition toTargets (out : list OutgoingEvent) : gset ClientId := list_to_set (ev_to <$> out).

(** The bits of the float that is the integer [n], for small [n]. *)
Definition flt (n : Z) : Z :=
  if bool_decide (n = 0) then 0 else
  let e := Z.log2 n in Z.shiftl (127 + e) 23 + (Z.shiftl n (23 - e) - 2 ^ 23).

Definition pt (x y : Z) : Point := mkPoint (flt x) (flt y).

Example flt_values : (flt 1, flt 10, flt 20) = (0x3f800000, 0x41200000, 0x41a00000).
Proof. reflexivity. Qed.

Definition CreateJoinAndCursorMove : TestCase :=
  room ← on_the_core createRoom;
  _ ← joins 1 room; _ ← joins 2 room;
  _ ← applies 1 room (CursorMove (pt 10 20));
  mret tt.

Definition DropsTooFrequentMovesWithoutSeqIncrement : TestCase :=
  room ← on_the_core createRoom;
  _ ← joins 1 room; _ ← joins 2 room;
  tp_set 0 ;;
  a ← applies 1 room (CursorMove (pt 10 10));
  n ← seq_of a 0; ASSERT_EQ n 1 ;;
  b ← applies 1 room (CursorMove (pt 11 11));
  ASSERT (bool_decide (b = [])) ;;
  c ← applies 1 room (StrokeBegin Black Thin (pt 0 0));
  n ← seq_of c 0; ASSERT_EQ n 2 ;;
  tp_advance kCursorMinInterval ;;
  d ← applies 1 room (CursorMove (pt 12 12));
  n ← seq_of d 0; ASSERT_EQ n 3.

Definition LeaveBroadcastsMemberLeftAndRemovesCursor : TestCase :=
  room ← on_the_core createRoom;
  _ ← joins 1 room; _ ← joins 2 room;
  tp_set 0 ;;
  _ ← applies 1 room (CursorMove (pt 10 10));
  r ← on_the_core (leaveRoom 1 room); out ← value_of r;
  ASSERT_EQ (length out) 1%nat ;;
  ASSERT_EQ (ev_to <$> out) [2] ;;
  ASSERT (match out with [e] => match ev_payload e with MemberLeftOut _ => true | _ => false end | _ => false end) ;;
  snap ← joins 3 room;
  ASSERT (bool_decide (cursors (snap_state snap) !! 1 = None)).

Definition SeqMonotonicNoGapsOnAppliedEvents : TestCase :=
  room ← on_the_core createRoom;
  _ ← joins 1 room; _ ← joins 2 room;
  a ← applies 1 room (StrokeBegin Black Thin (pt 0 0)); n ← seq_of a 0; ASSERT_EQ n 1 ;;
  b ← applies 1 room (StrokePoint (pt 1 1)); n ← seq_of b 0; ASSERT_EQ n 2 ;;
  c ← applies 1 room StrokeEnd; n ← seq_of c 0; ASSERT_EQ n 3.

Definition SeqIndependentAcrossRooms : TestCase :=
  r1 ← on_the_core createRoom; r2 ← on_the_core createRoom;
  _ ← joins 1 r1; _ ← joins 2 r1; _ ← joins 10 r2; _ ← joins 11 r2;
  a ← applies 1 r1 (StrokeBegin Black Thin (pt 0 0)); n ← seq_of a 0; ASSERT_EQ n 1 ;;
  b ← applies 10 r2 (StrokeBegin Black Thin (pt 0 0)); n ← seq_of b 0; ASSERT_EQ n 1.

(** The three tests of [room_protocol_tests.cpp] send [before], then [ev]. *)
Definition is_protocol_violation (before : list EventPayload) (ev : EventPayload) : TestCase :=
  room ← on_the_core createRoom;
  _ ← joins 1 room; _ ← joins 2 room;
  foldr (λ e k, (_ ← applies 1 room e; k)) (mret tt) before ;;
  r ← event 1 room ev; e ← error_of r;
  ASSERT_EQ (error_code e) ProtocolViolation.

Definition PointWithoutBeginIsProtocolViolation : TestCase := is_protocol_violation [] (StrokePoint (pt 1 1)).
Definition EndWithoutBeginIsProtocolViolation : TestCase := is_protocol_violation [] StrokeEnd.
Definition BeginWhileActiveIsProtocolViolation : TestCase :=
  is_protocol_violation [StrokeBegin Black Thin (pt 0 0)] (StrokeBegin Black Thin (pt 1 1)).

Definition JoinAfterDrawingGetsFullState : TestCase :=
  room ← on_the_core createRoom;
  _ ← joins 1 room; _ ← joins 2 room;
  _ ← applies 1 room (StrokeBegin Red Thin (pt 1 1));
  _ ← applies 1 room (StrokePoint (pt 2 2));
  _ ← applies 1 room StrokeEnd;
  snap ← joins 3 room;
  ASSERT_EQ (snap_lastSeq snap) 3 ;;
  ASSERT_EQ (finished <$> strokes (snap_state snap)) [true].

Definition JoinAfterClearGetsEmptyBoard : TestCase :=
  room ← on_the_core createRoom;
  _ ← joins 1 room; _ ← joins 2 room;
  _ ← applies 1 room (StrokeBegin Red Thin (pt 1 1));
  _ ← applies 1 room StrokeEnd;
  _ ← applies 2 room Clear;
  snap ← joins 3 room;
  ASSERT_EQ (length (strokes (snap_state snap))) 0%nat.

Definition BeginPointEndHappyPath : TestCase :=
  room ← on_the_core createRoom;
  _ ← joins 1 room; _ ← joins 2 room;
  out1 ← applies 1 room (StrokeBegin Red Medium (pt 1 2));
  ASSERT_EQ (length out1) 1%nat ;;
  ASSERT_EQ (toTargets out1) {[2]} ;;
  n ← seq_of out1 0; ASSERT_EQ n 1 ;;
  out2 ← applies 1 room (StrokePoint (pt 3 4)); n ← seq_of out2 0; ASSERT_EQ n 2 ;;
  out3 ← applies 1 room StrokeEnd; n ← seq_of out3 0; ASSERT_EQ n 3 ;;
  snap ← joins 3 room;
  ASSERT_EQ ((λ s, (length (points s), finished s)) <$> strokes (snap_state snap)) [(2%nat, true)].

Definition StrokeOrderFixedOnBegin : TestCase :=
  room ← on_the_core createRoom;
  _ ← joins 1 room; _ ← joins 2 room; _ ← joins 3 room;
  _ ← applies 1 room (StrokeBegin Black Thin (pt 0 0));
  _ ← applies 2 room (StrokeBegin Blue Thin (pt 10 10));
  _ ← applies 1 room (StrokePoint (pt 1 1));
  _ ← applies 2 room (StrokePoint (pt 11 11));
  snap ← joins 4 room;
  ASSERT_EQ (strokeOrder <$> strokes (snap_state snap)) [1; 2].

Definition SingleEventBroadcastsSameSeqToAllRecipients : TestCase :=
  room ← on_the_core createRoom;
  _ ← joins 1 room; _ ← joins 2 room; _ ← joins 3 room;
  out ← applies 1 room (StrokeBegin Green Thick (pt 5 6));
  ASSERT_EQ (length out) 2%nat ;;
  n ← seq_of out 0; n' ← seq_of out 1; ASSERT_EQ n n' ;;
  ASSERT_EQ (toTargets out) {[2; 3]}.

Definition CreateRoomReturnsUniqueIds : TestCase :=
  a ← on_the_core createRoom; b ← on_the_core createRoom; ASSERT (bool_decide (a ≠ b)).

Definition JoinReturnsSnapshotWithMembers : TestCase :=
  room ← on_the_core createRoom;
  s1 ← joins 1 room;
  ASSERT_EQ (snap_lastSeq s1) 0 ;;
  ASSERT_EQ (list_to_set (snap_members s1) : gset Z) {[1]} ;;
  s2 ← joins 2 room;
  ASSERT_EQ (list_to_set (snap_members s2) : gset Z) {[1; 2]}.

Definition UnknownRoomReturnsError : TestCase :=
  r ← on_the_core (joinRoom 1 999); e ← error_of r; ASSERT_EQ (error_code e) RoomNotFound.

Definition core_tests : list TestCase :=
  [CreateJoinAndCursorMove; DropsTooFrequentMovesWithoutSeqIncrement; LeaveBroadcastsMemberLeftAndRemovesCursor;
   SeqMonotonicNoGapsOnAppliedEvents; SeqIndependentAcrossRooms; PointWithoutBeginIsProtocolViolation;
   EndWithoutBeginIsProtocolViolation; BeginWhileActiveIsProtocolViolation; JoinAfterDrawingGetsFullState;
   JoinAfterClearGetsEmptyBoard; BeginPointEndHappyPath; StrokeOrderFixedOnBegin;
   SingleEventBroadcastsSameSeqToAllRecipients; CreateRoomReturnsUniqueIds; JoinReturnsSnapshotWithMembers;
   UnknownRoomReturnsError].

Lemma core_tests_pass : Forall passes core_tests.
Proof. repeat (apply Forall_cons; split; [vm_compute; exact Logic.I|]). apply Forall_nil, Logic.I. Qed.

(** ** Tests of the transport *)

Definition ConvertsStrokeBeginRequestToCoreEvent : bool :=
  match toCoreEvent_StrokeBegin 1 2 (mkPointDto (flt 3) (flt 4)) with
  | Value (StrokeBegin col th p) => bool_decide (col = Red ∧ th = Thick ∧ p = pt 3 4)
  | _ => false
  end.

Definition RejectsInvalidColor : bool :=
  match toCoreEvent_StrokeBegin 100 1 (mkPointDto (flt 3) (flt 4)) with
  | Unexpected e => bool_decide (error_code e = InvalidParams)
  | Value _ => false
  end.

Definition ConvertsSnapshotToServerMessage : bool :=
  let stroke := mkStroke 11 2 Blue Medium 7 [mkPoint (flt 1) 0x3fc00000] true in
  let snapshot := mkRoomSnapshot 9 3 (mkBoardState [stroke] {[5 := pt 1 2]}) [2; 1] in
  match toSnapshotMessage snapshot with
  | SnapshotResponse r =>
      bool_decide (rsp_room r = 9 ∧ rsp_lastSeq r = 3 ∧ rsp_members r = [1; 2] ∧
        dto_id <$> rsp_strokes r = [11] ∧ cur_client <$> rsp_cursors r = [5])
  | _ => false
  end.

(** The texts of the requests are those of these values of the library. *)
Definition parses (fields : list (string * @json tree_json)) : Expected ClientMessage ProtocolError :=
  match json_dump (json_object fields) with
  | Some line => parseClientMessage line
  | None => Unexpected (perr_invalidJson EmptyString)
  end.

Definition ParsesPingMessage : bool :=
  match parses [("type"%string, json_of_string "ping")] with Value PingRequest => true | _ => false end.

(** 0x3fc00000 and 0x40200000 are 1.5 and 2.5. *)
Definition ParsesStrokeBeginMessage : bool :=
  match parses [("type"%string, json_of_string "stroke_begin"); ("room"%string, json_of_uint 7);
                ("color"%string, json_of_uint 1); ("thickness"%string, json_of_uint 2);
                ("start"%string, makePointJson (mkPointDto 0x3fc00000 0x40200000))] with
  | Value (StrokeBeginRequest room color thickness start) =>
      bool_decide (room = 7 ∧ color = 1 ∧ thickness = 2 ∧ start = mkPointDto 0x3fc00000 0x40200000)
  | _ => false
  end.

Definition RejectsUnknownMessageType : bool :=
  match parses [("type"%string, json_of_string "oops")] with
  | Unexpected e => match perr_code e with UnknownMessageType => true | _ => false end
  | Value _ => false
  end.

Definition SerializesRoomCreatedResponse : bool :=
  match serializeServerMessage (RoomCreatedResponse 42) with
  | Some text =>
      match json_parse text with
      | inl j => bool_decide ((json_at j "type" ≫= get_string) = Some "room_created"%string ∧
                   (json_at j "room" ≫= get_u64) = Some 42)
      | inr _ => false
      end
  | None => false
  end.

Definition transport_tests : list bool :=
  [ConvertsStrokeBeginRequestToCoreEvent; RejectsInvalidColor; ConvertsSnapshotToServerMessage; ParsesPingMessage;
   ParsesStrokeBeginMessage; RejectsUnknownMessageType; SerializesRoomCreatedResponse].

Lemma transport_tests_pass : transport_tests = replicate 7 true.
Proof. vm_compute. reflexivity. Qed.

(** ** Tests of the persistence *)

(** A stroke as the two tests build it. *)
Definition test_stroke (author : ClientId) (col : Color) (th : Thickness) (p : Point) (i : nat) : Stroke :=
  mkStroke 1 author col th (Z.of_nat i) [p] true.

Definition SaveListLoadLatestAndPruneKeep10 : @SM memory_sqlite bool :=
  _ ← init;
  foldr (λ i k, (_ ← save 42 (Z.of_nat i) [test_stroke 7 Red Medium (pt 1 2) i]; k)) (mret tt) (seq 1 12) ;;
  all ← list_snapshots 42;
  pruneKeepLatest 42 10 ;;
  pruned ← list_snapshots 42;
  latest ← loadLatest 42;
  match latest with
  | None => mret false
  | Some st =>
      byId ← loadById (meta_id (stored_meta st));
      mret (bool_decide (length all = 12%nat ∧ length pruned = 10%nat ∧ meta_room (stored_meta st) = 42 ∧
              length <$> (points <$> stored_strokes st) = [1%nat] ∧
              (meta_id ∘ stored_meta <$> byId) = Some (meta_id (stored_meta st))))
  end.

(** The test's thread queues twelve snapshots and flushes; the worker then runs
    until it waits. *)
Definition writer_test_acts : list Act :=
  (i ← seq 1 12; [ABegin (mkPersistedBoardSnapshot 1 (Z.of_nat i) [test_stroke 1 Black Thin (pt 0 0) i]); APush 0; ANotify]) ++
  [AFlush] ++ replicate 49 AWorker ++ [AFlushStep 0].

Definition empty_database : @Store memory_sqlite := mkStore "writer_test.sqlite" None 1000.

Definition EnqueueFlushAndRetention : bool :=
  match new_writer (Some empty_database) 10 with
  | Unexpected _ => false
  | Value writer =>
      match execs writer_test_acts writer with
      | None => false
      | Some w =>
          match list_snapshots 1 (store_ w), loadLatest 1 (store_ w), flushes w with
          | (Value rows, _), (Value (Some latest), _), [FReturned] =>
              bool_decide (length rows = 10%nat ∧ length (stored_strokes latest) = 1%nat)
          | _, _, _ => false
          end
      end
  end.

Lemma persistence_tests_pass :
  fst (SaveListLoadLatestAndPruneKeep10 empty_database) = Value true ∧ EnqueueFlushAndRetention = true.
Proof. split; vm_compute; reflexivity. Qed.

(** ** Tests of the server *)

(** What the client was sent, decoded. *)
Definition inbox_of (c : ClientId) (ops : list ServerOp) : list (option ServerMessage) :=
  (λ line, readLine (chomp line)) <$> delivered (session_after ops c).

Definition RespondsToPing : bool := bool_decide (inbox_of 1 (connect 1 ++ [say 1 PingRequest]) = [Some PongResponse]).

Definition CreatesRoomAndReturnsSnapshotOnJoin : bool :=
  match inbox_of 1 (connect 1 ++ [say 1 CreateRoomRequest; say 1 (JoinRoomRequest 1)]) with
  | [Some (RoomCreatedResponse n); Some (SnapshotResponse r)] => bool_decide (n = 1 ∧ rsp_room r = 1)
  | _ => false
  end.

(** The first client closes its connection: its read completes without a line. *)
Definition BroadcastsEventsToOtherMembersAndReportsDisconnect : bool :=
  match inbox_of 2 (connect 1 ++ connect 2 ++
          [say 1 CreateRoomRequest; say 1 (JoinRoomRequest 1); say 2 (JoinRoomRequest 1);
           say 1 (StrokeBeginRequest 1 1 1 (mkPointDto (flt 1) (flt 2))); ReadDone 1 0 None]) with
  | [Some (SnapshotResponse _); Some (StrokeBeginEvent _ _ author _ _ _ _ _); Some (StrokeEndEvent _ _ _ _);
     Some (MemberLeftEvent _ _ client)] => bool_decide (author = 1 ∧ client = 1)
  | _ => false
  end.

Lemma server_tests_pass :
  [RespondsToPing; CreatesRoomAndReturnsSnapshotOnJoin; BroadcastsEventsToOtherMembersAndReportsDisconnect] =
    replicate 3 true.
Proof. vm_compute. reflexivity. Qed.

(** ** Tests with threads *)

(** The threads call the core at once; each call takes the mutex of the room
    once, so what they do is a run of calls in which those of each thread are in
    its order. *)

Section Threads.
Context `{!HashOrder}.

Lemma draw_calm c col th p ps ms : c ∈ ms → Forall (λ op, calm ms op ∧ numbered ms op) (draw c col th p ps).
Proof.
  intros Hc. unfold draw. apply Forall_cons. split; [done|]. apply Forall_app. split; [|by repeat constructor].
  apply Forall_fmap, Forall_true. by intros q.
Qed.

(** The calls of two threads in any order. *)
Definition two_threads (l1 l2 l : list RoomOp) : Prop :=
  Forall (λ op, op_client op = 1 ∨ op_client op = 2) l ∧
  filter (λ op, op_client op = 1) l = l1 ∧ filter (λ op, op_client op = 2) l = l2.

Lemma two_threads_all (P : RoomOp → Prop) l1 l2 l : two_threads l1 l2 l → Forall P l1 → Forall P l2 → Forall P l.
Proof.
  intros (Hc & <- & <-) H1 H2. rewrite Forall_forall in H1, H2, Hc. apply Forall_forall. intros op Hop.
  destruct (Hc op Hop); [apply H1|apply H2]; by apply list_elem_of_filter.
Qed.

(** A board on which only two clients have drawn, one stroke each. *)
Lemma sketches_of_two b k1 k2 :
  sketches 1 b = [k1] → sketches 2 b = [k2] → (∀ c, c ≠ 1 ∧ c ≠ 2 → sketches c b = []) → length (strokes b) = 2%nat.
Proof.
  intros H1 H2 Ho.
  assert (Forall (λ s, stroke_author s = 1 ∨ stroke_author s = 2) (strokes b)) as Ha.
  { apply Forall_forall. intros s Hs. destruct (decide (stroke_author s = 1)), (decide (stroke_author s = 2)); auto.
    specialize (Ho (stroke_author s) ltac:(done)). unfold sketches in Ho. apply fmap_nil_inv in Ho.
    assert (s ∈ filter (λ s', stroke_author s' = stroke_author s) (strokes b)) as Hin by by apply list_elem_of_filter.
    rewrite Ho in Hin. by apply elem_of_nil in Hin. }
  apply (f_equal length) in H1, H2. unfold sketches in H1, H2. rewrite length_fmap in H1, H2. simpl in H1, H2. clear Ho.
  assert (length (strokes b) = (length (filter (λ s, stroke_author s = 1%Z) (strokes b)) +
    length (filter (λ s, stroke_author s = 2%Z) (strokes b)))%nat) as Hlen; [|by rewrite Hlen, H1, H2].
  clear H1 H2. induction Ha as [|s ss Hs _ IH]; [done|]. rewrite !filter_cons.
  destruct Hs as [-> | ->]; simpl; lia.
Qed.

(** Two clients draw one stroke each at the same time, with any points: in
    whatever order the calls come, all are accepted, the board has exactly the two
    strokes, whole and finished, and each call took one number. *)
Theorem TwoClientsDrawConcurrently (id : RoomId) p ps q qs (l : list RoomOp) :
  headroom (2 * Z.of_nat (2 + length l)) (new_room id) →
  two_threads (draw 1 Black Thin p ps) (draw 2 Black Thin q qs) l →
  ∃ ys r, room_calls ([OpJoin 1; OpJoin 2] ++ l) (new_room id) = Some (ys, r) ∧
    Forall (λ y, reply_ok y = true) ys ∧ length (strokes (board_ r)) = 2%nat ∧
    sketches 1 (board_ r) = [mkSketch Black Thin (p :: ps) true] ∧
    sketches 2 (board_ r) = [mkSketch Black Thin (q :: qs) true] ∧
    lastSeq r = Z.of_nat (length l).
Proof.
  intros hr Hl. set (ms := {[1]} ∪ {[2]} : gset Z).
  assert (Forall (λ op, calm ms op ∧ numbered ms op) l) as Hcn
    by (eapply two_threads_all; [exact Hl|apply draw_calm; set_solver..]).
  assert (Forall (calm ms) l ∧ Forall (numbered ms) l) as [Hcalm Hnum] by by apply Forall_and.
  destruct Hl as (Hc & H1 & H2).
  destruct (room_calls_refine ([OpJoin 1; OpJoin 2] ++ l) (new_room id)) as (ys & r & E & S & wf & Hn);
    [apply new_room_wf|done|].
  exists ys, r. split; [done|]. cbn [app spec_calls spec_call] in S. unfold spec_join in S. simpl in S.
  rewrite union_empty_l_L in S. fold ms in S.
  match type of S with context [spec_calls l ?a] => set (a2 := a) in S end.
  assert (∀ c, agrees c a2 (mkSolo ms [])) as Ha by done.
  destruct (spec_calls l a2) as [ys2 a3] eqn:S2. injection S as <- Er.
  pose proof (λ c, calls_agree c l a2 _ ys2 a3 (Ha c) S2) as Hl. rewrite Er in S2, Hl. clear a3 Er.
  assert (foldl (solo_call 1) (mkSolo ms []) l = mkSolo ms [mkSketch Black Thin (p :: ps) true]) as K1
    by (rewrite (solo_own 1 ms [] l Hcalm), H1; apply solo_draw; set_solver).
  assert (foldl (solo_call 2) (mkSolo ms []) l = mkSolo ms [mkSketch Black Thin (q :: qs) true]) as K2
    by (rewrite (solo_own 2 ms [] l Hcalm), H2; apply solo_draw; set_solver).
  destruct (Hl 1) as [[_ Hs1] Hr1], (Hl 2) as [[_ Hs2] Hr2]. rewrite K1 in Hs1. rewrite K2 in Hs2. simpl in Hs1, Hs2.
  assert (Forall (λ y, reply_ok y = true) ys2) as Hok.
  { apply Forall_lookup. intros i y Hy. destruct (l !! i) as [op|] eqn:Hi.
    2:{ apply lookup_ge_None in Hi. apply lookup_lt_Some in Hy. apply room_calls_length in E.
        simpl in E. lia. }
    rewrite Forall_lookup in Hc. destruct (Hc i op Hi) as [Ho|Ho]; [rewrite (Hr1 i op y)|rewrite (Hr2 i op y)]; try done;
      apply own_accepted_lookup; try done; rewrite own_accepted_calm, ?H1, ?H2 by done; apply draw_accepted; set_solver. }
  split; [by repeat constructor|]. split; [|split_and!; [done|done|]].
  - apply (sketches_of_two (board_ r) _ _ Hs1 Hs2). intros c Hne. destruct (Hl c) as [[_ Hsk] _]. simpl in Hsk. rewrite Hsk.
    rewrite (solo_own c ms [] l Hcalm), filter_none; [done|]. intros op Hop Hcl. rewrite Forall_forall in Hc.
    destruct (Hc op Hop); naive_solver.
  - pose proof (run_numbers ms l a2 eq_refl Hnum) as Hq. rewrite S2 in Hq. specialize (Hq Hok). simpl in Hq.
    unfold lastSeq. rewrite bool_decide_eq_false_2 by lia. lia.
Qed.

Definition move (pos : ClientId → Point) (c : ClientId) : RoomOp := OpApply 0 c (CursorMove (pos c)).

(** The first moves of several members. *)
Lemma first_moves pos cs a :
  NoDup cs → Forall (λ c, c ∈ sp_members a ∧ sp_lastMove a !! c = None) cs →
  Forall (λ y, reply_ok y = true) (spec_calls (move pos <$> cs) a).1 ∧
  ∀ c, cursors (sp_board (spec_calls (move pos <$> cs) a).2) !! c =
    if decide (c ∈ cs) then Some (pos c) else cursors (sp_board a) !! c.
Proof.
  intros Hnd. revert a. induction Hnd as [|c cs Hc _ IH]; intros a Ha.
  { split; [constructor|]. intros c. by rewrite decide_False by apply not_elem_of_nil. }
  apply Forall_cons in Ha as [[Hin Hl] Ha]. cbn [fmap list_fmap spec_calls move spec_call]. unfold spec_apply.
  rewrite bool_decide_eq_true_2 by done. unfold spec_move. rewrite Hl. simpl.
  match goal with |- context [spec_calls _ ?b] => set (a1 := b) end. destruct (IH a1) as [Hok Hcur].
  { rewrite Forall_forall in Ha. apply Forall_forall. intros d Hd. destruct (Ha d Hd) as [Hdm Hdl]. split; [done|]. simpl.
    rewrite lookup_insert_ne by (intros ->; done). done. }
  change (OpApply 0 c (CursorMove (pos c))) with (move pos c).
  destruct (spec_calls (move pos <$> cs) a1) as [ys a2] eqn:E. simpl in Hok, Hcur.
  simpl.
  split; [by constructor|]. intros d. rewrite Hcur. simpl. destruct (decide (d ∈ cs)).
  - by rewrite decide_True by by right.
  - destruct (decide (d = c)) as [->|Hne]; [by rewrite lookup_insert_eq, decide_True by by left|].
    rewrite lookup_insert_ne by done. rewrite decide_False; [done|]. by intros [|]%elem_of_cons.
Qed.

Lemma all_join cs a :
  ∃ ys a', spec_calls (OpJoin <$> cs) a = (ys, a') ∧ Forall (λ y, reply_ok y = true) ys ∧
    sp_members a' = sp_members a ∪ list_to_set cs ∧ sp_lastMove a' = sp_lastMove a ∧ sp_board a' = sp_board a.
Proof.
  revert a. induction cs as [|c cs IH]; intros a; [exists [], a; split_and!; [done|constructor|set_solver|done..]|].
  cbn [fmap list_fmap spec_calls spec_call]. unfold spec_join at 1.
  match goal with |- context [spec_calls _ ?b] => destruct (IH b) as (ys & a' & E & Hok & Hm & Hl & Hb) end.
  change (list_fmap Z RoomOp OpJoin cs) with (OpJoin <$> cs). rewrite E. eexists _, a'. split; [reflexivity|].
  split_and!; [by constructor| |done|done]. rewrite Hm. simpl. set_solver.
Qed.

(** Any number of clients move their cursors at the same time: in whatever
    order the calls come, all are accepted, and the board has the cursor of each
    where it put it, and no other. *)
Theorem ConcurrentCursorMovesFromManyClients (id : RoomId) pos (cs l : list ClientId) :
  headroom (2 * Z.of_nat (length cs + length l)) (new_room id) → NoDup cs → l ≡ₚ cs →
  ∃ ys r, room_calls ((OpJoin <$> cs) ++ (move pos <$> l)) (new_room id) = Some (ys, r) ∧
    Forall (λ y, reply_ok y = true) ys ∧ size (cursors (board_ r)) = length cs ∧
    ∀ c, c ∈ cs → cursors (board_ r) !! c = Some (pos c).
Proof.
  intros hr Hnd Hp. destruct (room_calls_refine ((OpJoin <$> cs) ++ (move pos <$> l)) (new_room id)) as (ys & r & E & S & _);
    [apply new_room_wf|by rewrite length_app, !length_fmap|].
  exists ys, r. split; [done|]. destruct (all_join cs (abs_room (new_room id))) as (ys1 & a1 & E1 & Hok1 & Hm & Hl & Hb).
  rewrite spec_calls_app, E1 in S.
  destruct (first_moves pos l a1) as [Hok2 Hcur]; [by rewrite Hp|apply Forall_forall; intros c Hc; split|].
  { rewrite Hm. simpl. rewrite Hp in Hc. set_solver. }
  { rewrite Hl. apply lookup_empty. }
  destruct (spec_calls (move pos <$> l) a1) as [ys2 a2] eqn:E2. simpl in S, Hok2, Hcur.
  rewrite E2 in S. injection S as <- ->.
  assert (∀ c, cursors (board_ r) !! c = if decide (c ∈ cs) then Some (pos c) else None) as Hc.
  { intros c. rewrite Hcur, Hb. simpl. rewrite lookup_empty. by apply decide_ext; rewrite Hp. }
  split; [by apply Forall_app|]. split; [|intros c Hin; by rewrite Hc, decide_True].
  rewrite <-size_dom. replace (dom (cursors (board_ r))) with (list_to_set cs : gset Z);
    [by apply size_list_to_set|].
  apply set_eq. intros c. rewrite elem_of_list_to_set, elem_of_dom, Hc. by case_decide; split.
Qed.
End Threads.
