(* ===== verification/NonFinite.v ===== *)
(** * Coordinates that are not finite

    Nothing between the line of a client and the board checks that a coordinate
    is finite, and a float that is not (1e39 read as a float is an infinity) is
    written as [null], which no client can read as a number.  One such point in
    a stroke makes the snapshot of its room unreadable, for everyone who joins. *)
From S2P Require Import Prelude CoreTypes Room RoomSpec RoomRefine RoomTrace RoomProps ServerCore.
From S2P Require Import CoreProps Messages Mappers JsonProtocol JsonSpec JsonModel JsonProps Session SessionInv Wire.

(** What the library reads back from the text it writes for a value: floats that
    are not finite are [null], from which [get<float>()] throws. *)
Class JsonWritten `{JsonLaws} := {
  json_written : json → json;
  parse_written j line : json_dump j = Some line → json_parse line = inl (json_written j);
  written_object kvs : json_written (json_object kvs) = json_object (prod_map id json_written <$> kvs);
  written_array l : json_written (json_array l) = json_array (json_written <$> l);
  written_string s : json_written (json_of_string s) = json_of_string s;
  written_float x : ¬ float32_finite x → get_float (json_written (json_of_float x)) = None;
}.

#[export] Instance float32_finite_dec x : Decision (float32_finite x).
Proof. unfold float32_finite. apply _. Defined.

Lemma bind_none {A B} (m : option A) (f : A → option B) : (∀ x, f x = None) → m ≫= f = None.
Proof. intros Hf. destruct m; [apply Hf|done]. Qed.

Lemma mapM_none {A B} (f : A → option B) l : Exists (λ x, f x = None) l → mapM f l = None.
Proof.
  induction 1 as [x l Hx|x l _ IH]; simpl; [by rewrite Hx|]. destruct (f x); simpl; [by rewrite IH|done].
Qed.

Section Decode.
Context `{JsonClient} `{!JsonWritten}.

(** The value of a field of a written object. *)
Ltac written_at k := unfold field; rewrite (object_at _ k) by by_decision; simpl.

Lemma point_unreadable p : ¬ point_finite p → decodePoint (json_written (makePointJson p)) = None.
Proof.
  intros Hp. unfold decodePoint, makePointJson. rewrite written_object. simpl.
  destruct (decide (float32_finite (dto_x p))) as [Hx|Hx].
  - apply bind_none. intros x. written_at "y". rewrite written_float; [done|]. intros Hy. by apply Hp.
  - written_at "x". by rewrite written_float.
Qed.

Lemma array_unreadable {A T} (get : json → option T) (f : A → json) l :
  Exists (λ x, get (json_written (f x)) = None) l → list_of get (json_written (json_array (f <$> l))) = None.
Proof.
  intros Hl. unfold list_of. rewrite written_array, array_elements. simpl.
  apply mapM_none. rewrite !Exists_fmap. exact Hl.
Qed.

(** A stroke that has a point no client can read. *)
Definition stroke_hidden (s : StrokeDto) : Prop := Exists (λ p, ¬ point_finite p) (dto_points s).

Lemma stroke_unreadable s : stroke_hidden s → decodeStroke (json_written (makeStrokeJson s)) = None.
Proof.
  intros Hs. unfold decodeStroke, makeStrokeJson. rewrite written_object. simpl.
  do 5 (apply bind_none; intros ?).
  written_at "points". rewrite (array_unreadable decodePoint makePointJson); [done|].
  eapply Exists_impl; [exact Hs|]. apply point_unreadable.
Qed.

(** The line of a snapshot with such a stroke, or of an event with such a point. *)
Definition message_hidden (m : ServerMessage) : Prop :=
  match m with
  | SnapshotResponse r => Exists stroke_hidden (rsp_strokes r)
  | StrokePointEvent _ _ _ _ p => ¬ point_finite p
  | _ => False
  end.

Lemma message_unreadable m line :
  message_hidden m → serializeServerMessage m = Some line → readLine line = None.
Proof.
  intros Hm Hd. unfold readLine. rewrite (parse_written _ _ Hd). destruct m; try done; simpl in Hm;
    unfold decodeServerMessage, serverMessageJson; rewrite written_object; simpl;
    written_at "type"; rewrite written_string, string_get; simpl;
    decide_types.
  - do 3 (apply bind_none; intros ?). written_at "strokes".
    rewrite (array_unreadable decodeStroke makeStrokeJson); [done|].
    eapply Exists_impl; [exact Hm|]. apply stroke_unreadable.
  - do 4 (apply bind_none; intros ?). written_at "point". by rewrite point_unreadable.
Qed.
End Decode.

(** ** Boards *)

(** Some stroke has a point no client can read. *)
Definition board_hidden (b : BoardState) : Prop :=
  Exists (λ s, Exists (λ p, ¬ finite_point p) (points s)) (strokes b).

Definition no_clear (op : RoomOp) : Prop := match op with OpApply _ _ Clear => False | _ => True end.

Lemma hidden_map c f ss cs :
  (∀ s p, p ∈ points s → p ∈ points (f s)) → board_hidden (mkBoardState ss cs) →
  ∀ cs', board_hidden (mkBoardState (map_drawing c f ss) cs').
Proof.
  unfold board_hidden. simpl. intros Hf Hs cs'. apply Exists_exists in Hs as (s & Hs & Hp).
  apply Exists_exists. exists (if drawing c s then f s else s). split; [by apply map_drawing_elem|].
  apply Exists_exists in Hp as (p & Hp & Hn). apply Exists_exists. exists p. case_match; auto.
Qed.

(** Only clearing the board takes such a point away. *)
Lemma hidden_keeps `{HashOrder} op a :
  no_clear op → board_hidden (sp_board a) → board_hidden (sp_board (spec_call op a).2).
Proof.
  assert (∀ c cs, board_hidden (sp_board a) → board_hidden (mkBoardState (map_drawing c set_finished (strokes (sp_board a))) cs)) as Hfin.
  { intros c cs Hb. destruct (sp_board a) as [ss cs0]. by apply (hidden_map c set_finished ss cs0). }
  intros Hop Hb. destruct op as [c|c|now c ev]; simpl.
  - done.
  - unfold spec_leave. case_bool_decide; [done|]. destruct (drawing_id c (sp_board a)); simpl; [by apply Hfin|exact Hb].
  - unfold spec_apply. case_bool_decide; [|done].
    destruct ev as [col th p|p| |p|]; [| | | |done]; unfold spec_begin, spec_point, spec_end, spec_move.
    + destruct (is_drawing _ _); [done|]. simpl. apply Exists_app. by left.
    + destruct (drawing_id c (sp_board a)); [|done]. simpl. destruct (sp_board a) as [ss cs].
      apply (hidden_map c (push_point p) ss cs); [|done]. intros s q Hq. simpl. set_solver.
    + destruct (drawing_id c (sp_board a)); [|done]. by apply Hfin.
    + case_match; [done|]. exact Hb.
Qed.

(** Drawing one is accepted. *)
Lemma point_hides `{HashOrder} now c p a :
  c ∈ sp_members a → is_drawing c (sp_board a) = true → ¬ finite_point p →
  board_hidden (sp_board (spec_call (OpApply now c (StrokePoint p)) a).2) ∧
  ∃ sid, (spec_call (OpApply now c (StrokePoint p)) a).1 =
    ReplyEvents (Value (fanout (sp_id a) (sp_members a) c (sp_seq a + 1) (StrokePointOut c sid p))).
Proof.
  intros Hc Hd Hp. apply existsb_exists in Hd as (s & Hs & Hd). apply list_elem_of_In in Hs.
  destruct (drawing_id_some c (sp_board a) s Hs Hd) as [[sid Hid] _]. simpl. unfold spec_apply, spec_point.
  rewrite bool_decide_eq_true_2 by done. rewrite Hid. simpl. split; [|by exists sid].
  apply Exists_exists. exists (push_point p s). split.
  - pose proof (map_drawing_elem c (push_point p) _ _ Hs) as Hm. by rewrite Hd in Hm.
  - apply Exists_exists. exists p. split; [|done]. simpl. set_solver.
Qed.

Section Hidden.
Context `{HashOrder} {Σ : Type} `{SnapshotSink Σ} `{JsonClient} `{!JsonWritten}.
Implicit Types s : @ServerCore Σ.

Definition room_hidden (room : RoomId) s : Prop :=
  ∃ r, core_room s room = Some r ∧ board_hidden (board_ r).

Definition clears_not (room : RoomId) (op : CoreOp) : Prop :=
  match op with CoreRoom room' op => room' = room → no_clear op | CoreCreate => True end.

Lemma room_hidden_call room op k s y s' :
  core_wf s → core_headroom k s → 1 ≤ k → clears_not room op → core_call op s = Some (y, s') →
  room_hidden room s → room_hidden room s'.
Proof.
  intros wf hr Hk Hop E (r & Er & Hb). destruct op as [|room' op].
  - rewrite createRoom_step in E by (done || destruct hr; lia). injection E as <- <-. exists r. split; [|done].
    unfold core_room in *. simpl. rewrite lookup_insert_ne; [done|]. intros <-.
    assert (is_Some (core_room s (nextRoomId_ (core_rooms s)))) as Hs by (unfold core_room; eauto).
    apply (cw_rooms s wf) in Hs. lia.
  - destruct (core_room s room') as [r0|] eqn:Er0.
    2:{ rewrite core_call_missing in E by done. injection E as <- <-. by exists r. }
    destruct (cw_room s wf room' r0 Er0) as [_ wr].
    destruct (room_call_refines op r0 wr) as (y' & r' & E' & S & _);
      [destruct hr as [_ hr]; specialize (hr _ _ Er0); unfold headroom in *; lia|].
    rewrite (core_call_present s room' op r0 y' r') in E by done. injection E as <- <-.
    unfold room_hidden. rewrite core_room_save, core_room_set. case_bool_decide as Hroom; [|by exists r].
    subst room'. rewrite Er in Er0. injection Er0 as <-. exists r'. split; [done|].
    change (board_hidden (sp_board (abs_room r'))). replace (abs_room r') with (spec_call op (abs_room r)).2 by by rewrite S.
    apply hidden_keeps; [by apply Hop|exact Hb].
Qed.

Lemma wire_unreadable m line : message_hidden m → wire m = Some line → readLine (chomp line) = None.
Proof.
  intros Hm (json & Hj & ->)%fmap_Some. rewrite chomp_line. by eapply message_unreadable.
Qed.

Lemma snapshot_hidden snap : board_hidden (snap_state snap) → message_hidden (toSnapshotMessage snap).
Proof.
  unfold board_hidden. simpl. rewrite Exists_fmap. intros Hb. eapply Exists_impl; [exact Hb|].
  intros s Hs. unfold stroke_hidden. simpl. by rewrite Exists_fmap.
Qed.

(** C36. One client can hide a board from everyone.  A coordinate that is not
    finite is accepted from a client that is drawing; the line of its event
    cannot be read, and neither can the snapshot sent to anyone who joins the
    room, however long after, until someone clears the board. *)
Theorem nonfinite_point_hides_board s k room r now c p ops d :
  core_wf s → core_headroom k s → Z.of_nat (length ops) + 2 ≤ k → core_room s room = Some r →
  c ∈ members_ r → is_drawing c (board_ r) = true → ¬ finite_point p → Forall (clears_not room) ops →
  ∃ evs ys snap s', core_calls (CoreRoom room (OpApply now c (StrokePoint p)) :: ops ++ [CoreRoom room (OpJoin d)]) s =
      Some (ReplyRoom (ReplyEvents (Value evs)) :: ys ++ [ReplyRoom (ReplySnapshot (Value snap))], s') ∧
    (∀ e line, e ∈ evs → wire (toServerMessage e) = Some line → readLine (chomp line) = None) ∧
    (∀ line, wire (toSnapshotMessage snap) = Some line → readLine (chomp line) = None).
Proof.
  intros wf hr Hk Er Hc Hd Hp Hops. set (op := OpApply now c (StrokePoint p)).
  destruct (cw_room s wf room r Er) as [_ wr].
  destruct (room_call_refines op r wr) as (y & r1 & E1 & S1 & _);
    [destruct hr as [_ hr]; specialize (hr _ _ Er); unfold headroom in *; lia|].
  pose proof (core_call_present s room op r y r1 Er E1) as Ec. set (s1 := save_if _ _ _) in Ec.
  destruct (core_call_step (CoreRoom room op) k s wf hr ltac:(lia)) as (y1 & s1' & Ec' & wf1 & hr1 & _).
  rewrite Ec in Ec'. injection Ec' as <- <-.
  destruct (point_hides now c p (abs_room r) Hc Hd Hp) as [Hb (sid & Hy)]. fold op in Hb, Hy. rewrite S1 in Hb, Hy.
  simpl in Hb, Hy. subst y.
  assert (room_hidden room s1) as Hh1.
  { exists r1. split; [|exact Hb]. unfold s1. rewrite core_room_save, core_room_set. by rewrite bool_decide_eq_true_2. }
  destruct (core_calls_run ops (k - 1) s1 wf1 hr1 ltac:(lia)) as (ys & s2 & E2 & wf2 & hr2 & _).
  destruct (core_calls_inv (room_hidden room) (clears_not room) (λ _, True) ops (k - 1) s1 ys s2)
    as ((r2 & Er2 & Hb2) & _); try done; [|lia|].
  { intros op1 k1 co y co' w h Hk1 Ho E Hh. split; [|done]. by eapply (room_hidden_call room op1 k1 co). }
  destruct (cw_room s2 wf2 room r2 Er2) as [_ wr2].
  destruct (room_call_refines (OpJoin d) r2 wr2) as (y3 & r3 & E3 & S3 & _);
    [destruct hr2 as [_ hr2]; specialize (hr2 _ _ Er2); unfold headroom in *; lia|].
  pose proof (core_call_present s2 room (OpJoin d) r2 y3 r3 Er2 E3) as Ej.
  injection S3 as <- _. eexists _, ys, _, _. split_and!.
  - cbn [core_calls]. unfold mbind at 1, M_bind at 1. rewrite Ec. unfold mbind, M_bind. rewrite core_calls_app.
    unfold mbind, M_bind. rewrite E2. rewrite (core_calls_one _ _ _ _ Ej). reflexivity.
  - intros e line He. apply wire_unreadable. apply list_elem_of_fmap in He as (m & -> & _). exact Hp.
  - intros line. by apply wire_unreadable, snapshot_hidden.
Qed.
End Hidden.

(** ** Witness *)

Lemma text_ok_scrub t : text_ok t = true → text_ok (scrub t) = true.
Proof.
  revert t. fix FIX 1. intros [[| |x|]|n ts] Ht; try done; simpl in *.
  - by destruct (finite_bits x).
  - induction ts as [|t ts IH]; [done|]. simpl in *. apply andb_prop in Ht as [Ht Hts].
    apply andb_true_intro. split; [exact (FIX t Ht)|exact (IH Hts)].
Qed.

#[export] Instance tree_written : @JsonWritten tree_json tree_laws.
Proof.
  refine {| json_written (t : @json tree_json) := scrub t |}; try done.
  - intros j line. simpl. destruct (text_ok j) eqn:Ht; [|done]. intros [= <-].
    by rewrite BinaryString.to_pos_of_pos, decode_encode, (text_ok_scrub _ Ht).
  - intros kvs. simpl. f_equal. induction kvs as [|[k v] kvs IH]; [done|].
    exact (f_equal (λ l, GenLeaf (JString k) :: scrub v :: l) IH).
  - intros x Hx. simpl. unfold finite_bits. by rewrite bool_decide_eq_false_2.
Defined.

#[local] Existing Instance elements_order.

(** 1e39, read as a float. *)
Definition infinite : Point := mkPoint 2139095040 0.

(** Client 1 draws in room 1, of which client 5 is a member too. *)
Definition drawing_core : @ServerCore (list PersistedBoardSnapshot) :=
  match core_calls [CoreCreate; CoreRoom 1 (OpJoin 1); CoreRoom 1 (OpJoin 5);
    CoreRoom 1 (OpApply 0 1 (StrokeBegin Green Medium (mkPoint 3 4)))] (new_core (Some [])) with
  | Some (_, s) => s
  | None => new_core None
  end.

Lemma drawing_core_ok : core_wf drawing_core ∧ core_headroom 96 drawing_core.
Proof.
  destruct (core_calls_run [CoreCreate; CoreRoom 1 (OpJoin 1); CoreRoom 1 (OpJoin 5);
    CoreRoom 1 (OpApply 0 1 (StrokeBegin Green Medium (mkPoint 3 4)))] 100 (new_core (Some ([] : list PersistedBoardSnapshot))))
    as (ys & s & E & wf & hr & _); [apply new_core_wf|by apply new_core_headroom|done|].
  unfold drawing_core. rewrite E. split; [exact wf|exact hr].
Qed.

Definition drawing_room : Room := default (new_room 1) (core_room drawing_core 1).

Lemma nonfinite_point_hides_board_witness :
  ∃ evs ys snap s', core_calls [CoreRoom 1 (OpApply 7 1 (StrokePoint infinite)); CoreRoom 1 (OpApply 8 1 StrokeEnd);
      CoreRoom 1 (OpLeave 1); CoreRoom 1 (OpJoin 9)] drawing_core =
      Some (ReplyRoom (ReplyEvents (Value evs)) :: ys ++ [ReplyRoom (ReplySnapshot (Value snap))], s') ∧
    (∀ line, wire (toSnapshotMessage snap) = Some line → readLine (chomp line) = None).
Proof.
  destruct (nonfinite_point_hides_board drawing_core 96 1 drawing_room 7 1 infinite
    [CoreRoom 1 (OpApply 8 1 StrokeEnd); CoreRoom 1 (OpLeave 1)] 9) as (evs & ys & snap & s' & E & _ & Hs).
  - apply drawing_core_ok.
  - apply drawing_core_ok.
  - simpl. lia.
  - vm_compute. reflexivity.
  - by_decision.
  - vm_compute. reflexivity.
  - intros [[_ Hx] _]. by apply Hx.
  - by repeat constructor.
  - exists evs, ys, snap, s'. split; [exact E|exact Hs].
Defined.
