(* ===== verification/Interleave.v ===== *)
(** * Interleaved programs

    Code that runs on several threads, as a tree of actions: each [Act] is one
    atomic transition of the shared state, and its result chooses the rest.
    A pool holds the programs in progress, one per strand, and a step runs the
    next action of one of them.  The trace records what the actions let an
    observer see. *)
From S2P Require Import Prelude.

Section Programs.
Context {S O : Type}.

(** A program of result [A] over the shared state [S], with observations [O]. *)
Inductive prog (A : Type) : Type :=
  | Return (x : A)
  | Act {B : Type} (a : M S B) (seen : B → list O) (rest : B → prog A).
Arguments Return {A} x.
Arguments Act {A B} a seen rest.

Fixpoint prog_bind {A B} (f : A → prog B) (p : prog A) : prog B :=
  match p with
  | Return x => f x
  | Act a seen rest => Act a seen (λ x, prog_bind f (rest x))
  end.

#[export] Instance prog_ret : MRet prog := λ A x, Return x.
#[export] Instance prog_mbind : MBind prog := λ A B, prog_bind.

(** One action, unobserved or with the observations [seen]. *)
Definition atomic {A} (a : M S A) : prog A := Act a (λ _, []) Return.
Definition observed {A} (a : M S A) (seen : A → list O) : prog A := Act a seen Return.

(** The program run alone. *)
Fixpoint exec {A} (p : prog A) : M S A :=
  match p with
  | Return x => mret x
  | Act a _ rest => x ← a; exec (rest x)
  end.

Lemma exec_bind {A B} (p : prog A) (f : A → prog B) s :
  exec (p ≫= f) s = (x ← exec p; exec (f x)) s.
Proof.
  revert s. induction p as [x|B' a seen rest IH]; intros s; [done|].
  simpl. unfold mbind, M_bind. destruct (a s) as [[x s1]|]; [apply IH|done].
Qed.

Lemma exec_atomic {A} (a : M S A) s : exec (atomic a) s = a s.
Proof. simpl. unfold mbind, M_bind. by destruct (a s) as [[]|]. Qed.

Lemma exec_atomic_bind {A B} (a : M S A) (f : A → prog B) s :
  exec (atomic a ≫= f) s = (x ← a; exec (f x)) s.
Proof. done. Qed.

Lemma exec_observed {A} (a : M S A) seen s : exec (observed a seen) s = a s.
Proof. apply (exec_atomic a). Qed.

(** Every action of the program satisfies [ok], whatever the results are. *)
Fixpoint every_action (ok : ∀ B, M S B → (B → list O) → Prop) {A} (p : prog A) : Prop :=
  match p with
  | Return _ => True
  | Act a seen rest => ok _ a seen ∧ ∀ x, every_action ok (rest x)
  end.

Lemma every_action_bind ok {A B} (p : prog A) (f : A → prog B) :
  every_action ok p → (∀ x, every_action ok (f x)) → every_action ok (p ≫= f).
Proof.
  intros Hp Hf. induction p as [x|B' a seen rest IH]; [apply Hf|].
  destruct Hp as [Ha Hp]. split; [done|]. intros x. by apply IH.
Qed.
End Programs.

Arguments prog S O A : clear implicits.
Arguments Return {S O A} x.
Arguments Act {S O A B} a seen rest.

(** ** Pools *)

Section Pools.
Context {S O K : Type} `{Countable K}.

Record Pool := mkPool {
  shared : S;
  running : gmap K (prog S O unit);
  trace : list (K * O);
}.

(** The strand [k] runs its next action; a program that has returned is done. *)
Definition pool_next (k : K) : M Pool unit := λ P,
  match running P !! k with
  | None => Some (tt, P)
  | Some (Return _) => Some (tt, mkPool (shared P) (delete k (running P)) (trace P))
  | Some (Act a seen rest) =>
      match a (shared P) with
      | Some (x, s) =>
          Some (tt, mkPool s (<[k := rest x]> (running P)) (trace P ++ ((k,.) <$> seen x)))
      | None => None
      end
  end.

Fixpoint pool_nexts (ks : list K) : M Pool unit :=
  match ks with
  | [] => mret tt
  | k :: ks => pool_next k ;; pool_nexts ks
  end.

(** A program that is not preempted does what it does alone. *)
Lemma pool_alone k p s x s' m t :
  exec p s = Some (x, s') →
  ∃ n t', pool_nexts (replicate n k) (mkPool s (<[k := p]> m) t) = Some (tt, mkPool s' (delete k m) t').
Proof.
  revert s t. induction p as [y|B a seen rest IH]; intros s t E.
  - injection E as _ ->. exists 1%nat, t. simpl. unfold pool_next, mbind, M_bind. simpl.
    by rewrite lookup_insert_eq, delete_insert_eq.
  - simpl in E. unfold mbind, M_bind in E. destruct (a s) as [[y s1]|] eqn:Ea; [|done].
    destruct (IH y s1 (t ++ ((k,.) <$> seen y)) E) as (n & t' & E').
    exists (Datatypes.S n), t'. simpl. unfold pool_next, mbind, M_bind. simpl.
    by rewrite lookup_insert_eq, Ea, insert_insert_eq.
Qed.

(** What the strand [k] let an observer see. *)
Definition seen_of (k : K) (t : list (K * O)) : list O := (filter (λ e, e.1 = k) t).*2.

Lemma seen_of_app k t t' : seen_of k (t ++ t') = seen_of k t ++ seen_of k t'.
Proof. unfold seen_of. by rewrite filter_app, fmap_app. Qed.

Lemma seen_of_tagged k k' l : seen_of k ((k',.) <$> l) = if bool_decide (k' = k) then l else [].
Proof.
  unfold seen_of. rewrite filter_fmap, <-list_fmap_compose. case_bool_decide as Hk.
  - rewrite filter_all by done. apply list_fmap_id.
  - by rewrite filter_none.
Qed.

Lemma seen_of_sublist k t : seen_of k t `sublist_of` t.*2.
Proof. unfold seen_of. apply fmap_sublist, sublist_filter. Qed.

(** Whatever agrees on each strand agrees on the whole trace, up to order. *)
Lemma seen_of_permutation {A} (f g : O → list A) t :
  (∀ k, seen_of k t ≫= f = seen_of k t ≫= g) → (t.*2 ≫= f) ≡ₚ (t.*2 ≫= g).
Proof.
  remember (length t) as n eqn:Hn. revert t Hn. induction (lt_wf n) as [n _ IH]. intros t -> Hfg.
  destruct t as [|[k o] t]; [done|]. set (t0 := (k, o) :: t) in *.
  rewrite <-(filter_app_complement (λ e, e.1 = k) t0). rewrite fmap_app, !bind_app.
  assert ((filter (λ e, e.1 = k) t0).*2 ≫= f = (filter (λ e, e.1 = k) t0).*2 ≫= g) as -> by apply Hfg.
  f_equiv. eapply IH; [|done|].
  - unfold t0. rewrite filter_cons, decide_False by (by intros []). simpl.
    pose proof (length_filter (λ e : K * O, e.1 ≠ k) t). lia.
  - intros k'. unfold seen_of. rewrite !list_filter_filter. destruct (decide (k' = k)) as [->|Hne].
    + rewrite filter_none by naive_solver. done.
    + rewrite (list_filter_iff _ (λ e, e.1 = k')) by naive_solver. apply Hfg.
Qed.

(** An invariant of the shared state and the trace, from the actions. *)
Section Trace.
Variable ok : ∀ B, M S B → (B → list O) → Prop.
Variable I : S → list O → Prop.
Hypothesis ok_step : ∀ B a seen s x s' t, ok B a seen → a s = Some (x, s') → I s t → I s' (t ++ seen x).

Definition traced (P : Pool) : Prop :=
  I (shared P) (trace P).*2 ∧ ∀ k p, running P !! k = Some p → every_action ok p.

Lemma traced_next k P x P' : pool_next k P = Some (x, P') → traced P → traced P'.
Proof.
  unfold pool_next. intros E [HI Hp]. destruct (running P !! k) as [[y|B a seen rest]|] eqn:Hk;
    [|destruct (a (shared P)) as [[y s]|] eqn:Ea; [|done]|]; injection E as _ <-; [| |done].
  - split; [done|]. intros k' p. simpl. rewrite lookup_delete_Some. intros [_ Hk']. by eapply Hp.
  - destruct (Hp _ _ Hk) as [Ha Hrest]. split; simpl.
    + rewrite fmap_app, <-list_fmap_compose, list_fmap_id. by eapply ok_step.
    + intros k' p. rewrite lookup_insert. case_decide; [intros [= <-]; apply Hrest|by apply Hp].
Qed.
End Trace.

(** [n] steps of a scheduler, which picks a strand. *)
Fixpoint drive (pick : Pool → K) (n : nat) : M Pool unit :=
  match n with
  | Datatypes.O => mret tt
  | Datatypes.S n => P ← get; pool_next (pick P) ;; drive pick n
  end.
End Pools.
