(* ===== verification/ServerThreads.v ===== *)
(** * The server on several threads

    [main] runs the event loop on several threads, so the handlers of different
    sessions run at the same time.  Here a handler of [Session.v] is split at
    every access to what the threads share: a call on a room, which holds the
    mutex of the room, a look-up in the table of rooms or in the registry, the
    hand-over of a snapshot, the posting of a line on the strand of another
    session.  What a session does to its own members between two of them is
    seen by no other thread and is part of the action next to it.

    The strand of a session runs one handler at a time, and the acceptor has one
    operation in flight ([None] is its strand, and that of the calls from
    outside).  A schedule begins handlers and runs their actions in any order;
    with handlers that are not preempted it is a run of [Session.v]
    ([handler_alone], [run_is_schedule]). *)
From S2P Require Import Prelude CoreTypes Room RoomSpec RoomRefine RoomTrace RoomProps ServerCore.
From S2P Require Import Messages Mappers JsonProtocol Session Interleave.

(** What a handler lets an observer see: a call on the core with its reply, a
    snapshot given to the sink, an event passed to the registry and whether it
    found its session. *)
Inductive Seen :=
  | Called (op : CoreOp) (y : CoreReply)
  | Saved (snapshot : PersistedBoardSnapshot)
  | Sent (event : OutgoingEvent) (found : bool).

Section Threads.
Context `{HashOrder} {Σ : Type} `{SnapshotSink Σ} `{JsonLib}.

Abbreviation handler_prog := (prog (@Server Σ) Seen).
Abbreviation server_pool := (@Pool (@Server Σ) Seen (option ClientId) _ _).

(** ** ServerCore *)

(** [rooms_.getRoom(room)], for the call [op]: a room that is missing ends it. *)
Definition find_room (room : RoomId) (op : RoomOp) : handler_prog (option RoomId) :=
  observed (on_core (on_rooms (getRoom room))) (λ r,
    match r with
    | Some _ => []
    | None => [Called (CoreRoom room op) (ReplyRoom (reply_error roomNotFound op))]
    end).

Definition on_ptr {A} (ptr : RoomId) (m : M Room A) : M (@Server Σ) A :=
  on_core (on_rooms (on_room ptr m)).

(** [snapshotSink_->enqueue(r->makePersistedSnapshot())]. *)
Definition save_board (ptr : RoomId) : handler_prog unit :=
  snap ← atomic (on_ptr ptr (observe makePersistedSnapshot));
  observed (on_core (enqueue_snapshot snap)) (λ _, [Saved snap]).

Definition joinRoom_p (client : ClientId) (room : RoomId) : handler_prog (Expected RoomSnapshot Error) :=
  r ← find_room room (OpJoin client);
  match r with
  | None => mret (Unexpected roomNotFound)
  | Some ptr =>
      observed (on_ptr ptr (join client)) (λ y,
        [Called (CoreRoom ptr (OpJoin client)) (ReplyRoom (ReplySnapshot y))])
  end.

Definition leaveRoom_p (client : ClientId) (room : RoomId) :
    handler_prog (Expected (list OutgoingEvent) Error) :=
  r ← find_room room (OpLeave client);
  match r with
  | None => mret (Unexpected roomNotFound)
  | Some ptr =>
      res ← observed (on_ptr ptr (leave client)) (λ y,
        [Called (CoreRoom ptr (OpLeave client)) (ReplyRoom (ReplyEvents y))]);
      match res with
      | Unexpected _ => mret res
      | Value _ =>
          core ← atomic (on_core get);
          (if has_sink core then
             n ← atomic (on_ptr ptr (observe memberCount));
             if bool_decide (n = 0%nat) then save_board ptr else mret tt
           else mret tt) ;;
          mret res
      end
  end.

Definition handleEvent_p (now : TimePoint) (client : ClientId) (room : RoomId) (ev : EventPayload) :
    handler_prog (Expected (list OutgoingEvent) Error) :=
  r ← find_room room (OpApply now client ev);
  match r with
  | None => mret (Unexpected roomNotFound)
  | Some ptr =>
      res ← observed (on_ptr ptr (apply now client ev)) (λ y,
        [Called (CoreRoom ptr (OpApply now client ev)) (ReplyRoom (ReplyEvents y))]);
      match res with
      | Unexpected _ => mret res
      | Value _ =>
          core ← atomic (on_core get);
          (if has_sink core then
             if shouldSave ev then save_board ptr else mret tt
           else mret tt) ;;
          mret res
      end
  end.

(** ** ClientSession *)

Definition registry_deliver_p (event : OutgoingEvent) : handler_prog unit :=
  session ← observed (registry_find (ev_to event)) (λ r,
    match r with Some _ => [] | None => [Sent event false] end);
  match session with
  | Some c => observed (deliver c (toServerMessage event)) (λ _, [Sent event true])
  | None => mret tt
  end.

Fixpoint dispatchOutgoing_p (events : list OutgoingEvent) : handler_prog unit :=
  match events with
  | [] => mret tt
  | event :: events => registry_deliver_p event ;; dispatchOutgoing_p events
  end.

(** [stopped_.exchange(true)]: the members before it. *)
Definition exchange_stopped (c : ClientId) : M (@Server Σ) Session :=
  ss ← this c; on_session c set_stopped ;; mret ss.

Definition stopImpl_p (c : ClientId) : handler_prog unit :=
  ss ← atomic (exchange_stopped c);
  if stopped_ ss then mret tt else
  match currentRoom_ ss with
  | Some room =>
      result ← leaveRoom_p c room;
      match result with
      | Value events => dispatchOutgoing_p events
      | Unexpected _ => mret tt
      end ;;
      atomic (on_session c (set_room_of None))
  | None => mret tt
  end ;;
  atomic (registry_remove c).

Definition handleMessage_p (now : TimePoint) (c : ClientId) (msg : ClientMessage) : handler_prog unit :=
  ss ← atomic (this c);
  match msg with
  | PingRequest => atomic (deliver c PongResponse)
  | CreateRoomRequest =>
      room ← observed (on_core createRoom) (λ room, [Called CoreCreate (ReplyCreated room)]);
      atomic (deliver c (RoomCreatedResponse room))
  | JoinRoomRequest room =>
      if bool_decide (currentRoom_ ss ≠ None ∧ currentRoom_ ss ≠ Some room)
      then atomic (sendError c (invalidParams "session already joined to another room")) else
      result ← joinRoom_p c room;
      match result with
      | Unexpected e => atomic (sendError c e)
      | Value snapshot =>
          atomic (on_session c (set_room_of (Some room))) ;;
          atomic (deliver c (toSnapshotMessage snapshot))
      end
  | LeaveRoomRequest room =>
      if bool_decide (currentRoom_ ss ≠ Some room) then atomic (sendError c notInRoom) else
      result ← leaveRoom_p c room;
      match result with
      | Unexpected e => atomic (sendError c e)
      | Value events =>
          atomic (on_session c (set_room_of None)) ;; dispatchOutgoing_p events ;;
          atomic (deliver c (OkResponse "leave_room" room))
      end
  | _ =>
      match event_request msg with
      | None => mret tt
      | Some (room, event) =>
          if bool_decide (currentRoom_ ss ≠ Some room) then atomic (sendError c notInRoom) else
          match event with
          | Unexpected e => atomic (sendError c e)
          | Value ev =>
              result ← handleEvent_p now c room ev;
              match result with
              | Unexpected e => atomic (sendError c e)
              | Value events => dispatchOutgoing_p events
              end
          end
      end
  end.

Definition handleLine_p (now : TimePoint) (c : ClientId) (line : string) : handler_prog unit :=
  match parseClientMessage line with
  | Unexpected e => atomic (sendProtocolError c e)
  | Value msg => handleMessage_p now c msg
  end.

Definition onReadLine_p (now : TimePoint) (c : ClientId) (line : option string) : handler_prog unit :=
  match line with
  | None => stopImpl_p c ;; atomic (on_session c (set_reading false))
  | Some line => handleLine_p now c line ;; atomic (on_session c (set_reading false) ;; doReadLine c)
  end.

(** A write that succeeded concerns only the strand. *)
Definition onWrite_p (c : ClientId) (ok : bool) : handler_prog unit :=
  if negb ok then stopImpl_p c ;; atomic (on_session c (set_writing false))
  else atomic (onWrite c true).

(** The first handler posted; that of [stop] goes on with [stopImpl]. *)
Definition take_posted (c : ClientId) : M (@Server Σ) (option Task) :=
  ss ← this c;
  match posted ss with
  | [] => mret None
  | t :: ts =>
      on_session c (set_posted ts) ;;
      match t with TStop => mret tt | _ => run_task c t end ;;
      mret (Some t)
  end.

Definition run_posted_p (c : ClientId) : handler_prog unit :=
  t ← atomic (take_posted c);
  match t with
  | Some TStop => stopImpl_p c
  | _ => mret tt
  end.

(** ** Schedules *)

Definition handler (op : ServerOp) : handler_prog unit :=
  match op with
  | Accept => atomic acceptSession
  | ReadDone c now line => onReadLine_p now c line
  | WriteDone c ok => onWrite_p c ok
  | RunPosted c => run_posted_p c
  | Stop c => atomic (on_session c (λ ss, set_posted (posted ss ++ [TStop]) ss))
  end.

Definition strand_of (op : ServerOp) : option ClientId :=
  match op with
  | Accept | Stop _ => None
  | ReadDone c _ _ | WriteDone c _ | RunPosted c => Some c
  end.

(** The operation can complete. *)
Definition due (op : ServerOp) (s : @Server Σ) : bool :=
  match op with
  | Accept => true
  | ReadDone c _ _ => match sessions s !! c with Some ss => reading ss | None => false end
  | WriteDone c _ => match sessions s !! c with Some ss => writing ss | None => false end
  | RunPosted c =>
      match sessions s !! c with Some ss => negb (bool_decide (posted ss = [])) | None => false end
  | Stop c => match sessions s !! c with Some _ => true | None => false end
  end.

Inductive Label :=
  | Begin (op : ServerOp)
  | Next (strand : option ClientId).

Definition threads_step (l : Label) : M server_pool unit := λ P,
  match l with
  | Begin op =>
      if bool_decide (running P !! strand_of op = None) && due op (shared P)
      then Some (tt, mkPool (shared P) (<[strand_of op := handler op]> (running P)) (trace P))
      else Some (tt, P)
  | Next k => pool_next k P
  end.

Fixpoint threads_run (ls : list Label) : M server_pool unit :=
  match ls with
  | [] => mret tt
  | l :: ls => threads_step l ;; threads_run ls
  end.

Definition new_pool (s : @Server Σ) : server_pool := mkPool s ∅ [].

(** ** A handler alone *)

Lemma bind_ext {S A B} (m m' : M S A) (f g : A → M S B) s :
  m s = m' s → (∀ x s', f x s' = g x s') → (m ≫= f) s = (m' ≫= g) s.
Proof. intros Hm Hf. unfold mbind, M_bind. rewrite Hm. by destruct (m' s) as [[]|]. Qed.

Lemma bind_assoc {S A B C} (m : M S A) (f : A → M S B) (g : B → M S C) s :
  ((m ≫= f) ≫= g) s = (x ← m; f x ≫= g) s.
Proof. unfold mbind, M_bind. by destruct (m s) as [[]|]. Qed.

Lemma ret_bind {S A B} (x : A) (f : A → M S B) s : ((mret x : M S A) ≫= f) s = f x s.
Proof. done. Qed.

Lemma bind_done {S} (m : M S unit) (f : unit → M S unit) s :
  (∀ s', f tt s' = Some (tt, s')) → (m ≫= f) s = m s.
Proof. intros Hf. unfold mbind, M_bind. destruct (m s) as [[[] s']|]; [apply Hf|done]. Qed.

Lemma on_core_bind {A B} (m : M (@ServerCore Σ) A) (f : A → M (@ServerCore Σ) B) (s : @Server Σ) :
  on_core (m ≫= f) s = (x ← on_core m; on_core (f x)) s.
Proof.
  unfold on_core, mbind, M_bind. destruct (m (core_ s)) as [[x co]|]; [|done]. simpl. by destruct (f x co) as [[]|].
Qed.

Lemma on_core_ret {A} (x : A) (s : @Server Σ) : on_core (mret x) s = Some (x, s).
Proof. by destruct s. Qed.

(** Steps through a handler that runs alone, bind by bind. *)
Ltac alone :=
  repeat first
    [ rewrite exec_bind | rewrite exec_atomic | rewrite exec_observed
    | rewrite on_core_bind | rewrite on_core_ret
    | progress intros | done
    | apply bind_ext | progress case_match | case_bool_decide ].

Lemma joinRoom_alone client room s :
  exec (joinRoom_p client room) s = on_core (joinRoom client room) s.
Proof. unfold joinRoom_p, joinRoom, find_room, on_ptr. alone. Qed.

Lemma leaveRoom_alone client room s :
  exec (leaveRoom_p client room) s = on_core (leaveRoom client room) s.
Proof. unfold leaveRoom_p, leaveRoom, find_room, save_board, on_ptr. alone. Qed.

Lemma handleEvent_alone now client room ev s :
  exec (handleEvent_p now client room ev) s = on_core (handleEvent now client room ev) s.
Proof. unfold handleEvent_p, handleEvent, find_room, save_board, on_ptr. alone. Qed.

Lemma dispatch_alone evs s : exec (dispatchOutgoing_p evs) s = dispatchOutgoing evs s.
Proof.
  revert s. induction evs as [|e evs IH]; [done|]. intros s. cbn [dispatchOutgoing_p dispatchOutgoing].
  unfold registry_deliver_p, registry_deliver. alone.
Qed.

Ltac alone_call :=
  first [ apply joinRoom_alone | apply leaveRoom_alone | apply handleEvent_alone | apply dispatch_alone ].

Lemma stop_alone c s : exec (stopImpl_p c) s = stopImpl c s.
Proof.
  unfold stopImpl_p, stopImpl, exchange_stopped. rewrite exec_atomic_bind, bind_assoc.
  apply bind_ext; [done|]. intros ss s1. rewrite bind_assoc. apply bind_ext; [done|]. intros _ s2.
  rewrite ret_bind. alone; alone_call.
Qed.

Lemma handleMessage_alone now c msg s : exec (handleMessage_p now c msg) s = handleMessage now c msg s.
Proof. unfold handleMessage_p, handleMessage. alone; alone_call. Qed.

Lemma handleLine_alone now c line s : exec (handleLine_p now c line) s = handleLine now c line s.
Proof.
  unfold handleLine_p, handleLine.
  destruct (parseClientMessage line); [apply handleMessage_alone|apply exec_atomic].
Qed.

Lemma this_bind {A} c (f : Session → M (@Server Σ) A) s :
  (this c ≫= f) s = match sessions s !! c with Some ss => f ss s | None => None end.
Proof. unfold this, mbind, M_bind, get. by destruct (sessions s !! c). Qed.

Lemma run_posted_alone c ss t ts s :
  sessions s !! c = Some ss → posted ss = t :: ts →
  exec (run_posted_p c) s = (on_session c (set_posted ts) ;; run_task c t) s.
Proof.
  intros Hs Hp. unfold run_posted_p. rewrite exec_atomic_bind. unfold take_posted.
  rewrite bind_assoc, this_bind, Hs, Hp, bind_assoc. apply bind_ext; [done|]. intros _ s1.
  rewrite bind_assoc. destruct t; [by apply bind_done..|apply stop_alone].
Qed.

(** A handler that is not preempted is a step of [Session.v]. *)
Lemma handler_alone op s : due op s = true → exec (handler op) s = server_step op s.
Proof.
  destruct op as [|c now line|c ok|c|c]; cbn [due handler server_step]; unfold when_due; intros Hdue;
    [apply exec_atomic|..];
    unfold mbind at 1, M_bind at 1, get at 1; (destruct (sessions s !! c) as [ss|] eqn:Hs; [|done]).
  - rewrite Hdue. unfold onReadLine_p, onReadLine. destruct line as [line|].
    + rewrite exec_bind. apply bind_ext; [apply handleLine_alone|]. intros [] s1. apply exec_atomic.
    + rewrite exec_bind. apply bind_ext; [apply stop_alone|]. intros [] s1. apply exec_atomic.
  - rewrite Hdue. unfold onWrite_p. destruct ok; [apply exec_atomic|]. unfold onWrite. simpl negb. cbn iota.
    rewrite exec_bind. apply bind_ext; [apply stop_alone|]. intros [] s1. apply exec_atomic.
  - rewrite Hdue. apply negb_true_iff, bool_decide_eq_false in Hdue.
    destruct (posted ss) as [|t ts] eqn:Hp; [done|]. by eapply run_posted_alone.
  - rewrite exec_atomic. unfold on_session, modify. do 3 f_equal. apply alter_ext.
    intros ss' Hs'. by simplify_eq.
Qed.

Lemma not_due op s : due op s = false → server_step op s = Some (tt, s).
Proof.
  destruct op as [|c now line|c ok|c|c]; cbn [due server_step]; [done|..]; unfold when_due; intros Hdue;
    unfold mbind, M_bind, get; (destruct (sessions s !! c) as [ss|]; [by rewrite ?Hdue|done]).
Qed.

Lemma threads_run_app ls ls' P :
  threads_run (ls ++ ls') P = (threads_run ls ;; threads_run ls') P.
Proof.
  revert P. induction ls as [|l ls IH]; [done|]. intros P. simpl. unfold mbind, M_bind in *.
  destruct (threads_step l P) as [[[] P1]|]; [apply IH|done].
Qed.

Lemma threads_run_nexts ks P : threads_run (Next <$> ks) P = pool_nexts ks P.
Proof. revert P. induction ks as [|k ks IH]; [done|]. intros P. simpl. by apply bind_ext. Qed.

(** One operation, run to its end before anything else. *)
Lemma step_is_schedule op s x s' t :
  server_step op s = Some (x, s') →
  ∃ ls t', threads_run ls (mkPool s ∅ t) = Some (tt, mkPool s' ∅ t').
Proof.
  intros E. destruct (due op s) eqn:Hdue.
  - rewrite <-handler_alone in E by done. destruct x.
    destruct (pool_alone (strand_of op) (handler op) s tt s' ∅ t E) as (n & t' & E').
    exists (Begin op :: (Next <$> replicate n (strand_of op))), t'.
    cbn [threads_run threads_step]. unfold mbind, M_bind. simpl.
    rewrite lookup_empty, bool_decide_eq_true_2, Hdue by done. simpl.
    by rewrite threads_run_nexts, E', delete_empty.
  - rewrite not_due in E by done. injection E as _ <-. by exists [], t.
Qed.

(** A run of [Session.v] is a schedule without preemption. *)
Lemma run_is_schedule ops s x s' t :
  server_run ops s = Some (x, s') →
  ∃ ls t', threads_run ls (mkPool s ∅ t) = Some (tt, mkPool s' ∅ t').
Proof.
  revert s t. induction ops as [|op ops IH]; intros s t E.
  - injection E as _ <-. by exists [], t.
  - cbn [server_run] in E. unfold mbind, M_bind in E.
    destruct (server_step op s) as [[y s1]|] eqn:E1; [|done].
    destruct (step_is_schedule op s y s1 t E1) as (ls1 & t1 & R1).
    destruct (IH s1 t1 E) as (ls2 & t2 & R2). exists (ls1 ++ ls2), t2.
    rewrite threads_run_app. unfold mbind, M_bind. by rewrite R1.
Qed.
End Threads.
