(* ===== verification/ThreadsInv.v ===== *)
(** * The invariant of the handlers on several threads

    A rely/guarantee argument for the programs of [ServerThreads.v].  Each
    strand owns its session: the other strands only post on it ([rely]), and
    every action keeps [shared_inv], the part of the invariant of the sessions
    that holds between any two actions.  [triple] is the logic of one handler:
    its assertions are about the session, the room it is in and whether it is
    registered.  Between handlers, each session satisfies [settled]; when no
    handler runs, this is the invariant [server_inv] of [SessionInv.v]. *)
From S2P Require Import Prelude CoreTypes Room RoomSpec RoomRefine RoomTrace RoomProps ServerCore.
From S2P Require Import CoreProps Membership Messages Mappers JsonProtocol JsonSpec Session SessionInv.
From S2P Require Import Interleave ServerThreads.

(** The session after these handlers were posted on its strand. *)
Definition post_tasks (ts : list Task) (ss : Session) : Session :=
  mkSession (currentRoom_ ss) (stopped_ ss) (posted ss ++ ts) (writeQueue_ ss) (reading ss)
    (writing ss) (delivered ss ++ omap task_line ts) (written ss).

Lemma post_tasks_nil ss : post_tasks [] ss = ss.
Proof. destruct ss. unfold post_tasks. simpl. by rewrite !app_nil_r. Qed.

Lemma post_tasks_app ts ts' ss : post_tasks ts' (post_tasks ts ss) = post_tasks (ts ++ ts') ss.
Proof. unfold post_tasks. simpl. by rewrite omap_app, !app_assoc. Qed.

Lemma post_line_tasks line ss : post_line line ss = post_tasks [TWrite line] ss.
Proof. done. Qed.

Lemma alive_tasks ts ss : alive ss = true → alive (post_tasks ts ss) = true.
Proof.
  unfold alive. simpl. intros [[->| ->]%orb_true_iff|Hp]%orb_true_iff; [done|by rewrite orb_true_r|].
  apply negb_true_iff, bool_decide_eq_false in Hp.
  rewrite (bool_decide_eq_false_2 (_ ++ _ = [])); [apply orb_true_r|]. by intros [? _]%app_eq_nil.
Qed.

Lemma session_inv_tasks ts ss : session_inv ss → session_inv (post_tasks ts ss).
Proof.
  intros [A B C D]. split; simpl; [|done|done|].
  - intros Hst. destruct (A Hst); [by left|right]. apply elem_of_app. by left.
  - rewrite D. unfold queued_lines. simpl. by rewrite omap_app, !app_assoc.
Qed.

(** What a handler of a session knows: its members, the room it is in
    according to the rooms, whether it is registered. *)
Abbreviation assertion := (Session → option RoomId → bool → Prop).

Section Logic.
Context `{HashOrder} {Σ : Type} `{SnapshotSink Σ} `{JsonText}.
Implicit Types s : @Server Σ.

(** ** Interference *)

(** What the others may do to the session [c]. *)
Record rely (c : ClientId) s s' : Prop := {
  rl_session : ∃ ts, sessions s' !! c = post_tasks ts <$> sessions s !! c;
  rl_member room : core_member (core_ s') room c ↔ core_member (core_ s) room c;
  rl_registry : c ∈ registry_ s' ↔ c ∈ registry_ s;
  rl_rooms room : is_Some (core_room (core_ s) room) → is_Some (core_room (core_ s') room);
}.

#[export] Instance rely_preorder c : PreOrder (rely c).
Proof.
  split.
  - intros s. split; try done. exists []. destruct (sessions s !! c); [|done]. simpl.
    by rewrite post_tasks_nil.
  - intros s1 s2 s3 [[ts A1] A2 A3 A4] [[ts' B1] B2 B3 B4]. split.
    + exists (ts ++ ts'). rewrite B1, A1. destruct (sessions s1 !! c); [|done]. simpl.
      by rewrite post_tasks_app.
    + intros room. by rewrite B2.
    + by rewrite B3.
    + auto.
Qed.

(** An action of the session [c] is interference for the others, and makes
    and destroys no session. *)
Record guarantee (c : ClientId) s s' : Prop := {
  gu_rely c' : c' ≠ c → is_Some (sessions s !! c') → rely c' s s';
  gu_same c' : is_Some (sessions s' !! c') ↔ is_Some (sessions s !! c');
}.

(** What holds between any two actions; [k] more fit in the counters. *)
Record shared_inv (k : Z) s : Prop := {
  hi_core : core_wf (core_ s);
  hi_room : core_headroom k (core_ s);
  hi_next : 1 ≤ nextClientId_ s ∧ nextClientId_ s + k < 2 ^ 64;
  hi_fresh c : is_Some (sessions s !! c) → 1 ≤ c < nextClientId_ s;
  hi_member room c : core_member (core_ s) room c → is_Some (sessions s !! c);
  hi_registry c : c ∈ registry_ s → ∃ ss, sessions s !! c = Some ss ∧ alive ss = true;
}.

Lemma shared_mono k k' s : shared_inv k s → k' ≤ k → shared_inv k' s.
Proof.
  intros [A [B1 B2] [C1 C2] D E F] Hk. split; try done; [split; [lia|]|lia].
  intros room r Hr. specialize (B2 _ _ Hr). unfold headroom in *. lia.
Qed.

(** The program keeps the invariant and its promise to the others, whatever
    they do between its actions, never fails, and ends in [Q]. *)
Fixpoint safe (c : ClientId) {A} (p : prog (@Server Σ) Seen A) (Q : A → @Server Σ → Prop) s : Prop :=
  match p with
  | Return x => ∀ s', rely c s s' → Q x s'
  | Act a _ rest => ∀ k s1, rely c s s1 → shared_inv k s1 → 1 ≤ k →
      ∃ x s2, a s1 = Some (x, s2) ∧ shared_inv (k - 1) s2 ∧ guarantee c s1 s2 ∧
        safe c (rest x) Q s2
  end.

Lemma safe_rely c {A} (p : prog _ _ A) Q s s' : safe c p Q s → rely c s s' → safe c p Q s'.
Proof.
  destruct p as [x|B a seen rest]; simpl; intros Hp He.
  - intros s2 He'. apply Hp. by transitivity s'.
  - intros k s1 He' I Hk. apply (Hp k s1); [by transitivity s'|done|done].
Qed.

Lemma safe_bind c {A B} (p : prog _ _ A) (f : A → prog _ _ B) (Q : B → @Server Σ → Prop) s :
  safe c p (λ x, safe c (f x) Q) s → safe c (p ≫= f) Q s.
Proof.
  revert s. induction p as [x|B' a seen rest IH]; intros s Hp.
  - apply Hp. done.
  - intros k s1 He I Hk. destruct (Hp k s1 He I Hk) as (x & s2 & E & I2 & G & Hr).
    exists x, s2. split_and!; [done..|by apply IH].
Qed.

Lemma safe_weaken c {A} (p : prog _ _ A) (Q Q' : A → @Server Σ → Prop) s :
  (∀ x s', Q x s' → Q' x s') → safe c p Q s → safe c p Q' s.
Proof.
  intros HQ. revert s. induction p as [x|B' a seen rest IH]; intros s Hp.
  - intros s' He. by apply HQ, Hp.
  - intros k s1 He I Hk. destruct (Hp k s1 He I Hk) as (x & s2 & E & I2 & G & Hr).
    exists x, s2. split_and!; [done..|by apply IH].
Qed.

(** ** Assertions on one session *)

Definition stable (P : assertion) : Prop :=
  ∀ ts ss m reg, P ss m reg → P (post_tasks ts ss) m reg.

(** [ptr] is the pointer to a room the handler holds, if any. *)
Definition holds (c : ClientId) (ptr : option RoomId) (P : assertion) s : Prop :=
  ∃ ss m reg, sessions s !! c = Some ss ∧
    (∀ room, core_member (core_ s) room c ↔ m = Some room) ∧ (c ∈ registry_ s ↔ reg = true) ∧
    (∀ room, ptr = Some room → is_Some (core_room (core_ s) room)) ∧ P ss m reg.

Lemma holds_rely c ptr P s s' : stable P → holds c ptr P s → rely c s s' → holds c ptr P s'.
Proof.
  intros HP (ss & m & reg & Hs & Hm & Hr & Hp & HPs) [[ts A1] A2 A3 A4].
  exists (post_tasks ts ss), m, reg. rewrite A1, Hs. split_and!; [done| | |auto|auto].
  - intros room. by rewrite A2.
  - by rewrite A3.
Qed.

Definition triple (c : ClientId) (ptr : option RoomId) (P : assertion) {A}
    (p : prog (@Server Σ) Seen A) (Q : A → assertion) : Prop :=
  ∀ s, holds c ptr P s → safe c p (λ x, holds c ptr (Q x)) s.

(** One action, from [P] to [R]. *)
Definition act_ok (c : ClientId) (ptr : option RoomId) (P : assertion) {A}
    (a : M (@Server Σ) A) (R : A → assertion) : Prop :=
  ∀ k s, shared_inv k s → 1 ≤ k → holds c ptr P s →
    ∃ x s', a s = Some (x, s') ∧ shared_inv (k - 1) s' ∧ guarantee c s s' ∧ holds c ptr (R x) s'.

Lemma triple_ret c ptr P {A} (x : A) (Q : A → assertion) :
  stable (Q x) → (∀ ss m reg, P ss m reg → Q x ss m reg) → triple c ptr P (mret x) Q.
Proof.
  intros HQ HP s Hh s' Hr. eapply holds_rely; [done| |exact Hr].
  destruct Hh as (ss & m & reg & ?). exists ss, m, reg. naive_solver.
Qed.

Lemma triple_bind c ptr P {A B} (p : prog _ _ A) (f : A → prog _ _ B) R Q :
  triple c ptr P p R → (∀ x, triple c ptr (R x) (f x) Q) → triple c ptr P (p ≫= f) Q.
Proof.
  intros Hp Hf s Hh. apply safe_bind. eapply safe_weaken; [|by apply Hp].
  intros x s' Hx. by apply Hf.
Qed.

Lemma triple_pre c ptr (P P' : assertion) {A} (p : prog _ _ A) Q :
  (∀ ss m reg, P ss m reg → P' ss m reg) → triple c ptr P' p Q → triple c ptr P p Q.
Proof.
  intros HP Hp s (ss & m & reg & Hs & Hm & Hr & Hk & HPs). apply Hp. exists ss, m, reg. auto 10.
Qed.

(** An action; what it leaves need not be stable, what is kept of it must be. *)
Lemma triple_observed c ptr P {A} (a : M (@Server Σ) A) seen (R Q : A → assertion) :
  stable P → act_ok c ptr P a R → (∀ x, stable (Q x)) →
  (∀ x ss m reg, R x ss m reg → Q x ss m reg) → triple c ptr P (observed a seen) Q.
Proof.
  intros HP Ha HQ HR s Hh k s1 He I Hk.
  destruct (Ha k s1 I Hk) as (x & s2 & E & I2 & G & ss & m & reg & Hx); [by eapply holds_rely|].
  exists x, s2. split_and!; [done..|]. intros s3 He3. eapply holds_rely; [done| |exact He3].
  exists ss, m, reg. naive_solver.
Qed.

Lemma triple_atomic c ptr P {A} (a : M (@Server Σ) A) (R Q : A → assertion) :
  stable P → act_ok c ptr P a R → (∀ x, stable (Q x)) →
  (∀ x ss m reg, R x ss m reg → Q x ss m reg) → triple c ptr P (atomic a) Q.
Proof. apply triple_observed. Qed.

(** An action that keeps what is known. *)
Lemma triple_keep c ptr P {A} (a : M (@Server Σ) A) seen :
  stable P → act_ok c ptr P a (λ _, P) → triple c ptr P (observed a seen) (λ _, P).
Proof. intros HP Ha. by apply (triple_observed _ _ _ _ _ (λ _, P)). Qed.

Lemma triple_if c ptr P {A} (b : bool) (p q : prog _ _ A) Q :
  (b = true → triple c ptr P p Q) → (b = false → triple c ptr P q Q) →
  triple c ptr P (if b then p else q) Q.
Proof. destruct b; auto. Qed.

(** ** Actions on the session *)

Lemma holds_ptr c ptr P s : holds c ptr P s → holds c None P s.
Proof. intros (ss & m & reg & Hs & Hm & Hr & _ & HP). exists ss, m, reg. by split_and!. Qed.

Lemma guarantee_refl c s : guarantee c s s.
Proof. by split. Qed.

(** An action that changes nothing but the session [c]. *)
Lemma act_local c ptr P {A} (a : M (@Server Σ) A) (R : A → assertion) :
  (∀ ss m reg, P ss m reg → ∃ x f,
     (∀ s, sessions s !! c = Some ss → a s = Some (x, upd c f s)) ∧
     (reg = true → alive ss = true → alive (f ss) = true) ∧ R x (f ss) m reg) →
  act_ok c ptr P a R.
Proof.
  intros Ha k s I Hk (ss & m & reg & Hs & Hm & Hr & Hp & HP).
  destruct (Ha ss m reg HP) as (x & f & E & Hal & HR).
  exists x, (upd c f s). split_and!; [by apply E| | |].
  - apply (shared_mono k (k - 1)) in I; [|lia]. destruct I as [A1 A2 A3 A4 A5 A6]. split; try done.
    + intros c'. simpl. rewrite lookup_alter_is_Some. apply A4.
    + intros room c'. simpl. rewrite lookup_alter_is_Some. apply A5.
    + intros c' Hc'. destruct (decide (c' = c)) as [->|Hne].
      * rewrite (upd_self _ _ _ _ Hs). eexists. split; [done|]. destruct (A6 c Hc') as (ss' & Hs' & ?).
        simplify_eq. apply Hal; [by apply Hr|done].
      * rewrite upd_other by done. by apply A6.
  - split; intros c'; [|simpl; by rewrite lookup_alter_is_Some].
    intros Hne _. split; try done. exists []. rewrite upd_other by congruence.
    destruct (sessions s !! c'); [|done]. simpl. by rewrite post_tasks_nil.
  - exists (f ss), m, reg. rewrite (upd_self _ _ _ _ Hs). by split_and!.
Qed.

(** [on_session], when what keeps the session alive stays. *)
Lemma act_session c ptr (P : assertion) f (R : unit → assertion) :
  (∀ ss m reg, P ss m reg → (reg = true → alive ss = true → alive (f ss) = true) ∧ R tt (f ss) m reg) →
  act_ok c ptr P (on_session c f) R.
Proof. intros HP. apply act_local. intros ss m reg HPs. exists tt, f. destruct (HP _ _ _ HPs). by split_and!. Qed.

Lemma upd_id c s : upd c (λ ss, ss) s = s.
Proof. destruct s. unfold upd. simpl. f_equal. apply map_eq. intros c'. rewrite lookup_alter.
  case_decide; [subst c'|done]. by destruct (_ !! c). Qed.

Lemma act_this c ptr P : act_ok c ptr P (this c) (λ ss ss' m reg, ss' = ss ∧ P ss' m reg).
Proof.
  apply act_local. intros ss m reg HP. exists ss, (λ ss, ss). split_and!; [|done..].
  intros s Hs. rewrite upd_id. by apply this_run.
Qed.

(** Posting a line on any strand. *)
Lemma act_deliver c ptr P c' msg :
  stable P → message_text msg → act_ok c ptr P (deliver c' msg) (λ _, P).
Proof.
  intros HP Hmsg k s I Hk Hh. destruct (message_wire msg Hmsg) as [line Hl].
  assert (deliver c' msg s = Some (tt, upd c' (post_line line) s)) as E.
  { unfold wire in Hl. unfold deliver. destruct (serializeServerMessage msg); [|done]. by simplify_eq/=. }
  assert (∀ c, rely c s (upd c' (post_line line) s)) as Hrely.
  { intros c1. split; try done. simpl. rewrite lookup_alter. case_decide; [subst c1|].
    - exists [TWrite line]. by destruct (sessions s !! c').
    - exists []. destruct (sessions s !! c1); [|done]. simpl. by rewrite post_tasks_nil. }
  exists tt, (upd c' (post_line line) s). split_and!; [done| | |by eapply holds_rely].
  - apply (shared_mono k (k - 1)) in I; [|lia]. destruct I as [A1 A2 A3 A4 A5 A6]. split; try done.
    + intros c1. simpl. rewrite lookup_alter_is_Some. apply A4.
    + intros room c1. simpl. rewrite lookup_alter_is_Some. apply A5.
    + intros c1 Hc1. destruct (A6 c1 Hc1) as (ss & Hs & Hal). simpl. rewrite lookup_alter.
      case_decide; [|by exists ss]. subst c1. rewrite Hs. eexists. split; [done|].
      by apply (alive_tasks [TWrite line]).
  - split; intros c1; [intros _ _; apply Hrely|simpl; by rewrite lookup_alter_is_Some].
Qed.

Lemma act_noop c ptr P {A} (a : M (@Server Σ) A) (R : A → assertion) :
  (∀ k s, shared_inv k s → holds c ptr P s → ∃ x, a s = Some (x, s) ∧ ∀ ss m reg, P ss m reg → R x ss m reg) →
  act_ok c ptr P a R.
Proof.
  intros Ha k s I Hk Hh. destruct (Ha k s I Hh) as (x & E & HR). exists x, s.
  split_and!; [done|by apply (shared_mono k); [|lia]|apply guarantee_refl|].
  destruct Hh as (ss & m & reg & ?). exists ss, m, reg. naive_solver.
Qed.

Lemma act_find c ptr P id : act_ok c ptr P (registry_find id) (λ _, P).
Proof.
  apply act_noop. intros k s I _. unfold registry_find, mbind at 1, M_bind at 1, get.
  case_bool_decide as Hid; [by eexists|].
  destruct (hi_registry _ _ I id Hid) as (ss & Hs & Hal). rewrite this_bind, Hs, Hal. by eexists.
Qed.

Lemma act_remove c ptr (P : assertion) :
  act_ok c ptr P (registry_remove c) (λ _ ss m reg, reg = false ∧ ∃ reg', P ss m reg').
Proof.
  intros k s I Hk (ss & m & reg & Hs & Hm & Hr & Hp & HP).
  exists tt, (deregister c s). split_and!; [done| | |].
  - apply (shared_mono k (k - 1)) in I; [|lia]. destruct I as [A1 A2 A3 A4 A5 A6]. split; try done.
    intros c' Hc'. simpl in Hc'. apply elem_of_difference in Hc' as [Hc' _]. by apply A6.
  - split; [intros c' Hne _|done]. split; try done; [|simpl; set_solver]. exists [].
    simpl. destruct (sessions s !! c'); [|done]. simpl. by rewrite post_tasks_nil.
  - exists ss, m, false. split_and!; try done; [|by eauto]. simpl. set_solver.
Qed.

(** ** Actions on the core *)

Lemma core_wf_rooms (s s' : @ServerCore Σ) : core_rooms s = core_rooms s' → core_wf s → core_wf s'.
Proof. destruct s as [rs sk], s' as [rs' sk']. simpl. intros <- [A B C]. by split. Qed.

Lemma core_headroom_rooms k (s s' : @ServerCore Σ) :
  core_rooms s = core_rooms s' → core_headroom k s → core_headroom k s'.
Proof. destruct s as [rs sk], s' as [rs' sk']. simpl. by intros <-. Qed.

Lemma on_ptr_run {A} ptr (m : M Room A) s r x r' :
  core_room (core_ s) ptr = Some r → m r = Some (x, r') →
  on_ptr ptr m s = Some (x, with_core (set_room ptr r' (core_ s)) s).
Proof.
  intros Hr Hm. unfold on_ptr, on_core, on_rooms, on_room. unfold core_room in Hr. by rewrite Hr, Hm.
Qed.

(** A call of a client on an existing room. *)
Lemma ptr_call k ptr op (co : @ServerCore Σ) r :
  core_wf co → core_headroom k co → 1 ≤ k → core_room co ptr = Some r →
  ∃ y r', room_call op r = Some (y, r') ∧ reply_fine op y (members_ r) ∧
    core_wf (set_room ptr r' co) ∧ core_headroom (k - 1) (set_room ptr r' co) ∧
    ∀ room c, core_member (set_room ptr r' co) room c ↔
      if bool_decide (room = ptr) then c ∈ members_after op y (members_ r) else core_member co room c.
Proof.
  intros wf hr Hk Er. set (co0 := mkServerCore (core_rooms co) (None : option Σ)).
  destruct (core_call_members k op co0 ptr r) as (y & s' & E & Hn & Hf & (r' & Hy) & Hm);
    [by apply (core_wf_rooms co)|by apply (core_headroom_rooms k co)|done..|].
  rewrite (core_call_present co0 ptr op r y r' Er Hy), save_if_none in E by done. simplify_eq.
  exists y, r'. destruct Hn. split_and!; [done|done|by apply (core_wf_rooms (set_room ptr r' co0))|done|done].
Qed.

Lemma set_room_exists room ptr r (co : @ServerCore Σ) :
  is_Some (core_room co room) → is_Some (core_room (set_room ptr r co) room).
Proof. rewrite core_room_set. case_bool_decide; [by eexists|done]. Qed.

(** A change of the core that concerns only the client [c], now in [m']. *)
Lemma core_ok k s c ptr P R co m' :
  shared_inv k s → core_wf co → core_headroom (k - 1) co →
  (∀ room, is_Some (core_room (core_ s) room) → is_Some (core_room co room)) →
  (∀ room c', c' ≠ c → core_member co room c' ↔ core_member (core_ s) room c') →
  (∀ room, core_member co room c ↔ m' = Some room) →
  holds c ptr P s → (∀ ss m reg, P ss m reg → R ss m' reg) →
  shared_inv (k - 1) (with_core co s) ∧ guarantee c s (with_core co s) ∧
  holds c ptr R (with_core co s).
Proof.
  intros [A1 A2 A3 A4 A5 A6] Hwf Hhr Hrooms Hother Hhere (ss & m & reg & Hs & Hm & Hr & Hp & HP) HR.
  split_and!.
  - split; try done; simpl; [lia|]. intros room c'. destruct (decide (c' = c)) as [->|Hne]; [by eauto|].
    rewrite Hother by done. apply A5.
  - split; [intros c' Hne _|done]. split; simpl; try done; [|by intros room; apply Hother; congruence].
    exists []. destruct (sessions s !! c'); [|done]. simpl. by rewrite post_tasks_nil.
  - exists ss, m', reg. split_and!; try done; [|by eauto]. intros room Hroom. by apply Hrooms, Hp.
Qed.

Lemma act_join c ptr P :
  (∀ ss m reg, P ss m reg → m = None ∨ m = Some ptr) →
  act_ok c (Some ptr) P (on_ptr ptr (join c)) (λ res ss m reg,
    (∃ snap, res = Value snap) ∧ m = Some ptr ∧ ∃ m0, P ss m0 reg).
Proof.
  intros HP k s I Hk Hh. pose proof Hh as (ss & m & reg & Hs & Hm & Hr & Hp & HPs).
  destruct (Hp ptr eq_refl) as [r Er].
  destruct (ptr_call k ptr (OpJoin c) (core_ s) r (hi_core _ _ I) (hi_room _ _ I) Hk Er)
    as (y & r' & Hy & Hf & Hwf & Hhr & Hmem).
  simpl in Hy. unfold mbind, M_bind in Hy. destruct (join c r) as [[res r1]|] eqn:Ej; [|done].
  unfold mret, M_ret in Hy. injection Hy as <- ->. exists res, (with_core (set_room ptr r' (core_ s)) s).
  split; [by eapply on_ptr_run|]. destruct res as [snap|]; [|done].
  eapply (core_ok k s c (Some ptr) P _ _ (Some ptr)); try done.
  - intros room. apply set_room_exists.
  - intros room c' Hne. rewrite Hmem. case_bool_decide; [subst room|done]. simpl.
    rewrite elem_of_union, elem_of_singleton. unfold core_member. rewrite Er. naive_solver.
  - intros room. rewrite Hmem. case_bool_decide as Hroom; [subst room; simpl; set_solver|].
    rewrite Hm. destruct (HP _ _ _ HPs) as [-> | ->]; naive_solver.
  - intros ss' m' reg' HP'. split; [by eexists|]. split; [done|by eexists].
Qed.

Lemma act_leave c ptr P :
  (∀ ss m reg, P ss m reg → m = Some ptr) →
  act_ok c (Some ptr) P (on_ptr ptr (leave c)) (λ res ss m reg,
    (∃ evs, res = Value evs) ∧ m = None ∧ ∃ m0, P ss m0 reg).
Proof.
  intros HP k s I Hk Hh. pose proof Hh as (ss & m & reg & Hs & Hm & Hr & Hp & HPs).
  destruct (Hp ptr eq_refl) as [r Er].
  destruct (ptr_call k ptr (OpLeave c) (core_ s) r (hi_core _ _ I) (hi_room _ _ I) Hk Er)
    as (y & r' & Hy & Hf & Hwf & Hhr & Hmem).
  assert (c ∈ members_ r) as Hc.
  { pose proof (proj2 (Hm ptr) (HP _ _ _ HPs)) as (r0 & Hr0 & Hc). by simplify_eq. }
  destruct (cw_room _ (hi_core _ _ I) ptr r Er) as [_ wr].
  assert (headroom 2 r) as h2
    by (destruct (hi_room _ _ I) as [_ hr]; specialize (hr _ _ Er); unfold headroom in *; lia).
  destruct (leave_accepted r c y r' wr h2 Hc Hy) as [evs ->].
  simpl in Hy. unfold mbind, M_bind in Hy. destruct (leave c r) as [[res r1]|] eqn:Ej; [|done].
  unfold mret, M_ret in Hy. injection Hy as -> ->.
  exists (Value evs), (with_core (set_room ptr r' (core_ s)) s). split; [by eapply on_ptr_run|].
  eapply (core_ok k s c (Some ptr) P _ _ None); try done.
  - intros room. apply set_room_exists.
  - intros room c' Hne. rewrite Hmem. case_bool_decide; [subst room|done]. simpl.
    rewrite elem_of_difference, elem_of_singleton. unfold core_member. rewrite Er. naive_solver.
  - intros room. rewrite Hmem. case_bool_decide as Hroom; [subst room; simpl; set_solver|].
    rewrite Hm, (HP _ _ _ HPs). naive_solver.
  - intros ss' m' reg' HP'. split; [by eexists|]. split; [done|by eexists].
Qed.

Lemma act_apply c ptr P now ev :
  act_ok c (Some ptr) P (on_ptr ptr (apply now c ev)) (λ res ss m reg,
    match res with Value _ => True | Unexpected e => is_ascii (error_message e) = true end ∧ P ss m reg).
Proof.
  intros k s I Hk Hh. pose proof Hh as (ss & m & reg & Hs & Hm & Hr & Hp & HPs).
  destruct (Hp ptr eq_refl) as [r Er].
  destruct (ptr_call k ptr (OpApply now c ev) (core_ s) r (hi_core _ _ I) (hi_room _ _ I) Hk Er)
    as (y & r' & Hy & Hf & Hwf & Hhr & Hmem).
  simpl in Hy. unfold mbind, M_bind in Hy. destruct (apply now c ev r) as [[res r1]|] eqn:Ej; [|done].
  unfold mret, M_ret in Hy. injection Hy as <- ->. exists res, (with_core (set_room ptr r' (core_ s)) s).
  split; [by eapply on_ptr_run|].
  assert (∀ room c', core_member (set_room ptr r' (core_ s)) room c' ↔ core_member (core_ s) room c') as Hsame.
  { intros room c'. rewrite Hmem. case_bool_decide; [subst room|done]. unfold core_member. rewrite Er.
    destruct res; simpl; naive_solver. }
  eapply (core_ok k s c (Some ptr) (λ ss' m' reg', P ss' m' reg' ∧ m' = m) _ _ m); try done.
  - intros room. apply set_room_exists.
  - intros room. by rewrite Hsame.
  - exists ss, m, reg. auto 10.
  - intros ss' m' reg' [HP' ->]. split; [by destruct res|done].
Qed.

Lemma act_observe c ptr P {A} (f : Room → A) :
  act_ok c (Some ptr) P (on_ptr ptr (observe f)) (λ _, P).
Proof.
  apply act_noop. intros k s I (ss & m & reg & _ & _ & _ & Hp & _). destruct (Hp ptr eq_refl) as [r Er].
  exists (f r). split; [|done]. rewrite (on_ptr_run _ _ _ r (f r) r) by done. do 2 f_equal.
  destruct s as [[[rs n] sk] reg' sss nx]. unfold with_core, set_room. simpl. unfold core_room in Er. simpl in Er.
  by rewrite insert_id.
Qed.

Lemma act_get c ptr P : act_ok c ptr P (on_core get) (λ _, P).
Proof. apply act_noop. intros k s I _. exists (core_ s). by destruct s. Qed.

Lemma act_enqueue c ptr P snap : act_ok c ptr P (on_core (enqueue_snapshot snap)) (λ _, P).
Proof.
  intros k s I Hk Hh. pose proof Hh as (ss & m & reg & Hs & Hm & Hr & Hp & HPs). eexists _, _.
  split; [reflexivity|]. eapply (core_ok k s c ptr (λ ss' m' reg', P ss' m' reg' ∧ m' = m) _ _ m); try done.
  - by apply (core_wf_rooms (core_ s)); [|apply I].
  - apply (core_headroom_rooms _ (core_ s)); [done|]. by apply (shared_mono k (k - 1)) in I as [? ? ? ? ? ?]; [|lia].
  - exists ss, m, reg. auto 10.
  - by intros ss' m' reg' [HP' ->].
Qed.

Lemma act_create c ptr P : act_ok c ptr P (on_core createRoom) (λ _, P).
Proof.
  intros k s I Hk Hh. pose proof Hh as (ss & m & reg & Hs & Hm & Hr & Hp & HPs).
  pose proof (hi_core _ _ I) as wf. pose proof (hi_room _ _ I) as hr.
  destruct (core_call_step CoreCreate k (core_ s) wf hr Hk) as (y & co & E & Hwf & Hhr & Hn & _ & _).
  destruct (createRoom_members k (core_ s) wf hr Hk) as (room & co' & E' & _ & Hmem).
  simpl in E. unfold mbind, M_bind in E. rewrite E' in E. unfold mret, M_ret in E. injection E as <- ->.
  exists room, (with_core co s). split; [by apply on_core_run|].
  eapply (core_ok k s c ptr (λ ss' m' reg', P ss' m' reg' ∧ m' = m) _ _ m); try done.
  - intros room'. rewrite (cw_rooms _ wf), (cw_rooms _ Hwf), Hn. lia.
  - intros room'. by rewrite Hmem.
  - exists ss, m, reg. auto 10.
  - by intros ss' m' reg' [HP' ->].
Qed.
End Logic.
