(* ===== verification/ThreadsSafe.v ===== *)
(** * Every handler is safe on several threads

    A triple of [ThreadsInv.v] for each program of [ServerThreads.v]: a handler
    takes its session from [quiet] to [quiet] whatever the other strands do
    between its actions.  [pool_inv] puts the strands together and
    [threads_run_inv] follows a schedule. *)
From S2P Require Import Prelude CoreTypes Room RoomSpec RoomRefine RoomTrace RoomProps ServerCore.
From S2P Require Import CoreProps Membership Messages Mappers JsonProtocol JsonSpec Session SessionInv.
From S2P Require Import Interleave ServerThreads ThreadsInv.

Section Safe.
Context `{HashOrder} {Σ : Type} `{SnapshotSink Σ} `{JsonText}.
Implicit Types s : @Server Σ.

(** The session [c] between two handlers: its invariant holds, it is in the
    room it believes, and registered unless it is stopped. *)
Definition quiet : assertion := λ ss m reg,
  session_inv ss ∧ m = currentRoom_ ss ∧ (reg = true ↔ stopped_ ss = false).

(** The same while the room of the session is being changed. *)
Definition astray (x : option RoomId) : assertion := λ ss m reg,
  session_inv ss ∧ m = x ∧ (reg = true ↔ stopped_ ss = false).

(** The session is stopped and in the room [x], but still registered. *)
Definition stopping (x : option RoomId) : assertion := λ ss m reg,
  session_inv ss ∧ m = x ∧ stopped_ ss = true.

Definition both (P Q : assertion) : assertion := λ ss m reg, P ss m reg ∧ Q ss m reg.

(** A fact about the session that no change of its room, of [stopped_] or of
    its posted handlers affects. *)
Class Lasting (F : Session → Prop) : Prop := {
  lasting_tasks ts ss : F ss → F (post_tasks ts ss);
  lasting_room r ss : F ss → F (set_room_of r ss);
  lasting_stopped ss : F ss → F (set_stopped ss);
}.

#[export] Instance lasting_true : Lasting (λ _, True).
Proof. by split. Qed.

#[export] Instance lasting_reading : Lasting (λ ss, reading ss = true).
Proof. by split. Qed.

#[export] Instance lasting_writing : Lasting (λ ss, writing ss = true).
Proof. by split. Qed.

Definition fact (F : Session → Prop) : assertion := λ ss _ _, F ss.

Lemma stable_both P Q : stable P → stable Q → stable (both P Q).
Proof. intros HP HQ ts ss m reg [??]. split; auto. Qed.

Lemma stable_quiet : stable quiet.
Proof. intros ts ss m reg (V & ? & ?). split_and!; [by apply session_inv_tasks|done..]. Qed.

Lemma stable_astray x : stable (astray x).
Proof. intros ts ss m reg (V & ? & ?). split_and!; [by apply session_inv_tasks|done..]. Qed.

Lemma stable_stopping x : stable (stopping x).
Proof. intros ts ss m reg (V & ? & ?). split_and!; [by apply session_inv_tasks|done..]. Qed.

Lemma stable_fact F `{!Lasting F} : stable (fact F).
Proof. intros ts ss m reg. unfold fact. apply Lasting0. Qed.

Lemma stable_room x : stable (λ ss _ _, currentRoom_ ss = x).
Proof. by intros ts ss m reg. Qed.

Lemma stable_stopped b : stable (λ ss _ _, stopped_ ss = b).
Proof. by intros ts ss m reg. Qed.
End Safe.

Create HintDb stable.
#[export] Hint Resolve stable_both stable_quiet stable_astray stable_stopping stable_fact
  stable_room stable_stopped : stable.
#[export] Hint Extern 1 (stable _) => (by intros ? ? ? ?) : stable.

Section Handlers.
Context `{HashOrder} {Σ : Type} `{SnapshotSink Σ} `{JsonText}.
Implicit Types s : @Server Σ.

Abbreviation handler_prog := (prog (@Server Σ) Seen).

(** ** Calls on the core *)

(** Looking up a room: the program goes on with the pointer, or without. *)
Lemma triple_find c P room op {A} (f : option RoomId → handler_prog A) (Q : A → assertion) :
  stable P →
  (∀ ss m reg, P ss m reg → m = Some room) ∨ triple c None P (f None) Q →
  triple c (Some room) P (f (Some room)) Q →
  triple c None P (r ← find_room room op; f r) Q.
Proof.
  intros HP Hnone Hsome s Hh k s1 He I Hk. apply (holds_rely _ _ _ _ _ HP Hh) in He as Hh1.
  exists (match core_room (core_ s1) room with Some _ => Some room | None => None end), s1.
  split_and!; [| |apply guarantee_refl|].
  - unfold on_core, on_rooms, getRoom, mbind, M_bind, mret, M_ret, get, core_room.
    destruct s1 as [[[rs n] sk] reg1 sss nx]. simpl. by destruct (rs !! room).
  - by apply (shared_mono k); [|lia].
  - destruct (core_room (core_ s1) room) as [r|] eqn:Er.
    + eapply safe_weaken; [intros x s'; apply holds_ptr|]. apply Hsome.
      destruct Hh1 as (ss & m & reg & Hs & Hm & Hr & _ & HPs). exists ss, m, reg.
      split_and!; try done. intros room' [= <-]. by eexists.
    + destruct Hnone as [Hroom|Hnone]; [|by apply Hnone].
      destruct Hh1 as (ss & m & reg & Hs & Hm & Hr & _ & HPs). specialize (Hroom _ _ _ HPs). subst m.
      destruct (proj2 (Hm room) eq_refl) as (r & Hr' & _). congruence.
Qed.

Lemma triple_save c ptr P : stable P → triple (Σ:=Σ) c (Some ptr) P (save_board ptr) (λ _, P).
Proof.
  intros HP. eapply triple_bind; [apply triple_keep; [done|apply act_observe]|].
  intros snap. apply triple_keep; [done|apply act_enqueue].
Qed.

Lemma triple_post c ptr P {A} (p : handler_prog A) (Q Q' : A → assertion) :
  (∀ x ss m reg, Q x ss m reg → Q' x ss m reg) → triple c ptr P p Q → triple c ptr P p Q'.
Proof.
  intros HQ Hp s Hh. eapply safe_weaken; [|by apply Hp].
  intros x s' (ss & m & reg & Hx). exists ss, m, reg. naive_solver.
Qed.

Lemma triple_pure c ptr P (φ : Prop) {A} (p : handler_prog A) Q :
  (φ → triple c ptr P p Q) → triple c ptr (both P (λ _ _ _, φ)) p Q.
Proof.
  intros Hp s (ss & m & reg & Hs & Hm & Hr & Hk & HPs & Hφ). apply Hp; [done|].
  exists ss, m, reg. by split_and!.
Qed.

(** The end of a call on the core: the snapshot, taken or not, then the reply. *)
Lemma triple_reply c ptr P {A} (b : ServerCore → handler_prog unit) (x : A) :
  stable P → (∀ co, triple (Σ:=Σ) c (Some ptr) P (b co) (λ _, P)) →
  triple c (Some ptr) P (core ← atomic (on_core get); b core ;; mret x) (λ x', both P (λ _ _ _, x' = x)).
Proof.
  intros HP Hb. eapply triple_bind; [apply triple_keep; [done|apply act_get]|].
  intros co. eapply triple_bind; [apply Hb|]. intros ?. apply triple_ret; [|by split].
  apply stable_both; auto with stable.
Qed.

(** The answer of [joinRoom] in a handler that was in the room [x]. *)
Definition joined (F : Session → Prop) room x (res : Expected RoomSnapshot Error) : assertion :=
  λ ss m reg, match res with
  | Value _ => astray (Some room) ss m reg ∧ F ss
  | Unexpected e => astray x ss m reg ∧ F ss ∧ text (error_message e)
  end.

Lemma stable_joined F room x res : stable (fact F) → stable (joined F room x res).
Proof.
  intros HF ts ss m reg. unfold joined. destruct res as [snap|e].
  - intros [Hs HFs]. split; [by apply stable_astray|by apply (HF ts ss m reg)].
  - intros (Hs & HFs & He). split_and!; [by apply stable_astray|by apply (HF ts ss m reg)|done].
Qed.

Lemma triple_join F c room x :
  stable (fact F) → x = None ∨ x = Some room →
  triple (Σ:=Σ) c None (both (astray x) (fact F)) (joinRoom_p c room) (joined F room x).
Proof.
  intros HF Hx. assert (∀ res, stable (joined F room x res)) as HJ by (intros res; by apply stable_joined).
  apply triple_find; [by auto with stable|right|].
  - apply triple_ret; [done|]. intros ss m reg [Hs HFs]. split; [done|]. split; [done|]. by apply text_ascii.
  - eapply triple_observed; [by auto with stable|apply act_join|done|].
    + intros ss m reg [(_ & -> & _) _]. done.
    + intros res ss m reg ([snap ->] & -> & m0 & [(V & _ & Hr) HFs]). split; [split; [done|by split]|done].
Qed.

(** That of [leaveRoom] in a handler that was in the room. *)
Definition left (F : Session → Prop) (res : Expected (list OutgoingEvent) Error) : assertion :=
  λ ss m reg, (∃ evs, res = Value evs) ∧ astray None ss m reg ∧ F ss.

Lemma triple_leave (P : assertion) c room (Q : assertion) :
  stable P → stable Q →
  (∀ ss m reg, P ss m reg → m = Some room) → (∀ ss m reg, P ss m reg → Q ss None reg) →
  triple (Σ:=Σ) c None P (leaveRoom_p c room) (λ res, both Q (λ _ _ _, ∃ evs, res = Value evs)).
Proof.
  intros HP HQ Hroom HPQ. apply triple_find; [done|by left|].
  eapply (triple_bind _ _ _ _ _ (λ res, both Q (λ _ _ _, ∃ evs, res = Value evs))).
  - eapply triple_observed; [done|by apply act_leave| |].
    + intros res. apply stable_both; auto with stable.
    + intros res ss m reg ([evs ->] & -> & m0 & HPs). split; [by eapply HPQ|by eexists].
  - intros [evs|e].
    + eapply triple_pre; [by intros ss m reg [HQs _]|].
      eapply triple_post; [|apply triple_reply; [exact HQ|]].
      * intros res ss m reg [HQs ->]. split; [done|by eexists].
      * intros co. apply triple_if; intros _; [|apply triple_ret; [apply HQ|done]].
        eapply triple_bind; [apply triple_keep; [done|apply act_observe]|]. intros n.
        apply triple_if; intros _; [by apply triple_save|apply triple_ret; [apply HQ|done]].
    + apply triple_ret; [apply stable_both; auto with stable|done].
Qed.

Lemma triple_event P c now room ev :
  stable P →
  triple (Σ:=Σ) c None P (handleEvent_p now c room ev) (λ res,
    both P (λ _ _ _, match res with Value _ => True | Unexpected e => text (error_message e) end)).
Proof.
  intros HP. set (Q := λ res : Expected (list OutgoingEvent) Error,
    both P (λ _ _ _, match res with Value _ => True | Unexpected e => text (error_message e) end)).
  assert (∀ res, stable (Q res)) as HQ by (intros res; apply stable_both; auto with stable).
  apply triple_find; [done|right|].
  - apply triple_ret; [apply HQ|]. intros ss m reg HPs. split; [done|]. by apply text_ascii.
  - eapply (triple_bind _ _ _ _ _ Q).
    + eapply triple_observed; [done|by apply act_apply|apply HQ|].
      intros res ss m reg [Hres HPs]. split; [done|]. destruct res; [done|by apply text_ascii].
    + intros [evs|e]; [|apply triple_ret; [apply HQ|done]].
      eapply triple_pre; [by intros ss m reg [HPs _]|].
      eapply triple_post; [|apply triple_reply; [exact HP|]].
      * intros res ss m reg [HPs ->]. by split.
      * intros co. apply triple_if; intros _; [|apply triple_ret; [apply HP|done]].
        apply triple_if; intros _; [by apply triple_save|apply triple_ret; [apply HP|done]].
Qed.

(** ** The handlers of a session *)

Lemma triple_this c P {A} (f : Session → handler_prog A) Q :
  stable P →
  (∀ ss0, triple (Σ:=Σ) c None (both P (λ ss _ _, currentRoom_ ss = currentRoom_ ss0)) (f ss0) Q) →
  triple c None P (ss ← atomic (this c); f ss) Q.
Proof.
  intros HP Hf. eapply triple_bind; [|exact Hf].
  eapply triple_atomic; [done|apply act_this| |].
  - intros ss0. apply stable_both; auto with stable.
  - by intros ss0 ss m reg [-> HPs].
Qed.

Lemma triple_deliver c P c' msg :
  stable P → message_text msg → triple (Σ:=Σ) c None P (atomic (deliver c' msg)) (λ _, P).
Proof. intros HP Hm. apply triple_keep; [done|by apply act_deliver]. Qed.

Lemma triple_error c P e :
  stable P → text (error_message e) → triple (Σ:=Σ) c None P (atomic (sendError c e)) (λ _, P).
Proof. intros HP He. apply triple_deliver; [done|by apply toErrorMessage_text]. Qed.

Lemma triple_dispatch c P evs : stable P → triple (Σ:=Σ) c None P (dispatchOutgoing_p evs) (λ _, P).
Proof.
  intros HP. induction evs as [|e evs IH]; [by apply triple_ret|].
  eapply (triple_bind _ _ _ _ _ (λ _, P)); [|intros ?; exact IH].
  eapply triple_bind; [apply triple_keep; [done|apply act_find]|].
  intros [c'|]; [|by apply triple_ret].
  apply triple_keep; [done|apply act_deliver; [done|apply toServerMessage_text]].
Qed.

(** The session is out of its room and about to leave the registry. *)
Definition gone (F : Session → Prop) : assertion :=
  both (stopping None) (both (fact F) (λ ss _ _, currentRoom_ ss = None)).

Definition stopped_quiet (F : Session → Prop) : assertion :=
  both quiet (both (fact F) (λ ss _ _, stopped_ ss = true)).

Lemma triple_stop F `{!Lasting F} c :
  triple (Σ:=Σ) c None (both quiet (fact F)) (stopImpl_p c) (λ _, stopped_quiet F).
Proof.
  assert (stable (stopped_quiet F)) as HQ by (unfold stopped_quiet; auto with stable).
  assert (stable (gone F)) as HG by (unfold gone; auto with stable).
  eapply (triple_bind _ _ _ _ _ (λ ss0, if stopped_ ss0 then stopped_quiet F else
    both (stopping (currentRoom_ ss0)) (both (fact F) (λ ss _ _, currentRoom_ ss = currentRoom_ ss0)))).
  { eapply (triple_atomic _ _ _ _ (λ ss0, if stopped_ ss0 then stopped_quiet F else
      both (stopping (currentRoom_ ss0)) (both (fact F) (λ ss _ _, currentRoom_ ss = currentRoom_ ss0))));
      [auto with stable| | |done].
    - apply act_local. intros ss m reg [(V & -> & Hr) HF]. exists ss, set_stopped. split_and!; [|done|].
      + intros s Hs. unfold exchange_stopped. by rewrite this_bind, Hs.
      + assert (F (set_stopped ss)) by by apply Lasting0. pose proof (session_inv_stopped _ V).
        destruct (stopped_ ss) eqn:Hst; (split; [|by split]); by split_and!.
    - intros ss0. destruct (stopped_ ss0); [done|auto 6 with stable]. }
  intros ss0. destruct (stopped_ ss0); [by apply triple_ret|].
  eapply (triple_bind _ _ _ _ _ (λ _, gone F)).
  - destruct (currentRoom_ ss0) as [room|].
    + eapply triple_bind.
      { apply (triple_leave _ _ _ (both (stopping None) (fact F))); [auto 6 with stable..| |].
        - by intros ss m reg [(_ & -> & _) _].
        - intros ss m reg [(V & _ & Hst) [HF _]]. split; [by split_and!|done]. }
      intros [evs|e]; [|apply (triple_pre _ _ _ (λ _ _ _, False)); [by intros ss m reg [_ [? ?]]|]].
      * eapply triple_bind; [apply triple_dispatch; auto 6 with stable|]. intros ?.
        eapply triple_atomic; [auto 6 with stable|apply (act_session _ _ _ _ (λ _, gone F))|done|done].
        intros ss m reg [[(V & -> & Hst) HF] _]. split; [done|].
        split; [split_and!; [by apply session_inv_room|done..]|split; [by apply Lasting0|done]].
      * by intros s (ss & m & reg & _ & _ & _ & _ & ?).
    + apply triple_ret; [done|]. by intros ss m reg [(V & -> & Hst) [HF Hroom]].
  - intros ?. eapply triple_atomic; [done|apply act_remove|done|].
    intros [] ss m reg (-> & reg' & [(V & -> & Hst) [HF Hroom]]).
    split; [split_and!; [done..|by rewrite Hst]|by split].
Qed.

Section Message.
Context (F : Session → Prop) `{!Lasting F} (c : ClientId).

(** The session is quiet, with [F]; and it believes to be in [room]. *)
Definition calm : assertion := both quiet (fact F).
Definition calm_in (room : option RoomId) : assertion := both calm (λ ss _ _, currentRoom_ ss = room).

Lemma calm_stable : stable calm.
Proof. unfold calm. auto with stable. Qed.

Lemma calm_in_stable room : stable (calm_in room).
Proof. unfold calm_in, calm. apply stable_both; auto with stable. Qed.

#[local] Hint Resolve calm_stable calm_in_stable : stable.

Lemma triple_refuse room e :
  text (error_message e) → triple (Σ:=Σ) c None (calm_in room) (atomic (sendError c e)) (λ _, calm).
Proof.
  intros He. eapply triple_post; [|apply triple_error; [apply calm_in_stable|done]]. by intros ? ss m reg [? _].
Qed.

Lemma triple_event_request now room0 m room ev :
  event_request m = Some (room, ev) →
  triple (Σ:=Σ) c None (calm_in room0) (if bool_decide (room0 ≠ Some room) then atomic (sendError c notInRoom) else
    match ev with
    | Unexpected e => atomic (sendError c e)
    | Value ev =>
        result ← handleEvent_p now c room ev;
        match result with
        | Unexpected e => atomic (sendError c e)
        | Value events => dispatchOutgoing_p events
        end
    end) (λ _, calm).
Proof.
  intros Hreq. apply triple_if; intros _; [apply triple_refuse; by apply text_ascii|].
  destruct ev as [ev|e]; [|apply triple_refuse; by eapply event_request_text].
  eapply triple_bind; [apply (triple_event (calm_in room0)); apply calm_in_stable|]. intros [evs|e].
  - eapply (triple_pre _ _ _ calm); [by intros ss m' reg [[? _] _]|]. apply triple_dispatch, calm_stable.
  - apply triple_pure. intros He. by apply triple_refuse.
Qed.

Lemma triple_join_request room0 room :
  triple (Σ:=Σ) c None (calm_in room0)
    (if bool_decide (room0 ≠ None ∧ room0 ≠ Some room)
     then atomic (sendError c (invalidParams "session already joined to another room")) else
     result ← joinRoom_p c room;
     match result with
     | Unexpected e => atomic (sendError c e)
     | Value snapshot =>
         atomic (on_session c (set_room_of (Some room))) ;; atomic (deliver c (toSnapshotMessage snapshot))
     end) (λ _, calm).
Proof.
  apply triple_if; intros Hb; [apply triple_refuse; by apply text_ascii|]. apply bool_decide_eq_false in Hb.
  set (F' := λ ss, F ss ∧ currentRoom_ ss = room0).
  assert (stable (fact F')) as HF' by (intros ts ss m reg [??]; split; [by apply Lasting0|done]).
  eapply triple_bind.
  { eapply triple_pre; [|apply (triple_join F' c room room0); [done|]].
    - intros ss m reg [[(V & -> & Hr) HF] Hroom]. rewrite Hroom. split; [by split_and!|by split].
    - destruct room0 as [r|]; [right|by left].
      destruct (decide (r = room)) as [->|Hne]; [done|]. exfalso. apply Hb. split; congruence. }
  intros [snap|e].
  - eapply triple_bind; [|intros ?; apply triple_deliver; [apply calm_stable|done]].
    eapply triple_atomic; [|apply (act_session _ _ _ _ (λ _, calm))|auto with stable|done].
    + by apply (stable_joined F' room room0 (Value snap)).
    + intros ss m reg [(V & -> & Hr) [HF _]]. split; [done|].
      split; [split_and!; [by apply session_inv_room|done..]|by apply Lasting0].
  - apply (triple_pre _ _ _ (both (calm_in room0) (λ _ _ _, text (error_message e)))).
    + intros ss m reg ((V & -> & Hr) & [HF Hroom] & He). split; [|done]. split; [|done].
      split; [split_and!; [done|by rewrite Hroom|done]|done].
    + apply triple_pure. intros He. by apply triple_refuse.
Qed.

Lemma triple_leave_request room0 room :
  triple (Σ:=Σ) c None (calm_in room0)
    (if bool_decide (room0 ≠ Some room) then atomic (sendError c notInRoom) else
     result ← leaveRoom_p c room;
     match result with
     | Unexpected e => atomic (sendError c e)
     | Value events =>
         atomic (on_session c (set_room_of None)) ;; dispatchOutgoing_p events ;;
         atomic (deliver c (OkResponse "leave_room" room))
     end) (λ _, calm).
Proof.
  apply triple_if; intros Hb; [apply triple_refuse; by apply text_ascii|]. apply bool_decide_eq_false, dec_stable in Hb.
  eapply triple_bind.
  { apply (triple_leave (calm_in room0) c room (both (astray None) (fact F))); [apply calm_in_stable|auto with stable| |].
    - intros ss m reg [[(V & -> & Hr) HF] Hroom]. congruence.
    - intros ss m reg [[(V & -> & Hr) HF] Hroom]. split; [by split_and!|done]. }
  intros [evs|e]; [|apply (triple_pre _ _ _ (λ _ _ _, False)); [by intros ss m reg [_ [? ?]]|]].
  - eapply triple_bind; [|intros ?; eapply triple_bind; [apply (triple_dispatch _ calm), calm_stable|]; intros ?;
      apply triple_deliver; [apply calm_stable|by apply text_ascii]].
    eapply triple_atomic; [auto 6 with stable|apply (act_session _ _ _ _ (λ _, calm))|auto with stable|done].
    intros ss m reg [[(V & -> & Hr) HF] _]. split; [done|].
    split; [split_and!; [by apply session_inv_room|done..]|by apply Lasting0].
  - by intros s (ss & m & reg & _ & _ & _ & _ & ?).
Qed.

Lemma triple_message now msg :
  triple (Σ:=Σ) c None calm (handleMessage_p now c msg) (λ _, calm).
Proof.
  apply triple_this; [apply calm_stable|]. intros ss0. change (both calm _) with (calm_in (currentRoom_ ss0)).
  assert (∀ A (p : prog (@Server Σ) Seen A) Q, triple c None calm p Q → triple c None (calm_in (currentRoom_ ss0)) p Q) as Hpre
    by (intros A p Q; apply triple_pre; by intros ss m reg [? _]).
  destruct msg as [| |room|room|room col th p|room p|room|room p|room];
    try match goal with
        | |- triple _ _ _ (match event_request ?m with _ => _ end) _ =>
            exact (triple_event_request now (currentRoom_ ss0) m room _ eq_refl)
        end.
  - apply Hpre, triple_deliver; [apply calm_stable|done].
  - apply Hpre. eapply triple_bind; [apply triple_keep; [apply calm_stable|apply act_create]|].
    intros room. apply triple_deliver; [apply calm_stable|done].
  - apply triple_join_request.
  - apply triple_leave_request.
Qed.
End Message.

(** An action that ends the handler: the session is [quiet] after it. *)
Lemma triple_end c (P : assertion) {A} (a : M (@Server Σ) A) :
  stable P →
  (∀ ss m reg, P ss m reg → ∃ x f,
     (∀ s, sessions s !! c = Some ss → a s = Some (x, upd c f s)) ∧ quiet (f ss) m reg) →
  triple c None P (atomic a) (λ _, quiet).
Proof.
  intros HP Ha. eapply (triple_atomic _ _ _ _ (λ _, quiet)); [done| |auto with stable|done].
  apply act_local. intros ss m reg HPs. destruct (Ha _ _ _ HPs) as (x & f & E & V & Hm & Hr).
  exists x, f. split; [done|]. split; [|by split_and!].
  intros Hreg _. apply session_alive; [done|by apply Hr].
Qed.

Lemma triple_line c now line F `{!Lasting F} :
  line_text line →
  triple (Σ:=Σ) c None (both quiet (fact F)) (handleLine_p now c line) (λ _, both quiet (fact F)).
Proof.
  intros Hl. unfold handleLine_p. destruct (parseClientMessage line) as [m|e] eqn:Ep.
  - by apply triple_message.
  - apply triple_error; [auto with stable|]. unfold protocolToCoreError.
    destruct (perr_code e); by eapply parse_error_text.
Qed.

(** After an error the session is stopped, then let go by the handler. *)
Lemma triple_fail F `{!Lasting F} c g :
  (∀ ss, session_inv ss → stopped_ ss = true →
     session_inv (g ss) ∧ currentRoom_ (g ss) = currentRoom_ ss ∧ stopped_ (g ss) = true) →
  triple (Σ:=Σ) c None (both quiet (fact F)) (stopImpl_p c ;; atomic (on_session c g)) (λ _, quiet).
Proof.
  intros Hg. eapply triple_bind; [by apply triple_stop|]. intros ?.
  apply triple_end; [unfold stopped_quiet; auto with stable|].
  intros ss m reg [(V & -> & Hr) [_ Hst]]. exists tt, g. split; [done|].
  destruct (Hg ss V Hst) as (V' & Hroom & Hst'). split_and!; [done|done|by rewrite Hr, Hst, Hst'].
Qed.

Lemma triple_read c now line :
  op_text (ReadDone c now line) →
  triple (Σ:=Σ) c None (both quiet (fact (λ ss, reading ss = true))) (onReadLine_p now c line) (λ _, quiet).
Proof.
  intros Ht. unfold onReadLine_p. destruct line as [line|].
  - eapply triple_bind; [by apply triple_line|]. intros ?. apply triple_end; [auto with stable|].
    intros ss m reg [(V & -> & Hr) _]. exists tt, (λ _, read_done ss). split; [intros s Hs; by apply read_effect|].
    split_and!; [by apply read_done_inv|done..].
  - apply triple_fail; [apply _|]. intros ss V Hst. split_and!; [|done|done].
    apply session_inv_read; [done|congruence].
Qed.

Lemma triple_write c ok :
  triple (Σ:=Σ) c None (both quiet (fact (λ ss, writing ss = true))) (onWrite_p c ok) (λ _, quiet).
Proof.
  unfold onWrite_p. destruct ok; simpl.
  - apply triple_end; [auto with stable|]. intros ss m reg [(V & -> & Hr) Hw].
    destruct (writeQueue_ ss) as [|line q] eqn:Hq; [by destruct (sv_writing _ V Hw)|].
    exists tt, (λ _, write_done line q ss). split; [intros s Hs; by apply write_effect|].
    split_and!; [by apply write_done_inv|done..].
  - apply triple_fail; [apply _|]. intros ss [A' B' C' D'] Hst. split_and!; [|done|done].
    split; simpl; auto; congruence.
Qed.

Lemma take_effect c s ss t ts :
  sessions s !! c = Some ss → posted ss = t :: ts →
  take_posted c s = Some (Some t, upd c (λ _, task_done t ts ss) s).
Proof.
  intros Hs Hp. unfold take_posted. rewrite this_bind, Hs, Hp.
  assert ((on_session c (set_posted ts) ;; match t with TStop => mret tt | _ => run_task c t end) s =
    Some (tt, upd c (λ _, task_done t ts ss) s)) as E.
  { destruct (decide (t = TStop)) as [->|Hne].
    - eapply bind_run; [reflexivity|]. unfold mret, M_ret. do 2 f_equal. by apply (upd_const c (set_posted ts)).
    - rewrite <-task_effect by done. by destruct t. }
  rewrite <-bind_assoc. by apply (bind_run _ _ _ _ _ _ E).
Qed.

Lemma triple_posted c : triple (Σ:=Σ) c None quiet (run_posted_p c) (λ _, quiet).
Proof.
  unfold run_posted_p. eapply triple_bind.
  - apply triple_end; [auto with stable|]. intros ss m reg (V & -> & Hr).
    destruct (posted ss) as [|t ts] eqn:Hp.
    + exists None, (λ ss, ss). split; [|by split_and!]. intros s Hs. unfold take_posted.
      rewrite this_bind, Hs, Hp. by rewrite upd_id.
    + exists (Some t), (λ _, task_done t ts ss). split; [intros s Hs; by apply take_effect|].
      destruct (task_done_inv t ts ss V Hp) as (V' & Hroom & Hst).
      split_and!; [done|by rewrite Hroom|by rewrite Hst].
  - intros [[| |]|]; try by (apply triple_ret; [auto with stable|done]).
    eapply triple_post; [|eapply (triple_pre _ _ _ (both quiet (fact (λ _, True)))); [|by apply triple_stop]].
    + by intros ? ss m reg [? _].
    + by split.
Qed.

(** ** The pool *)

Abbreviation server_pool := (@Pool (@Server Σ) Seen (option ClientId) _ _).
Implicit Types P : server_pool.

(** The session [c] is quiet, or its handler is safe. *)
Definition strand_inv P (c : ClientId) : Prop :=
  match running P !! Some c with
  | None => holds c None quiet (shared P)
  | Some p => safe c p (λ _, holds c None quiet) (shared P)
  end.

Record pool_inv (k : Z) P : Prop := {
  pi_shared : shared_inv k (shared P);
  pi_strand c : is_Some (sessions (shared P) !! c) → strand_inv P c;
  pi_known c : is_Some (running P !! Some c) → is_Some (sessions (shared P) !! c);
  pi_outside p : running P !! None = Some p →
    p = Return tt ∨ p = handler Accept ∨ ∃ c, p = handler (Stop c);
}.

Lemma holds_sessions c ptr (Q : assertion) s : holds c ptr Q s → is_Some (sessions s !! c).
Proof. intros (ss & m & reg & Hs & _). by eexists. Qed.

Lemma strand_rely P c s m t :
  strand_inv P c → rely c (shared P) s → m !! Some c = running P !! Some c → strand_inv (mkPool s m t) c.
Proof.
  unfold strand_inv. simpl. intros Hs He ->. destruct (running P !! Some c).
  - by eapply safe_rely.
  - eapply holds_rely; [apply stable_quiet|done|done].
Qed.

Lemma accept_shared k s :
  shared_inv k s → 1 ≤ k →
  ∃ s', acceptSession s = Some (tt, s') ∧ shared_inv (k - 1) s' ∧
    (∀ c, is_Some (sessions s !! c) → rely c s s') ∧
    (∀ c, sessions s !! c = None → is_Some (sessions s' !! c) → holds c None quiet s').
Proof.
  intros I Hk. pose proof (shared_mono k (k - 1) s I ltac:(lia)) as [A1 A2 _ A4 A5 A6].
  destruct I as [_ _ [C1 C2] _ _ _]. set (n := nextClientId_ s).
  assert (sessions s !! n = None) as Hfresh.
  { destruct (sessions s !! n) as [ss|] eqn:Es; [|done]. assert (n < n) by (apply A4; eauto). lia. }
  eexists. split; [unfold acceptSession, registry_add, mbind, M_bind, get, modify; simpl; reflexivity|].
  fold n. split_and!.
  - split; simpl; fold n; rewrite ?u64_succ by lia; try done; [lia|..].
    + intros c. rewrite lookup_insert_is_Some. intros [<-|[_ Hc]]; [lia|]. specialize (A4 _ Hc). lia.
    + intros room c Hc. rewrite lookup_insert_is_Some. destruct (decide (n = c)); [by left|right].
      split; [done|by eapply A5].
    + intros c. rewrite elem_of_union, elem_of_singleton. intros [->|Hc].
      * rewrite lookup_insert_eq. by eexists.
      * destruct (A6 c Hc) as (ss & Hs & Hal). exists ss. rewrite lookup_insert_ne; [done|].
        intros <-. congruence.
  - intros c [ss Hs]. assert (n ≠ c) by congruence. split; simpl; fold n; try done; [|set_solver].
    exists []. rewrite lookup_insert_ne, Hs by done. simpl. by rewrite post_tasks_nil.
  - intros c Hc. simpl. fold n. destruct (decide (n = c)) as [<-|Hne];
      [|rewrite lookup_insert_ne, Hc by done; by intros []].
    intros _. exists new_session, None, true. split_and!.
    + apply lookup_insert_eq.
    + intros room. split; [|done]. intros Hm. apply A5 in Hm. rewrite Hc in Hm. by destruct Hm.
    + simpl. fold n. set_solver.
    + done.
    + split_and!; [|done|done]. split; simpl; try done. intros _. right. by left.
Qed.

Lemma stop_shared k s c :
  shared_inv k s → 1 ≤ k →
  ∃ s', on_session c (λ ss, set_posted (posted ss ++ [TStop]) ss) s = Some (tt, s') ∧
    shared_inv (k - 1) s' ∧ (∀ c, rely c s s') ∧
    (∀ c, is_Some (sessions s' !! c) → is_Some (sessions s !! c)).
Proof.
  intros I Hk. eexists. split; [reflexivity|].
  assert (∀ ss, set_posted (posted ss ++ [TStop]) ss = post_tasks [TStop] ss) as Htasks
    by (intros []; unfold post_tasks; simpl; by rewrite app_nil_r).
  pose proof (shared_mono k (k - 1) s I ltac:(lia)) as [A1 A2 A3 A4 A5 A6]. split_and!.
  - split; try done; simpl.
    + intros c'. rewrite lookup_alter_is_Some. apply A4.
    + intros room c'. rewrite lookup_alter_is_Some. apply A5.
    + intros c' Hc'. destruct (A6 c' Hc') as (ss & Hs & Hal). rewrite lookup_alter.
      case_decide; [subst c'|by exists ss]. rewrite Hs. eexists. split; [done|].
      rewrite Htasks. by apply alive_tasks.
  - intros c'. split; try done. simpl. rewrite lookup_alter. case_decide; [subst c'; exists [TStop]|exists []];
      (destruct (sessions s !! _); [|done]); simpl; [by rewrite Htasks|by rewrite post_tasks_nil].
  - intros c'. simpl. by rewrite lookup_alter_is_Some.
Qed.

Definition label_text (l : Label) : Prop :=
  match l with Begin op => op_text op | Next _ => True end.

Lemma begin_safe op c s :
  op_text op → strand_of op = Some c → due op s = true → holds c None quiet s →
  safe c (handler op) (λ _, holds c None quiet) s.
Proof.
  intros Ht Hst Hdue Hh. destruct op as [|c' now line|c' ok|c'|c']; simpl in Hst; simplify_eq; simpl in Hdue.
  - apply triple_read; [done|]. destruct Hh as (ss & m & reg & Hs & Hm & Hr & Hp & Hq).
    rewrite Hs in Hdue. exists ss, m, reg. by split_and!.
  - apply triple_write. destruct Hh as (ss & m & reg & Hs & Hm & Hr & Hp & Hq).
    rewrite Hs in Hdue. exists ss, m, reg. by split_and!.
  - by apply triple_posted.
Qed.

Lemma begin_inv k P op :
  pool_inv k P → op_text op →
  ∃ P', threads_step (Begin op) P = Some (tt, P') ∧ pool_inv k P'.
Proof.
  intros I Ht. unfold threads_step.
  destruct (bool_decide (running P !! strand_of op = None) && due op (shared P)) eqn:Hb; [|by exists P].
  apply andb_true_iff in Hb as [Hfree%bool_decide_eq_true Hdue].
  eexists. split; [done|]. destruct I as [A B C D]. split; simpl; [done|..].
  - intros c Hc. specialize (B c Hc). unfold strand_inv in *. simpl.
    destruct (decide (strand_of op = Some c)) as [Hop|Hne].
    + rewrite Hop in *. rewrite lookup_insert_eq. rewrite Hfree in B. by apply begin_safe.
    + by rewrite lookup_insert_ne.
  - intros c. rewrite lookup_insert_is_Some. intros [Hop|[_ Hc]]; [|by apply C].
    destruct op as [|c' now line|c' ok|c'|c']; simpl in Hop; simplify_eq; simpl in Hdue;
      destruct (sessions (shared P) !! c); done.
  - intros p. rewrite lookup_insert. case_decide as Hop; [|by apply D]. intros [= <-].
    destruct op; simpl in Hop; try done; eauto.
Qed.

(** A step of the acceptor, or of a call from outside. *)
Lemma outside_inv k P p :
  pool_inv k P → 1 ≤ k → running P !! None = Some p →
  ∃ P', pool_next None P = Some (tt, P') ∧ pool_inv (k - 1) P'.
Proof.
  intros [A B C D] Hk Hp. unfold pool_next. rewrite Hp.
  assert (∀ a seen, p = Act a seen Return →
    (∃ s', a (shared P) = Some (tt, s') ∧ shared_inv (k - 1) s' ∧
      (∀ c, is_Some (sessions (shared P) !! c) → rely c (shared P) s') ∧
      (∀ c, sessions (shared P) !! c = None → is_Some (sessions s' !! c) → holds c None quiet s')) →
    ∃ P', match a (shared P) with
          | Some (x, s) => Some (tt, mkPool s (<[None := Return x]> (running P)) (trace P ++ ((None,.) <$> seen x)))
          | None => None
          end = Some (tt, P') ∧ pool_inv (k - 1) P') as Hact.
  { intros a seen -> (s' & -> & I' & Hrely & Hnew). eexists. split; [done|]. split; simpl; [done|..].
    - intros c Hc. destruct (sessions (shared P) !! c) as [ss|] eqn:Hs.
      + apply (strand_rely P); [apply B; eauto|apply Hrely; eauto|by rewrite lookup_insert_ne].
      + unfold strand_inv. simpl. rewrite lookup_insert_ne by done.
        destruct (running P !! Some c) as [q|] eqn:Hq; [|by apply Hnew].
        assert (is_Some (sessions (shared P) !! c)) as [? ?] by (apply C; eauto). congruence.
    - intros c. rewrite lookup_insert_ne by done. intros Hc. apply C in Hc as Hold.
      destruct (Hrely c Hold) as [[ts Hs'] _ _ _]. rewrite Hs'. by rewrite fmap_is_Some.
    - intros q. rewrite lookup_insert_eq. intros [= <-]. by left. }
  destruct (D p Hp) as [->|[->|[c ->]]].
  - eexists. split; [done|]. split; simpl; [by apply (shared_mono k); [|lia]|..].
    + intros c Hc. apply (strand_rely P); [by apply B|done|by rewrite lookup_delete_ne].
    + intros c. rewrite lookup_delete_ne by done. apply C.
    + intros q. by rewrite lookup_delete_eq.
  - apply (Hact acceptSession (λ _, [])); [done|]. by apply accept_shared.
  - apply (Hact (on_session c (λ ss, set_posted (posted ss ++ [TStop]) ss)) (λ _, [])); [done|].
    destruct (stop_shared k (shared P) c A Hk) as (s' & E & I' & Hrely & Hold).
    exists s'. split_and!; [done|done|by intros; apply Hrely|]. intros c' Hn Hc'.
    apply Hold in Hc'. rewrite Hn in Hc'. by destruct Hc'.
Qed.

(** A step of the handler of a session. *)
Lemma session_next_inv k P c p :
  pool_inv k P → 1 ≤ k → running P !! Some c = Some p →
  ∃ P', pool_next (Some c) P = Some (tt, P') ∧ pool_inv (k - 1) P'.
Proof.
  intros [A B C D] Hk Hp. unfold pool_next. rewrite Hp.
  assert (is_Some (sessions (shared P) !! c)) as Hc by (apply C; eauto).
  pose proof (B c Hc) as Hsafe. unfold strand_inv in Hsafe. rewrite Hp in Hsafe.
  destruct p as [[]|B' a seen rest].
  - eexists. split; [done|]. split; simpl; [by apply (shared_mono k); [|lia]|..].
    + intros c' Hc'. destruct (decide (c' = c)) as [->|Hne].
      * unfold strand_inv. simpl. rewrite lookup_delete_eq. by apply Hsafe.
      * apply (strand_rely P); [by apply B|done|by rewrite lookup_delete_ne by congruence].
    + intros c' Hc'. apply C. destruct (decide (c' = c)) as [->|Hne]; [by rewrite Hp|].
      by rewrite lookup_delete_ne in Hc' by congruence.
    + intros q. rewrite lookup_delete_ne by done. apply D.
  - destruct (Hsafe k (shared P) ltac:(done) A Hk) as (x & s' & -> & I' & G & Hrest).
    eexists. split; [done|]. split; simpl; [done|..].
    + intros c' Hc'. destruct (decide (c' = c)) as [->|Hne].
      * unfold strand_inv. simpl. by rewrite lookup_insert_eq.
      * pose proof (proj1 (gu_same _ _ _ G c') Hc') as Hold.
        apply (strand_rely P); [by apply B|by apply (gu_rely _ _ _ G)|by rewrite lookup_insert_ne by congruence].
    + intros c' Hc'. rewrite (gu_same _ _ _ G). apply C.
      destruct (decide (c' = c)) as [->|Hne]; [by rewrite Hp|].
      by rewrite lookup_insert_ne in Hc' by congruence.
    + intros q. rewrite lookup_insert_ne by done. apply D.
Qed.

Lemma threads_step_inv k P l :
  pool_inv k P → 1 ≤ k → label_text l →
  ∃ P', threads_step l P = Some (tt, P') ∧ pool_inv (k - 1) P'.
Proof.
  intros I Hk Ht. assert (∀ P k', pool_inv k P → k' ≤ k → pool_inv k' P) as Hmono.
  { intros P1 k' [A B C D] Hk'. split; try done. by apply (shared_mono k). }
  destruct l as [op|st].
  - destruct (begin_inv k P op I Ht) as (P' & E & I'). exists P'. split; [done|]. apply Hmono; [done|lia].
  - unfold threads_step. destruct (running P !! st) as [p|] eqn:Hp.
    + destruct st as [c|]; [by eapply session_next_inv|by eapply outside_inv].
    + exists P. unfold pool_next. rewrite Hp. split; [done|]. apply Hmono; [done|lia].
Qed.

Lemma threads_run_inv ls k P :
  pool_inv k P → Z.of_nat (length ls) ≤ k → Forall label_text ls →
  ∃ P', threads_run ls P = Some (tt, P') ∧ pool_inv (k - Z.of_nat (length ls)) P'.
Proof.
  revert k P. induction ls as [|l ls IH]; intros k P I Hk Ht.
  - exists P. by rewrite Z.sub_0_r.
  - apply Forall_cons_1 in Ht as [Hl Ht]. simpl length in *. rewrite Nat2Z.inj_succ in *.
    destruct (threads_step_inv k P l I ltac:(lia) Hl) as (P1 & E1 & I1).
    destruct (IH (k - 1) P1 I1 ltac:(lia) Ht) as (P2 & E2 & I2). exists P2.
    split; [simpl; unfold mbind, M_bind; by rewrite E1|].
    by replace (k - Z.succ (Z.of_nat (length ls))) with (k - 1 - Z.of_nat (length ls)) by lia.
Qed.

(** When no handler runs, the sessions are as in a run of [Session.v]. *)
Lemma quiescent_inv k P : pool_inv k P → running P = ∅ → server_inv k (shared P).
Proof.
  intros [[A1 A2 A3 A4 A5 A6] B C D] Hrun.
  assert (∀ c ss, sessions (shared P) !! c = Some ss → session_inv ss ∧
    (∀ room, core_member (core_ (shared P)) room c ↔ currentRoom_ ss = Some room) ∧
    (c ∈ registry_ (shared P) ↔ stopped_ ss = false)) as Hq.
  { intros c ss Hs. specialize (B c ltac:(eauto)). unfold strand_inv in B. rewrite Hrun, lookup_empty in B.
    destruct B as (ss' & m & reg & Hs' & Hm & Hr & _ & V & -> & Hst). simplify_eq.
    split_and!; [done|done|by rewrite Hr]. }
  split; try done.
  - intros room c. split.
    + intros Hm. destruct (A5 _ _ Hm) as [ss Hs]. exists ss. split; [done|]. by apply (Hq c ss Hs).
    + intros (ss & Hs & Hroom). by apply (Hq c ss Hs).
  - intros c. split.
    + intros Hc. destruct (A6 c Hc) as (ss & Hs & _). exists ss. split; [done|]. by apply (Hq c ss Hs).
    + intros (ss & Hs & Hst). by apply (Hq c ss Hs).
  - intros c ss Hs. by apply (Hq c ss Hs).
Qed.

Lemma new_pool_inv sink k : 0 ≤ k → 1 + 2 * k < 2 ^ 64 → pool_inv k (new_pool (new_server sink)).
Proof.
  intros Hk Hlt. destruct (inv_start (Σ:=Σ) sink k Hk Hlt) as [A B C D E F G].
  split; simpl; [split; try done|..].
  - intros room c. rewrite E. intros (ss & Hs & _). by eexists.
  - intros c. rewrite lookup_empty. by intros [].
  - intros c. rewrite lookup_empty. by intros [].
  - intros p. by rewrite lookup_empty.
Qed.
End Handlers.
