(* ===== verification/ThreadsEnd.v ===== *)
(** * The length of the handlers

    How many actions a handler takes: a constant, and a few for each event it
    passes on, of which there are at most two for each member of the room, so that
    the number of sessions gives a bound that is known before the handler runs.
    [costs] bounds the actions of a program along its sequencing; [paid] adds up
    the bounds of the programs in progress, whatever order they run in. *)
From S2P Require Import Prelude CoreTypes Room RoomSpec RoomRefine RoomTrace RoomProps ServerCore.
From S2P Require Import CoreProps Membership Messages Mappers JsonProtocol JsonSpec Session SessionInv.
From S2P Require Import Interleave ServerThreads ThreadsInv ThreadsSafe.

(** ** The events of one call *)

Section Events.
Context `{HashOrder}.

Definition events_of_reply (y : RoomReply) : list OutgoingEvent :=
  match y with ReplyEvents (Value evs) => evs | _ => [] end.

Lemma length_fanout id ms from seq p : (length (fanout id ms from seq p) ≤ size ms)%nat.
Proof.
  unfold fanout. rewrite length_fmap. etrans; [apply length_filter|].
  by rewrite set_order_perm.
Qed.

(** At most two for each member. *)
Lemma spec_call_length op a :
  (length (events_of_reply (spec_call op a).1) ≤ 2 * size (sp_members a))%nat.
Proof.
  assert (∀ id c from seq p, (length (fanout id (sp_members a ∖ {[c]}) from seq p) ≤ size (sp_members a))%nat) as Hrest.
  { intros id c from seq p. etrans; [apply length_fanout|]. apply subseteq_size. set_solver. }
  pose proof (length_fanout (sp_id a) (sp_members a)) as Hall.
  destruct op as [c|c|now c ev]; simpl.
  - unfold spec_join. simpl. lia.
  - unfold spec_leave. case_bool_decide; simpl; [lia|].
    destruct (drawing_id c (sp_board a)) as [sid|]; simpl; rewrite ?length_app.
    + specialize (Hall c (sp_seq a + 1) (StrokeEndOut c sid)).
      specialize (Hrest (sp_id a) c c (sp_seq a + 1 + 1) (MemberLeftOut c)). simpl in *. lia.
    + specialize (Hrest (sp_id a) c c (sp_seq a + 1) (MemberLeftOut c)). simpl in *. lia.
  - unfold spec_apply, spec_begin, spec_point, spec_end, spec_move, spec_clear, spec_ok.
    case_bool_decide; simpl; [|lia].
    destruct ev; repeat case_match; simpl in *; simplify_eq/=; try lia; etrans; try apply Hall; lia.
Qed.

Lemma room_call_length op r y r' :
  room_wf r → headroom 2 r → room_call op r = Some (y, r') →
  (length (events_of_reply y) ≤ 2 * size (members_ r))%nat.
Proof.
  intros wf hr E. destruct (room_call_refines op r wf hr) as (y' & r1 & E' & S & _). simplify_eq.
  pose proof (spec_call_length op (abs_room r)) as Hl. by rewrite S in Hl.
Qed.
End Events.

(** ** The actions of a handler *)

Section Costs.
Context `{HashOrder} {Σ : Type} `{SnapshotSink Σ} `{JsonText} (N : nat).
Implicit Types s : @Server Σ.
Abbreviation handler_prog := (prog (@Server Σ) Seen).

(** There are at most [N] sessions, hence at most [N] members in a room. *)
Definition crowd s : Prop := shared_inv 1 s ∧ (size (sessions s) ≤ N)%nat.

Lemma crowd_members s room r : crowd s → core_room (core_ s) room = Some r → (size (members_ r) ≤ N)%nat.
Proof.
  intros [I Hn] Hr. etrans; [|exact Hn]. rewrite <-size_dom. apply subseteq_size. intros c Hc.
  apply elem_of_dom, (hi_member _ _ I room). by exists r.
Qed.

(** The program takes at most [n] actions and ends in [Q]. *)
Fixpoint costs {A} (p : handler_prog A) (n : nat) (Q : A → Prop) : Prop :=
  match p with
  | Return x => Q x
  | Act a _ rest =>
      match n with
      | O => False
      | S n => ∀ s x s', crowd s → a s = Some (x, s') → costs (rest x) n Q
      end
  end.

Lemma costs_mono {A} (p : handler_prog A) n n' (Q Q' : A → Prop) :
  costs p n Q → (n ≤ n')%nat → (∀ x, Q x → Q' x) → costs p n' Q'.
Proof.
  intros Hp Hn HQ. revert n n' Hp Hn. induction p as [x|B a seen rest IH]; intros n n' Hp Hn; [by apply HQ|].
  destruct n as [|n]; [done|]. destruct n' as [|n']; [lia|]. intros s x s' Hs E.
  apply (IH x n); [by eapply Hp|lia].
Qed.

Lemma costs_bind {A B} (p : handler_prog A) (f : A → handler_prog B) n m k (Q : A → Prop) (R : B → Prop) :
  costs p n Q → (∀ x, Q x → costs (f x) m R) → (n + m ≤ k)%nat → costs (p ≫= f) k R.
Proof.
  intros Hp Hf. revert n k Hp. induction p as [x|B' a seen rest IH]; intros n k Hp Hk.
  - eapply costs_mono; [by apply Hf|lia|done].
  - destruct n as [|n]; [done|]. destruct k as [|k]; [lia|]. intros s x s' Hs E.
    apply (IH x n); [by eapply Hp|lia].
Qed.

(** An action whose result is not bounded, and one whose is. *)
Lemma costs_one {A} (a : M (@Server Σ) A) (seen : A → list Seen) : costs (observed a seen) 1 (λ _, True).
Proof. done. Qed.

(** The number of events of a result. *)
Definition events_within (n : nat) (r : Expected (list OutgoingEvent) Error) : Prop :=
  match r with Value evs => (length evs ≤ n)%nat | Unexpected _ => True end.

Lemma costs_call ptr op (m : M Room (Expected (list OutgoingEvent) Error)) seen :
  (∀ r, room_call op r = (x ← m; mret (ReplyEvents x)) r) →
  costs (observed (on_ptr ptr m) seen) 1 (events_within (2 * N)).
Proof.
  intros Hop s x s' Hs E. unfold on_ptr, on_core, on_rooms, on_room in E.
  destruct (rooms_ (core_rooms (core_ s)) !! ptr) as [r|] eqn:Er; [|done].
  destruct (m r) as [[y r']|] eqn:Em; [|done]. injection E as <- _.
  assert (room_call op r = Some (ReplyEvents y, r')) as Ec by (rewrite Hop; unfold mbind, M_bind; by rewrite Em).
  pose proof (crowd_members s ptr r Hs Er) as Hn. destruct Hs as [I _].
  destruct (cw_room _ (hi_core _ _ I) ptr r Er) as [_ wr].
  assert (headroom 2 r) as h2 by (destruct (hi_room _ _ I) as [_ hr]; specialize (hr _ _ Er); unfold headroom in *; lia).
  pose proof (room_call_length op r (ReplyEvents y) r' wr h2 Ec) as Hl.
  simpl. unfold events_within. destruct y as [evs|e]; [simpl in Hl; lia|done].
Qed.

Lemma costs_save ptr : costs (save_board ptr) 2 (λ _, True).
Proof. done. Qed.

(** With a sink, what [p] takes, and the look at the sink. *)
Lemma costs_if_sink {A} (p : handler_prog unit) n (x : A) (Q : A → Prop) :
  costs p n (λ _, True) → Q x →
  costs (core ← atomic (on_core get); (if has_sink core then p else mret tt) ;; mret x) (1 + n) Q.
Proof.
  intros Hp Hx. apply (costs_bind _ _ 1 n _ (λ _, True)); [apply costs_one| |done]. intros co _.
  apply (costs_bind _ _ n 0 _ (λ _, True)); [|by intros _ _|lia].
  by destruct (has_sink co).
Qed.

Lemma costs_join c room : costs (joinRoom_p c room) 2 (λ _, True).
Proof.
  apply (costs_bind _ _ 1 1 _ (λ _, True)); [apply costs_one| |done]. by intros [ptr|] _.
Qed.

Lemma costs_leave c room : costs (leaveRoom_p c room) 6 (events_within (2 * N)).
Proof.
  apply (costs_bind _ _ 1 5 _ (λ _, True)); [apply costs_one| |done]. intros [ptr|] _; [|done].
  apply (costs_bind _ _ 1 4 _ (events_within (2 * N))); [by apply (costs_call ptr (OpLeave c))| |done].
  intros [evs|e] He; [|done]. apply (costs_if_sink _ 3); [|done].
  apply (costs_bind _ _ 1 2 _ (λ _, True)); [apply costs_one| |done]. intros n _. by case_bool_decide.
Qed.

Lemma costs_event now c room ev : costs (handleEvent_p now c room ev) 5 (events_within (2 * N)).
Proof.
  apply (costs_bind _ _ 1 4 _ (λ _, True)); [apply costs_one| |done]. intros [ptr|] _; [|done].
  apply (costs_bind _ _ 1 3 _ (events_within (2 * N))); [by apply (costs_call ptr (OpApply now c ev))| |done].
  intros [evs|e] He; [|done]. apply (costs_if_sink _ 2); [|done]. by destruct (shouldSave ev).
Qed.

Lemma costs_dispatch evs : costs (dispatchOutgoing_p evs) (2 * length evs) (λ _, True).
Proof.
  induction evs as [|e evs IH]; [done|]. cbn [dispatchOutgoing_p length].
  apply (costs_bind _ _ 2 (2 * length evs) _ (λ _, True)); [|done|lia].
  apply (costs_bind _ _ 1 1 _ (λ _, True)); [apply costs_one| |done]. by intros [d|] _.
Qed.

(** The events of a call, passed on. *)
Lemma costs_dispatch_within evs : events_within (2 * N) (Value evs) → costs (dispatchOutgoing_p evs) (4 * N) (λ _, True).
Proof. intros He. eapply costs_mono; [apply costs_dispatch|simpl in He; lia|done]. Qed.

(** One more action, of any result. *)
Lemma costs_step {A B} (a : M (@Server Σ) A) seen (f : A → handler_prog B) n (Q : B → Prop) :
  (∀ x, costs (f x) n Q) → costs (observed a seen ≫= f) (S n) Q.
Proof. intros Hf. apply (costs_bind _ _ 1 n _ (λ _, True)); [apply costs_one|by intros x _|lia]. Qed.

(** One last action. *)
Lemma costs_last {A} (a : M (@Server Σ) A) n : costs (atomic a) (S n) (λ _, True).
Proof. done. Qed.

Lemma costs_stop c : costs (stopImpl_p c) (9 + 4 * N) (λ _, True).
Proof.
  apply costs_step. intros ss. destruct (stopped_ ss); [done|].
  apply (costs_bind _ _ (7 + 4 * N) 1 _ (λ _, True)); [|by intros _ _|lia].
  destruct (currentRoom_ ss) as [room|]; [|done].
  apply (costs_bind _ _ 6 (1 + 4 * N) _ (events_within (2 * N))); [apply costs_leave| |lia]. intros res Hr.
  apply (costs_bind _ _ (4 * N) 1 _ (λ _, True)); [|by intros _ _|lia].
  destruct res as [evs|e]; [by apply costs_dispatch_within|done].
Qed.

Lemma costs_message now c msg : costs (handleMessage_p now c msg) (9 + 4 * N) (λ _, True).
Proof.
  apply costs_step. intros ss.
  assert (∀ room ev, costs (res ← handleEvent_p now c room ev;
    match res with Unexpected e => atomic (sendError c e) | Value events => dispatchOutgoing_p events end)
    (8 + 4 * N) (λ _, True)) as Hevent.
  { intros room ev. apply (costs_bind _ _ 5 (1 + 4 * N) _ (events_within (2 * N))); [apply costs_event| |lia].
    intros [evs|e] Hr; [|apply costs_last].
    eapply costs_mono; [by apply costs_dispatch_within|lia|done]. }
  destruct msg as [| |r|r|r col th p|r p|r|r p|r]; cbn [event_request]; try (case_bool_decide; [done|]); try done.
  - apply (costs_bind _ _ 2 2 _ (λ _, True)); [apply costs_join| |lia]. by intros [snap|e] _.
  - apply (costs_bind _ _ 6 (2 + 4 * N) _ (events_within (2 * N))); [apply costs_leave| |lia].
    intros [evs|e] Hr; [|done]. apply costs_step. intros _.
    apply (costs_bind _ _ (4 * N) 1 _ (λ _, True)); [by apply costs_dispatch_within|by intros _ _|lia].
  - destruct (toCoreEvent_StrokeBegin col th p); [apply Hevent|done].
  - apply Hevent.
  - apply Hevent.
  - apply Hevent.
  - apply Hevent.
Qed.

(** Every handler. *)
Definition handler_length : nat := 10 + 4 * N.

Lemma costs_handler op : costs (handler op) handler_length (λ _, True).
Proof.
  unfold handler_length.
  assert (∀ c (a : M (@Server Σ) unit), costs (stopImpl_p c ;; atomic a) (10 + 4 * N) (λ _, True)) as Hstop.
  { intros c a. apply (costs_bind _ _ (9 + 4 * N) 1 _ (λ _, True)); [apply costs_stop|done|lia]. }
  destruct op as [|c now line|c ok|c|c]; cbn [handler]; [done| | | |done].
  - destruct line as [line|]; [|apply Hstop].
    apply (costs_bind _ _ (9 + 4 * N) 1 _ (λ _, True)); [|done|lia]. unfold handleLine_p.
    destruct (parseClientMessage line); [apply costs_message|done].
  - unfold onWrite_p. destruct ok; [done|apply Hstop].
  - apply costs_step. intros [[| |]|]; [done|done|apply costs_stop|done].
Qed.
End Costs.

(** ** The programs in progress *)

Section Pool.
Context `{HashOrder} {Σ : Type} `{SnapshotSink Σ} `{JsonText}.
Abbreviation handler_prog := (prog (@Server Σ) Seen).
Abbreviation server_pool := (@Pool (@Server Σ) Seen (option ClientId) _ _).
Implicit Types P : server_pool.

(** The acceptor is about to make a session. *)
Definition accepting P : nat := match running P !! None with Some (Act _ _ _) => 1 | _ => 0 end.

Lemma same_sessions_size (s s' : @Server Σ) :
  (∀ c, is_Some (sessions s' !! c) ↔ is_Some (sessions s !! c)) → size (sessions s') = size (sessions s).
Proof.
  intros Hs. assert (dom (sessions s') = dom (sessions s)) as Hd by (apply set_eq; intros c; by rewrite !elem_of_dom).
  pose proof (size_dom (sessions s)) as E. rewrite <-Hd, size_dom in E. exact E.
Qed.

(** Sessions are only made by the acceptor, one at a time. *)
Lemma pool_next_sessions k st P P' :
  pool_inv k P → 1 ≤ k → pool_next st P = Some (tt, P') →
  (size (sessions (shared P)) ≤ size (sessions (shared P')) ∧
   size (sessions (shared P')) + accepting P' ≤ size (sessions (shared P)) + accepting P)%nat.
Proof.
  intros [A B C D] Hk E. unfold pool_next in E. destruct (running P !! st) as [p|] eqn:Hp; [|by injection E as <-].
  unfold accepting. destruct st as [c|].
  - pose proof (B c ltac:(apply C; eauto)) as Hsafe. unfold strand_inv in Hsafe. rewrite Hp in Hsafe.
    destruct p as [[]|B' a seen rest].
    { injection E as <-. simpl. by rewrite lookup_delete_ne. }
    destruct (Hsafe k (shared P) ltac:(done) A Hk) as (x & s' & Ea & _ & G & _). rewrite Ea in E. injection E as <-.
    simpl. rewrite lookup_insert_ne by done. by rewrite (same_sessions_size (shared P) s' (gu_same _ _ _ G)).
  - rewrite Hp. destruct (D p Hp) as [->|[->|[c ->]]]; cbn in E; injection E as <-; simpl.
    + rewrite lookup_delete_eq. lia.
    + rewrite lookup_insert_eq, map_size_insert. destruct (sessions (shared P) !! _); simpl; lia.
    + rewrite lookup_insert_eq. assert (∀ f, size (alter f c (sessions (shared P))) = size (sessions (shared P))) as ->; [|lia].
      intros f. pose proof (size_dom (alter f c (sessions (shared P)))) as <-. by rewrite dom_alter_L, size_dom.
Qed.

(** What is left of every handler is bounded by the sessions there are. *)
Definition bounded P : Prop := ∀ N st p,
  (S (size (sessions (shared P))) ≤ N)%nat → running P !! st = Some p → costs N p (handler_length N) (λ _, True).

Lemma pool_next_bounded k st P P' :
  pool_inv k P → 1 ≤ k → pool_next st P = Some (tt, P') → bounded P → bounded P'.
Proof.
  intros I Hk E HB N st' p HN Hp. destruct (pool_next_sessions k st P P' I Hk E) as [Hle _].
  unfold pool_next in E. destruct (running P !! st) as [q|] eqn:Hq; [|injection E as <-; by apply (HB N st')].
  destruct q as [y|B a seen rest].
  - injection E as <-. simpl in *. apply lookup_delete_Some in Hp as [_ Hp]. by apply (HB N st').
  - destruct (a (shared P)) as [[x s']|] eqn:Ea; [|done]. injection E as <-. simpl in *.
    apply lookup_insert_Some in Hp as [[<- <-]|[_ Hp]]; [|apply (HB N st'); [lia|done]].
    pose proof (HB N st _ ltac:(lia) Hq) as Hc. unfold handler_length in *. cbn [costs Nat.add] in Hc.
    eapply costs_mono; [eapply Hc; [|exact Ea]|lia|done].
    split; [apply (shared_mono k); [apply I|done]|lia].
Qed.

Lemma threads_run_bounded k ls P P' :
  pool_inv k P → Z.of_nat (length ls) ≤ k → Forall label_text ls →
  threads_run ls P = Some (tt, P') → bounded P → bounded P'.
Proof.
  revert k P. induction ls as [|l ls IH]; intros k P I Hk Ht E HB; [by injection E as <-|].
  apply Forall_cons_1 in Ht as [Hl Ht]. simpl length in Hk.
  destruct (threads_step_inv k P l I ltac:(lia) Hl) as (P1 & E1 & I1).
  cbn [threads_run] in E. unfold mbind, M_bind in E. rewrite E1 in E.
  apply (IH (k - 1) P1 I1); [lia|done|done|].
  destruct l as [op|st]; [|by eapply (pool_next_bounded k); [|lia|..]].
  unfold threads_step in E1. destruct (_ && _); injection E1 as <-; [|done].
  intros N st p HN. simpl in *. rewrite lookup_insert_Some. intros [[_ <-]|[_ Hp]]; [apply costs_handler|by apply (HB N st)].
Qed.

(** The actions of several programs, and the step that ends each of them. *)
Inductive paid (N : nat) : gmap (option ClientId) (handler_prog unit) → nat → Prop :=
  | paid_none : paid N ∅ 0
  | paid_more st p m c n :
      m !! st = None → costs N p c (λ _, True) → paid N m n → paid N (<[st := p]> m) (S c + n).

Lemma paid_take N m n st p :
  paid N m n → m !! st = Some p →
  ∃ c n', costs N p c (λ _, True) ∧ paid N (delete st m) n' ∧ n = (S c + n')%nat.
Proof.
  induction 1 as [|st' p' m c n Hst Hp Hm IH]; [by rewrite lookup_empty|].
  intros [[-> ->]|[Hne Hl]]%lookup_insert_Some.
  - exists c, n. by rewrite delete_insert_id.
  - destruct (IH Hl) as (c' & n' & Hc' & Hm' & ->). exists c', (S c + n')%nat. split; [done|]. split; [|lia].
    rewrite delete_insert_ne by done. constructor; [|done|done]. by rewrite lookup_delete_ne.
Qed.

Lemma paid_all N c m :
  (∀ st p, m !! st = Some p → costs N p c (λ _, True)) → paid N m (size m * S c).
Proof.
  induction m as [|st p m Hst IH] using map_ind; intros Hall; [by rewrite map_size_empty; constructor|].
  rewrite map_size_insert_None by done. apply paid_more; [done|apply (Hall st p), lookup_insert_eq|].
  apply IH. intros st' p' Hp'. apply (Hall st'). rewrite lookup_insert_ne; [done|]. intros <-. congruence.
Qed.

(** Whichever strand goes on, all programs have ended after [n] steps. *)
Lemma drive_ends N pick n k P :
  (∀ P', running P' ≠ ∅ → is_Some (running P' !! pick P')) →
  pool_inv k P → Z.of_nat n ≤ k → (size (sessions (shared P)) + accepting P ≤ N)%nat → paid N (running P) n →
  ∃ i P', (i ≤ n)%nat ∧ drive pick i P = Some (tt, P') ∧ running P' = ∅ ∧ pool_inv 0 P'.
Proof.
  intros Hpick. revert k P. induction (lt_wf n) as [n _ IH]. intros k P I Hk HN Hpaid.
  destruct (decide (running P = ∅)) as [Hrun|[p Hp]%Hpick].
  { exists 0%nat, P. split_and!; [lia|done|done|]. destruct I as [A B C D]. split; try done. by apply (shared_mono k); [|lia]. }
  destruct (paid_take N _ n (pick P) p Hpaid Hp) as (c & n' & Hc & Hrest & ->).
  assert (label_text (Next (pick P))) as Ht by done.
  destruct (threads_step_inv k P _ I ltac:(lia) Ht) as (P1 & E & I1). cbn [threads_step] in E.
  destruct (pool_next_sessions k _ P P1 I ltac:(lia) E) as [Hle Hsum].
  assert (∃ m, (m < S c + n')%nat ∧ paid N (running P1) m) as (m & Hm & Hpaid1).
  { unfold pool_next in E. rewrite Hp in E. destruct p as [y|B a seen rest].
    - injection E as <-. exists n'. split; [lia|done].
    - destruct (a (shared P)) as [[x s']|] eqn:Ea; [|done]. injection E as <-. destruct c as [|c]; [done|].
      exists (S c + n')%nat. split; [lia|]. simpl. rewrite <-insert_delete_eq. apply paid_more; [apply lookup_delete_eq| |done].
      eapply Hc; [|exact Ea]. split; [apply (shared_mono k); [apply I|lia]|lia]. }
  destruct (IH m Hm (k - 1) P1 I1 ltac:(lia) ltac:(lia) Hpaid1) as (i & P' & Hi & Ed & Hend & I').
  exists (S i), P'. split_and!; [lia| |done|done]. cbn [drive]. unfold mbind, M_bind, get. by rewrite E.
Qed.

(** Enough steps for the handlers of the pool. *)
Definition steps_left P : nat := size (running P) * (15 + 4 * size (sessions (shared P))).

Lemma bounded_paid P : bounded P → paid (S (size (sessions (shared P)))) (running P) (steps_left P).
Proof.
  intros HB. replace (steps_left P) with (size (running P) * S (handler_length (S (size (sessions (shared P))))))%nat
    by (unfold steps_left, handler_length; lia).
  apply paid_all. intros st p Hp. by apply (HB _ st).
Qed.
End Pool.
