(* ===== verification/ThreadsTrace.v ===== *)
(** * What an observer of the threads sees

    The trace of a schedule: the calls on the core, in the order of their
    critical sections, are a sequential run of [ServerCore.v] ([linearized]);
    each strand passes on the events of its calls, in their order. *)
From S2P Require Import Prelude CoreTypes Room RoomSpec RoomRefine RoomTrace RoomProps ServerCore.
From S2P Require Import CoreProps Membership CoreStream Messages Mappers JsonProtocol Session.
From S2P Require Import Interleave ServerThreads.

(** The calls on the core, with their replies. *)
Definition calls_of (t : list Seen) : list (CoreOp * CoreReply) :=
  omap (λ o, match o with Called op y => Some (op, y) | _ => None end) t.

Lemma calls_of_app t t' : calls_of (t ++ t') = calls_of t ++ calls_of t'.
Proof. apply omap_app. Qed.

Section Linear.
Context `{HashOrder} {Σ : Type} `{SnapshotSink Σ} `{JsonLib}.
Implicit Types s : @Server Σ.

(** The rooms, without the sink. *)
Definition rooms_only (co : @ServerCore Σ) : @ServerCore Σ := mkServerCore (core_rooms co) None.

(** ** Actions that leave the core or the rooms alone *)

Definition same_core s s' : Prop := core_ s' = core_ s.
Definition same_rooms s s' : Prop := core_rooms (core_ s') = core_rooms (core_ s).

#[export] Instance same_core_order : PreOrder same_core.
Proof. unfold same_core. split; [done|]. intros s1 s2 s3. congruence. Qed.

#[local] Hint Extern 1 (within same_core (modify _)) => by apply within_modify : within.

Lemma core_this c : within same_core (this c).
Proof. unfold this. within. Qed.

Lemma core_session c f : within same_core (on_session c f).
Proof. unfold on_session. within. Qed.

Lemma core_deliver c msg : within same_core (deliver c msg).
Proof. unfold deliver, on_session. within. Qed.

Lemma core_remove c : within same_core (registry_remove c).
Proof. unfold registry_remove. within. Qed.

#[local] Hint Resolve core_this core_session core_deliver core_remove : within.

Lemma core_find c : within same_core (registry_find c).
Proof. unfold registry_find. within. Qed.

Lemma core_doRead c : within same_core (doReadLine c).
Proof. unfold doReadLine. within. Qed.

Lemma core_read c b : within same_core (on_session c (set_reading b) ;; doReadLine c).
Proof. unfold doReadLine. within. Qed.

Lemma core_exchange c : within same_core (exchange_stopped c).
Proof. unfold exchange_stopped. within. Qed.

Lemma core_onWrite c : within same_core (onWrite c true).
Proof. unfold onWrite. simpl. unfold doWrite. within. Qed.

Lemma core_take c : within same_core (take_posted c).
Proof. unfold take_posted, run_task, doReadLine, doWrite. within. Qed.

Lemma core_accept : within same_core acceptSession.
Proof. unfold acceptSession, registry_add. within. Qed.

Lemma core_get : within same_core (on_core get).
Proof. by intros s x s' [= _ <-]. Qed.

Lemma same_enqueue snap : within same_rooms (on_core (enqueue_snapshot snap)).
Proof. by intros s x s' [= _ <-]. Qed.

Lemma same_local {A} (m : M (@Server Σ) A) : within same_core m → within same_rooms m.
Proof. intros Hm s x s' E. unfold same_rooms. by rewrite (Hm _ _ _ E). Qed.

Lemma same_observe {A} ptr (f : Room → A) : within same_rooms (on_ptr ptr (observe f)).
Proof.
  intros s x s' E. unfold on_ptr, on_core, on_rooms, on_room, observe, mbind, M_bind, get in E.
  destruct (rooms_ (core_rooms (core_ s)) !! ptr) as [r|] eqn:Er; [|done].
  injection E as _ <-. unfold same_rooms. simpl. rewrite insert_id by done. by destruct (core_rooms (core_ s)).
Qed.

(** The action is the call it lets see, if any, on the rooms. *)
Definition linear {B} (a : M (@Server Σ) B) (seen : B → list Seen) : Prop :=
  ∀ s x s', a s = Some (x, s') → (length (calls_of (seen x)) ≤ 1)%nat ∧
    core_calls (calls_of (seen x)).*1 (rooms_only (core_ s)) =
      Some ((calls_of (seen x)).*2, rooms_only (core_ s')).

Lemma linear_quiet {B} (a : M (@Server Σ) B) seen :
  within same_rooms a → (∀ x, calls_of (seen x) = []) → linear a seen.
Proof.
  intros Ha Hseen s x s' E. rewrite Hseen. simpl. split; [lia|]. unfold mret, M_ret, rooms_only.
  by rewrite (Ha _ _ _ E).
Qed.

(** ** The calls *)

Lemma linear_find room op :
  linear (on_core (on_rooms (getRoom room)) : M (@Server Σ) _) (λ r,
    match r with
    | Some _ => []
    | None => [Called (CoreRoom room op) (ReplyRoom (reply_error roomNotFound op))]
    end).
Proof.
  intros s x s' E. assert (s' = s ∧ x = ((λ _, room) <$> core_room (core_ s) room)) as [-> ->].
  { unfold on_core, on_rooms, getRoom, mbind, M_bind, mret, M_ret, get, core_room in *.
    destruct s as [[[rs n] sk] reg sss nx]. simpl in *. destruct (rs !! room); by simplify_eq. }
  destruct (core_room (core_ s) room) as [r|] eqn:Er; [by split; [simpl; lia|]|].
  split; [simpl; lia|]. by apply core_calls_one, core_call_missing.
Qed.

Lemma linear_call {A} ptr (m : M Room A) op (g : A → RoomReply) :
  (∀ r, room_call op r = (x ← m; mret (g x)) r) →
  linear (on_ptr ptr m : M (@Server Σ) A) (λ x, [Called (CoreRoom ptr op) (ReplyRoom (g x))]).
Proof.
  intros Hop s x s' E. unfold on_ptr, on_core, on_rooms, on_room in E.
  destruct (rooms_ (core_rooms (core_ s)) !! ptr) as [r|] eqn:Er; [|done].
  destruct (m r) as [[y r']|] eqn:Em; [|done]. injection E as <- <-.
  split; [simpl; lia|]. apply core_calls_one.
  pose proof (core_call_present (rooms_only (core_ s)) ptr op r (g y) r' Er) as Hc.
  rewrite save_if_none in Hc by done. apply Hc. rewrite Hop. unfold mbind, M_bind. by rewrite Em.
Qed.

Lemma linear_create :
  linear (on_core createRoom : M (@Server Σ) _) (λ room, [Called CoreCreate (ReplyCreated room)]).
Proof.
  intros s x s' E. destruct s as [[[rs n] sk] reg sss nx]. injection E as <- <-. split; [simpl; lia|done].
Qed.
End Linear.

Create HintDb local_action.
#[export] Hint Resolve core_this core_session core_deliver core_remove core_find core_doRead core_read
  core_exchange core_onWrite core_take core_accept core_get : local_action.

Create HintDb linear.
#[export] Hint Resolve same_enqueue same_observe : linear.
#[export] Hint Extern 1 (within same_rooms _) => apply same_local; solve [auto with local_action nocore] : linear.

(** Goes through a handler action by action. *)
Ltac every_linear :=
  repeat first
    [ apply linear_find | apply linear_create
    | apply linear_call; done
    | apply linear_quiet; [by auto with linear|intros ?; by repeat case_match]
    | apply every_action_bind
    | exact I
    | split; [|by intros]
    | progress intros
    | progress case_match ].

Section Schedules.
Context `{HashOrder} {Σ : Type} `{SnapshotSink Σ} `{JsonLib}.
Abbreviation server_pool := (@Pool (@Server Σ) Seen (option ClientId) _ _).

Abbreviation all_linear := (every_action (@linear _ Σ _)).

Lemma joinRoom_linear c room : all_linear (joinRoom_p c room).
Proof. unfold joinRoom_p, find_room. every_linear. Qed.

Lemma leaveRoom_linear c room : all_linear (leaveRoom_p c room).
Proof. unfold leaveRoom_p, find_room, save_board. every_linear. Qed.

Lemma handleEvent_linear now c room ev : all_linear (handleEvent_p now c room ev).
Proof. unfold handleEvent_p, find_room, save_board. every_linear. Qed.

Lemma dispatch_linear evs : all_linear (dispatchOutgoing_p evs).
Proof.
  induction evs as [|e evs IH]; [done|]. cbn [dispatchOutgoing_p]. unfold registry_deliver_p.
  every_linear. exact IH.
Qed.

Ltac handler_linear :=
  repeat first
    [ apply joinRoom_linear | apply leaveRoom_linear | apply handleEvent_linear | apply dispatch_linear
    | every_linear ].

Lemma stop_linear c : all_linear (stopImpl_p c).
Proof. unfold stopImpl_p. handler_linear. Qed.

Lemma message_linear now c msg : all_linear (handleMessage_p now c msg).
Proof. unfold handleMessage_p, sendError. handler_linear. Qed.

Lemma handler_all_linear op : all_linear (handler op).
Proof.
  destruct op as [|c now line|c ok|c|c]; cbn [handler].
  - handler_linear.
  - unfold onReadLine_p, handleLine_p, sendProtocolError, sendError. destruct line as [line|].
    + apply every_action_bind; [destruct (parseClientMessage line); [apply message_linear|every_linear]|].
      every_linear.
    + apply every_action_bind; [apply stop_linear|every_linear].
  - unfold onWrite_p. destruct ok; [every_linear|].
    apply every_action_bind; [apply stop_linear|every_linear].
  - unfold run_posted_p. apply every_action_bind; [every_linear|].
    intros [[| |]|]; try done. apply stop_linear.
  - every_linear.
Qed.

(** The calls of the trace, run in its order, give its replies and the rooms. *)
Definition linearized s0 (s : @Server Σ) (t : list Seen) : Prop :=
  core_calls (calls_of t).*1 (rooms_only (core_ s0)) = Some ((calls_of t).*2, rooms_only (core_ s)).

Lemma linearized_step s0 B (a : M (@Server Σ) B) seen s x s' t :
  linear a seen → a s = Some (x, s') → linearized s0 s t → linearized s0 s' (t ++ seen x).
Proof.
  intros Ha E Ht. unfold linearized in *. rewrite calls_of_app, !fmap_app, core_calls_app.
  unfold mbind, M_bind. rewrite Ht. by rewrite (proj2 (Ha _ _ _ E)).
Qed.

Abbreviation linear_pool s0 := (traced (K:=option ClientId) (@linear _ Σ _) (linearized s0)).

Lemma threads_step_linear s0 l P x P' :
  threads_step l P = Some (x, P') → linear_pool s0 P → linear_pool s0 P'.
Proof.
  destruct l as [op|k]; unfold threads_step; intros E HP.
  - destruct (_ && _); injection E as _ <-; [|done]. destruct HP as [HI Hp]. split; [done|].
    intros k p. simpl. rewrite lookup_insert. case_decide; [intros [= <-]; apply handler_all_linear|apply Hp].
  - eapply traced_next; [apply linearized_step|exact E|exact HP].
Qed.

(** A step makes at most one call. *)
Lemma threads_step_calls s0 l P x P' :
  threads_step l P = Some (x, P') → linear_pool s0 P →
  (length (calls_of (trace P').*2) ≤ S (length (calls_of (trace P).*2)))%nat.
Proof.
  destruct l as [op|k]; unfold threads_step, pool_next; intros E [_ Hp].
  - destruct (_ && _); injection E as _ <-; simpl; lia.
  - destruct (running P !! k) as [[y|B a seen rest]|] eqn:Hk; [injection E as _ <-; simpl; lia| |injection E as _ <-; lia].
    destruct (a (shared P)) as [[y s]|] eqn:Ea; [|done]. injection E as _ <-. simpl.
    destruct (Hp _ _ Hk) as [Ha _]. destruct (Ha _ _ _ Ea) as [Hlen _].
    rewrite fmap_app, <-list_fmap_compose, list_fmap_id, calls_of_app, length_app. lia.
Qed.

Lemma threads_run_calls s0 ls P x P' :
  threads_run ls P = Some (x, P') → linear_pool s0 P →
  (length (calls_of (trace P').*2) ≤ length ls + length (calls_of (trace P).*2))%nat.
Proof.
  revert P. induction ls as [|l ls IH]; intros P E HP; [by injection E as _ <-|].
  simpl in E. unfold mbind, M_bind in E. destruct (threads_step l P) as [[y P1]|] eqn:E1; [|done].
  pose proof (threads_step_calls s0 l P y P1 E1 HP) as Hle1.
  pose proof (IH P1 E (threads_step_linear s0 l P y P1 E1 HP)) as Hle2. simpl. lia.
Qed.

Lemma threads_run_linear s0 ls P x P' :
  threads_run ls P = Some (x, P') → linear_pool s0 P → linear_pool s0 P'.
Proof.
  revert P. induction ls as [|l ls IH]; intros P E HP; [by injection E as _ <-|].
  simpl in E. unfold mbind, M_bind in E. destruct (threads_step l P) as [[y P1]|] eqn:E1; [|done].
  eapply IH; [exact E|]. by eapply threads_step_linear.
Qed.
End Schedules.

(** ** Events *)

(** The events an observation hands to its strand, and those it passes on. *)
Definition replied (o : Seen) : list OutgoingEvent :=
  match o with Called _ y => reply_events y | _ => [] end.

Definition sent (o : Seen) : list OutgoingEvent :=
  match o with Sent e _ => [e] | _ => [] end.

Lemma replied_calls t : t ≫= replied = (calls_of t).*2 ≫= reply_events.
Proof. induction t as [|[op y|snap|e b] t IH]; simpl; [done| |done..]. by f_equal. Qed.

Section Events.
Context `{HashOrder} {Σ : Type} `{SnapshotSink Σ} `{JsonLib}.
Abbreviation handler_prog := (prog (@Server Σ) Seen).
Abbreviation server_pool := (@Pool (@Server Σ) Seen (option ClientId) _ _).

(** The program, which has yet to pass on [evs], passes on these and then those
    it is handed, in order, and ends with the ones [Q] allows. *)
Fixpoint owes {A} (p : handler_prog A) (evs : list OutgoingEvent)
    (Q : A → list OutgoingEvent → Prop) : Prop :=
  match p with
  | Return x => Q x evs
  | Act _ seen rest => ∀ x, ∃ evs',
      evs ++ (seen x ≫= replied) = (seen x ≫= sent) ++ evs' ∧ owes (rest x) evs' Q
  end.

Abbreviation nothing := (λ _ evs, evs = []).

Lemma owes_bind {A B} (p : handler_prog A) (f : A → handler_prog B) evs Q :
  owes p evs (λ x evs', owes (f x) evs' Q) → owes (p ≫= f) evs Q.
Proof.
  revert evs. induction p as [x|B' a seen rest IH]; intros evs Hp; [done|].
  intros x. destruct (Hp x) as (evs' & E & Hrest). exists evs'. split; [done|]. by apply IH.
Qed.

Lemma owes_weaken {A} (p : handler_prog A) evs (Q Q' : A → list OutgoingEvent → Prop) :
  (∀ x l, Q x l → Q' x l) → owes p evs Q → owes p evs Q'.
Proof.
  intros HQ. revert evs. induction p as [x|B' a seen rest IH]; intros evs Hp; [by apply HQ|].
  intros x. destruct (Hp x) as (evs' & E & Hrest). exists evs'. split; [done|]. by apply IH.
Qed.

(** An action that neither hands out events nor passes any on. *)
Lemma owes_act {A B} (a : M (@Server Σ) B) seen (rest : B → handler_prog A) evs Q :
  (∀ x, seen x ≫= replied = []) → (∀ x, seen x ≫= sent = []) →
  (∀ x, owes (rest x) evs Q) → owes (Act a seen rest) evs Q.
Proof. intros Hr Hs Hrest x. exists evs. by rewrite Hr, Hs, app_nil_r. Qed.

Lemma owes_atomic {A} (a : M (@Server Σ) A) evs : owes (atomic a) evs (λ _ l, l = evs).
Proof. by apply owes_act. Qed.

Lemma owes_find room op evs : owes (find_room (Σ:=Σ) room op) evs (λ _ l, l = evs).
Proof.
  apply owes_act; [|by intros [?|]|done]. intros [?|]; [done|]. by destruct op.
Qed.

Lemma owes_save ptr evs : owes (save_board (Σ:=Σ) ptr) evs (λ _ l, l = evs).
Proof. by apply owes_act; [..|intros ?; apply owes_act]. Qed.

Lemma owes_join c room evs : owes (joinRoom_p (Σ:=Σ) c room) evs (λ _ l, l = evs).
Proof.
  apply owes_bind. eapply owes_weaken; [|apply owes_find]. intros [ptr|] l ->; [|done].
  by apply owes_act.
Qed.

(** The events of an answer. *)
Definition answer (res : Expected (list OutgoingEvent) Error) : list OutgoingEvent :=
  match res with Value evs => evs | Unexpected _ => [] end.

(** A call that hands out the events of its answer. *)
Lemma owes_call {A} (a : M (@Server Σ) _) op (rest : _ → handler_prog A) Q :
  (∀ res, owes (rest res) (answer res) Q) →
  owes (Act a (λ y, [Called op (ReplyRoom (ReplyEvents y))]) rest) [] Q.
Proof.
  intros Hrest res. exists (answer res). split; [|done]. simpl. by destruct res; rewrite ?app_nil_r.
Qed.

Ltac owes_quiet := apply owes_bind; eapply owes_weaken; [|apply owes_atomic]; intros ? ? ->.

Lemma owes_leave c room : owes (leaveRoom_p (Σ:=Σ) c room) [] (λ res l, l = answer res).
Proof.
  apply owes_bind. eapply owes_weaken; [|apply owes_find]. intros [ptr|] l ->; [|done].
  apply owes_bind, owes_call. intros [evs|e]; [|done]. owes_quiet. apply owes_bind.
  destruct (has_sink _); [|done]. owes_quiet. case_bool_decide; [|done].
  eapply owes_weaken; [|apply owes_save]. by intros ? ? ->.
Qed.

Lemma owes_event now c room ev : owes (handleEvent_p (Σ:=Σ) now c room ev) [] (λ res l, l = answer res).
Proof.
  apply owes_bind. eapply owes_weaken; [|apply owes_find]. intros [ptr|] l ->; [|done].
  apply owes_bind, owes_call. intros [evs|e]; [|done]. owes_quiet. apply owes_bind.
  destruct (has_sink _); [|done]. destruct (shouldSave ev); [|done].
  eapply owes_weaken; [|apply owes_save]. by intros ? ? ->.
Qed.

Lemma owes_dispatch evs : owes (dispatchOutgoing_p (Σ:=Σ) evs) evs nothing.
Proof.
  induction evs as [|e evs IH]; [done|]. cbn [dispatchOutgoing_p]. apply owes_bind, owes_bind.
  intros [c|].
  - exists (e :: evs). split; [by rewrite app_nil_r|]. intros ?. exists evs. by rewrite app_nil_r.
  - exists evs. by rewrite app_nil_r.
Qed.

Lemma owes_stop c : owes (stopImpl_p (Σ:=Σ) c) [] nothing.
Proof.
  owes_quiet. destruct (stopped_ _); [done|]. apply owes_bind.
  eapply (owes_weaken _ _ nothing); [intros ? ? ->; apply owes_atomic|].
  destruct (currentRoom_ _) as [room|]; [|done]. apply owes_bind. eapply owes_weaken; [|apply owes_leave].
  intros [evs|e] ? ->; apply owes_bind; [|apply owes_atomic].
  eapply owes_weaken; [|apply owes_dispatch]. intros ? ? ->. apply owes_atomic.
Qed.

Lemma owes_message now c msg : owes (handleMessage_p (Σ:=Σ) now c msg) [] nothing.
Proof.
  assert (∀ room (ss : Session) (ev : Expected EventPayload Error), owes (
    if bool_decide (currentRoom_ ss ≠ Some room) then atomic (sendError c notInRoom) else
          match ev with
          | Unexpected e => atomic (sendError c e)
          | Value ev =>
              result ← handleEvent_p (Σ:=Σ) now c room ev;
              match result with
              | Unexpected e => atomic (sendError c e)
              | Value events => dispatchOutgoing_p events
              end
          end) [] nothing) as Hev.
  { intros room ss ev. case_bool_decide; [apply owes_atomic|]. destruct ev as [ev|e]; [|apply owes_atomic].
    apply owes_bind. eapply owes_weaken; [|apply owes_event].
    intros [evs|e] ? ->; [apply owes_dispatch|apply owes_atomic]. }
  owes_quiet. destruct msg; try apply Hev.
  - apply owes_atomic.
  - apply owes_bind, owes_act; [done..|]. intros ?. apply owes_atomic.
  - case_bool_decide; [apply owes_atomic|]. apply owes_bind. eapply owes_weaken; [|apply owes_join].
    intros [snap|e] ? ->; [owes_quiet|]; apply owes_atomic.
  - case_bool_decide; [apply owes_atomic|]. apply owes_bind. eapply owes_weaken; [|apply owes_leave].
    intros [evs|e] ? ->; [|apply owes_atomic]. owes_quiet. apply owes_bind.
    eapply owes_weaken; [|apply owes_dispatch]. intros ? ? ->. apply owes_atomic.
Qed.

Lemma owes_handler op : owes (handler (Σ:=Σ) op) [] nothing.
Proof.
  destruct op as [|c now line|c ok|c|c]; cbn [handler]; try apply owes_atomic.
  - unfold onReadLine_p. destruct line as [line|]; apply owes_bind;
      (eapply (owes_weaken _ _ nothing); [intros ? ? ->; apply owes_atomic|]); [|apply owes_stop].
    unfold handleLine_p. destruct (parseClientMessage line); [apply owes_message|apply owes_atomic].
  - unfold onWrite_p. destruct ok; simpl negb; cbn iota; [apply owes_atomic|]. apply owes_bind.
    eapply owes_weaken; [|apply owes_stop]. intros ? ? ->. apply owes_atomic.
  - unfold run_posted_p. owes_quiet. destruct x as [[]|]; try done. apply owes_stop.
Qed.

(** ** The strands of a pool *)

(** What the strand [k] still has to pass on, of the events it was handed. *)
Definition strand_events (P : server_pool) (k : option ClientId) : Prop :=
  ∃ evs, seen_of k (trace P) ≫= replied = (seen_of k (trace P) ≫= sent) ++ evs ∧
    match running P !! k with None => evs = [] | Some p => owes p evs nothing end.

Lemma threads_step_events l P x P' :
  threads_step l P = Some (x, P') → (∀ k, strand_events P k) → ∀ k, strand_events P' k.
Proof.
  intros E HP k. destruct l as [op|k'].
  - unfold threads_step in E. destruct (bool_decide _ && _) eqn:Hb; injection E as _ <-; [|by apply HP].
    apply andb_true_iff in Hb as [Hfree%bool_decide_eq_true _].
    destruct (HP k) as (evs & Hevs & Hrun). exists evs. split; [done|]. simpl. rewrite lookup_insert.
    case_decide as Hk; [|done]. subst k. rewrite Hfree in Hrun. subst evs. apply owes_handler.
  - unfold threads_step, pool_next in E. destruct (HP k) as (evs & Hevs & Hrun).
    destruct (running P !! k') as [[y|B a seen rest]|] eqn:Hk';
      [|destruct (a (shared P)) as [[y s]|]; [|done]|]; injection E as _ <-; [| |by exists evs].
    + exists evs. split; [done|]. simpl. rewrite lookup_delete. case_decide as Hk; [|done]. subst k'.
      by rewrite Hk' in Hrun.
    + unfold strand_events. simpl. rewrite lookup_insert, seen_of_app, seen_of_tagged, !bind_app.
      case_decide as Hk.
      * subst k'. rewrite bool_decide_eq_true_2 by done. rewrite Hk' in Hrun.
        destruct (Hrun y) as (evs' & E' & Hrest). exists evs'. split; [|done].
        rewrite Hevs, <-!app_assoc. by f_equal.
      * rewrite bool_decide_eq_false_2 by done. exists evs. simpl. by rewrite !app_nil_r.
Qed.

Lemma threads_run_events ls P x P' :
  threads_run ls P = Some (x, P') → (∀ k, strand_events P k) → ∀ k, strand_events P' k.
Proof.
  revert P. induction ls as [|l ls IH]; intros P E HP; [by injection E as _ <-|].
  simpl in E. unfold mbind, M_bind in E. destruct (threads_step l P) as [[y P1]|] eqn:E1; [|done].
  eapply IH; [exact E|]. by eapply threads_step_events.
Qed.
End Events.
