(* ===== verification/ThreadsSaves.v ===== *)
(** * The snapshots the threads hand over

    A handler copies the board under the lock of the room and hands the copy to
    the sink after it has released it.  [Watch] is what a strand has done since
    its last call on the core; [watched] is the logic of the handlers, and
    [scheduled_saves] what it says of a schedule: every snapshot handed over was the board of its
    room at some moment after the call that made it due. *)
From S2P Require Import Prelude CoreTypes Room RoomSpec RoomRefine RoomTrace RoomProps ServerCore.
From S2P Require Import CoreProps Membership CoreStream Messages Mappers JsonProtocol Session.
From S2P Require Import Interleave ServerThreads ThreadsTrace.

(** A call after which its handler may, or must, save the board of the room. *)
Definition may_save (op : RoomOp) : bool :=
  match op with OpLeave _ => true | OpApply _ _ ev => shouldSave ev | OpJoin _ => false end.

Definition due_room (call : CoreOp * CoreReply) : option RoomId :=
  match call with
  | (CoreRoom room op, ReplyRoom (ReplyEvents (Value _))) => if may_save op then Some room else None
  | _ => None
  end.

Definition must_save (call : CoreOp * CoreReply) : bool :=
  match call with
  | (CoreRoom _ (OpApply _ _ ev), ReplyRoom (ReplyEvents (Value _))) => shouldSave ev
  | _ => false
  end.

(** The last call of a strand, the board it copied since, and whether it handed
    it to the sink. *)
Record Watch := mkWatch {
  last_call : option (CoreOp * CoreReply);
  copied : option PersistedBoardSnapshot;
  handed : bool;
}.

Section Watch.
Context `{HashOrder} {Σ : Type} `{SnapshotSink Σ} `{JsonLib}.
Implicit Types s : @Server Σ.
Abbreviation handler_prog := (prog (@Server Σ) Seen).

(** The sink after these observations. *)
Definition give (σ : Σ) (o : Seen) : Σ := match o with Saved snap => enqueue snap σ | _ => σ end.
Definition sink_gets (t : list Seen) (sink : option Σ) : option Σ := (λ σ, foldl give σ t) <$> sink.

Lemma sink_gets_quiet t sink : (∀ snap, Saved snap ∉ t) → sink_gets t sink = sink.
Proof.
  intros Ht. destruct sink as [σ|]; [|done]. simpl. f_equal. revert σ.
  induction t as [|o t IH]; intros σ; [done|]. simpl. rewrite IH by set_solver.
  destruct o; [done| |done]. destruct (Ht snapshot). by left.
Qed.

Lemma sink_gets_app t t' sink : sink_gets (t ++ t') sink = sink_gets t' (sink_gets t sink).
Proof. destruct sink; [|done]. simpl. by rewrite foldl_app. Qed.

(** There is a sink. *)
Context (sink_on : bool).

(** The strand owes the sink nothing. *)
Definition closed (w : Watch) : Prop :=
  sink_on = true → ∀ call, last_call w = Some call → must_save call = true → handed w = true.

(** One action, which ends in the state [s], with its observations. *)
Inductive watch_step s : Watch → list Seen → Watch → Prop :=
  | ws_quiet w : watch_step s w [] w
  | ws_sent w e b : watch_step s w [Sent e b] w
  | ws_called w op y : closed w → watch_step s w [Called op y] (mkWatch (Some (op, y)) None false)
  | ws_copied call room r b :
      due_room call = Some room → core_room (core_ s) room = Some r →
      watch_step s (mkWatch (Some call) None b) [] (mkWatch (Some call) (Some (makePersistedSnapshot r)) b)
  | ws_saved call snap :
      watch_step s (mkWatch (Some call) (Some snap) false) [Saved snap] (mkWatch (Some call) (Some snap) true).

(** The program follows the watch, and ends with the ones [Q] allows. *)
Fixpoint watched {A} (p : handler_prog A) (w : Watch) (Q : A → Watch → Prop) : Prop :=
  match p with
  | Return x => Q x w
  | Act a seen rest => ∀ s x s', has_sink (core_ s) = sink_on → a s = Some (x, s') →
      snapshotSink_ (core_ s') = sink_gets (seen x) (snapshotSink_ (core_ s)) ∧ ∃ w', watch_step s' w (seen x) w' ∧ watched (rest x) w' Q
  end.

Abbreviation ends := (λ _ w, closed w).

Lemma watched_bind {A B} (p : handler_prog A) (f : A → handler_prog B) w Q :
  watched p w (λ x w', watched (f x) w' Q) → watched (p ≫= f) w Q.
Proof.
  revert w. induction p as [x|B' a seen rest IH]; intros w Hp; [done|].
  intros s x s' Hs E. destruct (Hp s x s' Hs E) as (Hs' & w' & Hw & Hrest).
  split; [done|]. exists w'. split; [done|]. by apply IH.
Qed.

Lemma watched_weaken {A} (p : handler_prog A) w (Q Q' : A → Watch → Prop) :
  (∀ x w', Q x w' → Q' x w') → watched p w Q → watched p w Q'.
Proof.
  intros HQ. revert w. induction p as [x|B' a seen rest IH]; intros w Hp; [by apply HQ|].
  intros s x s' Hs E. destruct (Hp s x s' Hs E) as (Hs' & w' & Hw & Hrest).
  split; [done|]. exists w'. split; [done|]. by apply IH.
Qed.

Lemma watched_sent {A} (a : M (@Server Σ) A) (seen : A → list Seen) w :
  within same_core a → (∀ x, seen x = [] ∨ ∃ e b, seen x = [Sent e b]) →
  watched (observed a seen) w (λ _ w', w' = w).
Proof.
  intros Ha Hx s x s' Hs E. rewrite (Ha _ _ _ E), sink_gets_quiet by (destruct (Hx x) as [->|(e & b & ->)]; set_solver).
  split; [done|]. exists w. split; [|done].
  destruct (Hx x) as [->|(e & b & ->)]; constructor.
Qed.

(** The rooms change and the sink does not. *)
Lemma on_rooms_sink {A} (m : M RoomManager A) s x s' :
  on_core (on_rooms m) s = Some (x, s') → snapshotSink_ (core_ s') = snapshotSink_ (core_ s).
Proof.
  unfold on_core, on_rooms. destruct (m (core_rooms (core_ s))) as [[]|]; [|done]. by intros [= _ <-].
Qed.

Lemma watched_called {A} (m : M RoomManager A) (op : CoreOp) (g : A → CoreReply) w :
  closed w →
  watched (observed (on_core (on_rooms m)) (λ x, [Called op (g x)])) w
    (λ x w', w' = mkWatch (Some (op, g x)) None false).
Proof.
  intros Hw s x s' Hs E. rewrite (on_rooms_sink m s x s' E), sink_gets_quiet by set_solver. split; [done|].
  eexists. split; [by constructor|done].
Qed.

Lemma closed_call call copy b : must_save call = false → closed (mkWatch (Some call) copy b).
Proof. by intros Hc _ c [= <-]; rewrite Hc. Qed.

Lemma watched_find room op w :
  closed w →
  watched (find_room room op) w (λ r w', match r with Some ptr => ptr = room ∧ w' = w | None => closed w' end).
Proof.
  intros Hw s r s' Hs E. rewrite (on_rooms_sink _ s r s' E), sink_gets_quiet by (try destruct r; set_solver). split; [done|].
  assert (∀ ptr, r = Some ptr → ptr = room) as Hptr.
  { intros ptr ->. unfold on_core, on_rooms, getRoom, mbind, M_bind, mret, M_ret, get in E.
    destruct (rooms_ _ !! room); [|done]. by injection E. }
  destruct r as [ptr|].
  - exists w. split; [constructor|]. split; [by apply Hptr|done].
  - eexists. split; [by constructor|]. apply closed_call. by destruct op.
Qed.

(** ** The handlers *)

Tactic Notation "watched_then" uconstr(L) := apply watched_bind; eapply watched_weaken; [|apply L].

(** The program pays what it comes to owe. *)
Definition tidy {A} (p : handler_prog A) : Prop := ∀ w, closed w → watched p w ends.

Lemma tidy_ret {A} (x : A) : tidy (mret x).
Proof. by intros w Hw. Qed.

Lemma tidy_bind {A B} (p : handler_prog A) (f : A → handler_prog B) :
  tidy p → (∀ x, tidy (f x)) → tidy (p ≫= f).
Proof.
  intros Hp Hf w Hw. apply watched_bind. eapply watched_weaken; [|by apply Hp]. intros x w' Hw'. by apply Hf.
Qed.

Lemma tidy_sent {A} (a : M (@Server Σ) A) (seen : A → list Seen) :
  within same_core a → (∀ x, seen x = [] ∨ ∃ e b, seen x = [Sent e b]) → tidy (observed a seen).
Proof. intros Ha Hx w Hw. eapply watched_weaken; [|by apply watched_sent]. by intros ? ? ->. Qed.

Lemma tidy_local {A} (a : M (@Server Σ) A) : within same_core a → tidy (atomic a).
Proof. intros Ha. apply tidy_sent; auto. Qed.

Lemma tidy_called {A} (m : M RoomManager A) (op : CoreOp) (g : A → CoreReply) :
  (∀ x, must_save (op, g x) = false) → tidy (observed (on_core (on_rooms m)) (λ x, [Called op (g x)])).
Proof.
  intros Hg w Hw. eapply watched_weaken; [|by apply watched_called]. intros x ? ->. by apply closed_call.
Qed.

Lemma watched_save ptr call :
  due_room call = Some ptr → watched (save_board ptr) (mkWatch (Some call) None false) ends.
Proof.
  intros Hdue s x s' Hs E. rewrite (on_rooms_sink _ s x s' E), sink_gets_quiet by set_solver. split; [done|].
  unfold on_ptr, on_core, on_rooms, on_room, observe, mbind, M_bind, get in E.
  destruct (rooms_ (core_rooms (core_ s)) !! ptr) as [r|] eqn:Er; [|done]. injection E as <- <-.
  eexists. split; [eapply (ws_copied _ call ptr r); [done|unfold core_room; simpl; by rewrite lookup_insert_eq]|].
  intros s1 [] s1' Hs1 E1. unfold on_core, enqueue_snapshot, modify in E1. injection E1 as <-. split; [done|].
  eexists. split; [constructor|]. by intros _ ? _.
Qed.

Lemma tidy_join c room : tidy (joinRoom_p c room).
Proof.
  intros w Hw. watched_then watched_find; [|done]. intros [ptr|] w' Hw'; [|done]. destruct Hw' as [-> ->].
  eapply watched_weaken; [|by apply watched_called]. intros y ? ->. by apply closed_call.
Qed.

(** A handler goes on to save only when there is a sink. *)
Lemma watched_if_sink {A} call (p : handler_prog unit) (x : A) :
  (sink_on = true → watched p (mkWatch (Some call) None false) ends) →
  watched (core ← atomic (on_core get); (if has_sink core then p else mret tt) ;; mret x)
    (mkWatch (Some call) None false) ends.
Proof.
  intros Hp s co s' Hs E. injection E as <- <-. simpl. rewrite sink_gets_quiet by set_solver. split; [done|].
  eexists. split; [constructor|]. apply watched_bind. rewrite Hs. destruct sink_on eqn:Hon.
  - eapply watched_weaken; [|by apply Hp]. by intros ? ? ?.
  - by intros Hon'; rewrite Hon in Hon'.
Qed.

Lemma tidy_leave c room : tidy (leaveRoom_p c room).
Proof.
  intros w Hw. watched_then watched_find; [|done]. intros [ptr|] w' Hw'; [|done]. destruct Hw' as [-> ->].
  watched_then watched_called; [|done]. intros [evs|e] ? ->; [|by apply closed_call].
  apply watched_if_sink. intros _. apply watched_bind. intros s n s' Hs E.
  rewrite (on_rooms_sink _ s n s' E), sink_gets_quiet by set_solver. split; [done|]. eexists. split; [constructor|].
  cbn [watched]. case_bool_decide; [by apply watched_save|]. by apply closed_call.
Qed.

Lemma tidy_event now c room ev : tidy (handleEvent_p now c room ev).
Proof.
  intros w Hw. watched_then watched_find; [|done]. intros [ptr|] w' Hw'; [|done]. destruct Hw' as [-> ->].
  watched_then watched_called; [|done]. intros [evs|e] ? ->; [|by apply closed_call].
  apply watched_if_sink. intros _. destruct (shouldSave ev) eqn:Hev.
  - apply watched_save. simpl. by rewrite Hev.
  - by apply closed_call.
Qed.

Lemma tidy_dispatch evs : tidy (dispatchOutgoing_p evs).
Proof.
  induction evs as [|e evs IH]; [apply tidy_ret|]. cbn [dispatchOutgoing_p]. apply tidy_bind; [|done].
  apply tidy_bind; [apply tidy_sent; [apply core_find|intros [?|]; eauto]|].
  intros [c|]; [apply tidy_sent; [apply core_deliver|eauto]|apply tidy_ret].
Qed.
End Watch.

Create HintDb tidy.
#[export] Hint Resolve tidy_ret tidy_join tidy_leave tidy_event tidy_dispatch : tidy.
#[export] Hint Extern 1 (tidy _ (atomic _)) => apply tidy_local; solve [auto with local_action nocore] : tidy.
#[export] Hint Extern 1 (tidy _ (observed (on_core createRoom) _)) => by apply tidy_called : tidy.

(** Goes through a handler whose calls are known. *)
Ltac tidy :=
  repeat first
    [ solve [auto 2 with tidy nocore] | apply tidy_bind
    | progress intros | progress case_match | case_bool_decide ].

Section Handlers.
Context `{HashOrder} {Σ : Type} `{SnapshotSink Σ} `{JsonLib}.
Context (sink_on : bool).

Lemma tidy_stop c : tidy (Σ:=Σ) sink_on (stopImpl_p c).
Proof. unfold stopImpl_p. tidy. Qed.

Lemma tidy_message now c msg : tidy (Σ:=Σ) sink_on (handleMessage_p now c msg).
Proof. unfold handleMessage_p, sendError. tidy. Qed.

#[local] Hint Resolve tidy_stop tidy_message : tidy.

Lemma tidy_handler op : tidy (Σ:=Σ) sink_on (handler op).
Proof.
  destruct op as [|c now line|c ok|c|c]; cbn [handler].
  - tidy.
  - unfold onReadLine_p, handleLine_p, sendProtocolError, sendError. tidy.
  - unfold onWrite_p. destruct ok; tidy.
  - unfold run_posted_p. tidy.
  - tidy.
Qed.
End Handlers.

(** ** Schedules *)

Section Schedules.
Context `{HashOrder} {Σ : Type} `{SnapshotSink Σ} `{JsonLib}.
Abbreviation server_pool := (@Pool (@Server Σ) Seen (option ClientId) _ _).
Abbreviation observations := (list (option ClientId * Seen)).
Implicit Types t : observations.

(** [snap] is the board of [room] after the calls of [t], run one after the other. *)
Definition board_at t (room : RoomId) (snap : PersistedBoardSnapshot) : Prop :=
  ∃ (co : @ServerCore Σ) r, core_calls (calls_of t.*2).*1 (new_core None) = Some ((calls_of t.*2).*2, co) ∧
    core_room co room = Some r ∧ snap = makePersistedSnapshot r.

(** The strand made no call on the core. *)
Definition no_call (st : option ClientId) t : Prop := calls_of (seen_of st t) = [].

(** [snap] was the board of the room of this call, after it and before the end of [t]. *)
Definition taken_since (call : CoreOp * CoreReply) t0 t (snap : PersistedBoardSnapshot) : Prop :=
  ∃ room t1 t2, due_room call = Some room ∧ t = t1 ++ t2 ∧ board_at (t0 ++ t1) room snap.

(** What the strand is known to have done, by its watch. *)
Definition follows t (st : option ClientId) (w : Watch) : Prop :=
  match last_call w with
  | None => True
  | Some call => ∃ t0 t1, t = t0 ++ (st, Called call.1 call.2) :: t1 ∧ no_call st t1 ∧
      ∀ snap, copied w = Some snap → taken_since call (t0 ++ [(st, Called call.1 call.2)]) t1 snap
  end.

(** Every snapshot handed over was copied after the call that made it due. *)
Definition saves_real t : Prop := ∀ t' st snap t'', t = t' ++ (st, Saved snap) :: t'' →
  ∃ t0 call t1, t' = t0 ++ (st, Called call.1 call.2) :: t1 ∧ no_call st t1 ∧
    taken_since call (t0 ++ [(st, Called call.1 call.2)]) t1 snap.

(** Every call that must save has saved, but for the one the watch has open. *)
Definition saves_made t (st : option ClientId) (w : Watch) : Prop := ∀ t0 op y t1,
  t = t0 ++ (st, Called op y) :: t1 → must_save (op, y) = true →
  (∃ t2 snap t3, t1 = t2 ++ (st, Saved snap) :: t3 ∧ no_call st t2) ∨
  (no_call st t1 ∧ last_call w = Some (op, y) ∧ handed w = false).

Lemma no_call_snoc st t st' o :
  no_call st t → (st' = st → calls_of [o] = []) → no_call st (t ++ [(st', o)]).
Proof.
  unfold no_call. intros Ht Ho. rewrite seen_of_app, calls_of_app, Ht. simpl.
  pose proof (seen_of_tagged st st' [o]) as E. simpl in E. rewrite E. case_bool_decide; [by apply Ho|done].
Qed.

(** Another observation. *)
Lemma follows_snoc t st w st' o :
  follows t st w → (st' = st → calls_of [o] = []) → follows (t ++ [(st', o)]) st w.
Proof.
  unfold follows. destruct (last_call w) as [call|]; [|done]. intros (t0 & t1 & -> & Hn & Hc) Ho.
  exists t0, (t1 ++ [(st', o)]). rewrite <-app_assoc. split_and!; [done|by apply no_call_snoc|].
  intros snap Hs. destruct (Hc snap Hs) as (room & t2 & t3 & Hr & -> & Hb).
  exists room, t2, (t3 ++ [(st', o)]). by rewrite app_assoc.
Qed.

Lemma saves_made_snoc t st w st' o :
  saves_made t st w → (st' = st → ∃ e b, o = Sent e b) → saves_made (t ++ [(st', o)]) st w.
Proof.
  intros Hm Ho t0 op y t1 E Hmust. apply snoc_split in E as [(-> & [= -> ->] & ->)|(t1' & -> & ->)].
  { by destruct Ho as (? & ? & ?). }
  destruct (Hm t0 op y t1' eq_refl Hmust) as [(t2 & snap & t3 & -> & Hn)|(Hn & Hl & Hh)].
  - left. exists t2, snap, (t3 ++ [(st', o)]). split; [by rewrite <-app_assoc|done].
  - right. split_and!; [|done..]. apply no_call_snoc; [done|]. intros Hst. by destruct (Ho Hst) as (? & ? & ->).
Qed.

Lemma saves_real_snoc t st o :
  saves_real t → (∀ snap, o ≠ Saved snap) → saves_real (t ++ [(st, o)]).
Proof.
  intros Hr Ho t' st' snap t'' E. apply snoc_split in E as [(_ & [= -> ->] & _)|(t1 & -> & ->)]; [by destruct (Ho snap)|].
  by eapply Hr.
Qed.

(** The last call of a strand is one. *)
Lemma last_call_same st t t' call call' t1 t1' :
  t ++ (st, Called call.1 call.2) :: t1 = t' ++ (st, Called call'.1 call'.2) :: t1' →
  no_call st t1 → no_call st t1' → t = t' ∧ call = call' ∧ t1 = t1'.
Proof.
  assert (∀ l l' c, no_call st (l ++ (st, Called c.1 c.2) :: l') → False) as Hno.
  { intros l l' c. unfold no_call. rewrite seen_of_app, calls_of_app. intros [_ Hl]%app_nil.
    unfold seen_of in Hl. rewrite filter_cons_True in Hl by done. done. }
  intros E Hn Hn'. apply app_eq_inv in E as [(k & -> & E)|(k & -> & E)]; destruct k as [|o k]; simplify_eq/=;
    try (exfalso; by eapply Hno).
  - rewrite app_nil_r. destruct call, call'. by simplify_eq/=.
  - rewrite app_nil_r. destruct call, call'. by simplify_eq/=.
Qed.

(** The strand [k] does one action, which ends in [s]. *)
Lemma watch_step_trace sink_on t k w s seen w' :
  watch_step sink_on s w seen w' → linearized (new_server (None : option Σ)) s (t.*2 ++ seen) →
  follows t k w → saves_real t → (sink_on = true → saves_made t k w) →
  let t' := t ++ ((k,.) <$> seen) in
  follows t' k w' ∧ saves_real t' ∧ (sink_on = true → saves_made t' k w') ∧
  ∀ st w1, st ≠ k → (follows t st w1 → follows t' st w1) ∧ (saves_made t st w1 → saves_made t' st w1).
Proof.
  intros Hw Hlin Hf Hr Hm t'. subst t'. split; [|split; [|split]].
  - destruct Hw as [w|w e b|w op y _|call room r b Hdue Hroom|call snap]; simpl; rewrite ?app_nil_r; [done| | | |].
    + by apply follows_snoc.
    + exists t, []. by split_and!.
    + destruct Hf as (t0 & t1 & -> & Hn & _). exists t0, t1. split_and!; [done..|]. intros snap [= <-].
      exists room, t1, []. rewrite app_nil_r, <-app_assoc. split_and!; [done..|].
      exists (rooms_only (core_ s)), r. split_and!; [|done..]. simpl in Hlin. by rewrite app_nil_r in Hlin.
    + by apply follows_snoc.
  - destruct Hw; simpl; rewrite ?app_nil_r; [done|by apply saves_real_snoc|by apply saves_real_snoc|done|].
    intros t' st' snap' t'' E. apply snoc_split in E as [(_ & [= <- <-] & <-)|(t1 & -> & ->)]; [|by eapply Hr].
    destruct Hf as (t0 & t1 & -> & Hn & Hc). exists t0, call, t1. split_and!; [done..|]. by apply Hc.
  - intros Hon. specialize (Hm Hon). destruct Hw as [w|w e b|w op y Hclosed|call room r b _ _|call snap]; simpl; rewrite ?app_nil_r; [done| | |done|].
    + apply saves_made_snoc; eauto.
    + intros t0 op' y' t1 E Hmust. apply snoc_split in E as [(-> & [= <- <-] & ->)|(t1' & -> & ->)]; [by right|].
      left. destruct (Hm t0 op' y' t1' eq_refl Hmust) as [(t2 & snap & t3 & -> & Hn)|(Hn & Hl & Hh)].
      * exists t2, snap, (t3 ++ [(k, Called op y)]). by rewrite <-app_assoc.
      * by rewrite (Hclosed Hon _ Hl Hmust) in Hh.
    + intros t0 op' y' t1 E Hmust. apply snoc_split in E as [(_ & [=] & _)|(t1' & -> & ->)].
      left. destruct (Hm t0 op' y' t1' eq_refl Hmust) as [(t2 & snap' & t3 & -> & Hn)|(Hn & Hl & Hh)].
      * exists t2, snap', (t3 ++ [(k, Saved snap)]). by rewrite <-app_assoc.
      * by exists t1', snap, [].
  - intros st w1 Hst. destruct Hw; simpl; rewrite ?app_nil_r; try (split; [done|done]);
      (split; [intros; by apply follows_snoc|intros; by apply saves_made_snoc]).
Qed.

Abbreviation linear_pool s0 := (traced (K:=option ClientId) (@linear _ Σ _) (linearized s0)).

(** A watch of the strand that explains what it did and what it will do. *)
Definition strand_watch (sink_on : bool) (P : server_pool) (st : option ClientId) : Prop :=
  ∃ w, follows (trace P) st w ∧ (sink_on = true → saves_made (trace P) st w) ∧
    match running P !! st with
    | Some p => watched sink_on p w (λ _ w', closed sink_on w')
    | None => closed sink_on w
    end.

Record saves_inv (sink : option Σ) (P : server_pool) : Prop := {
  sa_linear : linear_pool (new_server None) P;
  sa_sink : snapshotSink_ (core_ (shared P)) = sink_gets (trace P).*2 sink;
  sa_real : saves_real (trace P);
  sa_watch st : strand_watch (has_sink (new_core sink)) P st;
}.

Lemma pool_next_saves sink k P x P' :
  pool_next k P = Some (x, P') → saves_inv sink P → saves_inv sink P'.
Proof.
  intros E [HL HS HR HW]. pose proof (threads_step_linear (new_server None) (Next k) P x P' E HL) as HL'.
  unfold pool_next in E. destruct (HW k) as (w & Hf & Hm & Hrun).
  destruct (running P !! k) as [[y|B a seen rest]|] eqn:Hk;
    [|destruct (a (shared P)) as [[y s]|] eqn:Ea; [|done]|]; injection E as _ <-; [| |done].
  - split; [done..|]. intros st. unfold strand_watch. simpl. rewrite lookup_delete.
    case_decide as Hst; [subst st; by exists w|apply HW].
  - assert (has_sink (core_ (shared P)) = has_sink (new_core sink)) as Hon
      by (unfold has_sink; rewrite HS; by destruct sink).
    destruct (Hrun (shared P) y s Hon Ea) as (HS' & w' & Hw & Hrest).
    destruct (watch_step_trace _ (trace P) k w s (seen y) w' Hw) as (Hf' & HR' & Hm' & Hother); try done.
    { destruct HL' as [HL' _]. simpl in HL'. by rewrite fmap_app, <-list_fmap_compose, list_fmap_id in HL'. }
    split; [exact HL'| |exact HR'|].
    { simpl. by rewrite HS', HS, fmap_app, <-list_fmap_compose, list_fmap_id, sink_gets_app. }
    intros st. unfold strand_watch. simpl. rewrite lookup_insert.
    case_decide as Hst; [subst st; by exists w'|]. destruct (HW st) as (w1 & Hf1 & Hm1 & Hrun1).
    destruct (Hother st w1 ltac:(congruence)) as [? ?]. exists w1. auto.
Qed.

Lemma threads_step_saves sink l P x P' :
  threads_step l P = Some (x, P') → saves_inv sink P → saves_inv sink P'.
Proof.
  destruct l as [op|k]; [|apply pool_next_saves]. intros E I. destruct I as [HL HS HR HW].
  pose proof (threads_step_linear (new_server None) (Begin op) P x P' E HL) as HL'.
  unfold threads_step in E. destruct (bool_decide _ && _) eqn:Hb; injection E as _ <-; [|done].
  apply andb_true_iff in Hb as [Hfree%bool_decide_eq_true _]. split; [done..|].
  intros st. destruct (HW st) as (w & Hf & Hm & Hrun). exists w. split_and!; [done..|]. simpl. rewrite lookup_insert.
  case_decide as Hst; [|done]. subst st. rewrite Hfree in Hrun. by apply tidy_handler.
Qed.

Lemma threads_run_saves sink ls P x P' :
  threads_run ls P = Some (x, P') → saves_inv sink P → saves_inv sink P'.
Proof.
  revert P. induction ls as [|l ls IH]; intros P E HP; [by injection E as _ <-|].
  simpl in E. unfold mbind, M_bind in E. destruct (threads_step l P) as [[y P1]|] eqn:E1; [|done].
  eapply IH; [exact E|]. by eapply threads_step_saves.
Qed.

Lemma new_pool_saves sink : saves_inv sink (new_pool (new_server sink)).
Proof.
  split.
  - split; [done|]. intros st p. simpl. by rewrite lookup_empty.
  - by destruct sink.
  - intros t' st snap t'' E. by apply app_cons_not_nil in E.
  - intros st. exists (mkWatch None None false). split_and!; [done| |simpl; by rewrite lookup_empty; intros ? ?].
    intros _ t0 op y t1 E. by apply app_cons_not_nil in E.
Qed.
End Schedules.
