(* ===== verification/ThreadsEmptied.v ===== *)
(** * Rooms left empty, on several threads

    The client that empties a room does it in one critical section, reads the
    number of members in a second one and copies the board in a third.  Others may
    come in between; but a room that stays empty has been, or will be, handed to
    the sink with the board it has.  [pays] is a program that is about to do so,
    [settles] one that does whenever a call of its leaves a room empty. *)
From S2P Require Import Prelude CoreTypes Room RoomSpec RoomRefine RoomTrace RoomProps ServerCore.
From S2P Require Import CoreProps Membership Emptied Messages Mappers JsonProtocol JsonSpec Session SessionInv.
From S2P Require Import Interleave ServerThreads ThreadsInv ThreadsSafe ThreadsTrace.

Section Emptied.
Context `{HashOrder} {Σ : Type} `{SnapshotSink Σ} `{JsonText}.
Implicit Types s : @Server Σ.
Abbreviation handler_prog := (prog (@Server Σ) Seen).
Abbreviation server_pool := (@Pool (@Server Σ) Seen (option ClientId) _ _).
Implicit Types P : server_pool.

(** The room was used, has no members, and its board is [snap]. *)
Definition empty_at s (ptr : RoomId) (snap : PersistedBoardSnapshot) : Prop :=
  ∃ r, core_room (core_ s) ptr = Some r ∧ members_ r = ∅ ∧ nextSeq_ r ≠ 1 ∧ makePersistedSnapshot r = snap.

Lemma empty_at_rooms s s' ptr snap :
  core_rooms (core_ s') = core_rooms (core_ s) → empty_at s' ptr snap → empty_at s ptr snap.
Proof. intros E (r & Hr & ?). exists r. split; [|done]. unfold core_room in *. by rewrite <-E. Qed.

(** As long as the room stays empty, the program hands its board over. *)
Fixpoint pays {A} (p : handler_prog A) (ptr : RoomId) (snap : PersistedBoardSnapshot) : Prop :=
  match p with
  | Return _ => False
  | Act a seen rest => ∀ s x s', has_sink (core_ s) = true → empty_at s ptr snap → a s = Some (x, s') →
      Saved snap ∈ seen x ∨ (core_rooms (core_ s') = core_rooms (core_ s) ∧ pays (rest x) ptr snap)
  end.

Fixpoint settles {A} (p : handler_prog A) : Prop :=
  match p with
  | Return _ => True
  | Act a seen rest => ∀ s x s', shared_inv 1 s → has_sink (core_ s) = true → a s = Some (x, s') →
      has_sink (core_ s') = true ∧
      (∀ ptr snap, empty_at s' ptr snap → empty_at s ptr snap ∨ pays (rest x) ptr snap) ∧
      settles (rest x)
  end.

Lemma pays_bind {A B} (p : handler_prog A) (f : A → handler_prog B) ptr snap :
  pays p ptr snap → pays (p ≫= f) ptr snap.
Proof.
  induction p as [x|B' a seen rest IH]; [done|]. intros Hp s x s' Hs He E.
  destruct (Hp s x s' Hs He E) as [?|[Er Hr]]; [by left|right]. split; [done|]. by apply IH.
Qed.

Lemma settles_bind {A B} (p : handler_prog A) (f : A → handler_prog B) :
  settles p → (∀ x, settles (f x)) → settles (p ≫= f).
Proof.
  intros Hp Hf. induction p as [x|B' a seen rest IH]; [apply Hf|]. intros s x s' I Hs E.
  destruct (Hp s x s' I Hs E) as (Hs' & He & Hr). split_and!; [done| |by apply IH].
  intros ptr snap Hsn. destruct (He ptr snap Hsn); [by left|right]. by apply pays_bind.
Qed.

Lemma settles_ret {A} (x : A) : settles (mret x).
Proof. done. Qed.

(** An action that changes neither the rooms nor whether there is a sink. *)
Lemma settles_quiet {A} (a : M (@Server Σ) A) (seen : A → list Seen) :
  within same_rooms a → (∀ s x s', a s = Some (x, s') → has_sink (core_ s') = has_sink (core_ s)) →
  settles (observed a seen).
Proof.
  intros Ha Hk s x s' I Hs E. rewrite (Hk s x s' E). split_and!; [done| |done].
  intros ptr snap He. left. eapply empty_at_rooms; [by apply (Ha s x s')|exact He].
Qed.

Lemma settles_local {A} (a : M (@Server Σ) A) seen : within same_core a → settles (observed a seen).
Proof.
  intros Ha. apply settles_quiet; [by apply same_local|]. intros s x s' E. by rewrite (Ha s x s' E).
Qed.

Lemma sink_on_rooms {A} (m : M RoomManager A) s x s' :
  on_core (on_rooms m) s = Some (x, s') → has_sink (core_ s') = has_sink (core_ s).
Proof. unfold on_core, on_rooms. destruct (m (core_rooms (core_ s))) as [[]|]; [|done]. by intros [= _ <-]. Qed.

Lemma same_find room : within same_rooms (on_core (on_rooms (getRoom room)) : M (@Server Σ) _).
Proof.
  intros s x s' E. unfold on_core, on_rooms, getRoom, mbind, M_bind, mret, M_ret, get in E. unfold same_rooms.
  destruct (rooms_ (core_rooms (core_ s)) !! room); by injection E as _ <-.
Qed.

Lemma settles_find room op : settles (find_room room op).
Proof. apply settles_quiet; [apply same_find|intros s x s'; apply sink_on_rooms]. Qed.

Lemma settles_observe {A} ptr (f : Room → A) : settles (atomic (on_ptr ptr (observe f))).
Proof. apply settles_quiet; [apply same_observe|intros s x s'; apply sink_on_rooms]. Qed.

Lemma settles_save ptr : settles (save_board ptr).
Proof.
  apply settles_bind; [apply settles_observe|]. intros snap. apply settles_quiet; [apply same_enqueue|].
  intros s x s' [= _ <-]. simpl. unfold has_sink. simpl. by destruct (snapshotSink_ (core_ s)).
Qed.

(** The copy and the hand-over. *)
Lemma pays_save ptr snap : pays (save_board ptr) ptr snap.
Proof.
  intros s x s' Hs (r & Hr & Hm & Hn & <-) E. right. split; [by apply (same_observe ptr makePersistedSnapshot s x s')|].
  unfold on_ptr, on_core, on_rooms, on_room, observe, mbind, M_bind, get in E.
  unfold core_room in Hr. rewrite Hr in E. injection E as <- _. intros s1 y s1' _ _ _. left. by left.
Qed.

(** A call on a room; [rest] saves it when the call leaves it empty. *)
Lemma settles_call {A B} ptr (m : M Room A) op (g : A → RoomReply) seen (f : A → handler_prog B) :
  (∀ r, room_call op r = (x ← m; mret (g x)) r) →
  (∀ x r r' snap, m r = Some (x, r') → saves op (g x) r' = true → members_ r' = ∅ → pays (f x) ptr snap) →
  (∀ x, settles (f x)) → settles (observed (on_ptr ptr m) seen ≫= f).
Proof.
  intros Hop Hpay Hf s x s' I Hs E. rewrite (sink_on_rooms _ _ _ _ E). split_and!; [done| |apply Hf].
  unfold on_ptr, on_core, on_rooms, on_room in E.
  destruct (rooms_ (core_rooms (core_ s)) !! ptr) as [r|] eqn:Er; [|done].
  destruct (m r) as [[y r']|] eqn:Em; [|done]. injection E as <- <-.
  assert (room_call op r = Some (g y, r')) as Ec by (rewrite Hop; unfold mbind, M_bind; by rewrite Em).
  destruct (cw_room _ (hi_core _ _ I) ptr r Er) as [_ wr].
  assert (headroom 2 r) as h2 by (destruct (hi_room _ _ I) as [_ hr]; specialize (hr _ _ Er); unfold headroom in *; lia).
  intros room snap (r1 & Hr1 & Hm & Hn & Hsn). unfold core_room in Hr1. simpl in Hr1.
  rewrite lookup_insert in Hr1. case_decide as Hroom; [subst room; injection Hr1 as <-|left; by exists r1].
  destruct (emptied_by_call op r (g y) r' wr h2 Ec Hm) as [Hsv|[Habs Hm0]]; [right; by eapply Hpay|left].
  exists r. destruct r, r'. unfold abs_room in Habs. simpl in *. injection Habs as -> -> -> Hseq _ _.
  assert (nextSeq_0 = nextSeq_) as -> by lia. split_and!; [done|done|done|]. by rewrite <-Hsn.
Qed.
(** ** The handlers *)

Lemma settles_join c room : settles (joinRoom_p c room).
Proof.
  apply settles_bind; [apply settles_find|]. intros [ptr|]; [|done].
  refine (settles_call ptr (join c) (OpJoin c) ReplySnapshot _ mret _ _ _); [done| |done].
  intros x r r' snap _ Hsv. by destruct x.
Qed.

(** With a sink, the handler goes on to what [p] does. *)
Lemma pays_if_sink {A} (p : handler_prog unit) (x : A) ptr snap :
  pays p ptr snap →
  pays (core ← atomic (on_core get); (if has_sink core then p else mret tt) ;; mret x) ptr snap.
Proof.
  intros Hp s co s' Hs He E. injection E as <- <-. right. split; [done|].
  change (pays ((if has_sink (core_ s) then p else mret tt) ;; mret x) ptr snap). rewrite Hs. by apply pays_bind.
Qed.

Lemma settles_if_sink {A} (p : handler_prog unit) (x : A) :
  settles p → settles (core ← atomic (on_core get); (if has_sink core then p else mret tt) ;; mret x).
Proof.
  intros Hp. apply settles_bind; [apply settles_local, core_get|]. intros co.
  apply settles_bind; [by destruct (has_sink co)|]. intros []. done.
Qed.

Lemma settles_leave c room : settles (leaveRoom_p c room).
Proof.
  apply settles_bind; [apply settles_find|]. intros [ptr|]; [|done].
  apply (settles_call ptr (leave c) (OpLeave c) ReplyEvents); [done|..].
  - intros [evs|e] r r' snap _ Hsv Hm; [|done]. apply pays_if_sink.
    intros s n s' Hs (r1 & Hr1 & Hm1 & Hn1 & Hsn) E. right. split; [by apply (same_observe ptr memberCount s n s')|].
    unfold on_ptr, on_core, on_rooms, on_room, observe, mbind, M_bind, get in E.
    unfold core_room in Hr1. rewrite Hr1 in E. injection E as <- _.
    change (pays (if bool_decide (memberCount r1 = 0%nat) then save_board ptr else mret tt) ptr snap).
    unfold memberCount. rewrite Hm1, size_empty, bool_decide_eq_true_2 by done. apply pays_save.
  - intros [evs|e]; [|done]. apply settles_if_sink. apply settles_bind; [apply settles_observe|].
    intros n. case_bool_decide; [apply settles_save|done].
Qed.

Lemma settles_event now c room ev : settles (handleEvent_p now c room ev).
Proof.
  apply settles_bind; [apply settles_find|]. intros [ptr|]; [|done].
  apply (settles_call ptr (apply now c ev) (OpApply now c ev) ReplyEvents); [done|..].
  - intros [evs|e] r r' snap _ Hsv Hm; [|done]. apply pays_if_sink. simpl in Hsv. rewrite Hsv. apply pays_save.
  - intros [evs|e]; [|done]. apply settles_if_sink. by destruct (shouldSave ev); [apply settles_save|].
Qed.

(** A new room was not used. *)
Lemma settles_create seen : settles (observed (on_core createRoom) seen).
Proof.
  intros s x s' I Hs E. unfold createRoom in E. rewrite (sink_on_rooms _ _ _ _ E). split_and!; [done| |done].
  destruct s as [[[rs n] sk] reg sss nx]. injection E as _ <-. intros ptr snap (r & Hr & Hm & Hn & Hsn). left.
  unfold core_room in Hr. simpl in Hr. rewrite lookup_insert in Hr. case_decide; [|by exists r].
  by injection Hr as <-.
Qed.

Lemma settles_dispatch evs : settles (dispatchOutgoing_p evs).
Proof.
  induction evs as [|e evs IH]; [done|]. cbn [dispatchOutgoing_p]. apply settles_bind; [|done].
  apply settles_bind; [apply settles_local, core_find|]. intros [c|]; [apply settles_local, core_deliver|done].
Qed.
End Emptied.

Create HintDb settles.
#[export] Hint Resolve settles_ret settles_join settles_leave settles_event settles_dispatch settles_create : settles.
#[export] Hint Extern 1 (settles (atomic _)) => apply settles_local; solve [auto with local_action nocore] : settles.

(** Goes through a handler whose calls are known. *)
Ltac settle :=
  repeat first
    [ solve [auto 2 with settles nocore] | apply settles_bind
    | progress intros | progress case_match | case_bool_decide ].

Section Handlers.
Context `{HashOrder} {Σ : Type} `{SnapshotSink Σ} `{JsonText}.
Abbreviation server_pool := (@Pool (@Server Σ) Seen (option ClientId) _ _).
Implicit Types P : server_pool.

Lemma settles_stop c : settles (Σ:=Σ) (stopImpl_p c).
Proof. unfold stopImpl_p. settle. Qed.

Lemma settles_message now c msg : settles (Σ:=Σ) (handleMessage_p now c msg).
Proof. unfold handleMessage_p, sendError. settle. Qed.

#[local] Hint Resolve settles_stop settles_message : settles.

Lemma settles_handler op : settles (Σ:=Σ) (handler op).
Proof.
  destruct op as [|c now line|c ok|c|c]; cbn [handler].
  - settle.
  - unfold onReadLine_p, handleLine_p, sendProtocolError, sendError. settle.
  - unfold onWrite_p. destruct ok; settle.
  - unfold run_posted_p. settle.
  - settle.
Qed.

(** ** Schedules *)

(** A room that is empty was handed over with the board it has, or a handler in
    progress is about to do it. *)
Record emptied_inv P : Prop := {
  em_sink : has_sink (core_ (shared P)) = true;
  em_settles st p : running P !! st = Some p → settles p;
  em_paid ptr snap : empty_at (shared P) ptr snap →
    (∃ st, (st, Saved snap) ∈ trace P) ∨ ∃ st p, running P !! st = Some p ∧ pays p ptr snap;
}.

Lemma pool_next_emptied k st P x P' :
  pool_inv k P → 1 ≤ k → pool_next st P = Some (x, P') → emptied_inv P → emptied_inv P'.
Proof.
  intros [I _ _ _] Hk E [Hs Hset Hpaid]. apply (shared_mono k 1) in I; [|done]. unfold pool_next in E.
  destruct (running P !! st) as [p|] eqn:Hp; [|by injection E as _ <-]. destruct p as [[]|B a seen rest].
  - injection E as _ <-. split; simpl; [done|..].
    + intros st' p [_ Hp']%lookup_delete_Some. by apply (Hset st').
    + intros ptr snap He. destruct (Hpaid ptr snap He) as [?|(st' & p & Hp' & Hpay)]; [by left|right].
      exists st', p. split; [|done]. rewrite lookup_delete_ne; [done|]. intros ->. rewrite Hp in Hp'. by injection Hp' as <-.
  - destruct (a (shared P)) as [[y s']|] eqn:Ea; [|done]. injection E as _ <-.
    destruct (Hset st _ Hp (shared P) y s' I Hs Ea) as (Hs' & He & Hr). split; simpl; [done|..].
    + intros st' p [[<- <-]|[_ Hp']]%lookup_insert_Some; [done|by apply (Hset st')].
    + intros ptr snap Hsn. destruct (He ptr snap Hsn) as [Hold|Hpay].
      2:{ right. exists st, (rest y). by rewrite lookup_insert_eq. }
      destruct (Hpaid ptr snap Hold) as [[st' Hin]|(st' & p & Hp' & Hpay)].
      { left. exists st'. apply elem_of_app. by left. }
      destruct (decide (st' = st)) as [->|Hne]; [|right; exists st', p; by rewrite lookup_insert_ne].
      rewrite Hp in Hp'. injection Hp' as <-. destruct (Hpay (shared P) y s' Hs Hold Ea) as [Hsv|[_ Hrest]].
      * left. exists st. apply elem_of_app. right. apply list_elem_of_fmap. by exists (Saved snap).
      * right. exists st, (rest y). by rewrite lookup_insert_eq.
Qed.

Lemma threads_run_emptied k ls P x P' :
  pool_inv k P → Z.of_nat (length ls) ≤ k → Forall label_text ls →
  threads_run ls P = Some (x, P') → emptied_inv P → emptied_inv P'.
Proof.
  revert k P. induction ls as [|l ls IH]; intros k P I Hk Ht E HP; [by injection E as _ <-|].
  apply Forall_cons_1 in Ht as [Hl Ht]. simpl length in Hk.
  destruct (threads_step_inv k P l I ltac:(lia) Hl) as (P1 & E1 & I1).
  cbn [threads_run] in E. unfold mbind, M_bind in E. rewrite E1 in E.
  apply (IH (k - 1) P1 I1); [lia|done|done|]. destruct l as [op|st]; [|eapply (pool_next_emptied k); eauto with lia].
  unfold threads_step in E1. destruct (bool_decide _ && _) eqn:Hb; injection E1 as <-; [|done].
  apply andb_true_iff in Hb as [Hfree%bool_decide_eq_true _]. destruct HP as [Hs Hset Hpaid]. split; simpl; [done|..].
  - intros st p [[_ <-]|[_ Hp]]%lookup_insert_Some; [apply settles_handler|by apply (Hset st)].
  - intros ptr snap He. destruct (Hpaid ptr snap He) as [?|(st & p & Hp & Hpay)]; [by left|right].
    exists st, p. split; [|done]. rewrite lookup_insert_ne; [done|]. intros <-. congruence.
Qed.

Lemma new_pool_emptied sink : sink ≠ None → emptied_inv (new_pool (new_server sink)).
Proof.
  intros Hsink. split; simpl; [by destruct sink| |].
  - intros st p. by rewrite lookup_empty.
  - intros ptr snap (r & Hr & _). unfold core_room in Hr. simpl in Hr. by rewrite lookup_empty in Hr.
Qed.
End Handlers.
