(* ===== verification/ThreadsTyping.v ===== *)
(** * Types on several threads

    Every call the handlers make on the core, wherever they are preempted, is
    typed: it is made for a request that was checked, by a client that exists. *)
From S2P Require Import Prelude CoreTypes Room RoomSpec RoomRefine RoomTrace RoomProps ServerCore.
From S2P Require Import CoreProps CoreStream Typing Messages Mappers JsonProtocol JsonSpec.
From S2P Require Import Session SessionInv Serve ServerTyping.
From S2P Require Import Interleave ServerThreads ThreadsInv ThreadsSafe ThreadsTrace.

Section Typing.
Context `{HashOrder} {Σ : Type} `{SnapshotSink Σ} `{JsonText} (P : Point → Prop).
Abbreviation server_pool := (@Pool (@Server Σ) Seen (option ClientId) _ _).

(** An observed call is typed. *)
Definition seen_typed (o : Seen) : Prop :=
  match o with Called op _ => core_op_typed P op | _ => True end.

Definition calls_typed {B} (a : M (@Server Σ) B) (seen : B → list Seen) : Prop :=
  ∀ x, Forall seen_typed (seen x).

Abbreviation all_typed := (every_action (@calls_typed)).

Definition label_points (l : Label) : Prop :=
  match l with Begin op => op_points P op | Next _ => True end.

(** Goes through a handler action by action. *)
Ltac every_typed :=
  repeat first
    [ apply every_action_bind
    | exact Logic.I
    | split; [intros ?; repeat case_match; first [by constructor | apply Forall_singleton; by first [done | split]]|]
    | progress intros
    | progress case_match ].

Lemma joinRoom_typed c room : is_u64 c → all_typed (joinRoom_p c room).
Proof. intros Hc. unfold joinRoom_p, find_room. every_typed. Qed.

Lemma leaveRoom_typed c room : is_u64 c → all_typed (leaveRoom_p c room).
Proof. intros Hc. unfold leaveRoom_p, find_room, save_board. every_typed. Qed.

Lemma handleEvent_typed now c room ev :
  is_u64 c → event_typed P ev → all_typed (handleEvent_p now c room ev).
Proof. intros Hc He. unfold handleEvent_p, find_room, save_board. every_typed. Qed.

Lemma dispatch_typed evs : all_typed (dispatchOutgoing_p evs).
Proof.
  induction evs as [|e evs IH]; [done|]. cbn [dispatchOutgoing_p]. unfold registry_deliver_p.
  every_typed. exact IH.
Qed.

Ltac handler_typed :=
  repeat first
    [ by apply joinRoom_typed | by apply leaveRoom_typed | by apply handleEvent_typed | apply dispatch_typed
    | every_typed ].

Lemma stop_typed c : is_u64 c → all_typed (stopImpl_p c).
Proof. intros Hc. unfold stopImpl_p. handler_typed. Qed.

Lemma message_typed now c m :
  is_u64 c → message_points P m → message_style m → all_typed (handleMessage_p now c m).
Proof.
  intros Hc Hp Hs. assert (∀ room ev, event_request m = Some (room, Value ev) → event_typed P ev) as He.
  { intros room ev. by apply event_request_typed. }
  unfold handleMessage_p, sendError.
  destruct m as [| |r|r|r col th p|r p|r|r p|r]; cbn [event_request] in *;
    try (destruct (toCoreEvent_StrokeBegin col th p) as [ev|e]; [pose proof (He _ _ eq_refl)|]); handler_typed.
Qed.

Lemma handler_all_typed op :
  (∀ c, strand_of op = Some c → is_u64 c) → op_points P op → all_typed (handler op).
Proof.
  intros Hc Hp. destruct op as [|d now line|d ok|d|d]; cbn [handler strand_of] in *.
  - handler_typed.
  - unfold onReadLine_p, handleLine_p. destruct line as [line|].
    + apply every_action_bind; [|handler_typed].
      destruct (parseClientMessage line) as [m|e] eqn:E; [|handler_typed].
      apply message_typed; [by apply Hc|by apply Hp|by eapply parse_style].
    + apply every_action_bind; [by apply stop_typed, Hc|handler_typed].
  - unfold onWrite_p. destruct ok; simpl negb; cbn iota; [handler_typed|].
    apply every_action_bind; [by apply stop_typed, Hc|handler_typed].
  - unfold run_posted_p. apply every_action_bind; [handler_typed|].
    intros [[| |]|]; try done. by apply stop_typed, Hc.
  - handler_typed.
Qed.

(** The calls seen so far, and those to come. *)
Abbreviation typed_pool := (traced (K:=option ClientId) (@calls_typed) (λ (_ : @Server Σ) t, Forall seen_typed t)).

Lemma threads_step_typed (k : Z) (l : Label) (P0 P1 : server_pool) (x : unit) :
  pool_inv k P0 → 0 ≤ k → label_points l → threads_step l P0 = Some (x, P1) →
  typed_pool P0 → typed_pool P1.
Proof.
  intros I Hk Hl E T. destruct l as [op|st]; unfold threads_step in E.
  - destruct (_ && _) eqn:Hb; injection E as _ <-; [|done]. destruct T as [Ht Hp]. split; [done|].
    intros st p. simpl. rewrite lookup_insert. case_decide; [intros [= <-]|by apply Hp].
    apply handler_all_typed; [|done]. intros c Hc. apply andb_true_iff in Hb as [_ Hdue].
    pose proof (hi_next _ _ (pi_shared _ _ I)) as [Hn1 Hn2].
    assert (is_Some (sessions (shared P0) !! c)) as Hs.
    { destruct op as [|d now line|d ok|d|d]; simplify_eq/=;
        destruct (sessions (shared P0) !! c); [eauto|done|eauto|done|eauto|done]. }
    pose proof (hi_fresh _ _ (pi_shared _ _ I) c Hs). unfold is_u64, in_width. lia.
  - eapply (traced_next (@calls_typed)); [|exact E|exact T].
    intros B a seen s y s' t Ha _ Ht. apply Forall_app. split; [exact Ht|apply Ha].
Qed.

Lemma threads_run_typed (ls : list Label) (k : Z) (P0 P1 : server_pool) (x : unit) :
  pool_inv k P0 → Z.of_nat (length ls) ≤ k → Forall label_text ls → Forall label_points ls →
  threads_run ls P0 = Some (x, P1) → typed_pool P0 → typed_pool P1.
Proof.
  revert k P0. induction ls as [|l ls IH]; intros k P0 I Hk Htext Hl E T; [by injection E as _ <-|].
  apply Forall_cons in Htext as [Hlt Htext], Hl as [Hlp Hl]. simpl length in Hk.
  destruct (threads_step_inv k P0 l I ltac:(lia) Hlt) as (P2 & E2 & I2).
  simpl in E. unfold mbind, M_bind in E. rewrite E2 in E.
  eapply (IH (k - 1) P2 I2); [lia|done..|]. eapply (threads_step_typed k l P0); [done|lia|done..].
Qed.

Lemma new_pool_typed s : typed_pool (new_pool s).
Proof. split; [constructor|]. intros st p. simpl. by rewrite lookup_empty. Qed.

(** The calls are typed. *)
Lemma typed_calls t : Forall seen_typed t → Forall (core_op_typed P) (calls_of t).*1.
Proof.
  induction 1 as [|o t Ho _ IH]; [constructor|]. destruct o as [op y| |]; [by constructor|done..].
Qed.
End Typing.
