(* ===== verification/ThreadsProps.v ===== *)
(** * Properties of the server on several threads

    Every schedule of the handlers of [ServerThreads.v]: none of them fails or
    runs for ever, each session agrees with the rooms whenever its strand is
    idle, the calls on the core are a sequential run, every event is passed on
    once, in the order of its sender, and the snapshots handed to the sink are
    boards of their rooms.  The order between two senders is lost after the room
    is released, and so is that of the snapshots and of the first line of a
    client that joins: the theorems on schedules that reorder. *)
From S2P Require Import Prelude CoreTypes Room RoomSpec RoomRefine RoomTrace RoomProps ServerCore.
From S2P Require Import CoreProps CoreSpec Membership CoreStream Messages Mappers JsonProtocol JsonSpec JsonModel.
From S2P Require Import Session SessionInv SessionProps.
From S2P Require Import Typing Serve ServerTyping.
From S2P Require Import Interleave ServerThreads ThreadsInv ThreadsSafe ThreadsEnd ThreadsTrace ThreadsSaves ThreadsTyping.

Section Theorems.
Context `{HashOrder} {Σ : Type} `{SnapshotSink Σ} `{JsonText}.
Abbreviation server_pool := (@Pool (@Server Σ) Seen (option ClientId) _ _).

(** The schedule [ls] ends in the pool [P]; [k] more steps fit in the counters. *)
Definition scheduled (k : nat) (sink : option Σ) (ls : list Label) (P : server_pool) : Prop :=
  1 + 2 * Z.of_nat (length ls + k) < 2 ^ 64 ∧ Forall label_text ls ∧
  threads_run ls (new_pool (new_server sink)) = Some (tt, P).

Lemma scheduled_inv k sink ls P : scheduled k sink ls P → pool_inv (Z.of_nat k) P.
Proof.
  intros (Hlt & Ht & E).
  destruct (threads_run_inv ls (Z.of_nat (length ls + k)) (new_pool (new_server sink))) as (P' & E' & I);
    [apply new_pool_inv; lia|lia|done|].
  simplify_eq. by replace (Z.of_nat k) with (Z.of_nat (length ls + k) - Z.of_nat (length ls)) by lia.
Qed.

Lemma scheduled_linear k sink ls P :
  scheduled k sink ls P → linearized (new_server sink) (shared P) (trace P).*2.
Proof.
  intros (_ & _ & E). eapply (threads_run_linear (new_server sink)) in E; [apply E|].
  split; [done|]. intros st p. simpl. by rewrite lookup_empty.
Qed.

Lemma scheduled_events k sink ls P st : scheduled k sink ls P → strand_events P st.
Proof.
  intros (_ & _ & E). eapply threads_run_events; [exact E|]. intros st'. by exists [].
Qed.

(** The calls of a schedule are at most its steps. *)
Lemma scheduled_calls k sink ls P :
  scheduled k sink ls P → (length (calls_of (trace P).*2) ≤ length ls)%nat.
Proof.
  intros (_ & _ & E). eapply (threads_run_calls (new_server sink)) in E; [simpl in E; lia|].
  split; [done|]. intros st p. simpl. by rewrite lookup_empty.
Qed.

(** C6. On any number of threads, no schedule of the handlers makes one of them
    throw or reach undefined behaviour, wherever it is preempted, as long as
    the parse errors of the lines can be quoted in a message. *)
Theorem threads_never_fail (sink : option Σ) (ls : list Label) :
  1 + 2 * Z.of_nat (length ls) < 2 ^ 64 → Forall label_text ls →
  ∃ P, threads_run ls (new_pool (new_server sink)) = Some (tt, P).
Proof.
  intros Hlt Ht. destruct (threads_run_inv ls (Z.of_nat (length ls)) (new_pool (new_server sink))) as (P & E & _);
    [apply new_pool_inv; lia|lia|done|eauto].
Qed.

(** C7. Whenever no handler of a session runs, whatever the other handlers are
    in the middle of: the rooms hold the client exactly where its session
    believes it to be, so in one room at most; it is registered unless it was
    stopped; the lines it was sent were delivered in order, each once: those
    written, then its queue, then those still posted; and a write is pending
    exactly when the queue is not empty. *)
Theorem idle_session_agrees (sink : option Σ) (ls : list Label) (P : server_pool) c ss :
  scheduled 0 sink ls P → sessions (shared P) !! c = Some ss → running P !! Some c = None →
  (∀ room, core_member (core_ (shared P)) room c ↔ currentRoom_ ss = Some room) ∧
  (c ∈ registry_ (shared P) ↔ stopped_ ss = false) ∧
  delivered ss = written ss ++ writeQueue_ ss ++ queued_lines ss ∧
  (stopped_ ss = false → (writing ss = true ↔ writeQueue_ ss ≠ []) ∧ alive ss = true).
Proof.
  intros I%scheduled_inv Hs Hidle. pose proof (pi_strand _ _ I c ltac:(eauto)) as Hq.
  unfold strand_inv in Hq. rewrite Hidle in Hq.
  destruct Hq as (ss' & m & reg & Hs' & Hm & Hr & _ & V & -> & Hst). simplify_eq.
  split_and!; [done|by rewrite Hr|apply V|]. intros Hrun.
  split; [split; [apply V|by apply V]|by apply session_alive].
Qed.

(** The rooms are linearizable: the calls on the core, in the order of
    their critical sections, are a sequential run of the core, which gives
    every handler the reply it got and leaves the rooms as they are. *)
Theorem calls_linearizable (sink : option Σ) (ls : list Label) (P : server_pool) :
  scheduled 0 sink ls P →
  core_calls (calls_of (trace P).*2).*1 (new_core None) =
    Some ((calls_of (trace P).*2).*2, rooms_only (core_ (shared P))).
Proof. apply scheduled_linear. Qed.

(** C8. The abstract core is what the threads implement.  The calls of all
    handlers, in the order of their critical sections, run on a table of abstract
    rooms, give each handler the reply it got and end with the rooms as they are. *)
Theorem threads_implement_spec (sink : option Σ) (ls : list Label) (P : server_pool) :
  scheduled 0 sink ls P →
  spec_core_calls (calls_of (trace P).*2).*1 empty_core =
    ((calls_of (trace P).*2).*2, abs_core (core_ (shared P))).
Proof.
  intros Hs. pose proof (scheduled_linear _ _ _ _ Hs) as Hlin. pose proof (scheduled_calls _ _ _ _ Hs) as Hlen.
  destruct Hs as (Hlt & _).
  apply (core_calls_refine _ (Z.of_nat (length ls)) (new_core (None : option Σ)) _ (rooms_only (core_ (shared P))));
    [apply new_core_wf|apply new_core_headroom; lia|rewrite length_fmap; lia|exact Hlin].
Qed.

(** C11. A handler passes on the events its calls were answered with, in their
    order, and when it has ended it has passed on all of them; so when no
    handler runs, every event was passed to the registry exactly once. *)
Theorem events_passed_on (sink : option Σ) (ls : list Label) (P : server_pool) :
  scheduled 0 sink ls P →
  (∀ st, ∃ rest, seen_of st (trace P) ≫= replied = (seen_of st (trace P) ≫= sent) ++ rest ∧
     (running P !! st = None → rest = [])) ∧
  (running P = ∅ → ((trace P).*2 ≫= replied) ≡ₚ ((trace P).*2 ≫= sent)).
Proof.
  intros Hs. split.
  - intros st. destruct (scheduled_events _ _ _ _ st Hs) as (evs & E & Hrun). exists evs.
    split; [done|]. intros Hst. by rewrite Hst in Hrun.
  - intros Hrun. apply seen_of_permutation. intros st.
    destruct (scheduled_events _ _ _ _ st Hs) as (evs & -> & Hst).
    rewrite Hrun, lookup_empty in Hst. by rewrite Hst, app_nil_r.
Qed.

(** C12. The order of one sender is kept: the events that the handlers of one
    session address to a client in a room carry strictly increasing numbers. *)
Theorem sender_order_kept (sink : option Σ) (ls : list Label) (P : server_pool) st d room :
  scheduled 0 sink ls P → StronglySorted Z.lt (stream d room (seen_of st (trace P) ≫= sent)).
Proof.
  intros Hs. pose proof (scheduled_linear _ _ _ _ Hs) as Hlin. pose proof (scheduled_calls _ _ _ _ Hs) as Hlen.
  assert (core_headroom (Z.of_nat (length ls)) (new_core (None : option Σ))) as hr
    by (apply new_core_headroom; destruct Hs as [Hlt _]; lia).
  assert (Z.of_nat (length (calls_of (trace P).*2).*1) ≤ Z.of_nat (length ls)) as Hle
    by (rewrite length_fmap; lia).
  destruct (core_calls_stream _ _ _ _ _ d room (new_core_wf None) hr Hle Hlin) as [_ Hsub].
  rewrite <-replied_calls in Hsub. eapply sublist_StronglySorted; [|eapply sublist_StronglySorted;
    [exact Hsub|apply seqZ_StronglySorted]].
  transitivity (stream d room (seen_of st (trace P) ≫= replied)).
  - apply stream_sublist. destruct (scheduled_events _ _ _ _ st Hs) as (evs & -> & _).
    by apply sublist_inserts_r.
  - apply stream_sublist, sublist_bind, seen_of_sublist.
Qed.

(** C20. The data is typed on any number of threads: the boards, and the events
    and snapshots the handlers are given, hold the enumerators of [Color] and
    [Thickness], identifiers and numbers of 64 bits, and only coordinates with a
    property [P] that those of all requests have. *)
Theorem boards_typed (P : Point → Prop) (sink : option Σ) (ls : list Label) (Q : server_pool) :
  scheduled 0 sink ls Q → Forall (label_points P) ls →
  (∀ room r, core_room (core_ (shared Q)) room = Some r → room_typed P r) ∧
  Forall (core_reply_typed P) (calls_of (trace Q).*2).*2.
Proof.
  intros Hs Hp. pose proof (scheduled_linear _ _ _ _ Hs) as Hlin. pose proof (scheduled_calls _ _ _ _ Hs) as Hlen.
  destruct Hs as (Hlt & Ht & E). rewrite Nat.add_0_r in Hlt.
  destruct (threads_run_typed P ls (Z.of_nat (length ls)) (new_pool (new_server sink)) Q tt) as [Hseen _];
    [apply new_pool_inv; lia|lia|done|done|done|apply new_pool_typed|].
  destruct (core_calls_typed P (calls_of (trace Q).*2).*1 (Z.of_nat (length ls)) (new_core (None : option Σ))
    (calls_of (trace Q).*2).*2 (rooms_only (core_ (shared Q)))) as (Hr & Hy & _);
    [apply new_core_wf|apply new_core_headroom; lia|rewrite length_fmap; lia|by apply typed_calls|exact Hlin| |].
  - apply new_core_typed.
  - split; [exact Hr|exact Hy].
Qed.

(** C9. The numbers are enough.  Suppose the last call of a client on a room is
    a join, and no handler runs.  The events that were passed on for it since, put
    in the order of their numbers, whatever order the threads sent them in and
    whether before or after the snapshot, and leaving out those the snapshot
    has, have strictly increasing numbers and replay the board of the server on
    the snapshot. *)
Theorem numbered_events_rebuild_board (sink : option Σ) (ls : list Label) (P : server_pool) d room cs1 snap cs2 :
  scheduled 0 sink ls P → running P = ∅ →
  calls_of (trace P).*2 = cs1 ++ (CoreRoom room (OpJoin d), ReplyRoom (ReplySnapshot (Value snap))) :: cs2 →
  Forall (not_by d room) cs2.*1 →
  let evs := merge_sort by_number (newer (snap_lastSeq snap) (events_to d room ((trace P).*2 ≫= sent))) in
  StronglySorted Z.lt (ev_seq <$> evs) ∧
  ∃ r, core_room (core_ (shared P)) room = Some r ∧ d ∈ members_ r ∧ replay_all (snap_state snap) evs = board_ r.
Proof.
  intros Hs Hrun Hcs Hops evs. pose proof (scheduled_linear _ _ _ _ Hs) as Hlin.
  pose proof (scheduled_calls _ _ _ _ Hs) as Hlen.
  assert (((trace P).*2 ≫= sent) ≡ₚ ((trace P).*2 ≫= replied)) as Hp.
  { apply seen_of_permutation. intros st. destruct (scheduled_events _ _ _ _ st Hs) as (l & -> & Hst).
    rewrite Hrun, lookup_empty in Hst. by rewrite Hst, app_nil_r. }
  unfold linearized in Hlin. rewrite replied_calls in Hp. rewrite Hcs in Hlin, Hlen, Hp.
  rewrite !fmap_app, !fmap_cons in Hlin. rewrite fmap_app, fmap_cons in Hp. simpl in Hlin, Hp.
  rewrite length_app in Hlen. simpl in Hlen. destruct Hs as (Hlt & _).
  destruct (core_join_rebuilds (Z.of_nat (length ls)) None cs1.*1 cs1.*2 cs2.*1 cs2.*2 d room snap
    (rooms_only (core_ (shared P)))) as [Hsorted (r & Er & Hd & Hb)];
    [apply new_core_headroom; lia|rewrite !length_fmap; lia|by rewrite !length_fmap|exact Hlin|done|].
  assert (evs = newer (snap_lastSeq snap) (events_to d room
    ((cs1.*2 ++ ReplyRoom (ReplySnapshot (Value snap)) :: cs2.*2) ≫= reply_events))) as ->.
  { apply sort_by_number; [done|]. unfold newer, events_to. by rewrite Hp. }
  split; [done|]. by exists r.
Qed.

Lemma scheduled_saves k sink ls P : scheduled k sink ls P → saves_inv sink P.
Proof. intros (_ & _ & E). eapply threads_run_saves; [exact E|apply new_pool_saves]. Qed.

(** The room of a board that was taken during the schedule. *)
Lemma scheduled_board k sink ls P t t' room snap :
  scheduled k sink ls P → trace P = t ++ t' → board_at (Σ:=Σ) t room snap → pers_room snap = room.
Proof.
  intros Hs Ht (co & r & E & Er & ->). pose proof (scheduled_calls _ _ _ _ Hs) as Hlen.
  rewrite Ht, fmap_app, calls_of_app, length_app in Hlen. destruct Hs as (Hlt & _).
  destruct (core_calls_run (calls_of t.*2).*1 (Z.of_nat (length ls)) (new_core (None : option Σ)))
    as (ys & co' & E' & wf & _); [apply new_core_wf|apply new_core_headroom; lia|rewrite length_fmap; lia|].
  rewrite E in E'. injection E' as _ <-. simpl. by destruct (cw_room co wf room r Er).
Qed.

(** C15. What is saved is real.  The sink holds the snapshots the handlers
    handed over, in their order; and each of them was, with its strokes and its
    number, the board of its room at a moment after the accepted call of its
    handler that made it due (the end of a stroke, a clear, a leave) and before
    it was handed over. *)
Theorem saved_boards_were_real (sink : option Σ) (ls : list Label) (P : server_pool) :
  scheduled 0 sink ls P →
  snapshotSink_ (core_ (shared P)) = sink_gets (trace P).*2 sink ∧
  ∀ t st snap t', trace P = t ++ (st, Saved snap) :: t' →
    ∃ t0 call t1 t2, t = t0 ++ (st, Called call.1 call.2) :: t1 ++ t2 ∧ no_call st (t1 ++ t2) ∧
      due_room call = Some (pers_room snap) ∧
      board_at (Σ:=Σ) (t0 ++ (st, Called call.1 call.2) :: t1) (pers_room snap) snap.
Proof.
  intros Hs. pose proof (scheduled_saves _ _ _ _ Hs) as I. split; [apply I|]. intros t st snap t' Ht.
  destruct (sa_real _ _ I t st snap t' Ht) as (t0 & call & ? & -> & Hn & room & t1 & t2 & Hr & -> & Hb).
  rewrite <-app_assoc in Hb. simpl in Hb.
  assert (pers_room snap = room) as ->.
  { eapply (scheduled_board 0 sink ls P); [done| |exact Hb]. rewrite Ht. rewrite app_comm_cons, app_assoc.
    rewrite <-app_assoc. reflexivity. }
  by exists t0, call, t1, t2.
Qed.

(** C16. What is drawn is saved.  When there is a sink, every accepted end of a
    stroke and every clear is followed by a snapshot its handler hands over
    before its next call, taken from the room after that call; when the handler
    has ended it has done so. *)
Theorem drawing_is_handed_over (sink : option Σ) (ls : list Label) (P : server_pool) t st room op y t' :
  scheduled 0 sink ls P → sink ≠ None → trace P = t ++ (st, Called (CoreRoom room op) y) :: t' →
  must_save (CoreRoom room op, y) = true → running P !! st = None →
  ∃ t1 t2 snap t3, t' = t1 ++ t2 ++ (st, Saved snap) :: t3 ∧ no_call st (t1 ++ t2) ∧
    board_at (Σ:=Σ) (t ++ (st, Called (CoreRoom room op) y) :: t1) room snap.
Proof.
  intros Hs Hsink Ht Hmust Hst. pose proof (scheduled_saves _ _ _ _ Hs) as I.
  assert (has_sink (new_core sink) = true) as Hon by by destruct sink.
  destruct (sa_watch _ _ I st) as (w & _ & Hm & Hw). rewrite Hst in Hw.
  destruct (Hm Hon t (CoreRoom room op) y t' Ht Hmust) as [(t2 & snap & t3 & -> & Hn)|(_ & Hl & Hh)].
  2:{ by rewrite (Hw Hon _ Hl Hmust) in Hh. }
  destruct (sa_real _ _ I (t ++ (st, Called (CoreRoom room op) y) :: t2) st snap t3) as
    (t0 & call & t1' & E & Hn' & room' & ta & tb & Hr & -> & Hb); [by rewrite Ht, <-app_assoc|].
  destruct (last_call_same st t t0 (CoreRoom room op, y) call t2 (ta ++ tb) E Hn Hn') as (-> & <- & ->).
  assert (room' = room) as ->.
  { simpl in Hr. by destruct y as [|[|[]]]; simpl in Hr; repeat case_match; simplify_eq. }
  exists ta, tb, snap, t3. rewrite <-app_assoc in Hb |- *. split_and!; [done|done|exact Hb].
Qed.

Lemma scheduled_bounded (k : nat) (sink : option Σ) (ls : list Label) (P : server_pool) : scheduled k sink ls P → bounded P.
Proof.
  intros (Hlt & Ht & E). eapply (threads_run_bounded (Z.of_nat (length ls)) ls (new_pool (new_server sink)));
    [apply new_pool_inv; lia|done|done|exact E|]. intros N st p _. simpl. by rewrite lookup_empty.
Qed.

(** C17. Handlers terminate.  Whichever of the handlers in progress the threads
    go on with, none fails, and all of them have ended after a number of steps that
    is known before: fifteen for each, and four more for each session there is, since
    a handler passes on at most two events to each member of its room. *)
Theorem handlers_terminate (sink : option Σ) (ls : list Label) (P : server_pool)
    (pick : server_pool → option ClientId) :
  (∀ P', running P' ≠ ∅ → is_Some (running P' !! pick P')) →
  scheduled (steps_left P) sink ls P →
  ∃ n P', (n ≤ size (running P) * (15 + 4 * size (sessions (shared P))))%nat ∧
    drive pick n P = Some (tt, P') ∧ running P' = ∅ ∧ server_inv 0 (shared P').
Proof.
  intros Hpick Hs. pose proof (scheduled_inv _ _ _ _ Hs) as I.
  destruct (drive_ends (S (size (sessions (shared P)))) pick (steps_left P) (Z.of_nat (steps_left P)) P)
    as (n & P' & Hn & E & Hrun & I'); [done|done|done|unfold accepting; repeat case_match; lia| |].
  - by eapply bounded_paid, scheduled_bounded.
  - exists n, P'. split_and!; [exact Hn|done|done|by apply quiescent_inv].
Qed.
End Theorems.

(** ** Schedules that reorder *)

#[local] Existing Instance elements_order.

(** A handler begun, and run until it ends. *)
Definition whole (op : ServerOp) : list Label := Begin op :: replicate 14 (Next (strand_of op)).

(** Three clients in room 1. *)
Definition three_join : list Label :=
  (connect 1 ++ [say 1 CreateRoomRequest; say 1 (JoinRoomRequest 1)] ++
   connect 2 ++ [say 2 (JoinRoomRequest 1)] ++ connect 3 ++ [say 3 (JoinRoomRequest 1)]) ≫= whole.

(** The first begins a stroke; before its handler has told the others, the
    second clears the board. *)
Definition crossing : list Label :=
  three_join ++ Begin (say 1 (StrokeBeginRequest 1 2 1 (mkPointDto 0 0))) :: replicate 4 (Next (Some 1)) ++
  whole (say 2 (ClearRequest 1)) ++ replicate 14 (Next (Some 1)).

(** The first ends a stroke; between the copy of the board and its hand-over to
    the sink, the second clears the board. *)
Definition overtaking : list Label :=
  three_join ++ whole (say 1 (StrokeBeginRequest 1 2 1 (mkPointDto 0 0))) ++
  Begin (say 1 (StrokeEndRequest 1)) :: replicate 5 (Next (Some 1)) ++
  whole (say 2 (ClearRequest 1)) ++ replicate 14 (Next (Some 1)).

Abbreviation demo_pool := (@Pool demo_server Seen (option ClientId) _ _).

Definition pool_after (ls : list Label) : demo_pool :=
  match threads_run ls (new_pool (new_server (Some []))) with
  | Some (_, P) => P
  | None => new_pool (new_server None)
  end.

(** Checks that the lines of a concrete schedule parse. *)
Ltac by_labels :=
  repeat first
    [ apply Forall_nil | apply Forall_cons; split | exact Logic.I
    | let E := fresh in intros ? E; vm_compute in E; discriminate ].

Lemma crossing_text : Forall label_text crossing.
Proof. unfold crossing, three_join, whole, connect, say. simpl. by_labels. Defined.

Lemma overtaking_text : Forall label_text overtaking.
Proof. unfold overtaking, three_join, whole, connect, say. simpl. by_labels. Defined.

Lemma crossing_scheduled (k : nat) : (k ≤ 1000)%nat → scheduled k (Some []) crossing (pool_after crossing).
Proof.
  intros Hk. split; [|split; [exact crossing_text|vm_compute; reflexivity]].
  assert (length crossing ≤ 1000)%nat by by_decision. lia.
Defined.

(** The events passed on to the client [d], in the order they were. *)
Definition received (d : ClientId) (P : demo_pool) : list OutgoingEvent :=
  filter (λ e, ev_to e = d) ((trace P).*2 ≫= sent).

(** C38. Two senders can cross: a member of the room is sent the clearing of the
    board, numbered 2, before the stroke, numbered 1, that it cleared, and is
    left with a stroke the server does not have, when all handlers have ended. *)
Theorem events_can_cross :
  ∃ ls P r, Forall label_text ls ∧ threads_run ls (new_pool (new_server (Some []))) = Some (tt, P) ∧
    running P = ∅ ∧ core_room (core_ (shared P)) 1 = Some r ∧
    (3 ∈ members_ r ∧ ev_seq <$> received 3 P = [2; 1]) ∧
    strokes (board_ r) = [] ∧ strokes (replay_all (mkBoardState [] ∅) (received 3 P)) ≠ [].
Proof.
  eexists crossing, (pool_after crossing), _. split; [exact crossing_text|].
  split; [vm_compute; reflexivity|]. split; [vm_compute; reflexivity|].
  split; [vm_compute; reflexivity|]. split; [split; [by_decision|vm_compute; reflexivity]|].
  split; [vm_compute; reflexivity|]. vm_compute. discriminate.
Qed.

(** C39. A snapshot can overtake: the sink is given the cleared board, numbered
    3, before the board with the stroke, numbered 2, so what is saved last is
    not the board of the room, when all handlers have ended. *)
Theorem snapshots_can_go_back :
  ∃ ls P r snaps last, Forall label_text ls ∧
    threads_run ls (new_pool (new_server (Some []))) = Some (tt, P) ∧
    running P = ∅ ∧ core_room (core_ (shared P)) 1 = Some r ∧
    snapshotSink_ (core_ (shared P)) = Some (snaps ++ [last]) ∧
    pers_lastSeq <$> snaps = [3] ∧ pers_lastSeq last = 2 ∧ lastSeq r = 3 ∧
    strokes (board_ r) = [] ∧ pers_strokes last ≠ [].
Proof.
  eexists overtaking, (pool_after overtaking), _, [_], _. split; [exact overtaking_text|].
  split; [vm_compute; reflexivity|]. split; [vm_compute; reflexivity|].
  split; [vm_compute; reflexivity|]. split; [vm_compute; reflexivity|].
  do 4 (split; [vm_compute; reflexivity|]). vm_compute. discriminate.
Qed.

(** The second client joins; between its join of the room and the line of its
    snapshot, the first begins a stroke. *)
Definition overtaken_join : list Label :=
  ((connect 1 ++ [say 1 CreateRoomRequest; say 1 (JoinRoomRequest 1)] ++ connect 2) ≫= whole) ++
  Begin (say 2 (JoinRoomRequest 1)) :: replicate 3 (Next (Some 2)) ++
  whole (say 1 (StrokeBeginRequest 1 2 1 (mkPointDto 0 0))) ++ replicate 14 (Next (Some 2)).

Lemma overtaken_join_text : Forall label_text overtaken_join.
Proof. unfold overtaken_join, whole, connect, say. simpl. by_labels. Defined.

(** The snapshot and the event of the schedule. *)
Definition join_snapshot : RoomSnapshot := mkRoomSnapshot 1 0 (mkBoardState [] ∅) [2; 1].
Definition early_event : OutgoingEvent :=
  mkOutgoingEvent 1 2 1 (StrokeBeginOut 1 1 1 Green Medium (mkPoint 0 0)).

(** C37. An event can overtake the snapshot of a join.  A client that joined is
    sent an event of the room before its snapshot, which does not have it: when
    all handlers have ended, the last line of the client is a snapshot without
    the stroke that is on the board, and nothing will tell it of this stroke. *)
Theorem event_can_overtake_snapshot :
  ∃ ls P r ss e snap event_line snapshot_line,
    Forall label_text ls ∧ threads_run ls (new_pool (new_server (Some []))) = Some (tt, P) ∧
    running P = ∅ ∧ core_room (core_ (shared P)) 1 = Some r ∧ 2 ∈ members_ r ∧
    sessions (shared P) !! 2 = Some ss ∧ delivered ss = [event_line; snapshot_line] ∧
    wire (toServerMessage e) = Some event_line ∧ wire (toSnapshotMessage snap) = Some snapshot_line ∧
    snap_lastSeq snap < ev_seq e ∧ length (strokes (snap_state snap)) = 0%nat ∧ length (strokes (board_ r)) = 1%nat.
Proof.
  eexists overtaken_join, (pool_after overtaken_join), _, _, early_event, join_snapshot, _, _.
  split; [exact overtaken_join_text|]. split; [vm_compute; reflexivity|]. split; [vm_compute; reflexivity|].
  split; [vm_compute; reflexivity|]. split; [by_decision|]. split; [vm_compute; reflexivity|].
  split; [vm_compute; reflexivity|]. split; [vm_compute; reflexivity|]. split; [vm_compute; reflexivity|].
  split; [vm_compute; reflexivity|]. split; vm_compute; reflexivity.
Qed.

(** ** Witnesses *)

Lemma threads_never_fail_witness :
  Forall label_text crossing ∧ ∃ P : demo_pool, threads_run crossing (new_pool (new_server (Some []))) = Some (tt, P).
Proof.
  split; [exact crossing_text|]. apply threads_never_fail; [|exact crossing_text].
  assert (length crossing ≤ 1000)%nat by by_decision. lia.
Defined.

(** The first client's handler is preempted, the second session is idle. *)
Definition preempted : list Label :=
  three_join ++ Begin (say 1 (StrokeBeginRequest 1 2 1 (mkPointDto 0 0))) :: replicate 4 (Next (Some 1)).

Lemma preempted_scheduled (k : nat) : (k ≤ 1000)%nat → scheduled k (Some []) preempted (pool_after preempted).
Proof.
  intros Hk. split; [|split; [unfold preempted, three_join, whole, connect, say; simpl; by_labels|vm_compute; reflexivity]].
  assert (length preempted ≤ 1000)%nat by by_decision. lia.
Defined.

Lemma idle_session_agrees_witness :
  is_Some (running (pool_after preempted) !! Some 1) ∧
  core_member (core_ (shared (pool_after preempted))) 1 2 ∧ 2 ∈ registry_ (shared (pool_after preempted)).
Proof.
  split; [vm_compute; eauto|].
  destruct (idle_session_agrees (Some []) preempted (pool_after preempted) 2
    (default new_session (sessions (shared (pool_after preempted)) !! 2))) as (Hm & Hreg & _);
    [apply (preempted_scheduled 0); lia|vm_compute; reflexivity..|].
  split; [apply Hm; vm_compute; reflexivity|apply Hreg; vm_compute; reflexivity].
Defined.

Lemma calls_linearizable_witness :
  length (calls_of (trace (pool_after crossing)).*2) = 6%nat ∧
  core_calls (calls_of (trace (pool_after crossing)).*2).*1 (new_core None) =
    Some ((calls_of (trace (pool_after crossing)).*2).*2, rooms_only (core_ (shared (pool_after crossing)))).
Proof.
  split; [vm_compute; reflexivity|]. apply (calls_linearizable (Some []) crossing).
  apply (crossing_scheduled 0). lia.
Defined.

Lemma threads_implement_spec_witness :
  length (calls_of (trace (pool_after crossing)).*2) = 6%nat ∧
  spec_core_calls (calls_of (trace (pool_after crossing)).*2).*1 empty_core =
    ((calls_of (trace (pool_after crossing)).*2).*2, abs_core (core_ (shared (pool_after crossing)))).
Proof.
  split; [vm_compute; reflexivity|]. apply (threads_implement_spec (Some []) crossing).
  apply (crossing_scheduled 0). lia.
Defined.

Lemma overtaken_join_scheduled (k : nat) :
  (k ≤ 1000)%nat → scheduled k (Some []) overtaken_join (pool_after overtaken_join).
Proof.
  intros Hk. split; [|split; [exact overtaken_join_text|vm_compute; reflexivity]].
  assert (length overtaken_join ≤ 1000)%nat by by_decision. lia.
Defined.

(** The calls of the schedule in which an event overtakes the snapshot of a join. *)
Definition join_calls : list (CoreOp * CoreReply) := calls_of (trace (pool_after overtaken_join)).*2.

(** The client that was sent the event before its snapshot can still find the stroke. *)
Lemma numbered_events_rebuild_board_witness :
  ∃ evs r, evs = merge_sort by_number (newer 0 (events_to 2 1 ((trace (pool_after overtaken_join)).*2 ≫= sent))) ∧
    length evs = 1%nat ∧ core_room (core_ (shared (pool_after overtaken_join))) 1 = Some r ∧
    length (strokes (board_ r)) = 1%nat ∧ replay_all (snap_state join_snapshot) evs = board_ r.
Proof.
  destruct (numbered_events_rebuild_board (Some []) overtaken_join (pool_after overtaken_join) 2 1
    (take 2 join_calls) join_snapshot (drop 3 join_calls)) as (_ & r & Er & _ & Hb).
  - apply (overtaken_join_scheduled 0). lia.
  - vm_compute. reflexivity.
  - vm_compute. reflexivity.
  - vm_compute. repeat constructor; discriminate.
  - eexists _, r. split; [reflexivity|]. split; [vm_compute; reflexivity|]. split; [exact Er|].
    split; [|exact Hb]. rewrite <-Hb. vm_compute. reflexivity.
Defined.

(** The preempted handler still owes its two events. *)
Lemma events_passed_on_witness :
  length (seen_of (Some 1) (trace (pool_after preempted)) ≫= replied) = 2%nat ∧
  ∃ rest, seen_of (Some 1) (trace (pool_after preempted)) ≫= replied =
    (seen_of (Some 1) (trace (pool_after preempted)) ≫= sent) ++ rest.
Proof.
  split; [vm_compute; reflexivity|].
  destruct (events_passed_on (Some []) preempted (pool_after preempted)
    (preempted_scheduled 0 ltac:(lia))) as [Hst _].
  destruct (Hst (Some 1)) as (rest & E & _). exists rest. exact E.
Defined.

Lemma sender_order_kept_witness :
  stream 3 1 (seen_of (Some 1) (trace (pool_after crossing)) ≫= sent) = [1] ∧
  StronglySorted Z.lt (stream 3 1 (seen_of (Some 1) (trace (pool_after crossing)) ≫= sent)).
Proof.
  split; [vm_compute; reflexivity|]. apply (sender_order_kept (Some []) crossing).
  apply (crossing_scheduled 0). lia.
Defined.

Lemma overtaking_scheduled (k : nat) : (k ≤ 1000)%nat → scheduled k (Some []) overtaking (pool_after overtaking).
Proof.
  intros Hk. split; [|split; [exact overtaking_text|vm_compute; reflexivity]].
  assert (length overtaking ≤ 1000)%nat by by_decision. lia.
Defined.

(** The observation number [i] of the overtaking schedule. *)
Definition seen_at (i : nat) : Seen :=
  match trace (pool_after overtaking) !! i with Some (_, o) => o | None => Called CoreCreate (ReplyCreated 0) end.

Definition saved_at (i : nat) : PersistedBoardSnapshot :=
  match seen_at i with Saved snap => snap | _ => mkPersistedBoardSnapshot 0 0 [] end.

Definition call_at (i : nat) : CoreOp * CoreReply :=
  match seen_at i with Called op y => (op, y) | _ => (CoreCreate, ReplyCreated 0) end.

(** The first client hands over its board, with the stroke, after the other has
    handed over the cleared one. *)
Lemma saved_boards_were_real_witness :
  length (pers_strokes (saved_at 9)) = 0%nat ∧ length (pers_strokes (saved_at 12)) = 1%nat ∧
  ∃ t0 call t1 t2, take 12 (trace (pool_after overtaking)) = t0 ++ (Some 1, Called call.1 call.2) :: t1 ++ t2 ∧
    board_at (Σ:=list PersistedBoardSnapshot) (t0 ++ (Some 1, Called call.1 call.2) :: t1) 1 (saved_at 12).
Proof.
  split; [vm_compute; reflexivity|]. split; [vm_compute; reflexivity|].
  destruct (saved_boards_were_real (Some []) overtaking (pool_after overtaking)) as [_ Hreal];
    [apply (overtaking_scheduled 0); lia|].
  destruct (Hreal (take 12 (trace (pool_after overtaking))) (Some 1) (saved_at 12)
    (drop 13 (trace (pool_after overtaking)))) as (t0 & call & t1 & t2 & E & _ & _ & Hb); [vm_compute; reflexivity|].
  exists t0, call, t1, t2. split; [exact E|exact Hb].
Defined.

(** The end of the stroke of the first client. *)
Lemma drawing_is_handed_over_witness :
  call_at 7 = (CoreRoom 1 (OpApply 0 1 StrokeEnd), (call_at 7).2) ∧
  ∃ t1 t2 snap t3, drop 8 (trace (pool_after overtaking)) = t1 ++ t2 ++ (Some 1, Saved snap) :: t3 ∧
    board_at (Σ:=list PersistedBoardSnapshot)
      (take 7 (trace (pool_after overtaking)) ++ (Some 1, Called (CoreRoom 1 (OpApply 0 1 StrokeEnd)) (call_at 7).2) :: t1) 1 snap.
Proof.
  split; [vm_compute; reflexivity|].
  destruct (drawing_is_handed_over (Some []) overtaking (pool_after overtaking) (take 7 (trace (pool_after overtaking)))
    (Some 1) 1 (OpApply 0 1 StrokeEnd) (call_at 7).2 (drop 8 (trace (pool_after overtaking))))
    as (t1 & t2 & snap & t3 & E & _ & Hb).
  - apply (overtaking_scheduled 0). lia.
  - discriminate.
  - vm_compute. reflexivity.
  - vm_compute. reflexivity.
  - vm_compute. reflexivity.
  - exists t1, t2, snap, t3. split; [exact E|exact Hb].
Defined.

Lemma crossing_points : Forall (label_points (λ p, point_finite (fromCorePoint p))) crossing.
Proof.
  unfold crossing, three_join, whole, connect, say. simpl.
  repeat first
    [ apply Forall_nil | apply Forall_cons; split | exact Logic.I
    | intros ? E; vm_compute in E; injection E as <-; first [exact Logic.I | by_decision] ].
Defined.

Lemma boards_typed_witness :
  strokes (board_ (default (new_room 1) (core_room (core_ (shared (pool_after preempted))) 1))) ≠ [] ∧
  room_typed (λ p, point_finite (fromCorePoint p))
    (default (new_room 1) (core_room (core_ (shared (pool_after crossing))) 1)).
Proof.
  split; [vm_compute; discriminate|].
  destruct (boards_typed (λ p, point_finite (fromCorePoint p)) (Some []) crossing (pool_after crossing)) as [Hr _];
    [apply (crossing_scheduled 0); lia|exact crossing_points|].
  apply (Hr 1). vm_compute. reflexivity.
Defined.

(** A scheduler that takes the first of the strands in progress. *)
Definition first_running (P : demo_pool) : option ClientId :=
  match map_to_list (running P) with (st, _) :: _ => st | [] => None end.

Lemma first_running_runs P : running P ≠ ∅ → is_Some (running P !! first_running P).
Proof.
  intros Hne. unfold first_running. destruct (map_to_list (running P)) as [|[st p] l] eqn:E.
  - by apply map_to_list_empty_iff in E.
  - exists p. apply elem_of_map_to_list. rewrite E. by left.
Qed.

(** Two handlers in progress, with three sessions: at most 54 steps. *)
Definition two_handlers : list Label := preempted ++ [Begin (say 2 (ClearRequest 1)); Next (Some 2)].

(** The run succeeds: computed without writing out the programs in progress. *)
Lemma two_handlers_run : threads_run two_handlers (new_pool (new_server (Some []))) = Some (tt, pool_after two_handlers).
Proof.
  assert (match threads_run two_handlers (new_pool (new_server (Some []))) with Some _ => true | None => false end = true)
    as Hs by (vm_compute; reflexivity).
  unfold pool_after. by destruct (threads_run two_handlers _) as [[[] P]|].
Qed.

Lemma two_handlers_scheduled (k : nat) : (k ≤ 1000)%nat → scheduled k (Some []) two_handlers (pool_after two_handlers).
Proof.
  intros Hk. split; [|split; [|exact two_handlers_run]].
  - assert (length two_handlers ≤ 1000)%nat by by_decision. lia.
  - unfold two_handlers, preempted, three_join, whole, connect, say. simpl. by_labels.
Qed.

Lemma handlers_terminate_witness :
  size (running (pool_after two_handlers)) = 2%nat ∧
  ∃ n (P' : demo_pool), (n ≤ 54)%nat ∧ drive first_running n (pool_after two_handlers) = Some (tt, P') ∧ running P' = ∅.
Proof.
  split; [vm_compute; reflexivity|].
  destruct (handlers_terminate (Some []) two_handlers (pool_after two_handlers) first_running first_running_runs)
    as (n & P' & Hn & E & Hrun & _).
  - assert (steps_left (pool_after two_handlers) = 54%nat) as -> by (vm_compute; reflexivity).
    apply two_handlers_scheduled. lia.
  - exists n, P'. split; [|split; [exact E|exact Hrun]].
    assert (size (running (pool_after two_handlers)) * (15 + 4 * size (sessions (shared (pool_after two_handlers)))) = 54)%nat
      as Hb by (vm_compute; reflexivity). rewrite Hb in Hn. exact Hn.
Defined.
