(* ===== verification/ThreadsWriter.v ===== *)
(** * The threads of the process

    [main] runs the handlers on several threads and the writer has one of its
    own.  [erase] forgets the writer but for the snapshots it was given; every
    action of a handler commutes with it and an action of the writer's thread is
    not seen ([process_simulation]), so a run of the whole is a schedule of
    [ServerThreads.v], and a writer that any program can reach.  With what these
    two promise, the boards that were handed over are passed to [save] in
    order. *)
From S2P Require Import Prelude CoreTypes Room RoomSpec RoomRefine RoomTrace RoomProps ServerCore.
From S2P Require Import CoreProps Membership Emptied Typing Messages Mappers JsonProtocol JsonSpec JsonModel.
From S2P Require Import SnapshotStore StrokeBlob SqliteStore SnapshotWriter SavedRuns Session SessionInv SessionProps.
From S2P Require Import Serve ServerTyping Process Main Interleave ServerThreads ThreadsInv ThreadsSafe ThreadsTrace.
From S2P Require Import ThreadsSaves ThreadsEmptied ThreadsTyping ThreadsProps.

(** ** Forgetting the sink *)

Section Erase.
Context `{HashOrder} {Σ : Type} `{SnapshotSink Σ} `{JsonLib}.

Abbreviation log := (list PersistedBoardSnapshot).
Implicit Types s : @Server Σ.

Definition erase_core (co : @ServerCore Σ) : @ServerCore log :=
  mkServerCore (core_rooms co) (sink_log <$> snapshotSink_ co).

Definition erase s : @Server log := mkServer (erase_core (core_ s)) (registry_ s) (sessions s) (nextClientId_ s).

(** [a'] does without the sink what [a] does with it; [h] relates the results. *)
Definition commutes {B B'} (h : B → B') (a : M (@Server Σ) B) (a' : M (@Server log) B') : Prop :=
  ∀ s, a' (erase s) = (λ r, (h r.1, erase r.2)) <$> a s.

(** The sink is given some snapshots. *)
Definition fed s s' : Prop := ∃ ts : log, snapshotSink_ (core_ s') = (λ σ, foldl (λ σ t, enqueue t σ) σ ts) <$> snapshotSink_ (core_ s).

#[export] Instance fed_preorder : PreOrder fed.
Proof.
  split.
  - intros s. exists []. by destruct (snapshotSink_ (core_ s)).
  - intros s1 s2 s3 [ts E1] [ts' E2]. exists (ts ++ ts'). rewrite E2, E1.
    destruct (snapshotSink_ (core_ s1)); [|done]. simpl. by rewrite foldl_app.
Qed.

Lemma fed_same s s' : core_ s' = core_ s → fed s s'.
Proof. intros E. exists []. rewrite E. by destruct (snapshotSink_ (core_ s)). Qed.

Lemma commutes_bind {A A' B B'} (h : A → A') (g : B → B') a a' f f' :
  commutes h a a' → (∀ x, commutes g (f x) (f' (h x))) → commutes g (a ≫= f) (a' ≫= f').
Proof.
  intros Ha Hf s. unfold mbind, M_bind. rewrite Ha. destruct (a s) as [[x s1]|]; [apply Hf|done].
Qed.

Lemma commutes_then {A B B'} (g : B → B') (a : M (@Server Σ) A) a' f f' :
  commutes id a a' → (∀ x, commutes g (f x) (f' x)) → commutes g (a ≫= f) (a' ≫= f').
Proof. apply commutes_bind. Qed.

Lemma commutes_ret {A} (x : A) : commutes id (mret x) (mret x).
Proof. by intros s. Qed.

Lemma commutes_undefined {A} : commutes (@id A) undefined undefined.
Proof. by intros s. Qed.

Lemma commutes_session c f : commutes id (on_session c f) (on_session c f).
Proof. by intros s. Qed.

Lemma commutes_this c : commutes id (this c) (this c).
Proof. intros s. unfold this, mbind, M_bind, get. simpl. by destruct (sessions s !! c). Qed.

Lemma commutes_remove c : commutes id (registry_remove c) (registry_remove c).
Proof. by intros s. Qed.

Lemma commutes_rooms {A} (m : M RoomManager A) : commutes id (on_core (on_rooms m)) (on_core (on_rooms m)).
Proof. intros s. unfold on_core, on_rooms. simpl. by destruct (m (core_rooms (core_ s))) as [[]|]. Qed.

Lemma commutes_get : commutes erase_core (on_core get) (on_core get).
Proof. intros s. by destruct s. Qed.

Lemma commutes_enqueue snap : commutes id (on_core (enqueue_snapshot snap)) (on_core (enqueue_snapshot snap)).
Proof.
  intros s. unfold on_core, enqueue_snapshot, modify, erase, erase_core. simpl. do 3 f_equal. f_equal.
  destruct (snapshotSink_ (core_ s)); [|done]. simpl. f_equal. by rewrite sink_log_enqueue.
Qed.

Lemma commutes_accept : commutes id acceptSession acceptSession.
Proof. by intros s. Qed.
End Erase.

Create HintDb commutes.
#[export] Hint Resolve commutes_ret commutes_undefined commutes_session commutes_this commutes_remove
  commutes_rooms commutes_enqueue commutes_accept : commutes.

(** Goes through an action of a session. *)
Ltac commute :=
  repeat first
    [ solve [auto 2 with commutes nocore] | eapply commutes_then
    | progress intros | progress case_match | case_bool_decide ].

Section Actions.
Context `{HashOrder} {Σ : Type} `{SnapshotSink Σ} `{JsonLib}.

Lemma commutes_deliver c msg : commutes (Σ:=Σ) id (deliver c msg) (deliver c msg).
Proof. unfold deliver. commute. Qed.

Lemma commutes_find c : commutes (Σ:=Σ) id (registry_find c) (registry_find c).
Proof.
  intros s. unfold registry_find, mbind, M_bind, get. simpl. case_bool_decide; [done|].
  unfold this, mbind, M_bind, get. simpl. destruct (sessions s !! c) as [ss|]; [|done]. simpl. by destruct (alive ss).
Qed.

Lemma commutes_doRead c : commutes (Σ:=Σ) id (doReadLine c) (doReadLine c).
Proof. unfold doReadLine. commute. Qed.

Lemma commutes_doWrite c : commutes (Σ:=Σ) id (doWrite c) (doWrite c).
Proof. unfold doWrite. commute. Qed.

#[local] Hint Resolve commutes_deliver commutes_find commutes_doRead commutes_doWrite : commutes.

Lemma commutes_onWrite c : commutes (Σ:=Σ) id (onWrite c true) (onWrite c true).
Proof. unfold onWrite. simpl negb. cbn iota. commute. Qed.

Lemma commutes_exchange c : commutes (Σ:=Σ) id (exchange_stopped c) (exchange_stopped c).
Proof. unfold exchange_stopped. commute. Qed.

Lemma commutes_take c : commutes (Σ:=Σ) id (take_posted c) (take_posted c).
Proof. unfold take_posted, run_task. commute. Qed.

Lemma commutes_read c b : commutes (Σ:=Σ) id (on_session c (set_reading b) ;; doReadLine c) (on_session c (set_reading b) ;; doReadLine c).
Proof. commute. Qed.
End Actions.

(** ** Handlers without the sink *)

Section Handlers.
Context `{HashOrder} {Σ : Type} `{SnapshotSink Σ} `{JsonLib}.
Abbreviation log := (list PersistedBoardSnapshot).

(** The two programs do the same, with and without the sink. *)
Inductive same_prog {A : Type} : prog (@Server Σ) Seen A → prog (@Server log) Seen A → Prop :=
  | same_return x : same_prog (Return x) (Return x)
  | same_act {B B'} (h : B → B') a a' seen seen' rest rest' :
      commutes h a a' → within fed a → (∀ x, seen' (h x) = seen x) →
      (∀ x, same_prog (rest x) (rest' (h x))) → same_prog (Act a seen rest) (Act a' seen' rest').

Lemma same_bind {A B} (p : prog (@Server Σ) Seen A) p' (f : A → prog (@Server Σ) Seen B) f' :
  same_prog p p' → (∀ x, same_prog (f x) (f' x)) → same_prog (p ≫= f) (p' ≫= f').
Proof.
  intros Hp Hf. induction Hp as [x|B1 B1' h a a' seen seen' rest rest' Ha Hw Hs _ IH]; [apply Hf|].
  by apply (same_act h).
Qed.

Lemma same_ret {A} (x : A) : same_prog (mret x) (mret x).
Proof. apply same_return. Qed.

Lemma same_observed {A} (a : M (@Server Σ) A) a' seen :
  commutes id a a' → within fed a → same_prog (observed a seen) (observed a' seen).
Proof. intros Ha Hw. apply (same_act id); [done..|]. intros x. apply same_return. Qed.

Lemma same_prog_local {A} (a : M (@Server Σ) A) a' seen :
  commutes id a a' → within same_core a → same_prog (observed a seen) (observed a' seen).
Proof. intros Ha Hw. apply same_observed; [done|]. intros s x s' E. by apply fed_same, (Hw s x s'). Qed.

Lemma fed_rooms {A} (m : M RoomManager A) : within fed (on_core (on_rooms m) : M (@Server Σ) A).
Proof.
  intros s x s' E. exists []. unfold on_core, on_rooms in E. destruct (m (core_rooms (core_ s))) as [[]|]; [|done].
  injection E as _ <-. simpl. by destruct (snapshotSink_ (core_ s)).
Qed.

Lemma same_rooms_call {A} (m : M RoomManager A) seen :
  same_prog (observed (on_core (on_rooms m)) seen) (observed (on_core (on_rooms m)) seen).
Proof. apply same_observed; [apply commutes_rooms|apply fed_rooms]. Qed.

Lemma same_rooms_atomic {A} (m : M RoomManager A) :
  same_prog (atomic (on_core (on_rooms m))) (atomic (on_core (on_rooms m))).
Proof. apply same_rooms_call. Qed.

Lemma same_save ptr : same_prog (save_board ptr) (save_board ptr).
Proof.
  apply same_bind; [apply same_rooms_call|]. intros snap. apply same_observed; [apply commutes_enqueue|].
  intros s x s' [= _ <-]. by exists [snap].
Qed.

Lemma same_if_sink {A} (p : prog (@Server Σ) Seen unit) p' (x : A) :
  same_prog p p' →
  same_prog (core ← atomic (on_core get); (if has_sink core then p else mret tt) ;; mret x)
    (core ← atomic (on_core get); (if has_sink core then p' else mret tt) ;; mret x).
Proof.
  intros Hp. apply (same_act erase_core); [apply commutes_get| |done|].
  - intros s co s' E. by apply fed_same, (core_get s co s').
  - intros co. apply (same_bind (if has_sink co then p else mret tt)); [|intros []; apply same_ret].
    replace (has_sink (erase_core co)) with (has_sink co) by by destruct co as [? []].
    destruct (has_sink co); [done|apply same_ret].
Qed.
End Handlers.

Create HintDb same_prog.
#[export] Hint Resolve same_ret same_rooms_call same_rooms_atomic same_save : same_prog.
#[export] Hint Resolve commutes_deliver commutes_find commutes_doRead commutes_doWrite commutes_onWrite
  commutes_exchange commutes_take commutes_read : commutes.
#[export] Hint Extern 1 (same_prog (atomic _) _) =>
  apply same_prog_local; [solve [auto 2 with commutes nocore]|solve [auto with local_action nocore]] : same_prog.
#[export] Hint Extern 1 (same_prog (observed _ _) _) =>
  apply same_prog_local; [solve [auto 2 with commutes nocore]|solve [auto with local_action nocore]] : same_prog.

(** Goes through a handler. *)
Ltac same :=
  repeat first
    [ solve [auto 2 with same_prog nocore] | apply same_if_sink | apply same_bind
    | progress intros | progress case_match | case_bool_decide ].

Section Same.
Context `{HashOrder} {Σ : Type} `{SnapshotSink Σ} `{JsonLib}.

Lemma same_joinRoom c room : same_prog (Σ:=Σ) (joinRoom_p c room) (joinRoom_p c room).
Proof. unfold joinRoom_p, find_room, on_ptr. same. Qed.

Lemma same_leaveRoom c room : same_prog (Σ:=Σ) (leaveRoom_p c room) (leaveRoom_p c room).
Proof. unfold leaveRoom_p, find_room, on_ptr. same. Qed.

Lemma same_handleEvent now c room ev : same_prog (Σ:=Σ) (handleEvent_p now c room ev) (handleEvent_p now c room ev).
Proof. unfold handleEvent_p, find_room, on_ptr. same. Qed.

Lemma same_dispatch evs : same_prog (Σ:=Σ) (dispatchOutgoing_p evs) (dispatchOutgoing_p evs).
Proof.
  induction evs as [|e evs IH]; [apply same_ret|]. cbn [dispatchOutgoing_p]. unfold registry_deliver_p.
  apply same_bind; [same|done].
Qed.

#[local] Hint Resolve same_joinRoom same_leaveRoom same_handleEvent same_dispatch : same_prog.

Lemma same_stop c : same_prog (Σ:=Σ) (stopImpl_p c) (stopImpl_p c).
Proof. unfold stopImpl_p. same. Qed.

Lemma same_message now c msg : same_prog (Σ:=Σ) (handleMessage_p now c msg) (handleMessage_p now c msg).
Proof. unfold handleMessage_p, sendError, createRoom. same. Qed.

#[local] Hint Resolve same_stop same_message : same_prog.

Lemma same_handler op : same_prog (Σ:=Σ) (handler op) (handler op).
Proof.
  destruct op as [|c now line|c ok|c|c]; cbn [handler].
  - same.
  - unfold onReadLine_p, handleLine_p, sendProtocolError, sendError. same.
  - unfold onWrite_p. destruct ok; same.
  - unfold run_posted_p. same.
  - same.
Qed.
End Same.

(** ** Schedules without the sink *)

Section Simulation.
Context `{HashOrder} {Σ : Type} `{SnapshotSink Σ} `{JsonLib}.
Abbreviation log := (list PersistedBoardSnapshot).
Abbreviation sink_pool := (@Pool (@Server Σ) Seen (option ClientId) _ _).
Abbreviation log_pool := (@Pool (@Server log) Seen (option ClientId) _ _).

(** The pool [P'] is [P] without the sink. *)
Record simulates (P : sink_pool) (P' : log_pool) : Prop := {
  sim_shared : shared P' = erase (shared P);
  sim_running st : option_Forall2 same_prog (running P !! st) (running P' !! st);
  sim_trace : trace P' = trace P;
}.

Lemma new_pool_simulates sink : simulates (new_pool (new_server sink)) (new_pool (new_server (sink_log <$> sink))).
Proof. split; [done| |done]. intros st. simpl. rewrite !lookup_empty. constructor. Qed.

(** A change of the sink alone is not seen. *)
Lemma simulates_shared P P' s :
  erase s = erase (shared P) → simulates P P' → simulates (mkPool s (running P) (trace P)) P'.
Proof. intros E [A B C]. split; simpl; [by rewrite E|done|done]. Qed.

Lemma pool_next_simulates st P P' x P1' :
  simulates P P' → pool_next st P' = Some (x, P1') →
  ∃ P1, pool_next st P = Some (x, P1) ∧ simulates P1 P1' ∧ fed (shared P) (shared P1).
Proof.
  intros [Hs Hr Ht] E. unfold pool_next in *. pose proof (Hr st) as Hst.
  destruct Hst as [p p' Hp|]; [|injection E as <- <-; exists P; split; [done|]; split; [by split|done]].
  destruct Hp as [y|B B' h a a' seen seen' rest rest' Hc Hf Hseen Hrest].
  - injection E as <- <-. eexists. split; [reflexivity|]. split; [|done]. split; [done| |done].
    intros k. simpl. rewrite !lookup_delete. case_decide; [constructor|apply Hr].
  - rewrite Hs, Hc in E. destruct (a (shared P)) as [[y s]|] eqn:Ea; [|done]. injection E as <- <-.
    eexists. split; [reflexivity|]. split; [|by apply (Hf (shared P) y s)]. split; simpl; [done| |].
    + intros k. rewrite !lookup_insert. case_decide; [constructor; apply Hrest|apply Hr].
    + by rewrite Ht, Hseen.
Qed.

Lemma threads_step_simulates l P P' x P1' :
  simulates P P' → threads_step l P' = Some (x, P1') →
  ∃ P1, threads_step l P = Some (x, P1) ∧ simulates P1 P1' ∧ fed (shared P) (shared P1).
Proof.
  intros S E. destruct l as [op|st]; [|by apply (pool_next_simulates st P P')].
  destruct S as [Hs Hr Ht]. unfold threads_step in *.
  assert (due op (shared P') = due op (shared P)) as Hdue by (rewrite Hs; by destruct op).
  assert (bool_decide (running P' !! strand_of op = None) = bool_decide (running P !! strand_of op = None)) as Hfree.
  { apply bool_decide_ext. by destruct (Hr (strand_of op)). }
  rewrite Hdue, Hfree in E. destruct (_ && _); injection E as <- <-; eexists; (split; [reflexivity|]);
    (split; [|done]); split; try done.
  intros k. simpl. rewrite !lookup_insert. case_decide; [constructor; apply same_handler|apply Hr].
Qed.
End Simulation.

(** ** The process on its threads *)

Section Process.
Context `{HashOrder} {Σ : Type} `{SnapshotStore Σ} `{JsonLib}.
Abbreviation Process := (@Server (@LiveWriter Σ)).
Abbreviation process_pool := (@Pool Process Seen (option ClientId) _ _).

(** A step of the handlers, or an action of the writer's thread. *)
Inductive ProcessLabel :=
  | Io (l : Label)
  | Saver (woken : bool).

Definition process_threads_step (l : ProcessLabel) : M process_pool unit := λ P,
  match l with
  | Io l => threads_step l P
  | Saver woken => Some (tt, mkPool (on_writer (writer_act (thread_act woken)) (shared P)) (running P) (trace P))
  end.

Fixpoint process_threads (ls : list ProcessLabel) : M process_pool unit :=
  match ls with
  | [] => mret tt
  | l :: ls => process_threads_step l ;; process_threads ls
  end.

Definition handlers_of (ls : list ProcessLabel) : list Label :=
  omap (λ l, match l with Io l => Some l | Saver _ => None end) ls.

Lemma writer_runs_fed σ0 keep s s' :
  fed s s' → writer_runs (Σ:=Σ) σ0 keep (core_ s) → writer_runs σ0 keep (core_ s').
Proof.
  intros [ts E] (w & Hw & Hr). unfold writer_runs. rewrite E, Hw. clear E Hw. simpl.
  revert w Hr. induction ts as [|t ts IH]; intros w Hr; [by exists w|]. apply IH. by apply enqueue_runs.
Qed.

(** The thread of the writer is not seen. *)
Lemma writer_not_seen σ0 keep woken (p : Process) :
  writer_runs σ0 keep (core_ p) →
  erase (on_writer (writer_act (thread_act woken)) p) = erase p ∧
  writer_runs σ0 keep (core_ (on_writer (writer_act (thread_act woken)) p)).
Proof.
  intros (w & Hw & Hr). destruct (writer_act_spec σ0 keep woken w Hr) as [Hr' Hp]. split.
  - unfold erase, erase_core. simpl. rewrite Hw. do 2 f_equal. simpl. by rewrite Hp.
  - eexists. simpl. rewrite Hw. by split.
Qed.

(** Every schedule of the handlers alone, with a sink that records, is the one
    of the process: the handlers do the same, whatever the writer does between
    them, and the writer is one that any program can reach. *)
Lemma process_simulation (σ0 : Σ) (keep : Z) (ls : list ProcessLabel) (P : process_pool) P' (x : unit) P1' :
  simulates P P' → writer_runs σ0 keep (core_ (shared P)) →
  threads_run (handlers_of ls) P' = Some (x, P1') →
  ∃ P1, process_threads ls P = Some (tt, P1) ∧ simulates P1 P1' ∧ writer_runs σ0 keep (core_ (shared P1)).
Proof.
  revert P P'. induction ls as [|l ls IH]; intros P P' S Hw E.
  { injection E as <- <-. by exists P. }
  cbn [process_threads]. unfold mbind, M_bind. destruct l as [l|woken]; cbn [handlers_of omap list_omap] in E.
  - simpl in E. unfold mbind, M_bind in E. destruct (threads_step l P') as [[[] P2']|] eqn:E2; [|done].
    destruct (threads_step_simulates l P P' tt P2' S E2) as (P2 & E2' & S2 & Hf). simpl. rewrite E2'.
    apply (IH P2 P2'); [done| |exact E]. by eapply writer_runs_fed.
  - destruct (writer_not_seen σ0 keep woken (shared P) Hw) as [He Hw']. simpl.
    apply (IH _ P'); [|done|exact E]. by apply simulates_shared.
Qed.
End Process.

(** ** What is handed over *)

Section HandedOver.
Context `{HashOrder} {Σ : Type} `{SnapshotSink Σ} `{JsonText} `{!JsonLaws}.
Abbreviation server_pool := (@Pool (@Server Σ) Seen (option ClientId) _ _).

(** The snapshots of a trace. *)
Definition handed_over (t : list Seen) : list PersistedBoardSnapshot :=
  t ≫= λ o, match o with Saved snap => [snap] | _ => [] end.

Lemma recorded t (l : list PersistedBoardSnapshot) : foldl give l t = l ++ handed_over t.
Proof.
  revert l. induction t as [|o t IH]; intros l; [by rewrite app_nil_r|]. simpl. rewrite IH.
  destruct o; simpl; [done| |done]. by rewrite <-app_assoc.
Qed.

Lemma elem_of_handed_over t snap : snap ∈ handed_over t ↔ Saved snap ∈ t.
Proof.
  unfold handed_over. rewrite list_elem_of_bind. split.
  - intros (o & Hs & Ho). destruct o as [|p|]; [by apply elem_of_nil in Hs| |by apply elem_of_nil in Hs].
    apply list_elem_of_singleton in Hs. by subst.
  - intros Ho. exists (Saved snap). split; [by left|done].
Qed.

(** Its board was one of the room, at a moment of the schedule. *)
Lemma handed_over_board (sink : option Σ) (ls : list Label) (P : server_pool) (snap : PersistedBoardSnapshot) :
  scheduled 0 sink ls P → snap ∈ handed_over (trace P).*2 →
  ∃ t t', trace P = t ++ t' ∧ board_at (Σ:=Σ) t (pers_room snap) snap.
Proof.
  intros Hs [[st o] [Ho Hin]]%elem_of_handed_over%list_elem_of_fmap. simpl in Ho. subst o.
  apply list_elem_of_split in Hin as (t & t' & Ht). pose proof (scheduled_saves _ _ _ _ Hs) as I.
  destruct (sa_real _ _ I t st snap t' Ht) as (t0 & call & ? & -> & _ & room & t1 & t2 & _ & -> & Hb).
  assert (trace P = ((t0 ++ [(st, Called call.1 call.2)]) ++ t1) ++ t2 ++ (st, Saved snap) :: t') as E
    by (rewrite Ht, <-!app_assoc; simpl; by rewrite <-!app_assoc).
  eexists _, _. split; [exact E|]. by rewrite (scheduled_board 0 sink ls P _ _ room snap Hs E Hb).
Qed.

(** The board of a room at any moment is typed. *)
Lemma board_at_typed (sink : option Σ) (ls : list Label) (P : server_pool) (t t' : list (option ClientId * Seen)) (room : RoomId) (snap : PersistedBoardSnapshot) :
  scheduled 0 sink ls P → trace P = t ++ t' → board_at (Σ:=Σ) t room snap → saved_typed float_point snap.
Proof.
  intros Hs Ht (co & r & E & Er & ->). pose proof (scheduled_calls _ _ _ _ Hs) as Hlen.
  rewrite Ht, fmap_app, calls_of_app, length_app in Hlen. destruct Hs as (Hlt & Htext & Erun).
  rewrite Nat.add_0_r in Hlt.
  assert (Forall (label_points float_point) ls) as Hp.
  { apply Forall_forall. intros [[|c now [line|]|c ok|c|c]|st] _; simpl; try done. apply parse_bits. }
  destruct (threads_run_typed float_point ls (Z.of_nat (length ls)) (new_pool (new_server sink)) P tt) as [Hseen _];
    [apply new_pool_inv; lia|lia|done|done|done|apply new_pool_typed|].
  rewrite Ht, fmap_app in Hseen. apply Forall_app in Hseen as [Hseen%typed_calls _].
  assert (core_headroom (Z.of_nat (length ls)) (new_core (None : option Σ))) as hr by (apply new_core_headroom; lia).
  assert (Z.of_nat (length (calls_of t.*2).*1) ≤ Z.of_nat (length ls)) as Hle by (rewrite length_fmap; lia).
  destruct (core_calls_run (calls_of t.*2).*1 (Z.of_nat (length ls)) (new_core (None : option Σ)))
    as (ys & co' & E' & wf & hr' & _); [apply new_core_wf|done|done|]. rewrite E in E'. injection E' as <- <-.
  destruct (core_calls_typed float_point _ _ _ _ _ (new_core_wf None) hr Hle Hseen E (new_core_typed _ _)) as [T _].
  destruct (cw_room co wf room r Er) as [_ wr]. destruct hr' as [_ hr']. specialize (hr' _ _ Er).
  apply room_saved_typed; [by apply (T room)|done|]. unfold headroom in hr'. lia.
Qed.

Lemma handed_over_typed (sink : option Σ) (ls : list Label) (P : server_pool) :
  scheduled 0 sink ls P → Forall (saved_typed float_point) (handed_over (trace P).*2).
Proof.
  intros Hs. apply Forall_forall. intros snap Hin.
  destruct (handed_over_board _ _ _ _ Hs Hin) as (t & t' & Ht & Hb). by eapply board_at_typed.
Qed.

(** When no handler runs, the board of a room without members is among them. *)
Lemma emptied_handed_over (sink : option Σ) (ls : list Label) (P : server_pool) (room : RoomId) (r : Room) :
  scheduled 0 sink ls P → sink ≠ None → running P = ∅ →
  core_room (core_ (shared P)) room = Some r → members_ r = ∅ → nextSeq_ r ≠ 1 →
  makePersistedSnapshot r ∈ handed_over (trace P).*2.
Proof.
  intros (Hlt & Ht & E) Hsink Hrun Hr Hm Hn.
  pose proof (threads_run_emptied (Z.of_nat (length ls)) ls (new_pool (new_server sink)) tt P) as He.
  destruct He as [_ _ Hpaid]; [apply new_pool_inv; lia|lia|done|done|by apply new_pool_emptied|].
  destruct (Hpaid room (makePersistedSnapshot r)) as [[st Hin]|(st & p & Hp & _)]; [by exists r| |].
  - apply elem_of_handed_over, list_elem_of_fmap. by exists (st, Saved (makePersistedSnapshot r)).
  - by rewrite Hrun, lookup_empty in Hp.
Qed.
End HandedOver.

(** ** What the store keeps *)

Section Stored.
Context `{HashOrder} `{JsonText} `{!JsonLaws} `{SqliteLaws} `{Allocator}.

Lemma new_writer_pushed (σ0 : ClockedStore) keep w : new_writer (Some σ0) keep = Value w → pushed w = [].
Proof. unfold new_writer. destruct (store_init σ0) as [[|] σ]; [|done]. by intros [= <-]. Qed.

End Stored.

(** ** Witness *)

#[local] Existing Instance elements_order.
#[local] Existing Instance memory_sqlite.
#[local] Existing Instance memory_laws.
#[local] Existing Instance roomy.

Definition fresh_store : ClockedStore := store_at machine "".

Definition fresh_writer : LiveWriter :=
  match make_writer fresh_store with Value w => w | Unexpected _ => idle_writer end.

Lemma fresh_writer_new : new_writer (Some fresh_store) 10 = Value (`fresh_writer).
Proof.
  apply make_writer_new. unfold fresh_writer.
  assert (match make_writer fresh_store with Value _ => true | Unexpected _ => false end = true) as Hv
    by (vm_compute; reflexivity).
  by destruct (make_writer fresh_store).
Qed.

(** A client draws and leaves; the writer's thread wakes up in the middle of the
    handlers, saves both boards and blocks. *)
Definition demo_threads : list ProcessLabel :=
  Io <$> ((connect 1 ++ [say 1 CreateRoomRequest; say 1 (JoinRoomRequest 1);
    say 1 (StrokeBeginRequest 1 2 1 (mkPointDto 0 0))]) ≫= whole) ++
  Begin (say 1 (StrokeEndRequest 1)) :: replicate 5 (Next (Some 1)).

Definition demo_rest : list ProcessLabel :=
  replicate 2 (Saver false) ++ (Io <$> replicate 9 (Next (Some 1))) ++ replicate 2 (Saver true) ++
  (Io <$> whole (say 1 (LeaveRoomRequest 1))) ++ replicate 9 (Saver false).

(** The boards after the end of the stroke and after the client left. *)
Definition demo_saved (seq : Z) : PersistedBoardSnapshot :=
  mkPersistedBoardSnapshot 1 seq [mkStroke 1 1 Green Medium 1 [mkPoint 0 0] true].

Lemma second_later :
  saved_later (demo_saved 3) (save_all 10 [demo_saved 2] (snd (store_init fresh_store))).
Proof.
  split; [vm_compute; reflexivity|]. intros c r E Hr _. vm_compute in E. injection E as <-.
  vm_compute in Hr. apply list_elem_of_singleton in Hr as ->. vm_compute. reflexivity.
Qed.

